(* ===== verification/_CoqProject ===== *)
-Q . S2P
Prelude.v
Bytes.v
Bitmap.v
RecordPage.v
PageAlloc.v
BufferPool.v
RecordFile.v
Compare.v
BplusTree.v
BplusInv.v
BplusStep.v
BplusInsert.v
BplusDelete.v
BplusScan.v
BplusIndex.v
BplusPage.v
BplusLog.v
LogFile.v
DiskLog.v
RecordLog.v
MvccTrx.v
HeapTable.v
RingBuffer.v
Float32.v
Value.v
Expr.v
Tuple.v
TableMeta.v
Exec.v
ExecLaws.v
Logical.v
Rewrite.v
RewriteSound.v
Plan.v
PlanSound.v
IndexPlan.v
OrderBy.v
GroupBy.v
Binder.v
SqlSpec.v
IvfIndex.v
IvfSearch.v
OrderedCode.v
LsmIter.v
LsmTable.v
