(* ===== verification/Prelude.v ===== *)
(** * MiniOB: a verification development of the database kernel

    MiniOB is a small relational database server.  This library models the parts of its
    observer process that carry the logic of storing, indexing, recovering and reading
    data, as executable Rocq definitions translated from the C++ sources under [src/src],
    and proves what makes each part correct.

    ** The program and where it is modelled

    Data live in files of fixed-size pages.  [DiskBufferPool] keeps pages in frames,
    writes them back through a double-write buffer, and hands out page numbers from a
    bitmap in the file's header page.  A table is a file of record pages
    ([RecordFileHandler]) with B+ tree indexes ([BplusTreeHandler]); every change is
    logged ([DiskLogHandler]) before its page reaches the disk, and replayed after a
    crash.  Transactions ([MvccTrx]) mark rows with begin and end stamps.  A second
    engine stores rows in an LSM tree under order-preserving keys.

    - [Prelude]: return codes ([common/sys/rc.h]), machine integers, C arrays and byte
      regions as lists, the shared tactics and hints.  [Bytes]: integers in memory.
    - [Bitmap] ([common/lang/bitmap.cpp]), [RecordPage] ([RowRecordPageHandler] of
      [storage/record/record_manager.cpp]), [RecordFile] ([RecordFileHandler] and
      [HeapRecordScanner]): records in slots, pages, files.
    - [PageAlloc] and [BufferPool] ([storage/buffer/]): the file header, page allocation
      and its redo; frames, pins, eviction, flushing, the double-write buffer.
    - [Compare] ([common/lang/comparator.cpp], [lower_bound.h]); [BplusTree], [BplusScan]
      (operations of [storage/index/bplus_tree.cpp]), [BplusInv], [BplusStep],
      [BplusInsert], [BplusDelete] (invariant, proof rules, proofs), [BplusIndex] (what
      the index promises), [BplusPage] (node pages as bytes), [BplusLog] (mini-transactions,
      their log records, rollback and redo).
    - [LogFile] and [DiskLog] ([storage/clog/]): log entries, files, buffer, flush thread,
      replay.  [RecordLog] ([storage/record/record_log.cpp]): page operations and redo.
    - [MvccTrx] ([storage/trx/mvcc_trx.cpp]): sessions, stamps, visibility, commit,
      rollback.
    - [HeapTable] ([storage/table/heap_table_engine.cpp], [storage/index/
      bplus_tree_index.cpp]): records and indexes together.
    - [IvfIndex], [IvfSearch] ([storage/index/ivfflat_index.cpp]): the vector index, its
      training, search and file; searches of it by the physical operators.
    - [OrderedCode] ([storage/common/codec.h]), [LsmIter] ([oblsm/]: key formats, blocks,
      merging and user iterators), [LsmTable] ([LsmTableEngine], [LsmRecordScanner]).
    - [RingBuffer] ([observer/net/ring_buffer.cpp]).

    The SQL layer reads and changes the tables:

    - [Float32] (IEEE single precision as the code computes with it), [Value]
      ([common/value.cpp], [common/type/]), [Expr] ([sql/expr/expression.cpp]), [Tuple]
      ([sql/expr/tuple.h] and the other tuples), [TableMeta] ([storage/table/table_meta.cpp],
      [Table::make_record]): values, expressions over tuples, schemas and records.
    - [Exec] ([sql/operator/]): the physical operators with their mutable state, the
      client's loop over them; [ExecLaws]: the rows that each of them yields, for any child.
    - [Logical] ([sql/optimizer/logical_plan_generator.cpp]): plans and their meaning
      [denote]; [Rewrite] (the rules of [rewriter.cpp]) and [RewriteSound] (they end and
      keep the meaning); [Plan] ([physical_plan_generator.cpp], [optimize_stage.cpp]).
    - [Binder] ([sql/parser/expression_binder.cpp], [sql/stmt/]): the resolver, from parse
      trees to statements; [SqlSpec]: a reference semantics of SELECT on parse trees and
      records, which the server is compared with.
    - [PlanSound], [IndexPlan], [OrderBy], [GroupBy]: what the client receives for SELECT,
      with an index, with ORDER BY, with GROUP BY, and what DELETE does; [PlanSound] and
      [IndexPlan] put the tables of [RecordFile] and [HeapTable] under the plans.

    Each file keeps the source's names.  State is passed explicitly: a record for a C++
    object, a finite map for a table of pages, frames or rows; a function returns its [RC]
    beside the new state.  A failed [ASSERT] is [None] and the theorems show it does not
    happen.  [int]s are [Z] with [int32], [int64], [uint32], ... written where the code
    can wrap.

    ** What is proved

    - Refinement: a record page is a finite map from slots to records; a record file is a
      map from locations to records; the buffer pool is a map from pages to contents; the
      index is a sorted list of entries, over every history of insertions and deletions;
      a table with its indexes is a map of records, with every index equal to the set of
      its records' entries.
    - Recovery: replaying the record log, the allocation log or the index log over any
      mixture of old page images restores the state before the crash; the disk log returns
      what was appended; torn pages are restored from the double-write buffer; the
      write-ahead rule holds in every reachable state.
    - Transactions: the invariant of every interleaving, snapshot isolation, atomic commit
      and rollback, write-write conflicts.
    - Order and round trips: key codes sort as their fields do and parse back; merged LSM
      iterators show exactly the newest visible versions; scans are complete.
    - Queries: evaluation is type-safe and does not fail on a planned WHERE clause; the
      rewriting loop ends on every plan and keeps the rows of a SELECT; from the parse tree
      on, SELECT returns the rows of the reference semantics and DELETE removes the rows
      that satisfy its conditions; bound statements with the chosen access path, ORDER BY
      and GROUP BY return what their clauses say; a record that INSERT builds reads back as
      the values that were given.
    - Vectors: the vector index refines a collection of vectors; a search returns the
      nearest ones in the order of their distance, among all rows if every list is probed;
      its file reads back.
    - Behaviour at the limits: what a torn log tail does, what fails an assertion and why
      (see the theorems of kind "error").

    ** Interfaces

    [PageAllocator] and [KeyOrder] ([BplusTree]) are what the index needs of the buffer
    pool and of attribute comparison; [TableIndex]/[TableIndexLaws] ([HeapTable]) what a
    table needs of an index; [Iterator]/[IteratorLaws] ([LsmIter]) what readers need of a
    source of LSM entries; [Comparator] ([Compare]) what searching needs of a comparison.
    [PhysicalOperator] ([Exec]) is a record of operations; [yields] and [opens] are its laws,
    from which the laws of the operators above it follow.  [TableRows] ([ExecLaws]) is what a
    scan needs of a table's scanner, [IndexFinds] ([IndexPlan]) what an index scan needs of an
    index, [StdSort] ([Exec]) what ORDER BY needs of [std::sort], [CLib] ([Value]) the number
    conversions of the C library, of which nothing is assumed, [RandomSource] ([IvfIndex]) the
    generator of [train_kmeans].  Clients are proved against
    the classes, implementations are instances.

    ** Fuel and bounds

    Loops of the source that are not structural take fuel; the theorems fix it: a page's
    height for tree walks, the number of entries plus one for scans and iterators, the
    number of bytes for parsers, and show that more is never needed.  Index histories are
    limited by the pages a file has (three pages per entry are always enough); LSNs and
    transaction numbers are taken not to reach 2^63.  Theorems about the execution of a
    statement say [eventually]: there is a number from which on every fuel gives the result.

    ** Not modelled

    Latches and memory ordering (operations of one structure run one after the other;
    transactions and the log are interleaved at the granularity of their calls); I/O
    errors other than a crash; opening and closing of files; [PaxRecordPageHandler], the
    LSM skip list, SSTables, compaction and write-ahead log, whose bodies are unfinished
    exercises in this revision; the SQL parser (generated): a statement is given
    to the model as a parse tree; the statements of DDL and the commands that only call one
    storage operation; the cascade optimizer, which is off by default; vectorised operators;
    the JSON form of table metadata; network protocols, configuration and logging.  The
    number of system columns of a table is a parameter of the resolver.  [Value]s own their text in the model; in the code a copy of
    an empty string keeps a stale pointer ([Value::set_string_from_other]), so that theorems
    about CHARS values hold of the code for strings that are not empty. *)

From Stdlib Require Export ZArith Lia Bool.
From stdpp Require Export base tactics list numbers option gmap.
#[global] Open Scope Z_scope.

(** ** Return codes ([src/src/common/sys/rc.h]) *)

(** The enumeration [RC]. *)
Inductive RC : Set :=
| SUCCESS | INVALID_ARGUMENT | UNIMPLEMENTED | SQL_SYNTAX | INTERNAL | NOMEM
| NOTFOUND | EMPTY | FULL | EXIST | NOT_EXIST
| BUFFERPOOL_OPEN | BUFFERPOOL_NOBUF | BUFFERPOOL_INVALID_PAGE_NUM
| RECORD_OPENNED | RECORD_INVALID_RID | RECORD_INVALID_KEY | RECORD_DUPLICATE_KEY
| RECORD_NOMEM | RECORD_EOF | RECORD_NOT_EXIST | RECORD_INVISIBLE
| SCHEMA_DB_EXIST | SCHEMA_DB_NOT_EXIST | SCHEMA_DB_NOT_OPENED
| SCHEMA_TABLE_NOT_EXIST | SCHEMA_TABLE_EXIST | SCHEMA_FIELD_NOT_EXIST
| SCHEMA_FIELD_MISSING | SCHEMA_FIELD_TYPE_MISMATCH | SCHEMA_INDEX_NAME_REPEAT
| IOERR_READ | IOERR_WRITE | IOERR_ACCESS | IOERR_OPEN | IOERR_CLOSE | IOERR_SEEK
| IOERR_TOO_LONG | IOERR_SYNC
| LOCKED_UNLOCK | LOCKED_NEED_WAIT | LOCKED_CONCURRENCY_CONFLICT
| FILE_EXIST | FILE_NOT_EXIST | FILE_NAME | FILE_BOUND | FILE_CREATE | FILE_OPEN
| FILE_NOT_OPENED | FILE_CLOSE | FILE_REMOVE
| VARIABLE_NOT_EXISTS | VARIABLE_NOT_VALID
| LOGBUF_FULL | LOG_FILE_FULL | LOG_ENTRY_INVALID
| JSON_PARSE_FAILED | JSON_MEMBER_MISSING | RANGE_ERROR | WAL_INVALID_FILENAME
| INPUT_EOF | INVALID_TOKEN | UNEXPECTED_END_OF_STRING | SYNTAX_ERROR | UNSUPPORTED.

#[export] Instance RC_eq_dec : EqDecision RC.
Proof. solve_decision. Defined.

Definition OB_SUCC (rc : RC) : bool := bool_decide (rc = SUCCESS).
Definition OB_FAIL (rc : RC) : bool := bool_decide (rc <> SUCCESS).

Lemma OB_SUCC_true rc : OB_SUCC rc = true <-> rc = SUCCESS.
Proof. unfold OB_SUCC. by rewrite bool_decide_eq_true. Qed.

Lemma OB_FAIL_negb rc : OB_FAIL rc = negb (OB_SUCC rc).
Proof. by destruct rc. Qed.

(** Case analysis on [if (OB_FAIL(rc))] or [if (OB_SUCC(rc))]: success first, with
    [rc = SUCCESS] as [H], then failure with [OB_SUCC rc = false]. *)
Ltac case_rc rc H :=
  rewrite ?(OB_FAIL_negb rc) in *; destruct (OB_SUCC rc) eqn:H; cbn [negb] in *;
  [apply OB_SUCC_true in H|].

(** The tests of a call that succeeded. *)
Ltac rc_simpl := change (OB_FAIL SUCCESS) with false; change (OB_SUCC SUCCESS) with true; cbn iota.

(** One step of a chain of fallible calls. *)
Ltac bind_step := cbn [mbind option_bind].

(** ** Machine integers

    A [w]-bit integer is a [Z] in its range; wrap-around is written out where
    the source computes with it. *)

Definition wrap_u (w : Z) (x : Z) : Z := x mod 2 ^ w.
Definition wrap_s (w : Z) (x : Z) : Z := (x + 2 ^ (w - 1)) mod 2 ^ w - 2 ^ (w - 1).

Abbreviation int32 := (wrap_s 32) (only parsing).
Abbreviation int64 := (wrap_s 64) (only parsing).
Abbreviation uint8 := (wrap_u 8) (only parsing).
Abbreviation uint32 := (wrap_u 32) (only parsing).
Abbreviation uint64 := (wrap_u 64) (only parsing).

Definition INT32_MAX : Z := 2147483647.
Definition INT32_MIN : Z := -2147483648.

Definition in_int32 (x : Z) : Prop := INT32_MIN <= x <= INT32_MAX.

Lemma wrap_s_id w x : 0 < w -> - 2 ^ (w - 1) <= x < 2 ^ (w - 1) -> wrap_s w x = x.
Proof.
  intros Hw Hx. unfold wrap_s.
  assert (2 ^ w = 2 * 2 ^ (w - 1)) as E.
  { rewrite <- Z.pow_succ_r by lia. f_equal; lia. }
  rewrite Z.mod_small; lia.
Qed.

Lemma int32_id x : in_int32 x -> int32 x = x.
Proof. unfold in_int32, INT32_MIN, INT32_MAX. intros. apply wrap_s_id; cbn; lia. Qed.

Lemma wrap_u_id w x : 0 <= x < 2 ^ w -> wrap_u w x = x.
Proof. apply Z.mod_small. Qed.

Lemma wrap_u_range w x : 0 <= w -> 0 <= wrap_u w x < 2 ^ w.
Proof. intros. apply Z.mod_pos_bound. lia. Qed.

(** A C array indexed by an [int]: the list of its cells.  Reading outside the
    array is undefined in the source; [znth] answers [d] there and every theorem
    that reads carries the bound. *)
Definition znth {A} (d : A) (l : list A) (i : Z) : A :=
  if i <? 0 then d else nth (Z.to_nat i) l d.
Definition zset {A} (l : list A) (i : Z) (x : A) : list A :=
  if i <? 0 then l else <[Z.to_nat i := x]> l.
Definition zlen {A} (l : list A) : Z := Z.of_nat (length l).

Lemma zset_length {A} (l : list A) i x : length (zset l i x) = length l.
Proof. unfold zset. destruct (i <? 0); [done|]. apply length_insert. Qed.

Lemma zset_zlen {A} (l : list A) i x : zlen (zset l i x) = zlen l.
Proof. unfold zlen. by rewrite zset_length. Qed.

Lemma znth_lookup {A} (d : A) l i :
  znth d l i = if i <? 0 then d else default d (l !! Z.to_nat i).
Proof. unfold znth. destruct (i <? 0); [done|]. by rewrite nth_lookup. Qed.

Lemma znth_zset_eq {A} (d : A) l i x : 0 <= i < zlen l -> znth d (zset l i x) i = x.
Proof.
  intros Hi. rewrite znth_lookup. unfold zset, zlen in *.
  destruct (Z.ltb_spec i 0); [lia|].
  rewrite list_lookup_insert_eq by lia. done.
Qed.

Lemma znth_zset_ne {A} (d : A) l i j x : i <> j -> znth d (zset l i x) j = znth d l j.
Proof.
  intros Hij. rewrite !znth_lookup. unfold zset.
  destruct (Z.ltb_spec i 0); [done|]. destruct (Z.ltb_spec j 0); [done|].
  rewrite list_lookup_insert_ne by lia. done.
Qed.

Lemma zlen_app {X} (l r : list X) : zlen (l ++ r) = zlen l + zlen r.
Proof. unfold zlen. rewrite length_app. lia. Qed.

Lemma zlen_pos {X} (l : list X) : 0 <= zlen l.
Proof. unfold zlen. lia. Qed.

Lemma zlen_nil {X} : zlen (@nil X) = 0.
Proof. done. Qed.

Lemma zlen_cons {X} (x : X) l : zlen (x :: l) = 1 + zlen l.
Proof. unfold zlen. cbn [length]. lia. Qed.

(** Lengths of arrays: [zlens] computes them and leaves the arithmetic to [lia]. *)
Create HintDb zlens.
#[export] Hint Rewrite @zset_zlen @zlen_app @zlen_nil @zlen_cons : zlens.
#[export] Hint Resolve zlen_pos : zlens.

Ltac zlens := autorewrite with zlens in *; lia.

Lemma elem_of_rev {A} (x : A) l : x ∈ rev l <-> x ∈ l.
Proof. by rewrite !list_elem_of_In, <- in_rev. Qed.

Lemma filter_none {X} (P : X -> Prop) `{forall x, Decision (P x)} l : Forall (fun x => ~ P x) l -> filter P l = [].
Proof.
  induction l as [|x l IH]; [done|]. intros [Hx Hl]%Forall_cons. rewrite filter_cons_False by done. by apply IH.
Qed.
Lemma filter_all {X} (P : X -> Prop) `{forall x, Decision (P x)} l : Forall P l -> filter P l = l.
Proof.
  induction l as [|x l IH]; [done|]. intros [Hx Hl]%Forall_cons. rewrite filter_cons_True by done. by rewrite IH.
Qed.
Lemma filter_iff_in {X} (P Q : X -> Prop) `{!forall x, Decision (P x), !forall x, Decision (Q x)} l :
  Forall (fun x => P x <-> Q x) l -> filter P l = filter Q l.
Proof.
  induction 1 as [|x l Hx _ IH]; [done|]. rewrite !filter_cons, IH. repeat case_decide; naive_solver.
Qed.

(** ** Counted search

    [first_from p i n] is the C loop [for (k = i; k < i + n; k++) if (p(k)) return k;
    return -1;]. *)
Fixpoint first_from (p : Z -> bool) (i : Z) (n : nat) : Z :=
  match n with
  | O => -1
  | S n' => if p i then i else first_from p (i + 1) n'
  end.

Section first_from.
Context (p : Z -> bool).

Lemma first_from_cases i n :
  (first_from p i n = -1 /\ forall j, i <= j < i + Z.of_nat n -> p j = false) \/
  (i <= first_from p i n < i + Z.of_nat n /\ p (first_from p i n) = true /\
   forall j, i <= j < first_from p i n -> p j = false).
Proof.
  revert i. induction n as [|n IH]; intros i; cbn [first_from].
  - left. split; [done|]. lia.
  - destruct (p i) eqn:E.
    + right. repeat split; [lia|lia|done|]. lia.
    + destruct (IH (i + 1)) as [[-> H]|(H1 & H2 & H3)].
      * left. split; [done|]. intros j Hj.
        destruct (decide (j = i)) as [->|]; [done|]. apply H. lia.
      * right. repeat split; [lia|lia|done|]. intros j Hj.
        destruct (decide (j = i)) as [->|]; [done|]. apply H3. lia.
Qed.

Lemma first_from_app i n m : 0 <= i ->
  first_from p i (n + m) =
  let r := first_from p i n in
  if r <? 0 then first_from p (i + Z.of_nat n) m else r.
Proof.
  revert i. induction n as [|n IH]; intros i Hi; cbn [first_from Nat.add].
  - cbn. f_equal. lia.
  - destruct (p i); cbn zeta.
    + destruct (Z.ltb_spec i 0); [lia|done].
    + rewrite IH by lia. cbn zeta. destruct (_ <? 0); [|done]. f_equal. lia.
Qed.
End first_from.

Lemma first_from_ext p q i n :
  (forall j, i <= j < i + Z.of_nat n -> p j = q j) -> first_from p i n = first_from q i n.
Proof.
  revert i. induction n as [|n IH]; intros i H; [done|]. cbn.
  rewrite H by lia. rewrite IH; [done|]. intros. apply H. lia.
Qed.

Lemma first_from_shift p i k n :
  0 <= i -> 0 <= k ->
  first_from (fun j => p (k + j)) i n =
  (if first_from p (k + i) n <? 0 then -1 else first_from p (k + i) n - k).
Proof.
  intros Hi Hk. revert i Hi. induction n as [|n IH]; intros i Hi; [done|]. cbn.
  destruct (p (k + i)); [destruct (Z.ltb_spec (k + i) 0); lia|].
  rewrite IH by lia. by rewrite Z.add_assoc.
Qed.

(** ** Byte regions

    [memcpy] into and out of a byte array, at an offset. *)
Definition slice (l : list Z) (off n : Z) : list Z :=
  take (Z.to_nat n) (drop (Z.to_nat off) l).
Definition blit (l : list Z) (off : Z) (src : list Z) : list Z :=
  take (Z.to_nat off) l ++ src ++ drop (Z.to_nat off + length src) l.

Lemma blit_length l off src : 0 <= off -> off + zlen src <= zlen l -> length (blit l off src) = length l.
Proof.
  unfold blit, zlen. intros. rewrite !length_app, length_take, length_drop. lia.
Qed.

Lemma slice_length l off n : 0 <= off -> 0 <= n -> off + n <= zlen l -> zlen (slice l off n) = n.
Proof. unfold slice, zlen. intros. rewrite length_take, length_drop. lia. Qed.

Lemma slice_blit_eq l off src : 0 <= off -> off + zlen src <= zlen l ->
  slice (blit l off src) off (zlen src) = src.
Proof.
  unfold slice, blit, zlen. intros.
  rewrite drop_app_length' by (rewrite length_take; lia).
  by rewrite take_app_length' by lia.
Qed.

Lemma slice_blit_ne l off src o n : 0 <= off -> off + zlen src <= zlen l -> 0 <= o -> 0 <= n ->
  o + n <= off \/ off + zlen src <= o ->
  slice (blit l off src) o n = slice l o n.
Proof.
  unfold slice, blit, zlen. intros Hoff Hlen Ho Hn [H|H]; apply list_eq; intros i;
    rewrite !lookup_take; (destruct (decide _) as [Hi|Hi]; [|done]); rewrite !lookup_drop.
  - rewrite lookup_app_l by (rewrite length_take; lia).
    rewrite lookup_take. destruct (decide _); [done|lia].
  - rewrite lookup_app_r by (rewrite length_take; lia). rewrite length_take.
    rewrite lookup_app_r by lia. rewrite lookup_drop. f_equal. lia.
Qed.
