(* ===== verification/Bytes.v ===== *)
(** * Bytes: integers in memory

    The source writes structures to files and log payloads with [memcpy] and
    [reinterpret_cast]: the bytes of an integer, lowest first.  [le_bytes] and
    [le_value] are that representation; [Codec] is what a client needs of a fixed-size
    structure: its bytes, how to read them back, and that reading gives the structure
    written. *)

From S2P Require Import Prelude.

Fixpoint le_bytes (n : nat) (x : Z) : list Z :=
  match n with
  | O => []
  | S n' => x mod 256 :: le_bytes n' (x / 256)
  end.

Fixpoint le_value (l : list Z) : Z :=
  match l with
  | [] => 0
  | b :: l' => b + 256 * le_value l'
  end.

Definition is_byte (b : Z) : Prop := 0 <= b < 256.

Lemma le_bytes_length n x : length (le_bytes n x) = n.
Proof. revert x. induction n as [|n IH]; intros x; cbn; [done|]. by rewrite IH. Qed.

Lemma le_bytes_byte n x : Forall is_byte (le_bytes n x).
Proof.
  revert x. induction n as [|n IH]; intros x; cbn; constructor; [|apply IH].
  apply Z.mod_pos_bound. lia.
Qed.

Lemma le_value_bytes n x : le_value (le_bytes n x) = x mod 256 ^ Z.of_nat n.
Proof.
  revert x. induction n as [|n IH]; intros x.
  - cbn. by rewrite Z.mod_1_r.
  - cbn [le_bytes le_value]. rewrite IH, Nat2Z.inj_succ, Z.pow_succ_r by lia.
    rewrite Z.rem_mul_r by lia. lia.
Qed.

(** Reading back a signed integer of [8 * n] bits. *)
Lemma le_value_signed n w x : w = 8 * Z.of_nat n -> 0 < w ->
  - 2 ^ (w - 1) <= x < 2 ^ (w - 1) -> wrap_s w (le_value (le_bytes n x)) = x.
Proof.
  intros -> Hw Hx. rewrite le_value_bytes.
  replace (256 ^ Z.of_nat n) with (2 ^ (8 * Z.of_nat n)) by (rewrite Z.pow_mul_r by lia; done).
  unfold wrap_s at 1. rewrite Zplus_mod_idemp_l. by apply wrap_s_id.
Qed.

Lemma le_value_int32 x : in_int32 x -> int32 (le_value (le_bytes 4 x)) = x.
Proof. unfold in_int32, INT32_MIN, INT32_MAX. intros. apply le_value_signed; cbn; lia. Qed.

Lemma le_value_int64 x : - 2 ^ 63 <= x < 2 ^ 63 -> int64 (le_value (le_bytes 8 x)) = x.
Proof. intros. by apply le_value_signed. Qed.

(** ** Fixed-size structures *)

Class Codec (X : Type) := {
  codec_size : nat;
  codec_ok : X -> Prop;
  encode_bytes : X -> list Z;
  decode_bytes : list Z -> X;
  encode_length : forall x, length (encode_bytes x) = codec_size;
  decode_encode : forall x, codec_ok x -> decode_bytes (encode_bytes x) = x
}.

(** Reading a field at its offset from the bytes of a structure. *)
Definition field (l : list Z) (off n : nat) : list Z := take n (drop off l).

Lemma field_app_here l r n : length l = n -> field (l ++ r) 0 n = l.
Proof. intros <-. unfold field. rewrite drop_0. by rewrite take_app_length. Qed.

Lemma field_app_later l r k off n : length l = k -> field (l ++ r) (k + off) n = field r off n.
Proof. intros <-. unfold field. by rewrite drop_app_add. Qed.

Lemma field_all l n : length l = n -> field l 0 n = l.
Proof. intros <-. unfold field. rewrite drop_0. by rewrite firstn_all. Qed.

(** [readn] of [common/io]: the bytes, or the end of the file.  Reading nothing never
    fails. *)
Definition readn (file : list Z) (pos n : Z) : option (list Z) :=
  if (n <=? 0) || (pos + n <=? zlen file) then Some (slice file pos n) else None.

Lemma readn_app l m r n : zlen m = n -> readn (l ++ m ++ r) (zlen l) n = Some m.
Proof.
  intros <-. unfold readn, slice, zlen. rewrite !length_app, !Nat2Z.id.
  rewrite drop_app_length, take_app_length.
  destruct (Z.leb_spec (Z.of_nat (length l) + Z.of_nat (length m)) (Z.of_nat (length l + (length m + length r)))); [|lia].
  by rewrite orb_true_r.
Qed.

Lemma readn_short l m n : zlen m < n -> readn (l ++ m) (zlen l) n = None.
Proof.
  intros H. unfold readn. unfold zlen in *. rewrite length_app.
  destruct (Z.leb_spec n 0); [lia|].
  destruct (Z.leb_spec (Z.of_nat (length l) + n) (Z.of_nat (length l + length m))); [lia|done].
Qed.

Lemma readn_some file pos n l : readn file pos n = Some l -> 0 < n -> pos + n <= zlen file.
Proof.
  unfold readn. intros H Hn. destruct (Z.leb_spec n 0); [lia|].
  destruct (Z.leb_spec (pos + n) (zlen file)); [lia|done].
Qed.

(** ** Overwriting a part of an array *)

Lemma slice_mid a b c off n : off = zlen a -> n = zlen b -> slice (a ++ b ++ c) off n = b.
Proof. intros -> ->. unfold slice, zlen. rewrite !Nat2Z.id, drop_app_length. by rewrite take_app_length. Qed.

Lemma blit_mid a b c b' off : off = zlen a -> length b' = length b ->
  blit (a ++ b ++ c) off b' = a ++ b' ++ c.
Proof.
  intros -> Hb. unfold blit, zlen. rewrite Nat2Z.id, take_app_length. do 2 f_equal.
  rewrite Hb, app_assoc. by rewrite drop_app_length' by (rewrite length_app; lia).
Qed.

Lemma blit_front a b c : zlen c <= zlen b -> blit (a ++ b) (zlen a) c = a ++ c ++ drop (length c) b.
Proof.
  intros Hc. unfold zlen in Hc. rewrite <- (take_drop (length c) b) at 1.
  apply blit_mid; [done|]. rewrite length_take. lia.
Qed.

(** Moving [m] behind a gap of [n] bytes. *)
Lemma blit_shift (a m r x : list Z) : zlen x <= zlen r ->
  blit (a ++ m ++ r) (zlen a + zlen x) m = a ++ take (length x) (m ++ r) ++ m ++ drop (length x) r.
Proof.
  intros Hx. unfold zlen in *.
  assert (a ++ m ++ r = (a ++ take (length x) (m ++ r)) ++ take (length m) (drop (length x) (m ++ r)) ++ drop (length x) r) as E.
  { rewrite <- app_assoc. f_equal. rewrite <- (take_drop (length x) (m ++ r)) at 1. f_equal.
    rewrite <- (take_drop (length m) (drop (length x) (m ++ r))) at 1. f_equal.
    rewrite drop_drop, (Nat.add_comm (length x)). by rewrite drop_app_add. }
  rewrite E, (blit_mid _ _ _ m); [by rewrite <- app_assoc| |].
  - rewrite zlen_app. unfold zlen. rewrite length_take, length_app. lia.
  - rewrite length_take, length_drop, length_app. lia.
Qed.
