(* ===== verification/Bitmap.v ===== *)
(** * Bitmap: the slot map of a record page

    Models [src/src/common/lang/bitmap.cpp].  A [char *] of bytes is a list of
    bytes [0..255]; [char] is signed, so a byte read from it is sign-extended
    ([char_int]) before the bit operations, and the result of a compound
    assignment is truncated back to eight bits.  The two scanning routines skip
    whole bytes; the theorems show that they compute the same answer as the
    obvious bit-by-bit search. *)

From S2P Require Import Prelude.

(** [class Bitmap]: the bytes and the number of valid bits. *)
Record Bitmap := mkBitmap { bitmap_ : list Z; size_ : Z }.

(** Integer promotion of a signed [char] stored as the byte [b]. *)
Definition char_int (b : Z) : Z := if b <? 128 then b else b - 256.

Definition find_first_zero (byte start : Z) : Z :=
  first_from (fun i => Z.land (char_int byte) (Z.shiftl 1 i) =? 0) start (Z.to_nat (8 - start)).

Definition find_first_setted (byte start : Z) : Z :=
  first_from (fun i => negb (Z.land (char_int byte) (Z.shiftl 1 i) =? 0)) start (Z.to_nat (8 - start)).

Definition bytes (size : Z) : Z :=
  if Z.rem size 8 =? 0 then Z.quot size 8 else Z.quot size 8 + 1.

Definition get_bit (b : Bitmap) (index : Z) : bool :=
  let bits := char_int (znth 0 b.(bitmap_) (Z.quot index 8)) in
  negb (Z.land bits (Z.shiftl 1 (Z.rem index 8)) =? 0).

Definition set_bit (b : Bitmap) (index : Z) : Bitmap :=
  let bits := char_int (znth 0 b.(bitmap_) (Z.quot index 8)) in
  mkBitmap (zset b.(bitmap_) (Z.quot index 8)
              (uint8 (Z.lor bits (Z.shiftl 1 (Z.rem index 8))))) b.(size_).

Definition clear_bit (b : Bitmap) (index : Z) : Bitmap :=
  let bits := char_int (znth 0 b.(bitmap_) (Z.quot index 8)) in
  mkBitmap (zset b.(bitmap_) (Z.quot index 8)
              (uint8 (Z.land bits (Z.lnot (Z.shiftl 1 (Z.rem index 8)))))) b.(size_).

(** The byte loop shared by the two scans: [n] bytes are left from [iter];
    [skip byte] is the whole-byte shortcut and [find] the search in one byte. *)
Fixpoint scan_bytes (skip : Z -> bool) (find : Z -> Z -> Z) (bm : list Z)
    (iter start_in_byte : Z) (n : nat) : Z :=
  match n with
  | O => -1
  | S n' =>
      let byte := znth 0 bm iter in
      let index_in_byte := if skip byte then -1 else find byte start_in_byte in
      if 0 <=? index_in_byte then iter * 8 + index_in_byte
      else scan_bytes skip find bm (iter + 1) 0 n'
  end.

Definition next_unsetted_bit (b : Bitmap) (start : Z) : Z :=
  let ret := scan_bytes (fun byte => char_int byte =? -1) find_first_zero b.(bitmap_)
               (Z.quot start 8) (Z.rem start 8)
               (Z.to_nat (bytes b.(size_) - Z.quot start 8)) in
  if b.(size_) <=? ret then -1 else ret.

Definition next_setted_bit (b : Bitmap) (start : Z) : Z :=
  let ret := scan_bytes (fun byte => char_int byte =? 0) find_first_setted b.(bitmap_)
               (Z.quot start 8) (Z.rem start 8)
               (Z.to_nat (bytes b.(size_) - Z.quot start 8)) in
  if b.(size_) <=? ret then -1 else ret.

(** ** Invariant *)

(** Every cell is a byte and the bytes cover the valid bits. *)
Definition bitmap_ok (b : Bitmap) : Prop :=
  0 <= b.(size_) <= 8 * zlen b.(bitmap_) /\ Forall (fun x => 0 <= x < 256) b.(bitmap_).

(** ** Bits of a promoted byte *)

Lemma char_int_testbit b i : 0 <= b < 256 -> 0 <= i < 8 ->
  Z.testbit (char_int b) i = Z.testbit b i.
Proof.
  intros Hb Hi. unfold char_int. destruct (b <? 128); [done|].
  rewrite <- (Z.mod_pow2_bits_low (b - 256) 8) by lia.
  rewrite <- (Z.mod_pow2_bits_low b 8) by lia.
  f_equal. change (2 ^ 8) with 256. rewrite <- (Z_mod_plus_full (b - 256) 1 256). f_equal; lia.
Qed.

Lemma land_shiftl_zero x i : 0 <= i -> (Z.land x (Z.shiftl 1 i) =? 0) = negb (Z.testbit x i).
Proof.
  intros Hi. destruct (Z.testbit x i) eqn:E; cbn.
  - apply Z.eqb_neq. intros H0.
    assert (Z.testbit (Z.land x (Z.shiftl 1 i)) i = true) as H.
    { rewrite Z.land_spec, Z.shiftl_spec, E by lia. by rewrite Z.sub_diag. }
    rewrite H0, Z.bits_0 in H. done.
  - apply Z.eqb_eq. apply Z.bits_inj'. intros j Hj.
    rewrite Z.land_spec, Z.bits_0, Z.shiftl_spec by lia.
    destruct (decide (j = i)) as [->|]; [by rewrite E|].
    destruct (Z.lt_ge_cases j i).
    + rewrite (Z.testbit_neg_r 1) by lia. apply andb_false_r.
    + rewrite (Z.bits_above_log2 1); [apply andb_false_r|lia|]. cbn. lia.
Qed.

(** The bit at [index] as a plain [testbit] of its byte. *)
Definition bit_at (b : Bitmap) (index : Z) : bool :=
  Z.testbit (znth 0 b.(bitmap_) (index / 8)) (index mod 8).

Lemma byte_range b i : bitmap_ok b -> 0 <= znth 0 b.(bitmap_) i < 256.
Proof.
  intros [_ Hf]. rewrite znth_lookup. destruct (i <? 0); [lia|].
  destruct (b.(bitmap_) !! Z.to_nat i) eqn:E; cbn; [|lia].
  exact (Forall_lookup_1 _ _ _ _ Hf E).
Qed.

Lemma get_bit_bit_at b index : bitmap_ok b -> 0 <= index ->
  get_bit b index = bit_at b index.
Proof.
  intros Hok Hi. unfold get_bit, bit_at.
  rewrite Z.quot_div_nonneg, Z.rem_mod_nonneg by lia.
  pose proof (Z.mod_pos_bound index 8 ltac:(lia)).
  rewrite land_shiftl_zero, negb_involutive by lia.
  apply char_int_testbit; [by apply byte_range|lia].
Qed.

(** ** Single-bit updates *)

Section update.
Context (b : Bitmap) (Hok : bitmap_ok b) (i : Z) (Hi : 0 <= i < b.(size_)).

Lemma byte_index_in : 0 <= i / 8 < zlen b.(bitmap_).
Proof using Hok Hi.
  destruct Hok as [? _]. split; [apply Z.div_pos; lia|]. apply Z.div_lt_upper_bound; lia.
Qed.

(** Both compound assignments: the bits of the new byte are computed from the
    promoted old byte by [f], truncated to a byte. *)
Definition upd (f : Z -> Z -> Z) : Bitmap :=
  mkBitmap (zset b.(bitmap_) (Z.quot i 8)
              (uint8 (f (char_int (znth 0 b.(bitmap_) (Z.quot i 8))) (Z.shiftl 1 (Z.rem i 8)))))
           b.(size_).

Lemma upd_ok f : bitmap_ok (upd f).
Proof using Hok.
  destruct Hok as [Hs Hf]. unfold upd. split; cbn; [by rewrite zset_zlen|].
  unfold zset. destruct (_ <? 0); [done|].
  apply Forall_insert; [done|]. apply (wrap_u_range 8). lia.
Qed.

Lemma bit_at_upd f (g : bool -> bool -> bool)
    (Hfg : forall x y k, 0 <= k -> Z.testbit (f x y) k = g (Z.testbit x k) (Z.testbit y k))
    j : 0 <= j -> (forall x, g x false = x) ->
  bit_at (upd f) j = if decide (j = i) then g (bit_at b i) true else bit_at b j.
Proof using Hok Hi.
  intros Hj Hg. unfold bit_at, upd. cbn.
  rewrite Z.quot_div_nonneg, Z.rem_mod_nonneg by lia.
  pose proof byte_index_in as Hin.
  pose proof (Z.mod_pos_bound j 8 ltac:(lia)). pose proof (Z.mod_pos_bound i 8 ltac:(lia)).
  destruct (decide (j / 8 = i / 8)) as [E|E].
  - rewrite E, znth_zset_eq by done. unfold wrap_u.
    rewrite Z.mod_pow2_bits_low, Hfg by lia.
    rewrite char_int_testbit by (try apply byte_range; done || lia).
    rewrite Z.shiftl_spec by lia.
    destruct (decide (j = i)) as [->|Hne].
    + by rewrite Z.sub_diag.
    + assert (j mod 8 <> i mod 8).
      { intros Em. apply Hne. rewrite (Z.div_mod j 8), (Z.div_mod i 8) by lia. lia. }
      destruct (Z.lt_ge_cases (j mod 8) (i mod 8)).
      * by rewrite (Z.testbit_neg_r 1), Hg by lia.
      * rewrite (Z.bits_above_log2 1), Hg; [done|lia|cbn; lia].
  - rewrite znth_zset_ne by done. destruct (decide (j = i)) as [->|]; [done|done].
Qed.
End update.

Lemma set_bit_ok b i : bitmap_ok b -> bitmap_ok (set_bit b i).
Proof. intros. by apply (upd_ok b H i Z.lor). Qed.

Lemma clear_bit_ok b i : bitmap_ok b -> bitmap_ok (clear_bit b i).
Proof. intros. by apply (upd_ok b H i (fun x y => Z.land x (Z.lnot y))). Qed.

Lemma get_set_bit b i j : bitmap_ok b -> 0 <= i < b.(size_) -> 0 <= j ->
  get_bit (set_bit b i) j = if decide (j = i) then true else get_bit b j.
Proof.
  intros Hok Hi Hj. rewrite !get_bit_bit_at by (done || by apply set_bit_ok).
  change (set_bit b i) with (upd b i Z.lor).
  rewrite (bit_at_upd b Hok i Hi Z.lor orb); intros; [|apply Z.lor_spec|done|apply orb_false_r].
  by rewrite orb_true_r.
Qed.

Lemma get_clear_bit b i j : bitmap_ok b -> 0 <= i < b.(size_) -> 0 <= j ->
  get_bit (clear_bit b i) j = if decide (j = i) then false else get_bit b j.
Proof.
  intros Hok Hi Hj. rewrite !get_bit_bit_at by (done || by apply clear_bit_ok).
  change (clear_bit b i) with (upd b i (fun x y => Z.land x (Z.lnot y))).
  rewrite (bit_at_upd b Hok i Hi _ (fun x y => x && negb y)); intros.
  - by rewrite andb_false_r.
  - by rewrite Z.land_spec, Z.lnot_spec.
  - done.
  - apply andb_true_r.
Qed.

(** ** The scans *)

Lemma bytes_spec size : 0 <= size -> size <= 8 * bytes size < size + 8.
Proof.
  intros. unfold bytes. rewrite Z.quot_div_nonneg, Z.rem_mod_nonneg by lia.
  pose proof (Z.div_mod size 8 ltac:(lia)). pose proof (Z.mod_pos_bound size 8 ltac:(lia)).
  destruct (Z.eqb_spec (size mod 8) 0); lia.
Qed.

(** Clipping a search at a smaller bound is what [if (ret >= size_) ret = -1] does. *)
Lemma first_from_clip p i n m : 0 <= i -> (n <= m)%nat ->
  (let r := first_from p i m in if i + Z.of_nat n <=? r then -1 else r) = first_from p i n.
Proof.
  intros Hi Hnm. cbn zeta.
  destruct (first_from_cases p i n) as [[En Hn]|(R & Hp & Hl)];
    destruct (first_from_cases p i m) as [[Em Hm]|(R' & Hp' & Hl')].
  - rewrite En, Em. destruct (Z.leb_spec (i + Z.of_nat n) (-1)); lia.
  - rewrite En. destruct (Z.leb_spec (i + Z.of_nat n) (first_from p i m)); [done|].
    rewrite Hn in Hp' by lia. done.
  - rewrite Hm in Hp by lia. done.
  - assert (first_from p i m = first_from p i n) as ->.
    { destruct (Z.lt_trichotomy (first_from p i m) (first_from p i n)) as [H|[H|H]]; [|done|].
      - rewrite Hl in Hp' by lia. done.
      - rewrite Hl' in Hp by lia. done. }
    destruct (Z.leb_spec (i + Z.of_nat n) (first_from p i n)); lia.
Qed.

Section scan.
Context (b : Bitmap) (Hok : bitmap_ok b).
Context (want : bool) (skip : Z -> bool) (find : Z -> Z -> Z).
Context (Hfind : forall byte s, 0 <= byte < 256 -> 0 <= s < 8 ->
  (if skip byte then -1 else find byte s) =
  first_from (fun i => Bool.eqb (Z.testbit byte i) want) s (Z.to_nat (8 - s))).

Abbreviation hit := (fun j => Bool.eqb (bit_at b j) want).

Lemma scan_bytes_spec n iter s : 0 <= iter -> 0 <= s < 8 ->
  scan_bytes skip find b.(bitmap_) iter s n =
  first_from hit (iter * 8 + s) (n * 8 - (if n =? 0 then 0 else Z.to_nat s))%nat.
Proof using Hok Hfind.
  revert iter s. induction n as [|n IH]; intros iter s Hiter Hs; [done|].
  cbn [scan_bytes Nat.eqb].
  rewrite Hfind by (try apply byte_range; done || lia).
  replace (S n * 8 - Z.to_nat s)%nat with (Z.to_nat (8 - s) + n * 8)%nat by lia.
  rewrite first_from_app by lia. cbn zeta.
  assert (first_from (fun i => Bool.eqb (Z.testbit (znth 0 b.(bitmap_) iter) i) want) s (Z.to_nat (8 - s))
          = first_from (fun j => hit (iter * 8 + j)) s (Z.to_nat (8 - s))) as ->.
  { apply first_from_ext. intros j Hj. unfold bit_at. do 2 f_equal.
    - f_equal. rewrite Z.add_comm, Z.div_add, Z.div_small by lia. done.
    - rewrite Z.add_comm, Z.mod_add, Z.mod_small by lia. done. }
  rewrite (first_from_shift hit s (iter * 8)) by lia.
  destruct (first_from_cases hit (iter * 8 + s) (Z.to_nat (8 - s))) as [[-> _]|(R & _ & _)].
  - cbn. rewrite IH by lia. f_equal; [lia|]. destruct n; cbn; lia.
  - destruct (Z.ltb_spec (first_from hit (iter * 8 + s) (Z.to_nat (8 - s))) 0); [lia|].
    destruct (Z.leb_spec 0 (first_from hit (iter * 8 + s) (Z.to_nat (8 - s)) - iter * 8)); lia.
Qed.

Lemma scan_spec start : 0 <= start ->
  (let ret := scan_bytes skip find b.(bitmap_) (Z.quot start 8) (Z.rem start 8)
             (Z.to_nat (bytes b.(size_) - Z.quot start 8)) in
   if b.(size_) <=? ret then -1 else ret) =
  first_from (fun j => Bool.eqb (get_bit b j) want) start (Z.to_nat (b.(size_) - start)).
Proof using Hok Hfind.
  intros Hs. destruct (Hok) as [[Hsz _] _].
  rewrite Z.quot_div_nonneg, Z.rem_mod_nonneg by lia.
  pose proof (Z.mod_pos_bound start 8 ltac:(lia)).
  pose proof (Z.div_mod start 8 ltac:(lia)).
  pose proof (bytes_spec _ Hsz). pose proof (Z.div_pos start 8 ltac:(lia) ltac:(lia)).
  rewrite scan_bytes_spec by lia.
  replace (start / 8 * 8 + start mod 8) with start by lia.
  rewrite (first_from_ext (fun j => Bool.eqb (get_bit b j) want) hit)
    by (intros; rewrite get_bit_bit_at by (done || lia); done).
  destruct (Z.le_gt_cases b.(size_) start) as [Hge|Hlt].
  - rewrite (Z2Nat.nonpos (size_ b - start)) by lia. cbn [first_from].
    set (r := first_from hit start _).
    destruct (Z.leb_spec b.(size_) r); [done|].
    subst r. match goal with |- first_from ?p ?i ?n = _ =>
      destruct (first_from_cases p i n) as [[-> _]|(R & _)] end; [done|lia].
  - rewrite <- (first_from_clip hit start (Z.to_nat (b.(size_) - start))
                  (Z.to_nat (bytes b.(size_) - start / 8) * 8 -
                     (if (Z.to_nat (bytes b.(size_) - start / 8) =? 0)%nat then 0 else Z.to_nat (start mod 8)))%nat).
    + by replace (start + Z.of_nat (Z.to_nat (b.(size_) - start))) with b.(size_) by lia.
    + lia.
    + destruct (Nat.eqb_spec (Z.to_nat (bytes (size_ b) - start / 8)) 0); lia.
Qed.
End scan.

Lemma byte_scan_full want byte s : (forall i, 0 <= i < 8 -> Z.testbit byte i <> want) -> 0 <= s < 8 ->
  first_from (fun i => Bool.eqb (Z.testbit byte i) want) s (Z.to_nat (8 - s)) = -1.
Proof.
  intros Hb Hs. match goal with |- first_from ?p ?i ?n = _ =>
    destruct (first_from_cases p i n) as [[-> _]|(R & Ht & _)] end; [done|].
  apply eqb_prop in Ht. exfalso. eapply Hb; [|exact Ht]. lia.
Qed.

Lemma next_unsetted_bit_first b start : bitmap_ok b -> 0 <= start ->
  next_unsetted_bit b start =
  first_from (fun j => Bool.eqb (get_bit b j) false) start (Z.to_nat (b.(size_) - start)).
Proof.
  intros Hok Hs. apply (scan_spec b Hok false (fun byte => char_int byte =? -1)); [|done].
  intros byte s Hb Hs8. destruct (Z.eqb_spec (char_int byte) (-1)) as [E|E].
  - symmetry. apply byte_scan_full; [|done]. intros i Hi.
    rewrite <- char_int_testbit, E by done. rewrite Z.bits_m1; [done|lia].
  - unfold find_first_zero. apply first_from_ext. intros j Hj.
    rewrite land_shiftl_zero, char_int_testbit by lia. by destruct (Z.testbit byte j).
Qed.

Lemma next_setted_bit_first b start : bitmap_ok b -> 0 <= start ->
  next_setted_bit b start =
  first_from (fun j => Bool.eqb (get_bit b j) true) start (Z.to_nat (b.(size_) - start)).
Proof.
  intros Hok Hs. apply (scan_spec b Hok true (fun byte => char_int byte =? 0)); [|done].
  intros byte s Hb Hs8. destruct (Z.eqb_spec (char_int byte) 0) as [E|E].
  - symmetry. apply byte_scan_full; [|done]. intros i Hi.
    rewrite <- char_int_testbit, E by done. rewrite Z.bits_0. done.
  - unfold find_first_setted. apply first_from_ext. intros j Hj.
    rewrite land_shiftl_zero, char_int_testbit by lia. by destruct (Z.testbit byte j).
Qed.

(** ** The properties *)

(** The byte-wise scans find what a bit-by-bit search finds: [next_unsetted_bit]
    answers the first clear bit at or after [start] and [next_setted_bit] the first set
    one, [-1] when there is none below the bitmap's size. *)
Theorem next_bit_scans b start : bitmap_ok b -> 0 <= start ->
  let n := Z.to_nat (b.(size_) - start) in
  next_unsetted_bit b start = first_from (fun j => negb (get_bit b j)) start n /\
  next_setted_bit b start = first_from (fun j => get_bit b j) start n.
Proof.
  intros Hok Hs n. rewrite next_unsetted_bit_first, next_setted_bit_first by done.
  split; apply first_from_ext; intros j _; by destruct (get_bit b j).
Qed.

Lemma next_bit_scans_witness :
  let b := mkBitmap [255; 7] 12 in
  next_unsetted_bit b 2 = 11 /\ next_unsetted_bit b 2 = first_from (fun j => negb (get_bit b j)) 2 10.
Proof.
  split; [vm_compute; reflexivity|].
  refine (proj1 (next_bit_scans (mkBitmap [255; 7] 12) 2 _ _)); [|lia].
  split; [vm_compute; split; congruence|]. repeat constructor; lia.
Defined.
