(* ===== verification/RecordPage.v ===== *)
(** * RecordPage: the slotted page of fixed-size records

    Models the row format of [src/src/observer/storage/record/record_manager.cpp]:
    the page layout computed by [RecordPageHandler::init_empty_page], the four
    operations of [RowRecordPageHandler] and the page iterator.

    A page of [BP_PAGE_DATA_SIZE] bytes holds a header, the allocation bitmap and
    the record area.  The three regions are separate fields of [RecPage]; that
    they do not overlap in the page, and that the record area ends inside it, is
    [layout_fits] below.  Record data are byte lists, copied by [memcpy] at the
    slot's offset. *)

From S2P Require Import Prelude Bitmap.

Definition BP_PAGE_SIZE : Z := Z.shiftl 1 13.
Definition BP_PAGE_DATA_SIZE : Z := BP_PAGE_SIZE - 8 - 4.

(** [struct RID] *)
Record RID := mkRID { page_num : Z; slot_num : Z }.

#[export] Instance RID_eq_dec : EqDecision RID.
Proof. solve_decision. Defined.

(** [struct PageHeader] *)
Record PageHeader := mkPageHeader {
  record_num : Z;
  column_num : Z;
  record_real_size : Z;
  record_size : Z;
  record_capacity : Z;
  col_idx_offset : Z;
  data_offset : Z
}.

(** Seven [int32_t] fields. *)
Definition PAGE_HEADER_SIZE : Z := 28.

Definition align8 (size : Z) : Z := Z.land (size + 7) (Z.lnot 7).

(** The source divides in [double] by [record_size + 0.125] and truncates; the
    quotient is the rational [8 n / (8 record_size + 1)], whose truncation is the
    integer quotient (a non-integral value is at least [1 / (8 record_size + 1)]
    away from an integer, far more than the rounding of [double]). *)
Definition page_record_capacity (page_size record_size fixed_size : Z) : Z :=
  Z.quot (8 * (page_size - PAGE_HEADER_SIZE - fixed_size - 1)) (8 * record_size + 1).

Definition page_bitmap_size (record_capacity : Z) : Z := Z.quot (record_capacity + 7) 8.

(** A page: header, bitmap bytes, and the page's bytes (only those from
    [data_offset] on are records). *)
Record RecPage := mkRecPage {
  hdr : PageHeader;
  bits : list Z;
  data : list Z
}.

(** [RecordPageHandler::fix_record_capacity]: the loop condition is on
    [last_record_offset].  The loop runs at most [record_capacity] times when
    [data_offset] is inside the page, which is the fuel given. *)
Fixpoint fix_record_capacity_loop (fuel : nat) (last_record_offset cap rsize : Z) : Z :=
  match fuel with
  | O => cap
  | S fuel' =>
      if BP_PAGE_DATA_SIZE <? last_record_offset
      then fix_record_capacity_loop fuel' (last_record_offset - rsize) (cap - 1) rsize
      else cap
  end.

Definition fix_record_capacity (h : PageHeader) : PageHeader :=
  let last_record_offset := h.(data_offset) + h.(record_capacity) * h.(record_size) in
  mkPageHeader h.(record_num) h.(column_num) h.(record_real_size) h.(record_size)
    (fix_record_capacity_loop (Z.to_nat h.(record_capacity)) last_record_offset
       h.(record_capacity) h.(record_size))
    h.(col_idx_offset) h.(data_offset).

(** The header written by [init_empty_page] before the capacity is fixed. *)
Definition init_header (rec_size ncol : Z) : PageHeader :=
  let rsize := align8 rec_size in
  let cap := page_record_capacity BP_PAGE_DATA_SIZE rsize (ncol * 4) in
  let off := align8 (PAGE_HEADER_SIZE + page_bitmap_size cap) in
  mkPageHeader 0 ncol rec_size rsize cap off (off + ncol * 4).

(** [init_empty_page] on the bytes [old] of the frame: the header, a cleared
    bitmap; the record area keeps what it held. *)
Definition init_empty_page (rec_size ncol : Z) (old : list Z) : RecPage :=
  let h := fix_record_capacity (init_header rec_size ncol) in
  mkRecPage h (replicate (Z.to_nat (page_bitmap_size h.(record_capacity))) 0) old.

Definition page_bitmap (p : RecPage) : Bitmap := mkBitmap p.(bits) p.(hdr).(record_capacity).

Definition record_offset (p : RecPage) (slot : Z) : Z :=
  p.(hdr).(data_offset) + p.(hdr).(record_size) * slot.

(** [get_record_data(slot)] read as [record_real_size] bytes. *)
Definition get_record_data (p : RecPage) (slot : Z) : list Z :=
  slice p.(data) (record_offset p slot) p.(hdr).(record_real_size).

(** [memcpy(get_record_data(slot), src, record_real_size)] *)
Definition put_record_data (p : RecPage) (slot : Z) (src : list Z) : RecPage :=
  mkRecPage p.(hdr) p.(bits)
    (blit p.(data) (record_offset p slot) (take (Z.to_nat p.(hdr).(record_real_size)) src)).

Definition set_record_num (h : PageHeader) (n : Z) : PageHeader :=
  mkPageHeader n h.(column_num) h.(record_real_size) h.(record_size) h.(record_capacity)
    h.(col_idx_offset) h.(data_offset).

Definition with_bits (p : RecPage) (b : Bitmap) (n : Z) : RecPage :=
  mkRecPage (set_record_num p.(hdr) n) b.(bitmap_) p.(data).

(** [RowRecordPageHandler::insert_record]: the slot is the first free one. *)
Definition insert_record (p : RecPage) (src : list Z) : RC * RecPage * Z :=
  if p.(hdr).(record_num) =? p.(hdr).(record_capacity) then (RECORD_NOMEM, p, -1)
  else
    let bitmap := page_bitmap p in
    let index := next_unsetted_bit bitmap 0 in
    let p1 := with_bits p (set_bit bitmap index) (p.(hdr).(record_num) + 1) in
    (SUCCESS, put_record_data p1 index src, index).

(** [RowRecordPageHandler::recover_insert_record] *)
Definition recover_insert_record (p : RecPage) (src : list Z) (slot : Z) : RC * RecPage :=
  if p.(hdr).(record_capacity) <=? slot then (RECORD_INVALID_RID, p)
  else
    let bitmap := page_bitmap p in
    let p1 := if negb (get_bit bitmap slot)
              then with_bits p (set_bit bitmap slot) (p.(hdr).(record_num) + 1) else p in
    (SUCCESS, put_record_data p1 slot src).

(** [RowRecordPageHandler::delete_record] *)
Definition delete_record (p : RecPage) (slot : Z) : RC * RecPage :=
  let bitmap := page_bitmap p in
  if get_bit bitmap slot
  then (SUCCESS, with_bits p (clear_bit bitmap slot) (p.(hdr).(record_num) - 1))
  else (RECORD_NOT_EXIST, p).

(** [RowRecordPageHandler::update_record]; the source skips the copy when the
    caller passes the slot itself, which writes the same bytes. *)
Definition update_record (p : RecPage) (slot : Z) (src : list Z) : RC * RecPage :=
  if p.(hdr).(record_capacity) <=? slot then (INVALID_ARGUMENT, p)
  else if get_bit (page_bitmap p) slot
  then (SUCCESS, put_record_data p slot src)
  else (RECORD_NOT_EXIST, p).

(** [RowRecordPageHandler::get_record] *)
Definition get_record (p : RecPage) (slot : Z) : RC * list Z :=
  if p.(hdr).(record_capacity) <=? slot then (RECORD_INVALID_RID, [])
  else if negb (get_bit (page_bitmap p) slot) then (RECORD_NOT_EXIST, [])
  else (SUCCESS, get_record_data p slot).

Definition is_full (p : RecPage) : bool := p.(hdr).(record_capacity) <=? p.(hdr).(record_num).

(** ** Page layout *)

Lemma align8_spec x : 0 <= x -> align8 x mod 8 = 0 /\ x <= align8 x < x + 8.
Proof.
  intros Hx. unfold align8.
  assert (Z.land (x + 7) (Z.lnot 7) = 8 * ((x + 7) / 8)) as ->.
  { change 7 with (Z.ones 3) at 2. rewrite <- Z.ldiff_land, Z.ldiff_ones_r by lia.
    rewrite Z.shiftl_mul_pow2, Z.shiftr_div_pow2 by lia. change (2 ^ 3) with 8. lia. }
  split; [rewrite Z.mul_comm; apply Z.mod_mul; lia|].
  pose proof (Z.div_mod (x + 7) 8 ltac:(lia)). pose proof (Z.mod_pos_bound (x + 7) 8 ltac:(lia)). lia.
Qed.

Lemma page_bitmap_size_spec cap : 0 <= cap -> cap <= 8 * page_bitmap_size cap < cap + 8.
Proof.
  intros. unfold page_bitmap_size. rewrite Z.quot_div_nonneg by lia.
  pose proof (Z.div_mod (cap + 7) 8 ltac:(lia)). pose proof (Z.mod_pos_bound (cap + 7) 8 ltac:(lia)). lia.
Qed.

Lemma page_bitmap_size_mono a b : 0 <= a <= b -> page_bitmap_size a <= page_bitmap_size b.
Proof.
  intros. unfold page_bitmap_size. rewrite !Z.quot_div_nonneg by lia. apply Z.div_le_mono; lia.
Qed.

Section fix_capacity.
Context (off rsize : Z) (Hoff : 0 <= off <= BP_PAGE_DATA_SIZE) (Hrs : 0 <= rsize).

Lemma fix_record_capacity_loop_spec fuel cap : cap = Z.of_nat fuel ->
  let cap' := fix_record_capacity_loop fuel (off + cap * rsize) cap rsize in
  0 <= cap' <= cap /\ off + cap' * rsize <= BP_PAGE_DATA_SIZE /\
  (cap' < cap -> BP_PAGE_DATA_SIZE < off + (cap' + 1) * rsize).
Proof using Hoff Hrs.
  revert cap. induction fuel as [|fuel IH]; intros cap ->; cbn [fix_record_capacity_loop].
  - cbn zeta. lia.
  - destruct (Z.ltb_spec BP_PAGE_DATA_SIZE (off + Z.of_nat (S fuel) * rsize)) as [H|H].
    + replace (off + Z.of_nat (S fuel) * rsize - rsize) with (off + Z.of_nat fuel * rsize) by lia.
      replace (Z.of_nat (S fuel) - 1) with (Z.of_nat fuel) by lia.
      destruct (IH _ eq_refl) as (A & B & C). cbn zeta. split; [lia|]. split; [done|].
      intros _. destruct (Z.eq_dec (fix_record_capacity_loop fuel (off + Z.of_nat fuel * rsize)
                               (Z.of_nat fuel) rsize) (Z.of_nat fuel)) as [E|E].
      * rewrite E. lia.
      * apply C. lia.
    + cbn zeta. lia.
Qed.
End fix_capacity.

(** Sizes for which a page can hold at least one record next to its header,
    bitmap and column index. *)
Definition layout_args_ok (rec_size ncol : Z) : Prop :=
  0 < rec_size /\ 0 <= ncol /\ rec_size + 4 * ncol + 100 <= BP_PAGE_DATA_SIZE.

Lemma layout_fits rec_size ncol : layout_args_ok rec_size ncol ->
  let h := fix_record_capacity (init_header rec_size ncol) in
  0 < h.(record_capacity) /\
  PAGE_HEADER_SIZE + page_bitmap_size h.(record_capacity) <= h.(col_idx_offset) /\
  h.(col_idx_offset) + 4 * h.(column_num) = h.(data_offset) /\
  h.(data_offset) + h.(record_capacity) * h.(record_size) <= BP_PAGE_DATA_SIZE /\
  h.(record_real_size) <= h.(record_size).
Proof.
  unfold layout_args_ok, fix_record_capacity, init_header. intros (Hr & Hc & Hfit).
  change BP_PAGE_DATA_SIZE with 8180 in *. cbn [record_capacity col_idx_offset column_num data_offset record_size record_real_size].
  destruct (align8_spec rec_size ltac:(lia)) as [Ha1 Ha2]. set (rs := align8 rec_size) in *.
  unfold page_record_capacity. change PAGE_HEADER_SIZE with 28.
  rewrite Z.quot_div_nonneg by lia.
  set (cap := 8 * (8180 - 28 - ncol * 4 - 1) / (8 * rs + 1)).
  assert (0 < 8 * rs + 1) as Hpos by lia.
  pose proof (Z.div_mod (8 * (8180 - 28 - ncol * 4 - 1)) (8 * rs + 1) ltac:(lia)) as Hd.
  pose proof (Z.mod_pos_bound (8 * (8180 - 28 - ncol * 4 - 1)) (8 * rs + 1) Hpos) as Hm.
  fold cap in Hd.
  assert (1 <= cap) as Hcap by (apply Z.div_le_lower_bound; lia).
  pose proof (page_bitmap_size_spec cap ltac:(lia)) as Hbs.
  destruct (align8_spec (28 + page_bitmap_size cap) ltac:(lia)) as [Hb1 Hb2].
  set (off := align8 (28 + page_bitmap_size cap)) in *.
  assert (8 * cap * rs + cap <= 8 * (8151 - ncol * 4)) as Hmul by nia.
  assert (off + ncol * 4 + rs <= 8180) as Hone.
  { assert (cap * 9 <= 8 * (8151 - ncol * 4)) by nia. nia. }
  pose proof (fix_record_capacity_loop_spec (off + ncol * 4) rs ltac:(change BP_PAGE_DATA_SIZE with 8180; lia)
                ltac:(lia) (Z.to_nat cap) cap ltac:(lia)) as Hfix.
  cbn zeta in Hfix |- *. change BP_PAGE_DATA_SIZE with 8180 in Hfix.
  set (cap' := fix_record_capacity_loop _ _ _ _) in *. destruct Hfix as (H1 & H2 & H3).
  repeat split; try lia.
  pose proof (page_bitmap_size_mono cap' cap ltac:(lia)). lia.
Qed.

(** ** The page as a map from slots to records *)

Definition slot_list (p : RecPage) : list (Z * list Z) :=
  (fun s => (s, get_record_data p s)) <$>
    filter (fun s => get_bit (page_bitmap p) s = true) (seqZ 0 p.(hdr).(record_capacity)).

Definition page_map (p : RecPage) : gmap Z (list Z) := list_to_map (slot_list p).

(** The page invariant: a sound bitmap, records inside the page, and
    [record_num] counting the allocated slots. *)
Record page_ok (p : RecPage) : Prop := {
  po_bitmap : bitmap_ok (page_bitmap p);
  po_offset : 0 <= p.(hdr).(data_offset);
  po_size : 0 < p.(hdr).(record_real_size) <= p.(hdr).(record_size);
  po_fits : p.(hdr).(data_offset) + p.(hdr).(record_capacity) * p.(hdr).(record_size) <= zlen p.(data);
  po_count : p.(hdr).(record_num) = Z.of_nat (size (page_map p))
}.

(** A slot number of the page. *)
Definition in_page (p : RecPage) (s : Z) : Prop := 0 <= s < p.(hdr).(record_capacity).

Definition in_pageb (p : RecPage) (s : Z) : bool := (0 <=? s) && (s <? p.(hdr).(record_capacity)).

Lemma in_pageb_spec p s : reflect (in_page p s) (in_pageb p s).
Proof. apply iff_reflect. unfold in_page, in_pageb. rewrite andb_true_iff. lia. Qed.

Lemma in_pageb_true p s : in_page p s -> in_pageb p s = true.
Proof. by destruct (in_pageb_spec p s). Qed.

Lemma page_map_lookup p s :
  page_map p !! s =
  if in_pageb p s && get_bit (page_bitmap p) s then Some (get_record_data p s) else None.
Proof.
  unfold page_map, slot_list.
  destruct (in_pageb_spec p s) as [Hin|Hin]; unfold in_page in Hin; cbn.
  2: { apply not_elem_of_list_to_map_1. rewrite <- list_fmap_compose.
       rewrite list_elem_of_fmap. intros (s' & -> & Hs').
       apply list_elem_of_filter in Hs' as [_ Hs']. apply elem_of_seqZ in Hs'. cbn in *. lia. }
  destruct (get_bit (page_bitmap p) s) eqn:E.
  - apply elem_of_list_to_map_1.
    + rewrite <- list_fmap_compose. apply NoDup_fmap_2; [by intros ???|]. apply NoDup_filter, NoDup_seqZ.
    + apply list_elem_of_fmap. exists s. split; [done|].
      apply list_elem_of_filter. split; [done|]. apply elem_of_seqZ. lia.
  - apply not_elem_of_list_to_map_1. rewrite <- list_fmap_compose.
    rewrite list_elem_of_fmap. intros (s' & -> & Hs').
    apply list_elem_of_filter in Hs' as [Hb _]. cbn in *. congruence.
Qed.

(** Record areas of distinct slots are disjoint and lie in the page. *)
Section slots.
Context (p : RecPage) (Hok : page_ok p).

Lemma record_offset_bounds s : in_page p s ->
  0 <= record_offset p s /\ record_offset p s + p.(hdr).(record_real_size) <= zlen p.(data).
Proof using Hok.
  destruct Hok as [_ Ho Hs Hf _]. unfold in_page, record_offset. intros.
  set (rs := p.(hdr).(record_size)) in *. set (cap := p.(hdr).(record_capacity)) in *. nia.
Qed.

Lemma record_offset_disjoint s s' : 0 <= s -> 0 <= s' -> s <> s' ->
  record_offset p s + p.(hdr).(record_real_size) <= record_offset p s' \/
  record_offset p s' + p.(hdr).(record_real_size) <= record_offset p s.
Proof using Hok.
  destruct Hok as [_ Ho Hs Hf _]. unfold record_offset. intros.
  set (rs := p.(hdr).(record_size)) in *. destruct (Z.lt_total s s') as [|[|]]; nia.
Qed.

Lemma get_put_record_data s s' src : in_page p s -> in_page p s' ->
  zlen src = p.(hdr).(record_real_size) ->
  get_record_data (put_record_data p s src) s' = if decide (s' = s) then src else get_record_data p s'.
Proof using Hok.
  intros Hs Hs' Hlen. pose proof (po_size _ Hok) as [Hrs _].
  unfold get_record_data, put_record_data, record_offset. cbn.
  rewrite take_ge by (unfold zlen in *; lia). rewrite <- Hlen.
  destruct (record_offset_bounds s Hs) as [B1 B2]. unfold record_offset in *.
  destruct (decide (s' = s)) as [->|Hne].
  - apply slice_blit_eq; lia.
  - destruct (record_offset_bounds s' Hs') as [B3 _].
    assert (record_offset p s' + p.(hdr).(record_real_size) <= record_offset p s \/
            record_offset p s + p.(hdr).(record_real_size) <= record_offset p s') as D
      by (unfold in_page in *; apply record_offset_disjoint; lia).
    unfold record_offset in *. apply slice_blit_ne; lia.
Qed.

Lemma data_length_put s src : in_page p s -> zlen src = p.(hdr).(record_real_size) ->
  zlen (put_record_data p s src).(data) = zlen p.(data).
Proof using Hok.
  intros Hs Hlen. destruct (record_offset_bounds s Hs). unfold put_record_data. cbn.
  rewrite take_ge by (unfold zlen in *; lia). unfold zlen at 1. rewrite blit_length; unfold zlen in *; lia.
Qed.
End slots.

Lemma page_map_put p s src : page_ok p -> in_page p s -> get_bit (page_bitmap p) s = true ->
  zlen src = p.(hdr).(record_real_size) ->
  page_map (put_record_data p s src) = <[s := src]> (page_map p).
Proof.
  intros Hok Hs Hb Hlen. apply map_eq. intros j. rewrite page_map_lookup, lookup_insert, page_map_lookup.
  change (in_pageb (put_record_data p s src) j) with (in_pageb p j).
  change (page_bitmap (put_record_data p s src)) with (page_bitmap p).
  destruct (in_pageb_spec p j) as [Hj|Hj]; cbn.
  - rewrite (get_put_record_data p Hok) by done. destruct (decide (s = j)) as [->|Hne].
    + rewrite decide_True by done. by rewrite Hb.
    + by rewrite decide_False by congruence.
  - destruct (decide (s = j)) as [->|]; done.
Qed.

(** Allocating a free slot (its bytes are whatever the page holds there). *)
Lemma page_map_set_bit p s n : page_ok p -> in_page p s -> get_bit (page_bitmap p) s = false ->
  page_map (with_bits p (set_bit (page_bitmap p) s) n) = <[s := get_record_data p s]> (page_map p).
Proof.
  intros Hok Hs Hb. apply map_eq. intros j. rewrite page_map_lookup, lookup_insert, page_map_lookup.
  change (in_pageb (with_bits p (set_bit (page_bitmap p) s) n) j) with (in_pageb p j).
  change (page_bitmap (with_bits p (set_bit (page_bitmap p) s) n)) with (set_bit (page_bitmap p) s).
  change (get_record_data (with_bits p (set_bit (page_bitmap p) s) n) j) with (get_record_data p j).
  destruct (in_pageb_spec p j) as [Hj|Hj]; cbn.
  - rewrite get_set_bit by (apply Hok || apply Hs || apply Hj).
    destruct (decide (s = j)) as [->|]; [by rewrite decide_True|]. by rewrite decide_False by congruence.
  - destruct (decide (s = j)) as [->|]; done.
Qed.

Lemma page_map_clear_bit p s n : page_ok p -> in_page p s ->
  page_map (with_bits p (clear_bit (page_bitmap p) s) n) = delete s (page_map p).
Proof.
  intros Hok Hs. apply map_eq. intros j. rewrite page_map_lookup, lookup_delete, page_map_lookup.
  change (in_pageb (with_bits p (clear_bit (page_bitmap p) s) n) j) with (in_pageb p j).
  change (page_bitmap (with_bits p (clear_bit (page_bitmap p) s) n)) with (clear_bit (page_bitmap p) s).
  change (get_record_data (with_bits p (clear_bit (page_bitmap p) s) n) j) with (get_record_data p j).
  destruct (in_pageb_spec p j) as [Hj|Hj]; cbn.
  - rewrite get_clear_bit by (apply Hok || apply Hs || apply Hj).
    destruct (decide (s = j)) as [->|]; [by rewrite decide_True|]. by rewrite decide_False by congruence.
  - by destruct (decide (s = j)).
Qed.

(** The three updates preserve the invariant. *)
Lemma put_record_data_ok p s src : page_ok p -> in_page p s -> get_bit (page_bitmap p) s = true ->
  zlen src = p.(hdr).(record_real_size) -> page_ok (put_record_data p s src).
Proof.
  intros Hok Hs Hb Hlen. pose proof (page_map_put p s src Hok Hs Hb Hlen) as Hm.
  pose proof (data_length_put p Hok s src Hs Hlen) as Hd. destruct Hok as [Hbm Ho Hsz Hf Hc].
  split; try done; cbn [hdr put_record_data].
  - change (p.(hdr).(data_offset) + p.(hdr).(record_capacity) * p.(hdr).(record_size) <=
            zlen (put_record_data p s src).(data)). lia.
  - rewrite Hm, map_size_insert_Some; [done|].
    rewrite page_map_lookup, in_pageb_true by done. rewrite Hb. eauto.
Qed.

Lemma set_bit_page_ok p s : page_ok p -> in_page p s -> get_bit (page_bitmap p) s = false ->
  page_ok (with_bits p (set_bit (page_bitmap p) s) (p.(hdr).(record_num) + 1)).
Proof.
  intros Hok Hs Hb. pose proof (page_map_set_bit p s (p.(hdr).(record_num) + 1) Hok Hs Hb) as Hm.
  destruct Hok as [Hbm Ho Hsz Hf Hc]. split; try done.
  - by apply (set_bit_ok (page_bitmap p)).
  - rewrite Hm, map_size_insert_None; [cbn; lia|].
    rewrite page_map_lookup, Hb. by rewrite andb_false_r.
Qed.

Lemma clear_bit_page_ok p s : page_ok p -> in_page p s -> get_bit (page_bitmap p) s = true ->
  page_ok (with_bits p (clear_bit (page_bitmap p) s) (p.(hdr).(record_num) - 1)).
Proof.
  intros Hok Hs Hb. pose proof (page_map_clear_bit p s (p.(hdr).(record_num) - 1) Hok Hs) as Hm.
  assert (page_map p !! s = Some (get_record_data p s)) as Hl.
  { rewrite page_map_lookup, in_pageb_true, Hb by done. done. }
  destruct Hok as [Hbm Ho Hsz Hf Hc]. split; try done.
  - by apply (clear_bit_ok (page_bitmap p)).
  - rewrite Hm, map_size_delete_Some by eauto. cbn.
    assert (size (page_map p) <> 0%nat). { intros E%map_size_empty_inv. rewrite E in Hl. done. } lia.
Qed.

(** ** Functional behaviour of the operations *)

(** A page has a free slot iff its count is below its capacity. *)
Lemma page_map_full p : page_ok p -> p.(hdr).(record_num) < p.(hdr).(record_capacity) ->
  exists s, in_page p s /\ get_bit (page_bitmap p) s = false.
Proof.
  intros Hok Hlt. destruct (po_bitmap _ Hok) as [[Hcap _] _]. cbn in Hcap.
  destruct (first_from_cases (fun j => Bool.eqb (get_bit (page_bitmap p) j) false) 0
              (Z.to_nat p.(hdr).(record_capacity))) as [[_ Hall]|(R & Hb & _)].
  - exfalso. pose proof (po_count _ Hok) as Hc.
    assert (dom (page_map p) = list_to_set (seqZ 0 p.(hdr).(record_capacity))) as Hdom.
    { apply set_eq. intros s. rewrite elem_of_dom, page_map_lookup, elem_of_list_to_set, elem_of_seqZ.
      destruct (in_pageb_spec p s) as [Hs|Hs]; unfold in_page in Hs; cbn.
      - specialize (Hall s ltac:(lia)). apply eqb_false_iff in Hall.
        destruct (get_bit (page_bitmap p) s); [|done]. split; [lia|eauto].
      - split; [by intros []|lia]. }
    rewrite <- size_dom, Hdom, size_list_to_set in Hc by apply NoDup_seqZ.
    rewrite length_seqZ in Hc. lia.
  - eexists. split; [|by apply eqb_prop in Hb]. unfold in_page. lia.
Qed.

(** The slot [insert_record] picks: the least free one. *)
Lemma insert_slot p : page_ok p -> p.(hdr).(record_num) < p.(hdr).(record_capacity) ->
  let s := next_unsetted_bit (page_bitmap p) 0 in
  in_page p s /\ get_bit (page_bitmap p) s = false /\
  forall j, 0 <= j < s -> get_bit (page_bitmap p) j = true.
Proof.
  intros Hok Hlt. cbn zeta. rewrite next_unsetted_bit_first by (apply Hok || lia).
  destruct (page_map_full p Hok Hlt) as (s0 & Hs0 & Hb0). cbn [size_ page_bitmap].
  destruct (first_from_cases (fun j => Bool.eqb (get_bit (page_bitmap p) j) false) 0
              (Z.to_nat (p.(hdr).(record_capacity) - 0))) as [[_ Hall]|(R & Hb & Hl)].
  - unfold in_page in Hs0. specialize (Hall s0 ltac:(lia)). rewrite Hb0 in Hall. done.
  - split; [unfold in_page; lia|]. split; [by apply eqb_prop in Hb|].
    intros j Hj. specialize (Hl j Hj). apply eqb_false_iff in Hl.
    by destruct (get_bit (page_bitmap p) j).
Qed.

Lemma record_num_bounds p : page_ok p ->
  0 <= p.(hdr).(record_num) <= p.(hdr).(record_capacity).
Proof.
  intros Hok. rewrite (po_count _ Hok). split; [lia|].
  destruct (po_bitmap _ Hok) as [[Hcap _] _]. cbn in Hcap.
  rewrite <- size_dom.
  assert (dom (page_map p) ⊆ list_to_set (seqZ 0 p.(hdr).(record_capacity))) as Hsub.
  { intros s. rewrite elem_of_dom, page_map_lookup, elem_of_list_to_set, elem_of_seqZ.
    destruct (in_pageb_spec p s) as [Hs|Hs]; unfold in_page in Hs; cbn; [lia|by intros []]. }
  apply subseteq_size in Hsub. rewrite size_list_to_set, length_seqZ in Hsub by apply NoDup_seqZ. lia.
Qed.

(** The outcome of an operation against the map view: what it returns and the
    map it leaves. *)
Definition insert_spec (p : RecPage) (src : list Z) (r : RC * RecPage * Z) : Prop :=
  let '(rc, p', s) := r in
  page_ok p' /\
  if p.(hdr).(record_num) =? p.(hdr).(record_capacity)
  then rc = RECORD_NOMEM /\ p' = p
  else rc = SUCCESS /\ in_page p s /\ page_map p !! s = None /\
       (forall j, 0 <= j < s -> is_Some (page_map p !! j)) /\
       page_map p' = <[s := src]> (page_map p).

Lemma insert_record_ok p src : page_ok p -> zlen src = p.(hdr).(record_real_size) ->
  insert_spec p src (insert_record p src).
Proof.
  intros Hok Hlen. unfold insert_record, insert_spec.
  destruct (Z.eqb_spec p.(hdr).(record_num) p.(hdr).(record_capacity)) as [E|E]; [done|].
  pose proof (record_num_bounds p Hok).
  destruct (insert_slot p Hok ltac:(lia)) as (Hs & Hb & Hl).
  set (s := next_unsetted_bit (page_bitmap p) 0) in *.
  set (p1 := with_bits p _ _).
  assert (page_ok p1) as Hok1 by by apply set_bit_page_ok.
  assert (get_bit (page_bitmap p1) s = true) as Hb1.
  { change (page_bitmap p1) with (set_bit (page_bitmap p) s).
    rewrite get_set_bit, decide_True by (apply Hok || apply Hs || done). done. }
  split; [by apply put_record_data_ok|]. split; [done|]. split; [done|].
  split; [by rewrite page_map_lookup, Hb, andb_false_r|]. split.
  - intros j Hj. rewrite page_map_lookup, Hl, in_pageb_true by (unfold in_page in *; lia). eauto.
  - rewrite page_map_put by done. unfold p1. rewrite page_map_set_bit by done.
    by rewrite insert_insert_eq.
Qed.

Definition delete_spec (p : RecPage) (s : Z) (r : RC * RecPage) : Prop :=
  let '(rc, p') := r in
  page_ok p' /\ page_map p' = delete s (page_map p) /\
  match page_map p !! s with
  | Some _ => rc = SUCCESS
  | None => rc = RECORD_NOT_EXIST /\ p' = p
  end.

Lemma delete_record_ok p s : page_ok p -> in_page p s -> delete_spec p s (delete_record p s).
Proof.
  intros Hok Hs. unfold delete_record, delete_spec.
  rewrite page_map_lookup, in_pageb_true by done. cbn [andb].
  destruct (get_bit (page_bitmap p) s) eqn:Hb.
  - split; [by apply clear_bit_page_ok|]. split; [by apply page_map_clear_bit|done].
  - split; [done|]. split; [|done]. rewrite delete_id; [done|].
    by rewrite page_map_lookup, Hb, andb_false_r.
Qed.

Definition update_spec (p : RecPage) (s : Z) (src : list Z) (r : RC * RecPage) : Prop :=
  let '(rc, p') := r in
  page_ok p' /\
  match page_map p !! s with
  | Some _ => rc = SUCCESS /\ page_map p' = <[s := src]> (page_map p)
  | None => p' = p /\ rc = if p.(hdr).(record_capacity) <=? s then INVALID_ARGUMENT else RECORD_NOT_EXIST
  end.

Lemma update_record_ok p s src : page_ok p -> 0 <= s -> zlen src = p.(hdr).(record_real_size) ->
  update_spec p s src (update_record p s src).
Proof.
  intros Hok Hs0 Hlen. unfold update_record, update_spec.
  rewrite page_map_lookup. destruct (Z.leb_spec p.(hdr).(record_capacity) s) as [H|H].
  - destruct (in_pageb_spec p s) as [Hs|Hs]; unfold in_page in Hs; [lia|done].
  - assert (in_page p s) as Hs by (unfold in_page; lia). rewrite in_pageb_true by done. cbn [andb].
    destruct (get_bit (page_bitmap p) s) eqn:Hb; [|done].
    split; [by apply put_record_data_ok|]. split; [done|]. by apply page_map_put.
Qed.

Lemma get_record_ok p s : page_ok p -> 0 <= s ->
  match page_map p !! s with
  | Some src => get_record p s = (SUCCESS, src)
  | None => get_record p s = (if p.(hdr).(record_capacity) <=? s then RECORD_INVALID_RID else RECORD_NOT_EXIST, [])
  end.
Proof.
  intros Hok Hs0. unfold get_record.
  rewrite page_map_lookup. destruct (Z.leb_spec p.(hdr).(record_capacity) s) as [H|H].
  - destruct (in_pageb_spec p s) as [Hs|Hs]; unfold in_page in Hs; [lia|done].
  - assert (in_page p s) as Hs by (unfold in_page; lia). rewrite in_pageb_true by done. cbn [andb].
    by destruct (get_bit (page_bitmap p) s).
Qed.

(** [recover_insert_record] puts the record in the given slot whether or not the
    slot is allocated, so repeating it changes nothing. *)
Lemma recover_insert_record_ok p s src : page_ok p -> in_page p s ->
  zlen src = p.(hdr).(record_real_size) ->
  let '(rc, p') := recover_insert_record p src s in
  rc = SUCCESS /\ page_ok p' /\ page_map p' = <[s := src]> (page_map p).
Proof.
  intros Hok Hs Hlen. unfold recover_insert_record.
  destruct (Z.leb_spec p.(hdr).(record_capacity) s) as [H|H]; [unfold in_page in Hs; lia|].
  split; [done|]. destruct (get_bit (page_bitmap p) s) eqn:Hb; cbn [negb].
  - split; [by apply put_record_data_ok|]. by apply page_map_put.
  - set (p1 := with_bits p _ _).
    assert (page_ok p1) as Hok1 by by apply set_bit_page_ok.
    assert (get_bit (page_bitmap p1) s = true) as Hb1.
    { change (page_bitmap p1) with (set_bit (page_bitmap p) s).
      rewrite get_set_bit, decide_True by (apply Hok || apply Hs || done). done. }
    split; [by apply put_record_data_ok|]. rewrite page_map_put by done.
    unfold p1. rewrite page_map_set_bit by done. by rewrite insert_insert_eq.
Qed.

(** ** A new page *)

Lemma get_bit_replicate n cap j : 0 <= j -> get_bit (mkBitmap (replicate n 0) cap) j = false.
Proof.
  intros Hj. unfold get_bit. cbn [bitmap_].
  replace (znth 0 (replicate n 0) (Z.quot j 8)) with 0; [done|].
  rewrite znth_lookup. destruct (_ <? 0); [done|].
  destruct (replicate n 0 !! _) eqn:E; [|done]. by apply lookup_replicate in E as [-> _].
Qed.

Lemma init_empty_page_ok rec_size ncol old : layout_args_ok rec_size ncol ->
  zlen old = BP_PAGE_DATA_SIZE ->
  page_ok (init_empty_page rec_size ncol old) /\ page_map (init_empty_page rec_size ncol old) = ∅.
Proof.
  intros Ha Hold. destruct (layout_fits rec_size ncol Ha) as (Hcap & Hb & Hd & Hf & Hr).
  unfold init_empty_page. set (h := fix_record_capacity (init_header rec_size ncol)) in *.
  set (p := mkRecPage _ _ _).
  assert (page_map p = ∅) as Hm.
  { apply map_eq. intros s. rewrite page_map_lookup, lookup_empty.
    destruct (in_pageb_spec p s) as [Hs|]; [|done]. cbn [andb].
    unfold page_bitmap, p. cbn [bits hdr]. by rewrite get_bit_replicate by apply Hs. }
  pose proof (page_bitmap_size_spec h.(record_capacity) ltac:(lia)).
  split; [|done]. destruct Ha as (Hr0 & Hc0 & _). split.
  - split; cbn [size_ bitmap_ page_bitmap p bits hdr]; unfold zlen.
    + rewrite length_replicate. lia.
    + apply Forall_replicate. lia.
  - change (h.(column_num)) with ncol in Hd. cbn [hdr p].
    assert (0 <= page_bitmap_size h.(record_capacity)) by lia. unfold PAGE_HEADER_SIZE in Hb. lia.
  - cbn [hdr p]. split; [done|]. done.
  - cbn [hdr p data]. lia.
  - rewrite Hm, map_size_empty. done.
Qed.

(** ** The page iterator *)

(** [RecordPageIterator]: the slot the next call returns, [-1] at the end. *)
Definition iter_init (p : RecPage) (start : Z) : Z := next_setted_bit (page_bitmap p) start.
Definition iter_has_next (next_slot : Z) : bool := negb (-1 =? next_slot).
Definition iter_next (p : RecPage) (next_slot : Z) : (Z * (RC * list Z)) * Z :=
  ((next_slot, get_record p next_slot),
   if 0 <=? next_slot then next_setted_bit (page_bitmap p) (next_slot + 1) else next_slot).

(** The loop [while (has_next()) next(record)], with fuel. *)
Fixpoint iter_collect (fuel : nat) (p : RecPage) (next_slot : Z) : list (Z * (RC * list Z)) :=
  match fuel with
  | O => []
  | S fuel' =>
      if iter_has_next next_slot
      then let '(item, next') := iter_next p next_slot in item :: iter_collect fuel' p next'
      else []
  end.

Lemma seqZ_split a b c : a <= b <= c -> seqZ a (c - a) = seqZ a (b - a) ++ seqZ b (c - b).
Proof.
  intros. replace (c - a) with ((b - a) + (c - b)) by lia. rewrite seqZ_app by lia.
  do 2 f_equal. lia.
Qed.

Lemma filter_seqZ_none (f : Z -> bool) a n :
  (forall j, a <= j < a + n -> f j = false) -> filter (fun s => f s = true) (seqZ a n) = [].
Proof.
  intros Hf. destruct (filter _ _) as [|x l] eqn:E; [done|].
  assert (x ∈ x :: l) as Hx by left. rewrite <- E in Hx.
  apply list_elem_of_filter in Hx as [Hx1 Hx2]. apply elem_of_seqZ in Hx2.
  rewrite Hf in Hx1 by lia. done.
Qed.

Lemma iter_collect_spec p fuel start : page_ok p -> 0 <= start ->
  p.(hdr).(record_capacity) - start < Z.of_nat fuel ->
  iter_collect fuel p (iter_init p start) =
  (fun s => (s, (SUCCESS, get_record_data p s))) <$>
    filter (fun s => get_bit (page_bitmap p) s = true)
      (seqZ start (p.(hdr).(record_capacity) - start)).
Proof.
  intros Hok. revert start. induction fuel as [|fuel IH]; intros start Hs Hf.
  { rewrite seqZ_nil by lia. done. }
  cbn [iter_collect].
  assert (iter_init p start = first_from (fun j => Bool.eqb (get_bit (page_bitmap p) j) true) start
            (Z.to_nat (p.(hdr).(record_capacity) - start))) as ->
    by (apply next_setted_bit_first; [apply Hok|done]).
  unfold iter_has_next.
  destruct (first_from_cases (fun j => Bool.eqb (get_bit (page_bitmap p) j) true) start
              (Z.to_nat (p.(hdr).(record_capacity) - start))) as [[-> Hall]|(R & Hb & Hl)].
  - cbn. rewrite filter_seqZ_none; [done|]. intros j Hj.
    specialize (Hall j ltac:(lia)). by destruct (get_bit (page_bitmap p) j).
  - set (s := first_from _ _ _) in *.
    destruct (Z.eqb_spec (-1) s) as [|_]; [lia|]. cbn [negb]. unfold iter_next.
    destruct (Z.leb_spec 0 s); [|lia].
    apply eqb_prop in Hb.
    rewrite (seqZ_split start s) by lia. rewrite filter_app, fmap_app.
    rewrite (filter_seqZ_none _ start) by
      (intros j Hj; specialize (Hl j ltac:(lia)); by destruct (get_bit (page_bitmap p) j)).
    rewrite (seqZ_cons s) by lia. rewrite filter_cons_True by done. cbn [app fmap list_fmap].
    f_equal.
    + f_equal. unfold get_record. destruct (Z.leb_spec p.(hdr).(record_capacity) s); [lia|]. by rewrite Hb.
    + fold (iter_init p (s + 1)). rewrite IH by lia. f_equal. f_equal. unfold Z.succ. f_equal. lia.
Qed.

(** ** The properties *)

(** A page of 4-byte records with two of them. *)
Definition demo_empty : RecPage := init_empty_page 4 0 (replicate 8180 0).
Definition demo_two : RecPage :=
  (insert_record (insert_record demo_empty [1; 2; 3; 4]).1.2 [5; 6; 7; 8]).1.2.

Lemma demo_empty_ok : page_ok demo_empty.
Proof.
  apply init_empty_page_ok; [|by vm_compute]. unfold layout_args_ok. change BP_PAGE_DATA_SIZE with 8180. lia.
Qed.

Lemma demo_two_ok : page_ok demo_two.
Proof.
  unfold demo_two.
  pose proof (insert_record_ok demo_empty [1; 2; 3; 4] demo_empty_ok eq_refl) as H1.
  destruct (insert_record demo_empty [1; 2; 3; 4]) as [[rc1 p1] s1] eqn:E1. cbn [fst snd].
  destruct H1 as [Hok1 _].
  pose proof (insert_record_ok p1 [5; 6; 7; 8] Hok1) as H2.
  destruct (insert_record p1 [5; 6; 7; 8]) as [[rc2 p2] s2] eqn:E2. cbn [fst snd].
  apply H2. apply (f_equal (fun x => x.1.2)) in E1. cbn [fst snd] in E1. rewrite <- E1.
  vm_compute. reflexivity.
Qed.



(** [init_empty_page] produces a page that satisfies the page invariant and holds
    no record. *)
Theorem new_page_empty rec_size ncol old : layout_args_ok rec_size ncol ->
  zlen old = BP_PAGE_DATA_SIZE ->
  page_ok (init_empty_page rec_size ncol old) /\ page_map (init_empty_page rec_size ncol old) = ∅.
Proof. apply init_empty_page_ok. Qed.

Lemma new_page_empty_witness : page_ok demo_empty /\ page_map demo_empty = ∅.
Proof.
  apply (new_page_empty 4 0 (replicate 8180 0)); [unfold layout_args_ok; change BP_PAGE_DATA_SIZE with 8180; lia|].
  vm_compute. reflexivity.
Defined.

(** C31: [insert_record] against the map from slots to records: on a full page it fails
    with [RECORD_NOMEM] and changes nothing; otherwise it picks the least free slot and
    adds exactly that entry.  The invariant is kept. *)
Theorem insert_record_refines p src : page_ok p -> zlen src = p.(hdr).(record_real_size) ->
  insert_spec p src (insert_record p src).
Proof. apply insert_record_ok. Qed.

Lemma insert_record_refines_witness :
  (insert_record demo_two [9; 9; 9; 9]).2 = 2 /\
  insert_spec demo_two [9; 9; 9; 9] (insert_record demo_two [9; 9; 9; 9]).
Proof.
  split; [vm_compute; reflexivity|]. apply insert_record_refines; [exact demo_two_ok|].
  vm_compute. reflexivity.
Defined.

(** [delete_record] removes exactly the slot's entry, [update_record] replaces
    exactly the slot's entry, and [get_record] answers exactly the slot's entry; a slot
    without one gives the error code of the source and leaves the page as it was. *)
Theorem slot_operations_refine p s src : page_ok p -> in_page p s ->
  zlen src = p.(hdr).(record_real_size) ->
  delete_spec p s (delete_record p s) /\ update_spec p s src (update_record p s src) /\
  get_record p s = match page_map p !! s with
                   | Some d => (SUCCESS, d)
                   | None => (RECORD_NOT_EXIST, [])
                   end.
Proof.
  intros Hok Hs Hlen. assert (0 <= s) by (unfold in_page in Hs; lia).
  split; [by apply delete_record_ok|]. split; [by apply update_record_ok|].
  pose proof (get_record_ok p s Hok ltac:(lia)) as Hg.
  destruct (page_map p !! s); [done|]. rewrite Hg.
  destruct (Z.leb_spec p.(hdr).(record_capacity) s); [unfold in_page in Hs; lia|done].
Qed.

Lemma slot_operations_refine_witness :
  get_record demo_two 1 = (SUCCESS, [5; 6; 7; 8]) /\ delete_spec demo_two 1 (delete_record demo_two 1).
Proof.
  split; [vm_compute; reflexivity|].
  refine (proj1 (slot_operations_refine demo_two 1 [0; 0; 0; 0] demo_two_ok _ _)).
  - vm_compute. split; congruence.
  - vm_compute. reflexivity.
Defined.

(** The page iterator terminates and returns every allocated slot once, in
    increasing order, with its record. *)
Theorem iterator_complete p fuel : page_ok p -> p.(hdr).(record_capacity) < Z.of_nat fuel ->
  iter_collect fuel p (iter_init p 0) = (fun sd => (sd.1, (SUCCESS, sd.2))) <$> slot_list p.
Proof.
  intros Hok Hf. rewrite iter_collect_spec by (done || lia). unfold slot_list.
  rewrite <- list_fmap_compose. unfold compose. cbn. by rewrite Z.sub_0_r.
Qed.

Lemma iterator_complete_witness :
  iter_collect 1003 demo_two (iter_init demo_two 0) =
    [(0, (SUCCESS, [1; 2; 3; 4])); (1, (SUCCESS, [5; 6; 7; 8]))] /\
  iter_collect 1003 demo_two (iter_init demo_two 0) =
    (fun sd => (sd.1, (SUCCESS, sd.2))) <$> slot_list demo_two.
Proof.
  split; [vm_compute; reflexivity|]. apply iterator_complete; [exact demo_two_ok|].
  vm_compute. reflexivity.
Defined.
