(* ===== verification/PageAlloc.v ===== *)
(** * PageAlloc: page allocation in a buffer pool file

    Models the file header page of [src/src/observer/storage/buffer/disk_buffer_pool.cpp]
    ([BPFileHeader]) and the operations that change it: [allocate_page],
    [dispose_page], [recover_page], the two redo functions of the buffer pool's log
    ([buffer_pool_log.cpp]) and the iterator over allocated pages.  The frames of the
    pages are in [BufferPool].

    The header is read as the set of allocated page numbers, [allocated]. *)

From S2P Require Import Prelude Bitmap RecordPage.

Module PageAlloc.

(** [struct BPFileHeader]; the bitmap fills the rest of the page. *)
Record BPFileHeader := mkHeader {
  buffer_pool_id : Z;
  page_count : Z;
  allocated_pages : Z;
  bitmap : list Z
}.

Definition MAX_PAGE_NUM : Z := (BP_PAGE_DATA_SIZE - 4 - 4 - 4) * 8.

(** The header of a new file, written by [BufferPoolManager::create_file]. *)
Definition create_file (id : Z) : BPFileHeader :=
  mkHeader id 1 1 (1 :: replicate (Z.to_nat (MAX_PAGE_NUM / 8) - 1) 0).

(** [Bitmap bitmap(file_header_->bitmap, file_header_->page_count)] *)
Definition header_bitmap (h : BPFileHeader) : Bitmap := mkBitmap h.(bitmap) h.(page_count).

(** [bitmap[i / 8] & (1 << (i % 8))] *)
Definition page_bit (h : BPFileHeader) (i : Z) : bool := get_bit (header_bitmap h) i.

Definition with_alloc (h : BPFileHeader) (count alloc : Z) (b : Bitmap) : BPFileHeader :=
  mkHeader h.(buffer_pool_id) count alloc b.(bitmap_).

(** The log of the file's page allocation. *)
Inductive BufferPoolOperation := ALLOCATE | DEALLOCATE.
Record BufferPoolLogEntry := mkEntry { entry_lsn : Z; entry_page : Z; operation_type : BufferPoolOperation }.

(** The header frame, and the log handler with the LSN of its last entry. *)
Record HeaderFrame := mkHF { file_header : BPFileHeader; hdr_lsn : Z }.
Record Log := mkLog { current_lsn : Z; entries : list BufferPoolLogEntry }.

Definition append_log (l : Log) (op : BufferPoolOperation) (pn : Z) : Z * Log :=
  let lsn := l.(current_lsn) + 1 in (lsn, mkLog lsn (l.(entries) ++ [mkEntry lsn pn op])).

(** [DiskBufferPool::allocate_page], the header part: reuse the first free page,
    otherwise extend the file.  ([allocate_frame] does not fail.) *)
Definition allocate_page (f : HeaderFrame) (l : Log) : RC * Z * HeaderFrame * Log :=
  let h := f.(file_header) in
  let i := if h.(allocated_pages) <? h.(page_count)
           then first_from (fun i => negb (page_bit h i)) 0 (Z.to_nat h.(page_count)) else -1 in
  if negb (i =? -1) then
    let h' := with_alloc h h.(page_count) (h.(allocated_pages) + 1) (set_bit (header_bitmap h) i) in
    let '(lsn, l') := append_log l ALLOCATE i in
    (SUCCESS, i, mkHF h' lsn, l')
  else if MAX_PAGE_NUM <=? h.(page_count) then (BUFFERPOOL_NOBUF, -1, f, l)
  else
    let page_num := h.(page_count) in
    let '(lsn, l') := append_log l ALLOCATE page_num in
    let h' := with_alloc h (h.(page_count) + 1) (h.(allocated_pages) + 1)
                (set_bit (header_bitmap h) page_num) in
    (SUCCESS, page_num, mkHF h' lsn, l').

(** [DiskBufferPool::dispose_page], the header part. *)
Definition dispose_page (f : HeaderFrame) (l : Log) (page_num : Z) : RC * HeaderFrame * Log :=
  let h := f.(file_header) in
  if page_num =? 0 then (INTERNAL, f, l)
  else
    let '(lsn, l') := append_log l DEALLOCATE page_num in
    let h' := with_alloc h h.(page_count) (h.(allocated_pages) - 1) (clear_bit (header_bitmap h) page_num) in
    (SUCCESS, mkHF h' lsn, l').

(** [DiskBufferPool::recover_page] *)
Definition recover_page (f : HeaderFrame) (page_num : Z) : RC * HeaderFrame :=
  let h := f.(file_header) in
  if negb (page_bit h page_num) then
    (SUCCESS, mkHF (with_alloc h (h.(page_count) + 1) (h.(allocated_pages) + 1)
                      (set_bit (header_bitmap h) page_num)) f.(hdr_lsn))
  else (SUCCESS, f).

(** [DiskBufferPool::redo_allocate_page]: reusing a page does not set the LSN. *)
Definition redo_allocate_page (f : HeaderFrame) (lsn page_num : Z) : RC * HeaderFrame :=
  let h := f.(file_header) in
  if lsn <=? f.(hdr_lsn) then (SUCCESS, f)
  else if page_num <? h.(page_count) then
    if page_bit h page_num then (SUCCESS, f)
    else (SUCCESS, mkHF (with_alloc h h.(page_count) (h.(allocated_pages) + 1)
                           (set_bit (header_bitmap h) page_num)) f.(hdr_lsn))
  else if h.(page_count) <? page_num then (INTERNAL, f)
  else if MAX_PAGE_NUM <=? h.(page_count) then (INTERNAL, f)
  else (SUCCESS, mkHF (with_alloc h (h.(page_count) + 1) (h.(allocated_pages) + 1)
                         (set_bit (header_bitmap h) page_num)) lsn).

(** [DiskBufferPool::redo_deallocate_page] *)
Definition redo_deallocate_page (f : HeaderFrame) (lsn page_num : Z) : RC * HeaderFrame :=
  let h := f.(file_header) in
  if lsn <=? f.(hdr_lsn) then (SUCCESS, f)
  else if h.(page_count) <=? page_num then (INTERNAL, f)
  else if negb (page_bit h page_num) then (INTERNAL, f)
  else (SUCCESS, mkHF (with_alloc h h.(page_count) (h.(allocated_pages) - 1)
                         (clear_bit (header_bitmap h) page_num)) lsn).

(** [BufferPoolLogReplayer::replay] *)
Definition replay (f : HeaderFrame) (e : BufferPoolLogEntry) : RC * HeaderFrame :=
  match e.(operation_type) with
  | ALLOCATE => redo_allocate_page f e.(entry_lsn) e.(entry_page)
  | DEALLOCATE => redo_deallocate_page f e.(entry_lsn) e.(entry_page)
  end.

Fixpoint replay_all (f : HeaderFrame) (es : list BufferPoolLogEntry) : RC * HeaderFrame :=
  match es with
  | [] => (SUCCESS, f)
  | e :: es' => let '(rc, f') := replay f e in if OB_FAIL rc then (rc, f') else replay_all f' es'
  end.

(** [DiskBufferPool::check_page_num] *)
Definition check_page_num (h : BPFileHeader) (page_num : Z) : RC :=
  if h.(page_count) <=? page_num then BUFFERPOOL_INVALID_PAGE_NUM
  else if negb (page_bit h page_num) then BUFFERPOOL_INVALID_PAGE_NUM else SUCCESS.

(** [BufferPoolIterator]: the state is [current_page_num_]. *)
Definition iter_init (start_page : Z) : Z := if start_page <=? 0 then -1 else start_page - 1.
Definition iter_has_next (h : BPFileHeader) (current : Z) : bool :=
  negb (next_setted_bit (header_bitmap h) (current + 1) =? -1).
Definition iter_next (h : BPFileHeader) (current : Z) : Z * Z :=
  let next_page := next_setted_bit (header_bitmap h) (current + 1) in
  (next_page, if negb (next_page =? -1) then next_page else current).

(** [while (it.has_next()) it.next()] *)
Fixpoint iter_collect (fuel : nat) (h : BPFileHeader) (current : Z) : list Z :=
  match fuel with
  | O => []
  | S fuel' =>
      if iter_has_next h current
      then let '(p, current') := iter_next h current in p :: iter_collect fuel' h current'
      else []
  end.

(** ** The set of allocated pages *)

Definition allocated_list (h : BPFileHeader) : list Z :=
  filter (fun i => page_bit h i = true) (seqZ 0 h.(page_count)).
Definition allocated (h : BPFileHeader) : gset Z := list_to_set (allocated_list h).

Record hdr_ok (h : BPFileHeader) : Prop := {
  ho_bitmap : bitmap_ok (mkBitmap h.(bitmap) MAX_PAGE_NUM);
  ho_count : 1 <= h.(page_count) <= MAX_PAGE_NUM;
  ho_tail : forall i, h.(page_count) <= i < MAX_PAGE_NUM -> page_bit h i = false;
  ho_alloc : h.(allocated_pages) = Z.of_nat (size (allocated h))
}.

Lemma elem_of_allocated h i :
  i ∈ allocated h <-> 0 <= i < h.(page_count) /\ page_bit h i = true.
Proof.
  unfold allocated, allocated_list. rewrite elem_of_list_to_set, list_elem_of_filter, elem_of_seqZ.
  split; intros [? ?]; split; try done; lia.
Qed.

Lemma allocated_size_le h : hdr_ok h -> 0 <= h.(allocated_pages) <= h.(page_count).
Proof.
  intros Hok. rewrite (ho_alloc _ Hok). split; [lia|].
  assert (allocated h ⊆ list_to_set (seqZ 0 h.(page_count))) as Hsub.
  { intros i. rewrite elem_of_allocated, elem_of_list_to_set, elem_of_seqZ. lia. }
  apply subseteq_size in Hsub. rewrite size_list_to_set, length_seqZ in Hsub by apply NoDup_seqZ.
  pose proof (ho_count _ Hok). lia.
Qed.

Lemma page_bit_set h i j c a : hdr_ok h -> 0 <= i < MAX_PAGE_NUM -> 0 <= j ->
  page_bit (with_alloc h c a (set_bit (header_bitmap h) i)) j = if decide (j = i) then true else page_bit h j.
Proof.
  intros Hok Hi Hj. exact (get_set_bit (mkBitmap h.(bitmap) MAX_PAGE_NUM) i j (ho_bitmap _ Hok) Hi Hj).
Qed.

Lemma page_bit_clear h i j c a : hdr_ok h -> 0 <= i < MAX_PAGE_NUM -> 0 <= j ->
  page_bit (with_alloc h c a (clear_bit (header_bitmap h) i)) j = if decide (j = i) then false else page_bit h j.
Proof.
  intros Hok Hi Hj. exact (get_clear_bit (mkBitmap h.(bitmap) MAX_PAGE_NUM) i j (ho_bitmap _ Hok) Hi Hj).
Qed.

(** Setting the bit of a free page, below the page count or right at it. *)
Lemma set_page_ok h i c : hdr_ok h -> 0 <= i < MAX_PAGE_NUM -> page_bit h i = false ->
  (c = h.(page_count) /\ i < c \/ c = h.(page_count) + 1 /\ i = h.(page_count)) ->
  let h' := with_alloc h c (h.(allocated_pages) + 1) (set_bit (header_bitmap h) i) in
  hdr_ok h' /\ allocated h' = {[ i ]} ∪ allocated h.
Proof.
  intros Hok Hi Hb Hc. cbn zeta. set (h' := with_alloc _ _ _ _).
  assert (allocated h' = {[ i ]} ∪ allocated h) as Hal.
  { apply set_eq. intros j. rewrite elem_of_union, elem_of_singleton, !elem_of_allocated.
    change (page_count h') with c. pose proof (ho_count _ Hok).
    destruct (Z.lt_ge_cases j 0) as [|Hj]; [lia|]. unfold h'. rewrite page_bit_set by done.
    destruct (decide (j = i)) as [->|Hne]; [split; [by left|intros _; split; [lia|done]]|].
    pose proof (ho_tail _ Hok j). split; [intros [? ?]; right; split; [|done]; lia|intros [|[? ?]]; [done|]; split; [lia|done]]. }
  split; [|done]. pose proof Hok as [Hbm Hct Htl Hal0]. split.
  - apply (set_bit_ok (mkBitmap h.(bitmap) MAX_PAGE_NUM) i Hbm).
  - cbn. lia.
  - intros j Hj. cbn in Hj. unfold h'. rewrite page_bit_set by (done || lia).
    destruct (decide (j = i)) as [->|]; [lia|]. apply Htl. lia.
  - rewrite Hal, size_union, size_singleton.
    + cbn. rewrite Hal0. lia.
    + apply disjoint_singleton_l. rewrite elem_of_allocated. intros [_ E]. congruence.
Qed.

Lemma clear_page_ok h i : hdr_ok h -> i ∈ allocated h ->
  let h' := with_alloc h h.(page_count) (h.(allocated_pages) - 1) (clear_bit (header_bitmap h) i) in
  hdr_ok h' /\ allocated h' = allocated h ∖ {[ i ]}.
Proof.
  intros Hok Hi. cbn zeta. set (h' := with_alloc _ _ _ _).
  pose proof Hok as [Hbm Hct Htl Hal0]. pose proof Hi as [Hr Hb]%elem_of_allocated.
  assert (allocated h' = allocated h ∖ {[ i ]}) as Hal.
  { apply set_eq. intros j. rewrite elem_of_difference, elem_of_singleton, !elem_of_allocated.
    change (page_count h') with h.(page_count).
    destruct (Z.lt_ge_cases j 0) as [|Hj]; [lia|]. unfold h'. rewrite page_bit_clear by (done || lia).
    destruct (decide (j = i)) as [->|Hne]; [split; [by intros []|tauto]|]. tauto. }
  split; [|done]. split.
  - apply (clear_bit_ok (mkBitmap h.(bitmap) MAX_PAGE_NUM) i Hbm).
  - done.
  - intros j Hj. cbn in Hj. unfold h'. rewrite page_bit_clear by (done || lia).
    destruct (decide (j = i)) as [->|]; [done|]. apply Htl. lia.
  - rewrite Hal, size_difference by set_solver. rewrite size_singleton. cbn. rewrite Hal0.
    assert (size (allocated h) <> 0%nat); [|lia]. intros E%size_empty_inv. set_solver.
Qed.

Lemma create_file_ok id : hdr_ok (create_file id) /\ allocated (create_file id) = {[ 0 ]}.
Proof.
  assert (forall i, 1 <= i -> page_bit (create_file id) i = false) as Hz.
  { intros i Hi. unfold page_bit, get_bit. cbn [bitmap_ header_bitmap bitmap create_file].
    rewrite Z.quot_div_nonneg, Z.rem_mod_nonneg by lia. rewrite znth_lookup.
    destruct (Z.ltb_spec (i / 8) 0); [done|].
    destruct (decide (i / 8 = 0)) as [E|E].
    - rewrite E. cbn [Z.to_nat lookup list_lookup default].
      assert (1 <= i < 8) as Hr by (apply Z.div_small_iff in E; lia).
      rewrite Z.mod_small by lia.
      assert (i = 1 \/ i = 2 \/ i = 3 \/ i = 4 \/ i = 5 \/ i = 6 \/ i = 7) as Hc by lia.
      by repeat (destruct Hc as [->|Hc]); [..|subst].
    - replace (Z.to_nat (i / 8)) with (S (Z.to_nat (i / 8 - 1))) by lia. rewrite lookup_cons.
      destruct (replicate _ 0 !! _) eqn:El; [|done]. by apply lookup_replicate in El as [-> _]. }
  assert (allocated (create_file id) = {[ 0 ]}) as Ha.
  { apply set_eq. intros i. rewrite elem_of_allocated, elem_of_singleton. cbn [page_count create_file].
    split; [lia|]. intros ->. split; [lia|done]. }
  split; [|done]. split.
  - split; [split; [done|]|].
    + unfold zlen. cbn [size_ bitmap_ bitmap create_file length]. rewrite length_replicate.
      change MAX_PAGE_NUM with 65344. change (65344 / 8) with 8168. lia.
    + cbn [bitmap_ bitmap create_file]. constructor; [lia|]. apply Forall_replicate. lia.
  - change MAX_PAGE_NUM with 65344. cbn. lia.
  - intros i Hi. apply Hz. cbn in Hi. lia.
  - rewrite Ha, size_singleton. done.
Qed.

(** ** Allocation and disposal against the set *)

(** A page that is not allocated is found whenever the counters say there is one. *)
Lemma free_page_found h : hdr_ok h -> h.(allocated_pages) < h.(page_count) ->
  let i := first_from (fun i => negb (page_bit h i)) 0 (Z.to_nat h.(page_count)) in
  0 <= i < h.(page_count) /\ page_bit h i = false.
Proof.
  intros Hok Hlt. cbn zeta. pose proof (ho_count _ Hok).
  destruct (first_from_cases (fun i => negb (page_bit h i)) 0 (Z.to_nat h.(page_count)))
    as [[-> Hall]|(Hr & Hb & _)].
  - exfalso. assert (list_to_set (seqZ 0 h.(page_count)) ⊆ allocated h) as Hsub.
    { intros i. rewrite elem_of_allocated, elem_of_list_to_set, elem_of_seqZ. intros Hi.
      specialize (Hall i ltac:(lia)). apply negb_false_iff in Hall. split; [lia|done]. }
    apply subseteq_size in Hsub. rewrite size_list_to_set, length_seqZ in Hsub by apply NoDup_seqZ.
    rewrite (ho_alloc _ Hok) in Hlt. lia.
  - apply negb_true_iff in Hb. split; [lia|done].
Qed.

Lemma allocate_page_cases f l : hdr_ok f.(file_header) ->
  let h := f.(file_header) in
  (allocate_page f l = (BUFFERPOOL_NOBUF, -1, f, l) /\ h.(allocated_pages) = MAX_PAGE_NUM) \/
  exists p c, let h' := with_alloc h c (h.(allocated_pages) + 1) (set_bit (header_bitmap h) p) in
    allocate_page f l = (SUCCESS, p, mkHF h' (l.(current_lsn) + 1),
      mkLog (l.(current_lsn) + 1) (l.(entries) ++ [mkEntry (l.(current_lsn) + 1) p ALLOCATE])) /\
    0 <= p < MAX_PAGE_NUM /\ page_bit h p = false /\
    (c = h.(page_count) /\ p < c \/ c = h.(page_count) + 1 /\ p = h.(page_count)).
Proof.
  intros Hok. cbn zeta. unfold allocate_page. set (h := f.(file_header)) in *.
  pose proof (ho_count _ Hok) as Hc. pose proof (allocated_size_le _ Hok) as Hs.
  destruct (Z.ltb_spec h.(allocated_pages) h.(page_count)) as [Hlt|Hge].
  - destruct (free_page_found h Hok Hlt) as [Hr Hb]. cbn zeta in *.
    set (i := first_from _ _ _) in *. destruct (Z.eqb_spec i (-1)); [lia|]. right.
    exists i, h.(page_count). cbn. split_and!; try done; lia.
  - cbn [negb Z.eqb Pos.eqb]. destruct (Z.leb_spec MAX_PAGE_NUM h.(page_count)) as [Hm|Hm]; [left|right].
    + split; [done|lia].
    + exists h.(page_count), (h.(page_count) + 1). cbn. split_and!; try done; try lia.
      apply (ho_tail _ Hok). lia.
Qed.

(** ** Histories *)

Inductive AllocOp := DoAllocate | DoDispose (page_num : Z).

Definition exec (st : HeaderFrame * Log) (o : AllocOp) : HeaderFrame * Log :=
  match o with
  | DoAllocate => let '(_, _, f, l) := allocate_page st.1 st.2 in (f, l)
  | DoDispose p => let '(_, f, l) := dispose_page st.1 st.2 p in (f, l)
  end.

(** Only allocated pages are disposed. *)
Definition op_valid (h : BPFileHeader) (o : AllocOp) : Prop :=
  match o with DoAllocate => True | DoDispose p => p ∈ allocated h end.

Fixpoint ops_valid (st : HeaderFrame * Log) (ops : list AllocOp) : Prop :=
  match ops with
  | [] => True
  | o :: ops' => op_valid st.1.(file_header) o /\ ops_valid (exec st o) ops'
  end.

Definition run (ops : list AllocOp) (st : HeaderFrame * Log) := foldl exec st ops.

(** One operation: nothing happens, or the header changes and one entry is logged
    whose replay does the same change. *)
Lemma exec_cases f l o : hdr_ok f.(file_header) -> op_valid f.(file_header) o ->
  exec (f, l) o = (f, l) \/
  exists h' e, let lsn := l.(current_lsn) + 1 in
    exec (f, l) o = (mkHF h' lsn, mkLog lsn (l.(entries) ++ [e])) /\ hdr_ok h' /\ e.(entry_lsn) = lsn /\
    forall g, g.(file_header) = f.(file_header) -> g.(hdr_lsn) <= l.(current_lsn) ->
      exists g', replay g e = (SUCCESS, g') /\ g'.(file_header) = h' /\ g'.(hdr_lsn) <= lsn.
Proof.
  intros Hok Hv. destruct o as [|p]; cbn [exec fst snd].
  - destruct (allocate_page_cases f l Hok) as [[-> _]|(p & c & -> & Hp & Hb & Hc)]; [by left|right].
    eexists _, _. cbn zeta. split; [done|].
    destruct (set_page_ok f.(file_header) p c Hok Hp Hb Hc) as [Hok' _]. split; [done|]. split; [done|].
    intros g Hg Hl. unfold replay. cbn [operation_type entry_lsn entry_page]. unfold redo_allocate_page.
    rewrite Hg, Hb. destruct (Z.leb_spec (l.(current_lsn) + 1) g.(hdr_lsn)); [lia|].
    destruct Hc as [[-> Hlt]|[-> ->]].
    + destruct (Z.ltb_spec p f.(file_header).(page_count)); [|lia]. eexists. split; [done|]. cbn. split; [done|lia].
    + rewrite Z.ltb_irrefl. destruct (Z.leb_spec MAX_PAGE_NUM f.(file_header).(page_count)); [lia|].
      eexists. split; [done|]. cbn. split; [done|lia].
  - unfold dispose_page. destruct (Z.eqb_spec p 0); [by left|right]. cbn in Hv.
    pose proof Hv as [Hr Hb]%elem_of_allocated.
    destruct (clear_page_ok _ _ Hok Hv) as [Hok' _]. eexists _, _. cbn zeta.
    split; [done|]. split; [done|]. split; [done|].
    intros g Hg Hl. unfold replay. cbn [operation_type entry_lsn entry_page]. unfold redo_deallocate_page.
    rewrite Hg, Hb. destruct (Z.leb_spec (l.(current_lsn) + 1) g.(hdr_lsn)); [lia|].
    destruct (Z.leb_spec f.(file_header).(page_count) p); [lia|]. cbn [negb].
    eexists. split; [done|]. cbn. split; [done|lia].
Qed.

Lemma replay_skip g e : e.(entry_lsn) <= g.(hdr_lsn) -> replay g e = (SUCCESS, g).
Proof.
  intros H. unfold replay, redo_allocate_page, redo_deallocate_page.
  destruct e as [lsn p []]; cbn in *; by destruct (Z.leb_spec lsn g.(hdr_lsn)); [|lia].
Qed.

(** Redo from an image whose header is the current one. *)
Lemma redo_same ops : forall f l g, hdr_ok f.(file_header) -> ops_valid (f, l) ops ->
  g.(file_header) = f.(file_header) -> g.(hdr_lsn) <= l.(current_lsn) ->
  exists new g', (run ops (f, l)).2.(entries) = l.(entries) ++ new /\
    replay_all g new = (SUCCESS, g') /\ g'.(file_header) = (run ops (f, l)).1.(file_header).
Proof.
  induction ops as [|o ops IH]; intros f l g Hok Hv Hg Hl.
  { exists [], g. by rewrite app_nil_r. }
  destruct Hv as [Hv1 Hv]. unfold run. cbn [foldl].
  destruct (exec_cases f l o Hok Hv1) as [E|(h' & e & E & Hok' & He & Hrep)]; rewrite E in *; [by apply IH|].
  destruct (Hrep g Hg Hl) as (g1 & Hr & Hg1 & Hl1).
  destruct (IH (mkHF h' _) _ g1 Hok' Hv Hg1 Hl1) as (new & g' & A & B & C).
  exists (e :: new), g'. cbn [entries] in A. unfold run in A. rewrite A, <- app_assoc. split; [done|].
  split; [|done]. cbn [replay_all]. by rewrite Hr.
Qed.

(** Redo from the header as it was after any prefix of the history. *)
Lemma redo_prefix ops : forall f l k, hdr_ok f.(file_header) -> ops_valid (f, l) ops ->
  f.(hdr_lsn) <= l.(current_lsn) ->
  exists new g', (run ops (f, l)).2.(entries) = l.(entries) ++ new /\
    replay_all (run (take k ops) (f, l)).1 new = (SUCCESS, g') /\
    g'.(file_header) = (run ops (f, l)).1.(file_header) /\
    f.(hdr_lsn) <= (run (take k ops) (f, l)).1.(hdr_lsn).
Proof.
  induction ops as [|o ops IH]; intros f l k Hok Hv Hl.
  { exists [], f. rewrite app_nil_r, take_nil. cbn. done. }
  destruct k as [|k].
  { destruct (redo_same (o :: ops) f l f Hok Hv eq_refl Hl) as (new & g' & A & B & C). by exists new, g'. }
  destruct Hv as [Hv1 Hv]. unfold run in *. cbn [take foldl] in *.
  destruct (exec_cases f l o Hok Hv1) as [E|(h' & e & E & Hok' & He & Hrep)]; rewrite E in *; [by apply IH|].
  destruct (IH (mkHF h' _) _ k Hok' Hv ltac:(cbn; lia)) as (new & g' & A & B & C & D).
  cbn [entries current_lsn hdr_lsn] in *. exists (e :: new), g'. rewrite A, <- app_assoc. split; [done|].
  split; [|split; [done|lia]]. cbn [replay_all]. rewrite replay_skip by lia. done.
Qed.

(** ** The iterator *)

Lemma pool_iter_collect_spec h fuel current : hdr_ok h -> -1 <= current ->
  h.(page_count) - current <= Z.of_nat fuel ->
  iter_collect fuel h current =
  filter (fun i => page_bit h i = true) (seqZ (current + 1) (h.(page_count) - (current + 1))).
Proof.
  intros Hok. assert (bitmap_ok (header_bitmap h)) as Hbm.
  { destruct (ho_bitmap _ Hok) as [[_ Hl] Hf]. pose proof (ho_count _ Hok). split; [|done]. cbn in *. lia. }
  revert current. induction fuel as [|fuel IH]; intros current Hs Hf.
  { rewrite seqZ_nil by lia. done. }
  cbn [iter_collect]. unfold iter_has_next, iter_next.
  rewrite next_setted_bit_first by (done || lia).
  set (n := Z.to_nat (size_ (header_bitmap h) - (current + 1))).
  destruct (first_from_cases (fun j => Bool.eqb (get_bit (header_bitmap h) j) true) (current + 1) n)
    as [[-> Hall]|(Hr & Hb & Hl)].
  - cbn. rewrite filter_seqZ_none; [done|]. intros j Hj. cbn in n.
    specialize (Hall j ltac:(lia)). cbn in Hall. unfold page_bit. by destruct (get_bit (header_bitmap h) j).
  - set (s := first_from _ _ _) in *. destruct (Z.eqb_spec s (-1)); [lia|]. cbn [negb].
    change (size_ (header_bitmap h)) with h.(page_count) in n. apply eqb_prop in Hb.
    rewrite (seqZ_split (current + 1) s) by lia. rewrite filter_app, filter_seqZ_none.
    2: { intros j Hj. specialize (Hl j ltac:(lia)). cbn in Hl. unfold page_bit. by destruct (get_bit (header_bitmap h) j). }
    rewrite seqZ_cons by lia. rewrite filter_cons_True by done. cbn [app]. f_equal.
    rewrite IH by lia. f_equal. f_equal; lia.
Qed.

(** ** The properties *)

(** [allocate_page] gives out a page that is not allocated, marks exactly it, and
    counts it; it fails, with [BUFFERPOOL_NOBUF] and nothing changed, only when all
    [MAX_PAGE_NUM] pages are allocated.  The header invariant (counter and bitmap agree,
    no bit beyond the page count) is kept. *)
Theorem allocate_page_fresh f l : hdr_ok f.(file_header) ->
  let '(rc, p, f', l') := allocate_page f l in
  if decide (f.(file_header).(allocated_pages) = MAX_PAGE_NUM) then rc = BUFFERPOOL_NOBUF /\ f' = f
  else rc = SUCCESS /\ 0 <= p < MAX_PAGE_NUM /\ p ∉ allocated f.(file_header) /\
       hdr_ok f'.(file_header) /\ allocated f'.(file_header) = {[ p ]} ∪ allocated f.(file_header).
Proof.
  intros Hok. destruct (allocate_page_cases f l Hok) as [[-> E]|(p & c & -> & Hp & Hb & Hc)].
  - by rewrite decide_True.
  - rewrite decide_False.
    2: { intros E. pose proof (allocated_size_le _ Hok). pose proof (ho_count _ Hok).
         assert (f.(file_header).(page_count) = MAX_PAGE_NUM) as Ec by lia.
         assert (p < f.(file_header).(page_count)) as Hlt by lia.
         assert (allocated f.(file_header) = list_to_set (seqZ 0 f.(file_header).(page_count))) as Hfull.
         { apply set_subseteq_size_eq.
           - intros i. rewrite elem_of_allocated, elem_of_list_to_set, elem_of_seqZ. lia.
           - rewrite size_list_to_set, length_seqZ by apply NoDup_seqZ. rewrite (ho_alloc _ Hok) in E. lia. }
         assert (p ∈ allocated f.(file_header)) as [_ Hin]%elem_of_allocated; [|congruence].
         rewrite Hfull, elem_of_list_to_set, elem_of_seqZ. lia. }
    destruct (set_page_ok f.(file_header) p c Hok Hp Hb Hc) as [Hok' Hal].
    split_and!; try done; [lia..|]. rewrite elem_of_allocated. intros [_ E]. congruence.
Qed.

Lemma allocate_page_fresh_witness :
  let f := mkHF (create_file 1) 0 in
  allocated_pages (create_file 1) <> MAX_PAGE_NUM /\
  let '(rc, p, f', l') := allocate_page f (mkLog 0 []) in
  rc = SUCCESS /\ 0 <= p < MAX_PAGE_NUM /\ p ∉ allocated f.(file_header) /\
  hdr_ok f'.(file_header) /\ allocated f'.(file_header) = {[ p ]} ∪ allocated f.(file_header).
Proof.
  split; [discriminate|].
  pose proof (allocate_page_fresh (mkHF (create_file 1) 0) (mkLog 0 []) (proj1 (create_file_ok 1))) as H.
  destruct (allocate_page _ _) as [[[rc p] f'] l']. rewrite decide_False in H by discriminate. exact H.
Defined.

(** [dispose_page] of an allocated page other than the header page removes exactly
    it from the allocated pages, and the header invariant is kept. *)
Theorem dispose_page_frees f l p : hdr_ok f.(file_header) -> p ∈ allocated f.(file_header) -> p <> 0 ->
  let '(rc, f', l') := dispose_page f l p in
  rc = SUCCESS /\ hdr_ok f'.(file_header) /\ allocated f'.(file_header) = allocated f.(file_header) ∖ {[ p ]}.
Proof.
  intros Hok Hp Hne. unfold dispose_page. destruct (Z.eqb_spec p 0); [done|]. cbn.
  split; [done|]. by apply clear_page_ok.
Qed.

(** A file with one data page. *)
Definition demo_frame : HeaderFrame * Log := exec (mkHF (create_file 1) 0, mkLog 0 []) DoAllocate.

Lemma demo_frame_ok : hdr_ok demo_frame.1.(file_header) /\ 1 ∈ allocated demo_frame.1.(file_header).
Proof.
  destruct (create_file_ok 1) as [Hok Hal].
  destruct (exec_cases (mkHF (create_file 1) 0) (mkLog 0 []) DoAllocate Hok I) as [E|(h' & e & E & Hok' & _)];
    [vm_compute in E; discriminate|].
  unfold demo_frame. split; [by rewrite E|]. apply elem_of_allocated. vm_compute. split; [split; congruence|done].
Qed.

Lemma dispose_page_frees_witness :
  let '(rc, f', l') := dispose_page demo_frame.1 demo_frame.2 1 in
  rc = SUCCESS /\ hdr_ok f'.(file_header) /\
  allocated f'.(file_header) = allocated demo_frame.1.(file_header) ∖ {[ 1 ]}.
Proof.
  apply (dispose_page_frees demo_frame.1 demo_frame.2 1 (proj1 demo_frame_ok) (proj2 demo_frame_ok)).
  discriminate.
Defined.

(** Redo of page allocation: replaying the log entries of a history of allocations
    and disposals over the header as it was after any prefix of that history succeeds
    and gives the header of the end of the history. *)
Theorem allocation_redo ops f l k : hdr_ok f.(file_header) -> ops_valid (f, l) ops ->
  f.(hdr_lsn) <= l.(current_lsn) ->
  exists new g', (run ops (f, l)).2.(entries) = l.(entries) ++ new /\
    replay_all (run (take k ops) (f, l)).1 new = (SUCCESS, g') /\
    g'.(file_header) = (run ops (f, l)).1.(file_header).
Proof.
  intros Hok Hv Hl. destruct (redo_prefix ops f l k Hok Hv Hl) as (new & g' & A & B & C & _). by exists new, g'.
Qed.

Lemma allocation_redo_witness :
  exists new g', (run [DoDispose 1; DoAllocate; DoAllocate] demo_frame).2.(entries) =
      demo_frame.2.(entries) ++ new /\
    replay_all (run (take 1 [DoDispose 1; DoAllocate; DoAllocate]) demo_frame).1 new = (SUCCESS, g') /\
    g'.(file_header) = (run [DoDispose 1; DoAllocate; DoAllocate] demo_frame).1.(file_header).
Proof.
  refine (allocation_redo [DoDispose 1; DoAllocate; DoAllocate] demo_frame.1 demo_frame.2 1
    (proj1 demo_frame_ok) _ _).
  - split; [exact (proj2 demo_frame_ok)|done].
  - vm_compute. congruence.
Defined.

(** The buffer pool iterator returns every allocated page once, in increasing
    order, and stops. *)
Theorem pool_iterator_complete h fuel : hdr_ok h -> h.(page_count) < Z.of_nat fuel ->
  iter_collect fuel h (iter_init 0) = allocated_list h.
Proof.
  intros Hok Hf. rewrite pool_iter_collect_spec by (done || (cbn; lia)). cbn. unfold allocated_list.
  by rewrite Z.sub_0_r.
Qed.

Lemma pool_iterator_complete_witness :
  iter_collect 3 demo_frame.1.(file_header) (iter_init 0) = [0; 1] /\
  iter_collect 3 demo_frame.1.(file_header) (iter_init 0) = allocated_list demo_frame.1.(file_header).
Proof.
  split; [vm_compute; reflexivity|].
  apply (pool_iterator_complete _ 3 (proj1 demo_frame_ok)). vm_compute. reflexivity.
Defined.

(** [recover_page] of a page number below the page count still adds one to the page
    count: the file then claims a page it does not have. *)
Theorem recover_page_extends_twice :
  let f := (exec demo_frame (DoDispose 1)).1 in
  let f' := (recover_page f 1).2 in
  f.(file_header).(page_count) = 2 /\ f'.(file_header).(page_count) = 3 /\
  allocated_list f'.(file_header) = [0; 1].
Proof. vm_compute. done. Qed.
End PageAlloc.
