(* ===== verification/BufferPool.v ===== *)
(** * BufferPool: frames, eviction and the double-write buffer

    Models [src/src/observer/storage/buffer/disk_buffer_pool.cpp] (the frame manager
    and the frame side of [DiskBufferPool]), [double_write_buffer.cpp] and the frame
    pool of [src/src/common/mm/mem_pool.h].

    The state holds the frames of every open file, keyed by file and page number, the
    LRU order of the frame manager (front first), the free frames, the double-write
    buffer in memory and in its file, the data files, and the LSN up to which the log
    is durable.  The calls of one thread are modelled one after the other; reads and
    writes of files that exist do not fail.  A failed [ASSERT] is [None]. *)

From S2P Require Import Prelude.

Module BufferPool.

(** [struct Page] *)
Record Page := mkPage { page_lsn : Z; check_sum : Z; page_data : list Z }.

(** [FrameId] and [DoubleWritePageKey]: the file and the page number. *)
Definition FrameId : Type := Z * Z.

(** [class Frame]: [free_internal] and [MemPoolSimple::free] leave the page and the
    dirty flag as they are ([Frame::reinit] and [Frame::reset] are empty). *)
Record Frame := mkFrame { page : Page; dirty : bool; pin_count : Z }.

(** [struct DoubleWritePage] *)
Record DoubleWritePage := mkDW { dw_key : FrameId; page_index : Z; valid : bool; dw_page : Page }.

#[export] Instance Page_eq_dec : EqDecision Page.
Proof. solve_decision. Defined.
#[export] Instance DoubleWritePage_eq_dec : EqDecision DoubleWritePage.
Proof. solve_decision. Defined.

Record Pool := mkPool {
  frames : gmap FrameId Frame;
  lru : list FrameId;
  frees : list Frame;
  dblwr_pages : gmap FrameId DoubleWritePage;
  page_cnt : Z;
  dw_file : gmap Z DoubleWritePage;
  dw_header : Z;
  disk : gmap FrameId Page;
  flushed_lsn : Z
}.

Section pool.
(** The checksum function and the size of the double-write buffer. *)
Context (crc32 : list Z -> Z) (max_pages : Z).

Definition set_frames (s : Pool) fr l fs :=
  mkPool fr l fs s.(dblwr_pages) s.(page_cnt) s.(dw_file) s.(dw_header) s.(disk) s.(flushed_lsn).
Definition set_dblwr (s : Pool) dw cnt file hd d :=
  mkPool s.(frames) s.(lru) s.(frees) dw cnt file hd d s.(flushed_lsn).
Definition wait_lsn (s : Pool) (lsn : Z) :=
  mkPool s.(frames) s.(lru) s.(frees) s.(dblwr_pages) s.(page_cnt) s.(dw_file) s.(dw_header) s.(disk)
    (Z.max s.(flushed_lsn) lsn).

(** *** The double-write buffer *)

(** [write_page]: to the data file, unless the entry is invalid. *)
Definition dw_write_page (d : gmap FrameId Page) (e : DoubleWritePage) : gmap FrameId Page :=
  if e.(valid) then <[e.(dw_key) := e.(dw_page)]> d else d.

Definition invalidate (e : DoubleWritePage) : DoubleWritePage :=
  mkDW e.(dw_key) e.(page_index) false e.(dw_page).

(** [DiskDoubleWriteBuffer::flush_page] *)
Definition dw_flush_page (s : Pool) : Pool :=
  let es := snd <$> map_to_list s.(dblwr_pages) in
  set_dblwr s ∅ 0
    (foldl (fun file e => <[e.(page_index) := invalidate e]> file) s.(dw_file) es)
    s.(dw_header) (foldl dw_write_page s.(disk) es).

(** [DiskDoubleWriteBuffer::add_page] *)
Definition add_page (s : Pool) (key : FrameId) (p : Page) : RC * Pool :=
  match s.(dblwr_pages) !! key with
  | Some e =>
      let e' := mkDW e.(dw_key) e.(page_index) e.(valid) p in
      (SUCCESS, set_dblwr s (<[key := e']> s.(dblwr_pages)) s.(page_cnt)
                  (<[e'.(page_index) := e']> s.(dw_file)) s.(dw_header) s.(disk))
  | None =>
      let cnt := Z.of_nat (size s.(dblwr_pages)) in
      let e := mkDW key cnt true p in
      let dw := <[key := e]> s.(dblwr_pages) in
      let file := <[cnt := e]> s.(dw_file) in
      let '(pc, hd) := if s.(page_cnt) <? cnt + 1 then (cnt + 1, cnt + 1) else (s.(page_cnt), s.(dw_header)) in
      let s1 := set_dblwr s dw pc file hd s.(disk) in
      (SUCCESS, if max_pages <=? Z.of_nat (size dw) then dw_flush_page s1 else s1)
  end.

(** [DiskDoubleWriteBuffer::read_page] *)
Definition read_page (s : Pool) (key : FrameId) : RC * option Page :=
  match s.(dblwr_pages) !! key with
  | Some e => (SUCCESS, Some e.(dw_page))
  | None => (BUFFERPOOL_INVALID_PAGE_NUM, None)
  end.

(** [DiskDoubleWriteBuffer::clear_pages] of file [id]: its entries are written to
    the data file and invalidated. *)
Definition clear_pages (s : Pool) (id : Z) : RC * Pool :=
  let mine := filter (fun kv => kv.1.1 = id) s.(dblwr_pages) in
  let es := snd <$> map_to_list mine in
  (SUCCESS, set_dblwr s (filter (fun kv => kv.1.1 <> id) s.(dblwr_pages)) s.(page_cnt)
     (foldl (fun file e => <[e.(page_index) := invalidate e]> file) s.(dw_file) es)
     s.(dw_header) (foldl (fun d e => <[e.(dw_key) := e.(dw_page)]> d) s.(disk) es)).

(** [DiskDoubleWriteBuffer::load_pages] on the file: the slots below the header's
    count, in order; a key that is already there is kept. *)
Definition load_slot (file : gmap Z DoubleWritePage) (dw : gmap FrameId DoubleWritePage) (i : Z) :
    gmap FrameId DoubleWritePage :=
  match file !! i with
  | Some e => if e.(dw_page).(check_sum) =? crc32 e.(dw_page).(page_data)
              then match dw !! e.(dw_key) with Some _ => dw | None => <[e.(dw_key) := e]> dw end
              else dw
  | None => dw
  end.
Definition load_pages (file : gmap Z DoubleWritePage) (hd : Z) : gmap FrameId DoubleWritePage :=
  foldl (load_slot file) ∅ (seqZ 0 hd).

(** *** The frame manager *)

Definition lru_front (k : FrameId) (l : list FrameId) : list FrameId := k :: filter (fun k' => k' <> k) l.

(** [BPFrameManager::get]: pin and move to the front. *)
Definition fm_get (s : Pool) (k : FrameId) : option (Frame * Pool) :=
  f ← s.(frames) !! k;
  let f' := mkFrame f.(page) f.(dirty) (f.(pin_count) + 1) in
  Some (f', set_frames s (<[k := f']> s.(frames)) (lru_front k s.(lru)) s.(frees)).

(** [BPFrameManager::alloc]: the existing frame, or the first free one. *)
Definition fm_alloc (s : Pool) (k : FrameId) : option (Frame * Pool) :=
  match fm_get s k with
  | Some r => Some r
  | None =>
      match s.(frees) with
      | [] => None
      | f :: fs =>
          let f' := mkFrame f.(page) f.(dirty) 1 in
          Some (f', set_frames s (<[k := f']> s.(frames)) (k :: s.(lru)) fs)
      end
  end.

(** [BPFrameManager::free_internal] *)
Definition fm_free (s : Pool) (k : FrameId) : option Pool :=
  match s.(frames) !! k with
  | Some f =>
      if f.(pin_count) =? 1
      then Some (set_frames s (delete k s.(frames)) (filter (fun k' => k' <> k) s.(lru))
                   (s.(frees) ++ [mkFrame f.(page) f.(dirty) 0]))
      else None
  | None => None
  end.

Definition put_frame (s : Pool) (k : FrameId) (f : Frame) : Pool :=
  set_frames s (<[k := f]> s.(frames)) s.(lru) s.(frees).

(** [DiskBufferPool::flush_page_internal]: wait for the log, checksum, hand the page
    to the double-write buffer. *)
Definition flush_page_internal (s : Pool) (k : FrameId) : option (RC * Pool) :=
  f ← s.(frames) !! k;
  let s1 := wait_lsn s f.(page).(page_lsn) in
  let p := mkPage f.(page).(page_lsn) (crc32 f.(page).(page_data)) f.(page).(page_data) in
  let '(rc, s2) := add_page s1 k p in
  if OB_FAIL rc then Some (rc, put_frame s2 k (mkFrame p f.(dirty) f.(pin_count)))
  else Some (SUCCESS, put_frame s2 k (mkFrame p false f.(pin_count))).

(** [BPFrameManager::purge_frames(1, purger)]: the least recently used frame that no
    one has pinned. *)
Definition can_purge (s : Pool) (k : FrameId) : bool :=
  match s.(frames) !! k with Some f => f.(pin_count) =? 0 | None => false end.

Definition purge_frames (s : Pool) : option Pool :=
  match filter (fun k => can_purge s k = true) (rev s.(lru)) with
  | [] => Some s
  | k :: _ =>
      f ← s.(frames) !! k;
      let s1 := put_frame s k (mkFrame f.(page) f.(dirty) (f.(pin_count) + 1)) in
      '(rc, s2) ← (if f.(dirty) then flush_page_internal s1 k else Some (SUCCESS, s1));
      if OB_SUCC rc then fm_free s2 k else Some (put_frame s2 k f)
  end.

(** [DiskBufferPool::allocate_frame]: the loop has no bound in the source. *)
Fixpoint allocate_frame (fuel : nat) (s : Pool) (k : FrameId) : option (Frame * Pool) :=
  match fuel with
  | O => None
  | S fuel' =>
      match fm_alloc s k with
      | Some r => Some r
      | None => s' ← purge_frames s; allocate_frame fuel' s' k
      end
  end.

(** [DiskBufferPool::load_page] *)
Definition load_page (s : Pool) (k : FrameId) : RC * option Page :=
  let '(rc, p) := read_page s k in
  if OB_SUCC rc then (rc, p)
  else match s.(disk) !! k with
       | Some p => (SUCCESS, Some p)
       | None => (IOERR_READ, None)
       end.

(** [DiskBufferPool::purge_frame] *)
Definition purge_frame (s : Pool) (k : FrameId) : option (RC * Pool) :=
  f ← s.(frames) !! k;
  if negb (f.(pin_count) =? 1) then Some (LOCKED_UNLOCK, s)
  else
    '(rc, s1) ← (if f.(dirty) then flush_page_internal s k else Some (SUCCESS, s));
    if OB_FAIL rc then Some (rc, s1) else s2 ← fm_free s1 k; Some (SUCCESS, s2).

(** [DiskBufferPool::get_this_page] *)
Definition get_this_page (fuel : nat) (s : Pool) (k : FrameId) : option (RC * Pool) :=
  match fm_get s k with
  | Some (_, s') => Some (SUCCESS, s')
  | None =>
      '(f, s1) ← allocate_frame fuel s k;
      match load_page s1 k with
      | (_, Some p) => Some (SUCCESS, put_frame s1 k (mkFrame p f.(dirty) f.(pin_count)))
      | (rc, None) => '(_, s2) ← purge_frame s1 k; Some (rc, s2)
      end
  end.

(** [DiskBufferPool::allocate_page] of the new page [k], after the header: a zeroed
    frame, flushed to extend the file. *)
Definition zero_page (n : nat) : Page := mkPage 0 0 (replicate n 0).
Definition extend_page (fuel data_size : nat) (s : Pool) (k : FrameId) : option (RC * Pool) :=
  '(f, s1) ← allocate_frame fuel s k;
  '(_, s2) ← flush_page_internal (put_frame s1 k (mkFrame (zero_page data_size) f.(dirty) f.(pin_count))) k;
  Some (SUCCESS, s2).

(** [DiskBufferPool::dispose_page], the frame part. *)
Definition dispose_frame (s : Pool) (k : FrameId) : option Pool :=
  match fm_get s k with
  | Some (_, s') => fm_free s' k
  | None => Some s
  end.

(** [DiskBufferPool::unpin_page] *)
Definition unpin_page (s : Pool) (k : FrameId) : option Pool :=
  f ← s.(frames) !! k;
  if 0 <? f.(pin_count) then Some (put_frame s k (mkFrame f.(page) f.(dirty) (f.(pin_count) - 1))) else None.

(** A client with the page pinned changes it and marks it dirty. *)
Definition modify_page (s : Pool) (k : FrameId) (p : Page) : option Pool :=
  f ← s.(frames) !! k;
  if 0 <? f.(pin_count) then Some (put_frame s k (mkFrame p true f.(pin_count))) else None.

(** [DiskBufferPool::purge_page] *)
Definition purge_page (s : Pool) (k : FrameId) : option (RC * Pool) :=
  match fm_get s k with
  | Some (_, s') => purge_frame s' k
  | None => Some (SUCCESS, s)
  end.

(** [DiskBufferPool::flush_all_pages] of file [id]: the frames of [find_list], in
    the LRU order, each pinned, flushed and unpinned. *)
Definition flush_all_pages (s : Pool) (id : Z) : option (RC * Pool) :=
  foldl (fun acc k =>
      '(rc, s) ← acc;
      if OB_FAIL rc then Some (rc, s) else flush_page_internal s k)
    (Some (SUCCESS, s)) (filter (fun k => k.1 = id) s.(lru)).

(** ** The contents of a page *)

(** What a page says, wherever it is: its checksum is only set when it is flushed. *)
Definition contents (p : Page) : Z * list Z := (p.(page_lsn), p.(page_data)).

(** The stored page: the double-write buffer's copy, or the data file's. *)
Definition backing (s : Pool) (k : FrameId) : option Page :=
  match s.(dblwr_pages) !! k with Some e => Some e.(dw_page) | None => s.(disk) !! k end.

(** The page a client sees: the frame's, or the stored one. *)
Definition view (s : Pool) (k : FrameId) : option (Z * list Z) :=
  match s.(frames) !! k with Some f => Some (contents f.(page)) | None => contents <$> backing s k end.

Record pool_ok (s : Pool) : Prop := {
  pk_lru : NoDup s.(lru);
  pk_lru_dom : forall k, k ∈ s.(lru) <-> is_Some (s.(frames) !! k);
  pk_pins : forall k f, s.(frames) !! k = Some f -> 0 <= f.(pin_count);
  pk_clean : forall k f, s.(frames) !! k = Some f -> f.(dirty) = false ->
    contents <$> backing s k = Some (contents f.(page));
  pk_dw : forall k e, s.(dblwr_pages) !! k = Some e -> e.(dw_key) = k /\ e.(valid) = true;
  pk_wal_disk : forall k p, s.(disk) !! k = Some p -> p.(page_lsn) <= s.(flushed_lsn);
  pk_wal_dw : forall k e, s.(dblwr_pages) !! k = Some e -> e.(dw_page).(page_lsn) <= s.(flushed_lsn)
}.

Lemma backing_wal s k p : pool_ok s -> backing s k = Some p -> p.(page_lsn) <= s.(flushed_lsn).
Proof using Type.
  intros Hok. unfold backing. destruct (_ !! k) as [e|] eqn:E; [|by apply pk_wal_disk].
  intros [= <-]. by apply (pk_wal_dw _ Hok k).
Qed.

(** Writing a batch of pages with distinct keys. *)
Lemma fold_writes (es : list DoubleWritePage) : NoDup (dw_key <$> es) -> forall (d : gmap FrameId Page) k,
  (forall e, e ∈ es -> e.(dw_key) = k ->
     foldl (fun d e => <[e.(dw_key) := e.(dw_page)]> d) d es !! k = Some e.(dw_page)) /\
  (k ∉ dw_key <$> es -> foldl (fun d e => <[e.(dw_key) := e.(dw_page)]> d) d es !! k = d !! k).
Proof using Type.
  induction es as [|e0 es IH]; intros Hnd d k; cbn [foldl fmap list_fmap] in *; [by split; [set_solver|]|].
  apply NoDup_cons in Hnd as [Hni Hnd]. destruct (IH Hnd (<[e0.(dw_key) := e0.(dw_page)]> d) k) as [I1 I2].
  split.
  - intros e [->|He]%elem_of_cons Hk; [|by apply I1].
    rewrite I2 by (by rewrite <- Hk). rewrite Hk. apply lookup_insert_eq.
  - intros Hk. rewrite I2 by set_solver. rewrite lookup_insert_ne by set_solver. done.
Qed.

Lemma fold_map_writes (m : gmap FrameId DoubleWritePage) (d : gmap FrameId Page) k :
  (forall k e, m !! k = Some e -> e.(dw_key) = k) ->
  foldl (fun d e => <[e.(dw_key) := e.(dw_page)]> d) d (snd <$> map_to_list m) !! k =
  match m !! k with Some e => Some e.(dw_page) | None => d !! k end.
Proof using Type.
  intros Hm. assert (dw_key <$> (snd <$> map_to_list m) = fst <$> map_to_list m) as Hk.
  { rewrite <- list_fmap_compose. apply list_fmap_ext. intros i [k' e] Hi%list_elem_of_lookup_2. cbn.
    apply Hm. by apply elem_of_map_to_list. }
  destruct (fold_writes (snd <$> map_to_list m) ltac:(rewrite Hk; apply NoDup_fst_map_to_list) d k) as [I1 I2].
  destruct (m !! k) as [e|] eqn:E.
  - apply I1; [|by apply Hm]. apply list_elem_of_fmap. exists (k, e). split; [done|]. by apply elem_of_map_to_list.
  - apply I2. rewrite Hk. intros ([k' e] & -> & Hin)%list_elem_of_fmap.
    apply elem_of_map_to_list in Hin. cbn in E. congruence.
Qed.

(** *** The double-write buffer keeps every stored page *)

Lemma dw_flush_disk s k : pool_ok s -> (dw_flush_page s).(disk) !! k = backing s k.
Proof using Type.
  intros Hok. unfold dw_flush_page, backing. cbn [disk set_dblwr].
  rewrite <- (fold_map_writes s.(dblwr_pages) s.(disk) k) by (intros k' e He; by apply (pk_dw _ Hok)).
  f_equal. assert (forall es d, (forall e, e ∈ es -> e.(valid) = true) ->
    foldl dw_write_page d es = foldl (fun d e => <[e.(dw_key) := e.(dw_page)]> d) d es) as Hext.
  { induction es as [|e es IH]; intros d Hv; [done|]. cbn. rewrite IH by set_solver. unfold dw_write_page at 1.
    rewrite Hv by set_solver. done. }
  apply Hext. intros e ([k' e'] & -> & Hin)%list_elem_of_fmap. apply elem_of_map_to_list in Hin.
  by apply (pk_dw _ Hok k').
Qed.

Lemma dw_flush_ok s : pool_ok s -> pool_ok (dw_flush_page s) /\
  forall k, backing (dw_flush_page s) k = backing s k.
Proof using Type.
  intros Hok. assert (forall k, backing (dw_flush_page s) k = backing s k) as Hb.
  { intros k. rewrite <- (dw_flush_disk s k Hok). unfold backing at 1.
    change (dblwr_pages (dw_flush_page s)) with (∅ : gmap FrameId DoubleWritePage). by rewrite lookup_empty. }
  split; [|done]. pose proof Hok as [A B C D E F G]. split; try done.
  - intros k f Hf Hd. rewrite Hb. by apply D.
  - intros k p. rewrite dw_flush_disk by done. by apply backing_wal.
Qed.

(** Adding a page whose log is durable replaces exactly its stored copy. *)
Lemma add_page_ok s k p : pool_ok s -> p.(page_lsn) <= s.(flushed_lsn) ->
  (forall f, s.(frames) !! k = Some f -> f.(dirty) = false -> contents f.(page) = contents p) ->
  exists s', add_page s k p = (SUCCESS, s') /\ pool_ok s' /\ s'.(frames) = s.(frames) /\
    s'.(lru) = s.(lru) /\ s'.(frees) = s.(frees) /\ s'.(flushed_lsn) = s.(flushed_lsn) /\
    forall j, backing s' j = if decide (j = k) then Some p else backing s j.
Proof using Type.
  intros Hok Hp Hf. unfold add_page.
  assert (forall idx pc file hd, let e := mkDW k idx true p in
    let s1 := set_dblwr s (<[k := e]> s.(dblwr_pages)) pc file hd s.(disk) in
    pool_ok s1 /\ forall j, backing s1 j = if decide (j = k) then Some p else backing s j) as Hins.
  { intros idx pc file hd e s1.
    assert (forall j, backing s1 j = if decide (j = k) then Some p else backing s j) as Hb.
    { intros j. unfold backing, s1. cbn [dblwr_pages set_dblwr disk]. rewrite lookup_insert.
      destruct (decide (k = j)) as [<-|Hne]; [by rewrite decide_True|]. by rewrite decide_False by congruence. }
    split; [|done]. pose proof Hok as [A B C D E F G]. split; try done.
    - intros j f Hj Hd. rewrite Hb. case_decide as Hjk; [subst j; by rewrite (Hf f)|by apply D].
    - intros j e'. unfold s1. cbn. rewrite lookup_insert. case_decide; [intros [= <-]; subst; done|apply E].
    - intros j e'. unfold s1. cbn. rewrite lookup_insert. case_decide; [intros [= <-]; done|apply G]. }
  destruct (s.(dblwr_pages) !! k) as [e|] eqn:Hk.
  - destruct (pk_dw _ Hok k e Hk) as [-> ->]. eexists. split; [done|].
    destruct (Hins e.(page_index) s.(page_cnt) (<[e.(page_index) := mkDW k e.(page_index) true p]> s.(dw_file))
      s.(dw_header)) as [I1 I2]. done.
  - set (cnt := Z.of_nat _). destruct (s.(page_cnt) <? cnt + 1);
      (edestruct Hins as [I1 I2]; destruct (_ <=? _); eexists; (split; [reflexivity|]);
       [destruct (dw_flush_ok _ I1) as [J1 J2]; split; [exact J1|]; split_and!; try done;
        intros j; rewrite J2; apply I2 | split; [exact I1|done]]).
Qed.

(** *** Flushing, pinning and freeing frames *)

(** [flush_page_internal] makes the frame clean and changes no page. *)
Lemma flush_page_ok s k f : pool_ok s -> s.(frames) !! k = Some f ->
  exists s' f', flush_page_internal s k = Some (SUCCESS, s') /\ pool_ok s' /\
    s'.(frames) = <[k := f']> s.(frames) /\ s'.(lru) = s.(lru) /\ s'.(frees) = s.(frees) /\
    f'.(dirty) = false /\ f'.(pin_count) = f.(pin_count) /\ contents f'.(page) = contents f.(page) /\
    (forall j, j <> k -> backing s' j = backing s j) /\
    contents <$> backing s' k = Some (contents f.(page)).
Proof using Type.
  intros Hok Hf. unfold flush_page_internal. rewrite Hf. bind_step.
  set (s1 := wait_lsn s _). set (p := mkPage _ _ _).
  assert (pool_ok s1) as Hok1.
  { pose proof Hok as [A B C D E F G]. split; try done; unfold s1; cbn.
    - intros j q Hj. specialize (F j q Hj). lia.
    - intros j e Hj. specialize (G j e Hj). lia. }
  destruct (add_page_ok s1 k p Hok1) as (s2 & -> & Hok2 & Hfr & Hlru & Hfree & Hfl & Hb).
  { unfold s1, p. cbn. lia. }
  { intros f0 Hf0 _. cbn in Hf0. by simplify_eq. }
  cbn. eexists _, (mkFrame p false f.(pin_count)). split; [done|].
  assert (forall j, backing (put_frame s2 k (mkFrame p false f.(pin_count))) j = backing s2 j) as Hb' by done.
  split_and!; try done.
  - pose proof Hok2 as [A B C D E F G]. split; try done; cbn [frames put_frame set_frames lru].
    + intros j. rewrite B, Hfr. cbn. rewrite lookup_insert. case_decide; [|done]. subst. rewrite Hf. split; eauto.
    + intros j g. rewrite lookup_insert. case_decide; [|by apply C]. intros [= <-]. cbn. by apply (pk_pins _ Hok k).
    + intros j g. rewrite lookup_insert. case_decide; [|by apply D]. intros [= <-] _. subst j.
      rewrite Hb', Hb, decide_True by done. done.
  - cbn. rewrite Hfr. done.
  - intros j Hj. rewrite Hb', Hb, decide_False by done. done.
  - rewrite Hb', Hb, decide_True by done. done.
Qed.

(** Replacing a frame by one with the same contents. *)
Lemma put_frame_ok s k f f' : pool_ok s -> s.(frames) !! k = Some f ->
  contents f'.(page) = contents f.(page) -> 0 <= f'.(pin_count) ->
  (f'.(dirty) = false -> f.(dirty) = false) ->
  pool_ok (put_frame s k f') /\ forall j, view (put_frame s k f') j = view s j.
Proof using Type.
  intros Hok Hf Hc Hp Hd. pose proof Hok as [A B C D E F G]. split.
  - split; try done; cbn [frames put_frame set_frames lru].
    + intros j. rewrite B, lookup_insert. case_decide; [|done]. subst. rewrite Hf. split; eauto.
    + intros j g. rewrite lookup_insert. case_decide; [by intros [= <-]|apply C].
    + intros j g. rewrite lookup_insert. case_decide; [|apply D]. intros [= <-] Hdg. subst j.
      rewrite Hc. apply D; [done|]. by apply Hd.
  - intros j. unfold view. cbn [frames put_frame set_frames]. rewrite lookup_insert.
    case_decide; [|done]. subst. by rewrite Hf, Hc.
Qed.

(** Changing the LRU order only. *)
Lemma lru_order_ok s l : pool_ok s -> NoDup l -> (forall k, k ∈ l <-> k ∈ s.(lru)) ->
  pool_ok (set_frames s s.(frames) l s.(frees)).
Proof using Type.
  intros [A B C D E F G] Hnd Hl. split; try done. intros k. cbn. rewrite Hl. apply B.
Qed.

Lemma lru_front_perm k l : NoDup l -> k ∈ l -> NoDup (lru_front k l) /\ forall j, j ∈ lru_front k l <-> j ∈ l.
Proof using Type.
  intros Hnd Hk. unfold lru_front. split.
  - apply NoDup_cons. split; [|by apply NoDup_filter]. rewrite list_elem_of_filter. tauto.
  - intros j. rewrite elem_of_cons, list_elem_of_filter. destruct (decide (j = k)) as [->|]; tauto.
Qed.

Lemma fm_get_ok s k f : pool_ok s -> s.(frames) !! k = Some f ->
  exists s', fm_get s k = Some (mkFrame f.(page) f.(dirty) (f.(pin_count) + 1), s') /\ pool_ok s' /\
    s'.(frames) = <[k := mkFrame f.(page) f.(dirty) (f.(pin_count) + 1)]> s.(frames) /\
    forall j, view s' j = view s j.
Proof using Type.
  intros Hok Hf. unfold fm_get. rewrite Hf. cbn. eexists. split; [done|].
  destruct (put_frame_ok s k f (mkFrame f.(page) f.(dirty) (f.(pin_count) + 1)) Hok Hf) as [P1 P2]; cbn; try done.
  { pose proof (pk_pins _ Hok k f Hf). lia. }
  destruct (lru_front_perm k s.(lru) (pk_lru _ Hok)) as [L1 L2]; [apply (pk_lru_dom _ Hok); eauto|].
  split; [|done]. apply (lru_order_ok _ _ P1 L1 L2).
Qed.

(** Freeing a clean frame. *)
Lemma fm_free_ok s k f : pool_ok s -> s.(frames) !! k = Some f -> f.(dirty) = false -> f.(pin_count) = 1 ->
  exists s', fm_free s k = Some s' /\ pool_ok s' /\ s'.(frames) = delete k s.(frames) /\
    s'.(frees) = s.(frees) ++ [mkFrame f.(page) false 0] /\ (forall j, view s' j = view s j).
Proof using Type.
  intros Hok Hf Hd Hp. unfold fm_free. rewrite Hf, Hp. cbn. eexists. split; [done|].
  pose proof Hok as [A B C D E F G]. split_and!; try done; [|by rewrite Hd|].
  - split; try done; cbn [frames set_frames lru].
    + by apply NoDup_filter.
    + intros j. rewrite list_elem_of_filter, B, lookup_delete. case_decide as H; [subst|].
      * split; [by intros []|by intros []].
      * split; [by intros []|]. intros ?. split; [congruence|done].
    + intros j g. rewrite lookup_delete_Some. intros [_ Hj]. by apply (C j).
    + intros j g. rewrite lookup_delete_Some. intros [_ Hj]. by apply (D j).
  - intros j. unfold view. cbn [frames set_frames]. rewrite lookup_delete. case_decide as H; [subst|done].
    rewrite Hf. by apply D.
Qed.

Lemma flush_view s k f : pool_ok s -> s.(frames) !! k = Some f ->
  exists s' f', flush_page_internal s k = Some (SUCCESS, s') /\ pool_ok s' /\
    s'.(frames) = <[k := f']> s.(frames) /\ s'.(lru) = s.(lru) /\ s'.(frees) = s.(frees) /\
    f'.(dirty) = false /\ f'.(pin_count) = f.(pin_count) /\ (forall j, view s' j = view s j) /\
    forall j, contents <$> backing s' j = if decide (j = k) then view s k else contents <$> backing s j.
Proof using Type.
  intros Hok Hf. destruct (flush_page_ok s k f Hok Hf) as (s' & f' & E & Hok' & Hfr & Hl & Hfs & Hd & Hp & Hc & Hb & Hbk).
  exists s', f'. split_and!; try done.
  - intros j. unfold view. rewrite Hfr, lookup_insert. case_decide as H; [subst; by rewrite Hf, Hc|].
    destruct (_ !! j); [done|]. by rewrite Hb by congruence.
  - intros j. case_decide as H; [subst|by rewrite Hb]. rewrite Hbk. unfold view. by rewrite Hf.
Qed.

(** Flush if dirty, then free: what a purge does with a frame pinned once. *)
Lemma flush_free_ok s k f : pool_ok s -> s.(frames) !! k = Some f -> f.(pin_count) = 1 ->
  exists s1 s2 g, (if f.(dirty) then flush_page_internal s k else Some (SUCCESS, s)) = Some (SUCCESS, s1) /\
    fm_free s1 k = Some s2 /\ pool_ok s2 /\ s2.(frames) = delete k s.(frames) /\
    s2.(frees) = s.(frees) ++ [g] /\ g.(dirty) = false /\ forall j, view s2 j = view s j.
Proof using Type.
  intros Hok Hf Hp. destruct f.(dirty) eqn:Hd.
  - destruct (flush_view s k f Hok Hf) as (s1 & f1 & E1 & Hok1 & Hfr1 & Hl1 & Hfs1 & Hd1 & Hp1 & Hv1 & _).
    destruct (fm_free_ok s1 k f1 Hok1) as (s2 & E2 & Hok2 & Hfr2 & Hfs2 & Hv2);
      [rewrite Hfr1; apply lookup_insert_eq|done|congruence|].
    exists s1, s2, (mkFrame f1.(page) false 0). split_and!; try done.
    + rewrite Hfr2, Hfr1. apply delete_insert_eq.
    + by rewrite Hfs2, Hfs1.
    + intros j. by rewrite Hv2, Hv1.
  - destruct (fm_free_ok s k f Hok Hf Hd Hp) as (s2 & E2 & Hok2 & Hfr2 & Hfs2 & Hv2).
    exists s, s2, (mkFrame f.(page) false 0). done.
Qed.

(** Somewhere to put a page: a free frame or one that no one has pinned. *)
Definition has_room (s : Pool) : Prop :=
  s.(frees) <> [] \/ exists k f, s.(frames) !! k = Some f /\ f.(pin_count) = 0.

Lemma purge_frames_ok s : pool_ok s -> s.(frees) = [] -> has_room s ->
  exists s' f, purge_frames s = Some s' /\ pool_ok s' /\ s'.(frees) = [f] /\ f.(dirty) = false /\
    (forall k, s.(frames) !! k = None -> s'.(frames) !! k = None) /\ forall j, view s' j = view s j.
Proof using Type.
  intros Hok Hnil [Hroom|(k0 & f0 & Hf0 & Hp0)]; [done|]. unfold purge_frames.
  assert (k0 ∈ filter (fun k => can_purge s k = true) (rev s.(lru))) as Hin.
  { apply list_elem_of_filter. split; [unfold can_purge; by rewrite Hf0, Hp0|].
    rewrite elem_of_rev. apply (pk_lru_dom _ Hok). eauto. }
  destruct (filter _ _) as [|k ks] eqn:Ef; [set_solver|].
  assert (k ∈ k :: ks) as Hk by set_solver. rewrite <- Ef in Hk.
  apply list_elem_of_filter in Hk as [Hc _]. unfold can_purge in Hc.
  destruct (s.(frames) !! k) as [f|] eqn:Hf; [|done]. apply Z.eqb_eq in Hc. bind_step.
  set (s1 := put_frame s k _).
  destruct (put_frame_ok s k f (mkFrame f.(page) f.(dirty) (f.(pin_count) + 1)) Hok Hf) as [P1 P2]; cbn; try done; [lia|].
  fold s1 in P1, P2.
  destruct (flush_free_ok s1 k (mkFrame f.(page) f.(dirty) (f.(pin_count) + 1)) P1) as
    (s2 & s3 & g & E2 & E3 & Hok3 & Hfr3 & Hfs3 & Hg & Hv3); [apply lookup_insert_eq|cbn; lia|].
  cbn [dirty] in E2. rewrite E2. cbn. rewrite E3. exists s3, g. split_and!; try done.
  - rewrite Hfs3. cbn. by rewrite Hnil.
  - intros j Hj. rewrite Hfr3, lookup_delete. case_decide; [done|]. cbn. by rewrite lookup_insert_ne.
  - intros j. by rewrite Hv3, P2.
Qed.

Lemma allocate_frame_ok s k : pool_ok s -> s.(frames) !! k = None -> has_room s ->
  exists s0 f fs, pool_ok s0 /\ s0.(frames) !! k = None /\ s0.(frees) = f :: fs /\
    (Forall (fun f => f.(dirty) = false) s.(frees) -> Forall (fun f => f.(dirty) = false) s0.(frees)) /\
    (forall j, view s0 j = view s j) /\
    allocate_frame 2 s k = Some (mkFrame f.(page) f.(dirty) 1,
      set_frames s0 (<[k := mkFrame f.(page) f.(dirty) 1]> s0.(frames)) (k :: s0.(lru)) fs).
Proof using Type.
  intros Hok Hk Hroom. cbn [allocate_frame]. unfold fm_alloc, fm_get. rewrite Hk. bind_step.
  destruct s.(frees) as [|f fs] eqn:Hfs.
  - destruct (purge_frames_ok s Hok Hfs Hroom) as (s0 & f & -> & Hok0 & Hf0 & Hd & Hn & Hv).
    exists s0, f, []. bind_step. rewrite (Hn k Hk), Hf0. split_and!; auto.
  - exists s, f, fs. rewrite Hfs. split_and!; auto.
Qed.

(** Putting a page into a new frame. *)
Lemma install_ok s k p d n fs : pool_ok s -> s.(frames) !! k = None -> 0 <= n ->
  (d = false -> contents <$> backing s k = Some (contents p)) ->
  let s' := set_frames s (<[k := mkFrame p d n]> s.(frames)) (k :: s.(lru)) fs in
  pool_ok s' /\ forall j, view s' j = if decide (j = k) then Some (contents p) else view s j.
Proof using Type.
  intros Hok Hk Hn Hd s'. pose proof Hok as [A B C D E F G]. split.
  - split; try done; unfold s'; cbn [frames set_frames lru].
    + apply NoDup_cons. split; [|done]. rewrite B, Hk. by intros [].
    + intros j. rewrite elem_of_cons, B, lookup_insert. case_decide as H; [subst|].
      * split; [eauto|by left].
      * split; [by intros [->|]|by right].
    + intros j g. rewrite lookup_insert. case_decide; [by intros [= <-]|apply C].
    + intros j g. rewrite lookup_insert. case_decide as H; [|apply D]. intros [= <-]. subst. apply Hd.
  - intros j. unfold view, s'. cbn [frames set_frames]. rewrite lookup_insert.
    destruct (decide (k = j)) as [<-|Hne]; [by rewrite decide_True|]. by rewrite decide_False by congruence.
Qed.

Lemma load_page_backing s k :
  load_page s k = match backing s k with Some p => (SUCCESS, Some p) | None => (IOERR_READ, None) end.
Proof using Type.
  unfold load_page, read_page, backing. destruct (s.(dblwr_pages) !! k); [done|]. cbn.
  by destruct (s.(disk) !! k).
Qed.

Lemma get_this_page_ok s k c : pool_ok s -> view s k = Some c ->
  (s.(frames) !! k = None -> has_room s) ->
  exists s' f, get_this_page 2 s k = Some (SUCCESS, s') /\ pool_ok s' /\
    s'.(frames) !! k = Some f /\ contents f.(page) = c /\ 0 < f.(pin_count) /\
    forall j, view s' j = view s j.
Proof using Type.
  intros Hok Hv Hroom. unfold get_this_page. destruct (s.(frames) !! k) as [f|] eqn:Hf.
  - destruct (fm_get_ok s k f Hok Hf) as (s' & -> & Hok' & Hfr & Hv').
    exists s', (mkFrame f.(page) f.(dirty) (f.(pin_count) + 1)). rewrite Hfr, lookup_insert_eq.
    split_and!; try done; cbn; [unfold view in Hv; rewrite Hf in Hv; congruence|].
    pose proof (pk_pins _ Hok k f Hf). lia.
  - assert (fm_get s k = None) as -> by (unfold fm_get; by rewrite Hf).
    destruct (allocate_frame_ok s k Hok Hf (Hroom eq_refl)) as (s0 & f & fs & Hok0 & Hk0 & Hfs & _ & Hv0 & ->).
    bind_step. rewrite load_page_backing. cbn [frees].
    change (backing (set_frames s0 ?x ?y ?z) k) with (backing s0 k).
    assert (contents <$> backing s0 k = Some c) as Hb.
    { rewrite <- Hv, <- Hv0. unfold view. by rewrite Hk0. }
    destruct (backing s0 k) as [p|] eqn:Ep; [|done]. cbn in Hb.
    unfold put_frame. cbn [frames set_frames lru frees page_cnt dblwr_pages dw_file dw_header disk flushed_lsn dirty pin_count].
    rewrite insert_insert_eq.
    destruct (install_ok s0 k p f.(dirty) 1 fs Hok0 Hk0 ltac:(lia) ltac:(intros _; rewrite Ep; done)) as [I1 I2].
    eexists _, (mkFrame p f.(dirty) 1). split; [done|]. split; [exact I1|].
    split_and!; try done; [cbn; apply lookup_insert_eq|cbn; congruence|].
    intros j. etransitivity; [exact (I2 j)|]. case_decide; [subst; rewrite Hv; congruence|apply Hv0].
Qed.

(** Reading a page that is nowhere fails and, if the free frames are clean, changes
    nothing. *)
Lemma get_missing_page_ok s k : pool_ok s -> view s k = None -> has_room s ->
  Forall (fun f => f.(dirty) = false) s.(frees) ->
  exists s', get_this_page 2 s k = Some (IOERR_READ, s') /\ forall j, view s' j = view s j.
Proof using Type.
  intros Hok Hv Hroom Hclean. unfold get_this_page.
  destruct (s.(frames) !! k) as [f|] eqn:Hf; [unfold view in Hv; by rewrite Hf in Hv|].
  assert (fm_get s k = None) as -> by (unfold fm_get; by rewrite Hf).
  destruct (allocate_frame_ok s k Hok Hf Hroom) as (s0 & f & fs & Hok0 & Hk0 & Hfs & Hcl & Hv0 & ->).
  specialize (Hcl Hclean). rewrite Hfs in Hcl. apply Forall_cons in Hcl as [Hd _].
  bind_step. rewrite load_page_backing.
  change (backing (set_frames s0 ?x ?y ?z) k) with (backing s0 k).
  assert (backing s0 k = None) as ->.
  { rewrite <- Hv0 in Hv. unfold view in Hv. rewrite Hk0 in Hv. by destruct (backing s0 k). }
  unfold purge_frame. cbn [frames set_frames]. rewrite lookup_insert_eq. cbn. rewrite Hd. cbn.
  unfold fm_free. cbn [frames set_frames]. rewrite lookup_insert_eq. cbn.
  eexists. split; [done|]. intros j. rewrite <- Hv0. unfold view. cbn [frames set_frames].
  rewrite delete_insert_id by done. done.
Qed.

Lemma purge_page_ok s k : pool_ok s -> exists rc s', purge_page s k = Some (rc, s') /\ pool_ok s' /\
  forall j, view s' j = view s j.
Proof using Type.
  intros Hok. unfold purge_page. destruct (s.(frames) !! k) as [f|] eqn:Hf.
  - destruct (fm_get_ok s k f Hok Hf) as (s1 & -> & Hok1 & Hfr1 & Hv1). unfold purge_frame.
    rewrite Hfr1, lookup_insert_eq. cbn [mbind option_bind pin_count dirty].
    destruct (Z.eqb_spec (f.(pin_count) + 1) 1) as [E|E]; cbn [negb]; [|eexists _, _; done].
    destruct (flush_free_ok s1 k (mkFrame f.(page) f.(dirty) (f.(pin_count) + 1)) Hok1) as
      (s2 & s3 & g & E2 & E3 & Hok3 & _ & _ & _ & Hv3); [rewrite Hfr1; apply lookup_insert_eq|done|].
    cbn [dirty] in E2. rewrite E2. cbn. rewrite E3. cbn. eexists _, s3. split; [done|]. split; [done|].
    intros j. by rewrite Hv3, Hv1.
  - assert (fm_get s k = None) as -> by (unfold fm_get; by rewrite Hf). eexists _, _. done.
Qed.

Lemma flush_list_ok ks : forall s, pool_ok s -> (forall k, k ∈ ks -> is_Some (s.(frames) !! k)) ->
  exists s', foldl (fun acc k => '(rc, s) ← acc; if OB_FAIL rc then Some (rc, s) else flush_page_internal s k)
      (Some (SUCCESS, s)) ks = Some (SUCCESS, s') /\ pool_ok s' /\ (forall j, view s' j = view s j) /\
    (forall j, is_Some (s'.(frames) !! j) <-> is_Some (s.(frames) !! j)) /\
    (forall j, j ∈ ks \/ contents <$> backing s j = view s j -> contents <$> backing s' j = view s j).
Proof using Type.
  induction ks as [|k ks IH]; intros s Hok Hks.
  { exists s. split_and!; try done. intros j [Hj|]; [set_solver|done]. }
  destruct (Hks k ltac:(set_solver)) as [f Hf]. cbn [foldl mbind option_bind].
  change (OB_FAIL SUCCESS) with false. bind_step.
  destruct (flush_view s k f Hok Hf) as (s1 & f1 & E1 & Hok1 & Hfr1 & _ & _ & _ & _ & Hv1 & Hb1).
  rewrite E1. assert (forall j, is_Some (s1.(frames) !! j) <-> is_Some (s.(frames) !! j)) as Hdom.
  { intros j. rewrite Hfr1, lookup_insert. case_decide; [subst; rewrite Hf; split; eauto|done]. }
  destruct (IH s1 Hok1) as (s' & E' & Hok' & Hv' & Hd' & Hb').
  { intros j Hj. apply Hdom, Hks. set_solver. }
  exists s'. rewrite E'. split_and!; try done.
  - intros j. by rewrite Hv', Hv1.
  - intros j. by rewrite Hd', Hdom.
  - intros j Hj. rewrite Hb'; [apply Hv1|]. rewrite Hb1, Hv1. destruct (decide (j = k)) as [->|Hne]; [by right|].
    destruct Hj as [Hj|Hj]; [left; set_solver|by right].
Qed.

Lemma flush_all_ok s id : pool_ok s ->
  exists s', flush_all_pages s id = Some (SUCCESS, s') /\ pool_ok s' /\ (forall j, view s' j = view s j) /\
    forall j : FrameId, j.1 = id -> contents <$> backing s' j = view s j.
Proof using Type.
  intros Hok. unfold flush_all_pages.
  destruct (flush_list_ok (filter (fun k => k.1 = id) s.(lru)) s Hok) as (s' & E & Hok' & Hv & _ & Hb).
  { intros k Hk. apply (pk_lru_dom _ Hok). by apply list_elem_of_filter in Hk as [_ Hk]. }
  exists s'. split_and!; try done. intros j Hj. apply Hb.
  destruct (s.(frames) !! j) as [f|] eqn:Hf.
  - left. apply list_elem_of_filter. split; [done|]. apply (pk_lru_dom _ Hok). eauto.
  - right. unfold view. by rewrite Hf.
Qed.

Lemma clear_pages_ok s id : pool_ok s ->
  exists s', clear_pages s id = (SUCCESS, s') /\ pool_ok s' /\
    (forall j, backing s' j = backing s j) /\ s'.(frames) = s.(frames) /\
    forall j : FrameId, j.1 = id -> s'.(disk) !! j = backing s j.
Proof using Type.
  intros Hok. unfold clear_pages. eexists. split; [done|].
  set (s' := set_dblwr _ _ _ _ _ _).
  assert (forall j : FrameId, s'.(disk) !! j = if decide (j.1 = id) then backing s j else s.(disk) !! j) as Hdisk.
  { intros j. unfold s'. cbn [disk set_dblwr]. rewrite fold_map_writes.
    2: { intros k e [He _]%map_lookup_filter_Some. by apply (pk_dw _ Hok). }
    unfold backing. rewrite map_lookup_filter.
    destruct (s.(dblwr_pages) !! j); cbn; repeat (case_guard || case_decide); done. }
  assert (forall j, backing s' j = backing s j) as Hb.
  { intros j. unfold backing at 1. rewrite Hdisk. unfold s', backing. cbn [dblwr_pages set_dblwr].
    rewrite map_lookup_filter. destruct (s.(dblwr_pages) !! j); cbn; repeat (case_guard || case_decide); done. }
  split_and!; try done; [|intros j Hj; by rewrite Hdisk, decide_True].
  pose proof Hok as [A B C D E F G]. split; try done.
  - intros k f Hf Hd. rewrite Hb. by apply D.
  - intros k e [He _]%map_lookup_filter_Some. by apply E.
  - intros k p. rewrite Hdisk. case_decide; [by apply backing_wal|by apply F].
  - intros k e [He _]%map_lookup_filter_Some. by apply (G k).
Qed.

(** ** Histories *)

Inductive PoolOp :=
| OGet (k : FrameId) | OUnpin (k : FrameId) | OModify (k : FrameId) (p : Page)
| OFlush (k : FrameId) | OPurge (k : FrameId) | OFlushAll (id : Z) | OClear (id : Z) | ODwFlush.

Inductive pool_step (s : Pool) : PoolOp -> Pool -> Prop :=
| st_get k s' : is_Some (view s k) -> (s.(frames) !! k = None -> has_room s) ->
    get_this_page 2 s k = Some (SUCCESS, s') -> pool_step s (OGet k) s'
| st_unpin k s' : unpin_page s k = Some s' -> pool_step s (OUnpin k) s'
| st_modify k p s' : modify_page s k p = Some s' -> pool_step s (OModify k p) s'
| st_flush k s' : flush_page_internal s k = Some (SUCCESS, s') -> pool_step s (OFlush k) s'
| st_purge k rc s' : purge_page s k = Some (rc, s') -> pool_step s (OPurge k) s'
| st_flush_all id rc s' : flush_all_pages s id = Some (rc, s') -> pool_step s (OFlushAll id) s'
| st_clear id rc s' : clear_pages s id = (rc, s') -> pool_step s (OClear id) s'
| st_dw_flush : pool_step s ODwFlush (dw_flush_page s).

(** The specification: a map from pages to contents, which only a client's change
    changes. *)
Definition spec_step (v : FrameId -> option (Z * list Z)) (o : PoolOp) (j : FrameId) : option (Z * list Z) :=
  match o with
  | OModify k p => if decide (j = k) then Some (contents p) else v j
  | _ => v j
  end.

Lemma pool_step_ok s o s' : pool_step s o s' -> pool_ok s ->
  pool_ok s' /\ forall j, view s' j = spec_step (view s) o j.
Proof using Type.
  intros Hst Hok. destruct Hst as [k s' [c Hc] Hr E|k s' E|k p s' E|k s' E|k rc s' E|id rc s' E|id rc s' E|].
  - destruct (get_this_page_ok s k c Hok Hc Hr) as (s1 & f & E1 & Hok1 & _ & _ & _ & Hv).
    rewrite E1 in E. by injection E as <-.
  - unfold unpin_page in E. destruct (s.(frames) !! k) as [f|] eqn:Hf; [|done]. cbn in E.
    destruct (Z.ltb_spec 0 f.(pin_count)); [|done]. injection E as <-.
    apply (put_frame_ok s k f); cbn; [done|done|done|lia|done].
  - unfold modify_page in E. destruct (s.(frames) !! k) as [f|] eqn:Hf; [|done]. cbn in E.
    destruct (Z.ltb_spec 0 f.(pin_count)); [|done]. injection E as <-. split.
    + pose proof Hok as [A B C D E F G]. split; try done; cbn [frames put_frame set_frames lru].
      * intros j. rewrite B, lookup_insert. case_decide; [subst; rewrite Hf; split; eauto|done].
      * intros j g. rewrite lookup_insert. case_decide; [intros [= <-]; cbn; lia|apply C].
      * intros j g. rewrite lookup_insert. case_decide; [by intros [= <-]|apply D].
    + intros j. unfold view, spec_step. cbn [frames put_frame set_frames]. rewrite lookup_insert.
      destruct (decide (k = j)) as [<-|]; [by rewrite decide_True|]. by rewrite decide_False by congruence.
  - unfold flush_page_internal in E. destruct (s.(frames) !! k) as [f|] eqn:Hf; [|done].
    destruct (flush_view s k f Hok Hf) as (s1 & f1 & E1 & Hok1 & _ & _ & _ & _ & _ & Hv & _).
    unfold flush_page_internal in E1. rewrite Hf in E1. rewrite E1 in E. by injection E as <-.
  - destruct (purge_page_ok s k Hok) as (rc1 & s1 & E1 & Hok1 & Hv). rewrite E1 in E. by injection E as <- <-.
  - destruct (flush_all_ok s id Hok) as (s1 & E1 & Hok1 & Hv & _). rewrite E1 in E. by injection E as <- <-.
  - destruct (clear_pages_ok s id Hok) as (s1 & E1 & Hok1 & Hb & Hfr & _). rewrite E1 in E. injection E as <- <-.
    split; [done|]. intros j. unfold view, spec_step. by rewrite Hfr, Hb.
  - destruct (dw_flush_ok s Hok) as [Hok1 Hb]. split; [done|]. intros j. unfold view, spec_step. by rewrite Hb.
Qed.

Inductive pool_run : Pool -> list PoolOp -> Pool -> Prop :=
| run_nil s : pool_run s [] s
| run_cons s1 o s2 ops s3 : pool_step s1 o s2 -> pool_run s2 ops s3 -> pool_run s1 (o :: ops) s3.

Lemma pool_run_ok s ops s' : pool_run s ops s' -> pool_ok s ->
  pool_ok s' /\ forall j, view s' j = foldl spec_step (view s) ops j.
Proof using Type.
  induction 1 as [|s1 o s2 ops s3 Hs Hr IH]; intros Hok; [done|].
  destruct (pool_step_ok _ _ _ Hs Hok) as [Hok2 Hv2]. destruct (IH Hok2) as [Hok3 Hv3].
  split; [done|]. intros j. rewrite Hv3. cbn [foldl]. clear -Hv2.
  assert (forall ops v v', (forall j, v j = v' j) -> forall j, foldl spec_step v ops j = foldl spec_step v' ops j) as Hext.
  { clear. induction ops as [|o ops IH]; intros v v' Hv j; [apply Hv|]. cbn. apply IH. intros i.
    unfold spec_step. by destruct o; rewrite ?Hv. }
  apply Hext, Hv2.
Qed.

(** ** A crash while the double-write buffer is being flushed *)

(** Every entry is in the double-write file, at its own slot, with a good checksum,
    and the header on disk covers exactly the slots in use. *)
Record dw_ok (s : Pool) : Prop := {
  dk_entry : forall k e, s.(dblwr_pages) !! k = Some e ->
    e.(dw_key) = k /\ e.(valid) = true /\ s.(dw_file) !! e.(page_index) = Some e /\
    e.(dw_page).(check_sum) = crc32 e.(dw_page).(page_data) /\
    0 <= e.(page_index) < Z.of_nat (size s.(dblwr_pages));
  dk_inj : forall k1 k2 e1 e2, s.(dblwr_pages) !! k1 = Some e1 -> s.(dblwr_pages) !! k2 = Some e2 ->
    e1.(page_index) = e2.(page_index) -> k1 = k2;
  dk_count : s.(page_cnt) = Z.of_nat (size s.(dblwr_pages));
  dk_header : s.(dblwr_pages) <> ∅ -> s.(dw_header) = s.(page_cnt)
}.

Lemma add_page_dw_ok s k p : dw_ok s -> p.(check_sum) = crc32 p.(page_data) -> dw_ok (add_page s k p).2.
Proof using Type.
  intros [A B C D] Hp. unfold add_page. destruct (s.(dblwr_pages) !! k) as [e|] eqn:Hk.
  - destruct (A k e Hk) as (K1 & K2 & K3 & K4 & K5). cbn [snd].
    assert (size (<[k := mkDW e.(dw_key) e.(page_index) e.(valid) p]> s.(dblwr_pages)) = size s.(dblwr_pages)) as Hsz
      by (apply map_size_insert_Some; eauto).
    split; cbn [dblwr_pages set_dblwr dw_file page_cnt dw_header page_index]; rewrite ?Hsz; try done.
    + intros j e'. rewrite lookup_insert. case_decide as Hj.
      * intros [= <-]. subst j. cbn. rewrite lookup_insert_eq. done.
      * intros He'. destruct (A j e' He') as (? & ? & ? & ? & ?). split_and!; try done; try lia.
        rewrite lookup_insert_ne; [done|]. intros E. apply Hj. by apply (B k j e e').
    + intros k1 k2 e1 e2. rewrite !lookup_insert.
      destruct (decide (k = k1)) as [<-|], (decide (k = k2)) as [<-|]; intros; simplify_eq; try done; cbn in *.
      all: eapply B; eauto.
    + intros _. apply D. intros E. rewrite E in Hk. done.
  - set (cnt := Z.of_nat _). set (e := mkDW k cnt true p). rewrite C. fold cnt.
    destruct (Z.ltb_spec cnt (cnt + 1)); [|lia]. set (s1 := set_dblwr _ _ _ _ _ _).
    assert (size (<[k := e]> s.(dblwr_pages)) = S (size s.(dblwr_pages))) as Hsz by by apply map_size_insert_None.
    assert (dw_ok s1) as Hok1.
    { split; unfold s1; cbn [dblwr_pages set_dblwr dw_file page_cnt dw_header]; rewrite ?Hsz; try done; try lia.
      - intros j e'. rewrite lookup_insert. case_decide as Hj.
        + intros [= <-]. subst j. cbn. rewrite lookup_insert_eq. split_and!; try done; lia.
        + intros He'. destruct (A j e' He') as (? & ? & ? & ? & ?). split_and!; try done; try lia.
          rewrite lookup_insert_ne by lia. done.
      - intros k1 k2 e1 e2. rewrite !lookup_insert.
        destruct (decide (k = k1)) as [<-|], (decide (k = k2)) as [<-|]; intros; simplify_eq; try done; cbn in *.
        + destruct (A k2 e2) as (_ & _ & _ & _ & ?); [done|lia].
        + destruct (A k1 e1) as (_ & _ & _ & _ & ?); [done|lia].
        + by apply (B k1 k2 e1 e2). }
    cbn [snd]. destruct (_ <=? _); [|done]. split; unfold dw_flush_page; cbn [dblwr_pages set_dblwr page_cnt dw_file]; try done.
Qed.

(** The double-write file after the entries [es] have been written out. *)
Definition invalidated (file : gmap Z DoubleWritePage) (es : list DoubleWritePage) : gmap Z DoubleWritePage :=
  foldl (fun file e => <[e.(page_index) := invalidate e]> file) file es.

Lemma invalidated_lookup es : forall file i,
  (forall e, e ∈ es -> e.(page_index) = i -> NoDup (page_index <$> es) ->
     invalidated file es !! i = Some (invalidate e)) /\
  (i ∉ page_index <$> es -> invalidated file es !! i = file !! i).
Proof using Type.
  induction es as [|e0 es IH]; intros file i; cbn [invalidated foldl fmap list_fmap]; [by split; [set_solver|]|].
  destruct (IH (<[e0.(page_index) := invalidate e0]> file) i) as [I1 I2]. unfold invalidated in *. split.
  - intros e [->|He]%elem_of_cons Hi [Hni Hnd]%NoDup_cons; [|by apply I1].
    rewrite I2 by (by rewrite <- Hi). rewrite Hi. apply lookup_insert_eq.
  - intros Hi. rewrite I2 by set_solver. rewrite lookup_insert_ne by set_solver. done.
Qed.

(** Loading slots with distinct keys and good checksums finds exactly them. *)
Lemma load_slots_lookup file (slots : list Z) : forall dw, NoDup slots ->
  (forall i, i ∈ slots -> exists e, file !! i = Some e /\ e.(dw_page).(check_sum) = crc32 e.(dw_page).(page_data)) ->
  (forall i j e e', i ∈ slots -> j ∈ slots -> file !! i = Some e -> file !! j = Some e' ->
     e.(dw_key) = e'.(dw_key) -> i = j) ->
  (forall i e, i ∈ slots -> file !! i = Some e -> dw !! e.(dw_key) = None) ->
  forall k e, foldl (load_slot file) dw slots !! k = Some e <->
    dw !! k = Some e \/ exists i, i ∈ slots /\ file !! i = Some e /\ e.(dw_key) = k.
Proof using Type.
  induction slots as [|i slots IH]; intros dw Hnd Hall Hinj Hnew k e; cbn [foldl].
  { split; [by left|]. intros [?|(? & ? & _)]; [done|set_solver]. }
  apply NoDup_cons in Hnd as [Hni Hnd].
  destruct (Hall i ltac:(set_solver)) as (e0 & He0 & Hc0).
  assert (load_slot file dw i = <[e0.(dw_key) := e0]> dw) as ->.
  { unfold load_slot. rewrite He0, Hc0, Z.eqb_refl. by rewrite (Hnew i e0) by set_solver. }
  rewrite IH.
  - rewrite lookup_insert. split.
    + case_decide as H; [intros [[= <-]|(j & Hj & Hf & Hk)]|intros [|(j & Hj & Hf & Hk)]]; auto.
      * right. exists i. split; [set_solver|done].
      * right. exists j. split; [set_solver|done].
      * right. exists j. split; [set_solver|done].
    + intros [Hd|(j & [->|Hj]%elem_of_cons & Hf & Hk)].
      * left. rewrite decide_False; [done|]. intros <-. rewrite (Hnew i e0) in Hd by set_solver. done.
      * left. simplify_eq. by rewrite decide_True.
      * right. by exists j.
  - done.
  - intros j Hj. apply Hall. set_solver.
  - intros j1 j2 e1 e2 H1 H2. apply Hinj; set_solver.
  - intros j e1 Hj Hf. rewrite lookup_insert_ne; [apply (Hnew j); set_solver|].
    intros E. assert (i = j) as -> by (apply (Hinj i j e0 e1); set_solver). done.
Qed.

(** Writing a list of entries with distinct keys, invalid ones skipped. *)
Lemma write_list_lookup k (es : list DoubleWritePage) : NoDup (dw_key <$> es) -> forall d,
  (forall e, e ∈ es -> e.(dw_key) = k ->
     foldl dw_write_page d es !! k = if e.(valid) then Some e.(dw_page) else d !! k) /\
  (k ∉ dw_key <$> es -> foldl dw_write_page d es !! k = d !! k).
Proof using Type.
  induction es as [|e0 es IH]; intros Hnd d; cbn [foldl fmap list_fmap] in *; [by split; [set_solver|]|].
  apply NoDup_cons in Hnd as [Hni Hnd]. destruct (IH Hnd (dw_write_page d e0)) as [I1 I2].
  split.
  - intros e [->|He]%elem_of_cons Hk.
    + rewrite I2 by (by rewrite <- Hk). unfold dw_write_page. destruct e0.(valid); [|done].
      rewrite Hk. apply lookup_insert_eq.
    + rewrite (I1 e He Hk). unfold dw_write_page. destruct e.(valid), e0.(valid); try done.
      rewrite lookup_insert_ne; [done|]. intros E. apply Hni. rewrite E, <- Hk.
      by apply list_elem_of_fmap_2.
  - intros Hk. rewrite I2 by set_solver. unfold dw_write_page. destruct e0.(valid); [|done].
    rewrite lookup_insert_ne by set_solver. done.
Qed.

Lemma map_keys (m : gmap FrameId DoubleWritePage) : (forall k e, m !! k = Some e -> e.(dw_key) = k) ->
  dw_key <$> (snd <$> map_to_list m) = fst <$> map_to_list m.
Proof using Type.
  intros Hm. rewrite <- list_fmap_compose. apply list_fmap_ext. intros i [k' e] Hi%list_elem_of_lookup_2. cbn.
  apply Hm. by apply elem_of_map_to_list.
Qed.

Lemma map_entries (m : gmap FrameId DoubleWritePage) e : (forall k e, m !! k = Some e -> e.(dw_key) = k) ->
  e ∈ snd <$> map_to_list m <-> m !! e.(dw_key) = Some e.
Proof using Type.
  intros Hm. rewrite list_elem_of_fmap. split.
  - intros ([k e'] & -> & Hin%elem_of_map_to_list). cbn. by rewrite (Hm k e' Hin).
  - intros He. exists (e.(dw_key), e). split; [done|]. by apply elem_of_map_to_list.
Qed.

(** The pages that [recover] writes: the valid entries it has loaded. *)
Lemma recover_writes (m : gmap FrameId DoubleWritePage) (d : gmap FrameId Page) k :
  (forall k e, m !! k = Some e -> e.(dw_key) = k) ->
  foldl dw_write_page d (snd <$> map_to_list m) !! k =
  match m !! k with Some e => if e.(valid) then Some e.(dw_page) else d !! k | None => d !! k end.
Proof using Type.
  intros Hm.
  destruct (write_list_lookup k (snd <$> map_to_list m)
    ltac:(rewrite map_keys by done; apply NoDup_fst_map_to_list) d) as [I1 I2].
  destruct (m !! k) as [e|] eqn:E.
  - pose proof (Hm _ _ E) as Hk. apply I1; [|done]. apply map_entries; [done|]. by rewrite Hk.
  - apply I2. rewrite map_keys by done. intros ([k' e] & -> & Hin)%list_elem_of_fmap.
    apply elem_of_map_to_list in Hin. cbn in E. congruence.
Qed.

Section crash.
Context (s : Pool) (Hdw : dw_ok s).
Context (es1 es2 : list DoubleWritePage) (e : DoubleWritePage).
Context (Hes : snd <$> map_to_list s.(dblwr_pages) = es1 ++ e :: es2).

Let keyed k x : s.(dblwr_pages) !! k = Some x -> x.(dw_key) = k.
Proof. intros H. by apply (dk_entry _ Hdw). Qed.

Lemma entry_in x : x ∈ es1 ++ e :: es2 <-> s.(dblwr_pages) !! x.(dw_key) = Some x.
Proof using Hes keyed. rewrite <- Hes. by apply map_entries. Qed.

Lemma entries_nodup : NoDup (dw_key <$> es1 ++ e :: es2) /\ NoDup (page_index <$> es1 ++ e :: es2).
Proof using Hes Hdw keyed.
  assert (NoDup (dw_key <$> es1 ++ e :: es2)) as Hk.
  { rewrite <- Hes, map_keys by done. apply NoDup_fst_map_to_list. }
  split; [done|]. apply NoDup_fmap_2_strong; [|by eapply NoDup_fmap_1].
  intros x y Hx%entry_in Hy%entry_in E. pose proof (dk_inj _ Hdw _ _ _ _ Hx Hy E) as Ek.
  rewrite Ek in Hx. congruence.
Qed.

(** The slots in use are the entries' slots. *)
Lemma slot_entry i : 0 <= i < s.(dw_header) <-> exists x, x ∈ es1 ++ e :: es2 /\ x.(page_index) = i.
Proof using Hes Hdw keyed.
  assert (s.(dw_header) = Z.of_nat (length (es1 ++ e :: es2))) as Hlen.
  { rewrite (dk_header _ Hdw), (dk_count _ Hdw).
    - rewrite <- Hes, length_fmap, length_map_to_list. done.
    - intros E. rewrite E, map_to_list_empty in Hes. by destruct es1. }
  assert (list_to_set (page_index <$> es1 ++ e :: es2) =@{gset Z} list_to_set (seqZ 0 s.(dw_header))) as Hset.
  { apply set_subseteq_size_eq.
    - intros j. rewrite !elem_of_list_to_set, elem_of_seqZ, list_elem_of_fmap.
      intros (x & -> & Hx%entry_in). destruct (dk_entry _ Hdw _ _ Hx) as (_ & _ & _ & _ & Hi).
      rewrite Hlen, <- Hes, length_fmap, length_map_to_list. lia.
    - rewrite !size_list_to_set, length_fmap, length_seqZ by (apply NoDup_seqZ || apply entries_nodup). lia. }
  assert (i ∈ list_to_set (C := gset Z) (page_index <$> es1 ++ e :: es2) <->
          i ∈ list_to_set (C := gset Z) (seqZ 0 s.(dw_header))) as H by by rewrite Hset.
  rewrite !elem_of_list_to_set, elem_of_seqZ, list_elem_of_fmap in H.
  split; [intros Hi; destruct (proj2 H ltac:(lia)) as (x & -> & Hx); eauto|].
  intros (x & Hx & <-). apply H. eauto.
Qed.

(** What the double-write file holds at an entry's slot after the crash. *)
Definition crashed_entry (x : DoubleWritePage) : DoubleWritePage :=
  if decide (x.(dw_key) ∈ dw_key <$> es1) then invalidate x else x.

Lemma crashed_slot x : x ∈ es1 ++ e :: es2 ->
  invalidated s.(dw_file) es1 !! x.(page_index) = Some (crashed_entry x).
Proof using Hes Hdw keyed.
  intros Hx. pose proof entries_nodup as [Hnk Hni]. unfold crashed_entry.
  destruct (invalidated_lookup es1 s.(dw_file) x.(page_index)) as [I1 I2].
  destruct (decide (x ∈ es1)) as [Hin|Hin].
  - rewrite decide_True by by apply list_elem_of_fmap_2. apply I1; [done|done|].
    rewrite fmap_app in Hni. by apply NoDup_app in Hni as [? _].
  - rewrite decide_False; [rewrite I2|].
    + by apply (dk_entry _ Hdw x.(dw_key)), entry_in.
    + intros (y & E & Hy)%list_elem_of_fmap. apply Hin.
      assert (x = y) as ->; [|done]. apply entry_in in Hx as Hx'.
      assert (s.(dblwr_pages) !! y.(dw_key) = Some y) as Hy' by (apply entry_in; set_solver).
      pose proof (dk_inj _ Hdw _ _ _ _ Hx' Hy' E) as Ek. rewrite Ek in Hx'. congruence.
    + intros (y & E & Hy)%list_elem_of_fmap. apply Hin. apply entry_in in Hx as Hx'.
      assert (s.(dblwr_pages) !! y.(dw_key) = Some y) as Hy' by (apply entry_in; set_solver).
      rewrite E in Hx'. congruence.
Qed.

Lemma crashed_entry_key x : (crashed_entry x).(dw_key) = x.(dw_key).
Proof using Type. unfold crashed_entry. by case_decide. Qed.

Lemma load_crashed k :
  load_pages (invalidated s.(dw_file) es1) s.(dw_header) !! k = crashed_entry <$> s.(dblwr_pages) !! k.
Proof using Hes Hdw keyed.
  assert (forall k e', load_pages (invalidated s.(dw_file) es1) s.(dw_header) !! k = Some e' <->
    exists i, i ∈ seqZ 0 s.(dw_header) /\ invalidated s.(dw_file) es1 !! i = Some e' /\ e'.(dw_key) = k) as Hl.
  { intros k' e'. unfold load_pages. rewrite load_slots_lookup.
    - rewrite lookup_empty. naive_solver.
    - apply NoDup_seqZ.
    - intros i Hi%elem_of_seqZ. destruct (proj1 (slot_entry i) ltac:(lia)) as (x & Hx & <-).
      eexists. rewrite crashed_slot by done. split; [done|].
      apply entry_in in Hx. destruct (dk_entry _ Hdw _ _ Hx) as (_ & _ & _ & Hc & _).
      unfold crashed_entry. by case_decide.
    - intros i j a b Hi%elem_of_seqZ Hj%elem_of_seqZ Ha Hb E.
      destruct (proj1 (slot_entry i) ltac:(lia)) as (x & Hx & <-).
      destruct (proj1 (slot_entry j) ltac:(lia)) as (y & Hy & <-).
      rewrite crashed_slot in Ha, Hb by done. simplify_eq. rewrite !crashed_entry_key in E.
      apply entry_in in Hx. apply entry_in in Hy. rewrite E in Hx. congruence.
    - intros. apply lookup_empty. }
  destruct (s.(dblwr_pages) !! k) as [x|] eqn:Hx; cbn.
  - pose proof (keyed _ _ Hx) as <-. apply entry_in in Hx. apply Hl. exists x.(page_index).
    split; [apply elem_of_seqZ; pose proof (proj2 (slot_entry x.(page_index)) ltac:(eauto)); lia|].
    rewrite crashed_slot by done. split; [done|]. apply crashed_entry_key.
  - destruct (load_pages _ _ !! k) as [e'|] eqn:E; [|done]. apply Hl in E as (i & Hi%elem_of_seqZ & Hf & Hk).
    destruct (proj1 (slot_entry i) ltac:(lia)) as (y & Hy & <-). rewrite crashed_slot in Hf by done.
    simplify_eq. rewrite crashed_entry_key in Hx. apply entry_in in Hy. congruence.
Qed.

Lemma crash_recovers torn k :
  foldl dw_write_page (<[e.(dw_key) := torn]> (foldl dw_write_page s.(disk) es1))
    (snd <$> map_to_list (load_pages (invalidated s.(dw_file) es1) s.(dw_header))) !! k = backing s k.
Proof using Hes Hdw keyed.
  rewrite recover_writes.
  2: { intros k' e'. rewrite load_crashed. intros (x & Hx & ->)%fmap_Some_1.
       rewrite crashed_entry_key. by apply keyed. }
  rewrite load_crashed. pose proof entries_nodup as [Hnk _].
  rewrite fmap_app, fmap_cons in Hnk. apply NoDup_app in Hnk as (Hn1 & Hdis & _).
  destruct (write_list_lookup k es1 Hn1 s.(disk)) as [I1 I2]. unfold backing.
  destruct (s.(dblwr_pages) !! k) as [x|] eqn:Hx; cbn.
  - pose proof (keyed _ _ Hx) as Hk. pose proof (dk_entry _ Hdw _ _ Hx) as (_ & Hv & _).
    unfold crashed_entry. case_decide as Hin; [|by rewrite Hv]. cbn [valid invalidate].
    rewrite lookup_insert_ne by (intros E; apply (Hdis k); [by rewrite <- Hk|rewrite E; left]).
    apply list_elem_of_fmap in Hin as (y & E & Hy).
    assert (s.(dblwr_pages) !! y.(dw_key) = Some y) as Hy' by (apply entry_in; set_solver).
    assert (x = y) as -> by congruence. rewrite (I1 y Hy Hk), Hv. done.
  - rewrite lookup_insert_ne.
    + apply I2. intros (y & -> & Hy)%list_elem_of_fmap.
      assert (s.(dblwr_pages) !! y.(dw_key) = Some y) by (apply entry_in; set_solver). congruence.
    + intros <-. assert (s.(dblwr_pages) !! e.(dw_key) = Some e) by (apply entry_in; set_solver). congruence.
Qed.
End crash.
End pool.

(** ** The properties *)

Definition sum_crc (l : list Z) : Z := foldl Z.add 0 l.
Definition blank : Frame := mkFrame (mkPage 0 0 []) false 0.
Definition page_a : Page := mkPage 1 10 [1; 2; 3; 4].
Definition page_b : Page := mkPage 2 26 [5; 6; 7; 8].

(** Two frames over a file of two pages. *)
Definition demo : Pool :=
  mkPool ∅ [] [blank; blank] ∅ 0 ∅ 0 {[ (1, 1) := page_a; (1, 2) := page_b ]} 2.

Lemma demo_ok : pool_ok demo.
Proof.
  split; cbn; try done.
  - constructor.
  - intros k. split; [by intros ?%elem_of_nil|by intros []].
  - intros k p Hp. rewrite lookup_insert in Hp. case_decide; simplify_eq; [done|].
    apply lookup_singleton_Some in Hp as [_ <-]. done.
Qed.

(** Page 1 is read and changed, page 2 is read. *)
Definition demo_ops : list PoolOp :=
  [OGet (1, 1); OModify (1, 1) (mkPage 5 0 [9; 9; 9; 9]); OUnpin (1, 1); OGet (1, 2)].

Definition demo2 : Pool :=
  mkPool {[ (1, 1) := mkFrame (mkPage 5 0 [9; 9; 9; 9]) true 0; (1, 2) := mkFrame page_b false 1 ]}
    [(1, 2); (1, 1)] [] ∅ 0 ∅ 0 demo.(disk) 2.

Lemma demo_run : pool_run sum_crc 16 demo demo_ops demo2.
Proof.
  eapply run_cons; [apply st_get; [vm_compute; eauto|by left|vm_compute; reflexivity]|].
  eapply run_cons; [apply st_modify; vm_compute; reflexivity|].
  eapply run_cons; [apply st_unpin; vm_compute; reflexivity|].
  eapply run_cons; [apply st_get; [vm_compute; eauto|by left|vm_compute; reflexivity]|].
  apply run_nil.
Qed.

(** C25: The buffer pool refines a map from pages to contents: reading, unpinning,
    flushing, purging (with the evictions inside them) and flushing the double-write
    buffer leave every page's contents as they are, and a client's change changes
    exactly its page; the pool's invariant holds throughout. *)
Theorem pool_refines crc32 max_pages s ops s' : pool_ok s -> pool_run crc32 max_pages s ops s' ->
  pool_ok s' /\ forall j, view s' j = foldl spec_step (view s) ops j.
Proof. intros Hok Hr. by eapply pool_run_ok. Qed.

Lemma pool_refines_witness :
  view demo2 (1, 1) = Some (5, [9; 9; 9; 9]) /\
  pool_ok demo2 /\ forall j, view demo2 j = foldl spec_step (view demo) demo_ops j.
Proof.
  split; [vm_compute; reflexivity|].
  exact (pool_refines sum_crc 16 demo demo_ops demo2 demo_ok demo_run).
Defined.

(** [get_this_page] of a page that exists succeeds whenever a frame is free or
    unpinned (evicting and flushing if needed), pins a frame that holds the page's
    current contents, and changes no page. *)
Theorem get_this_page_coherent crc32 max_pages s k c : pool_ok s -> view s k = Some c ->
  (s.(frames) !! k = None -> has_room s) ->
  exists s' f, get_this_page crc32 max_pages 2 s k = Some (SUCCESS, s') /\ pool_ok s' /\
    s'.(frames) !! k = Some f /\ contents f.(page) = c /\ 0 < f.(pin_count) /\
    forall j, view s' j = view s j.
Proof. apply get_this_page_ok. Qed.

Lemma demo2_ok : pool_ok demo2.
Proof. destruct (pool_run_ok sum_crc 16 _ _ _ demo_run demo_ok) as [H _]. exact H. Qed.

(** A third page of another file: the least recently used unpinned frame is evicted. *)
Definition demo3 : Pool :=
  mkPool demo2.(frames) demo2.(lru) [] ∅ 0 ∅ 0 (<[(2, 1) := page_a]> demo2.(disk)) 2.

Lemma demo3_ok : pool_ok demo3.
Proof.
  destruct demo2_ok as [A B C D E F G]. split; try done.
  - intros k f Hf Hd. specialize (D k f Hf Hd). unfold backing in *. cbn [dblwr_pages demo3 demo2 disk] in *.
    rewrite lookup_empty in *. rewrite lookup_insert. case_decide as Hk; [|exact D]. subst k.
    vm_compute in Hf. discriminate.
  - intros k p. cbn [disk demo3 flushed_lsn]. rewrite lookup_insert. case_decide; [by intros [= <-]|apply F].
Qed.

Lemma get_this_page_coherent_witness :
  exists s' f, get_this_page sum_crc 16 2 demo3 (2, 1) = Some (SUCCESS, s') /\ pool_ok s' /\
    s'.(frames) !! (2, 1) = Some f /\ contents f.(page) = (1, [1; 2; 3; 4]) /\ 0 < f.(pin_count) /\
    forall j, view s' j = view demo3 j.
Proof.
  apply (get_this_page_coherent sum_crc 16 demo3 (2, 1) (1, [1; 2; 3; 4]) demo3_ok).
  - vm_compute. reflexivity.
  - intros _. right. exists (1, 1), (mkFrame (mkPage 5 0 [9; 9; 9; 9]) true 0). split; vm_compute; reflexivity.
Defined.



(** Durability: flushing all pages of a file and clearing its double-write entries
    leaves in the data file, for every page of the file, exactly what its clients
    saw. *)
Theorem flush_and_clear_durable crc32 max_pages s id : pool_ok s ->
  exists s1 s2, flush_all_pages crc32 max_pages s id = Some (SUCCESS, s1) /\
    clear_pages s1 id = (SUCCESS, s2) /\ pool_ok s2 /\
    forall j : FrameId, j.1 = id -> contents <$> s2.(disk) !! j = view s j.
Proof.
  intros Hok. destruct (flush_all_ok crc32 max_pages s id Hok) as (s1 & E1 & Hok1 & _ & Hb1).
  destruct (clear_pages_ok s1 id Hok1) as (s2 & E2 & Hok2 & _ & _ & Hd2).
  exists s1, s2. split_and!; try done. intros j Hj. by rewrite Hd2, Hb1.
Qed.

Lemma flush_and_clear_durable_witness :
  exists s1 s2, flush_all_pages sum_crc 16 demo2 1 = Some (SUCCESS, s1) /\
    clear_pages s1 1 = (SUCCESS, s2) /\ pool_ok s2 /\
    forall j : FrameId, j.1 = 1 -> contents <$> s2.(disk) !! j = view demo2 j.
Proof. exact (flush_and_clear_durable sum_crc 16 demo2 1 demo2_ok). Defined.


(** [add_page] keeps what torn-page recovery relies on: every entry of the
    double-write buffer is in its file at a slot of its own below the header's count,
    with a correct checksum. *)
Theorem add_page_keeps_slots crc32 max_pages s k p : dw_ok crc32 s -> p.(check_sum) = crc32 p.(page_data) ->
  dw_ok crc32 (add_page max_pages s k p).2.
Proof. apply add_page_dw_ok. Qed.

Lemma demo_dw_ok : dw_ok sum_crc demo.
Proof. split; cbn; done. Qed.

Lemma add_page_keeps_slots_witness : dw_ok sum_crc (add_page 16 demo (1, 1) page_a).2.
Proof. apply (add_page_keeps_slots sum_crc 16 demo (1, 1) page_a demo_dw_ok). vm_compute. reflexivity. Defined.

Definition demo_dw : Pool := (add_page 16 demo (1, 1) page_a).2.


(** After [clear_pages] of one file the next new entry takes a slot of the
    double-write file that an entry of another file still uses: that entry is in memory
    but no longer in the file. *)
Theorem clear_pages_reuses_slot :
  let s1 := (add_page 16 (add_page 16 demo (1, 1) page_a).2 (2, 1) page_b).2 in
  let s2 := (add_page 16 (clear_pages s1 1).2 (2, 2) page_a).2 in
  s2.(dblwr_pages) !! (2, 1) = Some (mkDW (2, 1) 1 true page_b) /\
  s2.(dw_file) !! 1 = Some (mkDW (2, 2) 1 true page_a) /\
  load_pages sum_crc s2.(dw_file) s2.(dw_header) !! (2, 1) = None.
Proof. vm_compute. done. Qed.

(** A frame freed by [dispose_page] keeps its dirty flag and its bytes.  When it is
    reused for a page that cannot be read, the failed read flushes those bytes: a page
    that did not exist now has the disposed page's contents. *)
Theorem stale_dirty_frame_written :
  let s := mkPool {[ (1, 1) := mkFrame page_a true 0 ]} [(1, 1)] [] ∅ 0 ∅ 0 ∅ 2 in
  exists s1 s2, dispose_frame s (1, 1) = Some s1 /\ view s1 (1, 7) = None /\
    get_this_page sum_crc 16 2 s1 (1, 7) = Some (IOERR_READ, s2) /\
    view s2 (1, 7) = Some (contents page_a).
Proof. eexists _, _. split; [vm_compute; reflexivity|]. split_and!; vm_compute; reflexivity. Qed.
End BufferPool.
