(* ===== verification/RecordFile.v ===== *)
(** * RecordFile: a heap file of record pages

    Models [RecordFileHandler] of [src/src/observer/storage/record/record_manager.cpp]
    and [HeapRecordScanner] of [heap_record_scanner.cpp], on top of the page operations
    of [RecordPage] and the page allocation of [PageAlloc].

    The file is its header (which pages are allocated), the record pages, and the set
    [free_pages_] of pages that may have room.  [free_pages_] is an [unordered_set]:
    which element [begin()] returns is not specified, so it is a parameter [first] of
    which only "it is an element" is assumed. *)

From S2P Require Import Prelude Bitmap RecordPage PageAlloc.

Module RecordFile.

Record RecFile := mkFile {
  header : PageAlloc.HeaderFrame;
  log : PageAlloc.Log;
  pages : gmap Z RecPage;
  free_pages : gset Z
}.

Definition set_page (f : RecFile) (pn : Z) (p : RecPage) : RecFile :=
  mkFile f.(header) f.(log) (<[pn := p]> f.(pages)) f.(free_pages).
Definition add_free (f : RecFile) (pn : Z) : RecFile :=
  mkFile f.(header) f.(log) f.(pages) ({[ pn ]} ∪ f.(free_pages)).

Section file.
Context (first : gset Z -> Z) (Hfirst : forall S, S ≠ ∅ -> first S ∈ S).
(** The table's record size and number of columns. *)
Context (rec_size ncol : Z).

(** [RecordPageHandler::init]: the page must be in the file. *)
Definition page_init (f : RecFile) (pn : Z) : RC * option RecPage :=
  match f.(pages) !! pn with Some p => (SUCCESS, Some p) | None => (IOERR_READ, None) end.

(** [RecordFileHandler::init_free_pages], over the pages the iterator finds. *)
Fixpoint init_free_loop (f : RecFile) (pns : list Z) : RC * RecFile :=
  match pns with
  | [] => (SUCCESS, f)
  | pn :: pns' =>
      match page_init f pn with
      | (_, Some p) => init_free_loop (if negb (is_full p) then add_free f pn else f) pns'
      | (rc, None) => (rc, f)
      end
  end.
Definition init_free_pages (f : RecFile) : RC * RecFile :=
  let h := f.(header).(PageAlloc.file_header) in
  init_free_loop f (PageAlloc.iter_collect (S (Z.to_nat h.(PageAlloc.page_count))) h (PageAlloc.iter_init 1)).

(** The search of [insert_record] for a page with room; full pages are dropped from
    the set.  Every round that goes on drops one. *)
Fixpoint find_free (fuel : nat) (f : RecFile) : RC * option (Z * RecPage) * RecFile :=
  match fuel with
  | O => (SUCCESS, None, f)
  | S fuel' =>
      if bool_decide (f.(free_pages) = ∅) then (SUCCESS, None, f)
      else
        let pn := first f.(free_pages) in
        match page_init f pn with
        | (rc, None) => (rc, None, f)
        | (_, Some p) =>
            if negb (is_full p) then (SUCCESS, Some (pn, p), f)
            else find_free fuel' (mkFile f.(header) f.(log) f.(pages) (f.(free_pages) ∖ {[ pn ]}))
        end
  end.

(** A page that [allocate_page] has just handed out: the bytes of the frame. *)
Definition zero_bytes : list Z := replicate (Z.to_nat BP_PAGE_DATA_SIZE) 0.

(** [RecordFileHandler::insert_record] *)
Definition insert_record (f : RecFile) (data : list Z) : RC * RID * RecFile :=
  let '(rc, found, f1) := find_free (S (size f.(free_pages))) f in
  if OB_FAIL rc then (rc, mkRID 0 0, f1)
  else
    match found with
    | Some (pn, p) =>
        let '(rc, p', slot) := RecordPage.insert_record p data in
        (rc, mkRID pn slot, set_page f1 pn p')
    | None =>
        let '(rc, pn, hf, l) := PageAlloc.allocate_page f1.(header) f1.(log) in
        if OB_FAIL rc then (rc, mkRID 0 0, f1)
        else
          let p := init_empty_page rec_size ncol zero_bytes in
          let f2 := add_free (mkFile hf l (<[pn := p]> f1.(pages)) f1.(free_pages)) pn in
          let '(rc, p', slot) := RecordPage.insert_record p data in
          (rc, mkRID pn slot, set_page f2 pn p')
    end.

(** [RecordFileHandler::delete_record] *)
Definition delete_record (f : RecFile) (rid : RID) : RC * RecFile :=
  match page_init f rid.(page_num) with
  | (rc, None) => (rc, f)
  | (_, Some p) =>
      let '(rc, p') := RecordPage.delete_record p rid.(slot_num) in
      let f1 := set_page f rid.(page_num) p' in
      (rc, if OB_SUCC rc then add_free f1 rid.(page_num) else f1)
  end.

(** [RecordFileHandler::get_record] *)
Definition get_record (f : RecFile) (rid : RID) : RC * list Z :=
  match page_init f rid.(page_num) with
  | (rc, None) => (rc, [])
  | (_, Some p) => RecordPage.get_record p rid.(slot_num)
  end.

(** [RecordFileHandler::visit_record]: the updater works on a copy. *)
Definition visit_record (f : RecFile) (rid : RID) (updater : list Z -> bool * list Z) : RC * RecFile :=
  match page_init f rid.(page_num) with
  | (rc, None) => (rc, f)
  | (_, Some p) =>
      let '(rc, d) := RecordPage.get_record p rid.(slot_num) in
      if OB_FAIL rc then (rc, f)
      else
        let '(updated, d') := updater d in
        if updated then
          let '(rc', p') := RecordPage.update_record p rid.(slot_num) d' in (rc', set_page f rid.(page_num) p')
        else (SUCCESS, f)
  end.

(** [HeapRecordScanner]: the pages still to visit, the current page with its
    iterator position (none before the first page). *)
Record Scanner := mkScanner { todo : list Z; current : option (Z * RecPage * Z) }.

Definition open_scan (f : RecFile) : Scanner :=
  let h := f.(header).(PageAlloc.file_header) in
  mkScanner (PageAlloc.iter_collect (S (Z.to_nat h.(PageAlloc.page_count))) h (PageAlloc.iter_init 1)) None.

(** [fetch_next_record_in_page]: [filter] is the condition filter and [visit] the
    transaction's verdict on a record. *)
Fixpoint fetch_in_page (fuel : nat) (filter : list Z -> bool) (visit : list Z -> RC) (pn : Z) (p : RecPage) (next_slot : Z)
    : RC * option (RID * list Z) * Z :=
  match fuel with
  | O => (RECORD_EOF, None, next_slot)
  | S fuel' =>
      if iter_has_next next_slot then
        let '((slot, (_, d)), next') := iter_next p next_slot in
        if negb (filter d) then fetch_in_page fuel' filter visit pn p next'
        else
          let rc := visit d in
          if bool_decide (rc = RECORD_INVISIBLE) then fetch_in_page fuel' filter visit pn p next'
          else (rc, Some (mkRID pn slot, d), next')
      else (RECORD_EOF, None, next_slot)
  end.

Definition page_fuel (p : RecPage) : nat := S (Z.to_nat p.(hdr).(record_capacity)).

(** The loop of [fetch_next_record] over the remaining pages. *)
Fixpoint fetch_pages (f : RecFile) (filter : list Z -> bool) (visit : list Z -> RC) (pns : list Z)
    : RC * option (RID * list Z) * Scanner :=
  match pns with
  | [] => (RECORD_EOF, None, mkScanner [] None)
  | pn :: pns' =>
      match page_init f pn with
      | (rc, None) => (rc, None, mkScanner pns' None)
      | (_, Some p) =>
          let '(rc, r, next') := fetch_in_page (page_fuel p) filter visit pn p (iter_init p 0) in
          if bool_decide (rc = RECORD_EOF) then fetch_pages f filter visit pns'
          else (rc, r, mkScanner pns' (Some (pn, p, next')))
      end
  end.

(** [HeapRecordScanner::next] *)
Definition scan_next (f : RecFile) (filter : list Z -> bool) (visit : list Z -> RC) (sc : Scanner)
    : RC * option (RID * list Z) * Scanner :=
  match sc.(current) with
  | Some (pn, p, next_slot) =>
      let '(rc, r, next') := fetch_in_page (page_fuel p) filter visit pn p next_slot in
      if bool_decide (rc = RECORD_EOF) then fetch_pages f filter visit sc.(todo)
      else (rc, r, mkScanner sc.(todo) (Some (pn, p, next')))
  | None => fetch_pages f filter visit sc.(todo)
  end.

(** The client's loop: until the scanner answers something other than success. *)
Fixpoint scan_all (fuel : nat) (f : RecFile) (filter : list Z -> bool) (visit : list Z -> RC) (sc : Scanner)
    : RC * list (RID * list Z) :=
  match fuel with
  | O => (SUCCESS, [])
  | S fuel' =>
      match scan_next f filter visit sc with
      | (SUCCESS, Some r, sc') => let '(rc, rs) := scan_all fuel' f filter visit sc' in (rc, r :: rs)
      | (rc, _, _) => (rc, [])
      end
  end.

(** ** The file as a map from record locations to records *)

Definition record_at (f : RecFile) (rid : RID) : option (list Z) :=
  p ← f.(pages) !! rid.(page_num); page_map p !! rid.(slot_num).

Record file_ok (f : RecFile) : Prop := {
  fo_header : PageAlloc.hdr_ok f.(header).(PageAlloc.file_header);
  fo_dom : forall pn, is_Some (f.(pages) !! pn) <->
    pn ∈ PageAlloc.allocated f.(header).(PageAlloc.file_header) /\ pn <> 0;
  fo_zero : 0 ∈ PageAlloc.allocated f.(header).(PageAlloc.file_header);
  fo_pages : forall pn p, f.(pages) !! pn = Some p -> page_ok p /\ p.(hdr).(record_real_size) = rec_size;
  fo_free : forall pn, pn ∈ f.(free_pages) -> is_Some (f.(pages) !! pn)
}.

(** Every page with room is known to have room. *)
Definition free_complete (f : RecFile) : Prop :=
  forall pn p, f.(pages) !! pn = Some p -> is_full p = false -> pn ∈ f.(free_pages).

Definition all_full (f : RecFile) : Prop := forall pn p, f.(pages) !! pn = Some p -> is_full p = true.

Lemma file_set_page_ok f pn p p' : file_ok f -> f.(pages) !! pn = Some p -> page_ok p' ->
  p'.(hdr).(record_real_size) = rec_size -> file_ok (set_page f pn p').
Proof using Type.
  intros [A B Z0 C D] Hp Hok Hs. split; cbn [header pages set_page free_pages]; try done.
  - intros q. rewrite <- B, lookup_insert. case_decide; [subst; rewrite Hp; split; eauto|done].
  - intros q r. rewrite lookup_insert. case_decide; [by intros [= <-]|apply C].
  - intros q Hq. rewrite lookup_insert. case_decide; [eauto|by apply D].
Qed.

Lemma record_at_set_page f pn p rid : record_at (set_page f pn p) rid =
  if decide (rid.(page_num) = pn) then page_map p !! rid.(slot_num) else record_at f rid.
Proof using Type.
  unfold record_at. cbn [pages set_page]. rewrite lookup_insert.
  destruct (decide (pn = rid.(page_num))) as [<-|]; [by rewrite decide_True|]. by rewrite decide_False by congruence.
Qed.

(** The record operations keep the page's sizes. *)
Lemma insert_keeps_size p d : (RecordPage.insert_record p d).1.2.(hdr).(record_real_size) = p.(hdr).(record_real_size).
Proof using Type. unfold RecordPage.insert_record. by destruct (_ =? _). Qed.
Lemma delete_keeps_size p s : (RecordPage.delete_record p s).2.(hdr).(record_real_size) = p.(hdr).(record_real_size).
Proof using Type. unfold RecordPage.delete_record. by destruct (get_bit _ _). Qed.
Lemma update_keeps_size p s d : (RecordPage.update_record p s d).2.(hdr).(record_real_size) = p.(hdr).(record_real_size).
Proof using Type. unfold RecordPage.update_record. destruct (_ <=? _); [done|]. by destruct (get_bit _ _). Qed.

Lemma find_free_ok fuel : forall f, file_ok f -> (size f.(free_pages) < fuel)%nat ->
  exists found f1, find_free fuel f = (SUCCESS, found, f1) /\ f1.(pages) = f.(pages) /\
    f1.(header) = f.(header) /\ f1.(log) = f.(log) /\ file_ok f1 /\ (free_complete f -> free_complete f1) /\
    match found with
    | Some (pn, p) => f.(pages) !! pn = Some p /\ is_full p = false
    | None => f1.(free_pages) = ∅
    end.
Proof using Hfirst.
  induction fuel as [|fuel IH]; intros f Hok Hf; [lia|]. cbn [find_free].
  case_bool_decide as He; [by exists None, f|].
  pose proof (Hfirst _ He) as Hin. destruct (fo_free _ Hok _ Hin) as [p Hp].
  unfold page_init. rewrite Hp. destruct (is_full p) eqn:Hfull; cbn [negb]; [|by exists (Some (first f.(free_pages), p)), f].
  set (f' := mkFile _ _ _ _).
  destruct (IH f') as (found & f1 & -> & E1 & E2 & E3 & Hok1 & Hc1 & Hm).
  - destruct Hok as [A B Z0 C D]. split; try done. intros q Hq. apply D. cbn in Hq. set_solver.
  - cbn. rewrite size_difference by set_solver. rewrite size_singleton.
    assert (size f.(free_pages) <> 0%nat); [|lia]. intros E%size_empty_inv. set_solver.
  - exists found, f1. split_and!; try done. intros Hc. apply Hc1. intros q r Hq Hr. cbn in *.
    pose proof (Hc q r Hq Hr). apply elem_of_difference. split; [done|]. intros ->%elem_of_singleton. congruence.
Qed.

(** Inserting into a page of the file that has room. *)
Lemma insert_into_page f pn p data : file_ok f -> f.(pages) !! pn = Some p -> is_full p = false ->
  zlen data = rec_size ->
  exists p' slot, RecordPage.insert_record p data = (SUCCESS, p', slot) /\ file_ok (set_page f pn p') /\
    record_at f (mkRID pn slot) = None /\
    (forall rid, record_at (set_page f pn p') rid = if decide (rid = mkRID pn slot) then Some data else record_at f rid) /\
    (free_complete f -> free_complete (set_page f pn p')).
Proof using Type.
  intros Hok Hp Hfull Hlen. destruct (fo_pages _ Hok _ _ Hp) as [Hpok Hsz].
  pose proof (insert_record_ok p data Hpok ltac:(congruence)) as Hi.
  pose proof (insert_keeps_size p data) as Hk.
  destruct (RecordPage.insert_record p data) as [[rc p'] slot]. unfold insert_spec in Hi. cbn [fst snd] in Hk.
  unfold is_full in Hfull. apply Z.leb_gt in Hfull.
  destruct (Z.eqb_spec p.(hdr).(record_num) p.(hdr).(record_capacity)); [lia|].
  destruct Hi as (Hpok' & -> & Hin & Hnone & Hl & Hmap). exists p', slot. split; [done|].
  split; [eapply file_set_page_ok; [done|done|done|congruence]|].
  split; [unfold record_at; cbn; by rewrite Hp|]. split.
  - intros [q t]. rewrite record_at_set_page. cbn [page_num slot_num].
    destruct (decide (q = pn)) as [->|Hne]; [|rewrite decide_False by congruence; done].
    rewrite Hmap, lookup_insert. unfold record_at. cbn. rewrite Hp. cbn.
    destruct (decide (slot = t)) as [<-|]; [by rewrite decide_True|]. by rewrite decide_False by congruence.
  - intros Hc q r. cbn [pages set_page free_pages]. rewrite lookup_insert. case_decide as Hq; [|apply Hc].
    intros _ _. subst q. apply (Hc pn p Hp). unfold is_full. apply Z.leb_gt. lia.
Qed.

(** A page just allocated and initialised. *)
Lemma new_page_ok f hf l pn : file_ok f -> layout_args_ok rec_size ncol ->
  PageAlloc.allocate_page f.(header) f.(log) = (SUCCESS, pn, hf, l) ->
  let p := init_empty_page rec_size ncol zero_bytes in
  let f2 := add_free (mkFile hf l (<[pn := p]> f.(pages)) f.(free_pages)) pn in
  file_ok f2 /\ f2.(pages) !! pn = Some p /\ is_full p = false /\ f.(pages) !! pn = None /\
  (forall rid, record_at f2 rid = record_at f rid) /\ (free_complete f -> free_complete f2).
Proof using Type.
  clear Hfirst. intros Hok Hlay Ha p f2. pose proof Hok as [A B Z0 C D].
  destruct (init_empty_page_ok rec_size ncol zero_bytes Hlay ltac:(by vm_compute)) as [Hpok Hemp]. fold p in Hpok, Hemp.
  destruct (PageAlloc.allocate_page_cases f.(header) f.(log) A) as [[E _]|(pn' & c & E & Hp & Hb & Hc)];
    rewrite E in Ha; [done|]. injection Ha as <- <- <-.
  destruct (PageAlloc.set_page_ok f.(header).(PageAlloc.file_header) pn' c A Hp Hb Hc) as [Hok' Hal].
  assert (pn' ∉ PageAlloc.allocated f.(header).(PageAlloc.file_header)) as Hni.
  { rewrite PageAlloc.elem_of_allocated. intros [_ ?]. congruence. }
  assert (f.(pages) !! pn' = None) as Hnone.
  { destruct (f.(pages) !! pn') eqn:Ep; [|done]. destruct (proj1 (B pn')) as [? _]; [eauto|done]. }
  split_and!; try done.
  - split; unfold f2; cbn [header pages free_pages add_free PageAlloc.file_header]; try done.
    + intros q. rewrite Hal, elem_of_union, elem_of_singleton, lookup_insert. case_decide as Hq; [subst|].
      * split; [intros _; split; [by left|]|eauto]. intros ->. done.
      * rewrite B. split; [intros []; split; [by right|done]|intros [[|] ?]; [congruence|done]].
    + rewrite Hal. set_solver.
    + intros q r. rewrite lookup_insert. case_decide; [intros [= <-]; done|apply C].
    + intros q [->%elem_of_singleton|Hq]%elem_of_union; [rewrite lookup_insert_eq; eauto|].
      rewrite lookup_insert. case_decide; [eauto|by apply D].
  - unfold f2. cbn. apply lookup_insert_eq.
  - unfold is_full. apply Z.leb_gt. pose proof (layout_fits rec_size ncol Hlay) as (Hcap & _).
    rewrite (po_count _ Hpok), Hemp, map_size_empty. exact Hcap.
  - intros rid. unfold record_at, f2. cbn [pages add_free]. rewrite lookup_insert. case_decide as Hq; [|done].
    subst. cbn. rewrite Hemp, lookup_empty, Hnone. done.
  - intros Hfc q r. unfold f2. cbn [pages free_pages add_free]. rewrite lookup_insert.
    case_decide as Hq; [subst; set_solver|]. intros Hr Hf. specialize (Hfc q r Hr Hf). set_solver.
Qed.

Lemma insert_record_file_ok f data : file_ok f -> free_complete f -> layout_args_ok rec_size ncol ->
  zlen data = rec_size ->
  let '(rc, rid, f') := insert_record f data in
  file_ok f' /\ free_complete f' /\
  match rc with
  | SUCCESS => record_at f rid = None /\
      (forall r, record_at f' r = if decide (r = rid) then Some data else record_at f r) /\
      (f.(pages) !! rid.(page_num) = None -> all_full f)
  | _ => rc = BUFFERPOOL_NOBUF /\ all_full f /\ f'.(pages) = f.(pages) /\
      f.(header).(PageAlloc.file_header).(PageAlloc.allocated_pages) = PageAlloc.MAX_PAGE_NUM
  end.
Proof using Hfirst.
  intros Hok Hc Hlay Hlen. unfold insert_record.
  destruct (find_free_ok (S (size f.(free_pages))) f Hok ltac:(lia)) as
    (found & f1 & -> & Ep & Eh & El & Hok1 & Hc1 & Hm). rc_simpl.
  specialize (Hc1 Hc).
  assert (forall rid, record_at f1 rid = record_at f rid) as Hr1 by (intros; unfold record_at; by rewrite Ep).
  destruct found as [[pn p]|].
  - destruct Hm as [Hp Hfull].
    destruct (insert_into_page f1 pn p data Hok1) as (p' & slot & -> & Hok' & Hn & Hu & Hfc); [by rewrite Ep|done|done|].
    split; [done|]. split; [by apply Hfc|]. split; [by rewrite <- Hr1|]. split; [intros r; by rewrite Hu, Hr1|].
    cbn. congruence.
  - assert (all_full f) as Hall.
    { intros q r Hq. destruct (is_full r) eqn:Hr; [done|]. rewrite <- Ep in Hq.
      specialize (Hc1 q r Hq Hr). rewrite Hm in Hc1. set_solver. }
    destruct (PageAlloc.allocate_page_cases f1.(header) f1.(log) (fo_header _ Hok1)) as [[E Hmax]|(pn & c & E & _)].
    + rewrite E. cbn. rewrite Eh in Hmax. done.
    + rewrite E. rc_simpl.
      destruct (new_page_ok f1 _ _ _ Hok1 Hlay E) as (Hok2 & Hp2 & Hfull2 & Hn2 & Hr2 & Hfc2).
      set (f2 := add_free _ _) in *.
      destruct (insert_into_page f2 pn _ data Hok2 Hp2 Hfull2 Hlen) as (p' & slot & -> & Hok' & Hn & Hu & Hfc).
      split; [done|]. split; [apply Hfc, Hfc2, Hc1|]. split; [by rewrite <- Hr1, <- Hr2|].
      split; [intros r; by rewrite Hu, Hr2, Hr1|done].
Qed.

Lemma delete_record_file_ok f rid : file_ok f -> free_complete f ->
  (forall p, f.(pages) !! rid.(page_num) = Some p -> in_page p rid.(slot_num)) ->
  let '(rc, f') := delete_record f rid in
  file_ok f' /\ free_complete f' /\
  (forall r, record_at f' r = if decide (r = rid) then None else record_at f r) /\
  rc = match record_at f rid with
       | Some _ => SUCCESS
       | None => if f.(pages) !! rid.(page_num) then RECORD_NOT_EXIST else IOERR_READ
       end.
Proof using Type.
  clear Hfirst. intros Hok Hc Hin. unfold delete_record, page_init. destruct rid as [pn slot]; cbn [page_num slot_num] in *.
  destruct (f.(pages) !! pn) as [p|] eqn:Hp.
  2: { split_and!; try done; unfold record_at; cbn [page_num slot_num]; [|by rewrite Hp].
       intros r. case_decide; [subst; cbn; by rewrite Hp|done]. }
  destruct (fo_pages _ Hok _ _ Hp) as [Hpok Hsz].
  pose proof (delete_record_ok p slot Hpok (Hin p eq_refl)) as Hd. pose proof (delete_keeps_size p slot) as Hk.
  destruct (RecordPage.delete_record p slot) as [rc p'] eqn:Ed. cbn [snd] in Hk. destruct Hd as (Hpok' & Hmap & Hrc).
  assert (file_ok (set_page f pn p')) as Hok' by (eapply file_set_page_ok; [done|done|done|congruence]).
  assert (forall r, record_at (set_page f pn p') r = if decide (r = mkRID pn slot) then None else record_at f r) as Hr.
  { intros [q t]. rewrite record_at_set_page. cbn [page_num slot_num]. destruct (decide (q = pn)) as [->|].
    - rewrite Hmap, lookup_delete. unfold record_at. cbn. rewrite Hp. cbn.
      destruct (decide (slot = t)) as [<-|]; [by rewrite decide_True|]. by rewrite decide_False by congruence.
    - by rewrite decide_False by congruence. }
  assert (record_at f (mkRID pn slot) = page_map p !! slot) as Hat by (unfold record_at; cbn; by rewrite Hp).
  rewrite Hat. destruct (page_map p !! slot) as [d|] eqn:Hs.
  - subst rc. change (OB_SUCC SUCCESS) with true. cbn iota. split_and!; try done.
    + destruct Hok' as [A B Z0 C D]. split; try done. intros q. cbn. rewrite elem_of_union, elem_of_singleton.
      intros [->|Hq]; [rewrite lookup_insert_eq; eauto|by apply D].
    + intros q r. cbn [pages add_free set_page free_pages]. rewrite lookup_insert. case_decide as Hq; [subst; set_solver|].
      intros H1 H2. specialize (Hc q r H1 H2). set_solver.
  - destruct Hrc as [-> ->]. change (OB_SUCC RECORD_NOT_EXIST) with false. cbn iota. split_and!; try done.
    intros q r. cbn [pages set_page free_pages]. rewrite insert_id by done. apply Hc.
Qed.

Lemma get_record_file_ok f rid : file_ok f -> 0 <= rid.(slot_num) ->
  match record_at f rid with
  | Some d => get_record f rid = (SUCCESS, d)
  | None => OB_FAIL (get_record f rid).1 = true
  end.
Proof using Type.
  intros Hok Hs. unfold get_record, page_init, record_at.
  destruct (f.(pages) !! rid.(page_num)) as [p|] eqn:Hp; cbn; [|done].
  destruct (fo_pages _ Hok _ _ Hp) as [Hpok _]. pose proof (get_record_ok p rid.(slot_num) Hpok Hs) as Hg.
  destruct (page_map p !! rid.(slot_num)); [done|]. rewrite Hg. cbn. by destruct (_ <=? _).
Qed.

Lemma visit_record_file_ok f rid updater : file_ok f -> free_complete f -> 0 <= rid.(slot_num) ->
  (forall d, zlen (updater d).2 = zlen d) ->
  let '(rc, f') := visit_record f rid updater in
  file_ok f' /\ free_complete f' /\
  match record_at f rid with
  | Some d => rc = SUCCESS /\ forall r, record_at f' r =
      if decide (r = rid) then (if (updater d).1 then Some (updater d).2 else Some d) else record_at f r
  | None => OB_FAIL rc = true /\ f' = f
  end.
Proof using Type.
  intros Hok Hc Hs Hlen. unfold visit_record, page_init, record_at at 1. destruct rid as [pn slot]; cbn [page_num slot_num] in *.
  destruct (f.(pages) !! pn) as [p|] eqn:Hp; cbn; [|done].
  destruct (fo_pages _ Hok _ _ Hp) as [Hpok Hsz]. pose proof (get_record_ok p slot Hpok Hs) as Hg.
  assert (record_at f (mkRID pn slot) = page_map p !! slot) as Hat by (unfold record_at; cbn; by rewrite Hp).
  destruct (page_map p !! slot) as [d|] eqn:Hd.
  2: { rewrite Hg. by destruct (_ <=? _). }
  rewrite Hg. rc_simpl.
  specialize (Hlen d). destruct (updater d) as [upd d'] eqn:Eu. cbn [fst snd] in *. destruct upd.
  2: { split_and!; try done. intros r. case_decide; [subst; by rewrite Hat|done]. }
  assert (zlen d = p.(hdr).(record_real_size)) as Hdl.
  { rewrite page_map_lookup in Hd. destruct (in_pageb_spec p slot) as [Hin|]; [|done]. cbn in Hd.
    destruct (get_bit _ _); [|done]. injection Hd as <-. unfold get_record_data.
    destruct (record_offset_bounds p Hpok slot Hin). pose proof (po_size _ Hpok). apply slice_length; lia. }
  pose proof (update_record_ok p slot d' Hpok Hs ltac:(congruence)) as Hu.
  pose proof (update_keeps_size p slot d') as Hk.
  destruct (RecordPage.update_record p slot d') as [rc p'] eqn:Ed. unfold update_spec in Hu. cbn [snd] in Hk.
  rewrite Hd in Hu. destruct Hu as (Hpok' & -> & Hmap). split_and!; try done.
  - eapply file_set_page_ok; [done|done|done|congruence].
  - intros q r. cbn [pages set_page free_pages]. rewrite lookup_insert. case_decide as Hq; [|apply Hc].
    intros [= <-] Hf. subst q. apply (Hc pn p Hp). unfold is_full in *.
    unfold RecordPage.update_record in Ed. destruct (_ <=? slot); [done|]. destruct (get_bit _ _); [|done].
    injection Ed as <-. exact Hf.
  - intros [q t]. rewrite record_at_set_page. cbn [page_num slot_num]. destruct (decide (q = pn)) as [->|].
    + rewrite Hmap, lookup_insert. unfold record_at. cbn. rewrite Hp. cbn.
      destruct (decide (slot = t)) as [<-|]; [by rewrite decide_True|]. by rewrite decide_False by congruence.
    + by rewrite decide_False by congruence.
Qed.

(** *** Start-up: the set of pages with room *)

(** The data pages of the file, in the iterator's order. *)
Definition data_pages (f : RecFile) : list Z :=
  let h := f.(header).(PageAlloc.file_header) in
  filter (fun i => PageAlloc.page_bit h i = true) (seqZ 1 (h.(PageAlloc.page_count) - 1)).

Lemma data_pages_iter f : file_ok f -> let h := f.(header).(PageAlloc.file_header) in
  PageAlloc.iter_collect (S (Z.to_nat h.(PageAlloc.page_count))) h (PageAlloc.iter_init 1) = data_pages f.
Proof using Type.
  intros Hok h. pose proof (PageAlloc.ho_count _ (fo_header _ Hok)) as Hc. fold h in Hc.
  change (PageAlloc.iter_init 1) with 0. rewrite PageAlloc.pool_iter_collect_spec by (apply (fo_header _ Hok) || lia). done.
Qed.

Lemma elem_of_data_pages f pn : file_ok f -> pn ∈ data_pages f <-> is_Some (f.(pages) !! pn).
Proof using Type.
  intros Hok. unfold data_pages. rewrite (fo_dom _ Hok), PageAlloc.elem_of_allocated, list_elem_of_filter, elem_of_seqZ.
  split; [intros [? ?]; split; [split; [lia|done]|lia]|intros [[? ?] ?]; split; [done|lia]].
Qed.

Lemma init_free_loop_ok pns : forall f, (forall pn, pn ∈ pns -> is_Some (f.(pages) !! pn)) ->
  exists f', init_free_loop f pns = (SUCCESS, f') /\ f'.(pages) = f.(pages) /\ f'.(header) = f.(header) /\
    forall pn, pn ∈ f'.(free_pages) <-> pn ∈ f.(free_pages) \/
      pn ∈ pns /\ exists p, f.(pages) !! pn = Some p /\ is_full p = false.
Proof using Type.
  clear Hfirst. induction pns as [|pn pns IH]; intros f Hall; cbn [init_free_loop].
  { exists f. split_and!; try done. intros. set_solver. }
  destruct (Hall pn ltac:(set_solver)) as [p Hp]. unfold page_init. rewrite Hp.
  destruct (is_full p) eqn:Hf; cbn [negb].
  - destruct (IH f ltac:(set_solver)) as (f' & -> & E1 & E2 & E3). exists f'. split_and!; try done.
    intros q. rewrite E3, elem_of_cons. split; [tauto|]. intros [|[[->|] (r & Hr & Hrf)]]; [tauto|congruence|eauto].
  - destruct (IH (add_free f pn) ltac:(cbn; set_solver)) as (f' & -> & E1 & E2 & E3). exists f'. split_and!; try done.
    intros q. rewrite E3. cbn [free_pages add_free pages]. rewrite elem_of_union, elem_of_singleton, elem_of_cons.
    split; [intros [[->|]|]; [right; split; [by left|eauto]|tauto|tauto]|].
    intros [|[[->|] ?]]; tauto.
Qed.

Lemma init_free_pages_ok f : file_ok f -> f.(free_pages) = ∅ ->
  exists f', init_free_pages f = (SUCCESS, f') /\ file_ok f' /\ free_complete f' /\
    forall rid, record_at f' rid = record_at f rid.
Proof using Type.
  clear Hfirst. intros Hok He. unfold init_free_pages. rewrite data_pages_iter by done.
  destruct (init_free_loop_ok (data_pages f) f) as (f' & -> & E1 & E2 & E3).
  { intros pn Hpn. by apply elem_of_data_pages in Hpn. }
  exists f'. split_and!; try done.
  - destruct Hok as [A B Z0 C D]. split; rewrite ?E1, ?E2; try done. intros q.
    rewrite E3, He. intros [|(_ & p & Hp & _)]; [set_solver|eauto].
  - intros q p. rewrite E1. intros Hq Hf. apply E3. right. split; [|eauto]. apply elem_of_data_pages; eauto.
  - intros rid. unfold record_at. by rewrite E1.
Qed.

(** *** Scanning *)

Section scan.
Context (flt : list Z -> bool) (vis : list Z -> RC).
(** A read-only transaction sees a record or does not. *)
Context (Hvis : forall d, vis d = SUCCESS \/ vis d = RECORD_INVISIBLE).

Definition selected (d : list Z) : bool := flt d && OB_SUCC (vis d).

(** The slots of a page, from [start] on, whose records are selected. *)
Definition sel_slots (p : RecPage) (start : Z) : list Z :=
  filter (fun s => get_bit (page_bitmap p) s && selected (get_record_data p s) = true)
    (seqZ start (p.(hdr).(record_capacity) - start)).

Definition to_record (pn : Z) (p : RecPage) (s : Z) : RID * list Z := (mkRID pn s, get_record_data p s).

(** Where the iterator stands: at the first allocated slot. *)
Lemma iter_init_cases p start : page_ok p -> 0 <= start ->
  (iter_init p start = -1 /\ forall j, start <= j < p.(hdr).(record_capacity) -> get_bit (page_bitmap p) j = false) \/
  (start <= iter_init p start < p.(hdr).(record_capacity) /\
   get_bit (page_bitmap p) (iter_init p start) = true /\
   forall j, start <= j < iter_init p start -> get_bit (page_bitmap p) j = false).
Proof using Type.
  intros Hok Hs. unfold iter_init. rewrite next_setted_bit_first by (apply Hok || done). cbn [size_ page_bitmap].
  destruct (first_from_cases (fun j => Bool.eqb (get_bit (page_bitmap p) j) true) start
    (Z.to_nat (p.(hdr).(record_capacity) - start))) as [[-> H]|(R & B & L)].
  - left. split; [done|]. intros j Hj. specialize (H j ltac:(lia)). by apply eqb_false_iff in H; destruct (get_bit (page_bitmap p) j).
  - right. apply eqb_prop in B. split; [lia|]. split; [done|]. intros j Hj. specialize (L j ltac:(lia)).
    by apply eqb_false_iff in L; destruct (get_bit (page_bitmap p) j).
Qed.

Lemma sel_slots_none p start : (forall j, start <= j < p.(hdr).(record_capacity) -> get_bit (page_bitmap p) j = false) ->
  sel_slots p start = [].
Proof using Type.
  intros H. unfold sel_slots. apply filter_seqZ_none. intros j Hj. by rewrite H by lia.
Qed.

Lemma sel_slots_skip p start s : 0 <= start -> start <= s < p.(hdr).(record_capacity) ->
  (forall j, start <= j < s -> get_bit (page_bitmap p) j = false) -> get_bit (page_bitmap p) s = true ->
  sel_slots p start = if selected (get_record_data p s) then s :: sel_slots p (s + 1) else sel_slots p (s + 1).
Proof using Type.
  intros H0 Hs Hl Hb. unfold sel_slots. rewrite (seqZ_split start s) by lia. rewrite filter_app, filter_seqZ_none.
  2: { intros j Hj. by rewrite Hl by lia. }
  rewrite seqZ_cons by lia. rewrite filter_cons, Hb. cbn [app andb].
  replace (Z.pred (p.(hdr).(record_capacity) - s)) with (p.(hdr).(record_capacity) - (s + 1)) by lia.
  change (Z.succ s) with (s + 1). destruct (selected _); by case_decide.
Qed.

Lemma fetch_in_page_ok pn p fuel : forall start, page_ok p -> 0 <= start ->
  p.(hdr).(record_capacity) - start < Z.of_nat fuel ->
  match sel_slots p start with
  | [] => (fetch_in_page fuel flt vis pn p (iter_init p start)).1 = (RECORD_EOF, None)
  | s :: rest =>
      fetch_in_page fuel flt vis pn p (iter_init p start) = (SUCCESS, Some (to_record pn p s), iter_init p (s + 1)) /\
      sel_slots p (s + 1) = rest /\ start <= s
  end.
Proof using Hvis.
  induction fuel as [|fuel IH]; intros start Hok Hs Hf; cbn [fetch_in_page].
  { rewrite sel_slots_none; [done|]. lia. }
  unfold iter_has_next. destruct (iter_init_cases p start Hok Hs) as [[E H]|(R & B & L)].
  - rewrite E, sel_slots_none by done. done.
  - set (s := iter_init p start) in *. destruct (Z.eqb_spec (-1) s); [lia|]. cbn [negb].
    unfold iter_next. rewrite (sel_slots_skip p start s Hs R L B).
    assert (RecordPage.get_record p s = (SUCCESS, get_record_data p s)) as ->.
    { unfold RecordPage.get_record. rewrite B. destruct (Z.leb_spec p.(hdr).(record_capacity) s); [lia|done]. }
    destruct (Z.leb_spec 0 s); [|lia]. fold (iter_init p (s + 1)).
    specialize (IH (s + 1) Hok ltac:(lia) ltac:(lia)). unfold selected at 1.
    destruct (flt (get_record_data p s)); cbn [andb negb].
    + destruct (Hvis (get_record_data p s)) as [-> | ->]; cbn; [split; [done|]; split; [done|lia]|].
      destruct (sel_slots p (s + 1)); [done|]. destruct IH as (? & ? & ?). split; [done|]. split; [done|lia].
    + destruct (sel_slots p (s + 1)); [done|]. destruct IH as (? & ? & ?). split; [done|]. split; [done|lia].
Qed.

(** The selected records of the given pages. *)
Fixpoint pages_records (f : RecFile) (pns : list Z) : list (RID * list Z) :=
  match pns with
  | [] => []
  | pn :: pns' =>
      match f.(pages) !! pn with
      | Some p => (to_record pn p <$> sel_slots p 0) ++ pages_records f pns'
      | None => pages_records f pns'
      end
  end.

(** What a scanner has still to return. *)
Inductive remaining (f : RecFile) : Scanner -> list (RID * list Z) -> Prop :=
| rem_none pns : (forall pn, pn ∈ pns -> is_Some (f.(pages) !! pn)) ->
    remaining f (mkScanner pns None) (pages_records f pns)
| rem_page pns pn p start : (forall pn, pn ∈ pns -> is_Some (f.(pages) !! pn)) ->
    page_ok p -> 0 <= start ->
    remaining f (mkScanner pns (Some (pn, p, iter_init p start)))
      ((to_record pn p <$> sel_slots p start) ++ pages_records f pns).

Lemma fetch_pages_ok f pns : file_ok f -> (forall pn, pn ∈ pns -> is_Some (f.(pages) !! pn)) ->
  match pages_records f pns with
  | [] => exists sc', fetch_pages f flt vis pns = (RECORD_EOF, None, sc')
  | r :: rest => exists sc', fetch_pages f flt vis pns = (SUCCESS, Some r, sc') /\ remaining f sc' rest
  end.
Proof using Hvis.
  clear Hfirst. intros Hok. induction pns as [|pn pns IH]; intros Hall; cbn [pages_records fetch_pages]; [eauto|].
  destruct (Hall pn ltac:(set_solver)) as [p Hp]. unfold page_init. rewrite Hp.
  destruct (fo_pages _ Hok _ _ Hp) as [Hpok _]. specialize (IH ltac:(set_solver)).
  pose proof (fetch_in_page_ok pn p (page_fuel p) 0 Hpok ltac:(lia) ltac:(unfold page_fuel; lia)) as Hf.
  destruct (sel_slots p 0) as [|s rest]; cbn [fmap list_fmap app].
  - destruct (fetch_in_page _ _ _ _ _ _) as [[rc r] n]. cbn in Hf. simplify_eq. rewrite bool_decide_true by done. done.
  - destruct Hf as (-> & <- & Hle). rewrite bool_decide_false by done. eexists. split; [done|].
    apply rem_page; [set_solver|done|lia].
Qed.

Lemma scan_next_ok f sc l : file_ok f -> remaining f sc l ->
  match l with
  | [] => exists sc', scan_next f flt vis sc = (RECORD_EOF, None, sc')
  | r :: rest => exists sc', scan_next f flt vis sc = (SUCCESS, Some r, sc') /\ remaining f sc' rest
  end.
Proof using Hvis.
  intros Hok [pns Hall|pns pn p start Hall Hpok Hs]; unfold scan_next; cbn [current todo].
  - by apply fetch_pages_ok.
  - pose proof (fetch_in_page_ok pn p (page_fuel p) start Hpok Hs ltac:(unfold page_fuel; lia)) as Hf.
    destruct (sel_slots p start) as [|s rest]; cbn [fmap list_fmap app].
    + destruct (fetch_in_page _ _ _ _ _ _) as [[rc r] n]. cbn in Hf. simplify_eq. rewrite bool_decide_true by done.
      by apply fetch_pages_ok.
    + destruct Hf as (-> & <- & Hle). rewrite bool_decide_false by done. eexists. split; [done|].
      apply rem_page; [done|done|lia].
Qed.

Lemma scan_all_ok f fuel : file_ok f -> forall sc l, remaining f sc l -> (length l < fuel)%nat ->
  scan_all fuel f flt vis sc = (RECORD_EOF, l).
Proof using Hvis.
  intros Hok. induction fuel as [|fuel IH]; intros sc l Hrem Hf; [lia|]. cbn [scan_all].
  pose proof (scan_next_ok f sc l Hok Hrem) as Hn. destruct l as [|r rest].
  - destruct Hn as [sc' ->]. done.
  - destruct Hn as (sc' & -> & Hrem'). cbn in Hf. by rewrite (IH sc' rest Hrem' ltac:(lia)).
Qed.

Lemma elem_of_pages_records f pns rid d : file_ok f ->
  (rid, d) ∈ pages_records f pns <-> rid.(page_num) ∈ pns /\ record_at f rid = Some d /\ selected d = true.
Proof using Type.
  clear Hfirst. intros Hok. induction pns as [|pn pns IH]; cbn [pages_records].
  { split; [by intros ?%elem_of_nil|]. intros [?%elem_of_nil _]. done. }
  assert (forall p, f.(pages) !! pn = Some p -> (rid, d) ∈ to_record pn p <$> sel_slots p 0 <->
    rid.(page_num) = pn /\ record_at f rid = Some d /\ selected d = true) as Hpage.
  { intros p Hp. destruct (fo_pages _ Hok _ _ Hp) as [Hpok _]. rewrite list_elem_of_fmap. unfold to_record, sel_slots.
    destruct rid as [q t]. unfold record_at. cbn [page_num slot_num]. split.
    - intros (s & E & Hs). injection E as -> -> ->. apply list_elem_of_filter in Hs as [[Hb Hsel]%andb_true_iff Hr%elem_of_seqZ].
      split; [done|]. split; [|done]. rewrite Hp. cbn. rewrite page_map_lookup, Hb, in_pageb_true; [done|].
      unfold in_page. lia.
    - intros (-> & Hrec & Hsel). rewrite Hp in Hrec. cbn in Hrec. rewrite page_map_lookup in Hrec.
      destruct (in_pageb_spec p t) as [Hin|]; [|done]. destruct (get_bit (page_bitmap p) t) eqn:Hb; [|done]. cbn in Hrec.
      injection Hrec as <-. exists t. split; [done|]. apply list_elem_of_filter. rewrite Hb, Hsel.
      split; [done|]. apply elem_of_seqZ. unfold in_page in Hin. lia. }
  destruct (f.(pages) !! pn) as [p|] eqn:Hp.
  - rewrite elem_of_app, IH, (Hpage p eq_refl), elem_of_cons. tauto.
  - rewrite IH, elem_of_cons. split; [tauto|]. intros [[E|] [Hr ?]]; [|tauto].
    unfold record_at in Hr. by rewrite E, Hp in Hr.
Qed.
End scan.
End file.

(** ** The properties *)

(** A file with no data page, and the least element as the [begin()] of the set. *)
Definition demo_first (S : gset Z) : Z := default 0 (head (elements S)).

Lemma demo_first_in S : S ≠ ∅ -> demo_first S ∈ S.
Proof.
  intros HS. unfold demo_first. destruct (elements S) as [|x l] eqn:E.
  - apply elements_empty_iff in E. set_solver.
  - cbn. apply elem_of_elements. rewrite E. set_solver.
Qed.

Definition demo_file : RecFile :=
  mkFile (PageAlloc.mkHF (PageAlloc.create_file 1) 0) (PageAlloc.mkLog 0 []) ∅ ∅.

Lemma demo_file_ok : file_ok 4 demo_file /\ free_complete demo_file.
Proof.
  destruct (PageAlloc.create_file_ok 1) as [Hok Hal]. split; [|done].
  split; cbn [header demo_file PageAlloc.file_header pages free_pages]; try done.
  - intros pn. rewrite Hal, elem_of_singleton. split; [by intros []|by intros []].
Qed.

Lemma demo_layout : layout_args_ok 4 0.
Proof. unfold layout_args_ok. change BP_PAGE_DATA_SIZE with 8180. lia. Qed.

(** Two records inserted. *)
Definition demo_file2 : RecFile :=
  (insert_record demo_first 4 0 (insert_record demo_first 4 0 demo_file [1; 2; 3; 4]).2 [5; 6; 7; 8]).2.

Lemma demo_file2_ok : file_ok 4 demo_file2 /\ free_complete demo_file2.
Proof.
  pose proof (insert_record_file_ok demo_first demo_first_in 4 0 demo_file [1; 2; 3; 4] (proj1 demo_file_ok)
    (proj2 demo_file_ok) demo_layout eq_refl) as H1. unfold demo_file2.
  destruct (insert_record demo_first 4 0 demo_file [1; 2; 3; 4]) as [[rc1 rid1] f1]. cbn [snd].
  destruct H1 as (Hok1 & Hc1 & _).
  pose proof (insert_record_file_ok demo_first demo_first_in 4 0 f1 [5; 6; 7; 8] Hok1 Hc1 demo_layout eq_refl) as H2.
  destruct (insert_record demo_first 4 0 f1 [5; 6; 7; 8]) as [[rc2 rid2] f2]. cbn [snd].
  by destruct H2 as (Hok2 & Hc2 & _).
Qed.

(** C27: [RecordFileHandler::insert_record] stores the record at a location that was free
    and changes no other record; the file grows by a page only when every page is full;
    it fails only when every page is full and no page is left.  It terminates, and
    [free_pages_] keeps naming every page with room. *)
Theorem file_insert_refines first rec_size ncol f data : (forall S, S ≠ ∅ -> first S ∈ S) ->
  file_ok rec_size f -> free_complete f -> layout_args_ok rec_size ncol -> zlen data = rec_size ->
  let '(rc, rid, f') := insert_record first rec_size ncol f data in
  file_ok rec_size f' /\ free_complete f' /\
  match rc with
  | SUCCESS => record_at f rid = None /\
      (forall r, record_at f' r = if decide (r = rid) then Some data else record_at f r) /\
      (f.(pages) !! rid.(page_num) = None -> all_full f)
  | _ => rc = BUFFERPOOL_NOBUF /\ all_full f /\ f'.(pages) = f.(pages) /\
      f.(header).(PageAlloc.file_header).(PageAlloc.allocated_pages) = PageAlloc.MAX_PAGE_NUM
  end.
Proof. intros Hf. by apply insert_record_file_ok. Qed.

Lemma file_insert_refines_witness :
  let '(rc, rid, f') := insert_record demo_first 4 0 demo_file2 [9; 9; 9; 9] in
  file_ok 4 f' /\ rid = mkRID 1 2.
Proof.
  pose proof (file_insert_refines demo_first 4 0 demo_file2 [9; 9; 9; 9] demo_first_in (proj1 demo_file2_ok)
    (proj2 demo_file2_ok) demo_layout eq_refl) as H.
  assert ((insert_record demo_first 4 0 demo_file2 [9; 9; 9; 9]).1.2 = mkRID 1 2) as E by (vm_compute; reflexivity).
  destruct (insert_record demo_first 4 0 demo_file2 [9; 9; 9; 9]) as [[rc rid] f'].
  split; [exact (proj1 H)|exact E].
Defined.

(** [delete_record] removes exactly the record at the location and answers
    [RECORD_NOT_EXIST] (no such record) or [IOERR_READ] (no such page) when there is
    none; the file's invariants are kept. *)
Theorem file_delete_refines rec_size f rid : file_ok rec_size f -> free_complete f ->
  (forall p, f.(pages) !! rid.(page_num) = Some p -> in_page p rid.(slot_num)) ->
  let '(rc, f') := delete_record f rid in
  file_ok rec_size f' /\ free_complete f' /\
  (forall r, record_at f' r = if decide (r = rid) then None else record_at f r) /\
  rc = match record_at f rid with
       | Some _ => SUCCESS
       | None => if f.(pages) !! rid.(page_num) then RECORD_NOT_EXIST else IOERR_READ
       end.
Proof. apply delete_record_file_ok. Qed.

Lemma file_delete_refines_witness :
  let '(rc, f') := delete_record demo_file2 (mkRID 1 0) in
  file_ok 4 f' /\ free_complete f' /\
  (forall r, record_at f' r = if decide (r = mkRID 1 0) then None else record_at demo_file2 r) /\ rc = SUCCESS.
Proof.
  refine (file_delete_refines 4 demo_file2 (mkRID 1 0) (proj1 demo_file2_ok) (proj2 demo_file2_ok) _).
  intros p Hp. unfold in_page. cbn [page_num slot_num] in *. vm_compute in Hp. injection Hp as <-. vm_compute. split; congruence.
Defined.

(** [visit_record] applies the updater to a copy of the record and stores the copy
    exactly when the updater says so; every other record stays as it is, and a location
    without a record changes nothing. *)
Theorem file_visit_refines rec_size f rid updater : file_ok rec_size f -> free_complete f -> 0 <= rid.(slot_num) ->
  (forall d, zlen (updater d).2 = zlen d) ->
  let '(rc, f') := visit_record f rid updater in
  file_ok rec_size f' /\ free_complete f' /\
  match record_at f rid with
  | Some d => rc = SUCCESS /\ forall r, record_at f' r =
      if decide (r = rid) then (if (updater d).1 then Some (updater d).2 else Some d) else record_at f r
  | None => OB_FAIL rc = true /\ f' = f
  end.
Proof. apply visit_record_file_ok. Qed.

Lemma file_visit_refines_witness :
  let '(rc, f') := visit_record demo_file2 (mkRID 1 0) (fun d => (true, d)) in
  file_ok 4 f' /\ rc = SUCCESS.
Proof.
  pose proof (file_visit_refines 4 demo_file2 (mkRID 1 0) (fun d => (true, d)) (proj1 demo_file2_ok)
    (proj2 demo_file2_ok) ltac:(cbn; lia) ltac:(done)) as H.
  assert (record_at demo_file2 (mkRID 1 0) = Some [1; 2; 3; 4]) as E by (vm_compute; reflexivity).
  destruct (visit_record _ _ _) as [rc f']. rewrite E in H. split; [exact (proj1 H)|exact (proj1 (proj2 (proj2 H)))].
Defined.

(** After a restart [init_free_pages] rebuilds the set of pages with room: every
    page that is not full is in it, and no record is touched. *)
Theorem restart_finds_free_pages rec_size f : file_ok rec_size f -> f.(free_pages) = ∅ ->
  exists f', init_free_pages f = (SUCCESS, f') /\ file_ok rec_size f' /\ free_complete f' /\
    forall rid, record_at f' rid = record_at f rid.
Proof. apply init_free_pages_ok. Qed.

Lemma restart_finds_free_pages_witness :
  exists f', init_free_pages demo_file = (SUCCESS, f') /\ file_ok 4 f' /\ free_complete f' /\
    forall rid, record_at f' rid = record_at demo_file rid.
Proof. exact (restart_finds_free_pages 4 demo_file (proj1 demo_file_ok) eq_refl). Defined.

Lemma scan_selects rec_size f flt vis fuel : file_ok rec_size f ->
  (forall d, vis d = SUCCESS \/ vis d = RECORD_INVISIBLE) ->
  (length (pages_records flt vis f (data_pages f)) < fuel)%nat ->
  scan_all fuel f flt vis (open_scan f) = (RECORD_EOF, pages_records flt vis f (data_pages f)) /\
  forall rid d, (rid, d) ∈ pages_records flt vis f (data_pages f) <->
    record_at f rid = Some d /\ selected flt vis d = true.
Proof.
  intros Hok Hvis Hf. split.
  - eapply scan_all_ok; [done|done| |done]. unfold open_scan. rewrite (data_pages_iter rec_size) by done.
    apply rem_none. intros pn Hpn. by apply (elem_of_data_pages rec_size).
  - intros rid d. rewrite (elem_of_pages_records rec_size) by done. rewrite (elem_of_data_pages rec_size) by done.
    split; [tauto|]. intros [Hr Hs]. split; [|done]. unfold record_at in Hr.
    destruct (f.(pages) !! rid.(page_num)); [eauto|done].
Qed.

(** C28: A table scan terminates with [RECORD_EOF] and returns, page by page and slot by
    slot, exactly the stored records that pass the condition filter and that the
    transaction may see. *)
Theorem scan_complete rec_size f flt vis fuel : file_ok rec_size f ->
  (forall d, vis d = SUCCESS \/ vis d = RECORD_INVISIBLE) ->
  (length (pages_records flt vis f (data_pages f)) < fuel)%nat ->
  scan_all fuel f flt vis (open_scan f) = (RECORD_EOF, pages_records flt vis f (data_pages f)) /\
  forall rid d, (rid, d) ∈ pages_records flt vis f (data_pages f) <->
    record_at f rid = Some d /\ selected flt vis d = true.
Proof. apply scan_selects. Qed.

Lemma scan_complete_witness :
  scan_all 3 demo_file2 (fun _ => true) (fun _ => SUCCESS) (open_scan demo_file2) =
    (RECORD_EOF, [(mkRID 1 0, [1; 2; 3; 4]); (mkRID 1 1, [5; 6; 7; 8])]) /\
  scan_all 3 demo_file2 (fun _ => true) (fun _ => SUCCESS) (open_scan demo_file2) =
    (RECORD_EOF, pages_records (fun _ => true) (fun _ => SUCCESS) demo_file2 (data_pages demo_file2)).
Proof.
  split; [vm_compute; reflexivity|].
  refine (proj1 (scan_complete 4 demo_file2 (fun _ => true) (fun _ => SUCCESS) 3 (proj1 demo_file2_ok) _ _)).
  - intros d. left. reflexivity.
  - vm_compute. repeat constructor.
Defined.
End RecordFile.
