(* ===== verification/Compare.v ===== *)
(** * Compare: three-way comparators and binary search

    Models [src/src/common/lang/comparator.cpp], [RID::compare] of
    [src/src/observer/storage/record/record.h] and the binary search of
    [src/src/common/lang/lower_bound.h] that every index node uses.

    A comparator answers a negative, zero or positive [int].  [Comparator] states
    what the search and the index rely on: the sign is antisymmetric and "not
    greater" is transitive.  Keys that compare as [0] need not be equal. *)

From S2P Require Import Prelude RecordPage.

(** ** The interface *)

Class Comparator {A : Type} (cmp : A -> A -> Z) : Prop := {
  cmp_antisym : forall x y, Z.sgn (cmp x y) = - Z.sgn (cmp y x);
  cmp_trans : forall x y z, cmp x y <= 0 -> cmp y z <= 0 -> cmp x z <= 0
}.

Section comparator.
Context {A : Type} {cmp : A -> A -> Z} {Hcmp : Comparator cmp}.

Lemma cmp_refl x : cmp x x = 0.
Proof using Hcmp. pose proof (cmp_antisym x x). lia. Qed.

Lemma cmp_flip_lt x y : cmp x y < 0 <-> 0 < cmp y x.
Proof using Hcmp. pose proof (cmp_antisym x y). lia. Qed.

Lemma cmp_flip_le x y : cmp x y <= 0 <-> 0 <= cmp y x.
Proof using Hcmp. pose proof (cmp_antisym x y). lia. Qed.

Lemma cmp_flip_eq x y : cmp x y = 0 <-> cmp y x = 0.
Proof using Hcmp. pose proof (cmp_antisym x y). lia. Qed.

Lemma cmp_le_lt x y z : cmp x y <= 0 -> cmp y z < 0 -> cmp x z < 0.
Proof using Hcmp.
  intros H1 H2. destruct (Z.lt_ge_cases (cmp x z) 0) as [|H]; [done|].
  apply cmp_flip_le in H. pose proof (cmp_trans z x y H H1) as H3. apply cmp_flip_le in H3. lia.
Qed.

Lemma cmp_lt_le x y z : cmp x y < 0 -> cmp y z <= 0 -> cmp x z < 0.
Proof using Hcmp.
  intros H1 H2. destruct (Z.lt_ge_cases (cmp x z) 0) as [|H]; [done|].
  apply cmp_flip_le in H. pose proof (cmp_trans y z x H2 H) as H3. apply cmp_flip_le in H3. lia.
Qed.

Lemma cmp_lt_lt x y z : cmp x y < 0 -> cmp y z < 0 -> cmp x z < 0.
Proof using Hcmp. intros H1 H2. apply (cmp_le_lt x y z); [lia|done]. Qed.

Lemma cmp_eq_sgn x y z : cmp x y = 0 -> Z.sgn (cmp x z) = Z.sgn (cmp y z).
Proof using Hcmp.
  intros H. assert (cmp y x = 0) as H' by by apply cmp_flip_eq.
  pose proof (cmp_le_lt x y z ltac:(lia)). pose proof (cmp_le_lt y x z ltac:(lia)).
  pose proof (cmp_lt_le z x y). pose proof (cmp_lt_le z y x).
  pose proof (cmp_flip_lt z x). pose proof (cmp_flip_lt z y). lia.
Qed.
End comparator.

(** ** The comparators of the source *)

(** [common::compare_int] *)
Definition compare_int (v1 v2 : Z) : Z :=
  if v2 <? v1 then 1 else if v1 <? v2 then -1 else 0.

(** [common::compare_int64]: the two 64-bit values are stored in [int]s first. *)
Definition compare_int64 (arg1 arg2 : Z) : Z := compare_int (int32 arg1) (int32 arg2).

(** [strncmp] on byte arrays; bytes past the end of a list do not occur when the
    lists have [n] bytes. *)
Fixpoint strncmp (s1 s2 : list Z) (n : nat) : Z :=
  match n with
  | O => 0
  | S n' =>
      let c1 := hd 0 s1 in
      let c2 := hd 0 s2 in
      if negb (c1 =? c2) then c1 - c2
      else if c1 =? 0 then 0 else strncmp (tl s1) (tl s2) n'
  end.

(** [common::compare_string] *)
Definition compare_string (s1 : list Z) (arg1_max_length : Z) (s2 : list Z) (arg2_max_length : Z) : Z :=
  let maxlen := Z.min arg1_max_length arg2_max_length in
  let result := strncmp s1 s2 (Z.to_nat maxlen) in
  if negb (0 =? result) then (if result <? 0 then -1 else 1)
  else if maxlen <? arg1_max_length then 1
  else if maxlen <? arg2_max_length then -1 else 0.

(** [RID::compare]: the differences are 32-bit. *)
Definition rid_compare (r1 r2 : RID) : Z :=
  let page_diff := int32 (r1.(page_num) - r2.(page_num)) in
  if negb (page_diff =? 0) then page_diff else int32 (r1.(slot_num) - r2.(slot_num)).

Definition rid_min : RID := mkRID 0 0.
Definition rid_max : RID := mkRID INT32_MAX INT32_MAX.

#[export] Instance compare_int_comparator : Comparator compare_int.
Proof.
  split; unfold compare_int; intros.
  - destruct (Z.ltb_spec y x), (Z.ltb_spec x y); lia.
  - destruct (Z.ltb_spec y x), (Z.ltb_spec x y), (Z.ltb_spec z y), (Z.ltb_spec y z), (Z.ltb_spec z x),
      (Z.ltb_spec x z); lia.
Qed.

Lemma strncmp_antisym n : forall s1 s2, strncmp s1 s2 n = - strncmp s2 s1 n.
Proof.
  induction n as [|n IH]; intros s1 s2; cbn; [done|].
  destruct (Z.eqb_spec (hd 0 s1) (hd 0 s2)) as [E|E]; cbn.
  - rewrite E, Z.eqb_refl. cbn. destruct (_ =? 0); [done|]. apply IH.
  - destruct (Z.eqb_spec (hd 0 s2) (hd 0 s1)); cbn; lia.
Qed.

Lemma strncmp_trans n : forall s1 s2 s3,
  strncmp s1 s2 n <= 0 -> strncmp s2 s3 n <= 0 -> strncmp s1 s3 n <= 0.
Proof.
  induction n as [|n IH]; intros s1 s2 s3; cbn; [done|].
  destruct (Z.eqb_spec (hd 0 s1) (hd 0 s2)) as [E12|E12], (Z.eqb_spec (hd 0 s2) (hd 0 s3)) as [E23|E23],
    (Z.eqb_spec (hd 0 s1) (hd 0 s3)) as [E13|E13]; cbn; try lia.
  destruct (Z.eqb_spec (hd 0 s1) 0), (Z.eqb_spec (hd 0 s2) 0); try lia. apply IH.
Qed.

(** Character attributes of one width. *)
#[export] Instance compare_string_comparator (n : Z) :
  Comparator (fun s1 s2 => compare_string s1 n s2 n).
Proof.
  split; unfold compare_string; rewrite Z.min_id, Z.ltb_irrefl; intros x y.
  - rewrite (strncmp_antisym _ y x).
    destruct (Z.eqb_spec 0 (strncmp x y (Z.to_nat n))), (Z.eqb_spec 0 (- strncmp x y (Z.to_nat n))),
      (Z.ltb_spec (strncmp x y (Z.to_nat n)) 0), (Z.ltb_spec (- strncmp x y (Z.to_nat n)) 0); cbn; lia.
  - intros z. pose proof (strncmp_trans (Z.to_nat n) x y z) as Ht.
    destruct (Z.eqb_spec 0 (strncmp x y (Z.to_nat n))), (Z.eqb_spec 0 (strncmp y z (Z.to_nat n))),
      (Z.eqb_spec 0 (strncmp x z (Z.to_nat n))), (Z.ltb_spec (strncmp x y (Z.to_nat n)) 0),
      (Z.ltb_spec (strncmp y z (Z.to_nat n)) 0), (Z.ltb_spec (strncmp x z (Z.to_nat n)) 0); cbn; lia.
Qed.

(** Record locations that exist have non-negative numbers; for them the 32-bit
    differences do not wrap. *)
Definition rid_ok (r : RID) : bool :=
  (0 <=? r.(page_num)) && (r.(page_num) <=? INT32_MAX) && (0 <=? r.(slot_num)) && (r.(slot_num) <=? INT32_MAX).

Lemma rid_compare_ok r1 r2 : rid_ok r1 = true -> rid_ok r2 = true ->
  rid_compare r1 r2 =
  if decide (r1.(page_num) = r2.(page_num)) then r1.(slot_num) - r2.(slot_num)
  else r1.(page_num) - r2.(page_num).
Proof.
  unfold rid_ok, rid_compare. rewrite !andb_true_iff, !Z.leb_le. intros H1 H2.
  rewrite !int32_id by (unfold in_int32, INT32_MAX, INT32_MIN in *; lia).
  destruct (Z.eqb_spec (r1.(page_num) - r2.(page_num)) 0), (decide _); cbn; lia.
Qed.

(** The key of an index entry: the attribute and the record's location. *)
Section index_key.
Context {A : Type} (attr_cmp : A -> A -> Z) {Hattr : Comparator attr_cmp}.

Record IKey := mkIKey { user_key : A; key_rid : RID; key_rid_ok : rid_ok key_rid = true }.

(** [KeyComparator::operator()] *)
Definition key_compare (v1 v2 : IKey) : Z :=
  let result := attr_cmp v1.(user_key) v2.(user_key) in
  if negb (result =? 0) then result else rid_compare v1.(key_rid) v2.(key_rid).

#[export] Instance key_comparator : Comparator key_compare.
Proof using Hattr.
  split; unfold key_compare.
  - intros [a r Hr] [b s Hs]; cbn. pose proof (cmp_antisym a b).
    rewrite !rid_compare_ok by done.
    destruct (Z.eqb_spec (attr_cmp a b) 0), (Z.eqb_spec (attr_cmp b a) 0); cbn; try lia.
    destruct (decide (r.(page_num) = s.(page_num))), (decide (s.(page_num) = r.(page_num))); lia.
  - intros [a r Hr] [b s Hs] [c u Hu]; cbn. rewrite !rid_compare_ok by done.
    pose proof (cmp_trans a b c). pose proof (cmp_lt_le a b c). pose proof (cmp_le_lt a b c).
    destruct (Z.eqb_spec (attr_cmp a b) 0), (Z.eqb_spec (attr_cmp b c) 0), (Z.eqb_spec (attr_cmp a c) 0); cbn;
      try lia.
    destruct (decide (r.(page_num) = s.(page_num))), (decide (s.(page_num) = u.(page_num))),
      (decide (r.(page_num) = u.(page_num))); lia.
Qed.
End index_key.

(** ** Binary search *)

(** [common::lower_bound] over a sequence, with positions instead of iterators.
    [last_count] at least halves in every round, so its initial value is enough
    fuel. *)
Section lower_bound.
Context {A V : Type} (comp : A -> V -> Z).

Fixpoint lower_bound_loop (fuel : nat) (seq : list A) (val : V) (first last_count : nat) : nat * bool :=
  match fuel with
  | O => (first, false)
  | S fuel' =>
      if (0 <? last_count)%nat then
        let step := (last_count / 2)%nat in
        let iter := (first + step)%nat in
        match seq !! iter with
        | None => (first, false)
        | Some x =>
            let result := comp x val in
            if 0 =? result then (iter, true)
            else if result <? 0 then lower_bound_loop fuel' seq val (iter + 1) (last_count - (step + 1))
            else lower_bound_loop fuel' seq val first step
        end
      else (first, false)
  end.

Definition lower_bound (seq : list A) (val : V) : nat * bool :=
  lower_bound_loop (length seq) seq val 0 (length seq).

(** A sequence that is increasing around [val]. *)
Definition split_at (seq : list A) (val : V) : Prop :=
  forall i j x y, (i < j)%nat -> seq !! i = Some x -> seq !! j = Some y ->
    (0 <= comp x val -> 0 < comp y val) /\ (comp y val <= 0 -> comp x val < 0).

Lemma lower_bound_loop_spec seq val : split_at seq val -> forall fuel first n,
  (n <= fuel)%nat -> (first + n <= length seq)%nat ->
  (forall j x, (j < first)%nat -> seq !! j = Some x -> comp x val < 0) ->
  (forall j x, (first + n <= j)%nat -> seq !! j = Some x -> 0 < comp x val) ->
  let '(i, found) := lower_bound_loop fuel seq val first n in
  (i <= length seq)%nat /\
  (forall j x, (j < i)%nat -> seq !! j = Some x -> comp x val < 0) /\
  (forall j x, (i <= j)%nat -> seq !! j = Some x -> if found then (j = i -> comp x val = 0) /\ (j <> i -> 0 < comp x val) else 0 < comp x val) /\
  (found = true -> (i < length seq)%nat).
Proof using Type.
  intros Hs. induction fuel as [|fuel IH]; intros first n Hf Hn Hl Hr; cbn [lower_bound_loop].
  { assert (n = 0)%nat as -> by lia. split_and!; [lia|done| |done]. intros. apply (Hr j); [lia|done]. }
  destruct (Nat.ltb_spec 0 n) as [H0|H0].
  2: { assert (n = 0)%nat as -> by lia. split_and!; [lia|done| |done]. intros. apply (Hr j); [lia|done]. }
  assert (n / 2 < n)%nat as Hstep by (apply Nat.div_lt; lia).
  set (it := (first + n / 2)%nat).
  destruct (seq !! it) as [x|] eqn:Hx.
  2: { apply lookup_ge_None in Hx. lia. }
  destruct (Z.eqb_spec 0 (comp x val)) as [E|E].
  - split_and!; [lia| | |lia].
    + intros j y Hj Hy. apply (Hs j it y x); [lia|done|done|lia].
    + intros j y Hj Hy. split; [intros ->; simplify_eq; lia|]. intros. apply (Hs it j x y); [lia|done|done|lia].
  - destruct (Z.ltb_spec (comp x val) 0) as [L|L].
    + apply IH; [lia|lia| |].
      * intros j y Hj Hy. destruct (decide (j = it)) as [->|]; [by simplify_eq|].
        apply (Hs j it y x); [lia|done|done|lia].
      * intros j y Hj Hy. apply (Hr j); [lia|done].
    + apply IH; [lia|lia|done|].
      intros j y Hj Hy. destruct (decide (j = it)) as [->|]; [simplify_eq; lia|].
      apply (Hs it j x y); [lia|done|done|lia].
Qed.

(** The result splits the sequence. *)
Lemma lower_bound_spec seq val : split_at seq val ->
  let '(i, found) := lower_bound seq val in
  exists l1 l2, seq = l1 ++ l2 /\ i = length l1 /\ Forall (fun x => comp x val < 0) l1 /\
    if found then exists x l2', l2 = x :: l2' /\ comp x val = 0 /\ Forall (fun y => 0 < comp y val) l2'
    else Forall (fun y => 0 < comp y val) l2.
Proof using Type.
  intros Hs. unfold lower_bound.
  pose proof (lower_bound_loop_spec seq val Hs (length seq) 0 (length seq) ltac:(lia) ltac:(lia)
    ltac:(lia) ltac:(intros j x Hj Hx; apply lookup_lt_Some in Hx; lia)) as H.
  destruct (lower_bound_loop _ _ _ _ _) as [i found]. destruct H as (Hi & Hl & Hr & Hfd).
  exists (take i seq), (drop i seq). split; [by rewrite take_drop|]. rewrite length_take.
  split; [lia|]. split.
  { apply Forall_lookup. intros j x. rewrite lookup_take. case_decide; [|done]. by apply Hl. }
  destruct found.
  - destruct (lookup_lt_is_Some_2 seq i (Hfd eq_refl)) as [x Hx].
    exists x, (drop (S i) seq). rewrite (drop_S _ _ _ Hx). split; [done|].
    split; [by apply (Hr i x (le_n i) Hx)|].
    apply Forall_lookup. intros j y. rewrite lookup_drop. intros Hy.
    apply (Hr (S i + j)%nat y ltac:(lia) Hy). lia.
  - apply Forall_lookup. intros j y. rewrite lookup_drop. intros Hy. apply (Hr (i + j)%nat y ltac:(lia) Hy).
Qed.
End lower_bound.

(** In a sequence increasing under a comparator the search works for every key. *)
Definition increasing {A} (cmp : A -> A -> Z) (l : list A) : Prop :=
  forall i j x y, (i < j)%nat -> l !! i = Some x -> l !! j = Some y -> cmp x y < 0.

Lemma increasing_split {A} (cmp : A -> A -> Z) {Hc : Comparator cmp} l v :
  increasing cmp l -> split_at cmp l v.
Proof.
  intros Hi i j x y Hij Hx Hy. pose proof (Hi i j x y Hij Hx Hy) as Hlt. split; intros H.
  - apply cmp_flip_lt. eapply cmp_le_lt; [|exact Hlt]. by apply cmp_flip_le.
  - by eapply cmp_lt_le.
Qed.

(** ** The properties *)

(** [lower_bound] on an increasing sequence splits it: everything before the
    returned position is smaller than the key, everything from it on is greater, except
    that an element equal to the key, if there is one, is at the position and the search
    says so. *)
Theorem lower_bound_correct {A} (cmp : A -> A -> Z) {Hc : Comparator cmp} l v : increasing cmp l ->
  let '(i, found) := lower_bound cmp l v in
  exists l1 l2, l = l1 ++ l2 /\ i = length l1 /\ Forall (fun x => cmp x v < 0) l1 /\
    if found then exists x l2', l2 = x :: l2' /\ cmp x v = 0 /\ Forall (fun y => 0 < cmp y v) l2'
    else Forall (fun y => 0 < cmp y v) l2.
Proof. intros Hi. apply lower_bound_spec. by apply increasing_split. Qed.

Lemma lower_bound_correct_witness :
  lower_bound compare_int [1; 3; 5] 4 = (2%nat, false) /\
  exists l1 l2, [1; 3; 5] = l1 ++ l2 /\ 2%nat = length l1 /\ Forall (fun x => compare_int x 4 < 0) l1 /\
    Forall (fun y => 0 < compare_int y 4) l2.
Proof.
  split; [vm_compute; reflexivity|].
  refine (lower_bound_correct compare_int [1; 3; 5] 4 _).
  intros [|[|[|]]] [|[|[|]]] x y Hij Hx Hy; try (exfalso; lia); cbn in Hx, Hy; try discriminate;
    injection Hx as <-; injection Hy as <-; vm_compute; reflexivity.
Defined.

(** [compare_int64] stores its 64-bit arguments in [int] variables, so it orders
    [2^32] below [1] and takes [2^32] and [0] for equal. *)
Theorem compare_int64_truncates :
  compare_int64 (2 ^ 32) 1 = -1 /\ compare_int64 (2 ^ 32) 0 = 0.
Proof. done. Qed.

(** The index's key order (attribute first, then record location) is a total
    preorder: signs are antisymmetric and "not greater" is transitive, whatever
    attribute comparator with these two laws it is built from. *)
Theorem key_compare_total_preorder {A} (attr_cmp : A -> A -> Z) (Hattr : Comparator attr_cmp) :
  Comparator (key_compare attr_cmp).
Proof. by apply key_comparator. Qed.

Lemma key_compare_total_preorder_witness : Comparator (key_compare compare_int).
Proof. exact (key_compare_total_preorder compare_int compare_int_comparator). Defined.
