(* ===== verification/BplusTree.v ===== *)
(** * BplusTree: the B+ tree index, page by page

    Models [src/src/observer/storage/index/bplus_tree.cpp] and [bplus_tree.h]: the
    node operations, the search, insertion with splits, deletion with merging and
    redistribution, over a map from page numbers to nodes with parent and sibling
    pointers, as in the source.  The range scanner is in [BplusScan].

    A node's items are lists, so that the [memmove]s of [recover_insert_items] and
    [recover_remove_items] are list surgery; [BplusPage] shows that on the bytes of a
    page they are just that.  Latches are not part of the model: one
    operation runs at a time.  Pages come from an allocator that is known only through
    the interface [PageAllocator]; [LatchMemo] disposes pages when the operation ends,
    here they are disposed where the source asks for it, after which nothing reads
    them.  A failed [assert] or [ASSERT] is [None]. *)

From S2P Require Import Prelude RecordPage PageAlloc Compare.

(** ** Interfaces *)

(** The key type: its comparator, and the key of zero bytes that [create_new_root]
    writes. *)
Class KeyOrder := {
  key : Type;
  zero_key : key;
  compare : key -> key -> Z;
  compare_ok :: Comparator compare
}.

(** What the index needs of the buffer pool: pages that are not in use. *)
Class PageAllocator (A : Type) := {
  pa_ok : A -> Prop;
  pa_pages : A -> gset Z;
  pa_free : A -> Z;
  pa_allocate : A -> RC * Z * A;
  pa_dispose : A -> Z -> RC * A;
  pa_allocate_spec : forall a, pa_ok a -> 0 < pa_free a ->
    exists p a', pa_allocate a = (SUCCESS, p, a') /\ 0 < p /\ p ∉ pa_pages a /\
      pa_ok a' /\ pa_pages a' = {[ p ]} ∪ pa_pages a /\ pa_free a' = pa_free a - 1;
  pa_dispose_spec : forall a p, pa_ok a -> p ∈ pa_pages a -> 0 < p ->
    exists a', pa_dispose a p = (SUCCESS, a') /\ pa_ok a' /\ pa_pages a' = pa_pages a ∖ {[ p ]} /\
      pa_free a' = pa_free a + 1
}.

(** ** Data *)

Definition BP_INVALID_PAGE_NUM : Z := -1.

Definition FIRST_INDEX_PAGE : Z := 1.

(** [calc_internal_page_capacity] and [calc_leaf_page_capacity]: a [RID] has 8 bytes, a
    page number 4; the node headers 12 and 16. *)
Definition calc_internal_page_capacity (attr_length : Z) : Z :=
  let item_size := attr_length + 8 + 4 in (BP_PAGE_DATA_SIZE - 12) / item_size.
Definition calc_leaf_page_capacity (attr_length : Z) : Z :=
  let item_size := attr_length + 8 + 8 in (BP_PAGE_DATA_SIZE - 16) / item_size.

Section bplus_tree.
Context {KO : KeyOrder} {A : Type} {PA : PageAllocator A}.

(** [struct LeafIndexNode] and [struct InternalIndexNode]; [key_num] is the length
    of the item list. *)
Inductive Node :=
| LeafNode (parent next_brother : Z) (items : list (key * RID))
| InternalNode (parent : Z) (items : list (key * Z)).

(** [struct IndexFileHeader], without the attribute's description. *)
Record IndexFileHeader := mkHeader { root_page : Z; internal_max_size : nat; leaf_max_size : nat }.

Record BTree := mkTree { file_header : IndexFileHeader; nodes : gmap Z Node; alloc : A }.

Inductive BplusTreeOperationType := READ | OP_INSERT | OP_DELETE.

(** [BplusTreeHandler::create] on an open file: the header page, and no root. *)
Definition create (a : A) (attr_length internal_max leaf_max : Z) : RC * option BTree :=
  let internal_max := if internal_max <? 0 then calc_internal_page_capacity attr_length else internal_max in
  let leaf_max := if leaf_max <? 0 then calc_leaf_page_capacity attr_length else leaf_max in
  let '(rc, page_num, a') := pa_allocate a in
  if OB_FAIL rc then (rc, None)
  else if negb (page_num =? FIRST_INDEX_PAGE) then (INTERNAL, None)
  else (SUCCESS, Some (mkTree (mkHeader BP_INVALID_PAGE_NUM (Z.to_nat internal_max) (Z.to_nat leaf_max)) ∅ a')).

(** ** Nodes *)

Definition is_leaf (n : Node) : bool := match n with LeafNode _ _ _ => true | InternalNode _ _ => false end.
Definition node_size (n : Node) : nat :=
  match n with LeafNode _ _ its => length its | InternalNode _ its => length its end.
Definition parent_page_num (n : Node) : Z :=
  match n with LeafNode p _ _ => p | InternalNode p _ => p end.
Definition with_parent (n : Node) (p : Z) : Node :=
  match n with LeafNode _ nx its => LeafNode p nx its | InternalNode _ its => InternalNode p its end.

Definition max_size (h : IndexFileHeader) (leaf : bool) : nat :=
  if leaf then h.(leaf_max_size) else h.(internal_max_size).
Definition min_size (h : IndexFileHeader) (leaf : bool) : nat :=
  (max_size h leaf - max_size h leaf / 2)%nat.

(** [IndexNodeHandler::is_safe] *)
Definition is_safe (h : IndexFileHeader) (n : Node) (op : BplusTreeOperationType) (is_root_node : bool) : bool :=
  match op with
  | READ => true
  | OP_INSERT => (node_size n <? max_size h (is_leaf n))%nat
  | OP_DELETE =>
      if is_root_node then (if is_leaf n then (1 <? node_size n)%nat else (2 <? node_size n)%nat)
      else (min_size h (is_leaf n) <? node_size n)%nat
  end.

(** [recover_insert_items] and [recover_remove_items] *)
Definition insert_items_at {I} (index : nat) (items : list I) (l : list I) : list I :=
  take index l ++ items ++ drop index l.
Definition remove_items_at {I} (index num : nat) (l : list I) : list I :=
  take index l ++ drop (index + num) l.

(** [LeafIndexNodeHandler::lookup] *)
Definition leaf_lookup (items : list (key * RID)) (k : key) : nat * bool :=
  lower_bound compare (items.*1) k.

(** [InternalIndexNodeHandler::lookup]: the child to follow and the insert position;
    the key of the first item is not looked at. *)
Definition internal_lookup (items : list (key * Z)) (k : key) : nat * nat :=
  let size := length items in
  if (size =? 0)%nat then (0, 1)%nat
  else
    let ret := S (lower_bound compare (tail items.*1) k).1 in
    (match items.*1 !! ret with
     | Some k' => if compare k k' <? 0 then (ret - 1)%nat else ret
     | None => (ret - 1)%nat
     end, ret).

(** [InternalIndexNodeHandler::value_index] *)
Fixpoint value_index (items : list (key * Z)) (page_num : Z) (i : Z) : Z :=
  match items with
  | [] => -1
  | (_, p) :: its => if page_num =? p then i else value_index its page_num (i + 1)
  end.

(** ** Effects *)

(** A computation on the tree: [None] is a failed assertion, [inl] an error code. *)
Definition M (X : Type) : Type := BTree -> option ((RC + X) * BTree).

#[export] Instance M_ret : MRet M := fun X x s => Some (inr x, s).
#[export] Instance M_bind : MBind M := fun X Y f m s =>
  match m s with
  | None => None
  | Some (inl rc, s') => Some (inl rc, s')
  | Some (inr x, s') => f x s'
  end.

Definition fail {X} (rc : RC) : M X := fun s => Some (inl rc, s).
Definition crash {X} : M X := fun _ => None.
(** A call whose return code the caller drops. *)
Definition ignore_rc (m : M unit) : M unit := fun s =>
  match m s with None => None | Some (_, s') => Some (inr (), s') end.
Definition get_header : M IndexFileHeader := fun s => Some (inr s.(file_header), s).

(** [LatchMemo::get_page] *)
Definition get_page (pn : Z) : M Node := fun s =>
  match s.(nodes) !! pn with Some n => Some (inr n, s) | None => Some (inl IOERR_READ, s) end.
Definition put_page (pn : Z) (n : Node) : M unit := fun s =>
  Some (inr (), mkTree s.(file_header) (<[pn := n]> s.(nodes)) s.(alloc)).

(** [LatchMemo::allocate_page], initialised with the node [n]. *)
Definition allocate_page (n : Node) : M Z := fun s =>
  match pa_allocate s.(alloc) with
  | (SUCCESS, pn, a) => Some (inr pn, mkTree s.(file_header) (<[pn := n]> s.(nodes)) a)
  | (rc, _, a) => Some (inl rc, mkTree s.(file_header) s.(nodes) a)
  end.

(** [LatchMemo::dispose_page] *)
Definition dispose_page (pn : Z) : M unit := fun s =>
  let '(_, a) := pa_dispose s.(alloc) pn in
  Some (inr (), mkTree s.(file_header) (delete pn s.(nodes)) a).

(** [BplusTreeHandler::update_root_page_num_locked] *)
Definition update_root_page_num (pn : Z) : M unit := fun s =>
  Some (inr (), mkTree (mkHeader pn s.(file_header).(internal_max_size) s.(file_header).(leaf_max_size))
                  s.(nodes) s.(alloc)).

Definition set_parent_page_num (pn parent : Z) : M unit :=
  n ← get_page pn; put_page pn (with_parent n parent).

Definition get_leaf (pn : Z) : M (Z * Z * list (key * RID)) :=
  n ← get_page pn; match n with LeafNode p nx its => mret (p, nx, its) | _ => crash end.
Definition get_internal (pn : Z) : M (Z * list (key * Z)) :=
  n ← get_page pn; match n with InternalNode p its => mret (p, its) | _ => crash end.

(** [key_at] and [value_at], with their assertion *)
Definition at_index {I} (l : list I) (i : nat) : M I :=
  match l !! i with Some x => mret x | None => crash end.

(** The loop of [InternalIndexNodeHandler::insert_items] that tells the children
    who their parent is. *)
Fixpoint set_parents (items : list (key * Z)) (parent : Z) : M unit :=
  match items with
  | [] => mret ()
  | (_, c) :: its => _ ← set_parent_page_num c parent; set_parents its parent
  end.

(** [InternalIndexNodeHandler::insert_items] *)
Definition internal_insert_items (pn : Z) (index : nat) (items : list (key * Z)) : M unit :=
  '(p, its) ← get_internal pn;
  _ ← put_page pn (InternalNode p (insert_items_at index items its));
  set_parents items pn.

(** ** Search *)

(** The loop of [find_leaf_internal]: [fuel] is the height of the tree. *)
Fixpoint find_leaf_from (fuel : nat) (child : list (key * Z) -> nat) (pn : Z) : M Z :=
  match fuel with
  | O => crash
  | S fuel' =>
      n ← get_page pn;
      match n with
      | LeafNode _ _ _ => mret pn
      | InternalNode _ its => '(_, c) ← at_index its (child its); find_leaf_from fuel' child c
      end
  end.

Definition is_empty (s : BTree) : bool := s.(file_header).(root_page) =? BP_INVALID_PAGE_NUM.

Definition find_leaf_internal (fuel : nat) (child : list (key * Z) -> nat) : M Z :=
  h ← get_header;
  if h.(root_page) =? BP_INVALID_PAGE_NUM then fail EMPTY
  else find_leaf_from fuel child h.(root_page).

Definition find_leaf (fuel : nat) (k : key) : M Z :=
  find_leaf_internal fuel (fun its => (internal_lookup its k).1).
Definition left_most_page (fuel : nat) : M Z := find_leaf_internal fuel (fun _ => 0%nat).

(** ** Insertion *)

(** [split<LeafIndexNodeHandler>] and [LeafIndexNodeHandler::move_half_to] *)
Definition split_leaf (pn : Z) : M Z :=
  '(p, nx, its) ← get_leaf pn;
  new ← allocate_page (LeafNode p BP_INVALID_PAGE_NUM []);
  let move_index := (length its / 2)%nat in
  _ ← put_page new (LeafNode p BP_INVALID_PAGE_NUM (drop move_index its));
  _ ← put_page pn (LeafNode p nx (take move_index its));
  mret new.

(** [split<InternalIndexNodeHandler>] and [InternalIndexNodeHandler::move_half_to] *)
Definition split_internal (pn : Z) : M Z :=
  '(p, its) ← get_internal pn;
  new ← allocate_page (InternalNode p []);
  let move_index := (length its / 2)%nat in
  _ ← internal_insert_items new 0 (drop move_index its);
  _ ← put_page pn (InternalNode p (take move_index its));
  mret new.

(** [InternalIndexNodeHandler::insert] *)
Definition internal_insert (pn : Z) (k : key) (child : Z) : M unit :=
  '(p, its) ← get_internal pn;
  put_page pn (InternalNode p (insert_items_at (internal_lookup its k).2 [(k, child)] its)).

(** [BplusTreeHandler::insert_entry_into_parent]; [fuel] bounds the levels above. *)
Fixpoint insert_entry_into_parent (fuel : nat) (pn new_pn : Z) (k : key) : M unit :=
  match fuel with
  | O => crash
  | S fuel' =>
      n ← get_page pn;
      let parent := parent_page_num n in
      if parent =? BP_INVALID_PAGE_NUM then
        root ← allocate_page (InternalNode BP_INVALID_PAGE_NUM [(zero_key, pn); (k, new_pn)]);
        _ ← set_parent_page_num pn root;
        _ ← set_parent_page_num new_pn root;
        update_root_page_num root
      else
        h ← get_header;
        '(pp, its) ← get_internal parent;
        if (length its <? h.(internal_max_size))%nat then
          _ ← internal_insert parent k new_pn;
          set_parent_page_num new_pn parent
        else
          new_parent ← split_internal parent;
          '(_, new_its) ← get_internal new_parent;
          '(k0, _) ← at_index new_its 0;
          _ ← (if 0 <? compare k k0
               then _ ← internal_insert new_parent k new_pn; set_parent_page_num new_pn new_parent
               else _ ← internal_insert parent k new_pn; set_parent_page_num new_pn parent);
          '(_, new_its) ← get_internal new_parent;
          '(k0, _) ← at_index new_its 0;
          insert_entry_into_parent fuel' parent new_parent k0
  end.

(** [BplusTreeHandler::insert_entry_into_leaf_node] *)
Definition insert_entry_into_leaf_node (fuel : nat) (pn : Z) (k : key) (rid : RID) : M unit :=
  h ← get_header;
  '(p, nx, its) ← get_leaf pn;
  let '(insert_position, exists_) := leaf_lookup its k in
  if (exists_ : bool) then fail RECORD_DUPLICATE_KEY
  else if (length its <? h.(leaf_max_size))%nat then
    put_page pn (LeafNode p nx (insert_items_at insert_position [(k, rid)] its))
  else
    new ← split_leaf pn;
    '(p, nx, its) ← get_leaf pn;
    '(_, _, new_its) ← get_leaf new;
    _ ← put_page new (LeafNode p nx new_its);
    _ ← put_page pn (LeafNode p new its);
    _ ← (if (insert_position <? length its)%nat
         then put_page pn (LeafNode p new (insert_items_at insert_position [(k, rid)] its))
         else put_page new (LeafNode p nx (insert_items_at (insert_position - length its) [(k, rid)] new_its)));
    '(_, _, new_its) ← get_leaf new;
    '(k0, _) ← at_index new_its 0;
    insert_entry_into_parent fuel pn new k0.

(** [BplusTreeHandler::create_new_tree] *)
Definition create_new_tree (k : key) (rid : RID) : M unit :=
  h ← get_header;
  if negb (h.(root_page) =? BP_INVALID_PAGE_NUM) then fail INTERNAL
  else
    pn ← allocate_page (LeafNode BP_INVALID_PAGE_NUM BP_INVALID_PAGE_NUM [(k, rid)]);
    update_root_page_num pn.

(** More levels than a tree over these pages can have. *)
Definition tree_fuel (s : BTree) : nat := S (size s.(nodes)).

(** [BplusTreeHandler::insert_entry] *)
Definition insert_entry_fuel (fuel : nat) (k : key) (rid : RID) : M unit :=
  h ← get_header;
  if h.(root_page) =? BP_INVALID_PAGE_NUM then create_new_tree k rid
  else pn ← find_leaf fuel k; insert_entry_into_leaf_node fuel pn k rid.
Definition insert_entry (k : key) (rid : RID) : M unit := fun s => insert_entry_fuel (tree_fuel s) k rid s.

(** ** Deletion *)

(** [BplusTreeHandler::adjust_root] *)
Definition adjust_root (root : Z) : M unit :=
  n ← get_page root;
  match n with
  | LeafNode _ _ its =>
      if (0 <? length its)%nat then mret ()
      else _ ← update_root_page_num BP_INVALID_PAGE_NUM; dispose_page root
  | InternalNode _ its =>
      '(_, child) ← at_index its 0;
      _ ← set_parent_page_num child BP_INVALID_PAGE_NUM;
      _ ← update_root_page_num child;
      dispose_page root
  end.

(** [redistribute<LeafIndexNodeHandler>] *)
Definition redistribute_leaf (neighbor pn parent : Z) (index : nat) : M unit :=
  '(np, nnx, nits) ← get_leaf neighbor;
  '(p, nx, its) ← get_leaf pn;
  '(pp, pits) ← get_internal parent;
  if (index =? 0)%nat then
    first ← at_index nits 0;
    _ ← put_page pn (LeafNode p nx (its ++ [first]));
    let nits' := remove_items_at 0 1 nits in
    _ ← put_page neighbor (LeafNode np nnx nits');
    '(k, _) ← at_index nits' 0;
    '(_, c) ← at_index pits (index + 1)%nat;
    put_page parent (InternalNode pp (<[(index + 1)%nat := (k, c)]> pits))
  else
    last ← at_index nits (length nits - 1)%nat;
    _ ← put_page pn (LeafNode p nx (insert_items_at 0 [last] its));
    _ ← put_page neighbor (LeafNode np nnx (remove_items_at (length nits - 1) 1 nits));
    '(_, c) ← at_index pits index;
    put_page parent (InternalNode pp (<[index := (last.1, c)]> pits)).

(** [redistribute<InternalIndexNodeHandler>]: a moved child gets a new parent. *)
Definition redistribute_internal (neighbor pn parent : Z) (index : nat) : M unit :=
  '(np, nits) ← get_internal neighbor;
  '(p, its) ← get_internal pn;
  '(pp, pits) ← get_internal parent;
  if (index =? 0)%nat then
    first ← at_index nits 0;
    _ ← internal_insert_items pn (length its) [first];
    let nits' := remove_items_at 0 1 nits in
    _ ← put_page neighbor (InternalNode np nits');
    '(k, _) ← at_index nits' 0;
    '(_, c) ← at_index pits (index + 1)%nat;
    put_page parent (InternalNode pp (<[(index + 1)%nat := (k, c)]> pits))
  else
    last ← at_index nits (length nits - 1)%nat;
    _ ← internal_insert_items pn 0 [last];
    _ ← put_page neighbor (InternalNode np (remove_items_at (length nits - 1) 1 nits));
    '(_, c) ← at_index pits index;
    put_page parent (InternalNode pp (<[index := (last.1, c)]> pits)).

(** The part of [coalesce] before the recursion: the parent forgets the right node,
    whose items go to the left one. *)
Definition merge_leaf (left right parent : Z) (index : nat) : M unit :=
  '(pp, pits) ← get_internal parent;
  _ ← at_index pits index;
  _ ← put_page parent (InternalNode pp (remove_items_at index 1 pits));
  '(rp, rnx, rits) ← get_leaf right;
  '(lp, _, lits) ← get_leaf left;
  _ ← put_page left (LeafNode lp rnx (lits ++ rits));
  _ ← put_page right (LeafNode rp rnx []);
  dispose_page right.

Definition merge_internal (left right parent : Z) (index : nat) : M unit :=
  '(pp, pits) ← get_internal parent;
  _ ← at_index pits index;
  _ ← put_page parent (InternalNode pp (remove_items_at index 1 pits));
  '(rp, rits) ← get_internal right;
  '(_, lits) ← get_internal left;
  _ ← internal_insert_items left (length lits) rits;
  _ ← put_page right (InternalNode rp []);
  dispose_page right.

(** [BplusTreeHandler::coalesce_or_redistribute] with [coalesce], which calls it
    again for the parent; [fuel] bounds the levels above. *)
Fixpoint coalesce_or_redistribute (fuel : nat) (pn : Z) : M unit :=
  match fuel with
  | O => crash
  | S fuel' =>
      h ← get_header;
      n ← get_page pn;
      if (min_size h (is_leaf n) <=? node_size n)%nat then mret ()
      else if parent_page_num n =? BP_INVALID_PAGE_NUM then
        (if (1 <? node_size n)%nat then mret () else ignore_rc (adjust_root pn))
      else
        let parent := parent_page_num n in
        '(_, pits) ← get_internal parent;
        k ← (match n with
             | LeafNode _ _ its => '(k, _) ← at_index its (length its - 1)%nat; mret k
             | InternalNode _ its => '(k, _) ← at_index its (length its - 1)%nat; mret k
             end);
        let index := (internal_lookup pits k).1 in
        '(_, self) ← at_index pits index;
        if negb (self =? pn) then crash
        else
          '(_, neighbor) ← at_index pits (if (index =? 0)%nat then 1 else index - 1)%nat;
          nb ← get_page neighbor;
          if (max_size h (is_leaf n) <? node_size n + node_size nb)%nat then
            (if is_leaf n then redistribute_leaf neighbor pn parent index
             else redistribute_internal neighbor pn parent index)
          else
            let '(lpn, rpn, i) :=
              if (index =? 0)%nat then (pn, neighbor, 1%nat) else (neighbor, pn, index) in
            _ ← (if is_leaf n then merge_leaf lpn rpn parent i else merge_internal lpn rpn parent i);
            coalesce_or_redistribute fuel' parent
  end.

(** [BplusTreeHandler::delete_entry_internal] *)
Definition delete_entry_internal (fuel : nat) (pn : Z) (k : key) : M unit :=
  h ← get_header;
  '(p, nx, its) ← get_leaf pn;
  let '(index, found) := leaf_lookup its k in
  if negb found then fail RECORD_NOT_EXIST
  else
    let its' := remove_items_at index 1 its in
    _ ← put_page pn (LeafNode p nx its');
    if (min_size h true <=? length its')%nat then mret () else coalesce_or_redistribute fuel pn.

(** [BplusTreeHandler::delete_entry] *)
Definition delete_entry (k : key) : M unit := fun s =>
  match find_leaf (tree_fuel s) k s with
  | Some (inl EMPTY, s') => Some (inl RECORD_NOT_EXIST, s')
  | Some (inl rc, s') => Some (inl rc, s')
  | Some (inr pn, s') => delete_entry_internal (tree_fuel s) pn k s'
  | None => None
  end.
End bplus_tree.
