(* ===== verification/BplusInv.v ===== *)
(** * BplusInv: the abstract tree behind the pages, and what makes it valid

    A B+ tree on pages is a map from page numbers to nodes.  Here it is described by a
    tree whose type is its height, so that all leaves are at one depth; [nodes_of]
    gives the pages such a tree occupies, parent and sibling pointers included, and
    [own m l] says that the map [m] is exactly the pages [l].  Operations that climb
    from a leaf to the root through parent pointers are described with a context: the
    tree with a hole.

    [wf] is the order invariant, [sized] the occupancy invariant. *)

From S2P Require Import Prelude RecordPage PageAlloc Compare BplusTree.
From AAC_tactics Require Import AAC.

(** ** Permutations of page lists *)

Section perm.
Context {X : Type}.
#[export] Instance perm_lift : AAC_lift (≡ₚ@{X}) (≡ₚ@{X}).
Proof using Type. split; [apply _|]. intros x x' H y y' H'. by rewrite H, H'. Qed.
#[export] Instance perm_assoc : AAC.Associative (≡ₚ) (@app X).
Proof using Type. intros x y z. by rewrite app_assoc. Qed.
#[export] Instance perm_comm : AAC.Commutative (≡ₚ) (@app X).
Proof using Type. intros x y. apply Permutation_app_comm. Qed.
#[export] Instance perm_unit : AAC.Unit (≡ₚ) (@app X) (@nil X).
Proof using Type. split; intros x; [done|]. by rewrite app_nil_r. Qed.
End perm.

Ltac perm :=
  cbn [app];
  repeat match goal with
    | |- context [@cons ?T ?a ?l] =>
        lazymatch l with nil => fail | _ => change (@cons T a l) with (@app T [a] l) end
    end; aac_reflexivity.

(** ** Exactly these pages *)

Section own.
Context {N : Type}.
Implicit Types (m : gmap Z N) (l : list (Z * N)).

Definition own m l : Prop := NoDup l.*1 /\ m = list_to_map l /\ Forall (fun p => 0 < p) l.*1.

Lemma own_perm m l l' : l' ≡ₚ l -> own m l -> own m l'.
Proof using Type.
  intros Hp (Hn & -> & Hf). split_and!.
  - by rewrite Hp.
  - symmetry. apply list_to_map_proper; [by rewrite Hp|done].
  - by rewrite Hp.
Qed.

Lemma own_lookup m p n l : own m ((p, n) :: l) -> m !! p = Some n.
Proof using Type. intros (_ & -> & _). cbn. apply lookup_insert_eq. Qed.

Lemma own_elem m p n l : own m l -> (p, n) ∈ l -> m !! p = Some n.
Proof using Type. intros (Hn & -> & _) H. by apply elem_of_list_to_map_1. Qed.

Lemma own_elem_pos m p n l : own m l -> m !! p = Some n -> 0 < p.
Proof using Type.
  intros (Hn & -> & Hf) H%elem_of_list_to_map_2. rewrite Forall_forall in Hf. apply Hf.
  apply list_elem_of_fmap. by exists (p, n).
Qed.

Lemma own_update m p n n' l : own m ((p, n) :: l) -> own (<[p := n']> m) ((p, n') :: l).
Proof using Type.
  intros (Hn & -> & Hf). cbn in *. split_and!; [done| |done]. by rewrite insert_insert_eq.
Qed.

Lemma own_alloc m p n l : own m l -> 0 < p -> p ∉ dom m -> own (<[p := n]> m) ((p, n) :: l).
Proof using Type.
  intros (Hn & -> & Hf) Hp Hd. cbn. split_and!; [|done|by constructor].
  constructor; [|done]. rewrite dom_list_to_map, elem_of_list_to_set in Hd. done.
Qed.

Lemma own_free m p n l : own m ((p, n) :: l) -> own (delete p m) l.
Proof using Type.
  intros (Hn & -> & Hf). cbn in *. apply NoDup_cons in Hn as [Hp Hn]. apply Forall_cons in Hf as [_ Hf].
  split_and!; [done| |done]. rewrite delete_insert_id; [done|]. by apply not_elem_of_list_to_map_1.
Qed.

Lemma own_pos m p n l : own m ((p, n) :: l) -> 0 < p.
Proof using Type. intros (_ & _ & Hf). by apply Forall_cons in Hf as [? _]. Qed.

Lemma own_size m l : own m l -> size m = length l.
Proof using Type. intros (Hn & -> & _). rewrite <- length_map_to_list, map_to_list_to_map by done. done. Qed.

Lemma own_nil m : own m [] -> m = ∅.
Proof using Type. by intros (_ & -> & _). Qed.

Lemma own_dom m l : own m l -> dom m = list_to_set l.*1.
Proof using Type. intros (_ & -> & _). apply dom_list_to_map_L. Qed.
End own.

(** ** Trees *)

Fixpoint body {KO : KeyOrder} (h : nat) : Type :=
  match h with O => list (key * RID) | S h' => list (key * (Z * body h')) end.
Abbreviation tree h := (Z * body h)%type.
Abbreviation item h := (key * (Z * body h))%type.

Section trees.
Context {KO : KeyOrder}.

(** An internal node over its children. *)
Definition TN {h} (pn : Z) (l : list (item h)) : tree (S h) := (pn, l).

Definition refs {h} (l : list (item h)) : list (key * Z) := map (fun it => (it.1, it.2.1)) l.

(** The leftmost leaf, [nxt] being the leaf to the right of the tree. *)
Fixpoint first_leaf (h : nat) (nxt : Z) : tree h -> Z :=
  match h with
  | O => fun t => t.1
  | S h' => fun t => foldr (fun it nxt => first_leaf h' nxt it.2) nxt t.2
  end.
Definition first_of {h} (nxt : Z) (l : list (item h)) : Z :=
  foldr (fun it nxt => first_leaf h nxt it.2) nxt l.

(** The pages of a tree with parent page [par] and right neighbour leaf [nxt]. *)
Fixpoint nodes_of (h : nat) (par nxt : Z) : tree h -> list (Z * Node) :=
  match h with
  | O => fun t => [(t.1, LeafNode par nxt t.2)]
  | S h' => fun t =>
      (t.1, InternalNode par (refs (h := h') t.2)) ::
      (fix kids (l : list (item h')) : list (Z * Node) :=
         match l with
         | [] => []
         | it :: l' => nodes_of h' t.1 (first_of nxt l') it.2 ++ kids l'
         end) t.2
  end.

Fixpoint kids_nodes {h} (par nxt : Z) (l : list (item h)) : list (Z * Node) :=
  match l with
  | [] => []
  | it :: l' => nodes_of h par (first_of nxt l') it.2 ++ kids_nodes par nxt l'
  end.

(** The entries, in key order. *)
Fixpoint flat (h : nat) : body h -> list (key * RID) :=
  match h with O => fun b => b | S h' => fun b => concat (map (fun it => flat h' it.2.2) b) end.
Definition flats {h} (l : list (item h)) : list (key * RID) := concat (map (fun it => flat h it.2.2) l).

Lemma nodes_of_S {h} par nxt pn (l : list (item h)) :
  nodes_of (S h) par nxt (TN pn l) = (pn, InternalNode par (refs l)) :: kids_nodes pn nxt l.
Proof using Type. cbn. f_equal. induction l as [|it l IH]; [done|]. by cbn; rewrite IH. Qed.

Lemma first_leaf_S {h} nxt pn (l : list (item h)) : first_leaf (S h) nxt (TN pn l) = first_of nxt l.
Proof using Type. done. Qed.

Lemma flat_S {h} pn (l : list (item h)) : flat (S h) (TN pn l).2 = flats l.
Proof using Type. done. Qed.

Lemma refs_app {h} (l1 l2 : list (item h)) : refs (l1 ++ l2) = refs l1 ++ refs l2.
Proof using Type. apply map_app. Qed.
Lemma refs_length {h} (l : list (item h)) : length (refs l) = length l.
Proof using Type. apply length_map. Qed.
Lemma refs_keys {h} (l : list (item h)) : (refs l).*1 = l.*1.
Proof using Type. unfold refs. induction l as [|it l IH]; [done|]. cbn. by f_equal. Qed.
Lemma refs_take {h} n (l : list (item h)) : take n (refs l) = refs (take n l).
Proof using Type. unfold refs. by rewrite firstn_map. Qed.
Lemma refs_drop {h} n (l : list (item h)) : drop n (refs l) = refs (drop n l).
Proof using Type. unfold refs. by rewrite skipn_map. Qed.

Lemma first_of_app {h} nxt (l1 l2 : list (item h)) : first_of nxt (l1 ++ l2) = first_of (first_of nxt l2) l1.
Proof using Type. apply foldr_app. Qed.
Lemma kids_nodes_app {h} par nxt (l1 l2 : list (item h)) :
  kids_nodes par nxt (l1 ++ l2) = kids_nodes par (first_of nxt l2) l1 ++ kids_nodes par nxt l2.
Proof using Type.
  induction l1 as [|it l1 IH]; [done|]. cbn. rewrite IH, first_of_app. by rewrite app_assoc.
Qed.
Lemma flats_app {h} (l1 l2 : list (item h)) : flats (l1 ++ l2) = flats l1 ++ flats l2.
Proof using Type. unfold flats. by rewrite map_app, concat_app. Qed.

Lemma refs_cons {h} k (t : tree h) l : refs ((k, t) :: l) = (k, t.1) :: refs l.
Proof using Type. done. Qed.
Lemma first_of_cons {h} nxt k (t : tree h) l : first_of nxt ((k, t) :: l) = first_leaf h (first_of nxt l) t.
Proof using Type. done. Qed.
Lemma kids_nodes_cons {h} par nxt k (t : tree h) l :
  kids_nodes par nxt ((k, t) :: l) = nodes_of h par (first_of nxt l) t ++ kids_nodes par nxt l.
Proof using Type. done. Qed.
Lemma flats_cons {h} k (t : tree h) l : flats ((k, t) :: l) = flat h t.2 ++ flats l.
Proof using Type. done. Qed.

(** How many pages, whatever the pointers. *)
Lemma nodes_of_len h : forall par nxt (t : tree h), length (nodes_of h par nxt t) = length (nodes_of h 0 0 t).
Proof using Type.
  induction h as [|h IH]; intros par nxt [pn l]; [done|]. change (pn, l) with (TN (h := h) pn l).
  rewrite !nodes_of_S. cbn [length]. f_equal. generalize 0. induction l as [|[k t] l IHl]; intros z; [done|].
  rewrite !kids_nodes_cons, !length_app, (IHl z). f_equal. by rewrite (IH pn (first_of nxt l)), (IH pn (first_of z l)).
Qed.
Lemma kids_nodes_len {h} par nxt (l : list (item h)) :
  length (kids_nodes par nxt l) = length (kids_nodes 0 0 l).
Proof using Type.
  induction l as [|[k t] l IH]; [done|].
  by rewrite !kids_nodes_cons, !length_app, IH, (nodes_of_len h par (first_of nxt l)), (nodes_of_len h 0 (first_of 0 l)).
Qed.

Lemma kids_len_app {h} (l1 l2 : list (item h)) :
  length (kids_nodes 0 0 (l1 ++ l2)) = (length (kids_nodes 0 0 l1) + length (kids_nodes 0 0 l2))%nat.
Proof using Type. by rewrite kids_nodes_app, length_app, (kids_nodes_len 0 (first_of 0 l2)). Qed.
Lemma kids_len_cons {h} k (t : tree h) l :
  length (kids_nodes 0 0 ((k, t) :: l)) = (length (nodes_of h 0 0 t) + length (kids_nodes 0 0 l))%nat.
Proof using Type. by rewrite kids_nodes_cons, length_app, (nodes_of_len h 0 (first_of 0 l)). Qed.
Lemma node_len {h} par nxt pn (l : list (item h)) :
  length (nodes_of (S h) par nxt (TN pn l)) = S (length (kids_nodes 0 0 l)).
Proof using Type. rewrite nodes_of_S. cbn [length]. by rewrite (kids_nodes_len pn nxt). Qed.

(** The root page of a tree, and what does not depend on its parent. *)
Definition root_node (h : nat) (par nxt : Z) : tree h -> Node :=
  match h with
  | O => fun t => LeafNode par nxt t.2
  | S h' => fun t => InternalNode par (refs (h := h') t.2)
  end.
Definition below (h : nat) (nxt : Z) : tree h -> list (Z * Node) :=
  match h with O => fun _ => [] | S h' => fun t => kids_nodes (h := h') t.1 nxt t.2 end.

Lemma nodes_of_root h par nxt (t : tree h) :
  nodes_of h par nxt t = (t.1, root_node h par nxt t) :: below h nxt t.
Proof using Type. destruct h; [done|]. destruct t as [pn l]. apply (nodes_of_S par nxt pn l). Qed.

Lemma root_node_parent h par par' nxt (t : tree h) :
  with_parent (root_node h par nxt t) par' = root_node h par' nxt t.
Proof using Type. by destruct h. Qed.
Lemma root_node_parent_num h par nxt (t : tree h) : parent_page_num (root_node h par nxt t) = par.
Proof using Type. by destruct h. Qed.

#[local] Ltac tree_simpl :=
  rewrite ?nodes_of_S, ?first_leaf_S, ?flat_S, ?kids_nodes_app, ?first_of_app, ?refs_app, ?flats_app,
    ?kids_nodes_cons, ?first_of_cons, ?refs_cons, ?flats_cons.

(** ** Contexts *)

(** A tree with a hole of height [h]; the innermost node first. *)
Inductive ctx (h : nat) : Type :=
| CTop
| CFrame (pn : Z) (L : list (item h)) (k : key) (R : list (item h)) (c : ctx (S h)).
Arguments CTop {h}.
Arguments CFrame {h} pn L k R c.

Definition parent_of {h} (c : ctx h) : Z := match c with CTop => BP_INVALID_PAGE_NUM | CFrame pn _ _ _ _ => pn end.
Fixpoint nxt_of {h} (c : ctx h) : Z :=
  match c with CTop => BP_INVALID_PAGE_NUM | CFrame _ _ _ R c' => first_of (nxt_of c') R end.

(** The pages of the context, [hpn] being the page in the hole and [fl] the leftmost
    leaf there. *)
Fixpoint ctx_nodes {h} (c : ctx h) (hpn fl : Z) : list (Z * Node) :=
  match c with
  | CTop => []
  | CFrame pn L k R c' =>
      (pn, InternalNode (parent_of c') (refs L ++ (k, hpn) :: refs R)) ::
      kids_nodes pn fl L ++ kids_nodes pn (nxt_of c') R ++ ctx_nodes c' pn (first_of fl L)
  end.

Fixpoint top_height {h} (c : ctx h) : nat := match c with CTop => h | CFrame _ _ _ _ c' => top_height c' end.
Fixpoint plug {h} (c : ctx h) : tree h -> tree (top_height c) :=
  match c with
  | CTop => fun t => t
  | CFrame pn L k R c' => fun t => plug c' (TN pn (L ++ (k, t) :: R))
  end.
Fixpoint depth {h} (c : ctx h) : nat := match c with CTop => O | CFrame _ _ _ _ c' => S (depth c') end.

Fixpoint left_of {h} (c : ctx h) : list (key * RID) :=
  match c with CTop => [] | CFrame _ L _ _ c' => left_of c' ++ flats L end.
Fixpoint right_of {h} (c : ctx h) : list (key * RID) :=
  match c with CTop => [] | CFrame _ _ _ R c' => flats R ++ right_of c' end.

Lemma top_height_depth {h} (c : ctx h) : top_height c = (h + depth c)%nat.
Proof using Type. induction c as [|h pn L k R c IH]; cbn; [lia|]. rewrite IH. lia. Qed.

Lemma ctx_nodes_len {h} (c : ctx h) : forall hpn fl, length (ctx_nodes c hpn fl) = length (ctx_nodes c 0 0).
Proof using Type.
  induction c as [|h pn L k R c IH]; intros hpn fl; [done|]. cbn [ctx_nodes length]. rewrite !length_app.
  by rewrite (kids_nodes_len pn fl L), (kids_nodes_len pn 0 L), (IH pn (first_of fl L)), (IH pn (first_of 0 L)).
Qed.

(** Moving the hole up or down one level only permutes the pages. *)
Lemma ctx_nodes_step {h} pn L k R (c : ctx (S h)) (t : tree h) :
  let up := TN pn (L ++ (k, t) :: R) in
  let cf := CFrame pn L k R c in
  nodes_of (S h) (parent_of c) (nxt_of c) up ++ ctx_nodes c pn (first_leaf (S h) (nxt_of c) up) ≡ₚ
  nodes_of h (parent_of cf) (nxt_of cf) t ++ ctx_nodes cf t.1 (first_leaf h (nxt_of cf) t).
Proof using Type.
  cbn zeta. cbn [ctx_nodes parent_of nxt_of]. tree_simpl. perm.
Qed.

Lemma plug_nodes {h} (c : ctx h) : forall t : tree h,
  nodes_of _ BP_INVALID_PAGE_NUM BP_INVALID_PAGE_NUM (plug c t) ≡ₚ
  nodes_of h (parent_of c) (nxt_of c) t ++ ctx_nodes c t.1 (first_leaf h (nxt_of c) t).
Proof using Type.
  induction c as [h|h pn L k R c IH]; intros t; cbn [plug top_height].
  - cbn. by rewrite app_nil_r.
  - rewrite IH. apply (ctx_nodes_step pn L k R c t).
Qed.

Lemma plug_flat {h} (c : ctx h) : forall t : tree h,
  flat _ (plug c t).2 = left_of c ++ flat h t.2 ++ right_of c.
Proof using Type.
  induction c as [h|h pn L k R c IH]; intros t; cbn [plug left_of right_of].
  - cbn. by rewrite app_nil_r.
  - rewrite IH. tree_simpl. by rewrite <- !app_assoc.
Qed.
End trees.
Ltac tree_simpl :=
  rewrite ?nodes_of_S, ?first_leaf_S, ?flat_S, ?kids_nodes_app, ?first_of_app, ?refs_app, ?flats_app,
    ?kids_nodes_cons, ?first_of_cons, ?refs_cons, ?flats_cons.
Arguments CTop {_ h}.
Arguments CFrame {_ h} pn L k R c.

(** ** Order *)

Section order.
Context {KO : KeyOrder}.
Implicit Types lo hi : option key.

Definition opt_lt lo hi : Prop := match lo, hi with Some x, Some y => compare x y < 0 | _, _ => True end.
Definition in_range lo hi (k : key) : Prop :=
  match lo with Some x => compare x k <= 0 | None => True end /\
  match hi with Some y => compare k y < 0 | None => True end.
Definition next_lo {h} hi (l : list (item h)) : option key := match l with [] => hi | it :: _ => Some it.1 end.
Definition mid {h} lo (l : list (item h)) (x : option key) : option key := match l with [] => lo | _ => x end.

(** The children between [lo] and [hi].  The key of a first child is its lower bound,
    except on the left spine, where it is never read. *)
Fixpoint kids_ok {h} (P : option key -> option key -> body h -> Prop) lo hi (l : list (item h)) : Prop :=
  match l with
  | [] => True
  | it :: l' =>
      match lo with Some x => it.1 = x | None => True end /\ opt_lt lo (next_lo hi l') /\
      P lo (next_lo hi l') it.2.2 /\ kids_ok P (next_lo hi l') hi l'
  end.

Fixpoint wf (h : nat) lo hi : body h -> Prop :=
  match h with
  | O => fun b => increasing compare b.*1 /\ Forall (in_range lo hi) b.*1
  | S h' => fun b => kids_ok (wf h') lo hi b
  end.

Lemma wf_S {h} lo hi pn (l : list (item h)) : wf (S h) lo hi (TN pn l).2 = kids_ok (wf h) lo hi l.
Proof using Type. done. Qed.

Lemma next_lo_app {h} hi (l1 l2 : list (item h)) : next_lo hi (l1 ++ l2) = next_lo (next_lo hi l2) l1.
Proof using Type. by destruct l1. Qed.

Lemma kids_ok_app {h} P lo hi (l1 l2 : list (item h)) :
  kids_ok P lo hi (l1 ++ l2) <->
  kids_ok P lo (next_lo hi l2) l1 /\ kids_ok P (mid lo l1 (next_lo hi l2)) hi l2.
Proof using Type.
  revert lo. induction l1 as [|it l1 IH]; intros lo; cbn [app kids_ok mid]; [tauto|].
  rewrite next_lo_app, IH. destruct l1; cbn [mid next_lo kids_ok]; tauto.
Qed.

Lemma opt_lt_trans lo x hi : opt_lt lo (Some x) -> opt_lt (Some x) hi -> opt_lt lo hi.
Proof using Type. destruct lo, hi; cbn; [|done..]. apply cmp_lt_lt. Qed.

Lemma increasing_nil : increasing compare [].
Proof using Type. intros i j x y _. by rewrite lookup_nil. Qed.

Lemma increasing_cons (x : key) l :
  increasing compare (x :: l) <-> Forall (fun y => compare x y < 0) l /\ increasing compare l.
Proof using Type.
  split.
  - intros Hi. split.
    + apply Forall_lookup. intros i y Hy. apply (Hi 0%nat (S i) x y); [lia|done|done].
    + intros i j y z Hij Hy Hz. apply (Hi (S i) (S j) y z); [lia|done|done].
  - intros [Hf Hi] [|i] [|j] y z Hij Hy Hz; cbn in *; [lia| |lia|].
    + injection Hy as <-. by eapply Forall_lookup_1 in Hf.
    + apply (Hi i j); [lia|done|done].
Qed.

Lemma increasing_app (l1 l2 : list key) :
  increasing compare (l1 ++ l2) <->
  increasing compare l1 /\ increasing compare l2 /\ Forall (fun x => Forall (fun y => compare x y < 0) l2) l1.
Proof using Type.
  induction l1 as [|x l1 IH]; cbn.
  - split; [intros H; split_and!; [apply increasing_nil|done|done]|tauto].
  - rewrite !increasing_cons, IH, Forall_app, Forall_cons. tauto.
Qed.

Lemma kids_chain {h} P lo hi it (l : list (item h)) : kids_ok P lo hi (it :: l) ->
  opt_lt lo hi /\ increasing compare l.*1 /\
  Forall (fun k => opt_lt lo (Some k) /\ opt_lt (Some k) hi) l.*1.
Proof using Type.
  revert lo it. induction l as [|it' l IH]; intros lo it; cbn [kids_ok next_lo fmap list_fmap].
  - intros (_ & ? & _). split_and!; [done|apply increasing_nil|done].
  - intros (_ & Hlt & _ & Hk). destruct (IH (Some it'.1) it' Hk) as (H1 & H2 & H3). split_and!.
    + by eapply opt_lt_trans.
    + apply increasing_cons. split; [|done]. eapply Forall_impl; [exact H3|]. by intros ? [? _].
    + constructor; [done|]. eapply Forall_impl; [exact H3|]. intros k [? ?].
      split; [|done]. by eapply opt_lt_trans.
Qed.

(** ** Finding a child *)

Lemma lower_bound_pos (ks1 ks2 : list key) x : increasing compare (ks1 ++ ks2) ->
  Forall (fun y => compare y x <= 0) ks1 -> Forall (fun y => 0 < compare y x) ks2 ->
  let '(i, found) := lower_bound compare (ks1 ++ ks2) x in
  if found then length ks1 = S i /\ exists y, (ks1 ++ ks2) !! i = Some y /\ compare y x = 0 else i = length ks1.
Proof using Type.
  intros Hi H1 H2. pose proof (lower_bound_spec compare (ks1 ++ ks2) x (increasing_split _ _ _ Hi)) as H.
  destruct (lower_bound _ _ _) as [i found]. destruct H as (l1 & l2 & E & -> & Hl1 & Hl2).
  destruct found.
  - destruct Hl2 as (y & l2' & -> & Hy & Hl2'). split.
    + apply app_eq_inv in E as [(k & -> & E)|(k & -> & E)].
      * destruct k as [|z k]; cbn in E; simplify_eq.
        -- subst. apply Forall_cons in H2 as [? _]. lia.
        -- rewrite length_app. cbn. destruct k as [|w k]; [cbn; lia|].
           apply Forall_app in H1 as [_ H1]. apply Forall_app in Hl2' as [Hl2' _].
           apply Forall_cons in H1 as [_ H1]. apply Forall_cons in H1 as [? _]. apply Forall_cons in Hl2' as [? _]. lia.
      * subst. apply Forall_app in H2 as [_ H2]. apply Forall_cons in H2 as [? _]. lia.
    + exists y. rewrite E. split; [|done]. by rewrite lookup_app_r, Nat.sub_diag by lia.
  - apply app_eq_inv in E as [(k & -> & E)|(k & -> & E)].
    + destruct k as [|z k]; [by rewrite app_nil_r|]. subst. apply Forall_app in H1 as [_ H1].
      apply Forall_cons in H1 as [? _]. cbn in Hl2. apply Forall_cons in Hl2 as [? _]. lia.
    + destruct k as [|z k]; [by rewrite app_nil_r|]. subst. apply Forall_app in Hl1 as [_ Hl1].
      apply Forall_cons in Hl1 as [? _]. cbn in H2. apply Forall_cons in H2 as [? _]. lia.
Qed.

Lemma mid_le {h} P lo x (L : list (item h)) : kids_ok P lo (Some x) L ->
  Forall (fun y => compare y x < 0) (tail L.*1).
Proof using Type.
  destruct L as [|it L]; [done|]. intros H. apply kids_chain in H as (_ & _ & H).
  eapply Forall_impl; [exact H|]. by intros k [_ ?].
Qed.

Lemma internal_lookup_child {h} P lo hi L k (t : tree h) R x :
  kids_ok P lo hi (L ++ (k, t) :: R) ->
  in_range (mid lo L (Some k)) (next_lo hi R) x ->
  (internal_lookup (refs (L ++ (k, t) :: R)) x).1 = length L /\
  (opt_lt (mid lo L (Some k)) (Some x) -> (internal_lookup (refs (L ++ (k, t) :: R)) x).2 = S (length L)).
Proof using Type.
  intros Hk [Hlo Hhi].
  assert (exists ks1, tail (L ++ (k, t) :: R).*1 = ks1 ++ R.*1 /\ length ks1 = length L /\
    Forall (fun y => compare y x <= 0) ks1 /\
    (opt_lt (mid lo L (Some k)) (Some x) -> Forall (fun y => compare y x < 0) ks1)) as (ks1 & Et & El & Hks & Hks').
  { apply kids_ok_app in Hk as [Hk _]. apply mid_le in Hk. destruct L as [|it L]; [by exists []|].
    exists (L.*1 ++ [k]). cbn in Hlo, Hk |- *. rewrite fmap_app, <- app_assoc. split; [done|].
    rewrite length_app, length_fmap. split; [cbn; lia|]. split.
    - apply Forall_app; split; [|by constructor]. eapply Forall_impl; [exact Hk|].
      intros y Hy. cbn in *. pose proof (cmp_lt_le y k x Hy Hlo). lia.
    - intros Hlt. apply Forall_app; split; [|by constructor]. eapply Forall_impl; [exact Hk|].
      intros y Hy. cbn in *. by apply (cmp_lt_lt y k x). }
  assert (Forall (fun y => 0 < compare y x) R.*1) as HR.
  { apply kids_ok_app in Hk as [_ Hk]. cbn in Hk. destruct Hk as (_ & _ & _ & Hk).
    destruct R as [|it R]; [done|]. cbn [next_lo] in Hhi, Hk. pose proof (kids_chain _ _ _ _ _ Hk) as (_ & _ & Hc).
    cbn. constructor; [by apply cmp_flip_lt|]. eapply Forall_impl; [exact Hc|]. cbn. intros y [Hy _].
    apply cmp_flip_lt. by apply (cmp_lt_lt x it.1 y). }
  assert (increasing compare (ks1 ++ R.*1)) as Hinc.
  { rewrite <- Et. destruct (L ++ (k, t) :: R) as [|it l]; [apply increasing_nil|].
    by apply kids_chain in Hk as (_ & ? & _). }
  unfold internal_lookup. rewrite refs_keys, refs_length.
  destruct (Nat.eqb_spec (length (L ++ (k, t) :: R)) 0) as [E|_]; [rewrite length_app in E; cbn in E; lia|].
  pose proof (lower_bound_pos ks1 R.*1 x Hinc Hks HR) as Hlb. rewrite Et.
  assert (forall i, (L ++ (k, t) :: R).*1 !! S i = (ks1 ++ R.*1) !! i) as Hi.
  { intros i. rewrite <- Et. by destruct (L ++ (k, t) :: R). }
  destruct (lower_bound _ _ _) as [i found]. cbn [fst snd]. rewrite Hi. destruct found.
  - destruct Hlb as (E & y & Ey & Hy). rewrite Ey.
    assert (compare x y = 0) as -> by by apply cmp_flip_eq. cbn. split; [lia|]. intros Hlt.
    rewrite lookup_app_l in Ey by lia. pose proof (Forall_lookup_1 _ _ _ _ (Hks' Hlt) Ey) as Hy'. cbn in Hy'. lia.
  - subst i. rewrite lookup_app_r, Nat.sub_diag by lia. split; [|lia].
    destruct (R.*1 !! 0%nat) as [y|] eqn:Ey; [|lia].
    apply (Forall_lookup_1 _ _ _ _ HR) in Ey. apply cmp_flip_lt in Ey. destruct (Z.ltb_spec (compare x y) 0); lia.
Qed.

(** ** The invariant around a hole *)

Fixpoint lo_of {h} (c : ctx h) : option key :=
  match c with CTop => None | CFrame _ L k _ c' => mid (lo_of c') L (Some k) end.
Fixpoint hi_of {h} (c : ctx h) : option key :=
  match c with CTop => None | CFrame _ _ _ R c' => next_lo (hi_of c') R end.

(** What a frame promises about everything but its hole. *)
Definition frame_ok {h} lo hi (L : list (item h)) (k : key) (R : list (item h)) : Prop :=
  kids_ok (wf h) lo (Some k) L /\ match mid lo L (Some k) with Some x => k = x | None => True end /\
  opt_lt (mid lo L (Some k)) (next_lo hi R) /\ kids_ok (wf h) (next_lo hi R) hi R.

Lemma kids_ok_hole {h} lo hi L k (t : tree h) R :
  kids_ok (wf h) lo hi (L ++ (k, t) :: R) <->
  frame_ok lo hi L k R /\ wf h (mid lo L (Some k)) (next_lo hi R) t.2.
Proof using Type. rewrite kids_ok_app. unfold frame_ok. cbn. tauto. Qed.

Lemma kids_ok_weaken {h} (P P' : option key -> option key -> body h -> Prop) lo hi l :
  (forall lo hi b, P lo hi b -> P' lo hi b) -> kids_ok P lo hi l -> kids_ok P' lo hi l.
Proof using Type.
  intros HP. revert lo. induction l as [|it l IH]; intros lo; cbn; [done|].
  intros (? & ? & ? & ?). split_and!; eauto.
Qed.

(** The keys of a node are in order, whatever is in the hole. *)
Lemma frame_chain {h} lo hi L k (t : tree h) R :
  frame_ok lo hi L k R -> kids_ok (fun _ _ _ => True) lo hi (L ++ (k, t) :: R).
Proof using Type.
  intros (H1 & H2 & H3 & H4). apply kids_ok_app. split; [by eapply kids_ok_weaken; [|exact H1]|].
  cbn. split_and!; [done|done|done|]. by eapply kids_ok_weaken; [|exact H4].
Qed.

(** Two trees in the place of one. *)
Lemma kids_ok_pair {h} lo hi L k (t1 : tree h) k2 t2 R :
  kids_ok (wf h) lo hi (L ++ (k, t1) :: (k2, t2) :: R) <->
  frame_ok lo hi L k R /\ opt_lt (mid lo L (Some k)) (Some k2) /\ opt_lt (Some k2) (next_lo hi R) /\
  wf h (mid lo L (Some k)) (Some k2) t1.2 /\ wf h (Some k2) (next_lo hi R) t2.2.
Proof using Type.
  rewrite kids_ok_app. unfold frame_ok. cbn [kids_ok next_lo fst snd]. split; [|tauto].
  intros (? & ? & ? & ? & ? & ? & ? & ?). split_and!; try done. by eapply opt_lt_trans.
Qed.

(** Cutting a node in two. *)
Lemma kids_ok_cut {h} lo hi it (l1 : list (item h)) k0 t0 l2 : kids_ok (wf h) lo hi ((it :: l1) ++ (k0, t0) :: l2) ->
  kids_ok (wf h) lo (Some k0) (it :: l1) /\ kids_ok (wf h) (Some k0) hi ((k0, t0) :: l2) /\
  opt_lt lo (Some k0) /\ opt_lt (Some k0) hi.
Proof using Type.
  intros H. apply kids_ok_app in H as [H1 H2]. change (mid _ _ _) with (Some k0) in H2.
  split_and!; [done|done|by apply kids_chain in H1 as [? _]|by apply kids_chain in H2 as [? _]].
Qed.

Lemma leaf_wf_cut lo hi e1 b1 k0 r0 b2 : wf 0 lo hi ((e1 :: b1) ++ (k0, r0) :: b2) ->
  wf 0 lo (Some k0) (e1 :: b1) /\ wf 0 (Some k0) hi ((k0, r0) :: b2) /\ opt_lt lo (Some k0) /\ opt_lt (Some k0) hi.
Proof using Type.
  intros [Hi Hr]. rewrite fmap_app in *. apply increasing_app in Hi as (Hi1 & Hi2 & Hi). apply Forall_app in Hr as [Hr1 Hr2].
  pose proof Hi2 as Hi2'. apply increasing_cons in Hi2' as [Hgt _]. cbn [wf].
  assert (forall x, x ∈ (e1 :: b1).*1 -> compare x k0 < 0) as Hlt.
  { intros x Hx. rewrite Forall_forall in Hi. specialize (Hi x Hx). cbn in Hi. by apply Forall_cons in Hi as [? _]. }
  split_and!; [done| |done| | |].
  - apply Forall_forall. intros x Hx. rewrite Forall_forall in Hr1. split; [by apply Hr1|by apply Hlt].
  - cbn in *. constructor; [split; [rewrite cmp_refl; lia|by apply Forall_cons in Hr2 as [[_ ?] _]]|].
    apply Forall_cons in Hr2 as [_ Hr2]. eapply Forall_impl; [apply Forall_and; split; [exact Hr2|exact Hgt]|].
    intros y [[_ Hy] Hy']. split; [|done]. lia.
  - specialize (Hlt e1.1 ltac:(by left)). cbn in Hr1. apply Forall_cons in Hr1 as [[Hr1 _] _].
    destruct lo; [|done]. by eapply cmp_le_lt.
  - cbn in Hr2. by apply Forall_cons in Hr2 as [[_ ?] _].
Qed.

Fixpoint ctx_wf {h} (c : ctx h) : Prop :=
  match c with CTop => True | CFrame _ L k R c' => frame_ok (lo_of c') (hi_of c') L k R /\ ctx_wf c' end.

Lemma plug_wf {h} (c : ctx h) : forall t : tree h,
  wf _ None None (plug c t).2 <-> ctx_wf c /\ wf h (lo_of c) (hi_of c) t.2.
Proof using Type.
  induction c as [h|h pn L k R c IH]; intros t; cbn [plug ctx_wf lo_of hi_of]; [tauto|].
  rewrite IH, wf_S, kids_ok_hole. tauto.
Qed.

(** ** The entries of a valid tree *)

Lemma in_range_child lo mid_ hi k : (mid_ <> None /\ opt_lt mid_ hi) \/ mid_ = hi -> in_range lo mid_ k -> in_range lo hi k.
Proof using Type.
  intros Hm [H1 H2]. split; [done|]. destruct Hm as [[Hn Hm]| ->]; [|done].
  destruct hi as [y|], mid_ as [z|]; [|done..]. by apply (cmp_lt_lt k z y).
Qed.
Lemma in_range_later lo mid_ hi k : opt_lt lo mid_ -> in_range mid_ hi k -> mid_ <> None -> in_range lo hi k.
Proof using Type.
  intros Hm [H1 H2] Hn. split; [|done]. destruct lo as [x|], mid_ as [z|]; [|done..].
  cbn in Hm. pose proof (cmp_lt_le x z k Hm H1). lia.
Qed.

Lemma next_lo_hi {h} P hi (l : list (item h)) :
  kids_ok P (next_lo hi l) hi l -> (next_lo hi l <> None /\ opt_lt (next_lo hi l) hi) \/ next_lo hi l = hi.
Proof using Type. destruct l as [|it l]; [by right|]. intros H. left. split; [done|]. by apply kids_chain in H as [? _]. Qed.

Lemma flats_range {h} (IH : forall lo hi b, wf h lo hi b -> Forall (in_range lo hi) (flat h b).*1) hi l :
  forall lo, kids_ok (wf h) lo hi l -> Forall (in_range lo hi) (flats (h := h) l).*1.
Proof using Type.
  induction l as [|[k t] l IHl]; intros lo; [by constructor|]. intros (_ & Hlt & Hw & Hk).
  rewrite flats_cons, fmap_app. apply Forall_app. split.
  - eapply Forall_impl; [by apply IH|]. intros x. apply in_range_child. by eapply next_lo_hi.
  - destruct l as [|it l]; [by constructor|]. eapply Forall_impl; [by apply IHl|]. intros x Hx.
    by eapply in_range_later.
Qed.

Lemma flat_range h : forall lo hi b, wf h lo hi b -> Forall (in_range lo hi) (flat h b).*1.
Proof using Type.
  induction h as [|h IH]; intros lo hi b; [by intros [_ ?]|]. by apply flats_range.
Qed.

Lemma range_lt lo m hi (l1 l2 : list key) : Forall (in_range lo (Some m)) l1 -> Forall (in_range (Some m) hi) l2 ->
  Forall (fun x => Forall (fun y => compare x y < 0) l2) l1.
Proof using Type.
  intros H1 H2. eapply Forall_impl; [exact H1|]. intros x [_ Hx]. eapply Forall_impl; [exact H2|].
  intros y [Hy _]. by eapply cmp_lt_le.
Qed.

Lemma flat_increasing h : forall lo hi b, wf h lo hi b -> increasing compare (flat h b).*1.
Proof using Type.
  induction h as [|h IH]; intros lo hi b; [by intros [? _]|]. revert lo. change (body (S h)) with (list (item h)) in b.
  change (forall lo, kids_ok (wf h) lo hi b -> increasing compare (flats b).*1).
  induction b as [|[k t] l IHl]; intros lo; [intros _; apply increasing_nil|]. intros (_ & Hlt & Hw & Hk).
  rewrite flats_cons, fmap_app. apply increasing_app. split_and!; [by eapply IH|by eapply IHl|].
  destruct l as [|it l]; [by apply Forall_forall; constructor|]. cbn [next_lo] in *.
  eapply range_lt; [by eapply flat_range|]. eapply flats_range; [apply flat_range|exact Hk].
Qed.

Lemma in_range_up {h} lo hi L k (R : list (item h)) x : frame_ok lo hi L k R ->
  in_range (mid lo L (Some k)) (next_lo hi R) x -> in_range lo hi x.
Proof using Type.
  intros (HL & _ & Hlt & HR) Hx. eapply in_range_child; [by eapply next_lo_hi|].
  destruct L as [|it L]; [done|]. eapply in_range_later; [|exact Hx|done]. by apply kids_chain in HL as [? _].
Qed.

(** Everything outside the hole is on its side of a key that belongs in the hole. *)
Lemma ctx_sides {h} (c : ctx h) x : ctx_wf c -> in_range (lo_of c) (hi_of c) x ->
  Forall (fun y => compare y x < 0) (left_of c).*1 /\ Forall (fun y => 0 < compare y x) (right_of c).*1.
Proof using Type.
  induction c as [h|h pn L k R c IH]; cbn [ctx_wf lo_of hi_of left_of right_of]; [by intros|].
  intros [Hf Hc] Hx. destruct (IH Hc (in_range_up _ _ _ _ _ _ Hf Hx)) as [H1 H2].
  destruct Hf as (HL & _ & _ & HR). destruct Hx as [Hlo Hhi].
  rewrite !fmap_app, !Forall_app. split_and!; [done| | |done].
  - apply flats_range in HL; [|apply flat_range]. destruct L as [|it L]; [by constructor|].
    eapply Forall_impl; [exact HL|]. intros y [_ Hy]. by eapply cmp_lt_le.
  - apply flats_range in HR; [|apply flat_range]. destruct R as [|it R]; [by constructor|]. cbn [next_lo] in *.
    eapply Forall_impl; [exact HR|]. intros y [Hy _]. apply cmp_flip_lt. by eapply cmp_lt_le.
Qed.
End order.

(** ** Occupancy *)

Section sizes.
Context {KO : KeyOrder} (hd : IndexFileHeader).

Definition max_of (h : nat) : nat := match h with O => hd.(leaf_max_size) | S _ => hd.(internal_max_size) end.
Definition least (top : bool) (h : nat) : nat :=
  if top then match h with O => 1 | S _ => 2 end%nat else (max_of h / 2)%nat.
Definition blen {h} : body h -> nat := match h with O => fun b => length b | S _ => fun b => length b end.

(** Every node but the root is at least half full, rounded down. *)
Fixpoint sized (top : bool) (h : nat) : body h -> Prop :=
  match h with
  | O => fun b => (least top 0 <= length b <= max_of 0)%nat
  | S h' => fun b => (least top (S h') <= length b <= max_of (S h'))%nat /\ Forall (fun it => sized false h' it.2.2) b
  end.
Definition kids_sized {h} (l : list (item h)) : Prop := Forall (fun it => sized false h it.2.2) l.

Lemma sized_S {h} top pn (l : list (item h)) :
  sized top (S h) (TN pn l).2 = ((least top (S h) <= length l <= max_of (S h))%nat /\ kids_sized l).
Proof using Type. done. Qed.

Definition is_top {h} (c : ctx h) : bool := match c with CTop => true | _ => false end.

Fixpoint ctx_sized {h} (c : ctx h) : Prop :=
  match c with
  | CTop => True
  | CFrame _ L _ R c' =>
      kids_sized L /\ kids_sized R /\
      (least (is_top c') (S h) <= S (length L + length R) <= max_of (S h))%nat /\ ctx_sized c'
  end.

Lemma plug_sized {h} (c : ctx h) : forall t : tree h,
  sized true _ (plug c t).2 <-> ctx_sized c /\ sized (is_top c) h t.2.
Proof using Type.
  induction c as [h|h pn L k R c IH]; intros t; cbn [plug ctx_sized is_top]; [tauto|].
  rewrite IH, sized_S. unfold kids_sized. rewrite Forall_app, Forall_cons, length_app. cbn [length snd].
  rewrite Nat.add_succ_r. tauto.
Qed.

(** A tree has a page on every level. *)
Lemma least_pos top h : (2 <= internal_max_size hd)%nat -> (1 <= least top (S h))%nat.
Proof using Type. intros H. unfold least. destruct top; [lia|]. apply Nat.div_le_lower_bound; cbn; lia. Qed.

Lemma nodes_of_length h : forall top par nxt (t : tree h), (2 <= internal_max_size hd)%nat ->
  sized top h t.2 -> (h < length (nodes_of h par nxt t))%nat.
Proof using Type.
  induction h as [|h IH]; intros top par nxt [pn b]; [cbn; lia|]. intros Hm.
  change (pn, b) with (TN pn b). rewrite sized_S, nodes_of_S. intros [Hl Hk].
  pose proof (least_pos top h Hm). destruct b as [|[k t] b]; [cbn [length] in Hl; lia|].
  rewrite kids_nodes_cons. cbn [length]. rewrite length_app.
  apply Forall_cons in Hk as [Ht _]. pose proof (IH false pn (first_of nxt b) t Hm Ht). lia.
Qed.
End sizes.

(** ** Joining and cutting nodes of any height *)

Section join.
Context {KO : KeyOrder} (hd : IndexFileHeader).
Implicit Types lo hi : option key.

Definition join {h} : body h -> body h -> body h :=
  match h with O => fun b1 b2 => b1 ++ b2 | S _ => fun b1 b2 => b1 ++ b2 end.
Definition head_key {h} : body h -> option key :=
  match h with O => fun b => fst <$> head b | S _ => fun b => fst <$> head b end.
Definition inner_sized {h} : body h -> Prop :=
  match h with O => fun _ => True | S _ => fun b => kids_sized hd b end.

Lemma sized_blen top h (b : body h) :
  sized hd top h b <-> (least hd top h <= blen b <= max_of hd h)%nat /\ inner_sized b.
Proof using Type. destruct h; cbn; [tauto|done]. Qed.

Lemma blen_join {h} (b1 b2 : body h) : blen (join b1 b2) = (blen b1 + blen b2)%nat.
Proof using Type. destruct h; apply length_app. Qed.
Lemma inner_sized_join {h} (b1 b2 : body h) : inner_sized (join b1 b2) <-> inner_sized b1 /\ inner_sized b2.
Proof using Type. destruct h; [cbn; tauto|apply Forall_app]. Qed.
Lemma flat_join {h} (b1 b2 : body h) : flat h (join b1 b2) = flat h b1 ++ flat h b2.
Proof using Type. destruct h; [done|apply (flats_app b1 b2)]. Qed.
Lemma root_node_size {h} par nxt (t : tree h) : node_size (root_node h par nxt t) = blen t.2.
Proof using Type. destruct h; [done|]. cbn. apply refs_length. Qed.
Lemma root_node_leaf {h} par nxt (t : tree h) :
  is_leaf (root_node h par nxt t) = match h with O => true | S _ => false end.
Proof using Type. by destruct h. Qed.

(** Two neighbours around a separator make one node. *)
Lemma wf_join {h} lo k hi (b1 b2 : body h) : (0 < blen b1)%nat -> (0 < blen b2)%nat ->
  opt_lt lo (Some k) -> opt_lt (Some k) hi ->
  wf h lo (Some k) b1 -> wf h (Some k) hi b2 -> wf h lo hi (join b1 b2).
Proof using Type.
  destruct h as [|h]; intros Hb1 Hb2 Hlo Hhi.
  - intros [Hi1 Hr1] [Hi2 Hr2]. cbn [wf join]. rewrite fmap_app, increasing_app, Forall_app. split_and!; [done|done| | |].
    + by eapply range_lt.
    + eapply Forall_impl; [exact Hr1|]. intros x. apply in_range_child. by left.
    + eapply Forall_impl; [exact Hr2|]. intros x Hx. by eapply in_range_later.
  - change (kids_ok (wf h) lo (Some k) b1 -> kids_ok (wf h) (Some k) hi b2 -> kids_ok (wf h) lo hi (b1 ++ b2)).
    intros H1 H2. destruct b1 as [|i1 b1]; [cbn in Hb1; lia|]. destruct b2 as [|[k2 t2] b2]; [cbn in Hb2; lia|].
    pose proof H2 as (E & _). cbn in E. subst k2. by apply kids_ok_app.
Qed.

Lemma wf_cut {h} lo hi (b1 b2 : body h) k0 : (0 < blen b1)%nat -> head_key b2 = Some k0 -> wf h lo hi (join b1 b2) ->
  wf h lo (Some k0) b1 /\ wf h (Some k0) hi b2 /\ opt_lt lo (Some k0) /\ opt_lt (Some k0) hi.
Proof using Type.
  destruct h as [|h]; intros Hb1 Hb2.
  - destruct b1 as [|e1 b1]; [cbn in Hb1; lia|]. destruct b2 as [|[k r] b2]; [done|]. cbn in Hb2. injection Hb2 as ->.
    apply leaf_wf_cut.
  - destruct b1 as [|e1 b1]; [cbn in Hb1; lia|]. destruct b2 as [|[k t] b2]; [done|]. cbn in Hb2. injection Hb2 as ->.
    apply (kids_ok_cut lo hi e1 b1 k0 t b2).
Qed.

Lemma first_leaf_join {h} nx l r (b1 b2 : body h) :
  first_leaf h nx (l, join b1 b2) = first_leaf h (first_leaf h nx (r, b2)) (l, b1).
Proof using Type. destruct h; [done|]. apply (first_of_app nx b1 b2). Qed.

Lemma sized_top h (b : body h) : (2 <= leaf_max_size hd)%nat -> (4 <= internal_max_size hd)%nat ->
  sized hd false h b -> sized hd true h b.
Proof using Type.
  intros Hl Hi. rewrite !sized_blen. intros [[H1 H2] H3]. split; [|done]. split; [|done].
  etrans; [|exact H1]. unfold least. destruct h; cbn [max_of]; apply Nat.div_le_lower_bound; lia.
Qed.

End join.

Definition same_sizes (hd hd' : IndexFileHeader) : Prop :=
  hd'.(internal_max_size) = hd.(internal_max_size) /\ hd'.(leaf_max_size) = hd.(leaf_max_size).

Lemma sized_same {KO : KeyOrder} hd hd' top h (b : body h) : same_sizes hd hd' -> sized hd top h b -> sized hd' top h b.
Proof. destruct hd, hd'. intros [E1 E2]. cbn in E1, E2. by subst. Qed.
