(* ===== verification/BplusStep.v ===== *)
(** * BplusStep: the page operations of the index as proof rules

    A weakest-precondition reading of the index's effects ([wp]), with one rule for
    each primitive over the pages a state owns, and the rules for the loops and
    searches every operation shares: telling children their parent, finding a leaf. *)

From S2P Require Import Prelude RecordPage PageAlloc Compare BplusTree BplusInv.

Section rules.
Context {KO : KeyOrder} {A : Type} {PA : PageAllocator A}.
#[local] Abbreviation BTree := (@BplusTree.BTree KO A).
#[local] Abbreviation M := (@BplusTree.M KO A).
(** Pages that belong to others, and the number of pages the index may use. *)
Context (base : gset Z) (tot : Z).

(** [m] neither fails an assertion nor leaves [Q]. *)
Definition wp {X} (m : M X) (s : BTree) (Q : RC + X -> BTree -> Prop) : Prop :=
  match m s with None => False | Some (r, s') => Q r s' end.

Definition owns (hd : IndexFileHeader) (s : BTree) (l : list (Z * Node)) : Prop :=
  s.(file_header) = hd /\ own s.(nodes) l /\
  pa_ok s.(alloc) /\ pa_pages s.(alloc) = base ∪ dom s.(nodes) /\ base ## dom s.(nodes) /\
  pa_free s.(alloc) + Z.of_nat (size s.(nodes)) = tot.

Lemma owns_perm hd s l l' : l' ≡ₚ l -> owns hd s l -> owns hd s l'.
Proof using Type. intros Hp (? & ? & ?). split_and!; try tauto. by eapply own_perm. Qed.

Lemma owns_pos hd s p n l : owns hd s ((p, n) :: l) -> 0 < p.
Proof using Type. intros (_ & H & _). by eapply own_pos. Qed.

Lemma owns_size hd s l : owns hd s l -> size s.(nodes) = length l.
Proof using Type. intros (_ & H & _). by apply own_size. Qed.

Lemma wp_bind {X Y} (m : M X) (f : X -> M Y) s Q :
  wp m s (fun r s' => match r with inl rc => Q (inl rc) s' | inr x => wp (f x) s' Q end) -> wp (m ≫= f) s Q.
Proof using Type.
  unfold wp, mbind, M_bind. destruct (m s) as [[[rc|x] s']|]; [done..|done].
Qed.

Lemma wp_ret {X} (x : X) s (Q : RC + X -> BTree -> Prop) : Q (inr x) s -> wp (mret x) s Q.
Proof using Type. done. Qed.

Lemma wp_header hd s l (Q : RC + IndexFileHeader -> BTree -> Prop) :
  owns hd s l -> Q (inr hd) s -> wp get_header s Q.
Proof using Type. intros (<- & _) HQ. exact HQ. Qed.

Lemma wp_get hd s p n l Q : owns hd s ((p, n) :: l) -> Q (inr n) s -> wp (get_page p) s Q.
Proof using Type.
  intros (_ & H & _) HQ. unfold wp, get_page. by rewrite (own_lookup _ _ _ _ H).
Qed.

Lemma wp_put hd s p n n' l (Q : RC + unit -> BTree -> Prop) : owns hd s ((p, n) :: l) ->
  (forall s', owns hd s' ((p, n') :: l) -> Q (inr ()) s') -> wp (put_page p n') s Q.
Proof using Type.
  intros (Hd & H & Ha & Hp & Hb & Hf) HQ. apply HQ.
  assert (p ∈ dom s.(nodes)) as Hin by (apply elem_of_dom; eexists; by eapply own_lookup).
  assert (dom (<[p := n']> s.(nodes)) = dom s.(nodes)) as E by (rewrite dom_insert_L; set_solver).
  split_and!; cbn; [done|by eapply own_update|done|by rewrite E|by rewrite E|].
  rewrite map_size_insert_Some; [done|]. eexists. by eapply own_lookup.
Qed.

Lemma wp_alloc hd s n l (Q : RC + Z -> BTree -> Prop) : owns hd s l -> Z.of_nat (size s.(nodes)) < tot ->
  (forall p s', owns hd s' ((p, n) :: l) -> Q (inr p) s') -> wp (allocate_page n) s Q.
Proof using Type.
  intros (Hd & H & Ha & Hp & Hb & Hf) Hr HQ.
  destruct (pa_allocate_spec s.(alloc) Ha ltac:(lia)) as (p & a' & E & Hpos & Hni & Ha' & Hpg & Hfr).
  unfold wp, allocate_page. rewrite E. apply HQ.
  rewrite Hp in Hni. assert (p ∉ dom s.(nodes)) as Hnd by set_solver.
  split_and!; cbn; [done|by apply own_alloc|done|rewrite dom_insert_L; set_solver|rewrite dom_insert_L; set_solver|].
  rewrite map_size_insert_None by by apply not_elem_of_dom. lia.
Qed.

Lemma wp_free hd s p n l (Q : RC + unit -> BTree -> Prop) : owns hd s ((p, n) :: l) ->
  (forall s', owns hd s' l -> Q (inr ()) s') -> wp (dispose_page p) s Q.
Proof using Type.
  intros (Hd & H & Ha & Hp & Hb & Hf) HQ. pose proof (own_lookup _ _ _ _ H) as Hl.
  assert (p ∈ dom s.(nodes)) as Hin by (apply elem_of_dom; by eexists).
  destruct (pa_dispose_spec s.(alloc) p Ha) as (a' & E & Ha' & Hpg & Hfr); [rewrite Hp; set_solver|by eapply own_pos|].
  unfold wp, dispose_page. rewrite E. apply HQ.
  split_and!; cbn; [done|by eapply own_free|done| |rewrite dom_delete_L; set_solver|].
  - rewrite Hpg, Hp, dom_delete_L. set_solver.
  - rewrite map_size_delete_Some by done. pose proof (own_size _ _ H) as Hsz. cbn in Hsz. lia.
Qed.

Lemma wp_root hd s l pn (Q : RC + unit -> BTree -> Prop) : owns hd s l ->
  (forall s', owns (mkHeader pn hd.(internal_max_size) hd.(leaf_max_size)) s' l -> Q (inr ()) s') ->
  wp (update_root_page_num pn) s Q.
Proof using Type. intros (<- & H) HQ. apply HQ. by split. Qed.

Lemma wp_get_leaf hd s p par nxt its l (Q : RC + (Z * Z * list (key * RID)) -> BTree -> Prop) :
  owns hd s ((p, LeafNode par nxt its) :: l) -> Q (inr (par, nxt, its)) s -> wp (get_leaf p) s Q.
Proof using Type. intros H HQ. apply wp_bind. by eapply wp_get. Qed.

Lemma wp_get_internal hd s p par its l (Q : RC + (Z * list (key * Z)) -> BTree -> Prop) :
  owns hd s ((p, InternalNode par its) :: l) -> Q (inr (par, its)) s -> wp (get_internal p) s Q.
Proof using Type. intros H HQ. apply wp_bind. by eapply wp_get. Qed.

(** The same, with the page behind others in the list. *)
Lemma wp_get_leaf_mid hd s l1 p par nxt its l (Q : RC + (Z * Z * list (key * RID)) -> BTree -> Prop) :
  owns hd s (l1 ++ (p, LeafNode par nxt its) :: l) -> Q (inr (par, nxt, its)) s -> wp (get_leaf p) s Q.
Proof using Type. intros H. eapply wp_get_leaf, owns_perm, H. apply Permutation_middle. Qed.
Lemma wp_get_internal_mid hd s l1 p par its l (Q : RC + (Z * list (key * Z)) -> BTree -> Prop) :
  owns hd s (l1 ++ (p, InternalNode par its) :: l) -> Q (inr (par, its)) s -> wp (get_internal p) s Q.
Proof using Type. intros H. eapply wp_get_internal, owns_perm, H. apply Permutation_middle. Qed.
Lemma wp_put_mid hd s l1 p n n' l (Q : RC + unit -> BTree -> Prop) : owns hd s (l1 ++ (p, n) :: l) ->
  (forall s', owns hd s' (l1 ++ (p, n') :: l) -> Q (inr ()) s') -> wp (put_page p n') s Q.
Proof using Type.
  intros H HQ. eapply wp_put; [eapply owns_perm, H; apply Permutation_middle|].
  intros s' H'. apply HQ. eapply owns_perm, H'. symmetry. apply Permutation_middle.
Qed.

Lemma wp_at {I} (l : list I) i x s (Q : RC + I -> BTree -> Prop) :
  l !! i = Some x -> Q (inr x) s -> wp (at_index l i) s Q.
Proof using Type. intros H HQ. unfold at_index. by rewrite H. Qed.

Lemma wp_set_parent hd s h par par' nxt (t : tree h) l (Q : RC + unit -> BTree -> Prop) :
  owns hd s (nodes_of h par nxt t ++ l) ->
  (forall s', owns hd s' (nodes_of h par' nxt t ++ l) -> Q (inr ()) s') ->
  wp (set_parent_page_num t.1 par') s Q.
Proof using Type.
  intros H HQ. rewrite nodes_of_root in H. apply wp_bind. eapply wp_get; [exact H|].
  eapply wp_put; [exact H|]. intros s' H'. apply HQ. rewrite root_node_parent in H'. by rewrite nodes_of_root.
Qed.

Lemma wp_set_parent_mid hd s l1 h par par' nxt (t : tree h) l (Q : RC + unit -> BTree -> Prop) :
  owns hd s (l1 ++ nodes_of h par nxt t ++ l) ->
  (forall s', owns hd s' (l1 ++ nodes_of h par' nxt t ++ l) -> Q (inr ()) s') ->
  wp (set_parent_page_num t.1 par') s Q.
Proof using Type.
  intros H HQ. apply (wp_set_parent hd s h par par' nxt t (l1 ++ l)); [eapply owns_perm; [|exact H]; perm|].
  intros s' H'. apply HQ. eapply owns_perm; [|exact H']. perm.
Qed.

Lemma wp_get_tree hd s l1 h par nxt (t : tree h) l Q : owns hd s (l1 ++ nodes_of h par nxt t ++ l) ->
  Q (inr (root_node h par nxt t)) s -> wp (get_page t.1) s Q.
Proof using Type.
  intros H. apply (wp_get hd s t.1 _ (l1 ++ below h nxt t ++ l)). eapply owns_perm; [|exact H]. rewrite nodes_of_root. perm.
Qed.

Lemma wp_set_parents hd {h} par par' nxt (l : list (item h)) F : forall s (Q : RC + unit -> BTree -> Prop),
  owns hd s (kids_nodes par nxt l ++ F) ->
  (forall s', owns hd s' (kids_nodes par' nxt l ++ F) -> Q (inr ()) s') ->
  wp (set_parents (refs l) par') s Q.
Proof using Type.
  revert F. induction l as [|[k t] l IH]; intros F s Q H HQ; [by apply HQ|].
  rewrite refs_cons. cbn [set_parents]. apply wp_bind. rewrite kids_nodes_cons, <- app_assoc in H.
  eapply wp_set_parent; [exact H|]. intros s1 H1.
  eapply (IH (nodes_of h par' (first_of nxt l) t ++ F)); [eapply owns_perm; [|exact H1]; perm|].
  intros s2 H2. apply HQ. eapply owns_perm; [|exact H2]. rewrite kids_nodes_cons. perm.
Qed.

Lemma wp_set_parents_app l1 l2 par : forall s (Q : RC + unit -> BTree -> Prop),
  wp (set_parents l1 par) s
    (fun r s' => match r with inl rc => Q (inl rc) s' | inr _ => wp (set_parents l2 par) s' Q end) ->
  wp (set_parents (l1 ++ l2) par) s Q.
Proof using Type.
  induction l1 as [|[k c] l1 IH]; intros s Q H; [exact H|]. cbn [app set_parents] in *.
  apply wp_bind. unfold wp at 1 in H. unfold mbind, M_bind in H. unfold wp at 1.
  destruct (set_parent_page_num c par s) as [[[rc|u] s1]|]; [done| |done]. by apply IH.
Qed.

(** ** Search *)

Lemma kids_locate {h} P lo hi (l : list (item h)) x : l <> [] -> in_range lo hi x -> kids_ok P lo hi l ->
  exists L k t R, l = L ++ (k, t) :: R /\ in_range (mid lo L (Some k)) (next_lo hi R) x.
Proof using Type.
  revert lo. induction l as [|[k t] l IH]; intros lo; [done|]. intros _ Hx (Hh & _ & _ & Hk).
  destruct l as [|[k' t'] l].
  - exists [], k, t, []. by split.
  - cbn [next_lo fst] in Hk. destruct (Z.lt_ge_cases (compare x k') 0) as [Hlt|Hge].
    + exists [], k, t, ((k', t') :: l). split; [done|]. split; [apply Hx|done].
    + destruct (IH (Some k') ltac:(done)) as (L & k1 & t1 & R & E & Hr); [|exact Hk|].
      { split; [by apply cmp_flip_le|apply Hx]. }
      exists ((k, t) :: L), k1, t1, R. split; [by rewrite E|]. cbn [mid].
      destruct L; [|exact Hr]. cbn in E. injection E as -> -> ->. exact Hr.
Qed.

(** A tree with its height. *)
Definition stree : Type := sigT (fun h => tree h).
Definition splug {h} (c : ctx h) (t : tree h) : stree := existT (top_height c) (plug c t).

Lemma splug_frame {h} pn L k R (c : ctx (S h)) (t : tree h) :
  splug (CFrame pn L k R c) t = splug c (TN pn (L ++ (k, t) :: R)).
Proof using Type. done. Qed.

(** The pages of a focused tree. *)
Definition focus {h} (c : ctx h) (t : tree h) : list (Z * Node) :=
  nodes_of h (parent_of c) (nxt_of c) t ++ ctx_nodes c t.1 (first_leaf h (nxt_of c) t).

Lemma focus_frame {h} pn L k R (c : ctx (S h)) (t : tree h) :
  focus c (TN pn (L ++ (k, t) :: R)) ≡ₚ focus (CFrame pn L k R c) t.
Proof using Type. apply (ctx_nodes_step pn L k R c t). Qed.

Lemma focus_plug {h} (c : ctx h) (t : tree h) : focus CTop (plug c t) ≡ₚ focus c t.
Proof using Type. unfold focus at 1. cbn. rewrite app_nil_r. apply plug_nodes. Qed.

Lemma find_leaf_from_ok hd x : (2 <= internal_max_size hd)%nat -> forall h fuel (c : ctx h) (t : tree h) top s,
  owns hd s (focus c t) -> sized hd top h t.2 -> wf h (lo_of c) (hi_of c) t.2 ->
  in_range (lo_of c) (hi_of c) x -> (h < fuel)%nat ->
  exists (c0 : ctx 0) pn its, find_leaf_from fuel (fun its => (internal_lookup its x).1) t.1 s = Some (inr pn, s) /\
    splug c t = splug c0 (pn, its) /\ in_range (lo_of c0) (hi_of c0) x /\ depth c0 = (h + depth c)%nat.
Proof using Type.
  intros Hm. induction h as [|h IH]; intros fuel c [pn b] top s Ho Hs Hw Hx Hf; (destruct fuel as [|fuel]; [lia|]).
  - exists c, pn, b. split_and!; [|done|done|done].
    assert (wp (find_leaf_from (S fuel) (fun its => (internal_lookup its x).1) pn) s (fun r s' => r = inr pn /\ s' = s)) as H.
    { apply wp_bind. eapply wp_get; [exact Ho|]. done. }
    unfold wp in H. cbn [fst]. destruct (find_leaf_from _ _ _ _) as [[r s']|]; [|done]. by destruct H as [-> ->].
  - change (pn, b) with (TN (h := h) pn b) in *. rewrite sized_S in Hs. rewrite wf_S in Hw. destruct Hs as [Hl Hk].
    pose proof (least_pos hd top h Hm). destruct (kids_locate _ _ _ b x ltac:(by intros ->; cbn in *; lia) Hx Hw)
      as (L & k & t & R & -> & Hr).
    pose proof (internal_lookup_child _ _ _ _ _ _ _ _ Hw Hr) as [Hi _].
    apply kids_ok_hole in Hw as [_ Hw]. apply Forall_app in Hk as [_ Hk]. apply Forall_cons in Hk as [Ht _].
    destruct (IH fuel (CFrame pn L k R c) t false s) as (c0 & pn0 & its & E & Hp & Hr' & Hd);
      [eapply owns_perm; [|exact Ho]; by rewrite <- focus_frame|done|done|done|lia|].
    exists c0, pn0, its. split_and!; [|by rewrite <- Hp|done|cbn [depth] in Hd; lia].
    rewrite <- E. unfold focus in Ho. rewrite nodes_of_S in Ho.
    cbn [find_leaf_from fst TN]. unfold mbind, M_bind, get_page at 1. destruct Ho as (_ & Ho & _).
    rewrite (own_lookup _ _ _ _ Ho). rewrite Hi. unfold at_index. rewrite refs_app, refs_cons.
    rewrite lookup_app_r by (rewrite refs_length; done). rewrite refs_length, Nat.sub_diag. done.
Qed.

(** ** The specification: a sorted list of entries *)

Fixpoint sorted_insert (k : key) (rid : RID) (es : list (key * RID)) : option (list (key * RID)) :=
  match es with
  | [] => Some [(k, rid)]
  | e :: es' =>
      if compare e.1 k =? 0 then None
      else if compare e.1 k <? 0 then cons e <$> sorted_insert k rid es'
      else Some ((k, rid) :: es)
  end.
Fixpoint sorted_delete (k : key) (es : list (key * RID)) : option (list (key * RID)) :=
  match es with
  | [] => None
  | e :: es' => if compare e.1 k =? 0 then Some es' else cons e <$> sorted_delete k es'
  end.

Lemma sorted_insert_at k rid es1 es2 :
  Forall (fun y => compare y k < 0) es1.*1 -> Forall (fun y => 0 < compare y k) es2.*1 ->
  sorted_insert k rid (es1 ++ es2) = Some (es1 ++ (k, rid) :: es2).
Proof using Type.
  intros H1 H2. induction es1 as [|e es1 IH]; cbn in *.
  - destruct es2 as [|e es2]; [done|]. cbn in *. apply Forall_cons in H2 as [H2 _].
    destruct (Z.eqb_spec (compare e.1 k) 0); [lia|]. destruct (Z.ltb_spec (compare e.1 k) 0); [lia|done].
  - apply Forall_cons in H1 as [H H1]. destruct (Z.eqb_spec (compare e.1 k) 0); [lia|].
    destruct (Z.ltb_spec (compare e.1 k) 0); [|lia]. by rewrite IH.
Qed.

Lemma sorted_insert_dup k rid es1 e es2 : Forall (fun y => compare y k < 0) es1.*1 -> compare e.1 k = 0 ->
  sorted_insert k rid (es1 ++ e :: es2) = None.
Proof using Type.
  intros H1 H2. induction es1 as [|e1 es1 IH]; cbn in *; [by rewrite H2|].
  apply Forall_cons in H1 as [H H1]. destruct (Z.eqb_spec (compare e1.1 k) 0); [lia|].
  destruct (Z.ltb_spec (compare e1.1 k) 0); [|lia]. by rewrite IH.
Qed.

Lemma sorted_delete_at k es1 e es2 : Forall (fun y => compare y k < 0) es1.*1 -> compare e.1 k = 0 ->
  sorted_delete k (es1 ++ e :: es2) = Some (es1 ++ es2).
Proof using Type.
  intros H1 H2. induction es1 as [|e1 es1 IH]; cbn in *; [by rewrite H2|].
  apply Forall_cons in H1 as [H H1]. destruct (Z.eqb_spec (compare e1.1 k) 0); [lia|]. by rewrite IH.
Qed.

Lemma sorted_delete_none k es : Forall (fun y => compare y k <> 0) es.*1 -> sorted_delete k es = None.
Proof using Type.
  induction es as [|e es IH]; cbn; [done|]. intros [H H']%Forall_cons.
  destruct (Z.eqb_spec (compare e.1 k) 0); [done|]. by rewrite IH.
Qed.

(** ** The index *)

(** The index holds the entries [es], in key order, in a tree of height [h]. *)
Definition index_ok (hd : IndexFileHeader) (h : nat) (s : BTree) (es : list (key * RID)) : Prop :=
  exists t : tree h, owns hd s (nodes_of h BP_INVALID_PAGE_NUM BP_INVALID_PAGE_NUM t) /\
    hd.(root_page) = t.1 /\ wf h None None t.2 /\ sized hd true h t.2 /\ es = flat h t.2.

Definition index_empty (hd : IndexFileHeader) (s : BTree) : Prop :=
  hd.(root_page) = BP_INVALID_PAGE_NUM /\ owns hd s [].

(** The index [s], with the given node capacities and a tree of height [h], holds the
    entries [es].  [base] are the pages of its file that are not nodes, [tot] the nodes
    the file has room for. *)
Definition index_repr (imax lmax h : nat) (s : BTree) (es : list (key * RID)) : Prop :=
  exists hd, hd.(internal_max_size) = imax /\ hd.(leaf_max_size) = lmax /\
    ((index_empty hd s /\ es = [] /\ h = O) \/ index_ok hd h s es).

Definition stree_ok (hd : IndexFileHeader) (s : BTree) (es : list (key * RID)) (T : stree) : Prop :=
  let t := projT2 T in
  owns hd s (nodes_of _ BP_INVALID_PAGE_NUM BP_INVALID_PAGE_NUM t) /\
  hd.(root_page) = t.1 /\ wf _ None None t.2 /\ sized hd true _ t.2 /\ es = flat _ t.2.

Fixpoint root_of {h} (c : ctx h) (hpn : Z) : Z :=
  match c with CTop => hpn | CFrame pn _ _ _ c' => root_of c' pn end.
Lemma root_of_plug {h} (c : ctx h) : forall t, (plug c t).1 = root_of c t.1.
Proof using Type. induction c as [h|h pn L k R c IH]; intros t; [done|]. cbn. by rewrite IH. Qed.

Lemma focus_index_ok hd {h} (c : ctx h) (t : tree h) s : owns hd s (focus c t) ->
  hd.(root_page) = root_of c t.1 -> ctx_wf c -> wf h (lo_of c) (hi_of c) t.2 ->
  ctx_sized hd c -> sized hd (is_top c) h t.2 ->
  index_ok hd (top_height c) s (left_of c ++ flat h t.2 ++ right_of c).
Proof using Type.
  intros Ho Hr Hcw Hw Hcs Hs. exists (plug c t). split_and!.
  - eapply owns_perm; [|exact Ho]. apply plug_nodes.
  - by rewrite root_of_plug.
  - by apply plug_wf.
  - by apply plug_sized.
  - by rewrite plug_flat.
Qed.

(** What a valid index says of a node in it and of the node's surroundings. *)
Lemma stree_ok_focus hd s es {h} (c : ctx h) (t : tree h) : stree_ok hd s es (splug c t) ->
  owns hd s (focus c t) /\ hd.(root_page) = root_of c t.1 /\ ctx_wf c /\ wf h (lo_of c) (hi_of c) t.2 /\
  ctx_sized hd c /\ sized hd (is_top c) h t.2 /\ es = left_of c ++ flat h t.2 ++ right_of c.
Proof using Type.
  intros (Ho & Hr & Hw & Hs & ->). cbn [projT2 splug projT1] in *. apply plug_wf in Hw as [? ?]. apply plug_sized in Hs as [? ?].
  split_and!; [|by rewrite <- root_of_plug|done|done|done|done|apply plug_flat].
  eapply owns_perm; [|exact Ho]. symmetry. apply plug_nodes.
Qed.

(** [find_leaf] on a valid index. *)
Lemma find_leaf_ok hd h s es x : (2 <= internal_max_size hd)%nat -> index_ok hd h s es ->
  exists (c : ctx 0) pn its, find_leaf (tree_fuel s) x s = Some (inr pn, s) /\
    stree_ok hd s es (splug c (pn, its)) /\ in_range (lo_of c) (hi_of c) x /\ depth c = h /\ top_height c = h /\
    (h < tree_fuel s)%nat.
Proof using Type.
  intros Hm (t & Ho & Hr & Hw & Hs & ->).
  assert (h < tree_fuel s)%nat as Hf.
  { unfold tree_fuel. rewrite (owns_size _ _ _ Ho).
    pose proof (nodes_of_length hd h true BP_INVALID_PAGE_NUM BP_INVALID_PAGE_NUM t Hm Hs). lia. }
  destruct (find_leaf_from_ok hd x Hm h (tree_fuel s) CTop t true s) as (c & pn & its & E & Hp & Hx & Hd); try done.
  { eapply owns_perm; [|exact Ho]. unfold focus. cbn. by rewrite app_nil_r. }
  exists c, pn, its. cbn [depth] in Hd. rewrite top_height_depth. split_and!; [| |done|lia|lia|done].
  - unfold find_leaf, find_leaf_internal, mbind, M_bind. pose proof Ho as (Hh & _). unfold get_header. rewrite Hh.
    rewrite nodes_of_root in Ho. apply owns_pos in Ho. rewrite Hr.
    destruct (Z.eqb_spec t.1 BP_INVALID_PAGE_NUM) as [E'|_]; [rewrite E' in Ho; done|done].
  - rewrite <- Hp. by split_and!.
Qed.

(** The search in the leaf that [find_leaf] reaches. *)
Lemma leaf_lookup_ok {h} (c : ctx h) lo hi its x : ctx_wf c -> in_range (lo_of c) (hi_of c) x -> wf 0 lo hi its ->
  let '(i, found) := leaf_lookup its x in
  exists l1 l2, its = l1 ++ l2 /\ i = length l1 /\ Forall (fun y => compare y x < 0) (left_of c ++ l1).*1 /\
    if found then exists e l2', l2 = e :: l2' /\ compare e.1 x = 0 /\ Forall (fun y => 0 < compare y x) (l2' ++ right_of c).*1
    else Forall (fun y => 0 < compare y x) (l2 ++ right_of c).*1.
Proof using Type.
  intros Hc Hx [Hi _]. destruct (ctx_sides c x Hc Hx) as [Hl Hr]. unfold leaf_lookup.
  pose proof (lower_bound_spec compare its.*1 x (increasing_split _ _ _ Hi)) as H.
  destruct (lower_bound _ _ _) as [i found]. destruct H as (k1 & k2 & E & -> & H1 & H2).
  apply fmap_app_inv in E as (l1 & l2 & -> & -> & ->). exists l1, l2.
  rewrite length_fmap, !fmap_app, !Forall_app. split_and!; [done..|].
  destruct found; [|by rewrite Forall_app]. destruct H2 as (y & k2' & E & Hy & H2).
  destruct l2 as [|e l2']; [done|]. cbn in E. injection E as <- <-. exists e, l2'. by rewrite fmap_app, Forall_app.
Qed.
End rules.
