(* ===== verification/BplusInsert.v ===== *)
(** * BplusInsert: insertion into the index

    Insertion finds the leaf, splits it when it is full, and carries the new
    separator up through parents that may split in turn, up to a new root. *)

From S2P Require Import Prelude RecordPage PageAlloc Compare BplusTree BplusInv BplusStep.

Section insert.
Context {KO : KeyOrder} {A : Type} {PA : PageAllocator A} (base : gset Z) (tot : Z).
#[local] Abbreviation BTree := (@BplusTree.BTree KO A).
#[local] Abbreviation owns := (@BplusStep.owns KO A PA base tot).

(** ** Splitting a node *)

(** [split] of an internal node, given what the loop over the moved children does. *)
Lemma split_internal_ok hd s pn pp its F (F' : Z -> list (Z * Node)) (Q : RC + Z -> BTree -> Prop) :
  let n := (length its / 2)%nat in
  owns hd s ((pn, InternalNode pp its) :: F) -> Z.of_nat (size s.(nodes)) < tot ->
  (forall new s1 G (Q : RC + unit -> BTree -> Prop), owns hd s1 (F ++ G) ->
    (forall s2, owns hd s2 (F' new ++ G) -> Q (inr ()) s2) -> wp (set_parents (drop n its) new) s1 Q) ->
  (forall new s', owns hd s' ((pn, InternalNode pp (take n its)) :: (new, InternalNode pp (drop n its)) :: F' new) ->
    Q (inr new) s') ->
  wp (split_internal pn) s Q.
Proof using Type.
  cbn zeta. intros Ho Hr Hset HQ. apply wp_bind. eapply wp_get_internal; [exact Ho|].
  apply wp_bind. eapply wp_alloc; [exact Ho|done|]. intros new s1 H1. cbn beta iota.
  apply wp_bind, wp_bind. eapply wp_get_internal; [exact H1|]. apply wp_bind. eapply wp_put; [exact H1|]. intros s2 H2.
  eapply (Hset new s2 [(pn, InternalNode pp its); (new, InternalNode pp (drop (length its / 2) its))]).
  { eapply owns_perm; [|exact H2]. unfold insert_items_at. cbn [take drop]. rewrite app_nil_r. cbn [app]. perm. }
  intros s3 H3. apply wp_bind. eapply wp_put; [eapply owns_perm; [|exact H3]|].
  { instantiate (1 := (new, InternalNode pp (drop (length its / 2) its)) :: F' new). instantiate (1 := InternalNode pp its). perm. }
  intros s4 H4. apply HQ. exact H4.
Qed.

Lemma split_leaf_ok hd s pn pp nx its F (Q : RC + Z -> BTree -> Prop) :
  let n := (length its / 2)%nat in
  owns hd s ((pn, LeafNode pp nx its) :: F) -> Z.of_nat (size s.(nodes)) < tot ->
  (forall new s', owns hd s' ((pn, LeafNode pp nx (take n its)) ::
    (new, LeafNode pp BP_INVALID_PAGE_NUM (drop n its)) :: F) -> Q (inr new) s') ->
  wp (split_leaf pn) s Q.
Proof using Type.
  cbn zeta. intros Ho Hr HQ. apply wp_bind. eapply wp_get_leaf; [exact Ho|].
  apply wp_bind. eapply wp_alloc; [exact Ho|done|]. intros new s1 H1. cbn beta iota.
  apply wp_bind. eapply wp_put; [exact H1|]. intros s2 H2. cbn beta iota.
  apply wp_bind. eapply wp_put; [eapply owns_perm; [apply perm_swap|exact H2]|]. intros s3 H3. by apply HQ.
Qed.

Lemma insert_items_after {I} (l1 : list I) x y l2 :
  insert_items_at (S (length l1)) [y] (l1 ++ x :: l2) = l1 ++ x :: y :: l2.
Proof using Type.
  unfold insert_items_at. induction l1 as [|z l1 IH]; [done|]. cbn in *. by f_equal.
Qed.

(** [InternalIndexNodeHandler::insert] puts the new child after the one it was split
    from. *)
Lemma internal_insert_ok hd s pn pp lo hi {h} L k (t1 t2 : tree h) k2 R F (Q : RC + unit -> BTree -> Prop) :
  owns hd s ((pn, InternalNode pp (refs (L ++ (k, t1) :: R))) :: F) ->
  kids_ok (fun _ _ _ => True) lo hi (L ++ (k, t1) :: R) ->
  opt_lt (mid lo L (Some k)) (Some k2) -> opt_lt (Some k2) (next_lo hi R) ->
  (forall s', owns hd s' ((pn, InternalNode pp (refs (L ++ (k, t1) :: (k2, t2) :: R))) :: F) -> Q (inr ()) s') ->
  wp (internal_insert pn k2 t2.1) s Q.
Proof using Type.
  intros Ho Hk Hlo Hhi HQ. apply wp_bind. eapply wp_get_internal; [exact Ho|].
  destruct (internal_lookup_child _ lo hi L k t1 R k2 Hk) as [_ Hp].
  { split; [|done]. destruct (mid lo L (Some k)); [cbn in Hlo; lia|done]. }
  rewrite (Hp Hlo). eapply wp_put; [exact Ho|]. intros s' H'. apply HQ. eapply owns_perm; [|exact H'].
  assert (insert_items_at (S (length L)) [(k2, t2.1)] (refs (L ++ (k, t1) :: R)) =
          refs (L ++ (k, t1) :: (k2, t2) :: R)) as ->; [|done].
  tree_simpl. rewrite <- (refs_length L). apply insert_items_after.
Qed.

(** ** Splitting a full parent *)

(** Where the middle of a node lies relative to its hole. *)
Lemma halves {I} (L : list I) x R n : (1 <= n < S (length L + length R))%nat ->
  (exists R1 y R2, R = R1 ++ y :: R2 /\ n = length (L ++ x :: R1)) \/
  (exists y L1 L2, L = (y :: L1) ++ L2 /\ n = length (y :: L1)).
Proof using Type.
  intros Hn. destruct (le_lt_dec n (length L)) as [H|H].
  - right. destruct L as [|y L]; [cbn in H; lia|]. exists y, (take (n - 1) L), (drop (n - 1) L).
    cbn [app]. rewrite take_drop. split; [done|]. cbn in *. rewrite length_take. lia.
  - left. exists (take (n - S (length L)) R). destruct (drop (n - S (length L)) R) as [|y R2] eqn:E.
    + apply (f_equal length) in E. rewrite length_drop in E. cbn in E. lia.
    + exists y, R2. rewrite <- E, take_drop. split; [done|]. rewrite length_app. cbn. rewrite length_take. lia.
Qed.

(** The block of [insert_entry_into_parent] that splits the parent and inserts the new
    child into one of the halves; the recursive call is [K]. *)
Definition split_and_insert (parent new_pn : Z) (k : key) (K : Z -> key -> M (A := A) unit) : M (A := A) unit :=
  new_parent ← split_internal parent;
  '(_, new_its) ← get_internal new_parent;
  '(k0, _) ← at_index new_its 0;
  _ ← (if 0 <? compare k k0
       then _ ← internal_insert new_parent k new_pn; set_parent_page_num new_pn new_parent
       else _ ← internal_insert parent k new_pn; set_parent_page_num new_pn parent);
  '(_, new_its) ← get_internal new_parent;
  '(k0, _) ← at_index new_its 0;
  K new_parent k0.

Section split_parent.
Context (hd : IndexFileHeader) (s : BTree) {h : nat} (pn : Z) (L : list (item h)) (k : key) (t1 t2 : tree h)
  (k2 : key) (R : list (item h)) (pp nxt : Z) (lo hi : option key) (F : list (Z * Node))
  (K : Z -> key -> M (A := A) unit) (Q : RC + unit -> BTree -> Prop).
Let fl2 := first_leaf h (first_of nxt R) t2.
Context (Ho : owns hd s ((pn, InternalNode pp (refs (L ++ (k, t1) :: R))) ::
    nodes_of h pn fl2 t1 ++ nodes_of h pn (first_of nxt R) t2 ++
    kids_nodes pn (first_leaf h fl2 t1) L ++ kids_nodes pn nxt R ++ F))
  (Hroom : Z.of_nat (size s.(nodes)) < tot)
  (Hkids : kids_ok (fun _ _ _ => True) lo hi (L ++ (k, t1) :: R))
  (Hlo : opt_lt (mid lo L (Some k)) (Some k2)) (Hhi : opt_lt (Some k2) (next_lo hi R))
  (HK : forall new s' l1 k0 t0 l2, l1 ++ (k0, t0) :: l2 = L ++ (k, t1) :: (k2, t2) :: R ->
    (S (length L + length R) / 2 <= length l1)%nat -> (S (length L + length R) / 2 <= S (length l2))%nat ->
    owns hd s' (nodes_of (S h) pp (first_of nxt ((k0, t0) :: l2)) (TN pn l1) ++
      nodes_of (S h) pp nxt (TN new ((k0, t0) :: l2)) ++ F) -> wp (K new k0) s' Q).

(** The hole is in the left half. *)
Lemma split_parent_left R1 k0 t0 R2 : R = R1 ++ (k0, t0) :: R2 ->
  (S (length L + length R) / 2)%nat = length (L ++ (k, t1) :: R1) ->
  wp (split_and_insert pn t2.1 k2 K) s Q.
Proof using All.
  intros ER En.
  assert (length (refs (L ++ (k, t1) :: R)) / 2 = length (refs (L ++ (k, t1) :: R1)))%nat as En'.
  { rewrite !refs_length, <- En, length_app. cbn [length]. f_equal. lia. }
  assert (refs (L ++ (k, t1) :: R) = refs (L ++ (k, t1) :: R1) ++ refs ((k0, t0) :: R2)) as Er.
  { rewrite <- refs_app. f_equal. rewrite ER. by rewrite <- app_assoc. }
  assert (next_lo hi R = next_lo (Some k0) R1) as Enl by (rewrite ER; apply (next_lo_app hi R1 ((k0, t0) :: R2))).
  rewrite ER in Hkids. assert (kids_ok (fun _ _ _ => True) lo (Some k0) (L ++ (k, t1) :: R1)) as Hk1.
  { rewrite app_comm_cons, app_assoc in Hkids. by apply kids_ok_app in Hkids as [? _]. }
  assert (compare k2 k0 < 0) as Hc.
  { rewrite Enl in Hhi. apply kids_ok_app in Hk1 as [_ (_ & _ & _ & Hk1)].
    destruct R1 as [|it R1]; [exact Hhi|]. apply kids_chain in Hk1 as [Hk1 _].
    exact (opt_lt_trans (Some k2) it.1 (Some k0) Hhi Hk1). }
  apply wp_bind. eapply (split_internal_ok hd s pn pp _ _ (fun new =>
    nodes_of h pn fl2 t1 ++ nodes_of h pn (first_of nxt R) t2 ++ kids_nodes pn (first_leaf h fl2 t1) L ++
    kids_nodes pn (first_of nxt ((k0, t0) :: R2)) R1 ++ kids_nodes new nxt ((k0, t0) :: R2) ++ F));
    [exact Ho|exact Hroom| |].
  { intros new s1 G Q1 H1 HQ1. rewrite En', Er, drop_app_length.
    eapply (wp_set_parents base tot hd pn new nxt ((k0, t0) :: R2)
      (nodes_of h pn fl2 t1 ++ nodes_of h pn (first_of nxt R) t2 ++ kids_nodes pn (first_leaf h fl2 t1) L ++
       kids_nodes pn (first_of nxt ((k0, t0) :: R2)) R1 ++ F ++ G)).
    - eapply owns_perm; [|exact H1]. rewrite ER. rewrite (kids_nodes_app pn nxt R1). perm.
    - intros s2 H2. apply HQ1. eapply owns_perm; [|exact H2]. perm. }
  intros new s1 H1. rewrite En', Er, take_app_length, drop_app_length in H1.
  cbn beta iota. apply wp_bind. eapply wp_get_internal; [eapply owns_perm; [apply perm_swap|exact H1]|].
  apply wp_bind. apply (wp_at _ _ (k0, t0.1)); [done|]. cbn beta iota.
  destruct (Z.ltb_spec 0 (compare k2 k0)); [lia|]. apply wp_bind, wp_bind.
  eapply (internal_insert_ok hd _ pn pp lo (Some k0) L k t1 t2 k2 R1); [exact H1|exact Hk1|exact Hlo|by rewrite <- Enl|].
  intros s2 H2. eapply (wp_set_parent base tot hd s2 h pn pn (first_of nxt R) t2
    ((new, InternalNode pp (refs ((k0, t0) :: R2))) ::
     (pn, InternalNode pp (refs (L ++ (k, t1) :: (k2, t2) :: R1))) :: nodes_of h pn fl2 t1 ++
     kids_nodes pn (first_leaf h fl2 t1) L ++ kids_nodes pn (first_of nxt ((k0, t0) :: R2)) R1 ++
     kids_nodes new nxt ((k0, t0) :: R2) ++ F)); [eapply owns_perm; [|exact H2]; perm|].
  intros s3 H3. apply wp_bind.
  eapply wp_get_internal; [eapply owns_perm; [|exact H3]; apply Permutation_middle|].
  apply wp_bind. apply (wp_at _ _ (k0, t0.1)); [done|]. cbn beta iota.
  apply (HK new s3 (L ++ (k, t1) :: (k2, t2) :: R1) k0 t0 R2).
  - rewrite ER. by rewrite <- app_assoc.
  - rewrite En, !length_app. cbn. lia.
  - pose proof (Nat.div_mod_eq (S (length L + length R)) 2). pose proof (Nat.mod_upper_bound (S (length L + length R)) 2).
    rewrite ER, length_app in *. rewrite length_app in En. cbn [length] in *. lia.
  - eapply owns_perm; [|exact H3]. unfold fl2. rewrite ER. tree_simpl. perm.
Qed.

(** The hole is in the right half. *)
Lemma split_parent_right y L1 L2 : L = (y :: L1) ++ L2 ->
  (S (length L + length R) / 2)%nat = length (y :: L1) -> wp (split_and_insert pn t2.1 k2 K) s Q.
Proof using All.
  intros EL En.
  assert (length (refs (L ++ (k, t1) :: R)) / 2 = length (refs (y :: L1)))%nat as En'.
  { rewrite !refs_length, <- En, length_app. cbn [length]. f_equal. lia. }
  assert (refs (L ++ (k, t1) :: R) = refs (y :: L1) ++ refs (L2 ++ (k, t1) :: R)) as Er.
  { rewrite <- refs_app. f_equal. rewrite EL. by rewrite <- app_assoc. }
  assert (mid lo L (Some k) = Some k) as Em by by rewrite EL.
  assert (exists k0 t0 l2, L2 ++ (k, t1) :: (k2, t2) :: R = (k0, t0) :: l2 /\ compare k0 k2 < 0 /\
    kids_ok (fun _ _ _ => True) (Some k0) hi (L2 ++ (k, t1) :: R) /\
    (exists r, refs (L2 ++ (k, t1) :: R) = (k0, t0.1) :: r)) as (k0 & t0 & l2 & E2 & Hc & Hk2 & r & Er2).
  { rewrite EL, <- app_assoc in Hkids. apply kids_ok_app in Hkids as [_ Hkids].
    rewrite Em in Hlo. destruct L2 as [|[k0 t0] L2].
    - exists k, t1, ((k2, t2) :: R). split_and!; [done|exact Hlo|exact Hkids|by eexists].
    - exists k0, t0, (L2 ++ (k, t1) :: (k2, t2) :: R). split_and!; [done| |exact Hkids|by eexists].
      cbn [app mid next_lo fst] in Hkids. apply kids_chain in Hkids as (_ & _ & Hf).
      rewrite fmap_app in Hf. apply Forall_app in Hf as [_ Hf]. cbn in Hf. apply Forall_cons in Hf as [[Hf _] _].
      by apply (opt_lt_trans (Some k0) k (Some k2)). }
  pose (fl1 := first_leaf h fl2 t1).
  assert (kids_nodes pn fl1 L = kids_nodes pn (first_of fl1 L2) (y :: L1) ++ kids_nodes pn fl1 L2) as EkL.
  { rewrite EL. apply kids_nodes_app. }
  apply wp_bind. eapply (split_internal_ok hd s pn pp _ _ (fun new =>
    nodes_of h new fl2 t1 ++ nodes_of h pn (first_of nxt R) t2 ++ kids_nodes pn (first_of fl1 L2) (y :: L1) ++
    kids_nodes new fl1 L2 ++ kids_nodes new nxt R ++ F)); [exact Ho|exact Hroom| |].
  { intros new s1 G Q1 H1 HQ1. rewrite En', Er, drop_app_length, refs_app, refs_cons.
    apply wp_set_parents_app. fold fl1 in H1. rewrite EkL in H1.
    apply (wp_set_parents base tot hd pn new fl1 L2 (nodes_of h pn fl2 t1 ++
      nodes_of h pn (first_of nxt R) t2 ++ kids_nodes pn (first_of fl1 L2) (y :: L1) ++ kids_nodes pn nxt R ++ F ++ G));
      [eapply owns_perm; [|exact H1]; perm|].
    intros s2 H2. cbn [set_parents]. apply wp_bind.
    apply (wp_set_parent base tot hd s2 h pn new fl2 t1 (kids_nodes new fl1 L2 ++
      nodes_of h pn (first_of nxt R) t2 ++ kids_nodes pn (first_of fl1 L2) (y :: L1) ++ kids_nodes pn nxt R ++ F ++ G));
      [eapply owns_perm; [|exact H2]; perm|].
    intros s3 H3. apply (wp_set_parents base tot hd pn new nxt R (nodes_of h new fl2 t1 ++ kids_nodes new fl1 L2 ++
      nodes_of h pn (first_of nxt R) t2 ++ kids_nodes pn (first_of fl1 L2) (y :: L1) ++ F ++ G));
      [eapply owns_perm; [|exact H3]; perm|].
    intros s4 H4. apply HQ1. eapply owns_perm; [|exact H4]. perm. }
  intros new s1 H1. rewrite En', Er, take_app_length, drop_app_length in H1.
  apply (owns_perm _ _ _ _ _ _ (perm_swap _ _ _)) in H1.
  cbn beta iota. apply wp_bind. eapply wp_get_internal; [exact H1|].
  apply wp_bind. apply (wp_at _ _ (k0, t0.1)); [by rewrite Er2|]. cbn beta iota.
  destruct (Z.ltb_spec 0 (compare k2 k0)); [|apply cmp_flip_lt in Hc; lia]. apply wp_bind, wp_bind.
  eapply (internal_insert_ok hd _ new pp (Some k0) hi L2 k t1 t2 k2 R); [exact H1|exact Hk2| |exact Hhi|].
  { rewrite Em in Hlo. destruct L2; [by injection E2 as -> -> _|exact Hlo]. }
  intros s2 H2. apply (wp_set_parent base tot hd s2 h pn new (first_of nxt R) t2
    ((new, InternalNode pp (refs (L2 ++ (k, t1) :: (k2, t2) :: R))) ::
     (pn, InternalNode pp (refs (y :: L1))) :: nodes_of h new fl2 t1 ++
     kids_nodes pn (first_of fl1 L2) (y :: L1) ++ kids_nodes new fl1 L2 ++ kids_nodes new nxt R ++ F));
    [eapply owns_perm; [|exact H2]; perm|].
  intros s3 H3. apply wp_bind.
  eapply wp_get_internal; [eapply owns_perm; [|exact H3]; apply Permutation_middle|].
  apply wp_bind. apply (wp_at _ _ (k0, t0.1)); [by rewrite E2|]. cbn beta iota.
  apply (HK new s3 (y :: L1) k0 t0 l2).
  - rewrite <- E2, EL. by rewrite <- app_assoc.
  - by rewrite En.
  - pose proof (Nat.div_mod_eq (S (length L + length R)) 2). pose proof (Nat.mod_upper_bound (S (length L + length R)) 2).
    apply (f_equal length) in E2. rewrite EL, !length_app in *. cbn [length] in *. lia.
  - eapply owns_perm; [|exact H3]. rewrite <- E2. unfold fl1, fl2. tree_simpl. perm.
Qed.

Lemma split_parent_ok : (1 <= length L + length R)%nat -> wp (split_and_insert pn t2.1 k2 K) s Q.
Proof using All.
  intros Hlen. destruct (halves L (k, t1) R (S (length L + length R) / 2)) as [(R1 & [k0 t0] & R2 & E & En)|(y & L1 & L2 & E & En)].
  - split; [apply Nat.div_le_lower_bound; lia|apply Nat.div_lt; lia].
  - by eapply split_parent_left.
  - by eapply split_parent_right.
Qed.
End split_parent.

(** ** Up to the root *)

(** The pages while the new tree [t2] is not yet below its parent. *)
Definition focus2 {h} (c : ctx h) (t1 t2 : tree h) : list (Z * Node) :=
  let fl2 := first_leaf h (nxt_of c) t2 in
  nodes_of h (parent_of c) fl2 t1 ++ nodes_of h (parent_of c) (nxt_of c) t2 ++
  ctx_nodes c t1.1 (first_leaf h fl2 t1).

(** [create_new_root] *)
Lemma insert_new_root_ok hd (Hm : (2 <= internal_max_size hd)%nat) h fuel s (t1 t2 : tree h) k2
    (Q : RC + unit -> BTree -> Prop) :
  owns hd s (focus2 CTop t1 t2) -> Z.of_nat (size s.(nodes)) < tot ->
  sized hd false h t1.2 -> sized hd false h t2.2 -> wf h None (Some k2) t1.2 -> wf h (Some k2) None t2.2 ->
  (forall hd' s', same_sizes hd hd' -> index_ok base tot hd' (S h) s' (flat h t1.2 ++ flat h t2.2) -> Q (inr ()) s') ->
  wp (insert_entry_into_parent (S fuel) t1.1 t2.1 k2) s Q.
Proof using Type.
  intros Ho Hroom Hs1 Hs2 Hw1 Hw2 HQ. unfold focus2 in Ho. cbn [parent_of nxt_of ctx_nodes] in Ho.
  cbn [insert_entry_into_parent]. apply wp_bind.
  eapply wp_get; [rewrite (nodes_of_root h _ _ t1) in Ho; exact Ho|].
  cbn zeta. rewrite root_node_parent_num, Z.eqb_refl. apply wp_bind. eapply wp_alloc; [exact Ho|done|].
  intros root s1 H1. pose (rn := (root, InternalNode BP_INVALID_PAGE_NUM [(zero_key, t1.1); (k2, t2.1)])).
  fold rn in H1. apply wp_bind.
  apply (wp_set_parent base tot hd s1 h BP_INVALID_PAGE_NUM root (first_leaf h BP_INVALID_PAGE_NUM t2) t1
    (rn :: nodes_of h BP_INVALID_PAGE_NUM BP_INVALID_PAGE_NUM t2)); [eapply owns_perm; [|exact H1]; perm|].
  intros s2 H2. apply wp_bind.
  apply (wp_set_parent base tot hd s2 h BP_INVALID_PAGE_NUM root BP_INVALID_PAGE_NUM t2
    (rn :: nodes_of h root (first_leaf h BP_INVALID_PAGE_NUM t2) t1)); [eapply owns_perm; [|exact H2]; perm|].
  intros s3 H3. eapply wp_root; [exact H3|]. intros s4 H4.
  apply (HQ (mkHeader root (internal_max_size hd) (leaf_max_size hd))); [by split|].
  exists (TN root [(zero_key, t1); (k2, t2)]). rewrite nodes_of_S, wf_S, sized_S, flat_S. split_and!.
  - eapply owns_perm; [|exact H4]. unfold rn. tree_simpl. cbn [kids_nodes refs map fst snd first_of foldr]. perm.
  - done.
  - by cbn.
  - cbn; lia.
  - cbn; lia.
  - repeat constructor; cbn [snd]; by eapply sized_same; [|eassumption].
  - tree_simpl. cbn. by rewrite app_nil_r.
Qed.

Lemma insert_into_parent_ok hd (Hm : (2 <= internal_max_size hd)%nat) h (c : ctx h) :
  forall fuel s (t1 t2 : tree h) k2 (Q : RC + unit -> BTree -> Prop), (depth c < fuel)%nat ->
  owns hd s (focus2 c t1 t2) -> Z.of_nat (size s.(nodes) + depth c) < tot ->
  hd.(root_page) = root_of c t1.1 -> ctx_wf c -> ctx_sized hd c -> sized hd false h t1.2 -> sized hd false h t2.2 ->
  wf h (lo_of c) (Some k2) t1.2 -> wf h (Some k2) (hi_of c) t2.2 ->
  opt_lt (lo_of c) (Some k2) -> opt_lt (Some k2) (hi_of c) ->
  (forall hd' s' H', same_sizes hd hd' -> (H' <= S (top_height c))%nat ->
    index_ok base tot hd' H' s' (left_of c ++ flat h t1.2 ++ flat h t2.2 ++ right_of c) -> Q (inr ()) s') ->
  wp (insert_entry_into_parent fuel t1.1 t2.1 k2) s Q.
Proof using Type.
  induction c as [h|h pn L k R c IH]; intros fuel s t1 t2 k2 Q Hfuel Ho Hroom Hroot Hcw Hcs Hs1 Hs2 Hw1 Hw2 Hlo Hhi HQ;
    (destruct fuel as [|fuel]; [lia|]).
  { eapply insert_new_root_ok; try eassumption; [cbn in Hroom; lia|]. intros hd' s' Hsz Hix.
    eapply HQ; [exact Hsz| |]; [|cbn [left_of right_of app]; by rewrite app_nil_r]. done. }
  cbn [ctx_wf ctx_sized lo_of hi_of depth left_of right_of top_height root_of] in *.
  destruct Hcw as [Hfr Hcw], Hcs as (HsL & HsR & Hlen & Hcs).
  unfold focus2 in Ho. cbn [parent_of nxt_of ctx_nodes] in Ho.
  cbn [insert_entry_into_parent]. apply wp_bind.
  eapply wp_get; [rewrite (nodes_of_root h _ _ t1) in Ho; exact Ho|].
  cbn zeta. rewrite root_node_parent_num.
  set (fl2 := first_leaf h (first_of (nxt_of c) R) t2) in *.
  assert (owns hd s ((pn, InternalNode (parent_of c) (refs (L ++ (k, t1) :: R))) ::
      nodes_of h pn fl2 t1 ++ nodes_of h pn (first_of (nxt_of c) R) t2 ++
      kids_nodes pn (first_leaf h fl2 t1) L ++ kids_nodes pn (nxt_of c) R ++
      ctx_nodes c pn (first_of (first_leaf h fl2 t1) L))) as Ho'.
  { eapply owns_perm; [|exact Ho]. tree_simpl. perm. }
  pose proof (owns_pos _ _ _ _ _ _ _ Ho') as Hpos. destruct (Z.eqb_spec pn BP_INVALID_PAGE_NUM) as [->|_]; [done|].
  apply wp_bind. eapply wp_header; [exact Ho|]. apply wp_bind. eapply wp_get_internal; [exact Ho'|].
  rewrite refs_length. destruct (Nat.ltb_spec (length (L ++ (k, t1) :: R)) (internal_max_size hd)) as [Hlt|Hge].
  - apply wp_bind. eapply (internal_insert_ok hd s pn _ (lo_of c) (hi_of c) L k t1 t2 k2 R);
      [exact Ho'|by apply frame_chain|done|done|]. intros s1 H1.
    apply (wp_set_parent base tot hd s1 h pn pn (first_of (nxt_of c) R) t2
      ((pn, InternalNode (parent_of c) (refs (L ++ (k, t1) :: (k2, t2) :: R))) :: nodes_of h pn fl2 t1 ++
       kids_nodes pn (first_leaf h fl2 t1) L ++ kids_nodes pn (nxt_of c) R ++
       ctx_nodes c pn (first_of (first_leaf h fl2 t1) L))); [eapply owns_perm; [|exact H1]; perm|].
    intros s2 H2. eapply (HQ hd s2 (top_height c)); [by split|lia|].
    pose proof (focus_index_ok base tot hd c (TN pn (L ++ (k, t1) :: (k2, t2) :: R)) s2) as Hix.
    rewrite wf_S, sized_S, flat_S, flats_app, !flats_cons, <- !app_assoc in Hix. rewrite <- !app_assoc. apply Hix.
    + eapply owns_perm; [|exact H2]. unfold focus, fl2. tree_simpl. cbn [fst TN]. perm.
    + done.
    + done.
    + by apply kids_ok_pair.
    + done.
    + rewrite length_app in *. cbn [length max_of] in *. split; [lia|]. apply Forall_app. split; [done|]. by repeat constructor.
  - eapply (split_parent_ok hd s pn L k t1 t2 k2 R (parent_of c) (nxt_of c) (lo_of c) (hi_of c) _
      (insert_entry_into_parent fuel pn)); [exact Ho'|lia|by apply frame_chain|done|done| |].
    2: { rewrite length_app in Hge. cbn in Hge. lia. }
    intros new s1 l1 k0 t0 l2 E Hl1 Hl2 H1.
    assert (kids_ok (wf h) (lo_of c) (hi_of c) (l1 ++ (k0, t0) :: l2)) as Hk by (rewrite E; by apply kids_ok_pair).
    assert (kids_sized hd (l1 ++ (k0, t0) :: l2)) as Hks.
    { rewrite E. apply Forall_app. split; [done|]. by repeat constructor. }
    assert (S (S (length L + length R)) = length l1 + S (length l2))%nat as El.
    { apply (f_equal length) in E. rewrite !length_app in E. cbn in E. lia. }
    assert (1 <= S (length L + length R) / 2)%nat as Hhalf.
    { rewrite length_app in Hge. cbn in Hge. apply Nat.div_le_lower_bound; lia. }
    assert (length (L ++ (k, t1) :: R) = S (length L + length R)) as Elen by (rewrite length_app; cbn; lia).
    cbn [max_of] in Hlen.
    assert (internal_max_size hd / 2 = S (length L + length R) / 2)%nat as Ehalf by (f_equal; lia).
    destruct l1 as [|it l1]; [cbn [length] in Hl1; lia|]. apply kids_ok_cut in Hk as (Hk1 & Hk2 & Hlt1 & Hlt2).
    apply Forall_app in Hks as [Hks1 Hks2].
    apply (IH fuel s1 (TN pn (it :: l1)) (TN new ((k0, t0) :: l2)) k0); try done.
    + lia.
    + eapply owns_perm; [|exact H1]. unfold focus2. cbn [fst TN].
      rewrite !first_leaf_S, <- first_of_app, E. unfold fl2. by rewrite first_of_app, !first_of_cons.
    + rewrite (owns_size _ _ _ _ _ H1). rewrite (owns_size _ _ _ _ _ Ho') in Hroom.
      apply (f_equal (fun l => length (kids_nodes 0 0 l))) in E.
      rewrite !kids_len_app, !kids_len_cons in E. cbn [length] in Hroom.
      rewrite !length_app, (nodes_of_len _ pn fl2), (nodes_of_len _ pn (first_of _ R)), (kids_nodes_len _ _ L),
        (kids_nodes_len _ _ R), ctx_nodes_len in Hroom.
      rewrite !length_app, !node_len, kids_len_cons, ctx_nodes_len. lia.
    + rewrite sized_S. cbn [least max_of length] in *. rewrite Ehalf. split; [lia|done].
    + rewrite sized_S. cbn [least max_of length] in *. rewrite Ehalf. split; [lia|done].
    + intros hd' s' H' Hsz HH Hix. apply (HQ hd' s' H' Hsz HH).
      apply (f_equal flats) in E. rewrite !flats_app, !flats_cons in E. rewrite !flat_S, flats_cons in Hix.
      rewrite (app_assoc (flats (it :: l1))), E in Hix. by rewrite <- !app_assoc in *.
Qed.

(** ** The leaf *)

Lemma leaf_wf_insert lo hi l1 l2 k rid : wf 0 lo hi (l1 ++ l2) -> in_range lo hi k ->
  Forall (fun y => compare y k < 0) l1.*1 -> Forall (fun y => 0 < compare y k) l2.*1 ->
  wf 0 lo hi (l1 ++ (k, rid) :: l2).
Proof using Type.
  intros [Hi Hr] Hk H1 H2. cbn [wf]. rewrite !fmap_app in *. cbn [fmap list_fmap fst].
  apply increasing_app in Hi as (Hi1 & Hi2 & Hi). apply Forall_app in Hr as [Hr1 Hr2].
  rewrite increasing_app, increasing_cons, Forall_app, Forall_cons. split_and!; try done.
  - eapply Forall_impl; [exact H2|]. intros y. apply cmp_flip_lt.
  - eapply Forall_impl; [apply Forall_and; split; [exact H1|exact Hi]|]. intros y [Hy1 Hy2]. by constructor.
Qed.

Lemma insert_items_here {I} (l1 l2 : list I) y : insert_items_at (length l1) [y] (l1 ++ l2) = l1 ++ y :: l2.
Proof using Type. unfold insert_items_at. by rewrite take_app_length, drop_app_length. Qed.

Lemma insert_items_low {I} i n (y : I) l : (i <= n)%nat ->
  insert_items_at i [y] (take n l) ++ drop n l = insert_items_at i [y] l.
Proof using Type.
  intros Hi. unfold insert_items_at. rewrite <- !app_assoc. rewrite take_take. rewrite Nat.min_l by lia. f_equal. f_equal.
  revert n l Hi. induction i as [|i IH]; intros n l Hi; [apply take_drop|].
  destruct n; [lia|]. destruct l; [by rewrite !drop_nil|]. cbn. apply IH. lia.
Qed.

Lemma insert_items_high {I} i n (y : I) l : (n <= i)%nat -> (i <= length l)%nat ->
  take n l ++ insert_items_at (i - n) [y] (drop n l) = insert_items_at i [y] l.
Proof using Type.
  intros Hn Hi. unfold insert_items_at. rewrite drop_drop, !app_assoc. f_equal; [|f_equal; lia]. f_equal.
  rewrite take_take_drop. f_equal. lia.
Qed.

Lemma insert_items_length {I} i (y : I) l : length (insert_items_at i [y] l) = S (length l).
Proof using Type.
  unfold insert_items_at. rewrite <- (take_drop i l) at 3. rewrite !length_app. cbn. lia.
Qed.

(** The part of [insert_entry_into_leaf_node] after the leaf has been found full. *)
Lemma leaf_split_ok hd (Hm : (2 <= internal_max_size hd)%nat) (Hlm : (2 <= leaf_max_size hd)%nat)
    fuel s (c : ctx 0) pn its i k rid (Q : RC + unit -> BTree -> Prop) :
  (depth c < fuel)%nat -> owns hd s (focus c (pn, its)) -> Z.of_nat (size s.(nodes) + 1 + depth c) < tot ->
  hd.(root_page) = root_of c pn -> ctx_wf c -> ctx_sized hd c -> length its = leaf_max_size hd -> (i <= length its)%nat ->
  wf 0 (lo_of c) (hi_of c) (insert_items_at i [(k, rid)] its) ->
  (forall hd' s' H', same_sizes hd hd' -> (H' <= S (top_height c))%nat ->
    index_ok base tot hd' H' s' (left_of c ++ insert_items_at i [(k, rid)] its ++ right_of c) -> Q (inr ()) s') ->
  wp (new ← split_leaf pn;
      '(p, nx, its) ← get_leaf pn;
      '(_, _, new_its) ← get_leaf new;
      _ ← put_page new (LeafNode p nx new_its);
      _ ← put_page pn (LeafNode p new its);
      _ ← (if (i <? length its)%nat
           then put_page pn (LeafNode p new (insert_items_at i [(k, rid)] its))
           else put_page new (LeafNode p nx (insert_items_at (i - length its) [(k, rid)] new_its)));
      '(_, _, new_its) ← get_leaf new;
      '(k0, _) ← at_index new_its 0;
      insert_entry_into_parent fuel pn new k0) s Q.
Proof using Type.
  intros Hf Ho Hroom Hroot Hcw Hcs Hlen Hi Hw HQ. apply wp_bind. eapply split_leaf_ok; [exact Ho|lia|].
  intros new s1 H1. cbn [fst first_leaf snd] in H1. cbn beta iota.
  set (n := (length its / 2)%nat) in *. set (F := ctx_nodes c pn pn) in *.
  assert (n = length its / 2)%nat as En by done.
  assert (length (take n its) = n) as Hn.
  { rewrite length_take. pose proof (Nat.div_le_upper_bound (length its) 2 (length its)). lia. }
  apply wp_bind. eapply wp_get_leaf; [exact H1|]. cbn beta iota.
  apply wp_bind. eapply wp_get_leaf; [eapply owns_perm; [apply perm_swap|exact H1]|]. cbn beta iota.
  apply wp_bind. eapply wp_put; [eapply owns_perm; [apply perm_swap|exact H1]|]. intros s2 H2.
  apply wp_bind. eapply wp_put; [eapply owns_perm; [apply perm_swap|exact H2]|]. intros s3 H3.
  cbn beta iota. rewrite Hn.
  assert (exists b1 b2, b1 ++ b2 = insert_items_at i [(k, rid)] its /\ (n <= length b1)%nat /\ (n <= length b2)%nat /\
    forall Q' : RC + unit -> BTree -> Prop, (forall s4, owns hd s4 ((new, LeafNode (parent_of c) (nxt_of c) b2) ::
        (pn, LeafNode (parent_of c) new b1) :: F) -> Q' (inr ()) s4) ->
    wp (if (i <? n)%nat then put_page pn (LeafNode (parent_of c) new (insert_items_at i [(k, rid)] (take n its)))
        else put_page new (LeafNode (parent_of c) (nxt_of c) (insert_items_at (i - n) [(k, rid)] (drop n its)))) s3 Q')
    as (b1 & b2 & Eb & Hb1 & Hb2 & Hput).
  { pose proof (Nat.div_mod_eq (length its) 2). pose proof (Nat.mod_upper_bound (length its) 2 ltac:(lia)).
    destruct (Nat.ltb_spec i n) as [Hin|Hin].
    - exists (insert_items_at i [(k, rid)] (take n its)), (drop n its).
      rewrite insert_items_low, insert_items_length, length_drop by lia. split_and!; [done|lia|lia|].
      intros Q' HQ'. eapply wp_put; [exact H3|]. intros s4 H4. apply HQ'. eapply owns_perm; [apply perm_swap|exact H4].
    - exists (take n its), (insert_items_at (i - n) [(k, rid)] (drop n its)).
      rewrite insert_items_high, insert_items_length, length_drop by lia. split_and!; [done|lia|lia|].
      intros Q' HQ'. eapply wp_put; [eapply owns_perm; [apply perm_swap|exact H3]|]. intros s4 H4. by apply HQ'. }
  apply wp_bind. apply Hput. intros s4 H4.
  apply wp_bind. eapply wp_get_leaf; [exact H4|]. apply wp_bind.
  assert (1 <= n)%nat as Hn1 by (subst n; apply Nat.div_le_lower_bound; lia).
  pose proof (f_equal length Eb) as Elen. rewrite length_app, insert_items_length in Elen.
  destruct b1 as [|e1 b1]; [cbn [length] in Hb1; lia|]. destruct b2 as [|[k0 r0] b2]; [cbn [length] in Hb2; lia|].
  apply (wp_at _ _ (k0, r0)); [done|]. cbn beta iota. rewrite <- Eb in Hw.
  apply leaf_wf_cut in Hw as (Hw1 & Hw2 & Hlo & Hhi).
  apply (insert_into_parent_ok hd Hm 0 c fuel s4 (pn, e1 :: b1) (new, (k0, r0) :: b2) k0); try done.
  - eapply owns_perm; [|exact H4]. unfold focus2. cbn [nodes_of fst snd first_leaf app]. apply perm_swap.
  - rewrite (owns_size _ _ _ _ _ H4). rewrite (owns_size _ _ _ _ _ Ho) in Hroom.
    unfold focus in Hroom. cbn [nodes_of fst snd first_leaf app length] in *. fold F in Hroom. lia.
  - cbn [sized least max_of snd]. rewrite <- Hlen. lia.
  - cbn [sized least max_of snd]. rewrite <- Hlen. lia.
  - intros hd' s' H' Hsz HH Hix. apply (HQ hd' s' H' Hsz HH). rewrite <- Eb. cbn [flat snd] in Hix. by rewrite <- app_assoc.
Qed.

Lemma insert_leaf_ok hd (Hm : (2 <= internal_max_size hd)%nat) (Hlm : (2 <= leaf_max_size hd)%nat)
    fuel s es (c : ctx 0) pn its k rid (Q : RC + unit -> BTree -> Prop) :
  (depth c < fuel)%nat -> stree_ok base tot hd s es (splug c (pn, its)) -> in_range (lo_of c) (hi_of c) k ->
  Z.of_nat (size s.(nodes) + 1 + depth c) < tot ->
  (sorted_insert k rid es = None -> Q (inl RECORD_DUPLICATE_KEY) s) ->
  (forall es' hd' s' H', sorted_insert k rid es = Some es' -> same_sizes hd hd' -> (H' <= S (top_height c))%nat ->
    index_ok base tot hd' H' s' es' -> Q (inr ()) s') ->
  wp (insert_entry_into_leaf_node fuel pn k rid) s Q.
Proof using Type.
  intros Hf Hok Hk Hroom Hdup HQ.
  destruct (stree_ok_focus _ _ _ _ _ _ _ Hok) as (Ho & Hr & Hcw & Hw & Hcs & Hs & Hes).
  apply wp_bind. eapply wp_header; [exact Ho|]. apply wp_bind. eapply wp_get_leaf; [exact Ho|]. cbn beta iota. cbn [snd].
  pose proof (leaf_lookup_ok c _ _ its k Hcw Hk Hw) as Hl. destruct (leaf_lookup its k) as [i found].
  destruct Hl as (l1 & l2 & -> & -> & H1 & H2). cbn [flat snd] in Hes, Hw, Hs, Ho. destruct found.
  - apply Hdup. destruct H2 as (e & l2' & -> & He & _). rewrite Hes, <- !app_assoc, app_assoc. by apply sorted_insert_dup.
  - assert (wf 0 (lo_of c) (hi_of c) (l1 ++ (k, rid) :: l2)) as Hw'.
    { rewrite fmap_app in H1, H2. apply Forall_app in H1 as [_ H1], H2 as [H2 _]. by apply leaf_wf_insert. }
    assert (sorted_insert k rid es = Some (left_of c ++ (l1 ++ (k, rid) :: l2) ++ right_of c)) as Hins.
    { rewrite Hes, <- !app_assoc, app_assoc, sorted_insert_at by done. by rewrite <- !app_assoc. }
    cbn [sized max_of] in Hs. destruct (Nat.ltb_spec (length (l1 ++ l2)) (leaf_max_size hd)) as [Hlt|Hge].
    + eapply wp_put; [exact Ho|]. intros s' H'. eapply (HQ _ hd s' (top_height c)); [exact Hins|by split|lia|].
      rewrite insert_items_here in H'. apply (focus_index_ok base tot hd c (pn, l1 ++ (k, rid) :: l2) s'); try done.
      cbn [sized max_of snd]. rewrite length_app in *. cbn [length]. lia.
    + eapply (leaf_split_ok hd Hm Hlm fuel s c pn (l1 ++ l2) (length l1) k rid); try done.
      * lia.
      * rewrite length_app. lia.
      * by rewrite insert_items_here.
      * rewrite insert_items_here. intros hd' s' H' Hsz HH Hix. by eapply HQ.
Qed.
End insert.
