(* ===== verification/BplusDelete.v ===== *)
(** * BplusDelete: deletion from the index

    A node that gets too small takes an entry from a neighbour or is merged with it;
    a merge takes a child from the parent, which may get too small in turn, up to the
    root. *)

From S2P Require Import Prelude RecordPage PageAlloc Compare BplusTree BplusInv BplusStep.

Section delete.
Context {KO : KeyOrder} {A : Type} {PA : PageAllocator A} (base : gset Z) (tot : Z).
#[local] Abbreviation BTree := (@BplusTree.BTree KO A).
#[local] Abbreviation owns := (@BplusStep.owns KO A PA base tot).

Lemma remove_items_here {I} (l1 : list I) x l2 : remove_items_at (length l1) 1 (l1 ++ x :: l2) = l1 ++ l2.
Proof using Type.
  unfold remove_items_at. rewrite take_app_length. f_equal. rewrite cons_middle, app_assoc.
  rewrite drop_app_length' by (rewrite length_app; cbn; lia). done.
Qed.

Lemma remove_items_next {I} (l1 : list I) x y l2 :
  remove_items_at (S (length l1)) 1 (l1 ++ x :: y :: l2) = l1 ++ x :: l2.
Proof using Type.
  pose proof (remove_items_here (l1 ++ [x]) y l2) as H. rewrite <- !app_assoc, length_app in H. cbn in H.
  by rewrite Nat.add_1_r in H.
Qed.

Lemma lookup_next {I} (l1 : list I) x y l2 : (l1 ++ x :: y :: l2) !! S (length l1) = Some y.
Proof using Type. rewrite lookup_app_r by lia. by replace (S (length l1) - length l1)%nat with 1%nat by lia. Qed.

Lemma insert_next {I} (l1 : list I) x y z l2 : <[S (length l1) := z]> (l1 ++ x :: y :: l2) = l1 ++ x :: z :: l2.
Proof using Type.
  rewrite insert_app_r_alt by lia. by replace (S (length l1) - length l1)%nat with 1%nat by lia.
Qed.

(** ** Two neighbours and their parent *)

Section siblings.
Context (hd : IndexFileHeader) (s : BTree) {h : nat} (pp ppp : Z) (L : list (item h)) (kl : key) (tl : tree h)
  (kr : key) (tr : tree h) (R : list (item h)) (nx : Z) (F : list (Z * Node)) (Q : RC + unit -> BTree -> Prop).

(** The pages of the parent and of two of its children, left and right of [kr]. *)
Definition siblings (tl : tree h) (kr : key) (tr : tree h) : list (Z * Node) :=
  (pp, InternalNode ppp (refs (L ++ (kl, tl) :: (kr, tr) :: R))) ::
  nodes_of h pp (first_leaf h nx tr) tl ++ nodes_of h pp nx tr ++ F.
Definition merged (t : tree h) : list (Z * Node) :=
  (pp, InternalNode ppp (refs (L ++ (kl, t) :: R))) :: nodes_of h pp nx t ++ F.
End siblings.

Lemma merge_leaf_ok hd s pp ppp L kl (tl : tree 0) kr (tr : tree 0) R nx F (Q : RC + unit -> BTree -> Prop) :
  owns hd s (siblings pp ppp L kl R nx F tl kr tr) ->
  (forall s', owns hd s' (merged pp ppp L kl R nx F (tl.1, join tl.2 tr.2)) -> Q (inr ()) s') ->
  wp (merge_leaf tl.1 tr.1 pp (S (length L))) s Q.
Proof using Type.
  destruct tl as [l bl], tr as [r br]. unfold siblings, merged. cbn [nodes_of fst snd first_leaf app join]. intros Ho HQ.
  apply wp_bind. eapply wp_get_internal; [exact Ho|]. tree_simpl. cbn [fst].
  apply wp_bind. rewrite <- (refs_length L). eapply wp_at; [apply lookup_next|].
  apply wp_bind. eapply wp_put; [exact Ho|]. intros s1 H1. rewrite remove_items_next in H1.
  apply wp_bind. eapply wp_get_leaf.
  { eapply owns_perm; [|exact H1]. instantiate (1 := (pp, _) :: (l, _) :: F).
    etrans; [|apply perm_skip, perm_swap]. apply perm_swap. }
  cbn beta iota. apply wp_bind. eapply wp_get_leaf; [eapply owns_perm; [apply perm_swap|exact H1]|]. cbn beta iota.
  apply wp_bind. eapply wp_put; [eapply owns_perm; [apply perm_swap|exact H1]|]. intros s2 H2.
  apply wp_bind. eapply wp_put.
  { eapply owns_perm; [|exact H2]. etrans; [|apply perm_skip, perm_swap]. apply perm_swap. }
  intros s3 H3. eapply wp_free; [exact H3|]. intros s4 H4. apply HQ.
  eapply owns_perm; [|exact H4]. tree_simpl. apply perm_swap.
Qed.

Lemma merge_internal_ok hd s pp ppp {h} L kl (tl : tree (S h)) kr (tr : tree (S h)) R nx F (Q : RC + unit -> BTree -> Prop) :
  owns hd s (siblings pp ppp L kl R nx F tl kr tr) ->
  (forall s', owns hd s' (merged pp ppp L kl R nx F (tl.1, join tl.2 tr.2)) -> Q (inr ()) s') ->
  wp (merge_internal tl.1 tr.1 pp (S (length L))) s Q.
Proof using Type.
  destruct tl as [l bl], tr as [r br]. change (l, bl) with (TN (h := h) l bl). change (r, br) with (TN (h := h) r br).
  unfold siblings, merged. change (((TN l bl).1, join (TN l bl).2 (TN r br).2)) with (TN (h := h) l (bl ++ br)).
  change (list (item h)) in bl, br. tree_simpl. cbn [fst TN]. intros Ho HQ.
  apply wp_bind. eapply wp_get_internal; [exact Ho|].
  apply wp_bind. rewrite <- (refs_length L). eapply wp_at; [apply lookup_next|].
  apply wp_bind. eapply wp_put; [exact Ho|]. intros s1 H1. rewrite remove_items_next in H1.
  set (pnode := (pp, InternalNode ppp (refs L ++ (kl, l) :: refs R))) in *.
  assert (owns hd s1 ((r, InternalNode pp (refs br)) :: (l, InternalNode pp (refs bl)) :: pnode ::
    kids_nodes l (first_of nx br) bl ++ kids_nodes r nx br ++ F)) as H1' by (eapply owns_perm; [|exact H1]; perm).
  clear H1. apply wp_bind. eapply wp_get_internal; [exact H1'|].
  pose proof (owns_perm _ _ _ _ _ _ (perm_swap _ _ _) H1') as H1.
  apply wp_bind. eapply wp_get_internal; [exact H1|]. cbn beta iota.
  apply wp_bind, wp_bind. eapply wp_get_internal; [exact H1|]. apply wp_bind. eapply wp_put; [exact H1|]. intros s2 H2.
  assert (insert_items_at (length (refs bl)) (refs br) (refs bl) = refs bl ++ refs br) as Ei.
  { unfold insert_items_at. by rewrite take_ge, drop_ge, app_nil_r by lia. }
  rewrite Ei in H2.
  apply (wp_set_parents base tot hd r l nx br ((r, InternalNode pp (refs br)) :: (l, InternalNode pp (refs bl ++ refs br)) ::
    pnode :: kids_nodes l (first_of nx br) bl ++ F)); [eapply owns_perm; [|exact H2]; perm|].
  intros s3 H3. apply wp_bind. eapply wp_put; [eapply owns_perm; [apply Permutation_middle|exact H3]|].
  intros s4 H4. eapply wp_free; [exact H4|]. intros s5 H5. apply HQ. eapply owns_perm; [|exact H5].
  perm.
Qed.

(** [redistribute]: one entry moves over the separator. *)

Lemma redistribute_leaf_left hd s pp ppp kl l bl kr r e e' br (R : list (item 0)) nx F (Q : RC + unit -> BTree -> Prop) :
  owns hd s (siblings pp ppp [] kl R nx F (l, bl) kr (r, e :: e' :: br)) ->
  (forall s', owns hd s' (siblings pp ppp [] kl R nx F (l, bl ++ [e]) e'.1 (r, e' :: br)) -> Q (inr ()) s') ->
  wp (redistribute_leaf r l pp 0) s Q.
Proof using Type.
  unfold siblings. tree_simpl. cbn [nodes_of fst snd first_leaf app refs map]. intros Ho HQ.
  apply wp_bind. eapply (wp_get_leaf_mid base tot hd s [_; _]); [exact Ho|].
  apply wp_bind. eapply (wp_get_leaf_mid base tot hd s [_]); [exact Ho|].
  apply wp_bind. eapply wp_get_internal; [exact Ho|]. cbn [Nat.eqb]. cbn beta iota.
  apply wp_bind. eapply wp_at; [done|].
  apply wp_bind. eapply (wp_put_mid base tot hd s [_]); [exact Ho|]. intros s1 H1.
  apply wp_bind. eapply (wp_put_mid base tot hd s1 [_; _]); [exact H1|]. intros s2 H2.
  apply wp_bind. apply (wp_at _ _ e'); [done|]. destruct e' as [k' r']. cbn beta iota.
  apply wp_bind. apply (wp_at _ _ (kr, r)); [done|]. cbn beta iota.
  eapply wp_put; [exact H2|]. intros s3 H3. apply HQ. exact H3.
Qed.

Lemma remove_last {I} (l : list I) x : remove_items_at (length (l ++ [x]) - 1) 1 (l ++ [x]) = l.
Proof using Type.
  rewrite length_app. cbn [length]. rewrite Nat.add_sub.
  by rewrite remove_items_here, app_nil_r.
Qed.
Lemma lookup_last {I} (l : list I) x : (l ++ [x]) !! (length (l ++ [x]) - 1)%nat = Some x.
Proof using Type. rewrite length_app. cbn [length]. by rewrite Nat.add_sub, lookup_app_r, Nat.sub_diag by lia. Qed.

Lemma redistribute_leaf_right hd s pp ppp L kl l bl e kr r br (R : list (item 0)) nx F (Q : RC + unit -> BTree -> Prop) :
  owns hd s (siblings pp ppp L kl R nx F (l, bl ++ [e]) kr (r, br)) ->
  (forall s', owns hd s' (siblings pp ppp L kl R nx F (l, bl) e.1 (r, e :: br)) -> Q (inr ()) s') ->
  wp (redistribute_leaf l r pp (S (length L))) s Q.
Proof using Type.
  unfold siblings. tree_simpl. cbn [nodes_of fst snd first_leaf app]. intros Ho HQ.
  apply wp_bind. eapply (wp_get_leaf_mid base tot hd s [_]); [exact Ho|].
  apply wp_bind. eapply (wp_get_leaf_mid base tot hd s [_; _]); [exact Ho|].
  apply wp_bind. eapply wp_get_internal; [exact Ho|]. cbn [Nat.eqb]. cbn beta iota.
  apply wp_bind. eapply wp_at; [apply lookup_last|]. cbn beta iota.
  apply wp_bind. eapply (wp_put_mid base tot hd s [_; _]); [exact Ho|]. intros s1 H1.
  apply wp_bind. eapply (wp_put_mid base tot hd s1 [_]); [exact H1|]. intros s2 H2. rewrite remove_last in H2.
  apply wp_bind. rewrite <- (refs_length L). eapply wp_at; [apply lookup_next|]. cbn beta iota.
  rewrite insert_next. eapply wp_put; [exact H2|]. intros s3 H3. apply HQ. exact H3.
Qed.

Lemma redistribute_internal_left hd s pp ppp {h} kl l bl kr r k (t : tree h) it br R nx F (Q : RC + unit -> BTree -> Prop) :
  owns hd s (siblings pp ppp [] kl R nx F (TN l bl) kr (TN r ((k, t) :: it :: br))) ->
  (forall s', owns hd s' (siblings pp ppp [] kl R nx F (TN l (bl ++ [(k, t)])) it.1 (TN r (it :: br))) -> Q (inr ()) s') ->
  wp (redistribute_internal r l pp 0) s Q.
Proof using Type.
  destruct it as [k' t']. unfold siblings. cbn [app]. tree_simpl. cbn [fst snd TN]. intros Ho HQ.
  set (fl := first_of nx br) in *.
  assert (owns hd s ((pp, InternalNode ppp ((kl, l) :: (kr, r) :: refs R)) :: (l, InternalNode pp (refs bl)) ::
    (r, InternalNode pp ((k, t.1) :: (k', t'.1) :: refs br)) ::
    nodes_of h r (first_leaf h fl t') t ++ kids_nodes l (first_leaf h (first_leaf h fl t') t) bl ++
    nodes_of h r fl t' ++ kids_nodes r nx br ++ F)) as Ho' by (eapply owns_perm; [|exact Ho]; perm).
  apply wp_bind. eapply (wp_get_internal_mid base tot hd s [_; _]); [exact Ho'|].
  apply wp_bind. eapply (wp_get_internal_mid base tot hd s [_]); [exact Ho'|].
  apply wp_bind. eapply wp_get_internal; [exact Ho'|]. cbn [Nat.eqb]. cbn beta iota.
  apply wp_bind. eapply wp_at; [done|].
  apply wp_bind, wp_bind. eapply (wp_get_internal_mid base tot hd s [_]); [exact Ho'|].
  apply wp_bind. eapply (wp_put_mid base tot hd s [_]); [exact Ho'|]. intros s1 H1.
  assert (insert_items_at (length (refs bl)) [(k, t.1)] (refs bl) = refs (bl ++ [(k, t)])) as Ei.
  { unfold insert_items_at. by rewrite take_ge, drop_ge, app_nil_r, refs_app by lia. }
  rewrite Ei in H1. apply wp_bind.
  eapply (wp_set_parent_mid base tot hd s1 [_; _; _] h r l (first_leaf h fl t') t); [exact H1|]. intros s2 H2.
  cbn [set_parents]. apply wp_ret. cbn beta iota.
  apply wp_bind. eapply (wp_put_mid base tot hd s2 [_; _]); [exact H2|]. intros s3 H3.
  apply wp_bind. apply (wp_at _ _ (k', t'.1)); [done|]. cbn beta iota.
  apply wp_bind. apply (wp_at _ _ (kr, r)); [done|]. cbn beta iota.
  eapply wp_put; [exact H3|]. intros s4 H4. apply HQ. eapply owns_perm; [|exact H4].
  unfold remove_items_at. cbn [take drop app Nat.add insert list_insert first_of foldr kids_nodes]. tree_simpl. perm.
Qed.

Lemma redistribute_internal_right hd s pp ppp {h} L kl l bl k (t : tree h) kr r br R nx F (Q : RC + unit -> BTree -> Prop) :
  owns hd s (siblings pp ppp L kl R nx F (TN l (bl ++ [(k, t)])) kr (TN r br)) ->
  (forall s', owns hd s' (siblings pp ppp L kl R nx F (TN l bl) k (TN r ((k, t) :: br))) -> Q (inr ()) s') ->
  wp (redistribute_internal l r pp (S (length L))) s Q.
Proof using Type.
  unfold siblings. tree_simpl. cbn [fst snd TN]. intros Ho HQ.
  set (fl := first_of nx br) in *.
  assert (owns hd s ((pp, InternalNode ppp (refs L ++ (kl, l) :: (kr, r) :: refs R)) ::
    (l, InternalNode pp (refs bl ++ [(k, t.1)])) :: (r, InternalNode pp (refs br)) ::
    nodes_of h l fl t ++ kids_nodes l (first_leaf h fl t) bl ++ kids_nodes r nx br ++ F)) as Ho'.
  { eapply owns_perm; [|exact Ho]. cbn [first_of foldr kids_nodes refs map]. perm. }
  apply wp_bind. eapply (wp_get_internal_mid base tot hd s [_]); [exact Ho'|].
  apply wp_bind. eapply (wp_get_internal_mid base tot hd s [_; _]); [exact Ho'|].
  apply wp_bind. eapply wp_get_internal; [exact Ho'|]. cbn [Nat.eqb]. cbn beta iota.
  apply wp_bind. eapply wp_at; [apply lookup_last|].
  apply wp_bind, wp_bind. eapply (wp_get_internal_mid base tot hd s [_; _]); [exact Ho'|].
  apply wp_bind. eapply (wp_put_mid base tot hd s [_; _]); [exact Ho'|]. intros s1 H1.
  apply wp_bind. eapply (wp_set_parent_mid base tot hd s1 [_; _; _] h l r fl t); [exact H1|]. intros s2 H2.
  cbn [set_parents]. apply wp_ret. cbn beta iota.
  apply wp_bind. eapply (wp_put_mid base tot hd s2 [_]); [exact H2|]. intros s3 H3. rewrite remove_last in H3.
  apply wp_bind. rewrite <- (refs_length L). eapply wp_at; [apply lookup_next|]. cbn beta iota.
  rewrite insert_next. eapply wp_put; [exact H3|]. intros s4 H4. apply HQ. eapply owns_perm; [|exact H4].
  unfold insert_items_at. rewrite take_0, drop_0. cbn [app fst]. perm.
Qed.

(** ** At any height *)

Definition merge (h : nat) : Z -> Z -> Z -> nat -> M (A := A) unit :=
  match h with O => merge_leaf | S _ => merge_internal end.
Definition redistribute (h : nat) : Z -> Z -> Z -> nat -> M (A := A) unit :=
  match h with O => redistribute_leaf | S _ => redistribute_internal end.

Lemma merge_ok hd s pp ppp {h} L kl (tl : tree h) kr (tr : tree h) R nx F (Q : RC + unit -> BTree -> Prop) :
  owns hd s (siblings pp ppp L kl R nx F tl kr tr) ->
  (forall s', owns hd s' (merged pp ppp L kl R nx F (tl.1, join tl.2 tr.2)) -> Q (inr ()) s') ->
  wp (merge h tl.1 tr.1 pp (S (length L))) s Q.
Proof using Type. destruct h; [apply merge_leaf_ok|apply merge_internal_ok]. Qed.

Lemma redistribute_left_ok hd s pp ppp {h} kl (tl : tree h) kr (tr : tree h) R nx F (Q : RC + unit -> BTree -> Prop) :
  (2 <= blen tr.2)%nat -> owns hd s (siblings pp ppp [] kl R nx F tl kr tr) ->
  (forall s' bl k br, owns hd s' (siblings pp ppp [] kl R nx F (tl.1, bl) k (tr.1, br)) ->
    join bl br = join tl.2 tr.2 -> head_key br = Some k -> blen bl = S (blen tl.2) -> S (blen br) = blen tr.2 -> Q (inr ()) s') ->
  wp (redistribute h tr.1 tl.1 pp 0) s Q.
Proof using Type.
  destruct tl as [l bl], tr as [r br], h as [|h]; intros Hlen Ho HQ; cbn [fst snd redistribute] in *.
  - destruct br as [|e [|e' br]]; [cbn in Hlen; lia..|]. eapply redistribute_leaf_left; [exact Ho|].
    intros s' H'. eapply HQ; [exact H'| | | |]; cbn; [by rewrite <- app_assoc|done|apply last_length|done].
  - destruct br as [|[k t] [|it br]]; [cbn in Hlen; lia..|]. eapply (redistribute_internal_left hd s pp ppp kl l bl); [exact Ho|].
    intros s' H'. eapply HQ; [exact H'| | | |]; cbn; [by rewrite <- app_assoc|done|apply last_length|done].
Qed.

Lemma redistribute_right_ok hd s pp ppp {h} L kl (tl : tree h) kr (tr : tree h) R nx F (Q : RC + unit -> BTree -> Prop) :
  (1 <= blen tl.2)%nat -> owns hd s (siblings pp ppp L kl R nx F tl kr tr) ->
  (forall s' bl k br, owns hd s' (siblings pp ppp L kl R nx F (tl.1, bl) k (tr.1, br)) ->
    join bl br = join tl.2 tr.2 -> head_key br = Some k -> S (blen bl) = blen tl.2 -> blen br = S (blen tr.2) -> Q (inr ()) s') ->
  wp (redistribute h tl.1 tr.1 pp (S (length L))) s Q.
Proof using Type.
  destruct tl as [l bl], tr as [r br], h as [|h]; intros Hlen Ho HQ; cbn [fst snd redistribute] in *.
  - destruct bl as [|e bl _] using rev_ind; [cbn in Hlen; lia|]. eapply redistribute_leaf_right; [exact Ho|].
    intros s' H'. eapply HQ; [exact H'| | | |]; cbn; [by rewrite <- app_assoc|done|symmetry; apply last_length|done].
  - change (list (item h)) in bl. destruct bl as [|[k t] bl _] using rev_ind; [cbn in Hlen; lia|].
    eapply (redistribute_internal_right hd s pp ppp L kl l bl k t kr r br); [exact Ho|].
    intros s' H'. eapply HQ; [exact H'| | | |]; cbn; [by rewrite <- app_assoc|done|symmetry; apply last_length|done].
Qed.

(** The rest of the tree around two neighbours whose leftmost leaf is [fl]. *)
Definition around {h} (c : ctx (S h)) (pp : Z) (L R : list (item h)) (fl : Z) : list (Z * Node) :=
  kids_nodes pp fl L ++ kids_nodes pp (nxt_of c) R ++ ctx_nodes c pp (first_of fl L).

Lemma siblings_focus {h} (c : ctx (S h)) pp L kl (tl : tree h) kr tr R :
  let nx := first_of (nxt_of c) R in
  focus c (TN pp (L ++ (kl, tl) :: (kr, tr) :: R)) ≡ₚ
  siblings pp (parent_of c) L kl R nx (around c pp L R (first_leaf h (first_leaf h nx tr) tl)) tl kr tr.
Proof using Type. cbn zeta. unfold focus, siblings, around. tree_simpl. cbn [fst TN]. perm. Qed.

Lemma merged_focus {h} (c : ctx (S h)) pp L kl (t : tree h) R :
  let nx := first_of (nxt_of c) R in
  focus c (TN pp (L ++ (kl, t) :: R)) ≡ₚ merged pp (parent_of c) L kl R nx (around c pp L R (first_leaf h nx t)) t.
Proof using Type. cbn zeta. unfold focus, merged, around. tree_simpl. cbn [fst TN]. perm. Qed.

(** ** Up to the root *)

Lemma wp_ignore m s (Q : RC + unit -> BTree -> Prop) : wp m s (fun _ s' => Q (inr ()) s') -> wp (ignore_rc m) s Q.
Proof using Type. unfold wp, ignore_rc. by destruct (m s) as [[r s']|]. Qed.

Section up.
Context (hd : IndexFileHeader) (Hlm : (4 <= leaf_max_size hd)%nat) (Him : (6 <= internal_max_size hd)%nat).
#[local] Abbreviation repr := (index_repr base tot (internal_max_size hd) (leaf_max_size hd)).

(** A root that has become too small. *)
Lemma adjust_root_ok s h (t : tree h) (Q : RC + unit -> BTree -> Prop) :
  owns hd s (focus CTop t) -> hd.(root_page) = t.1 -> wf h None None t.2 -> inner_sized hd t.2 ->
  (match h with O => 0 | S _ => 1 end <= blen t.2 <= 1)%nat ->
  (forall s' h', (h' <= h)%nat -> repr h' s' (flat h t.2) -> Q (inr ()) s') ->
  wp (adjust_root t.1) s Q.
Proof using Hlm Him.
  unfold focus. cbn [ctx_nodes parent_of nxt_of]. rewrite app_nil_r. destruct t as [pn b], h as [|h]; cbn [fst snd];
    intros Ho Hr Hw Hs Hlen HQ; apply wp_bind.
  - eapply wp_get; [exact Ho|]. cbn [blen] in Hlen. cbn [snd]. destruct (Nat.ltb_spec 0 (length b)) as [Hb|Hb].
    + apply (HQ s O); [lia|]. exists hd. split_and!; [done|done|]. right. exists (pn, b). split_and!; try done.
      cbn. split; lia.
    + destruct b; [|cbn in Hb; lia]. apply wp_bind. eapply wp_root; [exact Ho|]. intros s1 H1.
      eapply wp_free; [exact H1|]. intros s2 H2. apply (HQ s2 O); [lia|]. eexists. split_and!; [| |left; split_and!; [split; [|exact H2]| |]]; done.
  - change (pn, b) with (TN (h := h) pn b) in Ho. rewrite nodes_of_S in Ho. cbn [blen] in Hlen.
    destruct b as [|[k t] [|it b]]; [cbn in Hlen; lia| |cbn in Hlen; lia]. rewrite kids_nodes_cons in Ho.
    eapply wp_get; [exact Ho|]. cbn [root_node refs map fst snd]. apply wp_bind. apply (wp_at _ _ (k, t.1)); [done|].
    cbn beta iota. apply wp_bind. eapply (wp_set_parent_mid base tot hd s [_] h pn); [exact Ho|]. intros s1 H1.
    apply wp_bind. eapply wp_root; [exact H1|]. intros s2 H2. eapply wp_free; [exact H2|]. intros s3 H3.
    cbn [kids_nodes first_of foldr] in H3. rewrite app_nil_r in H3. apply (HQ s3 h); [lia|]. eexists. split_and!; [| |right; exists t; split_and!; [exact H3| | | |]]; try done.
    + apply Hw.
    + apply Forall_cons in Hs as [Hs _]. eapply sized_same; [|apply sized_top; [| |exact Hs]]; [by split|lia|lia].
    + change (flats [(k, t)] = flat h t.2). rewrite flats_cons. apply app_nil_r.
Qed.

(** After a redistribution the index is valid again. *)
Lemma redistributed_ok s {h} (c : ctx (S h)) pp L kl (tl : tree h) kr (tr : tree h) R bl k br :
  let nx := first_of (nxt_of c) R in
  hd.(root_page) = root_of c pp -> ctx_wf c -> ctx_sized hd c ->
  wf (S h) (lo_of c) (hi_of c) (TN pp (L ++ (kl, tl) :: (kr, tr) :: R)).2 ->
  kids_sized hd L -> kids_sized hd R -> inner_sized hd (join tl.2 tr.2) ->
  (least hd (is_top c) (S h) <= S (S (length L + length R)) <= max_of hd (S h))%nat ->
  (1 <= blen tl.2)%nat -> (1 <= blen tr.2)%nat -> (1 <= blen bl)%nat ->
  join bl br = join tl.2 tr.2 -> head_key br = Some k ->
  (least hd false h <= blen bl <= max_of hd h)%nat -> (least hd false h <= blen br <= max_of hd h)%nat ->
  owns hd s (siblings pp (parent_of c) L kl R nx (around c pp L R (first_leaf h (first_leaf h nx tr) tl)) (tl.1, bl) k (tr.1, br)) ->
  repr (top_height c) s (left_of c ++ flats (L ++ (kl, tl) :: (kr, tr) :: R) ++ right_of c).
Proof using Hlm Him.
  cbn zeta. destruct tl as [l bl0], tr as [r br0]. cbn [fst snd].
  intros Hr Hcw Hcs Hw HsL HsR Hin Hlen Hbl0 Hbr0 Hbl1 Hj Hk Hbl Hbr Ho. rewrite wf_S in Hw.
  apply kids_ok_pair in Hw as (Hf & Hlo & Hhi & Hwl & Hwr). cbn [snd] in *.
  pose proof (wf_join _ _ _ _ _ Hbl0 Hbr0 Hlo Hhi Hwl Hwr) as Hwj. rewrite <- Hj in Hwj, Hin.
  destruct (wf_cut _ _ _ _ _ Hbl1 Hk Hwj) as (Hw1 & Hw2 & Hlo' & Hhi'). apply inner_sized_join in Hin as [Hi1 Hi2].
  exists hd. split_and!; [done|done|]. right.
  pose proof (focus_index_ok base tot hd c (TN pp (L ++ (kl, (l, bl)) :: (k, (r, br)) :: R)) s) as Hix.
  assert (flats (L ++ (kl, (l, bl)) :: (k, (r, br)) :: R) = flats (L ++ (kl, (l, bl0)) :: (kr, (r, br0)) :: R)) as Ef.
  { tree_simpl. cbn [snd]. rewrite !(app_assoc _ _ (flats R)). by rewrite <- !flat_join, Hj. }
  rewrite flat_S, Ef in Hix. apply Hix; try done.
  - eapply owns_perm; [|exact Ho]. rewrite siblings_focus.
    rewrite <- !(first_leaf_join _ _ r), Hj. done.
  - rewrite wf_S. by apply kids_ok_pair.
  - rewrite sized_S, length_app. cbn [length]. split; [lia|]. apply Forall_app. split; [done|].
    repeat constructor; [by apply sized_blen|by apply sized_blen|done].
Qed.

(** What a node may have lost before [coalesce_or_redistribute] is called. *)
Definition low (top : bool) (h : nat) : nat :=
  if top then match h with O => 0 | S _ => 1 end%nat else (max_of hd h / 2 - 1)%nat.

Lemma low_bounds h : (match h with O => 1 | S _ => 2 end <= low false h)%nat.
Proof using Hlm Him.
  unfold low. destruct h; cbn [max_of].
  - pose proof (Nat.div_le_mono 4 (leaf_max_size hd) 2 ltac:(lia) Hlm) as H. change (4 / 2)%nat with 2%nat in H. lia.
  - pose proof (Nat.div_le_mono 6 (internal_max_size hd) 2 ltac:(lia) Him) as H. change (6 / 2)%nat with 3%nat in H. lia.
Qed.

(** The key that is looked up in the parent leads back to the node. *)
Lemma last_key_ok {h} lo hi par nxt (t : tree h) s (Q : RC + key -> BTree -> Prop) :
  wf h lo hi t.2 -> (match h with O => 1 | S _ => 2 end <= blen t.2)%nat ->
  (forall k, in_range lo hi k -> Q (inr k) s) ->
  wp (match root_node h par nxt t with
      | LeafNode _ _ its => '(k, _) ← at_index its (length its - 1)%nat; mret k
      | InternalNode _ its => '(k, _) ← at_index its (length its - 1)%nat; mret k
      end) s Q.
Proof using Hlm Him.
  destruct t as [pn b], h as [|h]; cbn [snd root_node blen]; intros Hw Hlen HQ; apply wp_bind.
  - destruct b as [|[k r] b _] using rev_ind; [cbn in Hlen; lia|]. apply (wp_at _ _ (k, r)); [apply lookup_last|].
    apply wp_ret, HQ. destruct Hw as [_ Hw]. rewrite fmap_app in Hw. apply Forall_app in Hw as [_ Hw]. cbn in Hw.
    by apply Forall_cons in Hw as [? _].
  - change (list (item h)) in b. destruct b as [|[k t] b _] using rev_ind; [cbn in Hlen; lia|].
    rewrite refs_app. apply (wp_at _ _ (k, t.1)); [apply (lookup_last (refs b))|]. apply wp_ret, HQ.
    destruct b as [|it b]; [cbn in Hlen; lia|]. cbn [app] in Hw. apply kids_chain in Hw as (_ & _ & Hw).
    rewrite fmap_app in Hw. apply Forall_app in Hw as [_ Hw]. cbn in Hw. apply Forall_cons in Hw as [[H1 H2] _].
    split; [destruct lo; [cbn in H1; lia|done]|done].
Qed.

Lemma max_size_of h : max_size hd (match h with O => true | S _ => false end) = max_of hd h.
Proof using Type. by destruct h. Qed.
Lemma min_size_of h : min_size hd (match h with O => true | S _ => false end) = (max_of hd h - max_of hd h / 2)%nat.
Proof using Type. by destruct h. Qed.

Lemma least_min top h : (least hd top h <= max_of hd h - max_of hd h / 2)%nat.
Proof using Hlm Him.
  pose proof (Nat.div_mod_eq (max_of hd h) 2). pose proof (low_bounds h) as Hb. unfold low, least in *.
  destruct top, h; cbn [max_of] in *; lia.
Qed.

Definition post {h} (c : ctx h) (es : list (key * RID)) (Q : RC + unit -> BTree -> Prop) : Prop :=
  forall s' h', (h' <= top_height c)%nat -> repr h' s' (left_of c ++ es ++ right_of c) -> Q (inr ()) s'.

Lemma enough_ok {h} (c : ctx h) s (t : tree h) (Q : RC + unit -> BTree -> Prop) :
  owns hd s (focus c t) -> hd.(root_page) = root_of c t.1 -> ctx_wf c -> wf h (lo_of c) (hi_of c) t.2 ->
  ctx_sized hd c -> inner_sized hd t.2 -> (least hd (is_top c) h <= blen t.2 <= max_of hd h)%nat ->
  post c (flat h t.2) Q -> Q (inr ()) s.
Proof using Type.
  intros Ho Hr Hcw Hw Hcs Hin Hlen HQ. apply (HQ s (top_height c)); [done|]. exists hd. split_and!; [done|done|].
  right. apply focus_index_ok; try done. by apply sized_blen.
Qed.

(** The neighbour's turn: the tail of [coalesce_or_redistribute]; [K] is the call for
    the parent. *)
Definition with_neighbor (h : nat) (pn parent : Z) (n : Node) (index : nat) (pits : list (key * Z))
    (K : Z -> M (A := A) unit) : M (A := A) unit :=
  '(_, neighbor) ← at_index pits (if (index =? 0)%nat then 1 else index - 1)%nat;
  nb ← get_page neighbor;
  if (max_of hd h <? node_size n + node_size nb)%nat then redistribute h neighbor pn parent index
  else
    let '(lpn, rpn, i) := if (index =? 0)%nat then (pn, neighbor, 1%nat) else (neighbor, pn, index) in
    _ ← merge h lpn rpn parent i; K parent.

Section neighbor.
Context {h : nat} (c : ctx (S h)) (pp : Z) (L : list (item h)) (kl : key) (tl : tree h) (kr : key) (tr : tree h)
  (R : list (item h)) (s : BTree) (Q : RC + unit -> BTree -> Prop) (K : Z -> M (A := A) unit).
Let up := TN pp (L ++ (kl, tl) :: (kr, tr) :: R).
Context (Ho : owns hd s (focus c up)) (Hr : hd.(root_page) = root_of c pp) (Hcw : ctx_wf c)
  (Hw : wf (S h) (lo_of c) (hi_of c) up.2) (Hcs : ctx_sized hd c) (HsL : kids_sized hd L) (HsR : kids_sized hd R)
  (Hlen : (least hd (is_top c) (S h) <= S (S (length L + length R)) <= max_of hd (S h))%nat)
  (Hin : inner_sized hd tl.2 /\ inner_sized hd tr.2)
  (HQ : post c (flats (L ++ (kl, tl) :: (kr, tr) :: R)) Q)
  (HK : forall s' t', t'.1 = pp -> owns hd s' (focus c t') -> wf (S h) (lo_of c) (hi_of c) t'.2 -> inner_sized hd t'.2 ->
    S (blen t'.2) = S (S (length L + length R)) -> flat (S h) t'.2 = flats (L ++ (kl, tl) :: (kr, tr) :: R) -> wp (K pp) s' Q).

Lemma merge_step : (1 <= blen tl.2)%nat -> (1 <= blen tr.2)%nat ->
  (least hd false h <= blen tl.2 + blen tr.2 <= max_of hd h)%nat ->
  wp (_ ← merge h tl.1 tr.1 pp (S (length L)); K pp) s Q.
Proof using All.
  intros Hbl Hbr Hsum. apply wp_bind. eapply merge_ok.
  { eapply owns_perm; [|exact Ho]. symmetry. apply siblings_focus. }
  intros s' H'. apply (HK s' (TN pp (L ++ (kl, (tl.1, join tl.2 tr.2)) :: R))); [done| | | | |].
  - eapply owns_perm; [|exact H']. rewrite merged_focus, (first_leaf_join _ _ tr.1). by destruct tl, tr.
  - rewrite wf_S. apply kids_ok_hole. unfold up in Hw. rewrite wf_S in Hw.
    apply kids_ok_pair in Hw as (Hf & Hlo & Hhi & Hwl & Hwr). split; [done|]. by eapply wf_join.
  - apply Forall_app. split; [done|]. constructor; [|done]. apply sized_blen. cbn [snd].
    rewrite blen_join, inner_sized_join. done.
  - cbn. rewrite length_app. cbn. lia.
  - rewrite flat_S. tree_simpl. cbn [snd]. by rewrite flat_join, <- app_assoc.
Qed.

(** The node is the right one of the two. *)
Lemma right_step par nxt : (low false h <= blen tr.2 < max_of hd h - max_of hd h / 2)%nat ->
  (least hd false h <= blen tl.2 <= max_of hd h)%nat ->
  wp (with_neighbor h tr.1 pp (root_node h par nxt tr) (S (length L)) (refs (L ++ (kl, tl) :: (kr, tr) :: R)) K) s Q.
Proof using All.
  intros Htr Htl. pose proof (low_bounds h) as Hlow. pose proof (Nat.div_mod_eq (max_of hd h) 2) as Hdiv.
  pose proof (Nat.mod_upper_bound (max_of hd h) 2 ltac:(lia)) as Hmod.
  assert (owns hd s (siblings pp (parent_of c) L kl R (first_of (nxt_of c) R)
    (around c pp L R (first_leaf h (first_leaf h (first_of (nxt_of c) R) tr) tl)) tl kr tr)) as Hs.
  { eapply owns_perm; [|exact Ho]. symmetry. apply siblings_focus. }
  apply wp_bind. apply (wp_at _ _ (kl, tl.1)).
  { tree_simpl. cbn [Nat.eqb]. rewrite lookup_app_r by (rewrite refs_length; lia).
    rewrite refs_length. by replace (S (length L) - 1 - length L)%nat with 0%nat by lia. }
  cbn beta iota. apply wp_bind. eapply (wp_get_tree base tot hd s [_]); [exact Hs|]. cbn beta iota.
  rewrite !root_node_size. unfold least, low in *.
  destruct (Nat.ltb_spec (max_of hd h) (blen tr.2 + blen tl.2)) as [Hsum|Hsum].
  - eapply redistribute_right_ok; [|exact Hs|]; [destruct h; lia|]. intros s' bl k br H' Hj Hk Hbl Hbr.
    apply (HQ s' (top_height c)); [done|].
    eapply (redistributed_ok s' c pp L kl tl kr tr R bl k br); try done; unfold least; try (destruct h; lia).
    by apply inner_sized_join.
  - cbn [Nat.eqb]. apply merge_step; unfold least; destruct h; lia.
Qed.
End neighbor.

(** The node is the first child of its parent. *)
Lemma left_step {h} (c : ctx (S h)) pp kl (tl : tree h) kr (tr : tree h) R s (Q : RC + unit -> BTree -> Prop) K par nxt :
  let up := TN pp ((kl, tl) :: (kr, tr) :: R) in
  owns hd s (focus c up) -> hd.(root_page) = root_of c pp -> ctx_wf c -> wf (S h) (lo_of c) (hi_of c) up.2 ->
  ctx_sized hd c -> kids_sized hd R -> (least hd (is_top c) (S h) <= S (S (length R)) <= max_of hd (S h))%nat ->
  inner_sized hd tl.2 /\ inner_sized hd tr.2 -> post c (flats ((kl, tl) :: (kr, tr) :: R)) Q ->
  (forall s' t', t'.1 = pp -> owns hd s' (focus c t') -> wf (S h) (lo_of c) (hi_of c) t'.2 -> inner_sized hd t'.2 ->
    S (blen t'.2) = S (S (length R)) -> flat (S h) t'.2 = flats ((kl, tl) :: (kr, tr) :: R) -> wp (K pp) s' Q) ->
  (low false h <= blen tl.2 < max_of hd h - max_of hd h / 2)%nat ->
  (least hd false h <= blen tr.2 <= max_of hd h)%nat ->
  wp (with_neighbor h tl.1 pp (root_node h par nxt tl) 0 (refs ((kl, tl) :: (kr, tr) :: R)) K) s Q.
Proof using Hlm Him.
  cbn zeta. intros Ho Hr Hcw Hw Hcs HsR Hlen Hin HQ HK Htl Htr.
  pose proof (low_bounds h) as Hlow. pose proof (Nat.div_mod_eq (max_of hd h) 2) as Hdiv.
  pose proof (Nat.mod_upper_bound (max_of hd h) 2 ltac:(lia)) as Hmod.
  pose proof (siblings_focus c pp [] kl tl kr tr R) as Hp. cbn [app] in Hp. cbn zeta in Hp.
  assert (owns hd s (siblings pp (parent_of c) [] kl R (first_of (nxt_of c) R)
    (around c pp [] R (first_leaf h (first_leaf h (first_of (nxt_of c) R) tr) tl)) tl kr tr)) as Hs.
  { eapply owns_perm; [|exact Ho]. by symmetry. }
  apply wp_bind. apply (wp_at _ _ (kr, tr.1)); [done|].
  cbn beta iota. apply wp_bind. eapply (wp_get_tree base tot hd s (_ :: nodes_of h _ _ tl)); [exact Hs|].
  cbn beta iota. rewrite !root_node_size. unfold least, low in *.
  destruct (Nat.ltb_spec (max_of hd h) (blen tl.2 + blen tr.2)) as [Hsum|Hsum].
  - eapply redistribute_left_ok; [|exact Hs|]; [destruct h; lia|]. intros s' bl k br H' Hj Hk Hbl Hbr.
    apply (HQ s' (top_height c)); [done|].
    apply (redistributed_ok s' c pp [] kl tl kr tr R bl k br); try done; unfold least; try (destruct h; lia);
      [by constructor|by apply inner_sized_join].
  - cbn [Nat.eqb]. apply (merge_step c pp [] kl tl kr tr R s Q K); try done; unfold least; [by constructor|destruct h; lia..].
Qed.

(** A node with too few entries and its neighbour on either side. *)
Lemma neighbor_ok {h} (c : ctx (S h)) pp L k (t : tree h) R s (Q : RC + unit -> BTree -> Prop) K nxt :
  owns hd s (focus c (TN pp (L ++ (k, t) :: R))) -> hd.(root_page) = root_of c pp -> ctx_wf c ->
  wf (S h) (lo_of c) (hi_of c) (TN pp (L ++ (k, t) :: R)).2 -> ctx_sized hd c -> kids_sized hd L -> kids_sized hd R ->
  (least hd (is_top c) (S h) <= S (length L + length R) <= max_of hd (S h))%nat -> inner_sized hd t.2 ->
  (low false h <= blen t.2 < max_of hd h - max_of hd h / 2)%nat -> post c (flats (L ++ (k, t) :: R)) Q ->
  (forall s' t', t'.1 = pp -> owns hd s' (focus c t') -> wf (S h) (lo_of c) (hi_of c) t'.2 -> inner_sized hd t'.2 ->
    S (blen t'.2) = S (length L + length R) -> flat (S h) t'.2 = flats (L ++ (k, t) :: R) -> wp (K pp) s' Q) ->
  wp (with_neighbor h t.1 pp (root_node h pp nxt t) (length L) (refs (L ++ (k, t) :: R)) K) s Q.
Proof using Hlm Him.
  intros Ho Hr Hcw Hw Hcs HsL HsR Hlen Hin Hb HQ HK.
  destruct L as [|[kl tl] L _] using rev_ind.
  - destruct R as [|[kr tr] R].
    { unfold least in Hlen. pose proof (Nat.div_le_mono 6 (internal_max_size hd) 2 ltac:(lia) Him).
      change (6 / 2)%nat with 3%nat in *. cbn [length max_of Nat.add] in Hlen. destruct (is_top c); lia. }
    apply Forall_cons in HsR as [Htr HsR]. apply sized_blen in Htr as [Htr1 Htr2].
    apply (left_step c pp k t kr tr R); try done.
  - apply Forall_app in HsL as [HsL Htl]. apply Forall_cons in Htl as [Htl _]. apply sized_blen in Htl as [Htl1 Htl2].
    rewrite <- app_assoc in *. cbn [app] in *. rewrite length_app in *. cbn [length] in *. rewrite Nat.add_1_r in *.
    apply (right_step c pp L kl tl k t R); try done.
Qed.

Lemma coalesce_ok h (c : ctx h) : forall fuel s (t : tree h) (Q : RC + unit -> BTree -> Prop), (depth c < fuel)%nat ->
  owns hd s (focus c t) -> hd.(root_page) = root_of c t.1 -> ctx_wf c -> wf h (lo_of c) (hi_of c) t.2 ->
  ctx_sized hd c -> inner_sized hd t.2 -> (low (is_top c) h <= blen t.2 <= max_of hd h)%nat ->
  post c (flat h t.2) Q -> wp (coalesce_or_redistribute fuel t.1) s Q.
Proof using Hlm Him.
  induction c as [h|h pp L k R c IH]; intros fuel s t Q Hf Ho Hr Hcw Hw Hcs Hin Hlen HQ;
    (destruct fuel as [|fuel]; [lia|]); cbn [coalesce_or_redistribute];
    (apply wp_bind; eapply wp_header; [exact Ho|]; apply wp_bind; eapply (wp_get_tree base tot hd s []); [exact Ho|]);
    cbn beta iota; rewrite root_node_size, root_node_leaf, root_node_parent_num, min_size_of, max_size_of;
    (destruct (Nat.leb_spec (max_of hd h - max_of hd h / 2) (blen t.2)) as [Hge|Hlt];
     [apply wp_ret; eapply enough_ok; try eassumption; pose proof (least_min (is_top (h := h) CTop) h);
      pose proof (least_min false h); cbn [is_top] in *; lia|]).
  - cbn [parent_of]. rewrite Z.eqb_refl. destruct (Nat.ltb_spec 1 (blen t.2)) as [H1|H1].
    + apply wp_ret. eapply enough_ok; try eassumption. cbn [is_top least]. destruct h; lia.
    + apply wp_ignore. eapply adjust_root_ok; try eassumption; [cbn [low is_top] in Hlen; lia|].
      intros s' h' Hh Hrep. apply (HQ s' h'); [done|]. cbn [left_of right_of app]. by rewrite app_nil_r.
  - cbn [parent_of is_top ctx_wf ctx_sized lo_of hi_of depth root_of] in *.
    destruct Hcw as [Hfr Hcw], Hcs as (HsL & HsR & Hcl & Hcs).
    assert (owns hd s (focus c (TN pp (L ++ (k, t) :: R)))) as Hup by (eapply owns_perm; [|exact Ho]; apply focus_frame).
    pose proof Hup as Hpp. unfold focus in Hpp. rewrite nodes_of_S in Hpp.
    destruct (Z.eqb_spec pp BP_INVALID_PAGE_NUM) as [->|_]; [by apply owns_pos in Hpp|].
    apply wp_bind. eapply wp_get_internal; [exact Hpp|]. cbn beta iota.
    apply wp_bind. eapply (last_key_ok _ _ _ _ t); [exact Hw|pose proof (low_bounds h); lia|]. intros k' Hk'. cbn beta iota.
    destruct (internal_lookup_child _ _ _ L k t R k' (frame_chain _ _ _ _ t _ Hfr) Hk') as [Hidx _].
    rewrite Hidx. apply wp_bind. apply (wp_at _ _ (k, t.1)).
    { tree_simpl. by rewrite lookup_app_r, refs_length, Nat.sub_diag by (rewrite refs_length; lia). }
    cbn beta iota. rewrite Z.eqb_refl. cbn [negb].
    assert (post c (flats (L ++ (k, t) :: R)) Q) as HQ'.
    { intros s' h' Hh Hrep. apply (HQ s' h' Hh). cbn [left_of right_of]. rewrite flats_app, flats_cons in Hrep.
      by rewrite <- !app_assoc in *. }
    assert (wf (S h) (lo_of c) (hi_of c) (TN pp (L ++ (k, t) :: R)).2) as Hwup by by apply kids_ok_hole.
    assert (wp (with_neighbor h t.1 pp (root_node h pp (nxt_of (CFrame pp L k R c)) t) (length L)
      (refs (L ++ (k, t) :: R)) (coalesce_or_redistribute fuel)) s Q) as Hwn.
    { apply (neighbor_ok c pp L k t R s Q); try done; [lia|].
      intros s' [pp' l'] E Ho' Hw' Hin' Hb' Hfl. cbn in E. subst pp'. apply (IH fuel s' (pp, l')); try done; [lia| |by rewrite Hfl].
      unfold low, least in *. destruct (is_top c); cbn [max_of] in *; lia. }
    unfold with_neighbor in Hwn. rewrite root_node_size in Hwn. clear -Hwn. by destruct h.
Qed.

Lemma leaf_wf_remove lo hi l1 e l2 : wf 0 lo hi (l1 ++ e :: l2) -> wf 0 lo hi (l1 ++ l2).
Proof using Type.
  intros [Hi Hr]. cbn [wf] in *. rewrite !fmap_app in *. cbn [fmap list_fmap] in *.
  apply increasing_app in Hi as (H1 & H2 & H3). apply increasing_cons in H2 as [_ H2].
  rewrite Forall_app, Forall_cons in Hr. rewrite increasing_app, Forall_app. split_and!; try tauto.
  eapply Forall_impl; [exact H3|]. intros x Hx. by apply Forall_cons in Hx as [_ ?].
Qed.

(** [delete_entry_internal] on the leaf that [find_leaf] reached. *)
Lemma delete_leaf_ok fuel s es (c : ctx 0) pn its k (Q : RC + unit -> BTree -> Prop) :
  (depth c < fuel)%nat -> stree_ok base tot hd s es (splug c (pn, its)) -> in_range (lo_of c) (hi_of c) k ->
  (sorted_delete k es = None -> Q (inl RECORD_NOT_EXIST) s) ->
  (forall es' s' h', sorted_delete k es = Some es' -> (h' <= top_height c)%nat -> repr h' s' es' -> Q (inr ()) s') ->
  wp (delete_entry_internal fuel pn k) s Q.
Proof using Hlm Him.
  intros Hf Hok Hk Hnone HQ.
  destruct (stree_ok_focus _ _ _ _ _ _ _ Hok) as (Ho & Hr & Hcw & Hw & Hcs & Hs & Hes).
  apply wp_bind. eapply wp_header; [exact Ho|]. apply wp_bind. eapply wp_get_leaf; [exact Ho|]. cbn beta iota. cbn [snd].
  pose proof (leaf_lookup_ok c _ _ its k Hcw Hk Hw) as Hl. destruct (leaf_lookup its k) as [i found].
  destruct Hl as (l1 & l2 & -> & -> & H1 & H2). cbn [flat snd] in Hes, Hw, Hs, Ho. destruct found; cbn [negb].
  2: { apply Hnone, sorted_delete_none. rewrite Hes, <- !app_assoc, app_assoc, fmap_app. apply Forall_app.
       split; [eapply Forall_impl; [exact H1|]|eapply Forall_impl; [exact H2|]]; intros y Hy; cbn in Hy; lia. }
  destruct H2 as (e & l2' & -> & He & _). rewrite remove_items_here. apply wp_bind. eapply wp_put; [exact Ho|]. intros s1 H1'.
  assert (sorted_delete k es = Some (left_of c ++ (l1 ++ l2') ++ right_of c)) as Hd.
  { rewrite Hes, <- !app_assoc, app_assoc. cbn [app]. rewrite sorted_delete_at by done. by rewrite <- !app_assoc. }
  apply leaf_wf_remove in Hw. cbn [sized] in Hs. rewrite length_app in Hs. cbn [length] in Hs.
  assert (post c (flat 0 (pn, l1 ++ l2').2) Q) as HQ' by (intros s' h' Hh Hrep; by eapply HQ).
  assert (length (l1 ++ l2') = length l1 + length l2')%nat as El by apply length_app.
  pose proof (least_min (is_top c) 0) as Hmin. change (min_size hd true) with (max_of hd 0 - max_of hd 0 / 2)%nat.
  destruct (Nat.leb_spec (max_of hd 0 - max_of hd 0 / 2) (length (l1 ++ l2'))) as [Hge|Hlt].
  - apply wp_ret. eapply (enough_ok c s1 (pn, l1 ++ l2')); try done. cbn [blen snd]. lia.
  - apply (coalesce_ok 0 c fuel s1 (pn, l1 ++ l2')); try done. cbn [blen snd]. unfold low, least in *. destruct (is_top c); lia.
Qed.
End up.
End delete.
