(* ===== verification/BplusScan.v ===== *)
(** * BplusScan: range scans over the index

    Models [BplusTreeScanner] of [src/src/observer/storage/index/bplus_tree.cpp]
    ([open], [next_entry], [touch_end], [fetch_item], [fix_user_key]) and
    [BplusTreeHandler::get_entry], and shows that a scan returns exactly the entries
    between its bounds, in key order.

    The leaf latch that [next_entry] tries to take is always free here. *)

From S2P Require Import Prelude RecordPage PageAlloc Compare BplusTree BplusInv BplusStep.

(** ** The scanner *)

(** [BplusTreeScanner::fix_user_key]: a search key of another length than the attribute,
    cut or padded, and whether the bound has to become inclusive.  [c++] on a [char]
    wraps. *)
Definition fix_user_key (attr_length : nat) (user_key : list Z) (key_len : nat) (want_greater : bool) : list Z * bool :=
  if (key_len <=? attr_length)%nat then (take key_len user_key ++ replicate (attr_length - key_len) 0, false)
  else
    let key_buf := take attr_length user_key in
    if nth attr_length user_key 0 =? 0 then (key_buf, false)
    else
      (if want_greater
       then <[(attr_length - 1)%nat := wrap_s 8 (nth (attr_length - 1) key_buf 0 + 1)]> key_buf else key_buf, true).

Section scanner.
Context {KO : KeyOrder} {A : Type} {PA : PageAllocator A}.
#[local] Abbreviation BTree := (@BplusTree.BTree KO A).
#[local] Abbreviation M := (@BplusTree.M KO A).

(** The attribute values, their order, and [make_key]; [fix_key] is [fix_user_key] for
    character attributes and does nothing for the others. *)
Context {U : Type} (attr_compare : U -> U -> Z) (make_key : U -> RID -> key) (fix_key : U -> bool -> U * bool).

Record Scanner := mkScanner {
  current_frame : option Z;
  iter_index : Z;
  right_key : option key;
  first_emitted : bool
}.

Definition key_at (its : list (key * RID)) (i : Z) : M (key * RID) :=
  if i <? 0 then crash else at_index its (Z.to_nat i).

(** [touch_end] *)
Definition touch_end (pn : Z) (i : Z) (right_key : option key) : M bool :=
  match right_key with
  | None => mret false
  | Some rk => '(_, _, its) ← get_leaf pn; '(k, _) ← key_at its i; mret (0 <? compare k rk)
  end.

(** [fetch_item] *)
Definition fetch_item (pn : Z) (i : Z) : M RID := '(_, _, its) ← get_leaf pn; '(_, rid) ← key_at its i; mret rid.

(** [BplusTreeScanner::next_entry] *)
Fixpoint next_entry (fuel : nat) (sc : Scanner) : M (option RID * Scanner) :=
  match fuel with
  | O => crash
  | S fuel' =>
      match sc.(current_frame) with
      | None => mret (None, sc)
      | Some pn =>
          if negb sc.(first_emitted) then
            rid ← fetch_item pn sc.(iter_index);
            mret (Some rid, mkScanner sc.(current_frame) sc.(iter_index) sc.(right_key) true)
          else
            let i := sc.(iter_index) + 1 in
            '(_, next_page_num, its) ← get_leaf pn;
            if i <? zlen its then
              e ← touch_end pn i sc.(right_key);
              if (e : bool) then mret (None, mkScanner sc.(current_frame) i sc.(right_key) true)
              else rid ← fetch_item pn i; mret (Some rid, mkScanner sc.(current_frame) i sc.(right_key) true)
            else if next_page_num =? BP_INVALID_PAGE_NUM
            then mret (None, mkScanner sc.(current_frame) i sc.(right_key) true)
            else next_entry fuel' (mkScanner (Some next_page_num) (-1) sc.(right_key) true)
      end
  end.

(** The bounds given to [open]: a user key and whether it is inclusive. *)
Definition Bound : Type := option (U * bool).

(** The key a bound is searched with: [make_key] with the smallest or largest RID. *)
Definition left_bound (u : U) (inclusive : bool) : key :=
  let '(u', fixed) := fix_key u true in
  make_key u' (if inclusive || fixed then rid_min else rid_max).
Definition right_bound (u : U) (inclusive : bool) : key :=
  let '(u', fixed) := fix_key u false in
  make_key u' (if inclusive || fixed then rid_max else rid_min).

(** The range check of [open] *)
Definition range_invalid (left right : Bound) : bool :=
  match left, right with
  | Some (l, li), Some (r, ri) =>
      let result := attr_compare l r in
      (0 <? result) || ((result =? 0) && (negb li || negb ri))
  | _, _ => false
  end.

(** The first leaf and index of a scan, [None] when there is nothing to scan. *)
Definition open_left (fuel : nat) (left : Bound) : M (option (Z * Z)) := fun s =>
  match left with
  | None =>
      match left_most_page fuel s with
      | Some (inl EMPTY, s') => Some (inr None, s')
      | Some (inl rc, s') => Some (inl rc, s')
      | Some (inr pn, s') => Some (inr (Some (pn, 0)), s')
      | None => None
      end
  | Some (u, inclusive) =>
      let left_key := left_bound u inclusive in
      match find_leaf fuel left_key s with
      | Some (inl EMPTY, s') => Some (inr None, s')
      | Some (inl rc, s') => Some (inl rc, s')
      | Some (inr pn, s') =>
          ('(_, nx, its) ← get_leaf pn;
           let left_index := (leaf_lookup its left_key).1 in
           if (length its <=? left_index)%nat then
             if nx =? BP_INVALID_PAGE_NUM then mret None
             else _ ← get_page nx; mret (Some (nx, 0))
           else mret (Some (pn, Z.of_nat left_index))) s'
      | None => None
      end
  end.

(** [BplusTreeScanner::open] on a scanner that is not open. *)
Definition open (fuel : nat) (left right : Bound) : M Scanner :=
  if range_invalid left right then fail INVALID_ARGUMENT
  else
    start ← open_left fuel left;
    match start with
    | None => mret (mkScanner None 0 None false)
    | Some (pn, i) =>
        let rk := match right with None => None | Some (u, inclusive) => Some (right_bound u inclusive) end in
        e ← touch_end pn i rk;
        mret (mkScanner (if (e : bool) then None else Some pn) i rk false)
    end.

(** [while ((rc = scanner.next_entry(rid)) == RC::SUCCESS) rids.push_back(rid)]; [n]
    bounds the number of entries. *)
Fixpoint collect (n : nat) (sc : Scanner) : M (list RID) :=
  match n with
  | O => crash
  | S n' =>
      '(r, sc') ← (fun s => next_entry (tree_fuel s) sc s);
      match r with None => mret [] | Some rid => rids ← collect n' sc'; mret (rid :: rids) end
  end.

Definition scan (n : nat) (left right : Bound) : M (list RID) :=
  sc ← (fun s => open (tree_fuel s) left right s); collect n sc.

(** [BplusTreeHandler::get_entry] *)
Definition get_entry (n : nat) (u : U) : M (list RID) := scan n (Some (u, true)) (Some (u, true)).
End scanner.

(** ** The leaves, from left to right *)

Abbreviation leaf := (Z * list (key * RID))%type.

Section leaves.
Context {KO : KeyOrder}.

Fixpoint leaves (h : nat) : tree h -> list leaf :=
  match h with O => fun t => [t] | S h' => fun t => concat (map (fun it => leaves h' it.2) t.2) end.
Definition leaves_of {h} (l : list (item h)) : list leaf := concat (map (fun it => leaves h it.2) l).
Definition head_page (nxt : Z) (ls : list leaf) : Z := match ls with [] => nxt | lf :: _ => lf.1 end.
Definition entries (ls : list leaf) : list (key * RID) := concat ls.*2.

(** Leaves linked in the pages [m]; the last one points to [nxt]. *)
Fixpoint linked (m : gmap Z Node) (nxt : Z) (ls : list leaf) : Prop :=
  match ls with
  | [] => True
  | lf :: ls' => (exists par, m !! lf.1 = Some (LeafNode par (head_page nxt ls') lf.2)) /\ linked m nxt ls'
  end.

Lemma leaves_of_cons {h} k (t : tree h) l : leaves_of ((k, t) :: l) = leaves h t ++ leaves_of l.
Proof using Type. done. Qed.
Lemma leaves_of_app {h} (l1 l2 : list (item h)) : leaves_of (l1 ++ l2) = leaves_of l1 ++ leaves_of l2.
Proof using Type. unfold leaves_of. by rewrite map_app, concat_app. Qed.
Lemma entries_app l1 l2 : entries (l1 ++ l2) = entries l1 ++ entries l2.
Proof using Type. unfold entries. by rewrite fmap_app, concat_app. Qed.
Lemma head_page_app nxt l1 l2 : head_page nxt (l1 ++ l2) = head_page (head_page nxt l2) l1.
Proof using Type. by destruct l1. Qed.

Lemma linked_app m nxt l1 l2 : linked m nxt (l1 ++ l2) <-> linked m (head_page nxt l2) l1 /\ linked m nxt l2.
Proof using Type.
  induction l1 as [|lf l1 IH]; cbn; [tauto|]. rewrite IH, head_page_app. tauto.
Qed.

Lemma first_leaf_head h : forall nxt (t : tree h), first_leaf h nxt t = head_page nxt (leaves h t).
Proof using Type.
  induction h as [|h IH]; intros nxt [pn b]; [done|]. change (first_of nxt b = head_page nxt (leaves_of (h := h) b)).
  induction b as [|[k t] b IHb]; [done|]. by rewrite first_of_cons, leaves_of_cons, head_page_app, IH, IHb.
Qed.

Lemma flat_leaves h : forall t : tree h, flat h t.2 = entries (leaves h t).
Proof using Type.
  induction h as [|h IH]; intros [pn b]; [cbn; by rewrite app_nil_r|].
  change (flats (h := h) b = entries (leaves_of (h := h) b)).
  induction b as [|[k t] b IHb]; [done|]. by rewrite flats_cons, leaves_of_cons, entries_app, IH, IHb.
Qed.

(** The next-leaf pointers of a tree's pages link its leaves. *)
Lemma nodes_linked m h : forall par nxt (t : tree h),
  (forall p n, (p, n) ∈ nodes_of h par nxt t -> m !! p = Some n) -> linked m nxt (leaves h t).
Proof using Type.
  induction h as [|h IH]; intros par nxt [pn b] Hm.
  - split; [|done]. exists par. apply Hm. by left.
  - change (pn, b) with (TN (h := h) pn b) in Hm. rewrite nodes_of_S in Hm.
    assert (forall p n, (p, n) ∈ kids_nodes (h := h) pn nxt b -> m !! p = Some n) as Hk by (intros p n H; apply Hm; by right).
    clear Hm. change (linked m nxt (leaves_of (h := h) b)).
    induction b as [|[k t] b IHb]; [done|]. rewrite kids_nodes_cons in Hk. rewrite leaves_of_cons, linked_app. split.
    + replace (head_page nxt (leaves_of b)) with (first_of nxt b).
      * apply (IH pn). intros p n H. apply Hk, elem_of_app. by left.
      * apply (first_leaf_head (S h) nxt (TN pn b)).
    + apply IHb. intros p n H. apply Hk, elem_of_app. by right.
Qed.

Fixpoint left_leaves {h} (c : ctx h) : list leaf :=
  match c with CTop => [] | CFrame _ L _ _ c' => left_leaves c' ++ leaves_of L end.
Fixpoint right_leaves {h} (c : ctx h) : list leaf :=
  match c with CTop => [] | CFrame _ _ _ R c' => leaves_of R ++ right_leaves c' end.

Lemma plug_leaves {h} (c : ctx h) : forall t, leaves _ (plug c t) = left_leaves c ++ leaves h t ++ right_leaves c.
Proof using Type.
  induction c as [h|h pn L k R c IH]; intros t; cbn [plug left_leaves right_leaves]; [cbn; by rewrite app_nil_r|].
  rewrite IH. change (leaves (S h) (TN pn (L ++ (k, t) :: R))) with (leaves_of (L ++ (k, t) :: R)).
  rewrite leaves_of_app, leaves_of_cons. by rewrite <- !app_assoc.
Qed.

Lemma flats_leaves {h} (l : list (item h)) : flats l = entries (leaves_of l).
Proof using Type. apply (flat_leaves (S h) (TN 0 l)). Qed.

Lemma left_of_leaves {h} (c : ctx h) : left_of c = entries (left_leaves c).
Proof using Type.
  induction c as [h|h pn L k R c IH]; cbn [left_of left_leaves right_of right_leaves]; [done|].
  by rewrite entries_app, IH, flats_leaves.
Qed.
Lemma right_of_leaves {h} (c : ctx h) : right_of c = entries (right_leaves c).
Proof using Type.
  induction c as [h|h pn L k R c IH]; cbn [left_of left_leaves right_of right_leaves]; [done|].
  by rewrite entries_app, IH, flats_leaves.
Qed.

Lemma leaves_nonempty hd (Hl : (2 <= leaf_max_size hd)%nat) h : forall top (t : tree h),
  sized hd top h t.2 -> Forall (fun lf => lf.2 <> []) (leaves h t).
Proof using Type.
  induction h as [|h IH]; intros top [pn b] Hs.
  - constructor; [|done]. cbn [snd]. intros ->. destruct top; cbn [sized least max_of length snd] in Hs; [lia|].
    pose proof (Nat.div_le_mono 2 (leaf_max_size hd) 2 ltac:(lia) Hl). change (2 / 2)%nat with 1%nat in *. lia.
  - change (Forall (fun lf => lf.2 <> []) (leaves_of (h := h) b)). destruct Hs as [_ Hs].
    induction b as [|[k t] b IHb]; [done|]. apply Forall_cons in Hs as [Ht Hs]. rewrite leaves_of_cons. apply Forall_app.
    split; [by eapply IH|by apply IHb].
Qed.
End leaves.

(** ** Scanning the leaves *)

Section scanning.
Context {KO : KeyOrder} {A : Type} {PA : PageAllocator A}.
#[local] Abbreviation BTree := (@BplusTree.BTree KO A).

(** The leaves are linked, not empty, and have real page numbers. *)
Definition chain (s : BTree) (ls : list leaf) : Prop :=
  linked s.(nodes) BP_INVALID_PAGE_NUM ls /\ Forall (fun lf => lf.2 <> [] /\ lf.1 <> BP_INVALID_PAGE_NUM) ls.

Lemma chain_app s l1 l2 : chain s (l1 ++ l2) -> chain s l2.
Proof using Type. unfold chain. rewrite linked_app, Forall_app. tauto. Qed.

(** What a scan has still to return. *)
Definition upto (rk : option key) (es : list (key * RID)) : list (key * RID) :=
  match rk with None => es | Some k => filter (fun e => compare e.1 k <= 0) es end.

Lemma get_leaf_run (s : BTree) pn par nx its : s.(nodes) !! pn = Some (LeafNode par nx its) ->
  get_leaf pn s = Some (inr (par, nx, its), s).
Proof using Type. intros H. unfold get_leaf, mbind, M_bind, get_page. by rewrite H. Qed.

Lemma key_at_run (s : BTree) its i e : 0 <= i -> its !! Z.to_nat i = Some e -> key_at its i s = Some (inr e, s).
Proof using Type. intros Hi H. unfold key_at, at_index. destruct (Z.ltb_spec i 0); [lia|]. by rewrite H. Qed.

Lemma touch_end_run (s : BTree) pn par nx its i e rk : s.(nodes) !! pn = Some (LeafNode par nx its) -> 0 <= i ->
  its !! Z.to_nat i = Some e ->
  touch_end pn i rk s = Some (inr (match rk with None => false | Some k => 0 <? compare e.1 k end), s).
Proof using Type.
  intros H Hi He. destruct rk as [k|]; [|done]. unfold touch_end. unfold mbind at 1, M_bind at 1. rewrite (get_leaf_run _ _ _ _ _ H).
  unfold mbind, M_bind. rewrite (key_at_run _ _ _ _ Hi He). by destruct e.
Qed.

Lemma fetch_item_run (s : BTree) pn par nx its i e : s.(nodes) !! pn = Some (LeafNode par nx its) -> 0 <= i ->
  its !! Z.to_nat i = Some e -> fetch_item pn i s = Some (inr e.2, s).
Proof using Type.
  intros H Hi He. unfold fetch_item. unfold mbind at 1, M_bind at 1. rewrite (get_leaf_run _ _ _ _ _ H).
  unfold mbind, M_bind. rewrite (key_at_run _ _ _ _ Hi He). by destruct e.
Qed.

Definition past (rk : option key) (e : key * RID) : bool :=
  match rk with None => false | Some k => 0 <? compare e.1 k end.

(** [next_entry] inside a leaf. *)
Lemma next_entry_here (s : BTree) fuel pn par nx its i e rk : s.(nodes) !! pn = Some (LeafNode par nx its) -> 0 <= i + 1 ->
  its !! Z.to_nat (i + 1) = Some e ->
  next_entry (S fuel) (mkScanner (Some pn) i rk true) s =
  Some (inr (if past rk e then None else Some e.2, mkScanner (Some pn) (i + 1) rk true), s).
Proof using Type.
  intros H Hi He. cbn [next_entry current_frame first_emitted iter_index right_key negb]. unfold mbind at 1, M_bind at 1.
  rewrite (get_leaf_run _ _ _ _ _ H). apply lookup_lt_Some in He as Hlt.
  destruct (Z.ltb_spec (i + 1) (zlen its)); [|unfold zlen in *; lia].
  unfold mbind at 1, M_bind at 1. rewrite (touch_end_run _ _ _ _ _ _ _ _ H Hi He). fold (past rk e).
  destruct (past rk e); [done|]. unfold mbind, M_bind. by rewrite (fetch_item_run _ _ _ _ _ _ _ H Hi He).
Qed.

(** What is left after entry [i] of the first of the leaves [ls]. *)
Definition pending (i : Z) (ls : list leaf) : list (key * RID) :=
  match ls with [] => [] | lf :: ls' => drop (Z.to_nat (i + 1)) lf.2 ++ entries ls' end.

Lemma next_entry_ok (s : BTree) fuel lf ls i rk : chain s (lf :: ls) -> 0 <= i + 1 ->
  match pending i (lf :: ls) with
  | [] => exists sc', next_entry (S (S fuel)) (mkScanner (Some lf.1) i rk true) s = Some (inr (None, sc'), s)
  | e :: es =>
      exists lf' ls' i', chain s (lf' :: ls') /\ 0 <= i' /\ pending i' (lf' :: ls') = es /\
      next_entry (S (S fuel)) (mkScanner (Some lf.1) i rk true) s =
      Some (inr (if past rk e then None else Some e.2, mkScanner (Some lf'.1) i' rk true), s)
  end.
Proof using Type.
  destruct lf as [pn its]. intros Hc Hi. pose proof Hc as [[[par Hn] Hl] Hf]. cbn [fst snd pending] in *.
  destruct (its !! Z.to_nat (i + 1)) as [e|] eqn:He.
  - rewrite (drop_S _ _ _ He). cbn [app]. exists (pn, its), ls, (i + 1). split_and!; [done|done| |].
    + cbn [pending snd]. do 2 f_equal. lia.
    + cbn [fst]. by eapply next_entry_here.
  - apply lookup_ge_None in He as Hge. rewrite drop_ge by done. cbn [app].
    assert (forall f, next_entry (S f) (mkScanner (Some pn) i rk true) s =
      if head_page BP_INVALID_PAGE_NUM ls =? BP_INVALID_PAGE_NUM
      then Some (inr (None, mkScanner (Some pn) (i + 1) rk true), s)
      else next_entry f (mkScanner (Some (head_page BP_INVALID_PAGE_NUM ls)) (-1) rk true) s) as Hstep.
    { intros f. cbn [next_entry current_frame first_emitted iter_index right_key negb]. unfold mbind at 1, M_bind at 1.
      rewrite (get_leaf_run _ _ _ _ _ Hn). destruct (Z.ltb_spec (i + 1) (zlen its)); [unfold zlen in *; lia|].
      by destruct (_ =? _). }
    rewrite Hstep. destruct ls as [|[pn' its'] ls]; [by eexists|]. cbn [head_page fst] in *.
    apply Forall_cons in Hf as [_ Hf]. apply Forall_cons in Hf as Hf'. destruct Hf' as [[Hne Hpn] _]. cbn [fst snd] in *.
    destruct (Z.eqb_spec pn' BP_INVALID_PAGE_NUM); [done|]. destruct its' as [|e its']; [done|].
    change (entries ((pn', e :: its') :: ls)) with (e :: its' ++ entries ls). cbn [app].
    exists (pn', e :: its'), ls, 0. split_and!; [by eapply (chain_app s [_])|done|done|].
    destruct Hl as [[par' Hn'] _]. by eapply (next_entry_here s fuel pn' par' _ _ (-1)).
Qed.

(** ** Collecting *)

Definition from (lk : option key) (es : list (key * RID)) : list (key * RID) :=
  match lk with None => es | Some k => filter (fun e => 0 <= compare e.1 k) es end.

Lemma upto_cons rk e es : increasing compare (e :: es).*1 ->
  upto rk (e :: es) = if past rk e then [] else e :: upto rk es.
Proof using Type.
  destruct rk as [k|]; [|done]. cbn [past upto fmap list_fmap]. intros [Hf _]%increasing_cons.
  destruct (Z.ltb_spec 0 (compare e.1 k)) as [Hp|Hp].
  - apply filter_none. constructor; [lia|]. rewrite Forall_fmap in Hf. eapply Forall_impl; [exact Hf|].
    intros x Hx. cbn in Hx. apply cmp_flip_lt in Hp. pose proof (cmp_lt_lt k e.1 x.1 Hp Hx) as H. apply cmp_flip_lt in H. lia.
  - by rewrite filter_cons_True by lia.
Qed.

Lemma chain_fuel s lf ls : chain s (lf :: ls) -> exists f, tree_fuel s = S (S f).
Proof using Type.
  intros [[[par H] _] _]. unfold tree_fuel. destruct (size s.(nodes)) as [|f] eqn:E; [|by exists f].
  apply map_size_empty_inv in E. rewrite E in H. by rewrite lookup_empty in H.
Qed.

Lemma collect_ok (s : BTree) rk n : forall lf ls i, chain s (lf :: ls) -> 0 <= i + 1 ->
  increasing compare (pending i (lf :: ls)).*1 -> (length (pending i (lf :: ls)) < n)%nat ->
  collect n (mkScanner (Some lf.1) i rk true) s = Some (inr (upto rk (pending i (lf :: ls))).*2, s).
Proof using Type.
  induction n as [|n IH]; intros lf ls i Hc Hi Hinc Hn; [lia|]. cbn [collect]. unfold mbind at 1, M_bind at 1.
  destruct (chain_fuel s lf ls Hc) as [f ->]. pose proof (next_entry_ok s f lf ls i rk Hc Hi) as Hnext.
  destruct (pending i (lf :: ls)) as [|e es].
  - destruct Hnext as [sc' ->]. by destruct rk.
  - destruct Hnext as (lf' & ls' & i' & Hc' & Hi' & Hp' & ->). rewrite upto_cons by done.
    destruct (past rk e); [done|]. unfold mbind, M_bind. apply increasing_cons in Hinc as [_ Hinc]. cbn [length] in Hn.
    rewrite (IH lf' ls' i'); [by rewrite Hp'|done|lia|by rewrite Hp'|rewrite Hp'; lia].
Qed.

(** From the position [open] found to the end of the scan. *)
Lemma collect_start (s : BTree) rk n lf ls i e : chain s (lf :: ls) -> 0 <= i -> lf.2 !! Z.to_nat i = Some e ->
  let es := e :: pending i (lf :: ls) in
  increasing compare es.*1 -> (length es < n)%nat ->
  (sc ← (b ← touch_end lf.1 i rk; mret (mkScanner (if (b : bool) then None else Some lf.1) i rk false)); collect n sc) s =
  Some (inr (upto rk es).*2, s).
Proof using Type.
  cbn zeta. intros Hc Hi He Hinc Hn. pose proof Hc as [[[par Hnode] _] _]. destruct n as [|n]; [cbn in Hn; lia|].
  unfold mbind at 1 2, M_bind at 1 2. rewrite (touch_end_run _ _ _ _ _ _ _ rk Hnode Hi He). fold (past rk e).
  rewrite upto_cons by done. cbn [collect]. destruct (chain_fuel s _ _ Hc) as [f Hf].
  destruct (past rk e); unfold mret, M_ret.
  - unfold mbind, M_bind. by rewrite Hf.
  - unfold mbind at 1, M_bind at 1. rewrite Hf. cbn [next_entry current_frame first_emitted negb iter_index right_key].
    unfold mbind at 1, M_bind at 1. rewrite (fetch_item_run _ _ _ _ _ _ _ Hnode Hi He).
    unfold mbind, M_bind, mret, M_ret. apply increasing_cons in Hinc as [_ Hinc]. cbn [length] in Hn.
    by rewrite (collect_ok s rk n lf ls i) by (done || lia).
Qed.

(** ** The leaves of a valid index *)

Context (base : gset Z) (tot : Z).

Lemma linked_pages m nxt ls : linked m nxt ls -> Forall (fun lf => is_Some (m !! lf.1)) ls.
Proof using Type.
  induction ls as [|lf ls IH]; [done|]. intros [[par H] Hl]. constructor; [by eexists|by apply IH].
Qed.

Lemma tree_chain hd h (t : tree h) top (s : BTree) : (2 <= leaf_max_size hd)%nat ->
  owns base tot hd s (nodes_of h BP_INVALID_PAGE_NUM BP_INVALID_PAGE_NUM t) -> sized hd top h t.2 -> chain s (leaves h t).
Proof using Type.
  intros Hl (_ & Ho & _) Hs.
  assert (linked s.(nodes) BP_INVALID_PAGE_NUM (leaves h t)) as Hk.
  { eapply nodes_linked. intros p n Hp. by eapply own_elem. }
  split; [done|]. apply linked_pages in Hk. apply leaves_nonempty in Hs; [|done].
  eapply Forall_impl; [apply Forall_and; split; [exact Hk|exact Hs]|]. intros lf [[n Hn] Hne]. split; [done|].
  apply (own_elem_pos _ _ _ _ Ho) in Hn. intros E. rewrite E in Hn. done.
Qed.

(** [left_most_page] *)
Lemma left_most_ok hd (Hm : (2 <= internal_max_size hd)%nat) : forall h fuel (t : tree h) par nxt top F (s : BTree),
  owns base tot hd s (nodes_of h par nxt t ++ F) -> sized hd top h t.2 -> (h < fuel)%nat ->
  exists lf ls, leaves h t = lf :: ls /\ find_leaf_from fuel (fun _ => 0%nat) t.1 s = Some (inr lf.1, s).
Proof using Type.
  induction h as [|h IH]; intros fuel [pn b] par nxt top F s Ho Hs Hf; (destruct fuel as [|fuel]; [lia|]).
  - exists (pn, b), []. split; [done|]. destruct Ho as (_ & Ho & _). apply own_lookup in Ho. cbn [fst] in Ho.
    cbn [find_leaf_from fst]. unfold mbind, M_bind, get_page. by rewrite Ho.
  - change (pn, b) with (TN (h := h) pn b) in *. rewrite sized_S in Hs. destruct Hs as [Hlen Hk].
    pose proof (least_pos hd top h Hm). change (list (item h)) in b. destruct b as [|[k t] b]; [cbn in Hlen; lia|].
    rewrite nodes_of_S, kids_nodes_cons in Ho. apply Forall_cons in Hk as [Ht _].
    destruct (IH fuel t pn (first_of nxt b) false ((pn, InternalNode par (refs ((k, t) :: b))) :: kids_nodes pn nxt b ++ F) s)
      as (lf & ls & E & Hfind); [eapply owns_perm; [|exact Ho]; perm|done|lia|].
    exists lf, (ls ++ leaves_of b). change (leaves (S h) (TN pn ((k, t) :: b))) with (leaves_of ((k, t) :: b)).
    rewrite leaves_of_cons, E. split; [done|]. destruct Ho as (_ & Ho & _). apply own_lookup in Ho.
    cbn [find_leaf_from fst TN]. unfold mbind, M_bind, get_page. rewrite Ho. exact Hfind.
Qed.

(** ** Opening a scan *)

Context {U : Type} (attr_compare : U -> U -> Z) (make_key : U -> RID -> key) (fix_key : U -> bool -> U * bool).
#[local] Abbreviation Bound := (option (U * bool)).

Definition left_key_of (b : Bound) : option key := (fun ub => left_bound make_key fix_key ub.1 ub.2) <$> b.
Definition right_key_of (b : Bound) : option key := (fun ub => right_bound make_key fix_key ub.1 ub.2) <$> b.

(** The scan starts at the first entry that is not before its left bound. *)
Definition start_ok (s : BTree) (es : list (key * RID)) (start : option (Z * Z)) : Prop :=
  match start with
  | None => es = []
  | Some (pn, i) => exists lf ls e, lf.1 = pn /\ chain s (lf :: ls) /\ 0 <= i /\ lf.2 !! Z.to_nat i = Some e /\
      es = e :: pending i (lf :: ls)
  end.

Lemma start_first s lf ls : chain s (lf :: ls) -> start_ok s (entries (lf :: ls)) (Some (lf.1, 0)).
Proof using Type.
  intros Hc. pose proof Hc as [_ Hf]. apply Forall_cons in Hf as [[Hne _] _]. destruct lf as [pn its]. cbn [fst snd] in *.
  destruct its as [|e its]; [done|]. exists (pn, e :: its), ls, e. by split_and!.
Qed.

Lemma open_left_none hd h s es : (2 <= internal_max_size hd)%nat -> (2 <= leaf_max_size hd)%nat ->
  index_ok base tot hd h s es ->
  exists start, open_left make_key fix_key (tree_fuel s) None s = Some (inr start, s) /\ start_ok s es start.
Proof using Type.
  intros Hi Hl (t & Ho & Hr & Hw & Hs & ->).
  pose proof (nodes_of_length hd h true BP_INVALID_PAGE_NUM BP_INVALID_PAGE_NUM t Hi Hs) as Hlen.
  pose proof (tree_chain hd h t true s Hl Ho Hs) as Hc.
  destruct (left_most_ok hd Hi h (tree_fuel s) t BP_INVALID_PAGE_NUM BP_INVALID_PAGE_NUM true [] s) as (lf & ls & E & Hf);
    [by rewrite app_nil_r|done|unfold tree_fuel; rewrite (owns_size _ _ _ _ _ Ho); lia|].
  exists (Some (lf.1, 0)). rewrite flat_leaves, E in *. split; [|by apply start_first].
  unfold open_left, left_most_page, find_leaf_internal, mbind, M_bind, get_header. pose proof Ho as (-> & _).
  rewrite nodes_of_root in Ho. apply owns_pos in Ho. rewrite Hr.
  destruct (Z.eqb_spec t.1 BP_INVALID_PAGE_NUM) as [E'|_]; [rewrite E' in Ho; done|]. by rewrite Hf.
Qed.

Lemma from_split k es1 es2 : Forall (fun y => compare y k < 0) es1.*1 -> Forall (fun y => 0 <= compare y k) es2.*1 ->
  from (Some k) (es1 ++ es2) = es2.
Proof using Type.
  intros H1 H2. unfold from. rewrite filter_app, filter_none, filter_all; [done| |].
  - by rewrite Forall_fmap in H2.
  - rewrite Forall_fmap in H1. eapply Forall_impl; [exact H1|]. intros e He. cbn in He. lia.
Qed.

Lemma open_left_some hd h s es u incl : (2 <= internal_max_size hd)%nat -> (2 <= leaf_max_size hd)%nat ->
  index_ok base tot hd h s es ->
  exists start, open_left make_key fix_key (tree_fuel s) (Some (u, incl)) s = Some (inr start, s) /\
    start_ok s (from (Some (left_bound make_key fix_key u incl)) es) start.
Proof using Type.
  intros Hi Hl Hok. set (lk := left_bound make_key fix_key u incl).
  destruct (find_leaf_ok base tot hd h s es lk Hi Hok) as (c & pn & its & E & Hst & Hk & _).
  pose proof (stree_ok_focus _ _ _ _ _ _ _ Hst) as (_ & _ & Hcw & Hw & _ & _ & Hes).
  assert (chain s ((pn, its) :: right_leaves c)) as Hc.
  { destruct Hst as (Ho & _ & _ & Hs & _). apply (tree_chain _ _ _ true) in Ho; [|done|done].
    unfold splug in Ho. cbn [projT1 projT2] in Ho. rewrite plug_leaves in Ho. by apply chain_app in Ho. }
  unfold open_left. fold lk. rewrite E. pose proof Hc as [[[par Hn] _] _]. cbn [fst snd] in Hn.
  unfold mbind at 1, M_bind at 1. rewrite (get_leaf_run _ _ _ _ _ Hn).
  pose proof (leaf_lookup_ok c _ _ its lk Hcw Hk Hw) as Hlk. destruct (leaf_lookup its lk) as [i found].
  destruct Hlk as (l1 & l2 & -> & -> & H1 & H2). cbn [fst].
  assert (from (Some lk) es = l2 ++ right_of c) as ->.
  { rewrite Hes. cbn [flat snd]. rewrite <- app_assoc, app_assoc. apply from_split; [done|].
    destruct found; [destruct H2 as (e & l2' & -> & He & H2); cbn; constructor; [lia|]|];
      (eapply Forall_impl; [exact H2|]; intros y Hy; cbn in Hy; lia). }
  destruct (Nat.leb_spec (length (l1 ++ l2)) (length l1)) as [Hge|Hlt].
  - assert (l2 = []) as -> by (rewrite length_app in Hge; destruct l2; [done|cbn in Hge; lia]).
    rewrite right_of_leaves. apply (chain_app s [_]) in Hc as Hc'. destruct (right_leaves c) as [|lf ls]; [by exists None|].
    exists (Some (lf.1, 0)). cbn [head_page app]. split; [|by apply start_first].
    pose proof Hc' as [[[par' Hn'] _] Hf]. apply Forall_cons in Hf as [[_ Hp] _].
    destruct (Z.eqb_spec lf.1 BP_INVALID_PAGE_NUM); [done|]. unfold mbind, M_bind, get_page. by rewrite Hn'.
  - exists (Some (pn, Z.of_nat (length l1))). split; [done|]. destruct l2 as [|e l2]; [rewrite app_nil_r in Hlt; lia|].
    exists (pn, l1 ++ e :: l2), (right_leaves c), e. cbn [fst snd pending]. rewrite right_of_leaves.
    split_and!; [done|done|lia|by rewrite Nat2Z.id, lookup_app_r, Nat.sub_diag by lia|].
    cbn [app]. do 2 f_equal. replace (Z.to_nat (Z.of_nat (length l1) + 1)) with (S (length l1)) by lia.
    rewrite cons_middle, app_assoc, drop_app_length' by (rewrite length_app; cbn; lia). done.
Qed.

Lemma from_increasing lk es : increasing compare es.*1 -> increasing compare (from lk es).*1.
Proof using Type.
  destruct lk as [k|]; [|done]. cbn [from]. induction es as [|e es IH]; [done|].
  rewrite fmap_cons. intros [Hf Hi]%increasing_cons.
  destruct (decide (0 <= compare e.1 k)); [rewrite filter_cons_True by done|rewrite filter_cons_False by done; by apply IH].
  rewrite fmap_cons. apply increasing_cons. split; [|by apply IH]. rewrite Forall_fmap in *.
  rewrite Forall_forall in *. intros x Hx. apply Hf. by apply list_elem_of_filter in Hx as [_ ?].
Qed.

(** The keys [open] searches for, and the entries between them. *)
Definition in_bounds (left right : Bound) (es : list (key * RID)) : list (key * RID) :=
  upto (right_key_of right) (from (left_key_of left) es).

Lemma scan_index_ok hd h s es left right n : (2 <= internal_max_size hd)%nat -> (2 <= leaf_max_size hd)%nat ->
  index_ok base tot hd h s es -> range_invalid attr_compare left right = false -> (length es < n)%nat ->
  scan attr_compare make_key fix_key n left right s = Some (inr (in_bounds left right es).*2, s).
Proof using Type.
  intros Hi Hl Hok Hr Hn.
  assert (exists start, open_left make_key fix_key (tree_fuel s) left s = Some (inr start, s) /\
    start_ok s (from (left_key_of left) es) start) as (start & E & Hstart).
  { destruct left as [[u incl]|]; [by eapply open_left_some|by eapply open_left_none]. }
  assert (increasing compare (from (left_key_of left) es).*1) as Hinc.
  { apply from_increasing. destruct Hok as (t & _ & _ & Hw & _ & ->). by eapply flat_increasing. }
  assert (length (from (left_key_of left) es) < n)%nat as Hlen.
  { destruct left as [ub|]; [|done]. cbn [left_key_of fmap option_fmap option_map from].
    pose proof (length_filter (fun e => 0 <= compare e.1 (left_bound make_key fix_key ub.1 ub.2)) es). lia. }
  unfold in_bounds, scan, open. unfold mbind at 1, M_bind at 1. rewrite Hr. unfold mbind at 1, M_bind at 1. rewrite E.
  destruct start as [[pn i]|].
  - destruct Hstart as (lf & ls & e & <- & Hc & Hi0 & He & Hes). rewrite Hes in *.
    rewrite <- (collect_start s (right_key_of right) n lf ls i e Hc Hi0 He Hinc Hlen).
    unfold mbind, M_bind. by destruct right as [[u incl]|].
  - cbn in Hstart. rewrite Hstart. destruct n; [lia|]. unfold mret, M_ret. cbn [collect]. unfold mbind, M_bind, tree_fuel.
    cbn [next_entry current_frame]. unfold mret, M_ret. by destruct (right_key_of right).
Qed.
End scanning.
