(* ===== verification/BplusIndex.v ===== *)
(** * BplusIndex: what the index promises

    The index over the pages of a buffer pool file refines a sorted list of entries. *)

From S2P Require Import Prelude RecordPage PageAlloc Compare BplusTree BplusInv BplusStep BplusInsert BplusDelete BplusScan.

(** ** The buffer pool as page allocator *)

Section pool_allocator.
Import PageAlloc.

#[export] Program Instance pool_allocator : PageAllocator (HeaderFrame * Log) := {
  pa_ok a := hdr_ok a.1.(file_header) /\ 0 ∈ allocated a.1.(file_header);
  pa_pages a := allocated a.1.(file_header);
  pa_free a := MAX_PAGE_NUM - a.1.(file_header).(allocated_pages);
  pa_allocate a := let '(rc, p, f, l) := allocate_page a.1 a.2 in (rc, p, (f, l));
  pa_dispose a p := let '(rc, f, l) := dispose_page a.1 a.2 p in (rc, (f, l))
}.
Next Obligation.
  intros [f l] [Hok H0] Hfree. cbn [fst snd] in *.
  destruct (allocate_page_cases f l Hok) as [[_ E]|(p & c & E & Hp & Hb & Hc)]; [lia|]. rewrite E.
  destruct (set_page_ok f.(file_header) p c Hok Hp Hb Hc) as [Hok' Hal].
  assert (p ∉ allocated f.(file_header)) as Hn by (rewrite elem_of_allocated; intros [_ ?]; congruence).
  eexists p, _. split; [done|]. cbn [fst snd file_header]. split_and!.
  - assert (p <> 0) by by intros ->. lia.
  - done.
  - done.
  - rewrite Hal. set_solver.
  - done.
  - cbn. lia.
Qed.
Next Obligation.
  intros [f l] p [Hok H0] Hin Hp. cbn [fst snd] in *. unfold dispose_page. destruct (Z.eqb_spec p 0); [lia|].
  destruct (clear_page_ok f.(file_header) p Hok Hin) as [Hok' Hal].
  eexists. split; [done|]. cbn [fst snd file_header]. split_and!; [done| |done|cbn; lia].
  rewrite Hal. set_solver.
Qed.
End pool_allocator.

Section index.
Context {KO : KeyOrder} {A : Type} {PA : PageAllocator A}.
#[local] Abbreviation BTree := (@BplusTree.BTree KO A).

Lemma index_free base tot imax lmax h s es : index_repr base tot imax lmax h s es ->
  pa_free s.(alloc) + Z.of_nat (size s.(nodes)) = tot.
Proof using Type.
  intros (hd & _ & _ & [((_ & Ho) & _)|(t & Ho & _)]); by destruct Ho as (_ & _ & _ & _ & _ & ?).
Qed.

Lemma wp_run {X} (m : M (A := A) X) s Q : wp m s Q -> exists r s', m s = Some (r, s') /\ Q r s'.
Proof using Type. unfold wp. destruct (m s) as [[r s']|]; [|done]. intros H. by exists r, s'. Qed.

(** The first entry makes the root leaf. *)
Lemma insert_first base tot hd s k rid : (1 <= leaf_max_size hd)%nat -> index_empty base tot hd s ->
  0 < pa_free s.(alloc) ->
  exists s', insert_entry k rid s = Some (inr (), s') /\
    index_repr base tot (internal_max_size hd) (leaf_max_size hd) 0 s' [(k, rid)].
Proof using Type.
  intros Hl [Hroot Ho] Hfree. pose proof Ho as (_ & _ & _ & _ & _ & Htot).
  assert (wp (insert_entry_fuel (tree_fuel s) k rid) s (fun r s' => r = inr () /\ exists p, index_ok base tot
    (mkHeader p (internal_max_size hd) (leaf_max_size hd)) 0 s' [(k, rid)])) as H.
  { apply wp_bind. eapply wp_header; [exact Ho|]. rewrite Hroot, Z.eqb_refl.
    apply wp_bind. eapply wp_header; [exact Ho|]. rewrite Hroot, Z.eqb_refl. cbn [negb].
    apply wp_bind. eapply wp_alloc; [exact Ho|lia|]. intros p s1 H1. eapply wp_root; [exact H1|]. intros s2 H2.
    split; [done|]. exists p, (p, [(k, rid)]). split_and!; cbn; try done; try lia.
    split; [|by repeat constructor]. apply increasing_cons. split; [done|apply increasing_nil]. }
  apply wp_run in H as (r & s' & E & -> & p & Hok). exists s'. split; [exact E|].
  eexists. split_and!; [| |right; exact Hok]; done.
Qed.

Lemma insert_nonempty base tot hd h s es k rid : (2 <= internal_max_size hd)%nat -> (2 <= leaf_max_size hd)%nat ->
  index_ok base tot hd h s es -> Z.of_nat h + 2 <= pa_free s.(alloc) ->
  wp (insert_entry_fuel (tree_fuel s) k rid) s (fun r s' => match sorted_insert k rid es with
    | None => r = inl RECORD_DUPLICATE_KEY /\ s' = s
    | Some es' => r = inr () /\ exists h', index_repr base tot (internal_max_size hd) (leaf_max_size hd) h' s' es' /\ (h' <= S h)%nat
    end).
Proof using Type.
  intros Hi Hl Hok Hfree.
  destruct (find_leaf_ok base tot hd h s es k Hi Hok) as (c & pn & its & E & Hst & Hk & Hd & Hh & Hf).
  pose proof (stree_ok_focus _ _ _ _ _ _ _ Hst) as (Ho & Hroot & _). pose proof Ho as (_ & _ & _ & _ & _ & Htot).
  apply wp_bind. eapply wp_header; [exact Ho|].
  destruct (Z.eqb_spec hd.(root_page) BP_INVALID_PAGE_NUM) as [E'|_].
  { destruct Hok as (t & Hot & Hrt & _). rewrite nodes_of_root in Hot. apply owns_pos in Hot. rewrite <- Hrt, E' in Hot. done. }
  apply wp_bind. unfold wp at 1. rewrite E.
  eapply (insert_leaf_ok base tot hd Hi Hl _ s es c pn its k rid); try done; [lia|lia| |].
  - intros ->. done.
  - intros es' hd' s' H' -> [Hs1 Hs2] HH Hix. split; [done|]. exists H'. split; [|lia].
    exists hd'. split_and!; [done|done|by right].
Qed.

Lemma insert_entry_ok base tot imax lmax h s es k rid :
  (2 <= imax)%nat -> (2 <= lmax)%nat -> index_repr base tot imax lmax h s es ->
  Z.of_nat h + 2 <= pa_free s.(alloc) ->
  match sorted_insert k rid es with
  | None => insert_entry k rid s = Some (inl RECORD_DUPLICATE_KEY, s)
  | Some es' => exists s' h', insert_entry k rid s = Some (inr (), s') /\
      index_repr base tot imax lmax h' s' es' /\ (h' <= S h)%nat
  end.
Proof using Type.
  intros Hi Hl (hd & <- & <- & [(He & -> & ->)|Hok]) Hfree.
  - destruct (insert_first base tot hd s k rid ltac:(lia) He ltac:(lia)) as (s' & E & Hr). exists s', O. split_and!; [done|done|lia].
  - pose proof (insert_nonempty base tot hd h s es k rid Hi Hl Hok Hfree) as H. apply wp_run in H as (r & s' & E & HQ).
    destruct (sorted_insert k rid es) as [es'|].
    + destruct HQ as (-> & h' & Hr & Hh). exists s', h'. split_and!; [exact E|done|done].
    + destruct HQ as [-> ->]. exact E.
Qed.

Lemma delete_entry_ok base tot imax lmax h s es k :
  (6 <= imax)%nat -> (4 <= lmax)%nat -> index_repr base tot imax lmax h s es ->
  match sorted_delete k es with
  | None => delete_entry k s = Some (inl RECORD_NOT_EXIST, s)
  | Some es' => exists s' h', delete_entry k s = Some (inr (), s') /\
      index_repr base tot imax lmax h' s' es' /\ (h' <= h)%nat
  end.
Proof using Type.
  intros Hi Hl (hd & <- & <- & [(He & -> & ->)|Hok]).
  - destruct He as [Hr Ho]. unfold delete_entry, find_leaf, find_leaf_internal, mbind, M_bind, get_header.
    pose proof Ho as (-> & _). by rewrite Hr.
  - destruct (find_leaf_ok base tot hd h s es k ltac:(lia) Hok) as (c & pn & its & E & Hst & Hk & Hd & Hh & Hf).
    unfold delete_entry. rewrite E.
    assert (wp (delete_entry_internal (tree_fuel s) pn k) s (fun r s' => match sorted_delete k es with
      | None => r = inl RECORD_NOT_EXIST /\ s' = s
      | Some es' => r = inr () /\ exists h', index_repr base tot (internal_max_size hd) (leaf_max_size hd) h' s' es' /\ (h' <= h)%nat
      end)) as H.
    { eapply (delete_leaf_ok base tot hd Hl Hi _ s es c pn its k); try done; [lia| |].
      - by intros ->.
      - intros es' s' h' -> Hh' Hrep. split; [done|]. exists h'. split; [done|lia]. }
    apply wp_run in H as (r & s' & E' & HQ). rewrite E'. destruct (sorted_delete k es) as [es'|].
    + destruct HQ as (-> & h' & Hrep & Hh'). by exists s', h'.
    + by destruct HQ as [-> ->].
Qed.

(** ** How many pages an index needs *)

Lemma flat_length hd (Hi : (4 <= internal_max_size hd)%nat) (Hl : (2 <= leaf_max_size hd)%nat) h :
  forall top par nxt (t : tree h), sized hd top h t.2 ->
  (S (length (nodes_of h par nxt t)) <= 2 * length (flat h t.2))%nat /\ (S h <= length (flat h t.2))%nat.
Proof using Type.
  induction h as [|h IH]; intros top par nxt [pn b] Hs.
  - assert (1 <= length b)%nat; [|cbn; lia]. destruct top; cbn [sized least max_of snd] in Hs; [lia|].
    etrans; [|apply Hs]. apply Nat.div_le_lower_bound; lia.
  - change (pn, b) with (TN (h := h) pn b) in *. rewrite sized_S in Hs. rewrite nodes_of_S, flat_S.
    destruct Hs as [[Hs1 _] Hk]. assert (2 <= length b)%nat as Hlen.
    { etrans; [|exact Hs1]. unfold least. destruct top; [lia|]. cbn [max_of]. apply Nat.div_le_lower_bound; lia. }
    assert (length (kids_nodes pn nxt b) + length b <= 2 * length (flats b) /\ (2 <= length b -> S (S h) <= length (flats b)))%nat as Hsum.
    { clear Hs1 Hlen. change (list (item h)) in b. induction b as [|[k t] b IHb]; [cbn; lia|].
      apply Forall_cons in Hk as [Ht Hk]. destruct (IHb Hk) as [H1 H2].
      destruct (IH false pn (first_of nxt b) t Ht) as [H3 H4]. rewrite kids_nodes_cons, flats_cons, !length_app. cbn [length].
      split; [lia|]. intros Hb. destruct b as [|[k' t'] b]; [cbn in Hb; lia|].
      apply Forall_cons in Hk as [Ht' _]. destruct (IH false 0 0 t' Ht') as [_ H5]. rewrite flats_cons, length_app. lia. }
    cbn [length]. lia.
Qed.

Lemma index_room base tot imax lmax h s es : (4 <= imax)%nat -> (2 <= lmax)%nat ->
  index_repr base tot imax lmax h s es -> 3 * Z.of_nat (length es) + 2 <= tot -> Z.of_nat h + 2 <= pa_free s.(alloc).
Proof using Type.
  intros Hi Hl Hr Htot. pose proof (index_free _ _ _ _ _ _ _ Hr) as Hf.
  destruct Hr as (hd & <- & <- & [((_ & Ho) & -> & ->)|(t & Ho & _ & _ & Hs & ->)]).
  - pose proof (owns_size _ _ _ _ _ Ho) as Hsz. cbn in Hsz, Htot. lia.
  - pose proof (owns_size _ _ _ _ _ Ho) as Hsz.
    destruct (flat_length hd Hi Hl h true BP_INVALID_PAGE_NUM BP_INVALID_PAGE_NUM t Hs). lia.
Qed.

Lemma index_sorted base tot imax lmax h s es : index_repr base tot imax lmax h s es -> increasing compare es.*1.
Proof using Type.
  intros (hd & _ & _ & [(_ & -> & _)|(t & _ & _ & Hw & _ & ->)]); [apply increasing_nil|by eapply flat_increasing].
Qed.

(** Inserting into the index is inserting into the sorted list of its entries: an
    entry with the key is reported as a duplicate and nothing changes; otherwise the
    call succeeds, through whatever leaf and parent splits it takes, and the new pages
    form a valid tree (ordered, at least half full, linked by parent and next-leaf
    pointers, no page lost) that holds exactly the old entries and the new one.  The
    file must have room for two pages and three per entry, no less often than that a
    page is free. *)
Theorem insert_entry_refines base tot imax lmax h s es k rid :
  (4 <= imax)%nat -> (2 <= lmax)%nat -> index_repr base tot imax lmax h s es ->
  3 * Z.of_nat (length es) + 2 <= tot ->
  match sorted_insert k rid es with
  | None => insert_entry k rid s = Some (inl RECORD_DUPLICATE_KEY, s)
  | Some es' => exists s' h', insert_entry k rid s = Some (inr (), s') /\
      index_repr base tot imax lmax h' s' es' /\ (h' <= S h)%nat
  end.
Proof using Type.
  intros Hi Hl Hr Htot. apply insert_entry_ok; [lia|done|done|]. by eapply index_room.
Qed.

(** Deleting from the index is deleting from the sorted list of its entries: when no
    entry has the key, [RECORD_NOT_EXIST] is returned and nothing changes; otherwise the
    call succeeds, through whatever merges and redistributions it takes, no assertion
    fails, and the pages form a valid tree again, or no tree when the last entry is gone.
    The capacities must be at least 6 and 4. *)
Theorem delete_entry_refines base tot imax lmax h s es k :
  (6 <= imax)%nat -> (4 <= lmax)%nat -> index_repr base tot imax lmax h s es ->
  match sorted_delete k es with
  | None => delete_entry k s = Some (inl RECORD_NOT_EXIST, s)
  | Some es' => exists s' h', delete_entry k s = Some (inr (), s') /\
      index_repr base tot imax lmax h' s' es' /\ (h' <= h)%nat
  end.
Proof using Type. apply delete_entry_ok. Qed.
End index.

(** ** Scans *)

Section scans.
Context {KO : KeyOrder} {A : Type} {PA : PageAllocator A}.
#[local] Abbreviation BTree := (@BplusTree.BTree KO A).
Context {U : Type} (attr_compare : U -> U -> Z) (make_key : U -> RID -> key) (fix_key : U -> bool -> U * bool).

Lemma scan_ok base tot imax lmax h (s : BTree) es left right n : (2 <= imax)%nat -> (2 <= lmax)%nat ->
  index_repr base tot imax lmax h s es -> range_invalid attr_compare left right = false -> (length es < n)%nat ->
  scan attr_compare make_key fix_key n left right s = Some (inr (in_bounds make_key fix_key left right es).*2, s).
Proof using Type.
  intros Hi Hl (hd & <- & <- & [((Hr & Ho) & -> & ->)|Hok]) Hv Hn; [|by eapply scan_index_ok].
  assert (in_bounds make_key fix_key left right [] = []) as -> by (destruct left, right; done).
  assert (open_left make_key fix_key (tree_fuel s) left s = Some (inr None, s)) as E.
  { unfold open_left, left_most_page, find_leaf, find_leaf_internal, mbind, M_bind, get_header. pose proof Ho as (-> & _).
    rewrite Hr. by destruct left as [[u incl]|]. }
  unfold scan, open. unfold mbind at 1, M_bind at 1. rewrite Hv. unfold mbind at 1, M_bind at 1. rewrite E.
  by destruct n; [lia|].
Qed.

End scans.

(** ** The keys of an index on one attribute *)

Section attribute.
Context {U : Type} (attr_cmp : U -> U -> Z) {Hattr : Comparator attr_cmp} (zero : U).

#[export] Instance attribute_key : KeyOrder := {|
  key := IKey (A := U);
  zero_key := mkIKey zero rid_min eq_refl;
  compare := key_compare attr_cmp;
  compare_ok := key_comparator attr_cmp
|}.

(** [BplusTreeHandler::make_key] *)
Definition make_key (u : U) (rid : RID) : key :=
  match bool_dec (rid_ok rid) true with left H => mkIKey u rid H | right _ => zero_key end.

Context {A : Type} {PA : PageAllocator A}.

Lemma compare_min (k : key) u : 0 <= compare k (make_key u rid_min) <-> 0 <= attr_cmp k.(user_key) u.
Proof using Type.
  destruct k as [v r Hr]. unfold make_key. destruct (bool_dec _ _) as [H|]; [|done]. cbn. unfold key_compare. cbn [user_key key_rid].
  rewrite rid_compare_ok by done. unfold rid_ok in Hr. rewrite !andb_true_iff, !Z.leb_le in Hr.
  destruct (Z.eqb_spec (attr_cmp v u) 0); cbn [negb]; [|lia]. cbn. destruct (decide _); lia.
Qed.

Lemma compare_max (k : key) u : compare k (make_key u rid_max) <= 0 <-> attr_cmp k.(user_key) u <= 0.
Proof using Type.
  destruct k as [v r Hr]. unfold make_key. destruct (bool_dec _ _) as [H|]; [|done]. cbn. unfold key_compare. cbn [user_key key_rid].
  rewrite rid_compare_ok by done. unfold rid_ok in Hr. rewrite !andb_true_iff, !Z.leb_le in Hr.
  destruct (Z.eqb_spec (attr_cmp v u) 0); cbn [negb]; [|lia]. cbn. destruct (decide _); lia.
Qed.

(** [get_entry] returns the record locations of all entries whose attribute compares
    equal to the one asked for, and no others. *)
Theorem get_entry_finds base tot imax lmax h (s : BTree (A := A)) es u n : (2 <= imax)%nat -> (2 <= lmax)%nat ->
  index_repr base tot imax lmax h s es -> (length es < n)%nat ->
  get_entry attr_cmp make_key (fun u _ => (u, false)) n u s =
  Some (inr (filter (fun e => attr_cmp e.1.(user_key) u = 0) es).*2, s).
Proof using Type.
  intros Hi Hl Hr Hn. unfold get_entry. rewrite (scan_ok attr_cmp make_key _ base tot imax lmax h s es) by
    (done || (cbn; by rewrite cmp_refl)).
  do 4 f_equal. unfold in_bounds. cbn [left_key_of right_key_of fmap option_fmap option_map from upto].
  unfold left_bound, right_bound. cbn [fst snd orb]. rewrite list_filter_filter. apply list_filter_iff. intros e. cbn beta.
  rewrite compare_min, compare_max.
  split; [intros [H1 H2]; by apply Z.le_antisymm|intros H; split; apply Z.eq_le_incl; [exact H|by symmetry]].
Qed.
End attribute.

(** ** Histories *)

Section history.
Context {KO : KeyOrder} {A : Type} {PA : PageAllocator A}.
#[local] Abbreviation BTree := (@BplusTree.BTree KO A).

Inductive IndexOp := Insert (k : key) (rid : RID) | Delete (k : key).

Definition exec (s : BTree) (o : IndexOp) : option ((RC + unit) * BTree) :=
  match o with Insert k rid => insert_entry k rid s | Delete k => delete_entry k s end.

(** The return codes of a sequence of calls; [None] if one of them fails an assertion. *)
Fixpoint run (s : BTree) (ops : list IndexOp) : option (list RC * BTree) :=
  match ops with
  | [] => Some ([], s)
  | o :: ops' =>
      '(r, s') ← exec s o;
      '(rcs, s'') ← run s' ops';
      Some (match r with inl rc => rc | inr _ => SUCCESS end :: rcs, s'')
  end.

(** The same calls on the sorted list. *)
Definition spec_exec (es : list (key * RID)) (o : IndexOp) : RC * list (key * RID) :=
  match o with
  | Insert k rid => match sorted_insert k rid es with Some es' => (SUCCESS, es') | None => (RECORD_DUPLICATE_KEY, es) end
  | Delete k => match sorted_delete k es with Some es' => (SUCCESS, es') | None => (RECORD_NOT_EXIST, es) end
  end.
Fixpoint spec_run (es : list (key * RID)) (ops : list IndexOp) : list RC * list (key * RID) :=
  match ops with
  | [] => ([], es)
  | o :: ops' => let '(rc, es') := spec_exec es o in let '(rcs, es'') := spec_run es' ops' in (rc :: rcs, es'')
  end.

Lemma sorted_insert_length k rid es es' : sorted_insert k rid es = Some es' -> length es' = S (length es).
Proof using Type.
  revert es'. induction es as [|e es IH]; intros es'; cbn; [by intros [= <-]|].
  destruct (_ =? _); [done|]. destruct (_ <? _); [|by intros [= <-]].
  destruct (sorted_insert k rid es) as [es1|]; [|done]. cbn. intros [= <-]. cbn. by rewrite (IH es1).
Qed.
Lemma sorted_delete_length k es es' : sorted_delete k es = Some es' -> S (length es') = length es.
Proof using Type.
  revert es'. induction es as [|e es IH]; intros es'; cbn; [done|].
  destruct (_ =? _); [by intros [= <-]|].
  destruct (sorted_delete k es) as [es1|]; [|done]. cbn. intros [= <-]. cbn. by rewrite (IH es1).
Qed.

Lemma exec_ok base tot imax lmax h s es o : (6 <= imax)%nat -> (4 <= lmax)%nat ->
  index_repr base tot imax lmax h s es -> 3 * Z.of_nat (length es) + 2 <= tot ->
  exists r s' h', exec s o = Some (r, s') /\ match r with inl rc => rc | inr _ => SUCCESS end = (spec_exec es o).1 /\
    index_repr base tot imax lmax h' s' (spec_exec es o).2 /\ (length (spec_exec es o).2 <= S (length es))%nat.
Proof using Type.
  intros Hi Hl Hr Htot. destruct o as [k rid|k]; cbn [exec spec_exec].
  - pose proof (insert_entry_ok base tot imax lmax h s es k rid ltac:(lia) ltac:(lia) Hr) as H.
    specialize (H (index_room base tot imax lmax h s es ltac:(lia) ltac:(lia) Hr Htot)).
    destruct (sorted_insert k rid es) as [es'|] eqn:E.
    + destruct H as (s' & h' & -> & Hr' & _). exists (inr ()), s', h'. cbn. split_and!; [done|done|done|].
      by rewrite (sorted_insert_length _ _ _ _ E).
    + rewrite H. exists (inl RECORD_DUPLICATE_KEY), s, h. cbn. split_and!; [done|done|done|lia].
  - pose proof (delete_entry_ok base tot imax lmax h s es k Hi Hl Hr) as H.
    destruct (sorted_delete k es) as [es'|] eqn:E.
    + destruct H as (s' & h' & -> & Hr' & _). exists (inr ()), s', h'. cbn. split_and!; [done|done|done|].
      apply sorted_delete_length in E. lia.
    + rewrite H. exists (inl RECORD_NOT_EXIST), s, h. cbn. split_and!; [done|done|done|lia].
Qed.

Lemma run_ok base tot imax lmax h s es ops : (6 <= imax)%nat -> (4 <= lmax)%nat ->
  index_repr base tot imax lmax h s es -> 3 * Z.of_nat (length es + length ops) + 2 <= tot ->
  exists s' h', run s ops = Some ((spec_run es ops).1, s') /\ index_repr base tot imax lmax h' s' (spec_run es ops).2.
Proof using Type.
  intros Hi Hl. revert h s es. induction ops as [|o ops IH]; intros h s es Hr Htot; [by exists s, h|].
  cbn [length] in Htot. destruct (exec_ok base tot imax lmax h s es o Hi Hl Hr ltac:(lia)) as (r & s1 & h1 & E & Erc & Hr1 & Hlen).
  cbn [run spec_run]. rewrite E. bind_step. destruct (spec_exec es o) as [rc es1]. cbn [fst snd] in *. subst rc.
  destruct (IH h1 s1 es1 Hr1 ltac:(lia)) as (s' & h' & -> & Hr'). exists s', h'.
  bind_step. by destruct (spec_run es1 ops) as [rcs es2].
Qed.

(** C1: Every sequence of insertions and deletions on the index returns the codes that the
    same sequence returns on a sorted list of entries, and ends in a valid index with the
    list's entries, as long as the file has room for two pages and three per operation;
    in particular no assertion fails and no call gets stuck. *)
Theorem index_history_refines base tot imax lmax h s es ops : (6 <= imax)%nat -> (4 <= lmax)%nat ->
  index_repr base tot imax lmax h s es -> 3 * Z.of_nat (length es + length ops) + 2 <= tot ->
  exists s' h', run s ops = Some ((spec_run es ops).1, s') /\ index_repr base tot imax lmax h' s' (spec_run es ops).2.
Proof using Type. apply run_ok. Qed.
End history.

(** ** A new index *)

Section creation.
Context {KO : KeyOrder}.

(** A file as [BufferPoolManager::create_file] leaves it, with an empty log. *)
Definition new_file (id : Z) : PageAlloc.HeaderFrame * PageAlloc.Log :=
  (PageAlloc.mkHF (PageAlloc.create_file id) 0, PageAlloc.mkLog 0 []).

Lemma create_repr id attr_length imax lmax :
  exists s, create (new_file id) attr_length imax lmax = (SUCCESS, Some s) /\
    index_repr {[0; 1]} (PageAlloc.MAX_PAGE_NUM - 2)
      (Z.to_nat (if imax <? 0 then calc_internal_page_capacity attr_length else imax))
      (Z.to_nat (if lmax <? 0 then calc_leaf_page_capacity attr_length else lmax)) 0 s [].
Proof.
  destruct (PageAlloc.create_file_ok id) as [Hok Hal].
  assert (pa_ok (new_file id)) as Hpa by (split; [done|]; cbn [new_file fst PageAlloc.file_header]; rewrite Hal; set_solver).
  destruct (pa_allocate_spec (new_file id) Hpa) as (p & a' & E & Hp & Hni & Hok' & Hpg & Hfree).
  { cbn. change PageAlloc.MAX_PAGE_NUM with 65344. lia. }
  assert (p = 1) as ->.
  { assert (pa_allocate (new_file id) = (SUCCESS, 1, (pa_allocate (new_file id)).2)) as E' by reflexivity. congruence. }
  unfold create. rewrite E. cbn [OB_FAIL bool_decide decide]. eexists. split; [reflexivity|].
  eexists (mkHeader BP_INVALID_PAGE_NUM _ _). split; [reflexivity|]. split; [reflexivity|]. left. split; [|done].
  split; [reflexivity|].
  split; [reflexivity|]. cbn [nodes alloc]. split; [split; [constructor|split; [done|constructor]]|]. split; [done|].
  rewrite Hpg, dom_empty_L, map_size_empty, Hfree.
  change (pa_pages (new_file id)) with (PageAlloc.allocated (PageAlloc.create_file id)). rewrite Hal.
  split; [set_solver|]. split; [set_solver|]. cbn. lia.
Qed.

(** Creating an index on a new file puts its header on page 1 and leaves an index without
    entries, whose node capacities are the given ones or what fits into a page; all other
    pages of the file are free for nodes. *)
Theorem create_makes_empty_index id attr_length imax lmax :
  exists s, create (new_file id) attr_length imax lmax = (SUCCESS, Some s) /\
    index_repr {[0; 1]} (PageAlloc.MAX_PAGE_NUM - 2)
      (Z.to_nat (if imax <? 0 then calc_internal_page_capacity attr_length else imax))
      (Z.to_nat (if lmax <? 0 then calc_leaf_page_capacity attr_length else lmax)) 0 s [].
Proof. apply create_repr. Qed.
End creation.

(** ** An index on an integer attribute *)

Section int_index.
#[local] Existing Instance compare_int_comparator.
#[local] Instance int_key : KeyOrder := attribute_key compare_int 0.

Definition ikey (v slot : Z) : key := make_key compare_int 0 v (mkRID 1 slot).
Definition empty_tree : BTree :=
  match (create (new_file 1) 4 6 4).2 with Some s => s | None => mkTree (mkHeader 0 0 0) ∅ (new_file 1) end.
Definition fill (n : nat) : list IndexOp := map (fun i => Insert (ikey (i - 7) i) (mkRID 1 i)) (seqZ 0 (Z.of_nat n)).

Lemma empty_tree_repr : index_repr {[0; 1]} (PageAlloc.MAX_PAGE_NUM - 2) 6 4 0 empty_tree [].
Proof. unfold empty_tree. destruct (create_repr 1 4 6 4) as (s & -> & H). exact H. Qed.

Lemma insert_entry_refines_witness :
  exists s' h', insert_entry (ikey 5 1) (mkRID 1 1) empty_tree = Some (inr (), s') /\
    index_repr {[0; 1]} (PageAlloc.MAX_PAGE_NUM - 2) 6 4 h' s' [(ikey 5 1, mkRID 1 1)] /\ (h' <= 1)%nat.
Proof.
  refine (insert_entry_refines {[0; 1]} (PageAlloc.MAX_PAGE_NUM - 2) 6 4 0 empty_tree [] (ikey 5 1) (mkRID 1 1)
    ltac:(lia) ltac:(lia) empty_tree_repr _). vm_compute. discriminate.
Defined.

Lemma index_history_refines_witness :
  exists s' h', run empty_tree (fill 30) = Some ((spec_run [] (fill 30)).1, s') /\
    index_repr {[0; 1]} (PageAlloc.MAX_PAGE_NUM - 2) 6 4 h' s' (spec_run [] (fill 30)).2.
Proof.
  refine (index_history_refines {[0; 1]} (PageAlloc.MAX_PAGE_NUM - 2) 6 4 0 empty_tree [] (fill 30)
    ltac:(lia) ltac:(lia) empty_tree_repr _). vm_compute. discriminate.
Defined.

(** Thirty entries, in a tree with three levels. *)
Lemma filled : exists s h, run empty_tree (fill 30) = Some (replicate 30 SUCCESS, s) /\
  index_repr {[0; 1]} (PageAlloc.MAX_PAGE_NUM - 2) 6 4 h s (spec_run [] (fill 30)).2.
Proof.
  destruct (run_ok {[0; 1]} (PageAlloc.MAX_PAGE_NUM - 2) 6 4 0 empty_tree [] (fill 30) ltac:(lia) ltac:(lia) empty_tree_repr)
    as (s & h & E & H); [vm_compute; discriminate|]. exists s, h. split; [|exact H]. rewrite E. reflexivity.
Qed.

Lemma delete_entry_refines_witness :
  exists s h s' h', run empty_tree (fill 30) = Some (replicate 30 SUCCESS, s) /\
    delete_entry (ikey (-7) 0) s = Some (inr (), s') /\
    index_repr {[0; 1]} (PageAlloc.MAX_PAGE_NUM - 2) 6 4 h' s' (tail (spec_run [] (fill 30)).2) /\ (h' <= h)%nat.
Proof.
  destruct filled as (s & h & E & H). exists s, h.
  pose proof (delete_entry_refines {[0; 1]} (PageAlloc.MAX_PAGE_NUM - 2) 6 4 h s (spec_run [] (fill 30)).2 (ikey (-7) 0)
    ltac:(lia) ltac:(lia) H) as Hd.
  destruct Hd as (s' & h' & E' & H' & Hh). exists s', h'. repeat split; [exact E|exact E'|exact H'|exact Hh].
Defined.


Lemma get_entry_finds_witness :
  exists s h, run empty_tree (fill 30) = Some (replicate 30 SUCCESS, s) /\ (0 <= h)%nat /\
    get_entry compare_int (make_key compare_int 0) (fun u _ => (u, false)) 31 3 s = Some (inr [mkRID 1 10], s).
Proof.
  destruct filled as (s & h & E & H). exists s, h. split; [exact E|]. split; [lia|].
  refine (get_entry_finds compare_int 0 {[0; 1]} (PageAlloc.MAX_PAGE_NUM - 2) 6 4 h s (spec_run [] (fill 30)).2 3 31
    ltac:(lia) ltac:(lia) H _). vm_compute. lia.
Defined.

(** The capacities that [delete_entry_refines] asks for are needed: with internal nodes of
    four children, eleven ascending negative keys are inserted and the deletion of the first
    one fails the assertion in [coalesce_or_redistribute], because the key it looks up in the
    parent is the unused first key of the left spine, zero. *)
Theorem small_nodes_assert :
  let s0 := match (create (new_file 1) 4 4 4).2 with Some s => s | None => empty_tree end in
  let ops := map (fun i => Insert (ikey (i - 100) i) (mkRID 1 i)) (seqZ 0 11) in
  fst <$> run s0 ops = Some (replicate 11 SUCCESS) /\
  match run s0 (ops ++ [Delete (ikey (-100) 0)]) with None => true | Some _ => false end = true.
Proof. split; vm_compute; reflexivity. Qed.
End int_index.
