(* ===== verification/BplusPage.v ===== *)
(** * BplusPage: the bytes of an index node

    Models the node handlers of [src/src/observer/storage/index/bplus_tree.cpp] at the
    level of the page's bytes: the fields of [IndexNode], [LeafIndexNode] and
    [InternalIndexNode] at their offsets, and the item array behind them, changed with
    [memmove] and [memcpy].  [node_repr] says which list of items a page holds; the
    lemmas show that the byte operations are the list operations that [BplusTree] is
    written with. *)

From S2P Require Import Prelude Bytes RecordPage BplusTree.

Module BplusPage.

(** ** Fields *)

Definition get_int32 (d : list Z) (off : Z) : Z := int32 (le_value (slice d off 4)).
Definition set_int32 (d : list Z) (off v : Z) : list Z := blit d off (le_bytes 4 v).

(** [struct IndexNode]: a [bool], the number of items, the parent; a leaf has the next
    leaf's page behind them. *)
Definition is_leaf (d : list Z) : bool := negb (znth 0 d 0 =? 0).
Definition node_size (d : list Z) : Z := get_int32 d 4.
Definition parent (d : list Z) : Z := get_int32 d 8.
Definition next_brother (d : list Z) : Z := get_int32 d 12.

Definition set_parent (d : list Z) (p : Z) : list Z := set_int32 d 8 p.
Definition set_next (d : list Z) (p : Z) : list Z := set_int32 d 12 p.
Definition increase_size (d : list Z) (n : Z) : list Z := set_int32 d 4 (int32 (node_size d + n)).

(** [IndexNodeHandler::init_empty], and what the leaf handler adds. *)
Definition init_node (d : list Z) (leaf : bool) : list Z :=
  set_int32 (set_int32 (blit d 0 [if leaf then 1 else 0]) 4 0) 8 BP_INVALID_PAGE_NUM.
Definition init_leaf (d : list Z) : list Z := set_next (init_node d true) BP_INVALID_PAGE_NUM.
Definition init_internal (d : list Z) : list Z := init_node d false.

(** ** Handlers *)

(** The class of the handler: [IndexNodeHandler] itself has no item array
    ([__item_at] is a null pointer). *)
Inductive Handler := BaseHandler | LeafHandler | InternalHandler.

Section handlers.
Context (key_length : Z).

Definition value_size (h : Handler) : Z :=
  match h with InternalHandler => 4 | _ => 8 end.
Definition item_size (h : Handler) : Z := key_length + value_size h.
Definition array_offset (h : Handler) : Z := match h with LeafHandler => 16 | _ => 12 end.

(** [__item_at]; [None] is the null pointer. *)
Definition item_at (h : Handler) (i : Z) : option Z :=
  match h with
  | BaseHandler => None
  | _ => Some (array_offset h + i * item_size h)
  end.

(** [memmove] and [memcpy]; a null pointer is an invalid access. *)
Definition memmove (d : list Z) (dst src : option Z) (n : Z) : option (list Z) :=
  dst ← dst; src ← src; Some (blit d dst (slice d src n)).
Definition memcpy (d : list Z) (dst : option Z) (src : list Z) : option (list Z) :=
  dst ← dst; Some (blit d dst src).

(** [IndexNodeHandler::recover_insert_items] *)
Definition recover_insert_items (h : Handler) (d : list Z) (index : Z) (items : list Z) (num : Z) : option (list Z) :=
  d1 ← (if index <? node_size d
        then memmove d (item_at h (index + num)) (item_at h index) ((node_size d - index) * item_size h)
        else Some d);
  d2 ← memcpy d1 (item_at h index) (take (Z.to_nat (num * item_size h)) items);
  Some (increase_size d2 num).

(** [IndexNodeHandler::recover_remove_items] *)
Definition recover_remove_items (h : Handler) (d : list Z) (index num : Z) : option (list Z) :=
  d1 ← (if index <? node_size d - num
        then memmove d (item_at h index) (item_at h (index + num)) ((node_size d - index - num) * item_size h)
        else Some d);
  Some (increase_size d1 (- num)).

(** [InternalIndexNodeHandler::set_key_at], with its assertion. *)
Definition set_key_at (d : list Z) (index : Z) (k : list Z) : option (list Z) :=
  if (0 <=? index) && (index <? node_size d)
  then memcpy d (item_at InternalHandler index) (take (Z.to_nat key_length) k) else None.

(** [InternalIndexNodeHandler::create_new_root] *)
Definition create_new_root (d : list Z) (first_page : Z) (k : list Z) (page : Z) : option (list Z) :=
  p0 ← item_at InternalHandler 0; p1 ← item_at InternalHandler 1;
  let d := blit d p0 (replicate (Z.to_nat key_length) 0) in
  let d := blit d (p0 + key_length) (le_bytes 4 first_page) in
  let d := blit d p1 (take (Z.to_nat key_length) k) in
  let d := blit d (p1 + key_length) (le_bytes 4 page) in
  Some (increase_size d 2).

(** ** Pages as lists of items *)

(** The page's bytes: header, items, and whatever follows. *)
Definition header_of (h : Handler) (pad : list Z) (num pr nx : Z) : list Z :=
  (match h with LeafHandler => [1] | _ => [0] end ++ pad) ++ le_bytes 4 num ++ le_bytes 4 pr ++
  match h with LeafHandler => le_bytes 4 nx | _ => [] end.

Definition node_repr (h : Handler) (d : list Z) (pr nx : Z) (items : list (list Z)) : Prop :=
  exists pad rest, length pad = 3%nat /\ h <> BaseHandler /\
    Forall (fun it => zlen it = item_size h) items /\ in_int32 (zlen items) /\ in_int32 pr /\ in_int32 nx /\
    d = header_of h pad (zlen items) pr nx ++ concat items ++ rest.

Lemma concat_zlen h (items : list (list Z)) : Forall (fun it => zlen it = item_size h) items ->
  zlen (concat items) = zlen items * item_size h.
Proof using Type.
  induction 1 as [|it items Hit _ IH]; [done|]. cbn [concat]. rewrite zlen_app, IH, Hit. unfold zlen. cbn. lia.
Qed.

Lemma header_zlen h pad num pr nx : length pad = 3%nat -> h <> BaseHandler ->
  zlen (header_of h pad num pr nx) = array_offset h.
Proof using Type.
  intros Hp Hh. unfold header_of, zlen. rewrite !length_app, !le_bytes_length, Hp.
  by destruct h; [|cbn; rewrite ?le_bytes_length|cbn].
Qed.

Lemma split_header (d : list Z) : 16 <= zlen d -> exists (b : Z) (pad x y z rest : list Z),
  d = (b :: pad) ++ x ++ y ++ z ++ rest /\ length pad = 3%nat /\ length x = 4%nat /\ length y = 4%nat /\ length z = 4%nat.
Proof using Type.
  intros Hd. unfold zlen in Hd.
  do 16 (destruct d as [|? d]; [cbn in Hd; lia|]).
  eexists _, [_; _; _], [_; _; _; _], [_; _; _; _], [_; _; _; _], d. done.
Qed.

(** The three fields that every node has. *)
Lemma header_fields h pad num pr nx r : length pad = 3%nat -> in_int32 num -> in_int32 pr ->
  node_size (header_of h pad num pr nx ++ r) = num /\ parent (header_of h pad num pr nx ++ r) = pr /\
  (forall v, set_int32 (header_of h pad num pr nx ++ r) 4 v = header_of h pad v pr nx ++ r) /\
  (forall v, set_int32 (header_of h pad num pr nx ++ r) 8 v = header_of h pad num v nx ++ r).
Proof using Type.
  intros Hp Hn Hpr. unfold header_of.
  set (a := match h with LeafHandler => [1] | _ => [0] end ++ pad).
  set (b := match h with LeafHandler => le_bytes 4 nx | _ => [] end).
  assert (zlen a = 4) as Ha by (unfold a, zlen; rewrite length_app, Hp; by destruct h).
  assert (forall v, zlen (le_bytes 4 v) = 4) as Hl by (intros; unfold zlen; by rewrite le_bytes_length).
  unfold node_size, parent, get_int32, set_int32. rewrite <- !app_assoc. split_and!.
  - rewrite (slice_mid a (le_bytes 4 num) _ 4 4) by done. by apply le_value_int32.
  - rewrite (app_assoc a), (slice_mid (a ++ le_bytes 4 num) (le_bytes 4 pr) _ 8 4); [by apply le_value_int32| |done].
    rewrite zlen_app, Hl. lia.
  - intros v. rewrite (blit_mid a (le_bytes 4 num) _ _ 4), <- !app_assoc; [done|done|by rewrite !le_bytes_length].
  - intros v. rewrite (app_assoc a), (blit_mid (a ++ le_bytes 4 num) (le_bytes 4 pr) _ _ 8), <- !app_assoc;
      [done| |by rewrite !le_bytes_length]. rewrite zlen_app, Hl. lia.
Qed.

Lemma item_at_repr h pad num pr nx (l : list (list Z)) : length pad = 3%nat -> h <> BaseHandler ->
  Forall (fun it => zlen it = item_size h) l ->
  item_at h (zlen l) = Some (zlen (header_of h pad num pr nx ++ concat l)).
Proof using Type.
  intros Hp Hh Hl. rewrite zlen_app, header_zlen, (concat_zlen h) by done. by destruct h.
Qed.

(** ** [recover_insert_items] inserts into the list *)

Lemma insert_items_repr h d pr nx (l r its : list (list Z)) : node_repr h d pr nx (l ++ r) ->
  Forall (fun it => zlen it = item_size h) its -> in_int32 (zlen (l ++ its ++ r)) ->
  array_offset h + (zlen (l ++ r) + zlen its) * item_size h <= zlen d ->
  exists d', recover_insert_items h d (zlen l) (concat its) (zlen its) = Some d' /\
    node_repr h d' pr nx (l ++ its ++ r) /\ zlen d' = zlen d.
Proof using Type.
  intros (pad & rest & Hp & Hh & Hits & Hn & Hpr & Hnx & ->) Hnew Hn' Hroom.
  apply Forall_app in Hits as [Hl Hr].
  set (H := header_of h pad (zlen (l ++ r)) pr nx) in *. set (P := H ++ concat l).
  assert (node_size (H ++ concat (l ++ r) ++ rest) = zlen (l ++ r)) as Hsize by (by apply header_fields).
  rewrite concat_app, <- app_assoc in Hsize, Hroom |- *. rewrite (app_assoc H) in Hsize, Hroom |- *. fold P in Hsize, Hroom |- *.
  assert (zlen (concat its) <= zlen rest) as Hrest.
  { rewrite !zlen_app in Hroom. unfold P in Hroom. rewrite zlen_app in Hroom. unfold H in Hroom.
    rewrite header_zlen in Hroom by done. rewrite !(concat_zlen h) in * by done. lia. }
  pose proof (item_at_repr h pad (zlen (l ++ r)) pr nx l Hp Hh Hl) as Eat. fold H P in Eat.
  assert (item_at h (zlen l + zlen its) = Some (zlen P + zlen (concat its))) as Eat2.
  { replace (zlen l + zlen its) with (zlen (l ++ its)) by apply zlen_app.
    rewrite (item_at_repr h pad (zlen (l ++ r)) pr nx) by (done || by apply Forall_app).
    rewrite concat_app, app_assoc, zlen_app. done. }
  unfold recover_insert_items. rewrite Hsize, Eat, Eat2.
  assert (take (Z.to_nat (zlen its * item_size h)) (concat its) = concat its) as ->.
  { apply take_ge. rewrite <- (concat_zlen h) by done. unfold zlen. lia. }
  assert ((zlen (l ++ r) - zlen l) * item_size h = zlen (concat r)) as Er.
  { rewrite (concat_zlen h), zlen_app by done. lia. }
  exists (header_of h pad (zlen (l ++ its ++ r)) pr nx ++ concat (l ++ its ++ r) ++ drop (length (concat its)) rest).
  assert (increase_size (P ++ concat its ++ concat r ++ drop (length (concat its)) rest) (zlen its) =
    header_of h pad (zlen (l ++ its ++ r)) pr nx ++ concat (l ++ its ++ r) ++ drop (length (concat its)) rest) as Einc.
  { unfold increase_size, P, H. rewrite <- (app_assoc (header_of _ _ _ _ _)).
    destruct (header_fields h pad (zlen (l ++ r)) pr nx (concat l ++ concat its ++ concat r ++ drop (length (concat its)) rest))
      as (-> & _ & -> & _); [done..|].
    rewrite !concat_app, <- !app_assoc. do 2 f_equal. rewrite !zlen_app in *.
    rewrite int32_id; [lia|]. by replace (zlen l + zlen r + zlen its) with (zlen l + (zlen its + zlen r)) by lia. }
  split; [|split].
  - destruct (Z.ltb_spec (zlen l) (zlen (l ++ r))) as [Hlt|Hge]; cbn [mbind option_bind memmove memcpy].
    + rewrite Er, (slice_mid P (concat r) rest) by done.
      rewrite blit_shift by done. bind_step. rewrite blit_mid; [by rewrite Einc|done|].
      rewrite length_take, length_app. unfold zlen in Hrest. lia.
    + assert (r = []) as -> by (rewrite zlen_app in Hge; unfold zlen in Hge; destruct r; [done|cbn in Hge; lia]).
      cbn [concat app] in *. rewrite blit_front by done. by rewrite Einc.
  - exists pad, (drop (length (concat its)) rest). split_and!; try done. by rewrite !Forall_app.
  - rewrite !zlen_app. unfold P, H. rewrite zlen_app, !header_zlen by done. rewrite !concat_app, !zlen_app.
    unfold zlen in *. rewrite length_drop. lia.
Qed.

(** ** [recover_remove_items] removes from the list *)

Lemma remove_items_repr h d pr nx (l m r : list (list Z)) : node_repr h d pr nx (l ++ m ++ r) ->
  exists d', recover_remove_items h d (zlen l) (zlen m) = Some d' /\ node_repr h d' pr nx (l ++ r) /\ zlen d' = zlen d.
Proof using Type.
  intros (pad & rest & Hp & Hh & Hits & Hn & Hpr & Hnx & ->).
  apply Forall_app in Hits as [Hl [Hm Hr]%Forall_app].
  set (num := zlen (l ++ m ++ r)) in *. set (H := header_of h pad num pr nx). set (P := H ++ concat l).
  assert (node_size (H ++ concat (l ++ m ++ r) ++ rest) = num) as Hsize by (by apply header_fields).
  rewrite !concat_app, <- !app_assoc in Hsize |- *. rewrite (app_assoc H) in Hsize |- *. fold P in Hsize |- *.
  assert (num = zlen l + zlen m + zlen r) as Hnum by (unfold num; rewrite !zlen_app; lia).
  pose proof (item_at_repr h pad num pr nx l Hp Hh Hl) as Eat. fold H P in Eat.
  assert (item_at h (zlen l + zlen m) = Some (zlen (P ++ concat m))) as Eat2.
  { replace (zlen l + zlen m) with (zlen (l ++ m)) by apply zlen_app.
    rewrite (item_at_repr h pad num pr nx) by (done || by apply Forall_app).
    by rewrite concat_app, app_assoc. }
  set (rest' := drop (length (concat r)) (concat m ++ concat r ++ rest)).
  assert (increase_size (P ++ concat r ++ rest') (- zlen m) = header_of h pad (zlen (l ++ r)) pr nx ++ concat (l ++ r) ++ rest') as Einc.
  { unfold increase_size, P, H. rewrite <- (app_assoc (header_of _ _ _ _ _)).
    destruct (header_fields h pad num pr nx (concat l ++ concat r ++ rest')) as (-> & _ & -> & _); [done..|].
    rewrite !concat_app, <- !app_assoc. do 2 f_equal. rewrite zlen_app.
    rewrite int32_id; [lia|]. pose proof (zlen_pos l). pose proof (zlen_pos r). pose proof (zlen_pos m).
    unfold in_int32, INT32_MIN in *. lia. }
  exists (header_of h pad (zlen (l ++ r)) pr nx ++ concat (l ++ r) ++ rest'). split; [|split].
  - unfold recover_remove_items. rewrite Hsize, Eat, Eat2.
    destruct (Z.ltb_spec (zlen l) (num - zlen m)) as [Hlt|Hge]; cbn [mbind option_bind memmove].
    + assert ((num - zlen l - zlen m) * item_size h = zlen (concat r)) as -> by (rewrite (concat_zlen h) by done; lia).
      rewrite (app_assoc P (concat m)), slice_mid, <- (app_assoc P) by done.
      rewrite blit_front; [by rewrite <- Einc|]. rewrite !zlen_app. pose proof (zlen_pos (concat m)). pose proof (zlen_pos rest). lia.
    + assert (r = []) as -> by (destruct r; [done|unfold zlen in *; cbn in *; lia]).
      unfold rest' in *. cbn [concat app length] in *. rewrite drop_0 in *. by rewrite Einc.
  - exists pad, rest'. split_and!; try done; [by apply Forall_app|].
    rewrite zlen_app. pose proof (zlen_pos l). pose proof (zlen_pos r). pose proof (zlen_pos m).
    unfold in_int32, INT32_MIN in *. lia.
  - unfold P, H, rest'. rewrite !concat_app, !zlen_app, !header_zlen by done.
    unfold zlen. rewrite length_drop, !length_app. lia.
Qed.

(** ** Keys and fields *)

Lemma set_key_repr d pr nx (l : list (list Z)) (k v k' : list Z) r : node_repr InternalHandler d pr nx (l ++ [k ++ v] ++ r) ->
  zlen k = key_length -> zlen k' = key_length ->
  exists d', set_key_at d (zlen l) k' = Some d' /\ node_repr InternalHandler d' pr nx (l ++ [k' ++ v] ++ r) /\
    zlen d' = zlen d.
Proof using Type.
  intros (pad & rest & Hp & Hh & Hits & Hn & Hpr & Hnx & ->) Hk Hk'.
  assert (zlen (l ++ [k ++ v] ++ r) = zlen (l ++ [k' ++ v] ++ r)) as En by (rewrite !zlen_app; done).
  set (num := zlen (l ++ [k ++ v] ++ r)) in *. set (H := header_of InternalHandler pad num pr nx).
  apply Forall_app in Hits as [Hl [Hm Hr]%Forall_app]. apply Forall_cons in Hm as [Hm _].
  unfold set_key_at.
  assert (node_size (H ++ concat (l ++ [k ++ v] ++ r) ++ rest) = num) as -> by (by apply header_fields).
  assert (num = zlen l + 1 + zlen r) as Hnum by (unfold num; rewrite !zlen_app; unfold zlen; cbn; lia).
  pose proof (zlen_pos l). pose proof (zlen_pos r).
  destruct (Z.leb_spec 0 (zlen l)); [|lia]. destruct (Z.ltb_spec (zlen l) num); [|lia]. cbn [andb].
  rewrite (item_at_repr _ pad num pr nx) by done. fold H. cbn [memcpy mbind option_bind].
  rewrite take_ge by (unfold zlen in Hk'; lia).
  exists (H ++ concat (l ++ [k' ++ v] ++ r) ++ rest). rewrite !concat_app. cbn [concat]. rewrite !app_nil_r, <- !app_assoc.
  split; [|split].
  - f_equal. rewrite !(app_assoc H). apply blit_mid; [done|]. unfold zlen in *. lia.
  - exists pad, rest. split_and!; try done.
    + rewrite !Forall_app. repeat split; try done. constructor; [|done]. rewrite zlen_app in *. lia.
    + congruence.
    + unfold H. rewrite <- En. rewrite !concat_app. cbn [concat]. by rewrite !app_nil_r, <- !app_assoc.
  - rewrite !zlen_app. lia.
Qed.

Lemma set_parent_repr h d pr nx items p : node_repr h d pr nx items -> in_int32 p ->
  node_repr h (set_parent d p) p nx items /\ zlen (set_parent d p) = zlen d.
Proof using Type.
  intros (pad & rest & Hp & Hh & Hits & Hn & Hpr & Hnx & ->) Hq. unfold set_parent.
  destruct (header_fields h pad (zlen items) pr nx (concat items ++ rest)) as (_ & _ & _ & ->); [done..|].
  split; [by exists pad, rest|]. rewrite !zlen_app, !header_zlen by done. done.
Qed.

Lemma set_next_repr d pr nx items p : node_repr LeafHandler d pr nx items -> in_int32 p ->
  node_repr LeafHandler (set_next d p) pr p items /\ zlen (set_next d p) = zlen d.
Proof using Type.
  intros (pad & rest & Hp & Hh & Hits & Hn & Hpr & Hnx & ->) Hq. unfold set_next, set_int32.
  assert (blit (header_of LeafHandler pad (zlen items) pr nx ++ concat items ++ rest) 12 (le_bytes 4 p) =
    header_of LeafHandler pad (zlen items) pr p ++ concat items ++ rest) as ->.
  { set (B := ([1] ++ pad) ++ le_bytes 4 (zlen items) ++ le_bytes 4 pr).
    assert (forall v x, header_of LeafHandler pad (zlen items) pr v ++ x = B ++ le_bytes 4 v ++ x) as E.
    { intros v x. unfold header_of, B. by rewrite <- !app_assoc. }
    rewrite !E. apply blit_mid; [|by rewrite !le_bytes_length].
    unfold B, zlen. rewrite !length_app, !le_bytes_length, Hp. done. }
  split; [by exists pad, rest|]. rewrite !zlen_app, !header_zlen by done. done.
Qed.

(** A page that is long enough becomes an empty node, whatever it held. *)
Lemma node_init_repr (leaf : bool) (d : list Z) : 16 <= zlen d ->
  let h := if leaf then LeafHandler else InternalHandler in
  exists nx, node_repr h (if leaf then init_leaf d else init_internal d) BP_INVALID_PAGE_NUM nx [] /\
    (leaf = true -> nx = BP_INVALID_PAGE_NUM) /\
    zlen (if leaf then init_leaf d else init_internal d) = zlen d.
Proof using Type.
  intros Hd h. destruct (split_header d Hd) as (b & pad & x & y & z & rest & -> & Hpad & Hx & Hy & Hz).
  assert (init_node ((b :: pad) ++ x ++ y ++ z ++ rest) leaf =
    ([if leaf then 1 else 0] ++ pad) ++ le_bytes 4 0 ++ le_bytes 4 BP_INVALID_PAGE_NUM ++ z ++ rest) as E.
  { unfold init_node, set_int32. rewrite (blit_mid [] [b] (pad ++ x ++ y ++ z ++ rest)) by done. cbn [app].
    set (f := if leaf then 1 else 0).
    rewrite (blit_mid (f :: pad) x (y ++ z ++ rest)); [|unfold zlen; cbn; by rewrite Hpad|by rewrite le_bytes_length].
    rewrite (app_assoc (f :: pad)), (blit_mid ((f :: pad) ++ le_bytes 4 0) y (z ++ rest)), <- app_assoc;
      [done| |by rewrite le_bytes_length].
    unfold zlen. rewrite length_app, le_bytes_length. cbn. by rewrite Hpad. }
  destruct leaf; unfold init_leaf, init_internal; rewrite E.
  - exists BP_INVALID_PAGE_NUM. unfold set_next, set_int32.
    rewrite !app_assoc, <- (app_assoc _ z rest), (blit_mid _ z rest), <- !app_assoc;
      [|unfold zlen; rewrite !length_app, !le_bytes_length; cbn; by rewrite Hpad|by rewrite le_bytes_length].
    split; [|split; [done|]].
    + exists pad, rest. split_and!; try done. unfold header_of. by rewrite <- !app_assoc.
    + unfold zlen. rewrite !length_app, !le_bytes_length. cbn [length app]. rewrite ?length_app. lia.
  - exists 0. split; [|split; [done|]].
    + exists pad, (z ++ rest). split_and!; try done. unfold header_of. rewrite <- !app_assoc. done.
    + unfold zlen. rewrite !length_app, !le_bytes_length. cbn [length app]. rewrite ?length_app. lia.
Qed.

Lemma split_prefix (l : list Z) n : 0 <= n <= zlen l -> exists a b, l = a ++ b /\ zlen a = n.
Proof using Type.
  intros Hn. exists (take (Z.to_nat n) l), (drop (Z.to_nat n) l). rewrite take_drop. split; [done|].
  unfold zlen in *. rewrite length_take. lia.
Qed.

Lemma create_new_root_repr d pr nx first_page k page : node_repr InternalHandler d pr nx [] ->
  0 <= key_length -> zlen k = key_length -> 12 + 2 * item_size InternalHandler <= zlen d ->
  exists d', create_new_root d first_page k page = Some d' /\
    node_repr InternalHandler d' pr nx
      [replicate (Z.to_nat key_length) 0 ++ le_bytes 4 first_page; k ++ le_bytes 4 page] /\ zlen d' = zlen d.
Proof using Type.
  intros (pad & rest & Hp & Hh & _ & _ & Hpr & Hnx & ->) H0 Hk Hroom.
  assert (item_size InternalHandler = key_length + 4) as Eisz by done.
  set (H := header_of InternalHandler pad (zlen []) pr nx) in *. cbn [concat app] in *.
  assert (zlen H = 12) as HH by (by apply header_zlen). rewrite zlen_app in Hroom.
  destruct (split_prefix rest key_length) as (x0 & r0 & -> & E0); [lia|]. rewrite zlen_app in Hroom.
  destruct (split_prefix r0 4) as (x1 & r1 & -> & E1); [lia|]. rewrite zlen_app in Hroom.
  destruct (split_prefix r1 key_length) as (x2 & r2 & -> & E2); [lia|]. rewrite zlen_app in Hroom.
  destruct (split_prefix r2 4) as (x3 & r3 & -> & E3); [lia|].
  set (z := replicate (Z.to_nat key_length) 0).
  assert (length z = length x0) as Ez by (unfold z, zlen in *; rewrite length_replicate; lia).
  assert (zlen z = key_length) as Ez' by (unfold zlen in *; lia).
  unfold create_new_root. cbn [item_at mbind option_bind array_offset]. rewrite Z.mul_0_l, Z.add_0_r, Z.mul_1_l, Eisz. fold z.
  rewrite (take_ge k) by (unfold zlen in Hk; lia).
  rewrite (blit_mid H x0) by done.
  rewrite (app_assoc H), (blit_mid (H ++ z) x1); [|rewrite zlen_app; lia|rewrite le_bytes_length; unfold zlen in *; lia].
  rewrite (app_assoc (H ++ z)), (blit_mid ((H ++ z) ++ le_bytes 4 first_page) x2);
    [|rewrite !zlen_app; unfold zlen at 3; rewrite le_bytes_length; lia|unfold zlen in *; lia].
  rewrite (app_assoc ((H ++ z) ++ _)), (blit_mid (((H ++ z) ++ le_bytes 4 first_page) ++ k) x3);
    [|rewrite !zlen_app; unfold zlen at 3; rewrite le_bytes_length; lia|rewrite le_bytes_length; unfold zlen in *; lia].
  rewrite <- !app_assoc. eexists. split; [done|]. unfold increase_size, H.
  destruct (header_fields InternalHandler pad (zlen (@nil (list Z))) pr nx (z ++ le_bytes 4 first_page ++ k ++ le_bytes 4 page ++ r3))
    as (-> & _ & -> & _); [done..|].
  assert (forall v, zlen (le_bytes 4 v) = 4) as Hl by (intros; unfold zlen; by rewrite le_bytes_length).
  split.
  - exists pad, r3. split_and!; try done.
    + repeat constructor; rewrite zlen_app, Hl; lia.
    + cbn [concat]. by rewrite app_nil_r, <- !app_assoc.
  - rewrite !zlen_app, !header_zlen, !Hl by done. lia.
Qed.
End handlers.

(** ** Theorem *)

(** C37: The [memmove]s and [memcpy]s of [recover_insert_items] and [recover_remove_items] on
    the bytes of a node page are insertion into and removal from its list of items: the
    page keeps its kind, parent and next page, its item count is the new list's length,
    and no byte beyond the page is touched. *)
Theorem node_bytes_refine key_length h d pr nx items index its num :
  node_repr key_length h d pr nx items -> (index + num <= length items)%nat ->
  Forall (fun it => zlen it = item_size key_length h) its -> in_int32 (zlen items + zlen its) ->
  array_offset h + (zlen items + zlen its) * item_size key_length h <= zlen d ->
  (exists d', recover_insert_items key_length h d (Z.of_nat index) (concat its) (zlen its) = Some d' /\
     node_repr key_length h d' pr nx (insert_items_at index its items) /\ zlen d' = zlen d) /\
  (exists d', recover_remove_items key_length h d (Z.of_nat index) (Z.of_nat num) = Some d' /\
     node_repr key_length h d' pr nx (remove_items_at index num items) /\ zlen d' = zlen d).
Proof.
  intros Hr Hin Hits Hn Hroom. unfold insert_items_at, remove_items_at.
  assert (Z.of_nat index = zlen (take index items)) as Ei by (unfold zlen; rewrite length_take; lia). split.
  - rewrite Ei. apply insert_items_repr; [by rewrite take_drop|done| |by rewrite take_drop].
    rewrite !zlen_app. replace (zlen (take index items) + (zlen its + zlen (drop index items)))
      with (zlen items + zlen its); [done|]. unfold zlen. rewrite length_take, length_drop. lia.
  - assert (Z.of_nat num = zlen (take num (drop index items))) as En
      by (unfold zlen; rewrite length_take, length_drop; lia).
    rewrite Ei, En. apply remove_items_repr. by rewrite <- drop_drop, !take_drop.
Qed.

Definition demo_page : list Z := init_leaf (replicate 100 9).

Lemma node_bytes_refine_witness :
  (exists d', recover_insert_items 4 LeafHandler demo_page 0 (concat [replicate 12 5]) 1 = Some d' /\
     node_repr 4 LeafHandler d' (-1) (-1) [replicate 12 5]) /\ node_size demo_page = 0.
Proof.
  assert (exists nx, node_repr 4 LeafHandler demo_page BP_INVALID_PAGE_NUM nx [] /\
    (true = true -> nx = BP_INVALID_PAGE_NUM) /\ zlen demo_page = zlen (replicate 100 9)) as (nx & Hr & Hnx & _).
  { apply (node_init_repr 4 true). vm_compute. done. }
  rewrite (Hnx eq_refl) in Hr.
  destruct (node_bytes_refine 4 LeafHandler demo_page BP_INVALID_PAGE_NUM BP_INVALID_PAGE_NUM [] 0 [replicate 12 5] 0)
    as ((d' & E & Hd & _) & _).
  - exact Hr.
  - cbn. lia.
  - repeat constructor.
  - vm_compute. done.
  - vm_compute. done.
  - split; [|vm_compute; reflexivity]. exists d'. split; [exact E|exact Hd].
Defined.
End BplusPage.
