(* ===== verification/BplusLog.v ===== *)
(** * BplusLog: the log of the B+ tree

    Models [bplus_tree_log.cpp], [bplus_tree_log_entry.cpp] and [.h] of
    [src/src/observer/storage/index/] and [src/src/common/lang/serializer.cpp]: every
    change of a node page is an operation that is queued with the page it changes; when
    the mini-transaction ends well the queue is written as one log record and the pages
    get its LSN, otherwise the queue is undone from its end.  Recovery parses a record
    and does again what is not on the page yet.  The pages are bytes, as in [BplusPage]. *)

From Stdlib Require Import Sorted.
From stdpp Require Import sorting.
From S2P Require Import Prelude Bytes RecordPage BplusTree BplusPage.

Module BplusLog.
Import BplusPage.

(** ** Data *)

(** [struct IndexFileHeader], as it is in the header page and in the log. *)
Record FileHeader := mkFileHeader {
  fh_root_page : Z;
  fh_internal_max_size : Z;
  fh_leaf_max_size : Z;
  fh_attr_length : Z;
  fh_key_length : Z;
  fh_attr_type : Z
}.

Definition file_header_bytes (h : FileHeader) : list Z :=
  le_bytes 4 h.(fh_root_page) ++ le_bytes 4 h.(fh_internal_max_size) ++ le_bytes 4 h.(fh_leaf_max_size) ++
  le_bytes 4 h.(fh_attr_length) ++ le_bytes 4 h.(fh_key_length) ++ le_bytes 4 h.(fh_attr_type).

Definition file_header_read (l : list Z) : FileHeader :=
  mkFileHeader (int32 (le_value (field l 0 4))) (int32 (le_value (field l 4 4))) (int32 (le_value (field l 8 4)))
    (int32 (le_value (field l 12 4))) (int32 (le_value (field l 16 4))) (int32 (le_value (field l 20 4))).

Definition file_header_ok (h : FileHeader) : Prop :=
  in_int32 h.(fh_root_page) /\ in_int32 h.(fh_internal_max_size) /\ in_int32 h.(fh_leaf_max_size) /\
  in_int32 h.(fh_attr_length) /\ in_int32 h.(fh_key_length) /\ in_int32 h.(fh_attr_type).

Lemma file_header_length h : length (file_header_bytes h) = 24%nat.
Proof. unfold file_header_bytes. by rewrite !length_app, !le_bytes_length. Qed.

Lemma file_header_read_bytes h : file_header_ok h -> file_header_read (file_header_bytes h) = h.
Proof.
  destruct h as [a b c d e f]. intros (Ha & Hb & Hc & Hd & He & Hf). unfold file_header_read, file_header_bytes.
  cbn [fh_root_page fh_internal_max_size fh_leaf_max_size fh_attr_length fh_key_length fh_attr_type] in *.
  assert (forall v n, length (le_bytes n v) = n) as Hl by (intros; apply le_bytes_length).
  rewrite field_app_here by done. rewrite (field_app_later _ _ 4 0), field_app_here by done.
  rewrite (field_app_later _ _ 4 4), (field_app_later _ _ 4 0), field_app_here by done.
  rewrite (field_app_later _ _ 4 8), (field_app_later _ _ 4 4), (field_app_later _ _ 4 0), field_app_here by done.
  rewrite (field_app_later _ _ 4 12), (field_app_later _ _ 4 8), (field_app_later _ _ 4 4), (field_app_later _ _ 4 0), field_app_here by done.
  rewrite (field_app_later _ _ 4 16), (field_app_later _ _ 4 12), (field_app_later _ _ 4 8), (field_app_later _ _ 4 4),
    (field_app_later _ _ 4 0), field_all by done.
  by rewrite !le_value_int32.
Qed.

#[export] Instance file_header_codec : Codec FileHeader := {
  codec_size := 24;
  codec_ok := file_header_ok;
  encode_bytes := file_header_bytes;
  decode_bytes := file_header_read;
  encode_length := file_header_length;
  decode_encode := file_header_read_bytes
}.

(** [LogOperation::Type], with what the handler class of each type holds; the last
    argument of some is for undo only and is not written to the log. *)
Inductive LogOp :=
| INIT_HEADER_PAGE (h : FileHeader)
| UPDATE_ROOT_PAGE (root_page old_page : Z)
| SET_PARENT_PAGE (parent_page old_parent_page : Z)
| LEAF_INIT_EMPTY
| LEAF_SET_NEXT_PAGE (new_page old_page : Z)
| INTERNAL_INIT_EMPTY
| INTERNAL_CREATE_NEW_ROOT (first_page : Z) (k : list Z) (page : Z)
| INTERNAL_UPDATE_KEY (index : Z) (k old_key : list Z)
| NODE_INSERT (index : Z) (items : list Z) (item_num : Z)
| NODE_REMOVE (index : Z) (items : list Z) (item_num : Z).

Definition op_index (op : LogOp) : Z :=
  match op with
  | INIT_HEADER_PAGE _ => 0 | UPDATE_ROOT_PAGE _ _ => 1 | SET_PARENT_PAGE _ _ => 2 | LEAF_INIT_EMPTY => 3
  | LEAF_SET_NEXT_PAGE _ _ => 4 | INTERNAL_INIT_EMPTY => 5 | INTERNAL_CREATE_NEW_ROOT _ _ _ => 6
  | INTERNAL_UPDATE_KEY _ _ _ => 7 | NODE_INSERT _ _ _ => 8 | NODE_REMOVE _ _ _ => 9
  end.
Definition MAX_TYPE : Z := 10.

(** [class LogEntryHandler]: the operation and its page. *)
Record LogEntryHandler := mkLog { page_num : Z; op : LogOp }.

(** ** Writing *)

Definition write_int32 (v : Z) : list Z := le_bytes 4 v.
Definition write_sized (l : list Z) : list Z := write_int32 (zlen l) ++ l.

Definition serialize_new_root (first_page : Z) (k : list Z) (page : Z) : list Z :=
  write_int32 first_page ++ write_int32 page ++ write_sized k.
Definition serialize_update_key (index : Z) (k : list Z) : list Z := write_int32 index ++ write_sized k.
Definition serialize_normal (index : Z) (items : list Z) (num : Z) : list Z :=
  write_int32 index ++ write_int32 num ++ write_sized items.

Definition serialize_body (o : LogOp) : list Z :=
  match o with
  | INIT_HEADER_PAGE h => encode_bytes h
  | UPDATE_ROOT_PAGE p _ | SET_PARENT_PAGE p _ | LEAF_SET_NEXT_PAGE p _ => write_int32 p
  | LEAF_INIT_EMPTY | INTERNAL_INIT_EMPTY => []
  | INTERNAL_CREATE_NEW_ROOT first_page k page => serialize_new_root first_page k page
  | INTERNAL_UPDATE_KEY index k _ => serialize_update_key index k
  | NODE_INSERT index items num | NODE_REMOVE index items num => serialize_normal index items num
  end.

(** [LogEntryHandler::serialize] *)
Definition serialize (e : LogEntryHandler) : list Z :=
  write_int32 (op_index e.(op)) ++ write_int32 e.(page_num) ++ serialize_body e.(op).

(** The payload of [BplusTreeLogger::commit]. *)
Definition commit_buffer (buffer_pool_id : Z) (es : list LogEntryHandler) : list Z :=
  write_int32 buffer_pool_id ++ concat (serialize <$> es).

(** ** Reading *)

(** A [Deserializer] is the bytes that remain; reading more than there is fails with the
    caller's error code.  [None] is an exception: a [vector] of negative size. *)
Definition Parse (X : Type) : Type := list Z -> option (RC + X * list Z).

Definition parse_ret {X} (x : X) : Parse X := fun l => Some (inr (x, l)).
Definition parse_fail {X} (rc : RC) : Parse X := fun _ => Some (inl rc).
Definition parse_bind {X Y} (p : Parse X) (f : X -> Parse Y) : Parse Y := fun l =>
  match p l with
  | None => None
  | Some (inl rc) => Some (inl rc)
  | Some (inr (x, l')) => f x l'
  end.

Declare Scope parse_scope.
Delimit Scope parse_scope with parse.
Notation "x <- p ;; q" := (parse_bind p (fun x => q)) (at level 100, p at next level, right associativity) : parse_scope.

(** [Deserializer::read] and [read_int32] *)
Definition read (rc : RC) (n : Z) : Parse (list Z) := fun l =>
  if n <? 0 then None
  else if zlen l <? n then Some (inl rc)
  else Some (inr (take (Z.to_nat n) l, drop (Z.to_nat n) l)).

Open Scope parse_scope.
Definition read_int32 (rc : RC) : Parse Z := b <- read rc 4 ;; parse_ret (int32 (le_value b)).
Definition read_sized (rc : RC) : Parse (list Z) := n <- read_int32 rc ;; read rc n.

(** The [deserialize] functions of the handler classes. *)
Definition deserialize_init_header : Parse LogOp :=
  b <- read INTERNAL 24 ;; parse_ret (INIT_HEADER_PAGE (decode_bytes b)).
Definition deserialize_update_root : Parse LogOp :=
  p <- read_int32 INTERNAL ;; parse_ret (UPDATE_ROOT_PAGE p (-1)).
Definition deserialize_set_parent : Parse LogOp :=
  p <- read_int32 INTERNAL ;; parse_ret (SET_PARENT_PAGE p (-1)).
Definition deserialize_leaf_init : Parse LogOp := parse_ret LEAF_INIT_EMPTY.
Definition deserialize_set_next : Parse LogOp :=
  p <- read_int32 INTERNAL ;; parse_ret (LEAF_SET_NEXT_PAGE p (-1)).
Definition deserialize_internal_init : Parse LogOp := parse_ret INTERNAL_INIT_EMPTY.
Definition deserialize_new_root : Parse LogOp :=
  first_page <- read_int32 INTERNAL ;; page <- read_int32 INTERNAL ;; k <- read_sized INTERNAL ;;
  parse_ret (INTERNAL_CREATE_NEW_ROOT first_page k page).
Definition deserialize_update_key : Parse LogOp :=
  index <- read_int32 INTERNAL ;; k <- read_sized INTERNAL ;; parse_ret (INTERNAL_UPDATE_KEY index k []).
Definition deserialize_normal (operation : Z -> list Z -> Z -> LogOp) : Parse LogOp :=
  index <- read_int32 INTERNAL ;; num <- read_int32 INTERNAL ;; items <- read_sized INTERNAL ;;
  parse_ret (operation index items num).

Definition deserialize_body (type : Z) : Parse LogOp :=
  match type with
  | 0 => deserialize_init_header
  | 1 => deserialize_update_root
  | 2 => deserialize_set_parent
  | 3 => deserialize_leaf_init
  | 4 => deserialize_set_next
  | 5 => deserialize_internal_init
  | 6 => deserialize_new_root
  | 7 => deserialize_update_key
  | 8 => deserialize_normal NODE_INSERT
  | 9 => deserialize_normal NODE_REMOVE
  | _ => parse_fail INTERNAL
  end.

(** [LogEntryHandler::from_buffer] *)
Definition from_buffer (frame_getter : Z -> RC) : Parse LogEntryHandler :=
  type <- read_int32 INVALID_ARGUMENT ;;
  if (type <? 0) || (MAX_TYPE <=? type) then parse_fail INVALID_ARGUMENT
  else
    page <- read_int32 INVALID_ARGUMENT ;;
    if OB_FAIL (frame_getter page) then parse_fail (frame_getter page)
    else o <- deserialize_body type ;; parse_ret (mkLog page o).
Close Scope parse_scope.

(** ** Doing and undoing *)

Definition handler_of (d : list Z) : Handler := if is_leaf d then LeafHandler else InternalHandler.

(** The page an operation changes: the root's number is in the header page. *)
Definition target (e : LogEntryHandler) : Z :=
  match e.(op) with UPDATE_ROOT_PAGE _ _ => FIRST_INDEX_PAGE | _ => e.(page_num) end.

(** [NormalOperationLogEntryHandler::redo] picks the handler by the page's kind,
    [rollback] uses a plain [IndexNodeHandler]. *)
Definition normal_redo (key_length : Z) (insert : bool) (index : Z) (items : list Z) (num : Z) (d : list Z) : option (list Z) :=
  if insert then recover_insert_items key_length (handler_of d) d index items num
  else recover_remove_items key_length (handler_of d) d index num.
Definition normal_rollback (key_length : Z) (insert : bool) (index : Z) (items : list Z) (num : Z) (d : list Z) : option (list Z) :=
  if insert then recover_remove_items key_length BaseHandler d index num
  else recover_insert_items key_length BaseHandler d index items num.

(** The [redo] functions of the handler classes, on the bytes of the page; [None] is a
    failed assertion.  The same changes are made when the operation is logged. *)
Definition redo_op (key_length : Z) (o : LogOp) (d : list Z) : option (list Z) :=
  match o with
  | INIT_HEADER_PAGE h => Some (blit d 0 (file_header_bytes h))
  | UPDATE_ROOT_PAGE p _ => Some (set_int32 d 0 p)
  | SET_PARENT_PAGE p _ => Some (set_parent d p)
  | LEAF_INIT_EMPTY => Some (init_leaf d)
  | LEAF_SET_NEXT_PAGE p _ => Some (set_next d p)
  | INTERNAL_INIT_EMPTY => Some (init_internal d)
  | INTERNAL_CREATE_NEW_ROOT first_page k page => create_new_root key_length d first_page k page
  | INTERNAL_UPDATE_KEY index k _ => set_key_at key_length d index k
  | NODE_INSERT index items num => normal_redo key_length true index items num d
  | NODE_REMOVE index items num => normal_redo key_length false index items num d
  end.

(** The [rollback] functions. *)
Definition rollback_op (key_length : Z) (o : LogOp) (d : list Z) : option (list Z) :=
  match o with
  | INIT_HEADER_PAGE _ | LEAF_INIT_EMPTY | INTERNAL_INIT_EMPTY | INTERNAL_CREATE_NEW_ROOT _ _ _ => Some d
  | UPDATE_ROOT_PAGE _ old => Some (set_int32 d 0 old)
  | SET_PARENT_PAGE _ old => Some (set_parent d old)
  | LEAF_SET_NEXT_PAGE _ old => Some (set_next d old)
  | INTERNAL_UPDATE_KEY index _ old => set_key_at key_length d index old
  | NODE_INSERT index items num => normal_rollback key_length true index items num d
  | NODE_REMOVE index items num => normal_rollback key_length false index items num d
  end.

(** A frame: the page's LSN and data. *)
Record Frame := mkFrame { frame_lsn : Z; frame_data : list Z }.
Abbreviation Pages := (gmap Z Frame).

Definition set_lsns (lsn : Z) (touched : list Z) (pages : Pages) : Pages :=
  foldl (fun m p => alter (fun f => mkFrame lsn f.(frame_data)) p m) pages touched.

(** An operation on its page. *)
Definition apply_op (f : LogOp -> list Z -> option (list Z)) (e : LogEntryHandler) (pages : Pages) : option Pages :=
  fr ← pages !! target e;
  d ← f e.(op) fr.(frame_data);
  Some (<[target e := mkFrame fr.(frame_lsn) d]> pages).

Fixpoint apply_ops (f : LogOp -> list Z -> option (list Z)) (es : list LogEntryHandler) (pages : Pages) : option Pages :=
  match es with
  | [] => Some pages
  | e :: es' => pages' ← apply_op f e pages; apply_ops f es' pages'
  end.

(** A mini-transaction that ends well: its changes, one log record, and
    [BplusTreeLogger::commit]. *)
Definition run_commit (key_length lsn : Z) (es : list LogEntryHandler) (pages : Pages) : option Pages :=
  pages' ← apply_ops (redo_op key_length) es pages;
  Some (set_lsns lsn (page_num <$> es) pages').

(** [BplusTreeLogger::rollback] *)
Definition rollback (key_length : Z) (es : list LogEntryHandler) (pages : Pages) : option Pages :=
  apply_ops (rollback_op key_length) (reverse es) pages.

(** ** Recovery *)

(** [BplusTreeHandler::open] on the buffer pool: the header page's key length. *)
Definition open_header (pages : Pages) : RC + FileHeader :=
  match pages !! FIRST_INDEX_PAGE with
  | None => inl IOERR_READ
  | Some f =>
      let h := decode_bytes (take 24 f.(frame_data)) in
      if fh_key_length h <=? 0 then inl NOMEM else inr h
  end.

Definition frame_getter (pages : Pages) (p : Z) : RC :=
  match pages !! p with Some _ => SUCCESS | None => IOERR_READ end.

(** The loop of [BplusTreeLogger::__redo]: each entry takes at least eight bytes. *)
Fixpoint redo_loop (fuel : nat) (lsn : Z) (h : FileHeader) (pages : Pages) (touched : list Z) (buffer : list Z)
    : option (RC * Pages * list Z) :=
  match fuel with
  | O => None
  | S fuel' =>
      match buffer with
      | [] => Some (SUCCESS, pages, touched)
      | _ :: _ =>
          match from_buffer (frame_getter pages) buffer with
          | None => None
          | Some (inl rc) => Some (rc, pages, touched)
          | Some (inr (e, rest)) =>
              match pages !! e.(page_num) with
              | None => redo_loop fuel' lsn h pages touched rest
              | Some f =>
                  if lsn <=? f.(frame_lsn) then redo_loop fuel' lsn h pages touched rest
                  else
                    pages' ← apply_op (redo_op h.(fh_key_length)) e pages;
                    let h' := match e.(op) with INIT_HEADER_PAGE h' => h' | _ => h end in
                    redo_loop fuel' lsn h' pages' (touched ++ [e.(page_num)]) rest
              end
          end
      end
  end.

(** [BplusTreeLogger::redo]: an error inside the record is not reported. *)
Definition redo (lsn : Z) (payload : list Z) (pages : Pages) : option (RC * Pages) :=
  match read_int32 IOERR_READ payload with
  | None => None
  | Some (inl rc) => Some (rc, pages)
  | Some (inr (_, buffer)) =>
      match open_header pages with
      | inl rc => Some (rc, pages)
      | inr h =>
          '(rc, pages', touched) ← redo_loop (S (length buffer)) lsn h pages [] buffer;
          Some (SUCCESS, if OB_SUCC rc then set_lsns lsn touched pages' else pages')
      end
  end.

(** ** Parsing what was written *)

Definition erase (o : LogOp) : LogOp :=
  match o with
  | UPDATE_ROOT_PAGE p _ => UPDATE_ROOT_PAGE p (-1)
  | SET_PARENT_PAGE p _ => SET_PARENT_PAGE p (-1)
  | LEAF_SET_NEXT_PAGE p _ => LEAF_SET_NEXT_PAGE p (-1)
  | INTERNAL_UPDATE_KEY index k _ => INTERNAL_UPDATE_KEY index k []
  | o => o
  end.

Definition op_ok (o : LogOp) : Prop :=
  match o with
  | INIT_HEADER_PAGE h => file_header_ok h
  | UPDATE_ROOT_PAGE p _ | SET_PARENT_PAGE p _ | LEAF_SET_NEXT_PAGE p _ => in_int32 p
  | LEAF_INIT_EMPTY | INTERNAL_INIT_EMPTY => True
  | INTERNAL_CREATE_NEW_ROOT p k p' => in_int32 p /\ in_int32 p' /\ in_int32 (zlen k)
  | INTERNAL_UPDATE_KEY i k _ => in_int32 i /\ in_int32 (zlen k)
  | NODE_INSERT i items n | NODE_REMOVE i items n => in_int32 i /\ in_int32 n /\ in_int32 (zlen items)
  end.

Lemma read_app rc n a r : zlen a = n -> read rc n (a ++ r) = Some (inr (a, r)).
Proof.
  intros <-. unfold read. rewrite zlen_app. pose proof (zlen_pos a). pose proof (zlen_pos r).
  destruct (Z.ltb_spec (zlen a) 0); [lia|]. destruct (Z.ltb_spec (zlen a + zlen r) (zlen a)); [lia|].
  unfold zlen. by rewrite Nat2Z.id, take_app_length, drop_app_length.
Qed.

Lemma read_int32_app rc v r : in_int32 v -> read_int32 rc (write_int32 v ++ r) = Some (inr (v, r)).
Proof.
  intros Hv. unfold read_int32, parse_bind, write_int32. rewrite read_app by (unfold zlen; by rewrite le_bytes_length).
  unfold parse_ret. by rewrite le_value_int32.
Qed.

Lemma read_sized_app rc l r : in_int32 (zlen l) -> read_sized rc (write_sized l ++ r) = Some (inr (l, r)).
Proof.
  intros Hl. unfold read_sized, write_sized, parse_bind. rewrite <- app_assoc, read_int32_app by done. by apply read_app.
Qed.

#[local] Hint Rewrite <- app_assoc : parse.
#[local] Hint Rewrite read_int32_app read_sized_app using done : parse.

Lemma deserialize_body_app o r : op_ok o ->
  deserialize_body (op_index o) (serialize_body o ++ r) = Some (inr (erase o, r)).
Proof.
  intros Ho. destruct o; cbn [op_index deserialize_body serialize_body erase op_ok] in *; destruct_and?;
    unfold deserialize_init_header, deserialize_update_root, deserialize_set_parent, deserialize_leaf_init,
      deserialize_set_next, deserialize_internal_init, deserialize_new_root, deserialize_update_key,
      deserialize_normal, serialize_new_root, serialize_update_key, serialize_normal, parse_bind; autorewrite with parse; try done.
  rewrite read_app; [|unfold zlen; by rewrite encode_length].
  unfold parse_ret. by rewrite decode_encode.
Qed.

Lemma from_buffer_app g e r : op_ok e.(op) -> in_int32 e.(page_num) -> g e.(page_num) = SUCCESS ->
  from_buffer g (serialize e ++ r) = Some (inr (mkLog e.(page_num) (erase e.(op)), r)).
Proof.
  intros Ho Hp Hg. unfold from_buffer, serialize, parse_bind. rewrite <- !app_assoc.
  assert (0 <= op_index e.(op) < MAX_TYPE) as Hi by (by destruct e.(op)).
  rewrite read_int32_app by (unfold in_int32, INT32_MIN, INT32_MAX, MAX_TYPE in *; lia).
  destruct (Z.ltb_spec (op_index e.(op)) 0); [lia|]. destruct (Z.leb_spec MAX_TYPE (op_index e.(op))); [lia|].
  cbn [orb]. rewrite read_int32_app, Hg by done. rc_simpl.
  cbv beta. by rewrite deserialize_body_app.
Qed.

Lemma redo_op_erase K o : redo_op K (erase o) = redo_op K o.
Proof. by destruct o. Qed.

(** ** The pages of a record *)

(** What the source logs: the header page is only touched by [UPDATE_ROOT_PAGE]. *)
Definition logged_ok (e : LogEntryHandler) : Prop :=
  op_ok e.(op) /\ in_int32 e.(page_num) /\
  match e.(op) with
  | INIT_HEADER_PAGE _ => False
  | UPDATE_ROOT_PAGE _ _ => e.(page_num) = FIRST_INDEX_PAGE
  | _ => e.(page_num) <> FIRST_INDEX_PAGE
  end.

Lemma target_page e : logged_ok e -> target e = e.(page_num).
Proof. intros (_ & _ & H). unfold target. by destruct e.(op). Qed.

Lemma apply_op_inv f e pages pages' : apply_op f e pages = Some pages' ->
  exists fr d, pages !! target e = Some fr /\ f e.(op) fr.(frame_data) = Some d /\
    pages' = <[target e := mkFrame fr.(frame_lsn) d]> pages.
Proof.
  unfold apply_op. destruct (pages !! target e) as [fr|]; [|done]. cbn.
  destruct (f e.(op) (frame_data fr)) as [d|] eqn:Ed; [|done]. cbn. intros [= <-]. by exists fr, d.
Qed.

(** The loop of [__redo] on the entries of a record, once parsed. *)
Fixpoint redo_entries (K lsn : Z) (es : list LogEntryHandler) (pages : Pages) (touched : list Z) : option (Pages * list Z) :=
  match es with
  | [] => Some (pages, touched)
  | e :: es' =>
      match pages !! e.(page_num) with
      | None => None
      | Some f =>
          if lsn <=? f.(frame_lsn) then redo_entries K lsn es' pages touched
          else pages' ← apply_op (redo_op K) e pages; redo_entries K lsn es' pages' (touched ++ [e.(page_num)])
      end
  end.

Lemma serialize_nonempty e : (8 <= length (serialize e))%nat.
Proof. unfold serialize, write_int32. rewrite !length_app, !le_bytes_length. lia. Qed.

Lemma redo_loop_entries es fuel lsn h pages touched res : Forall logged_ok es ->
  redo_entries h.(fh_key_length) lsn es pages touched = Some res ->
  (length (concat (serialize <$> es)) < fuel)%nat ->
  redo_loop fuel lsn h pages touched (concat (serialize <$> es)) = Some (SUCCESS, res.1, res.2).
Proof.
  intros Hes. revert fuel pages touched. induction Hes as [|e es He _ IH]; intros fuel pages touched Hr Hf.
  { destruct fuel; [cbn in Hf; lia|]. cbn in *. by injection Hr as <-. }
  cbn [fmap list_fmap concat redo_entries] in *. rewrite length_app in Hf. pose proof (serialize_nonempty e) as H8.
  destruct fuel as [|fuel]; [lia|]. destruct (pages !! page_num e) as [f|] eqn:Ef; [|done].
  cbn [redo_loop]. destruct (serialize e ++ concat (serialize <$> es)) eqn:Eb.
  { apply (f_equal length) in Eb. rewrite length_app in Eb. cbn in Eb. lia. }
  rewrite <- Eb. clear Eb. destruct He as (Ho & Hp & Hk).
  rewrite from_buffer_app; [|done|done|unfold frame_getter; by rewrite Ef].
  cbn [page_num]. rewrite Ef. destruct (lsn <=? frame_lsn f); [by apply IH; [|lia]|].
  assert (apply_op (redo_op (fh_key_length h)) (mkLog (page_num e) (erase (op e))) pages =
          apply_op (redo_op (fh_key_length h)) e pages) as ->.
  { unfold apply_op, target. cbn [op page_num]. rewrite redo_op_erase. by destruct (op e). }
  destruct (apply_op _ e pages) as [pages'|]; [|done]. cbn [mbind option_bind] in *.
  cbn [op]. replace (match erase (op e) with INIT_HEADER_PAGE h' => h' | _ => h end) with h by (by destruct (op e)).
  apply IH; [done|lia].
Qed.

(** Redo against the original run, page by page: a page that has the record keeps its
    contents, the others go through the same changes. *)
Definition has_record (L : Z) (D : Pages) (p : Z) : Prop := exists f, D !! p = Some f /\ L <= f.(frame_lsn).

Lemma redo_agrees K L es S S' D t : Forall logged_ok es -> apply_ops (redo_op K) es S = Some S' ->
  (forall p, p ∈ page_num <$> es -> has_record L D p \/ (D !! p = S !! p /\ ~ has_record L D p)) ->
  exists D' t', redo_entries K L es D t = Some (D', t ++ t') /\
    (forall p, has_record L D p \/ p ∉ page_num <$> es -> D' !! p = D !! p /\ p ∉ t') /\
    (forall p, ~ has_record L D p -> p ∈ page_num <$> es -> D' !! p = S' !! p /\ p ∈ t') /\
    (forall p, p ∉ page_num <$> es -> S' !! p = S !! p).
Proof.
  intros Hes. revert S D t. induction Hes as [|e es He _ IH]; intros S D t HS HD.
  { injection HS as ->. exists D, []. rewrite app_nil_r. split; [done|]. split; [set_solver|]. split; set_solver. }
  cbn [apply_ops] in HS. destruct (apply_op (redo_op K) e S) as [S1|] eqn:E1; [|done]. cbn in HS.
  destruct (apply_op_inv _ _ _ _ E1) as (fr & d & Hfr & Hd & HS1). rewrite target_page in Hfr, HS1 by done.
  set (p0 := page_num e) in *. cbn [redo_entries fmap list_fmap] in *. fold p0.
  destruct (HD p0) as [Hrec|[HDS Hnrec]]; [set_solver| |].
  - destruct Hrec as (f & Hf & Hle). rewrite Hf. destruct (Z.leb_spec L (frame_lsn f)); [|lia].
    destruct (IH S1 D t) as (D' & t' & HR & H1 & H2 & H3); [done| |].
    { intros p Hp. destruct (decide (p = p0)) as [->|Hne]; [left; by exists f|].
      subst S1. rewrite lookup_insert_ne by done. apply HD. set_solver. }
    exists D', t'. split; [done|]. split; [intros p Hp; apply H1; set_solver|]. split.
    + intros p Hp Hin. apply H2; [done|]. destruct (decide (p = p0)) as [->|]; [destruct Hp; by exists f|set_solver].
    + intros p Hp. rewrite H3 by set_solver. subst S1. apply lookup_insert_ne. set_solver.
  - rewrite HDS, Hfr in *. destruct (Z.leb_spec L (frame_lsn fr)) as [Hle|Hlt].
    { destruct Hnrec. exists fr. by rewrite HDS. }
    assert (apply_op (redo_op K) e D = Some (<[p0 := mkFrame (frame_lsn fr) d]> D)) as ->.
    { unfold apply_op. rewrite target_page by done. fold p0. rewrite HDS. cbn. by rewrite Hd. }
    bind_step. set (D1 := <[p0 := mkFrame (frame_lsn fr) d]> D).
    assert (forall p, has_record L D1 p <-> has_record L D p) as Hsame.
    { intros p. unfold has_record, D1. destruct (decide (p = p0)) as [->|Hne]; [|by rewrite lookup_insert_ne].
      rewrite lookup_insert_eq, HDS. split; intros (f & [= <-] & Hf); cbn in Hf; lia. }
    destruct (IH S1 D1 (t ++ [p0])) as (D' & t' & HR & H1 & H2 & H3); [done| |].
    { intros p Hp. rewrite Hsame. destruct (decide (p = p0)) as [->|Hne].
      - right. split; [|done]. subst S1. unfold D1. by rewrite !lookup_insert_eq.
      - subst S1. unfold D1. rewrite !lookup_insert_ne by done. apply HD. set_solver. }
    exists D', (p0 :: t'). rewrite HR, <- app_assoc. split; [done|]. split; [|split].
    + intros p Hp. assert (p <> p0) as Hne by (intros ->; destruct Hp; [done|set_solver]).
      destruct (H1 p) as [HD' Ht']; [rewrite Hsame; set_solver|]. unfold D1 in HD'. rewrite lookup_insert_ne in HD' by done.
      split; [done|set_solver].
    + intros p Hp Hin. destruct (decide (p ∈ page_num <$> es)) as [Hin'|Hnin].
      * destruct (H2 p) as [? ?]; [by rewrite Hsame|done|]. split; [done|set_solver].
      * assert (p = p0) as -> by set_solver. split; [|set_solver].
        destruct (H1 p0) as [-> _]; [by right|]. rewrite H3 by done. subst S1. unfold D1. by rewrite !lookup_insert_eq.
    + intros p Hp. rewrite H3 by set_solver. subst S1. apply lookup_insert_ne. set_solver.
Qed.

Lemma set_lsns_lookup L t m p :
  set_lsns L t m !! p = if decide (p ∈ t) then (fun f => mkFrame L f.(frame_data)) <$> m !! p else m !! p.
Proof.
  unfold set_lsns. revert m. induction t as [|q t IH]; intros m; cbn [foldl].
  { by rewrite decide_False by apply not_elem_of_nil. }
  rewrite IH. destruct (decide (p = q)) as [->|Hne].
  - rewrite lookup_alter_eq. rewrite (decide_True (P := q ∈ q :: t)) by set_solver.
    case_decide; destruct (m !! q); done.
  - rewrite lookup_alter_ne by done. by repeat case_decide; set_solver.
Qed.

(** ** Histories *)

(** A committed mini-transaction: its LSN and its operations. *)
Abbreviation Record_ := (Z * list LogEntryHandler)%type.

Fixpoint run (K : Z) (hist : list Record_) (S : Pages) : option Pages :=
  match hist with
  | [] => Some S
  | (L, es) :: hist' => S' ← run_commit K L es S; run K hist' S'
  end.

(** [DiskLogHandler::iterate] with the replayer as its consumer. *)
Fixpoint replay_all (id : Z) (hist : list Record_) (D : Pages) : option (RC * Pages) :=
  match hist with
  | [] => Some (SUCCESS, D)
  | (L, es) :: hist' =>
      '(rc, D') ← redo L (commit_buffer id es) D;
      if OB_FAIL rc then Some (rc, D') else replay_all id hist' D'
  end.

Definition key_length_of (d : list Z) : Z := fh_key_length (file_header_read (take 24 d)).

(** The header page is there; [BplusTreeHandler::create] has written it out. *)
Definition header_page_ok (K : Z) (S : Pages) : Prop :=
  exists f, S !! FIRST_INDEX_PAGE = Some f /\ 24 <= zlen f.(frame_data) /\ key_length_of f.(frame_data) = K.

Definition lsns_below (L : Z) (S : Pages) : Prop := forall p f, S !! p = Some f -> f.(frame_lsn) < L.

(** LSNs grow along the history, from above those on the pages. *)
Definition history_ok (hist : list Record_) (S : Pages) : Prop :=
  StronglySorted (fun r r' => r.1 < r'.1) hist /\ Forall (fun r => Forall logged_ok r.2) hist /\
  Forall (fun r => lsns_below r.1 S) hist.

Lemma key_length_slice d : 24 <= zlen d -> key_length_of d = get_int32 d 16.
Proof.
  intros Hd. unfold key_length_of, file_header_read, get_int32, field, slice. cbn [fh_key_length].
  change (Z.to_nat 16) with 16%nat. change (Z.to_nat 4) with 4%nat.
  rewrite skipn_firstn_comm, take_take. done.
Qed.

Lemma set_root_key_length d v : 24 <= zlen d ->
  zlen (set_int32 d 0 v) = zlen d /\ key_length_of (set_int32 d 0 v) = key_length_of d.
Proof.
  intros Hd. assert (zlen (le_bytes 4 v) = 4) as H4 by (unfold zlen; by rewrite le_bytes_length).
  assert (zlen (set_int32 d 0 v) = zlen d) as Hl.
  { unfold set_int32, zlen. rewrite blit_length; [done|lia|]. lia. }
  split; [done|]. rewrite !key_length_slice by lia. unfold get_int32, set_int32.
  rewrite slice_blit_ne; [done|lia|lia|lia|lia|]. lia.
Qed.

Lemma apply_ops_header K es S S' : Forall logged_ok es -> apply_ops (redo_op K) es S = Some S' ->
  header_page_ok K S -> header_page_ok K S'.
Proof.
  intros Hes. revert S. induction Hes as [|e es He _ IH]; intros S HS Hh; [by injection HS as <-|].
  cbn [apply_ops] in HS. destruct (apply_op (redo_op K) e S) as [S1|] eqn:E; [|done].
  apply (IH _ HS). destruct (apply_op_inv _ _ _ _ E) as (fr & d & Hfr & Hd & ->). rewrite target_page in * by done.
  destruct Hh as (f & Hf & Hlen & HK). unfold header_page_ok. destruct (decide (page_num e = FIRST_INDEX_PAGE)) as [Ep|Ep].
  - rewrite Ep in *. rewrite lookup_insert_eq. eexists. split; [done|]. cbn [frame_data].
    rewrite Hf in Hfr. injection Hfr as <-. destruct He as (_ & _ & Hop). rewrite Ep in Hop.
    destruct (op e); try done. cbn in Hd. injection Hd as <-.
    destruct (set_root_key_length (frame_data f) root_page) as [-> ->]; done.
  - rewrite lookup_insert_ne by done. by exists f.
Qed.

Lemma run_commit_ok K L es S S' : Forall logged_ok es -> run_commit K L es S = Some S' ->
  header_page_ok K S -> lsns_below L S ->
  header_page_ok K S' /\ (forall p f, S' !! p = Some f -> f.(frame_lsn) <= L) /\
  (forall p f, S' !! p = Some f -> p ∈ page_num <$> es -> f.(frame_lsn) = L) /\
  (forall p, is_Some (S' !! p) <-> is_Some (S !! p)) /\
  (forall p f f', S !! p = Some f -> S' !! p = Some f' -> f.(frame_lsn) <= f'.(frame_lsn)).
Proof.
  intros Hes Hr Hh Hb. unfold run_commit in Hr. destruct (apply_ops (redo_op K) es S) as [S1|] eqn:E; [|done].
  cbn in Hr. injection Hr as <-.
  assert (forall p, frame_lsn <$> S1 !! p = frame_lsn <$> S !! p) as Hl.
  { clear Hh Hb. revert S E. induction Hes as [|e es He _ IH]; intros S E; [by injection E as <-|].
    cbn in E. destruct (apply_op (redo_op K) e S) as [S2|] eqn:E2; [|done]. intros p. rewrite (IH _ E p).
    destruct (apply_op_inv _ _ _ _ E2) as (fr & d & Hfr & Hd & ->).
    destruct (decide (p = target e)) as [->|]; [by rewrite lookup_insert_eq, Hfr|by rewrite lookup_insert_ne]. }
  assert (lsns_below L S1) as Hb1.
  { intros p f Hf. specialize (Hl p). rewrite Hf in Hl. destruct (S !! p) eqn:Ep; [|done]. injection Hl as ->. by eapply Hb. }
  split_and!.
  - destruct (apply_ops_header _ _ _ _ Hes E Hh) as (f & Hf & Hlen & HK). unfold header_page_ok.
    rewrite set_lsns_lookup, Hf. case_decide; cbn; eexists; split; done.
  - intros p f. rewrite set_lsns_lookup. destruct (S1 !! p) eqn:Ep; case_decide; cbn; intros [= <-]; [done|].
    pose proof (Hb1 _ _ Ep). lia.
  - intros p f. rewrite set_lsns_lookup. intros Hf Hin. rewrite decide_True in Hf by done.
    destruct (S1 !! p); [by injection Hf as <-|done].
  - intros p. rewrite set_lsns_lookup. specialize (Hl p). case_decide; destruct (S1 !! p), (S !! p); cbn in *; naive_solver.
  - intros p f f' Hf. rewrite set_lsns_lookup. specialize (Hl p). rewrite Hf in Hl. pose proof (Hb _ _ Hf).
    destruct (S1 !! p); [|done]. injection Hl as Hl. case_decide; cbn; intros [= <-]; cbn; lia.
Qed.

Lemma history_step K L es hist S S' : history_ok ((L, es) :: hist) S -> run_commit K L es S = Some S' ->
  header_page_ok K S -> history_ok hist S' /\ header_page_ok K S'.
Proof.
  intros (Hs & Hl & Hb) Hr Hh. inversion Hs as [|? ? Hs' Hlt]; subst. apply Forall_cons in Hl as [Hes Hl].
  apply Forall_cons in Hb as [HbL Hb]. cbn in *.
  destruct (run_commit_ok _ _ _ _ _ Hes Hr Hh HbL) as (Hh' & Hle & _). split; [|done]. split_and!; [done|done|].
  eapply Forall_impl; [exact Hlt|]. cbn. intros r HL p f Hf. specialize (Hle p f Hf). lia.
Qed.

Lemma run_lsn_grows K hist S S' p f : history_ok hist S -> header_page_ok K S -> run K hist S = Some S' ->
  S !! p = Some f -> exists f', S' !! p = Some f' /\ f.(frame_lsn) <= f'.(frame_lsn).
Proof.
  revert S f. induction hist as [|[L es] hist IH]; intros S f Hok Hh Hr Hf.
  { injection Hr as <-. by exists f. }
  cbn [run] in Hr. destruct (run_commit K L es S) as [S1|] eqn:E; [|done]. cbn in Hr.
  destruct (history_step _ _ _ _ _ _ Hok E Hh) as [Hok1 Hh1].
  destruct Hok as (_ & [Hes _]%Forall_cons & [HbL _]%Forall_cons).
  destruct (run_commit_ok _ _ _ _ _ Hes E Hh HbL) as (_ & _ & _ & Hdom & Hmono).
  destruct (proj2 (Hdom p) (mk_is_Some _ _ Hf)) as [f1 Hf1].
  destruct (IH _ _ Hok1 Hh1 Hr Hf1) as (f' & ? & ?). exists f'. split; [done|]. specialize (Hmono _ _ _ Hf Hf1). lia.
Qed.

Lemma run_header K hist S S' : history_ok hist S -> header_page_ok K S -> run K hist S = Some S' -> header_page_ok K S'.
Proof.
  revert S. induction hist as [|[L es] hist IH]; intros S Hok Hh Hr; [by injection Hr as <-|].
  cbn [run] in Hr. destruct (run_commit K L es S) as [S1|] eqn:E; [|done]. cbn in Hr.
  destruct (history_step _ _ _ _ _ _ Hok E Hh). by apply (IH S1).
Qed.

Lemma history_take i hist S : history_ok hist S -> history_ok (take i hist) S.
Proof.
  intros (Hs & Hl & Hb). split_and!; [|by apply Forall_take..].
  rewrite <- (take_drop i hist) in Hs. by eapply StronglySorted_app_1_l.
Qed.

(** An image of the pages after a crash: every page as it was after some prefix. *)
Definition crash_image (K : Z) (hist : list Record_) (S D : Pages) : Prop :=
  forall p, exists i Si, (i <= length hist)%nat /\ run K (take i hist) S = Some Si /\ D !! p = Si !! p.

Lemma header_of_image K hist S D : 0 < K -> history_ok hist S -> header_page_ok K S -> crash_image K hist S D ->
  exists h, open_header D = inr h /\ fh_key_length h = K.
Proof.
  intros HK Hok Hh Hc. destruct (Hc FIRST_INDEX_PAGE) as (i & Si & _ & Hr & HD).
  destruct (run_header _ _ _ _ (history_take i _ _ Hok) Hh Hr) as (f & Hf & Hlen & Hkl).
  unfold open_header. rewrite HD, Hf. change (decode_bytes (take 24 (frame_data f))) with (file_header_read (take 24 (frame_data f))).
  unfold key_length_of in Hkl. rewrite Hkl. destruct (Z.leb_spec K 0); [lia|]. by eexists.
Qed.

Lemma redo_record K id L es hist S S1 D : 0 < K -> in_int32 id -> history_ok ((L, es) :: hist) S -> header_page_ok K S ->
  run_commit K L es S = Some S1 -> crash_image K ((L, es) :: hist) S D ->
  exists D1, redo L (commit_buffer id es) D = Some (SUCCESS, D1) /\ crash_image K hist S1 D1.
Proof.
  intros HK Hid Hok Hh Hr Hc. destruct (header_of_image _ _ _ _ HK Hok Hh Hc) as (h & Hopen & Hkl).
  destruct (history_step _ _ _ _ _ _ Hok Hr Hh) as [Hok1 Hh1].
  destruct (Hok) as (_ & [Hes _]%Forall_cons & [HbL _]%Forall_cons). cbn in Hes, HbL.
  destruct (run_commit_ok _ _ _ _ _ Hes Hr Hh HbL) as (_ & _ & HL & Hdom & _).
  unfold run_commit in Hr. destruct (apply_ops (redo_op K) es S) as [S'|] eqn:E; [|done]. cbn in Hr. injection Hr as Hr.
  assert (forall p, (D !! p = S !! p /\ ~ has_record L D p) \/
    exists i Si, (i <= length hist)%nat /\ run K (take i hist) S1 = Some Si /\ D !! p = Si !! p /\
      (p ∈ page_num <$> es -> is_Some (S1 !! p) -> has_record L D p)) as Hcases.
  { intros p. destruct (Hc p) as ([|i] & Si & Hi & Hrun & HD).
    - left. cbn in Hrun. injection Hrun as <-. split; [done|]. intros (f & Hf & Hle). rewrite HD in Hf.
      specialize (HbL _ _ Hf). lia.
    - right. cbn [length take run] in *. unfold run_commit in Hrun. rewrite E in Hrun. cbn in Hrun. rewrite Hr in Hrun.
      exists i, Si. split; [lia|]. split; [done|]. split; [done|]. intros Hin [f1 Hf1].
      destruct (run_lsn_grows _ _ _ _ _ _ (history_take i _ _ Hok1) Hh1 Hrun Hf1) as (f & Hf & Hle).
      exists f. rewrite HD. split; [done|]. by rewrite <- (HL _ _ Hf1 Hin). }
  assert (forall p, p ∈ page_num <$> es -> is_Some (S1 !! p)) as Hex.
  { intros p (e & -> & He)%list_elem_of_fmap. apply Hdom. clear -E Hes He.
    revert S E. induction Hes as [|e' es He' _ IH]; intros S E; [by apply not_elem_of_nil in He|].
    cbn in E. destruct (apply_op (redo_op K) e' S) as [S2|] eqn:E2; [|done]. cbn in E.
    destruct (apply_op_inv _ _ _ _ E2) as (fr & d & Hfr & _ & ->). rewrite target_page in * by done.
    apply elem_of_cons in He as [->|He]; [by eexists|]. specialize (IH He _ E).
    destruct (decide (page_num e = page_num e')) as [->|]; [by eexists|]. by rewrite lookup_insert_ne in IH. }
  destruct (redo_agrees K L es S S' D [] Hes E) as (D' & t' & HR & H1 & H2 & H3).
  { intros p Hp. destruct (Hcases p) as [?|(i & Si & _ & _ & _ & Hrec)]; [by right|left; auto]. }
  unfold redo, commit_buffer. rewrite read_int32_app, Hopen by done.
  rewrite (redo_loop_entries es _ L h D [] (D', t')); [|done|by rewrite Hkl|lia].
  cbn [fst snd mbind option_bind]. change (OB_SUCC SUCCESS) with true. cbn iota.
  eexists. split; [done|]. intros p. rewrite set_lsns_lookup.
  destruct (Hcases p) as [[HD Hn]|(i & Si & Hi & Hrun & HD & Hrec)].
  - exists 0%nat, S1. split; [lia|]. split; [done|]. subst S1. rewrite set_lsns_lookup.
    destruct (decide (p ∈ page_num <$> es)) as [Hin|Hnin].
    + destruct (H2 p Hn Hin) as [-> Ht]. by rewrite (decide_True (P := p ∈ t')).
    + destruct (H1 p) as [-> Ht]; [by right|]. rewrite (decide_False (P := p ∈ t')) by done. by rewrite HD, H3.
  - exists i, Si. split; [done|]. split; [done|].
    assert (has_record L D p \/ p ∉ page_num <$> es) as Hor.
    { destruct (decide (p ∈ page_num <$> es)); [left; auto|by right]. }
    destruct (H1 p Hor) as [-> Ht]. by rewrite decide_False.
Qed.

(** ** Theorems *)

(** C8: Redo of the index.  Take any history of committed mini-transactions, each changing
    any number of node pages and the root's number, and a crash that leaves every page as
    it was after some prefix of the history (each page its own prefix, so that one
    mini-transaction may have reached some of its pages only).  Parsing and replaying the
    log records of the history over that image succeeds and gives back exactly the bytes
    and LSNs of all pages before the crash. *)
Theorem index_redo_restores K id hist S Sn D : 0 < K -> in_int32 id -> history_ok hist S ->
  header_page_ok K S -> run K hist S = Some Sn -> crash_image K hist S D ->
  replay_all id hist D = Some (SUCCESS, Sn).
Proof.
  intros HK Hid. revert S D. induction hist as [|[L es] hist IH]; intros S D Hok Hh Hr Hc.
  { injection Hr as <-. cbn. do 2 f_equal. apply map_eq. intros p.
    destruct (Hc p) as (i & Si & _ & Hrun & ->). rewrite take_nil in Hrun. by injection Hrun as <-. }
  cbn [run] in Hr. destruct (run_commit K L es S) as [S1|] eqn:E; [|done]. cbn [mbind option_bind] in Hr.
  destruct (history_step _ _ _ _ _ _ Hok E Hh) as [Hok1 Hh1].
  destruct (redo_record _ id _ _ _ _ _ _ HK Hid Hok Hh E Hc) as (D1 & Hredo & Hc1).
  cbn [replay_all]. rewrite Hredo. bind_step. change (OB_FAIL SUCCESS) with false. by apply (IH S1).
Qed.

Definition demo_header : FileHeader := mkFileHeader (-1) 10 10 4 12 1.
Definition demo_pages : Pages :=
  {[ 1 := mkFrame 0 (file_header_bytes demo_header ++ replicate 40 0); 2 := mkFrame 0 (replicate 80 0) ]}.
Definition demo_hist : list Record_ :=
  [(3, [mkLog 2 LEAF_INIT_EMPTY; mkLog 2 (NODE_INSERT 0 (replicate 20 7) 1); mkLog 1 (UPDATE_ROOT_PAGE 2 (-1))]);
   (8, [mkLog 2 (NODE_INSERT 0 (replicate 20 5) 1)])].

(** The image: the leaf is as after the first record, the header page is still old. *)
Lemma index_redo_restores_witness : exists S1 Sn D, run 12 (take 1 demo_hist) demo_pages = Some S1 /\
  run 12 demo_hist demo_pages = Some Sn /\ D !! 1 = demo_pages !! 1 /\ D !! 2 = S1 !! 2 /\
  replay_all 6 demo_hist D = Some (SUCCESS, Sn).
Proof.
  assert (is_Some (run 12 (take 1 demo_hist) demo_pages)) as [S1 E1] by (vm_compute; by eexists).
  assert (is_Some (run 12 demo_hist demo_pages)) as [Sn En] by (vm_compute; by eexists).
  set (D := <[1 := mkFrame 0 (file_header_bytes demo_header ++ replicate 40 0)]> S1).
  exists S1, Sn, D. split; [exact E1|]. split; [exact En|].
  assert (D !! 1 = demo_pages !! 1) as ED by (unfold D; by rewrite lookup_insert_eq).
  split; [exact ED|]. split; [unfold D; by rewrite lookup_insert_ne|].
  apply (index_redo_restores 12 6 demo_hist demo_pages Sn D).
  - lia.
  - vm_compute. done.
  - split_and!.
    + repeat constructor; cbn; lia.
    + repeat constructor; vm_compute; done.
    + repeat constructor; intros p f Hf; unfold demo_pages in Hf;
        apply lookup_insert_Some in Hf as [[_ <-]|[_ [_ <-]%lookup_singleton_Some]]; cbn; lia.
  - eexists. split; [reflexivity|]. vm_compute. split; done.
  - exact En.
  - intros p. destruct (decide (p = 1)) as [->|Hne].
    + exists 0%nat, demo_pages. split; [lia|]. split; [reflexivity|exact ED].
    + exists 1%nat, S1. split; [cbn; lia|]. split; [exact E1|]. unfold D. by rewrite lookup_insert_ne.
Defined.

(** The log entries of the index are parsed as they were written, whatever follows them in
    the record; only what is kept for undo is lost. *)
Theorem index_log_roundtrip g e r : op_ok e.(op) -> in_int32 e.(page_num) -> g e.(page_num) = SUCCESS ->
  from_buffer g (serialize e ++ r) = Some (inr (mkLog e.(page_num) (erase e.(op)), r)).
Proof. apply from_buffer_app. Qed.

Lemma index_log_roundtrip_witness :
  from_buffer (fun _ => SUCCESS) (serialize (mkLog 7 (INTERNAL_UPDATE_KEY 2 [1; 2; 3] [9])) ++ [0; 0]) =
  Some (inr (mkLog 7 (INTERNAL_UPDATE_KEY 2 [1; 2; 3] []), [0; 0])).
Proof. apply (index_log_roundtrip (fun _ => SUCCESS)); [vm_compute; done|vm_compute; done|reflexivity]. Defined.

(** C38: A mini-transaction that removed items from a node cannot be rolled back: the undo of
    [NODE_REMOVE] copies the items through a plain [IndexNodeHandler], whose item array is
    a null pointer. *)
Theorem index_rollback_crashes K es pages p index items num :
  mkLog p (NODE_REMOVE index items num) ∈ es -> 0 < num -> rollback K es pages = None.
Proof.
  intros Hin _. unfold rollback. apply elem_of_reverse in Hin. revert pages.
  induction (reverse es) as [|e es' IH]; intros pages; [by apply not_elem_of_nil in Hin|].
  cbn [apply_ops]. apply elem_of_cons in Hin as [<-|Hin].
  - assert (forall d, rollback_op K (NODE_REMOVE index items num) d = None) as Hn.
    { intros d. cbn. unfold normal_rollback, recover_insert_items. by destruct (index <? node_size d). }
    unfold apply_op, target. cbn [page_num op]. destruct (pages !! p) as [fr|]; [|done]. bind_step.
    by rewrite Hn.
  - destruct (apply_op _ e pages); [|done]. bind_step. by apply IH.
Qed.

(** Half of a leaf's items moved to a new leaf, and then the insertion fails. *)
Definition demo_split : list LogEntryHandler :=
  [mkLog 2 (NODE_INSERT 0 (replicate 20 5) 1); mkLog 2 (NODE_REMOVE 0 (replicate 20 5) 1)].

Lemma index_rollback_crashes_witness :
  is_Some (apply_ops (redo_op 12) (mkLog 2 LEAF_INIT_EMPTY :: demo_split) demo_pages) /\
  rollback 12 demo_split demo_pages = None.
Proof.
  split; [vm_compute; by eexists|].
  apply (index_rollback_crashes 12 demo_split demo_pages 2 0 (replicate 20 5) 1); [|lia].
  apply list_elem_of_further, list_elem_of_here.
Defined.
End BplusLog.
