(* ===== verification/LogFile.v ===== *)
(** * LogFile: redo log entries, log files and their names

    Models [log_entry.cpp], [log_file.cpp] and [log_module.h] of
    [src/src/observer/storage/clog/]: the 16-byte header, the reader's two loops over the
    bytes of a file, the writer with its [int] members, and the manager that names files
    after their first LSN.  A directory is a map from file names to contents; every
    [write] reaches the file whole ([O_SYNC], no I/O error), and a crash is a file cut
    somewhere.  LSNs are 64-bit counters and taken not to overflow; the writer's [int]
    copies of them are cut to 32 bits as in the source. *)

From Stdlib Require Import Sorted String Ascii DecimalString DecimalZ DecimalFacts.
From stdpp Require Import strings sorting.
From S2P Require Import Prelude Bytes.
Open Scope string_scope.
Open Scope Z_scope.

(** ** Entries *)

(** [class LogModule] *)
Inductive LogModule_Id := BUFFER_POOL | BPLUS_TREE | RECORD_MANAGER | TRANSACTION.

Definition module_index (m : LogModule_Id) : Z :=
  match m with BUFFER_POOL => 0 | BPLUS_TREE => 1 | RECORD_MANAGER => 2 | TRANSACTION => 3 end.

(** [struct LogHeader]: 8 bytes for the LSN, 4 and 4 for the size and the module. *)
Record LogHeader := mkHeader { h_lsn : Z; h_size : Z; h_module_id : Z }.

Definition HEADER_SIZE : Z := 16.

Definition header_bytes (h : LogHeader) : list Z :=
  (le_bytes 8 h.(h_lsn) ++ le_bytes 4 h.(h_size) ++ le_bytes 4 h.(h_module_id))%list.

Definition header_read (l : list Z) : LogHeader :=
  mkHeader (int64 (le_value (field l 0 8))) (int32 (le_value (field l 8 4))) (int32 (le_value (field l 12 4))).

Definition header_ok (h : LogHeader) : Prop :=
  - 2 ^ 63 <= h.(h_lsn) < 2 ^ 63 /\ in_int32 h.(h_size) /\ in_int32 h.(h_module_id).

(** [class LogEntry] *)
Record LogEntry := mkEntry { header : LogHeader; data : list Z }.

Definition lsn (e : LogEntry) : Z := e.(header).(h_lsn).
Definition payload_size (e : LogEntry) : Z := e.(header).(h_size).
Definition total_size (e : LogEntry) : Z := HEADER_SIZE + payload_size e.
Definition set_lsn (e : LogEntry) (l : Z) : LogEntry :=
  mkEntry (mkHeader l (payload_size e) e.(header).(h_module_id)) e.(data).

Definition max_size : Z := 4 * 1024 * 1024.
Definition max_payload_size : Z := max_size - HEADER_SIZE.

(** What is left of an entry that was moved from. *)
Definition moved_from (e : LogEntry) : LogEntry :=
  mkEntry (mkHeader 0 0 e.(header).(h_module_id)) [].

(** [LogEntry::LogEntry] *)
Definition empty_entry : LogEntry := mkEntry (mkHeader 0 0 0) [].

(** [LogEntry::init] *)
Definition entry_init (l module_id : Z) (d : list Z) : RC * option LogEntry :=
  if max_payload_size <? int32 (zlen d) then (INVALID_ARGUMENT, None)
  else (SUCCESS, Some (mkEntry (mkHeader l (int32 (zlen d)) module_id) d)).

(** ** Reading a file *)

Section reader.
Context {St : Type} (callback : St -> LogEntry -> RC * St).

(** The loop of [LogFileReader::skip_to]; the answer is the new position. *)
Fixpoint skip_loop (fuel : nat) (file : list Z) (start_lsn pos : Z) : option (RC * Z) :=
  match fuel with
  | O => None
  | S fuel' =>
      match readn file pos HEADER_SIZE with
      | None => Some (SUCCESS, zlen file)
      | Some hb =>
          let h := header_read hb in
          if start_lsn <=? h.(h_lsn) then Some (SUCCESS, pos)
          else if (h.(h_size) <? 0) || (max_payload_size <? h.(h_size)) then Some (IOERR_READ, pos)
          else skip_loop fuel' file start_lsn (pos + HEADER_SIZE + h.(h_size))
      end
  end.

(** The loop of [LogFileReader::iterate]. *)
Fixpoint iterate_loop (fuel : nat) (file : list Z) (pos : Z) (st : St) : option (RC * St) :=
  match fuel with
  | O => None
  | S fuel' =>
      match readn file pos HEADER_SIZE with
      | None => Some (SUCCESS, st)
      | Some hb =>
          let h := header_read hb in
          if (h.(h_size) <? 0) || (max_payload_size <? h.(h_size)) then Some (IOERR_READ, st)
          else
            match readn file (pos + HEADER_SIZE) h.(h_size) with
            | None => Some (IOERR_READ, st)
            | Some d =>
                let e := default empty_entry (entry_init h.(h_lsn) h.(h_module_id) d).2 in
                let '(rc, st') := callback st e in
                if OB_FAIL rc then Some (rc, st')
                else iterate_loop fuel' file (pos + HEADER_SIZE + h.(h_size)) st'
            end
      end
  end.

(** Every round of the loops moves on by at least a header. *)
Definition file_fuel (file : list Z) : nat := S (length file).

(** [LogFileReader::iterate] on an open file. *)
Definition reader_iterate (file : list Z) (start_lsn : Z) (st : St) : option (RC * St) :=
  match skip_loop (file_fuel file) file start_lsn 0 with
  | None => None
  | Some (rc, pos) => if OB_FAIL rc then Some (rc, st) else iterate_loop (file_fuel file) file pos st
  end.

(** What a consumer does with a list of entries: it stops at the first failure. *)
Fixpoint consume (es : list LogEntry) (st : St) : RC * St :=
  match es with
  | [] => (SUCCESS, st)
  | e :: es' => let '(rc, st') := callback st e in if OB_FAIL rc then (rc, st') else consume es' st'
  end.
End reader.

(** ** Writing a file *)

Abbreviation Directory := (gmap string (list Z)).

(** [class LogFileWriter]; [fd_ >= 0] is [opened]. *)
Record LogFileWriter := mkWriter { filename : string; opened : bool; last_lsn : Z; end_lsn : Z }.

Definition new_writer : LogFileWriter := mkWriter "" false 0 0.

Definition writer_open (d : Directory) (w : LogFileWriter) (name : string) (last : Z)
    : RC * Directory * LogFileWriter :=
  if w.(opened) then (FILE_OPEN, d, w)
  else (SUCCESS, <[name := default [] (d !! name)]> d, mkWriter name true w.(last_lsn) (int32 last)).

Definition writer_close (w : LogFileWriter) : RC * LogFileWriter :=
  if w.(opened) then (SUCCESS, mkWriter w.(filename) false w.(last_lsn) w.(end_lsn)) else (FILE_NOT_OPENED, w).

Definition entry_bytes (e : LogEntry) : list Z := (header_bytes e.(header) ++ e.(data))%list.

(** [LogFileWriter::write] *)
Definition writer_write (d : Directory) (w : LogFileWriter) (e : LogEntry) : RC * Directory * LogFileWriter :=
  if w.(end_lsn) <? lsn e then (LOG_FILE_FULL, d, w)
  else if negb w.(opened) then (FILE_NOT_OPENED, d, w)
  else if lsn e <=? w.(last_lsn) then (INVALID_ARGUMENT, d, w)
  else (SUCCESS, <[w.(filename) := (default [] (d !! w.(filename)) ++ entry_bytes e)%list]> d,
        mkWriter w.(filename) true (int32 (lsn e)) w.(end_lsn)).

(** ** File names *)

Definition file_prefix : string := "clog_".
Definition file_suffix : string := ".log".

(** [to_string] of an integer. *)
Definition to_string (z : Z) : string := NilZero.string_of_int (Z.to_int z).

Definition file_name (l : Z) : string := file_prefix ++ to_string l ++ file_suffix.

Definition is_digit (c : ascii) : bool :=
  let n := N_of_ascii c in ((48 <=? n) && (n <=? 57))%N.

Fixpoint digits (s : string) : string :=
  match s with
  | EmptyString => EmptyString
  | String c s' => if is_digit c then String c (digits s') else EmptyString
  end.

(** [from_chars] for an [int64_t]: the longest prefix that is a number. *)
Definition from_chars (s : string) : option Z :=
  let num := match s with
             | String "-" s' => String "-" (digits s')
             | _ => digits s
             end in
  match NilZero.int_of_string num with
  | Some i => let z := Z.of_int i in if (- 2 ^ 63 <=? z) && (z <? 2 ^ 63) then Some z else None
  | None => None
  end.

Definition ends_with (s t : string) : bool :=
  (String.length t <=? String.length s)%nat &&
  bool_decide (substring (String.length s - String.length t) (String.length t) s = t).

(** [LogFileManager::get_lsn_from_filename] *)
Definition get_lsn_from_filename (name : string) : option Z :=
  if String.prefix file_prefix name && ends_with name file_suffix then
    from_chars (substring (String.length file_prefix)
                  (String.length name - String.length file_suffix - String.length file_prefix) name)
  else None.

(** ** The manager *)

(** [class LogFileManager]: [log_files_] is a [map], ordered by its key. *)
Record LogFileManager := mkManager { max_entry_number_per_file : Z; log_files : list (Z * string) }.

(** [map::emplace] *)
Fixpoint emplace (k : Z) (v : string) (l : list (Z * string)) : list (Z * string) :=
  match l with
  | [] => [(k, v)]
  | (k', v') :: l' =>
      if k <? k' then (k, v) :: l else if k =? k' then l else (k', v') :: emplace k v l'
  end.

(** [LogFileManager::init]: the directory is listed in some order. *)
Definition manager_init (names : list string) (max_entry_number : Z) : LogFileManager :=
  mkManager max_entry_number
    (foldl (fun l name => match get_lsn_from_filename name with Some k => emplace k name l | None => l end)
       [] names).

Definition list_files (m : LogFileManager) (start_lsn : Z) : list string :=
  (filter (fun f : Z * string => start_lsn <= f.1 + m.(max_entry_number_per_file) - 1) m.(log_files)).*2.

Definition next_file (d : Directory) (m : LogFileManager) (w : LogFileWriter)
    : RC * Directory * LogFileManager * LogFileWriter :=
  let w := (writer_close w).2 in
  let l := match last m.(log_files) with Some f => f.1 + m.(max_entry_number_per_file) | None => 0 end in
  let m' := mkManager m.(max_entry_number_per_file) (emplace l (file_name l) m.(log_files)) in
  let '(rc, d', w') := writer_open d w (file_name l) (l + m.(max_entry_number_per_file) - 1) in
  (rc, d', m', w').

Definition last_file (d : Directory) (m : LogFileManager) (w : LogFileWriter)
    : RC * Directory * LogFileManager * LogFileWriter :=
  match last m.(log_files) with
  | None => next_file d m w
  | Some f =>
      let w := (writer_close w).2 in
      let '(rc, d', w') := writer_open d w f.2 (f.1 + m.(max_entry_number_per_file) - 1) in
      (rc, d', m, w')
  end.

(** ** Reading what was written *)

Definition entry_ok (e : LogEntry) : Prop :=
  header_ok e.(header) /\ payload_size e = zlen e.(data) /\ payload_size e <= max_payload_size.

Definition file_bytes (es : list LogEntry) : list Z := concat (entry_bytes <$> es).

Lemma header_bytes_length h : length (header_bytes h) = 16%nat.
Proof. unfold header_bytes. by rewrite !length_app, !le_bytes_length. Qed.

Lemma header_read_bytes h : header_ok h -> header_read (header_bytes h) = h.
Proof.
  destruct h as [l sz m]. intros (Hl & Hs & Hm). unfold header_read, header_bytes.
  cbn [h_lsn h_size h_module_id] in *.
  rewrite field_app_here by apply le_bytes_length.
  rewrite (field_app_later _ _ 8 0), field_app_here by apply le_bytes_length.
  rewrite (field_app_later _ _ 8 4), (field_app_later _ _ 4 0), field_all by apply le_bytes_length.
  by rewrite le_value_int64, !le_value_int32.
Qed.

#[export] Instance header_codec : Codec LogHeader := {
  codec_size := 16;
  codec_ok := header_ok;
  encode_bytes := header_bytes;
  decode_bytes := header_read;
  encode_length := header_bytes_length;
  decode_encode := header_read_bytes
}.

Lemma header_bytes_zlen h : zlen (header_bytes h) = HEADER_SIZE.
Proof. unfold zlen. by rewrite header_bytes_length. Qed.

Lemma entry_bytes_zlen e : entry_ok e -> zlen (entry_bytes e) = HEADER_SIZE + payload_size e.
Proof. intros (_ & H & _). unfold entry_bytes. rewrite zlen_app, header_bytes_zlen. lia. Qed.

Lemma entry_init_ok e : entry_ok e ->
  entry_init (lsn e) e.(header).(h_module_id) e.(data) = (SUCCESS, Some e).
Proof.
  destruct e as [[l sz m] d]. unfold entry_ok, entry_init, lsn, payload_size, header_ok. cbn.
  intros ((_ & H32 & _) & -> & Hmax). rewrite int32_id by done.
  destruct (Z.ltb_spec max_payload_size (zlen d)); [lia|done].
Qed.

Lemma file_bytes_cons e es : file_bytes (e :: es) = (entry_bytes e ++ file_bytes es)%list.
Proof. done. Qed.

Lemma file_bytes_app es es' : file_bytes (es ++ es') = (file_bytes es ++ file_bytes es')%list.
Proof. unfold file_bytes. by rewrite fmap_app, concat_app. Qed.

Lemma file_bytes_length es : Forall entry_ok es -> (length es <= length (file_bytes es))%nat.
Proof.
  induction 1 as [|e es He _ IH]; [done|]. rewrite file_bytes_cons, length_app. cbn.
  pose proof (entry_bytes_zlen _ He) as E. destruct He as (_ & Hs & _).
  unfold zlen, HEADER_SIZE in *. lia.
Qed.

Lemma fuel_split es r : Forall entry_ok es ->
  exists k, S (length (file_bytes es ++ r)) = (length es + S k)%nat.
Proof.
  intros H%file_bytes_length. exists (length (file_bytes es) - length es + length r)%nat.
  rewrite length_app. lia.
Qed.

(** The reader's position [zlen l] in a file that has [e] there. *)
Lemma read_entry l e r : entry_ok e ->
  readn (l ++ entry_bytes e ++ r) (zlen l) HEADER_SIZE = Some (header_bytes e.(header)) /\
  readn (l ++ entry_bytes e ++ r) (zlen l + HEADER_SIZE) (payload_size e) = Some e.(data) /\
  zlen l + HEADER_SIZE + payload_size e = zlen (l ++ entry_bytes e) /\
  (payload_size e <? 0) || (max_payload_size <? payload_size e) = false.
Proof.
  intros He. pose proof (entry_bytes_zlen _ He) as E. destruct He as (Hh & Hs & Hm).
  unfold entry_bytes in *. rewrite <- !app_assoc. split_and!.
  - apply readn_app. apply header_bytes_zlen.
  - rewrite app_assoc, <- (header_bytes_zlen e.(header)), <- zlen_app. by apply readn_app.
  - rewrite zlen_app. lia.
  - pose proof (zlen_pos e.(data)).
    destruct (Z.ltb_spec (payload_size e) 0); [lia|]. by destruct (Z.ltb_spec max_payload_size (payload_size e)); [lia|].
Qed.

(** Entries in LSN order: those below a bound come first. *)
Lemma lsn_split start es : StronglySorted (fun a b => lsn a < lsn b) es ->
  exists lo hi, es = (lo ++ hi)%list /\ Forall (fun e => lsn e < start) lo /\
    Forall (fun e => start <= lsn e) hi /\ filter (fun e => start <= lsn e) es = hi.
Proof.
  induction 1 as [|e es Hs IH Hlt].
  { by exists [], []. }
  destruct (decide (start <= lsn e)) as [Hle|Hgt].
  - assert (Forall (fun e => start <= lsn e) es) as Hall.
    { eapply Forall_impl; [exact Hlt|]. cbn. intros. lia. }
    exists [], (e :: es). split_and!; [done|done|by constructor|].
    rewrite filter_cons_True by done. f_equal. by rewrite filter_all.
  - destruct IH as (lo & hi & -> & Hlo & Hhi & Hf). exists (e :: lo), hi.
    split_and!; [done|constructor; [lia|done]|done|]. by rewrite filter_cons_False.
Qed.

Section reader_proofs.
Context {St : Type} (callback : St -> LogEntry -> RC * St).

Lemma iterate_entries es l r fuel st : Forall entry_ok es ->
  iterate_loop callback (length es + fuel) (l ++ file_bytes es ++ r) (zlen l) st =
  let '(rc, st') := consume callback es st in
  if OB_FAIL rc then Some (rc, st')
  else iterate_loop callback fuel (l ++ file_bytes es ++ r) (zlen (l ++ file_bytes es)) st'.
Proof using Type.
  intros Hes. revert l st. induction Hes as [|e es He Hes IH]; intros l st.
  { cbn. by rewrite app_nil_r. }
  rewrite file_bytes_cons, <- app_assoc. cbn [length Nat.add iterate_loop consume].
  destruct (read_entry l e (file_bytes es ++ r) He) as (E1 & E2 & E3 & E4).
  rewrite E1, header_read_bytes by apply He. fold (payload_size e) (lsn e). rewrite E4, E2.
  rewrite entry_init_ok by done. cbn [snd default]. unfold id.
  destruct (callback st e) as [rc st']. destruct (OB_FAIL rc) eqn:Erc; [by rewrite Erc|].
  rewrite E3. rewrite !(app_assoc l). apply IH.
Qed.

Lemma skip_entries start es l r fuel : Forall entry_ok es -> Forall (fun e => lsn e < start) es ->
  skip_loop (length es + fuel) (l ++ file_bytes es ++ r) start (zlen l) =
  skip_loop fuel (l ++ file_bytes es ++ r) start (zlen (l ++ file_bytes es)).
Proof using Type.
  intros Hes. revert l. induction Hes as [|e es He Hes IH]; intros l Hlt.
  { cbn. by rewrite app_nil_r. }
  apply Forall_cons in Hlt as [Hlt Hlts].
  rewrite file_bytes_cons, <- app_assoc. cbn [length Nat.add skip_loop].
  destruct (read_entry l e (file_bytes es ++ r) He) as (E1 & E2 & E3 & E4).
  rewrite E1, header_read_bytes by apply He. fold (payload_size e) (lsn e). rewrite E4.
  destruct (Z.leb_spec start (lsn e)); [lia|].
  rewrite E3. rewrite !(app_assoc l). by apply IH.
Qed.

(** The loops end on every file, whatever its bytes. *)
Lemma iterate_loop_total fuel file pos st : zlen file - pos < Z.of_nat fuel ->
  0 <= pos -> (0 < fuel)%nat -> exists r, iterate_loop callback fuel file pos st = Some r.
Proof using Type.
  revert pos st. induction fuel as [|fuel IH]; intros pos st Hf Hp H0; [lia|]. cbn [iterate_loop].
  destruct (readn file pos HEADER_SIZE) as [hb|] eqn:E; [|by eexists].
  apply readn_some in E; [|done]. unfold HEADER_SIZE in *.
  destruct (Z.ltb_spec (h_size (header_read hb)) 0); [by eexists|].
  destruct (max_payload_size <? h_size (header_read hb)); [by eexists|].
  destruct (readn file (pos + 16) _); [|by eexists]. cbn [orb].
  destruct (callback _ _) as [rc st']. destruct (OB_FAIL rc); [by eexists|]. apply IH; lia.
Qed.

Lemma skip_loop_total fuel file start pos : zlen file - pos < Z.of_nat fuel ->
  0 <= pos -> (0 < fuel)%nat ->
  exists rc pos', skip_loop fuel file start pos = Some (rc, pos') /\ 0 <= pos'.
Proof using Type.
  revert pos. induction fuel as [|fuel IH]; intros pos Hf Hp H0; [lia|]. cbn [skip_loop].
  pose proof (zlen_pos file) as Hpos.
  destruct (readn file pos HEADER_SIZE) as [hb|] eqn:E; [|by eauto].
  apply readn_some in E; [|done]. unfold HEADER_SIZE in *.
  destruct (start <=? _); [by eauto|].
  destruct (Z.ltb_spec (h_size (header_read hb)) 0); [by eauto|].
  destruct (max_payload_size <? h_size (header_read hb)); [by eauto|]. cbn [orb]. apply IH; lia.
Qed.

Lemma reader_iterate_total file start st : exists r, reader_iterate callback file start st = Some r.
Proof using Type.
  unfold reader_iterate, file_fuel.
  destruct (skip_loop_total (S (length file)) file start 0) as (rc & pos & -> & Hp); [unfold zlen; lia..|].
  destruct (OB_FAIL rc); [by eexists|]. apply iterate_loop_total; [unfold zlen; lia|done|lia].
Qed.

Lemma consume_app es es' st : consume callback (es ++ es') st =
  let '(rc, st') := consume callback es st in
  if OB_FAIL rc then (rc, st') else consume callback es' st'.
Proof using Type.
  revert st. induction es as [|e es IH]; intros st; cbn; [done|].
  destruct (callback st e) as [rc st']. destruct (OB_FAIL rc) eqn:E; [by rewrite E|]. apply IH.
Qed.

(** Reading a file of entries in LSN order, with at most a piece of a header after
    them, hands the consumer the entries from [start] on. *)
Lemma reader_iterate_ok es r start st : Forall entry_ok es -> StronglySorted (fun a b => lsn a < lsn b) es ->
  zlen r < HEADER_SIZE ->
  reader_iterate callback (file_bytes es ++ r) start st =
  Some (consume callback (filter (fun e => start <= lsn e) es) st).
Proof using Type.
  intros Hok Hs Hr. destruct (lsn_split start es Hs) as (lo & hi & -> & Hlo & Hhi & ->).
  apply Forall_app in Hok as [Hok1 Hok2]. unfold reader_iterate, file_fuel.
  rewrite file_bytes_app, <- app_assoc.
  assert (exists k, S (length (file_bytes lo ++ file_bytes hi ++ r)) = (length lo + (length hi + S k))%nat) as [k ->].
  { rewrite app_assoc, <- file_bytes_app. destruct (fuel_split (lo ++ hi) r) as [k ->]; [by apply Forall_app|].
    exists k. rewrite length_app. lia. }
  pose proof (skip_entries start lo [] (file_bytes hi ++ r) (length hi + S k) Hok1 Hlo) as E.
  cbn [app] in E. change (zlen []) with 0 in E. rewrite E. clear E.
  destruct hi as [|e hi].
  - cbn [length Nat.add skip_loop file_bytes concat fmap list_fmap app].
    rewrite readn_short by done. cbn. rewrite Nat.add_succ_r. cbn [iterate_loop].
    replace (readn _ _ HEADER_SIZE) with (@None (list Z)); [done|].
    rewrite <- (app_nil_r (file_bytes lo ++ r)) at 1. by rewrite readn_short.
  - cbn [length Nat.add skip_loop].
    apply Forall_cons in Hhi as [Hge _]. apply Forall_cons in Hok2 as Hok2'. destruct Hok2' as [Hok2' _].
    rewrite file_bytes_cons, <- app_assoc.
    destruct (read_entry (file_bytes lo) e (file_bytes hi ++ r) Hok2') as (E1 & _).
    rewrite E1, header_read_bytes by apply Hok2'. fold (lsn e).
    destruct (Z.leb_spec start (lsn e)); [|lia]. rc_simpl.
    rewrite (app_assoc (entry_bytes e)), <- file_bytes_cons.
    replace (length lo + S (length hi + S k))%nat with (length (e :: hi) + S (length lo + k))%nat by (cbn; lia).
    rewrite iterate_entries by done. destruct (consume callback (e :: hi) st) as [rc st'].
    destruct (OB_FAIL rc) eqn:Erc; [done|]. cbn [iterate_loop].
    rewrite app_assoc, readn_short by done. by destruct rc.
Qed.

(** A payload cut short makes the whole iteration fail, after the entries before it. *)
Lemma reader_torn_payload es e part r start st : Forall entry_ok (es ++ [e]) ->
  StronglySorted (fun a b => lsn a < lsn b) (es ++ [e]) ->
  e.(data) = (part ++ r)%list -> r <> [] -> Forall (fun e => start <= lsn e) (es ++ [e]) ->
  OB_FAIL (consume callback es st).1 = false ->
  reader_iterate callback (file_bytes es ++ header_bytes e.(header) ++ part) start st =
  Some (IOERR_READ, (consume callback es st).2).
Proof using Type.
  intros Hok Hs Hd Hr Hst Hc. apply Forall_app in Hok as [Hok [He _]%Forall_cons].
  unfold reader_iterate, file_fuel.
  assert (forall f l t, f = header_bytes e.(header) -> readn (l ++ f ++ t) (zlen l) HEADER_SIZE = Some f) as Hrd.
  { intros f l t ->. apply readn_app, header_bytes_zlen. }
  assert (skip_loop (S (length (file_bytes es ++ header_bytes (header e) ++ part)))
            (file_bytes es ++ header_bytes (header e) ++ part) start 0 = Some (SUCCESS, 0)) as ->.
  { cbn [skip_loop]. destruct es as [|e' es].
    - cbn [file_bytes concat fmap list_fmap app]. pose proof (Hrd _ [] part eq_refl) as E. cbn [app] in E.
      change (zlen []) with 0 in E. rewrite E, header_read_bytes by apply He. fold (lsn e).
      apply Forall_cons in Hst as [Hst _]. by destruct (Z.leb_spec start (lsn e)); [|lia].
    - apply Forall_cons in Hok as [Hok' _]. apply Forall_cons in Hst as [Hst' _].
      rewrite file_bytes_cons, <- app_assoc.
      destruct (read_entry [] e' (file_bytes es ++ header_bytes (header e) ++ part) Hok') as (E1 & _).
      cbn [app] in E1. change (zlen []) with 0 in E1. rewrite E1, header_read_bytes by apply Hok'. fold (lsn e').
      by destruct (Z.leb_spec start (lsn e')); [|lia]. }
  rc_simpl.
  assert (exists k, S (length (file_bytes es ++ header_bytes (header e) ++ part)) = (length es + S k)%nat) as [k ->].
  { by apply fuel_split. }
  pose proof (iterate_entries es [] (header_bytes (header e) ++ part) (S k) st Hok) as E.
  cbn [app] in E. change (zlen []) with 0 in E. rewrite E. clear E.
  destruct (consume callback es st) as [rc st']. cbn in Hc. rewrite Hc. cbn [iterate_loop snd].
  rewrite Hrd by done. rewrite header_read_bytes by apply He. fold (payload_size e).
  destruct (read_entry [] e [] He) as (_ & _ & _ & ->).
  rewrite <- (header_bytes_zlen e.(header)), <- zlen_app, app_assoc, readn_short; [done|].
  destruct He as (_ & -> & _). rewrite Hd, zlen_app. destruct r; [done|]. unfold zlen. cbn. lia.
Qed.
End reader_proofs.

(** ** Names and LSNs *)

Lemma substring_app_l a b : substring 0 (String.length a) (a ++ b) = a.
Proof. induction a as [|c a IH]; simpl; [by destruct b|]. by rewrite IH. Qed.

Lemma substring_app_r a b n : substring (String.length a) n (a ++ b) = substring 0 n b.
Proof. induction a as [|c a IH]; simpl; [done|]. apply IH. Qed.

Lemma digits_uint d : digits (NilEmpty.string_of_uint d) = NilEmpty.string_of_uint d.
Proof. induction d as [|d IH|d IH|d IH|d IH|d IH|d IH|d IH|d IH|d IH|d IH]; cbn; by rewrite ?IH. Qed.

Lemma to_string_digits l : 0 <= l -> digits (to_string l) = to_string l /\
  forall s, to_string l <> String "-" s.
Proof.
  intros Hl. unfold to_string. destruct l as [|p|p]; [split; [done|discriminate]| |lia]. cbn.
  pose proof (DecimalPos.Unsigned.to_uint_nonnil p) as Hn.
  pose proof (digits_uint (Pos.to_uint p)) as Hd.
  unfold NilZero.string_of_uint in *. destruct (Pos.to_uint p); [done|split; [exact Hd|discriminate]..].
Qed.

Lemma from_to_string l : 0 <= l < 2 ^ 63 -> from_chars (to_string l) = Some l.
Proof.
  intros Hl. unfold from_chars. destruct (to_string_digits l) as [Hd Hm]; [lia|].
  assert (match to_string l with String "-" s' => String "-" (digits s') | _ => digits (to_string l) end
          = to_string l) as ->.
  { destruct (to_string l) as [|[[] [] [] [] [] [] [] []] s] eqn:E; try done. }
  unfold to_string. rewrite NilZero.isi.
  - rewrite DecimalZ.of_to. destruct (Z.leb_spec (- 2 ^ 63) l); [|lia]. by destruct (Z.ltb_spec l (2 ^ 63)); [|lia].
  - destruct l; cbn; [done| |lia]. intros [= H]. by apply DecimalPos.Unsigned.to_uint_nonnil in H.
  - by destruct l; cbn; [| |lia].
Qed.

Lemma string_app_assoc (a b c : string) : a ++ b ++ c = (a ++ b) ++ c.
Proof. induction a as [|x a IH]; [done|]. exact (f_equal (String x) IH). Qed.

Lemma length_string_app a b : String.length (a ++ b) = (String.length a + String.length b)%nat.
Proof. induction a as [|c a IH]; simpl; [done|]. by rewrite IH. Qed.

(** A log file's name gives its first LSN back. *)
Lemma file_name_lsn l : 0 <= l < 2 ^ 63 -> get_lsn_from_filename (file_name l) = Some l.
Proof.
  intros Hl. unfold get_lsn_from_filename.
  assert (String.prefix file_prefix (file_name l) = true) as ->.
  { unfold file_name. generalize (to_string l ++ file_suffix). by intros []. }
  assert (ends_with (file_name l) file_suffix = true) as ->.
  { unfold ends_with, file_name. rewrite !length_string_app. apply andb_true_intro. split.
    - apply Nat.leb_le. lia.
    - apply bool_decide_eq_true.
      replace (_ - _)%nat with (String.length (file_prefix ++ to_string l)) by (rewrite length_string_app; lia).
      rewrite string_app_assoc, substring_app_r. done. }
  cbn [andb]. unfold file_name. rewrite !length_string_app, substring_app_r.
  replace (_ - _ - _)%nat with (String.length (to_string l)) by lia.
  rewrite substring_app_l. by apply from_to_string.
Qed.

Lemma file_name_inj l l' : 0 <= l < 2 ^ 63 -> 0 <= l' < 2 ^ 63 -> file_name l = file_name l' -> l = l'.
Proof. intros Hl Hl' E. apply file_name_lsn in Hl, Hl'. congruence. Qed.

(** ** Listing the files *)

Definition key_lt (f g : Z * string) : Prop := f.1 < g.1.

Lemma elem_of_emplace f x v l : f ∈ emplace x v l -> f = (x, v) \/ f ∈ l.
Proof.
  induction l as [|[y u] l IH]; cbn; [set_solver|].
  destruct (x <? y); [set_solver|]. destruct (x =? y); set_solver.
Qed.

Lemma emplace_keys y x v l : y ∈ (emplace x v l).*1 <-> y = x \/ y ∈ l.*1.
Proof.
  induction l as [|[z u] l IH]; cbn; [set_solver|].
  destruct (x <? z); [set_solver|]. destruct (Z.eqb_spec x z) as [->|]; set_solver.
Qed.

Lemma emplace_sorted x v l : StronglySorted key_lt l -> StronglySorted key_lt (emplace x v l).
Proof.
  induction 1 as [|[y u] l Hs IH Hlt]; cbn; [repeat constructor|]. destruct (Z.ltb_spec x y) as [Hxy|Hxy].
  - repeat constructor; [done|done|done|]. eapply Forall_impl; [exact Hlt|]. unfold key_lt. cbn. lia.
  - destruct (Z.eqb_spec x y); [by constructor|]. constructor; [done|].
    apply Forall_forall. intros f [->|Hf]%elem_of_emplace; [unfold key_lt; cbn; lia|].
    by eapply Forall_forall in Hlt.
Qed.

Lemma manager_init_ok M ls : let R := (manager_init ls M).(log_files) in
  StronglySorted key_lt R /\ (forall f, f ∈ R -> f.2 ∈ ls /\ get_lsn_from_filename f.2 = Some f.1) /\
  (forall name l, name ∈ ls -> get_lsn_from_filename name = Some l -> l ∈ R.*1).
Proof.
  unfold manager_init. cbn. set (step := fun l name => _).
  assert (forall done l, StronglySorted key_lt l ->
    (forall f, f ∈ l -> f.2 ∈ done /\ get_lsn_from_filename f.2 = Some f.1) ->
    (forall name x, name ∈ done -> get_lsn_from_filename name = Some x -> x ∈ l.*1) ->
    let R := foldl step l ls in
    StronglySorted key_lt R /\ (forall f, f ∈ R -> f.2 ∈ (done ++ ls)%list /\ get_lsn_from_filename f.2 = Some f.1) /\
    (forall name x, name ∈ (done ++ ls)%list -> get_lsn_from_filename name = Some x -> x ∈ R.*1)) as G.
  { induction ls as [|name ls IH]; intros dn l Hs H1 H2; [by rewrite app_nil_r|].
    replace (dn ++ name :: ls)%list with ((dn ++ [name]) ++ ls)%list by (by rewrite <- app_assoc). cbn [foldl].
    apply IH; unfold step; destruct (get_lsn_from_filename name) as [x|] eqn:E.
    - by apply emplace_sorted.
    - done.
    - intros f [->|Hf]%elem_of_emplace; [cbn; set_solver|]. set_solver.
    - set_solver.
    - intros nm y [Hin| ->%list_elem_of_singleton]%elem_of_app Hy; apply emplace_keys; [right; by eapply H2|left; congruence].
    - intros nm y [Hin| ->%list_elem_of_singleton]%elem_of_app Hy; [by eapply H2|congruence]. }
  apply (G [] []); [constructor|set_solver|set_solver].
Qed.

Lemma key_sorted_unique l l' : StronglySorted key_lt l -> StronglySorted key_lt l' ->
  (forall f, f ∈ l <-> f ∈ l') -> l = l'.
Proof.
  intros Hl Hl' H. assert (forall l, StronglySorted key_lt l -> NoDup l) as Hnd.
  { clear. induction 1 as [|f l Hs IH Hlt]; constructor; [|done]. intros Hin.
    eapply Forall_forall in Hlt; [|done]. unfold key_lt in Hlt. lia. }
  apply (StronglySorted_unique_strong key_lt); [|done|done|apply NoDup_Permutation; auto].
  intros x y _ _ H1 H2. unfold key_lt in *. lia.
Qed.
