(* ===== verification/DiskLog.v ===== *)
(** * DiskLog: the log buffer and the handler with its flush thread

    Models [log_buffer.cpp], [disk_log_handler.cpp] and [integrated_log_replayer.cpp] of
    [src/src/observer/storage/clog/]: clients append to a buffer under a lock, one thread
    writes the buffer to the log files, readers iterate over the files.  A run of the
    server is a sequence of appends, rounds of the thread's loop and the stop request, in
    any order.  Sleeping is not modelled: a call that sleeps until something changes is
    one that cannot happen yet. *)

From Stdlib Require Import Sorted String.
From stdpp Require Import strings sorting.
From S2P Require Import Prelude Bytes LogFile.

(** ** The buffer *)

(** [class LogEntryBuffer] *)
Record LogEntryBuffer := mkBuffer {
  entries : list LogEntry;
  bytes : Z;
  current_lsn : Z;
  flushed_lsn : Z;
  max_bytes : Z
}.

Definition new_buffer : LogEntryBuffer := mkBuffer [] 0 0 0 (4 * 1024 * 1024).

(** [LogEntryBuffer::init] *)
Definition buffer_init (b : LogEntryBuffer) (l max : Z) : LogEntryBuffer :=
  mkBuffer b.(entries) b.(bytes) l l (if 0 <? max then max else b.(max_bytes)).

(** [LogEntryBuffer::append]; [None] while the caller has to wait for room.  The size
    is added after the entry was moved into the queue. *)
Definition buffer_append (b : LogEntryBuffer) (l module_id : Z) (d : list Z)
    : option (RC * Z * LogEntryBuffer) :=
  if b.(max_bytes) <=? b.(bytes) then None
  else
    match entry_init l module_id d with
    | (rc, None) => Some (rc, l, b)
    | (_, Some e) =>
        let l := b.(current_lsn) + 1 in
        let e := set_lsn e l in
        Some (SUCCESS, l, mkBuffer (b.(entries) ++ [e]) (b.(bytes) + total_size (moved_from e)) l
                            b.(flushed_lsn) b.(max_bytes))
    end.

(** [LogEntryBuffer::flush]; [None] is a failed assertion.  An entry that could not be
    written goes back to the front, but not into [bytes_]. *)
Fixpoint flush_loop (es : list LogEntry) (dir : Directory) (w : LogFileWriter) (b : LogEntryBuffer) (count : nat)
    : option (RC * nat * Directory * LogFileWriter * LogEntryBuffer) :=
  match es with
  | [] => Some (SUCCESS, count, dir, w, mkBuffer [] b.(bytes) b.(current_lsn) b.(flushed_lsn) b.(max_bytes))
  | e :: es' =>
      if negb ((0 <? lsn e) && (0 <? payload_size e)) then None
      else
        let size := b.(bytes) - total_size e in
        let '(rc, dir', w') := writer_write dir w e in
        if OB_FAIL rc then Some (rc, count, dir', w', mkBuffer es size b.(current_lsn) b.(flushed_lsn) b.(max_bytes))
        else flush_loop es' dir' w' (mkBuffer es' size b.(current_lsn) (lsn e) b.(max_bytes)) (S count)
  end.

Definition buffer_flush (dir : Directory) (w : LogFileWriter) (b : LogEntryBuffer) :=
  flush_loop b.(entries) dir w b 0.

(** ** The handler *)

(** The locals of [thread_func]. *)
Record FlushThread := mkThread { file_writer : LogFileWriter; flush_rc : RC }.

(** [class DiskLogHandler], with the directory its files are in. *)
Record DiskLogHandler := mkHandler {
  directory : Directory;
  file_manager : LogFileManager;
  entry_buffer : LogEntryBuffer;
  running : bool;
  thread : option FlushThread
}.

(** A new handler after [init] on a directory, listed in some order.  The source has
    1000 entries to a file. *)
Definition handler_init (dir : Directory) (names : list string) (max_entry_number : Z) : DiskLogHandler :=
  mkHandler dir (manager_init names max_entry_number) new_buffer false None.

Definition start (h : DiskLogHandler) : RC * DiskLogHandler :=
  match h.(thread) with
  | Some _ => (INTERNAL, h)
  | None => (SUCCESS, mkHandler h.(directory) h.(file_manager) h.(entry_buffer) true (Some (mkThread new_writer SUCCESS)))
  end.

Definition stop (h : DiskLogHandler) : RC * DiskLogHandler :=
  match h.(thread) with
  | None => (INTERNAL, h)
  | Some t => (SUCCESS, mkHandler h.(directory) h.(file_manager) h.(entry_buffer) false (Some t))
  end.

(** [await_termination]; [None] while the thread still runs. *)
Definition await_termination (h : DiskLogHandler) : option (RC * DiskLogHandler) :=
  match h.(thread) with
  | None => Some (INTERNAL, h)
  | Some t =>
      if h.(running) then Some (INTERNAL, h)
      else match h.(entry_buffer).(entries) with
           | [] => Some (SUCCESS, mkHandler h.(directory) h.(file_manager) h.(entry_buffer) false None)
           | _ :: _ => None
           end
  end.

(** [DiskLogHandler::_append], on a running handler. *)
Definition append (h : DiskLogHandler) (l : Z) (m : LogModule_Id) (d : list Z) : option (RC * Z * DiskLogHandler) :=
  if negb h.(running) then None
  else
    '(rc, l', b) ← buffer_append h.(entry_buffer) l (module_index m) d;
    Some (rc, l', mkHandler h.(directory) h.(file_manager) b true h.(thread)).

(** [wait_lsn]; [None] while it waits. *)
Definition wait_lsn (h : DiskLogHandler) (l : Z) : option RC :=
  if l <=? h.(entry_buffer).(flushed_lsn) then Some SUCCESS
  else if h.(running) then None else Some INTERNAL.

(** One round of the loop of [thread_func]. *)
Inductive RoundResult := LoopExit | AssertFailed | Continue (h : DiskLogHandler).

Definition thread_round (h : DiskLogHandler) : RoundResult :=
  match h.(thread) with
  | None => LoopExit
  | Some (mkThread w rc) =>
      let b := h.(entry_buffer) in
      if negb (h.(running) || (0 <? zlen b.(entries))) then LoopExit
      else
        let need_file := negb w.(opened) || bool_decide (rc = LOG_FILE_FULL) in
        let '(rc, dir, m, w) :=
          if need_file then
            if bool_decide (rc = LOG_FILE_FULL) then next_file h.(directory) h.(file_manager) w
            else last_file h.(directory) h.(file_manager) w
          else (rc, h.(directory), h.(file_manager), w) in
        if need_file && OB_FAIL rc then Continue (mkHandler dir m b h.(running) (Some (mkThread w rc)))
        else
          match buffer_flush dir w b with
          | None => AssertFailed
          | Some (rc, _, dir, w, b) => Continue (mkHandler dir m b h.(running) (Some (mkThread w rc)))
          end
  end.

(** ** Reading back *)

Section iterate.
Context {St : Type} (consumer : St -> LogEntry -> RC * St).

Fixpoint iterate_files (dir : Directory) (files : list string) (start_lsn : Z) (st : St) : option (RC * St) :=
  match files with
  | [] => Some (SUCCESS, st)
  | f :: files' =>
      match dir !! f with
      | None => Some (FILE_OPEN, st)
      | Some file =>
          match reader_iterate consumer file start_lsn st with
          | None => None
          | Some (rc, st') => if OB_FAIL rc then Some (rc, st') else iterate_files dir files' start_lsn st'
          end
      end
  end.

(** [DiskLogHandler::iterate] *)
Definition iterate (h : DiskLogHandler) (start_lsn : Z) (st : St) : option (RC * St) :=
  iterate_files h.(directory) (list_files h.(file_manager) start_lsn) start_lsn st.
End iterate.

Section replay.
Context {St : Type} (replayer : St -> LogEntry -> RC * St).

Definition replay_callback (s : St * Z) (e : LogEntry) : RC * (St * Z) :=
  let '(st, max_lsn) := s in
  let max_lsn := if max_lsn <? lsn e then lsn e else max_lsn in
  let '(rc, st') := replayer st e in (rc, (st', max_lsn)).

(** [DiskLogHandler::replay] *)
Definition replay (h : DiskLogHandler) (start_lsn : Z) (st : St) : option (RC * St * DiskLogHandler) :=
  match iterate replay_callback h start_lsn (st, 0) with
  | None => None
  | Some (rc, (st', max_lsn)) =>
      if OB_FAIL rc then Some (rc, st', h)
      else Some (SUCCESS, st', mkHandler h.(directory) h.(file_manager) (buffer_init h.(entry_buffer) max_lsn 0)
                                 h.(running) h.(thread))
  end.
End replay.

(** [IntegratedLogReplayer::replay]: the entry goes to the replayer of its module. *)
Record Replayers (St : Type) := mkReplayers {
  buffer_pool_log_replayer : St -> LogEntry -> RC * St;
  bplus_tree_log_replayer : St -> LogEntry -> RC * St;
  record_log_replayer : St -> LogEntry -> RC * St;
  trx_log_replayer : St -> LogEntry -> RC * St
}.
Arguments buffer_pool_log_replayer {St} _.
Arguments bplus_tree_log_replayer {St} _.
Arguments record_log_replayer {St} _.
Arguments trx_log_replayer {St} _.

Definition integrated_replay {St} (r : Replayers St) (st : St) (e : LogEntry) : RC * St :=
  match e.(header).(h_module_id) with
  | 0 => r.(buffer_pool_log_replayer) st e
  | 2 => r.(record_log_replayer) st e
  | 1 => r.(bplus_tree_log_replayer) st e
  | 3 => r.(trx_log_replayer) st e
  | _ => (INVALID_ARGUMENT, st)
  end.

(** ** Runs *)

Inductive LogEvent := Append (m : LogModule_Id) (d : list Z) | Round | Stop.

(** An append that is refused leaves the handler as it was; so does a round of a thread
    that has ended. *)
Definition log_exec (h : DiskLogHandler) (ev : LogEvent) : option DiskLogHandler :=
  match ev with
  | Append m d => '(_, _, h') ← append h 0 m d; Some h'
  | Round => match thread_round h with Continue h' => Some h' | LoopExit => Some h | AssertFailed => None end
  | Stop => Some (stop h).2
  end.

Fixpoint log_run (h : DiskLogHandler) (evs : list LogEvent) : option DiskLogHandler :=
  match evs with
  | [] => Some h
  | ev :: evs' => h' ← log_exec h ev; log_run h' evs'
  end.

(** What a run logs: its accepted payloads, numbered from [n + 1] on. *)
Definition log_entry (l : Z) (m : LogModule_Id) (d : list Z) : LogEntry :=
  mkEntry (mkHeader l (zlen d) (module_index m)) d.

Fixpoint logged (n : Z) (evs : list LogEvent) : list LogEntry :=
  match evs with
  | [] => []
  | Append m d :: evs' =>
      if max_payload_size <? zlen d then logged n evs' else log_entry (n + 1) m d :: logged (n + 1) evs'
  | _ :: evs' => logged n evs'
  end.

Definition event_ok (ev : LogEvent) : Prop :=
  match ev with Append _ d => 0 < zlen d < 2 ^ 31 | _ => True end.

(** ** The invariant *)

Section log.
Context (M : Z) (HM : 0 < M).

(** The log so far: LSNs from 1 on, without gaps. *)
Definition numbered (all : list LogEntry) : Prop :=
  forall i e, all !! i = Some e -> lsn e = Z.of_nat i + 1.

Definition log_ok (all : list LogEntry) : Prop :=
  numbered all /\ Forall (fun e => entry_ok e /\ 0 < payload_size e) all /\ zlen all + 2 * M < 2 ^ 31.

(** File [i] holds the entries with LSNs from [i * M] to [(i + 1) * M - 1]. *)
Definition base (i : nat) : Z := Z.of_nat i * M.
Definition segment (i : nat) (es : list LogEntry) : list LogEntry :=
  filter (fun e => base i <= lsn e < base (S i)) es.

Definition names (k : nat) : list (Z * string) := (fun i => (base i, file_name (base i))) <$> seq 0 k.

(** [n] entries are in [k] files of the directory. *)
Record files_ok (dir : Directory) (m : LogFileManager) (all : list LogEntry) (n k : nat) : Prop := {
  fo_max : m.(max_entry_number_per_file) = M;
  fo_names : m.(log_files) = names k;
  fo_contents : forall i, (i < k)%nat -> dir !! file_name (base i) = Some (file_bytes (segment i (take n all)));
  fo_only : forall name l, is_Some (dir !! name) -> get_lsn_from_filename name = Some l ->
              exists i, (i < k)%nat /\ l = base i /\ name = file_name l;
  fo_low : n = 0%nat \/ Z.of_nat n < base k;
  fo_high : k = 0%nat \/ base k <= Z.of_nat n + 1 + M;
  fo_le : (n <= length all)%nat
}.

(** The thread's file is the last one. *)
Definition writer_ok (w : LogFileWriter) (n k : nat) : Prop :=
  w.(last_lsn) <= Z.of_nat n /\
  (w.(opened) = true -> (0 < k)%nat /\ w.(filename) = file_name (base (k - 1)) /\ w.(end_lsn) = base k - 1).

Definition thread_ok (t : FlushThread) (all : list LogEntry) (n k : nat) : Prop :=
  writer_ok t.(file_writer) n k /\
  (t.(flush_rc) = SUCCESS \/
   t.(flush_rc) = LOG_FILE_FULL /\ t.(file_writer).(opened) = true /\
   Z.of_nat n + 1 = base k /\ (n < length all)%nat).

Record log_repr (h : DiskLogHandler) (all : list LogEntry) (n k : nat) : Prop := {
  lr_log : log_ok all;
  lr_files : files_ok h.(directory) h.(file_manager) all n k;
  lr_entries : h.(entry_buffer).(entries) = drop n all;
  lr_current : h.(entry_buffer).(current_lsn) = zlen all;
  lr_flushed : h.(entry_buffer).(flushed_lsn) = Z.of_nat n;
  lr_bytes : h.(entry_buffer).(bytes) <= HEADER_SIZE * zlen h.(entry_buffer).(entries);
  lr_thread : forall t, h.(thread) = Some t -> thread_ok t all n k
}.

Lemma numbered_sorted all : numbered all -> StronglySorted (fun a b => lsn a < lsn b) all.
Proof using Type.
  intros H. assert (forall n, (forall i e, all !! i = Some e -> lsn e = Z.of_nat (n + i) + 1) ->
    StronglySorted (fun a b => lsn a < lsn b) all) as G.
  { clear H. induction all as [|e all IH]; intros n H; constructor.
    - apply (IH (S n)). intros i e' Hi. rewrite (H (S i) e' Hi). lia.
    - apply Forall_lookup. intros i e' Hi. rewrite (H 0%nat e eq_refl), (H (S i) e' Hi). lia. }
  apply (G 0%nat). intros i e Hi. by rewrite (H i e Hi).
Qed.

Lemma numbered_take n all : numbered all -> numbered (take n all).
Proof using Type. intros H i e Hi. apply lookup_take_Some in Hi as [Hi _]. by apply H. Qed.

Lemma sorted_filter (P : LogEntry -> Prop) `{!forall e, Decision (P e)} es :
  StronglySorted (fun a b => lsn a < lsn b) es -> StronglySorted (fun a b => lsn a < lsn b) (filter P es).
Proof using Type.
  induction 1 as [|e es Hs IH Hlt]; [constructor|]. rewrite filter_cons. case_decide; [|done].
  constructor; [done|]. apply Forall_forall. intros e' [_ He']%list_elem_of_filter.
  by eapply Forall_forall in Hlt.
Qed.

Lemma base_S i : base (S i) = base i + M.
Proof using Type. unfold base. lia. Qed.

Lemma base_mono i j : (i <= j)%nat -> base i <= base j.
Proof using HM. unfold base. nia. Qed.

Lemma base_inj i j : base i = base j -> i = j.
Proof using HM. unfold base. nia. Qed.

Lemma base_pos i : 0 <= base i.
Proof using HM. unfold base. nia. Qed.

Lemma names_S k : names (S k) = (names k ++ [(base k, file_name (base k))])%list.
Proof using Type. unfold names. by rewrite seq_S, fmap_app. Qed.

Lemma emplace_last x v l : Forall (fun f => f.1 < x) l -> emplace x v l = (l ++ [(x, v)])%list.
Proof using Type.
  induction 1 as [|[y v'] l Hy _ IH]; [done|]. cbn in *.
  destruct (Z.ltb_spec x y); [lia|]. destruct (Z.eqb_spec x y); [lia|]. by rewrite IH.
Qed.

Lemma names_below k : Forall (fun f => f.1 < base k) (names k).
Proof using HM.
  apply Forall_forall. intros f (i & -> & Hi)%list_elem_of_fmap. cbn.
  apply elem_of_seq in Hi. pose proof (base_mono (S i) k). rewrite base_S in *. lia.
Qed.

Lemma segment_snoc i es e : segment i (es ++ [e]) =
  if decide (base i <= lsn e < base (S i)) then (segment i es ++ [e])%list else segment i es.
Proof using Type.
  unfold segment. rewrite filter_app, filter_cons. case_decide; [done|]. by rewrite app_nil_r.
Qed.

(** A bound for the file names that occur. *)
Lemma base_range dir m all n k i : log_ok all -> files_ok dir m all n k -> (i <= S k)%nat ->
  0 <= base i < 2 ^ 31 + M.
Proof using HM.
  intros (_ & _ & Hb) Hf Hi. pose proof (base_mono i (S k) Hi) as H. rewrite base_S in H.
  pose proof (base_pos i). destruct (fo_high _ _ _ _ _ Hf) as [->|Hk].
  - unfold base at 2 in H. unfold zlen in Hb. lia.
  - pose proof (fo_le _ _ _ _ _ Hf). unfold zlen in Hb. lia.
Qed.

(** ** Opening a file *)

Lemma next_file_ok dir m all n k w : log_ok all -> files_ok dir m all n k -> writer_ok w n k ->
  base k <= Z.of_nat n + 1 ->
  exists dir' m' w', next_file dir m w = (SUCCESS, dir', m', w') /\ files_ok dir' m' all n (S k) /\
    writer_ok w' n (S k) /\ w'.(opened) = true.
Proof using HM.
  intros Hlog Hf [Hlast Hop] Hk. pose proof (base_range _ _ _ _ _ k Hlog Hf ltac:(lia)) as Hr.
  pose proof (base_S k) as HS. pose proof (base_pos k) as Hp0.
  assert (M < 2 ^ 31) as HM31 by (destruct Hlog as (_ & _ & ?); unfold zlen in *; lia).
  assert (dir !! file_name (base k) = None) as Hnone.
  { destruct (dir !! file_name (base k)) eqn:E; [|done]. exfalso.
    destruct (fo_only _ _ _ _ _ Hf (file_name (base k)) (base k)) as (i & Hi & Hb & _).
    - by rewrite E.
    - apply file_name_lsn. lia.
    - apply base_inj in Hb. lia. }
  unfold next_file. rewrite (fo_max _ _ _ _ _ Hf).
  assert (match last (log_files m) with Some f => f.1 + M | None => 0 end = base k) as ->.
  { rewrite (fo_names _ _ _ _ _ Hf). destruct k as [|k']; [done|].
    rewrite names_S, last_snoc. cbn. by rewrite base_S. }
  unfold writer_open. assert (opened (writer_close w).2 = false) as ->.
  { unfold writer_close. by destruct (opened w) eqn:E. }
  rewrite Hnone. cbn [default]. eexists _, _, _. split; [done|].
  assert (int32 (base k + M - 1) = base (S k) - 1) as Hend.
  { rewrite HS, int32_id; [lia|]. unfold in_int32, INT32_MIN, INT32_MAX.
    destruct Hlog as (_ & _ & Hb). pose proof (fo_le _ _ _ _ _ Hf). unfold zlen in Hb. lia. }
  split; [|split; [|done]].
  - constructor; cbn [max_entry_number_per_file log_files].
    + done.
    + rewrite (fo_names _ _ _ _ _ Hf), names_S, emplace_last; [done|apply names_below].
    + intros i Hi. destruct (decide (i = k)) as [->|Hne].
      * rewrite lookup_insert_eq. f_equal. unfold segment. rewrite filter_none; [done|].
        apply Forall_lookup. intros j e [Hj Hlt]%lookup_take_Some [Hlo _].
        destruct Hlog as (Hn & _). rewrite (Hn _ _ Hj) in Hlo. destruct (fo_low _ _ _ _ _ Hf); lia.
      * rewrite lookup_insert_ne; [apply Hf; lia|].
        intros E%file_name_inj; [apply base_inj in E; lia|lia|].
        pose proof (base_range _ _ _ _ _ i Hlog Hf ltac:(lia)). lia.
    + intros name l [x Hx] Hl. destruct (decide (name = file_name (base k))) as [->|Hne].
      * exists k. rewrite file_name_lsn in Hl by lia. injection Hl as <-. split; [lia|done].
      * rewrite lookup_insert_ne in Hx by done.
        destruct (fo_only _ _ _ _ _ Hf name l) as (i & Hi & Hb); [by eexists|done|]. exists i. split; [lia|done].
    + destruct (fo_low _ _ _ _ _ Hf); [by left|]. right. lia.
    + right. lia.
    + apply Hf.
  - split; cbn.
    + unfold writer_close. by destruct (opened w).
    + intros _. split; [lia|]. by rewrite Nat.sub_0_r.
Qed.

Lemma last_file_ok dir m all n k w : log_ok all -> files_ok dir m all n k -> writer_ok w n k ->
  exists dir' m' w' k', last_file dir m w = (SUCCESS, dir', m', w') /\ files_ok dir' m' all n k' /\
    writer_ok w' n k' /\ w'.(opened) = true.
Proof using HM.
  intros Hlog Hf Hw. unfold last_file. destruct k as [|k].
  - rewrite (fo_names _ _ _ _ _ Hf). cbn [names seq fmap list_fmap last].
    destruct (next_file_ok dir m all n 0 w) as (dir' & m' & w' & -> & ?); [done|done|done|unfold base; lia|].
    by eexists dir', m', w', 1%nat.
  - rewrite (fo_names _ _ _ _ _ Hf), names_S, last_snoc. cbn [fst snd].
    destruct Hw as [Hlast Hop]. unfold writer_open.
    assert (opened (writer_close w).2 = false) as ->.
    { unfold writer_close. by destruct (opened w) eqn:E. }
    assert (dir !! file_name (base k) = Some (file_bytes (segment k (take n all)))) as Hd by (apply Hf; lia).
    rewrite Hd, (fo_max _ _ _ _ _ Hf). cbn [default]. unfold id.
    rewrite insert_id by done. eexists _, _, _, (S k). split; [done|]. split; [done|]. split; [|done]. split; cbn.
    + unfold writer_close. by destruct (opened w).
    + intros _. split; [lia|]. rewrite Nat.sub_0_r. split; [done|].
      destruct Hlog as (_ & _ & Hb). pose proof (fo_le _ _ _ _ _ Hf). pose proof (base_pos k).
      destruct (fo_high _ _ _ _ _ Hf) as [|Hh]; [done|]. rewrite base_S in *. unfold zlen in Hb.
      rewrite int32_id; [lia|]. unfold in_int32, INT32_MIN, INT32_MAX. lia.
Qed.

(** ** Writing *)

Lemma write_ok dir m all n k w e : log_ok all -> files_ok dir m all n k -> writer_ok w n k ->
  w.(opened) = true -> all !! n = Some e ->
  (Z.of_nat n + 1 = base k /\ writer_write dir w e = (LOG_FILE_FULL, dir, w)) \/
  exists dir' w', writer_write dir w e = (SUCCESS, dir', w') /\ files_ok dir' m all (S n) k /\
    writer_ok w' (S n) k /\ w'.(opened) = true.
Proof using HM.
  intros Hlog Hf [Hlast Hop] Ho He. destruct (Hop Ho) as (Hk & Hname & Hend).
  destruct Hlog as (Hnum & Hok & Hb). pose proof (Hnum _ _ He) as Hl. unfold writer_write.
  rewrite Hend, Ho, Hname, Hl. cbn [negb].
  assert (Z.of_nat n < base k) as Hlow.
  { destruct (fo_low _ _ _ _ _ Hf) as [->|]; [|done]. pose proof (base_mono 1 k). unfold base in *. lia. }
  destruct (Z.ltb_spec (base k - 1) (Z.of_nat n + 1)); [left; split; [lia|done]|].
  right. destruct (Z.leb_spec (Z.of_nat n + 1) w.(last_lsn)); [lia|].
  destruct k as [|k]; [lia|]. cbn [Nat.sub] in *. rewrite Nat.sub_0_r in *.
  rewrite (fo_contents _ _ _ _ _ Hf k) by lia. cbn [default]. unfold id.
  apply lookup_lt_Some in He as Hlt. eexists _, _. split; [done|]. split; [|split; [|done]].
  - assert (take (S n) all = take n all ++ [e])%list as Htake by (by apply take_S_r).
    destruct (fo_high _ _ _ _ _ Hf) as [|Hh]; [lia|]. rewrite base_S in Hh.
    constructor; try apply Hf; [| |by right; lia|by right; rewrite ?base_S; lia|lia].
    + intros i Hi. rewrite Htake, segment_snoc, Hl. destruct (decide (i = k)) as [->|Hne].
      * rewrite lookup_insert_eq, decide_True by lia. by rewrite file_bytes_app, file_bytes_cons, app_nil_r.
      * pose proof (base_mono (S i) k). rewrite decide_False by lia.
        rewrite lookup_insert_ne; [apply Hf; lia|].
        pose proof (base_range _ _ _ _ _ i (conj Hnum (conj Hok Hb)) Hf ltac:(lia)).
        pose proof (base_range _ _ _ _ _ k (conj Hnum (conj Hok Hb)) Hf ltac:(lia)).
        unfold zlen in Hb. intros E%file_name_inj; [apply base_inj in E; lia|lia|lia].
    + intros name l Hd. apply (fo_only _ _ _ _ _ Hf). destruct (decide (name = file_name (base k))) as [->|].
      * rewrite (fo_contents _ _ _ _ _ Hf k) by lia. by eexists.
      * by rewrite lookup_insert_ne in Hd.
  - split; cbn [last_lsn opened filename end_lsn].
    + rewrite int32_id; [lia|]. unfold in_int32, INT32_MIN, INT32_MAX, zlen in *. lia.
    + intros _. split; [lia|]. by replace (S k - 1)%nat with k by lia.
Qed.

(** ** Flushing *)

Definition buffer_ok (b : LogEntryBuffer) (all : list LogEntry) (n : nat) : Prop :=
  b.(entries) = drop n all /\ b.(current_lsn) = zlen all /\ b.(flushed_lsn) = Z.of_nat n /\
  b.(bytes) <= HEADER_SIZE * zlen b.(entries).

Lemma flush_ok es dir m all n k w b count : log_ok all -> files_ok dir m all n k -> writer_ok w n k ->
  w.(opened) = true -> es = drop n all -> buffer_ok b all n ->
  exists rc count' dir' w' b' n', flush_loop es dir w b count = Some (rc, count', dir', w', b') /\
    (n <= n')%nat /\ files_ok dir' m all n' k /\ thread_ok (mkThread w' rc) all n' k /\ w'.(opened) = true /\
    buffer_ok b' all n' /\ (rc = SUCCESS -> n' = length all).
Proof using HM.
  intros Hlog. revert dir n w b count. induction es as [|e es IH]; intros dir n w b count Hf Hw Ho Hes (He & Hc & Hfl & Hb).
  - exists SUCCESS. eexists _, _, _, _, n. cbn. split; [done|]. split; [done|]. split; [done|].
    split; [by split; [|left]|]. split; [done|].
    assert (length all <= n)%nat by (apply (f_equal length) in Hes; rewrite length_drop in Hes; cbn in Hes; lia).
    pose proof (fo_le _ _ _ _ _ Hf). split; [|lia].
    rewrite He, <- Hes in Hb. by split_and!.
  - symmetry in Hes. assert (all !! n = Some e) as Hn.
    { rewrite <- (Nat.add_0_r n), <- lookup_drop, Hes. done. }
    assert (drop (S n) all = es) as Hes'.
    { rewrite <- Nat.add_1_r, <- drop_drop, Hes. done. }
    destruct Hlog as (Hnum & Hok & Hbd). pose proof (Hnum _ _ Hn) as Hl.
    pose proof (proj1 (Forall_lookup _ _) Hok _ _ Hn) as [_ Hpay].
    cbn [flush_loop]. destruct (Z.ltb_spec 0 (lsn e)); [|lia]. destruct (Z.ltb_spec 0 (payload_size e)); [|lia].
    cbn [negb andb]. rewrite He, Hes in Hb. unfold zlen, HEADER_SIZE in Hb. cbn [length] in Hb.
    destruct (write_ok dir m all n k w e) as [[Hk ->]|(dir' & w' & -> & Hf' & Hw' & Ho')]; [by split_and!|done..| |].
    + cbn. exists LOG_FILE_FULL. eexists _, _, _, _, n. split; [done|]. split; [done|]. split; [done|].
      apply lookup_lt_Some in Hn. split; [split; [done|right; by split_and!]|]. split; [done|]. split; [|done].
      split_and!; cbn; [done|done|done|]. unfold total_size, zlen, HEADER_SIZE. cbn [length]. lia.
    + rc_simpl.
      destruct (IH dir' (S n) w' (mkBuffer es (b.(bytes) - total_size e) b.(current_lsn) (lsn e) b.(max_bytes)) (S count))
        as (rc & c' & d2 & w2 & b2 & n' & -> & Hn' & HH); [done|done|done|done| |].
      * split_and!; cbn; [done|done|lia|]. unfold total_size, zlen, HEADER_SIZE. lia.
      * eexists _, _, _, _, _, n'. split; [done|]. split; [lia|done].
Qed.

(** ** One round, one event *)

Lemma thread_round_ok h all n k : log_repr h all n k ->
  match thread_round h with
  | AssertFailed => False
  | LoopExit => h.(thread) = None \/ (h.(running) = false /\ n = length all)
  | Continue h' => exists n' k', log_repr h' all n' k' /\ h'.(running) = h.(running) /\ is_Some h'.(thread) /\
      (n <= n')%nat /\
      (n' = length all \/ ((exists t', h'.(thread) = Some t' /\ t'.(flush_rc) = LOG_FILE_FULL) /\
        ((n < n')%nat \/ forall t, h.(thread) = Some t -> t.(flush_rc) <> LOG_FILE_FULL)))
  end.
Proof using HM.
  intros [Hlog Hf He Hc Hfl Hb Ht]. unfold thread_round. destruct h.(thread) as [[w rc]|] eqn:Eth; [|by left].
  destruct (Ht _ eq_refl) as [Hw Hrc]. cbn [file_writer flush_rc] in Hw, Hrc.
  pose proof (fo_le _ _ _ _ _ Hf) as Hle.
  destruct (negb _) eqn:Erun.
  { right. apply negb_true_iff, orb_false_iff in Erun as [-> E]. split; [done|].
    rewrite He in E. unfold zlen in E. rewrite length_drop in E. apply Z.ltb_ge in E. lia. }
  clear Erun.
  assert (exists dir m w' k', (if negb (opened w) || bool_decide (rc = LOG_FILE_FULL) then
      if bool_decide (rc = LOG_FILE_FULL) then next_file (directory h) (file_manager h) w
      else last_file (directory h) (file_manager h) w
      else (rc, directory h, file_manager h, w)) = (SUCCESS, dir, m, w') /\ files_ok dir m all n k' /\
      writer_ok w' n k' /\ opened w' = true /\ (rc = LOG_FILE_FULL -> Z.of_nat n + 1 < base k'))
    as (dir & m & w' & k' & -> & Hf' & Hw' & Ho' & Hroom).
  { destruct Hrc as [->|(-> & Ho & Hk & Hlt)]; cbn [bool_decide decide].
    - rewrite bool_decide_false by done. rewrite orb_false_r. destruct (opened w) eqn:Ho.
      + by eexists _, _, _, k.
      + destruct (last_file_ok (directory h) (file_manager h) all n k w) as (d & m & w' & k' & -> & ?); [done..|].
        eexists _, _, _, k'. split; [done|]. naive_solver.
    - rewrite bool_decide_true by done. rewrite orb_true_r.
      destruct (next_file_ok (directory h) (file_manager h) all n k w) as (d & m & w' & -> & ?); [done..|lia|].
      eexists _, _, _, (S k). split; [done|]. split_and!; try naive_solver. intros _. rewrite base_S. lia. }
  change (OB_FAIL SUCCESS) with false. rewrite andb_false_r. unfold buffer_flush.
  destruct (flush_ok h.(entry_buffer).(entries) dir m all n k' w' h.(entry_buffer) 0)
    as (rc2 & c & d2 & w2 & b2 & n' & -> & Hnn & Hf2 & Ht2 & Ho2 & (B1 & B2 & B3 & B4) & Hend); [done..|].
  exists n', k'. split; [constructor; cbn; try done; intros t [= <-]; done|].
  cbn. split; [done|]. split; [by eexists|]. split; [done|].
  destruct Ht2 as [_ Ht2]. cbn [flush_rc] in Ht2. destruct Ht2 as [->|(-> & _ & Hk' & _)]; [by left; apply Hend|]. right. split; [by eexists|].
  destruct (decide (rc = LOG_FILE_FULL)) as [E|E]; [|by right; intros t [= <-]]. left. specialize (Hroom E). lia.
Qed.

Lemma log_entry_repr l m d : - 2 ^ 63 <= l < 2 ^ 63 -> 0 < zlen d <= max_payload_size ->
  entry_ok (log_entry l m d) /\ 0 < payload_size (log_entry l m d).
Proof using Type.
  intros Hl Hd. unfold entry_ok, header_ok, payload_size, log_entry. cbn.
  unfold in_int32, INT32_MIN, INT32_MAX, max_payload_size, max_size, HEADER_SIZE in *.
  split_and!; try lia; by destruct m.
Qed.

Lemma log_ok_snoc all m d : log_ok all -> 0 < zlen d <= max_payload_size -> zlen all + 1 + 2 * M < 2 ^ 31 ->
  log_ok (all ++ [log_entry (zlen all + 1) m d]).
Proof using HM.
  intros (Hn & Hok & _) Hd Hb. split_and!.
  - intros i e Hi. apply lookup_app_Some in Hi as [Hi|[Hge Hi]]; [by apply Hn|].
    apply list_lookup_singleton_Some in Hi as [Hi <-]. unfold zlen, lsn. cbn. lia.
  - apply Forall_app. split; [done|]. constructor; [|done]. apply log_entry_repr; [|done]. unfold zlen in *. lia.
  - rewrite zlen_app. unfold zlen at 2. cbn. lia.
Qed.

Lemma files_ok_grow dir m all n k e : files_ok dir m all n k -> files_ok dir m (all ++ [e]) n k.
Proof using Type.
  intros Hf. pose proof (fo_le _ _ _ _ _ Hf). constructor; try apply Hf.
  - intros i Hi. rewrite take_app_le by done. by apply Hf.
  - rewrite length_app. lia.
Qed.

Lemma append_ok h all n k m d h' : log_repr h all n k -> 0 < zlen d < 2 ^ 31 ->
  log_exec h (Append m d) = Some h' ->
  zlen (all ++ logged (zlen all) [Append m d]) + 2 * M < 2 ^ 31 ->
  log_repr h' (all ++ logged (zlen all) [Append m d]) n k.
Proof using HM.
  intros [Hlog Hf He Hc Hfl Hb Ht] Hd. cbn [log_exec logged]. unfold append, buffer_append, entry_init.
  assert (int32 (zlen d) = zlen d) as ->.
  { apply int32_id. unfold in_int32, INT32_MIN, INT32_MAX. lia. }
  destruct (running h) eqn:Er; [|done]. cbn [negb].
  destruct (max_bytes (entry_buffer h) <=? bytes (entry_buffer h)); [done|].
  destruct (Z.ltb_spec max_payload_size (zlen d)); cbn; intros [= <-] Hbd.
  { rewrite app_nil_r. by constructor. }
  rewrite Hc. change (set_lsn _ _) with (log_entry (zlen all + 1) m d).
  rewrite zlen_app in Hbd. change (zlen [_]) with 1 in Hbd.
  constructor; cbn [directory file_manager entry_buffer thread entries bytes current_lsn flushed_lsn max_bytes].
  - apply log_ok_snoc; [done|lia|lia].
  - by apply files_ok_grow.
  - rewrite He. symmetry. apply drop_app_le. apply Hf.
  - rewrite zlen_app. done.
  - done.
  - rewrite zlen_app. change (zlen [_]) with 1. unfold total_size, moved_from, payload_size, HEADER_SIZE in *. cbn. lia.
  - intros t Hth. destruct (Ht t Hth) as [Hw Hrc]. split; [done|]. rewrite length_app. naive_solver lia.
Qed.

Lemma stop_ok h all n k : log_repr h all n k -> log_repr (stop h).2 all n k.
Proof using Type. intros Hr. unfold stop. destruct (thread h) eqn:E; [|done]. destruct Hr. constructor; try done. by rewrite E in *. Qed.

Lemma logged_app n evs evs' : logged n (evs ++ evs') = (logged n evs ++ logged (n + zlen (logged n evs)) evs')%list.
Proof using Type.
  revert n. induction evs as [|ev evs IH]; intros n; cbn [app logged].
  { f_equal. unfold zlen. cbn. lia. }
  destruct ev as [m d| |]; [|apply IH|apply IH]. destruct (_ <? _); [apply IH|].
  cbn [app]. rewrite IH. replace (n + zlen (log_entry _ _ _ :: _)) with (n + 1 + zlen (logged (n + 1) evs)); [done|].
  unfold zlen. cbn [length]. lia.
Qed.

(** Every run keeps the invariant, for the log extended by what the run appends. *)
Lemma log_run_ok evs h all n k h' : log_repr h all n k -> Forall event_ok evs -> log_run h evs = Some h' ->
  zlen (all ++ logged (zlen all) evs) + 2 * M < 2 ^ 31 ->
  exists n' k', log_repr h' (all ++ logged (zlen all) evs) n' k' /\ (n <= n')%nat.
Proof using HM.
  intros Hr Hev. revert h all n k Hr. induction Hev as [|ev evs Hev _ IH]; intros h all n k Hr Hrun Hb.
  { injection Hrun as <-. rewrite app_nil_r. eauto. }
  cbn [log_run] in Hrun. destruct (log_exec h ev) as [h1|] eqn:E; [|done]. cbn in Hrun.
  pose proof (logged_app (zlen all) [ev] evs) as Eapp. cbn [app] in Eapp.
  rewrite Eapp, app_assoc, <- zlen_app in Hb |- *.
  assert (exists n1 k1, log_repr h1 (all ++ logged (zlen all) [ev]) n1 k1 /\ (n <= n1)%nat) as (n1 & k1 & Hr1 & Hn1).
  { destruct ev as [m d| |].
    - exists n, k. split; [|done]. eapply append_ok; [done|done|done|].
      rewrite zlen_app in Hb. pose proof (zlen_pos (logged (zlen (all ++ logged (zlen all) [Append m d])) evs)). lia.
    - cbn [logged]. rewrite app_nil_r. pose proof (thread_round_ok _ _ _ _ Hr) as Hround. cbn in E.
      destruct (thread_round h); [injection E as <-; eauto|done|injection E as <-].
      destruct Hround as (n1 & k1 & ? & _ & _ & ? & _). eauto.
    - cbn in E. injection E as <-. cbn [logged]. rewrite app_nil_r. exists n, k. split; [by apply stop_ok|done]. }
  destruct (IH _ _ _ _ Hr1 Hrun Hb) as (n' & k' & ? & ?). exists n', k'. split; [done|lia].
Qed.

(** ** Reading the files back *)

Lemma segments_below es k : StronglySorted (fun a b => lsn a < lsn b) es -> Forall (fun e => 0 <= lsn e) es ->
  concat ((fun i => segment i es) <$> seq 0 k) = filter (fun e => lsn e < base k) es.
Proof using HM.
  intros Hs Hpos. induction k as [|k IH].
  { cbn. rewrite filter_none; [done|]. eapply Forall_impl; [exact Hpos|]. change (base 0) with 0; cbn; lia. }
  rewrite seq_S, fmap_app, concat_app, IH. cbn [fmap list_fmap concat Nat.add]. rewrite app_nil_r.
  destruct (lsn_split (base k) es Hs) as (lo & hi & -> & Hlo & Hhi & _). unfold segment.
  rewrite !filter_app. pose proof (base_S k).
  rewrite (filter_all (fun e => lsn e < base k) lo) by done.
  rewrite (filter_none (fun e => lsn e < base k) hi) by (eapply Forall_impl; [exact Hhi|]; cbn; lia).
  rewrite (filter_none _ lo) by (eapply Forall_impl; [exact Hlo|]; cbn; lia).
  rewrite (filter_all (fun e => lsn e < base (S k)) lo) by (eapply Forall_impl; [exact Hlo|]; cbn; lia).
  rewrite app_nil_r. cbn [app]. f_equal. apply filter_iff_in.
  eapply Forall_impl; [exact Hhi|]. cbn. lia.
Qed.

Lemma filter_concat {X} (P : X -> Prop) `{!forall x, Decision (P x)} ls :
  filter P (concat ls) = concat (filter P <$> ls).
Proof using Type. induction ls as [|l ls IH]; cbn; [done|]. by rewrite filter_app, IH. Qed.

Lemma files_cover dir m all n k : log_ok all -> files_ok dir m all n k ->
  concat ((fun i => segment i (take n all)) <$> seq 0 k) = take n all.
Proof using HM.
  intros (Hn & _ & _) Hf. assert (forall e, e ∈ take n all -> 0 < lsn e <= Z.of_nat n) as Hr.
  { intros e (i & [Hi Hlt]%lookup_take_Some)%list_elem_of_lookup. rewrite (Hn _ _ Hi). lia. }
  rewrite segments_below.
  - apply filter_all, Forall_forall. intros e He. specialize (Hr e He). destruct (fo_low _ _ _ _ _ Hf); lia.
  - by apply numbered_sorted, numbered_take.
  - apply Forall_forall. intros e He. specialize (Hr e He). lia.
Qed.

Lemma iterate_files_ok {St} (cb : St -> LogEntry -> RC * St) dir m all n k l s st :
  log_ok all -> files_ok dir m all n k -> Forall (fun i => (i < k)%nat) l ->
  iterate_files cb dir (filter (fun f : Z * string => s <= f.1 + M - 1)
                          ((fun i => (base i, file_name (base i))) <$> l)).*2 s st =
  Some (consume cb (concat ((fun i => filter (fun e => s <= lsn e) (segment i (take n all))) <$> l)) st).
Proof using HM.
  intros Hlog Hf Hl. revert st. induction Hl as [|i l Hi _ IH]; intros st; [done|].
  cbn [fmap list_fmap concat]. rewrite filter_cons. cbn [fst]. case_decide as Hs.
  - cbn [fmap list_fmap iterate_files snd]. rewrite (fo_contents _ _ _ _ _ Hf i Hi).
    destruct Hlog as (Hn & Hok & Hb).
    rewrite <- (app_nil_r (file_bytes _)), reader_iterate_ok.
    + rewrite consume_app. destruct (consume cb _ st) as [rc st']. destruct (OB_FAIL rc); [done|]. apply IH.
    + apply Forall_forall. intros e [_ (j & [Hj _]%lookup_take_Some)%list_elem_of_lookup]%list_elem_of_filter.
      by apply (Forall_lookup_1 _ _ _ _ Hok) in Hj as [? _].
    + by apply sorted_filter, numbered_sorted, numbered_take.
    + done.
  - rewrite (filter_none (fun e => s <= lsn e)); [apply IH|].
    apply Forall_forall. intros e [He _]%list_elem_of_filter. rewrite base_S in He. lia.
Qed.

(** [iterate] hands its consumer the flushed entries from [s] on, in order. *)
Lemma iterate_ok {St} (cb : St -> LogEntry -> RC * St) h all n k s st :
  log_ok all -> files_ok h.(directory) h.(file_manager) all n k ->
  iterate cb h s st = Some (consume cb (filter (fun e => s <= lsn e) (take n all)) st).
Proof using HM.
  intros Hlog Hf. unfold iterate, list_files.
  rewrite (fo_names _ _ _ _ _ Hf), (fo_max _ _ _ _ _ Hf). unfold names.
  rewrite (iterate_files_ok cb _ h.(file_manager) all n k); [|done|done|].
  - pose proof (files_cover _ _ _ _ _ Hlog Hf) as Hc. apply (f_equal (filter (fun e => s <= lsn e))) in Hc.
    rewrite filter_concat, <- list_fmap_compose in Hc. unfold compose in Hc. by rewrite Hc.
  - apply Forall_forall. intros i Hi%elem_of_seq. lia.
Qed.

(** ** Progress *)

Fixpoint rounds (j : nat) (h : DiskLogHandler) : option DiskLogHandler :=
  match j with O => Some h | S j' => h' ← log_exec h Round; rounds j' h' end.

Lemma rounds_done j h all k : log_repr h all (length all) k ->
  exists h' k', rounds j h = Some h' /\ log_repr h' all (length all) k'.
Proof using HM.
  revert h k. induction j as [|j IH]; intros h k Hr; [by eauto|]. cbn.
  pose proof (thread_round_ok _ _ _ _ Hr) as H. destruct (thread_round h) as [| |h1]; [|done|].
  - by apply (IH h k).
  - destruct H as (n1 & k1 & Hr1 & _ & _ & Hle & _).
    pose proof (fo_le _ _ _ _ _ (lr_files _ _ _ _ Hr1)). replace n1 with (length all) in Hr1 by lia.
    by apply (IH h1 k1).
Qed.

Lemma rounds_progress j h all n k : log_repr h all n k -> is_Some h.(thread) ->
  (length all - n < j)%nat ->
  exists h' k', rounds j h = Some h' /\ log_repr h' all (length all) k'.
Proof using HM.
  assert (forall j h n k, log_repr h all n k -> is_Some h.(thread) ->
    (length all - n < j)%nat \/ ((length all - n <= j)%nat /\ exists t, h.(thread) = Some t /\ t.(flush_rc) = LOG_FILE_FULL) ->
    exists h' k', rounds j h = Some h' /\ log_repr h' all (length all) k') as G; [|eauto].
  clear h n k j. intros j. induction j as [|j IH]; intros h n k Hr Ht Hj.
  { destruct Hj as [Hj|(Hj & t & Et & Hrc)]; [lia|].
    destruct (lr_thread _ _ _ _ Hr t Et) as [_ [?|(_ & _ & _ & ?)]]; [congruence|lia]. }
  cbn. pose proof (fo_le _ _ _ _ _ (lr_files _ _ _ _ Hr)) as Hle.
  pose proof (thread_round_ok _ _ _ _ Hr) as H. destruct (thread_round h) as [| |h1] eqn:E; [|done|].
  - destruct H as [H|[_ ->]]; [by rewrite H in Ht; destruct Ht|]. by eapply rounds_done.
  - cbn. destruct H as (n1 & k1 & Hr1 & _ & Ht1 & Hn & [->|(Hfull & Hprog)]); [by eapply rounds_done|].
    pose proof (fo_le _ _ _ _ _ (lr_files _ _ _ _ Hr1)) as Hle1.
    destruct (decide (n1 = length all)) as [->|Hne]; [by eapply rounds_done|].
    apply (IH h1 n1 k1 Hr1 Ht1). right. split; [|done].
    destruct Hprog as [?|Hno]; [lia|]. destruct Hj as [?|(_ & t & Et & Hrc)]; [lia|]. by apply Hno in Et.
Qed.

(** ** Restart *)

Lemma names_sorted k : StronglySorted key_lt (names k).
Proof using HM.
  unfold names. assert (forall i, StronglySorted key_lt ((fun i => (base i, file_name (base i))) <$> seq i k)) as G; [|done].
  induction k as [|k IH]; intros i; cbn; constructor; [apply IH|].
  apply Forall_forall. intros f (j & -> & Hj%elem_of_seq)%list_elem_of_fmap. unfold key_lt. cbn.
  pose proof (base_mono (S i) j). rewrite base_S in *. lia.
Qed.

(** Listing the directory finds the files the handler had. *)
Lemma restart_files dir m all n k ls : log_ok all -> files_ok dir m all n k ->
  (forall name, name ∈ ls <-> is_Some (dir !! name)) -> files_ok dir (manager_init ls M) (take n all) n k.
Proof using HM.
  intros Hlog Hf Hls. destruct (manager_init_ok M ls) as (Hs & Hin & Hall).
  pose proof (fo_le _ _ _ _ _ Hf) as Hle. constructor; try apply Hf.
  - done.
  - apply key_sorted_unique; [done|apply names_sorted|]. intros f. split.
    + intros Hf'. destruct (Hin f Hf') as [Hnm Hl]. apply Hls in Hnm.
      destruct (fo_only _ _ _ _ _ Hf _ _ Hnm Hl) as (i & Hi & Hb & Hnm'). destruct f as [x nm]. cbn in *. subst.
      apply list_elem_of_fmap. exists i. split; [done|]. apply elem_of_seq. lia.
    + intros (i & -> & Hi%elem_of_seq)%list_elem_of_fmap.
      assert (is_Some (dir !! file_name (base i))) as Hd by (rewrite (fo_contents _ _ _ _ _ Hf i) by lia; by eexists).
      assert (get_lsn_from_filename (file_name (base i)) = Some (base i)) as Hl.
      { apply file_name_lsn. pose proof (base_range _ _ _ _ _ i Hlog Hf ltac:(lia)).
        destruct Hlog as (_ & _ & ?). unfold zlen in *. lia. }
      destruct (proj1 (list_elem_of_fmap _ _ _) (Hall _ _ (proj2 (Hls _) Hd) Hl)) as ([x nm] & Ex & Hx).
      cbn in Ex. subst x. destruct (Hin _ Hx) as [Hnm Hl']. cbn in *. apply Hls in Hnm.
      destruct (fo_only _ _ _ _ _ Hf _ _ Hnm Hl') as (j & _ & _ & ->). done.
  - intros i Hi. rewrite take_take, Nat.min_id. by apply Hf.
  - rewrite length_take. lia.
Qed.

Definition highest (mx : Z) (es : list LogEntry) : Z :=
  foldl (fun mx e => if mx <? lsn e then lsn e else mx) mx es.

Lemma consume_replay {St} (r : St -> LogEntry -> RC * St) es st mx st' :
  consume r es st = (SUCCESS, st') ->
  consume (replay_callback r) es (st, mx) = (SUCCESS, (st', highest mx es)).
Proof using Type.
  revert st mx. induction es as [|e es IH]; intros st mx; cbn; [by intros [= <-]|].
  destruct (r st e) as [rc st1]. destruct (OB_FAIL rc) eqn:E; [intros [= -> _]; done|]. apply IH.
Qed.

Lemma highest_in x es mx : mx <= x -> Forall (fun e => lsn e <= x) es -> (mx = x \/ x ∈ lsn <$> es) ->
  highest mx es = x.
Proof using Type.
  intros Hmx Hes. revert mx Hmx. induction Hes as [|e es He _ IH]; intros mx Hmx Hx; cbn.
  { destruct Hx as [->|Hx]; [done|]. by apply elem_of_nil in Hx. }
  apply IH; [by destruct (Z.ltb_spec mx (lsn e))|]. cbn in Hx. rewrite elem_of_cons in Hx.
  destruct (Z.ltb_spec mx (lsn e)); destruct Hx as [->|[->|Hx]]; auto; left; lia.
Qed.

Lemma replay_ok {St} (r : St -> LogEntry -> RC * St) h all n k ls s st st' : log_repr h all n k ->
  (forall name, name ∈ ls <-> is_Some (h.(directory) !! name)) -> n = 0%nat \/ s <= Z.of_nat n ->
  consume r (filter (fun e => s <= lsn e) (take n all)) st = (SUCCESS, st') ->
  exists h', replay r (handler_init h.(directory) ls M) s st = Some (SUCCESS, st', h') /\
    log_repr (start h').2 (take n all) n k /\ h'.(thread) = None.
Proof using HM.
  intros [Hlog Hf He Hc Hfl Hb Ht] Hls Hs Hcon. pose proof (fo_le _ _ _ _ _ Hf) as Hle.
  pose proof (restart_files _ _ _ _ _ _ Hlog Hf Hls) as Hf'.
  assert (log_ok (take n all)) as Hlog'.
  { destruct Hlog as (Hn & Hok & Hbd). split_and!; [by apply numbered_take|by apply Forall_take|].
    unfold zlen in *. rewrite length_take. lia. }
  set (h0 := handler_init h.(directory) ls M).
  assert (iterate (replay_callback r) h0 s (st, 0) = Some (SUCCESS, (st', Z.of_nat n))) as E.
  { rewrite (iterate_ok _ h0 (take n all) n k) by done. rewrite take_take, Nat.min_id.
    rewrite (consume_replay _ _ _ _ _ Hcon). do 3 f_equal. destruct Hlog as (Hn & _).
    apply highest_in; [lia| |].
    - apply Forall_forall. intros e [_ (i & [Hi Hlt]%lookup_take_Some)%list_elem_of_lookup]%list_elem_of_filter.
      rewrite (Hn _ _ Hi). lia.
    - destruct n as [|n]; [by left|]. right. destruct Hs as [?|Hs]; [done|].
      destruct (lookup_lt_is_Some_2 all n) as [e Hi]; [lia|]. apply list_elem_of_fmap. exists e.
      rewrite (Hn _ _ Hi). split; [lia|]. apply list_elem_of_filter. rewrite (Hn _ _ Hi). split; [lia|].
      apply list_elem_of_lookup. exists n. apply lookup_take_Some. split; [done|lia]. }
  unfold replay. rewrite E. rc_simpl.
  eexists. split; [done|]. split; [|done].
  assert (zlen (take n all) = Z.of_nat n) as Hzl by (unfold zlen; rewrite length_take; lia).
  constructor; cbn; [done|done| |done|done|done|].
  - rewrite drop_ge; [done|]. rewrite length_take. lia.
  - intros t' [= <-]. split; [split; [cbn; lia|done]|by left].
Qed.

Lemma log_init_repr : M < 2 ^ 29 -> log_repr (start (handler_init ∅ [] M)).2 [] 0 0.
Proof using HM.
  intros. constructor; cbn; try done.
  - split_and!; [done|done|]. unfold zlen. cbn. lia.
  - constructor; cbn; try done; auto. + intros i Hi. lia. + intros name l [x Hx]. by rewrite lookup_empty in Hx.
  - intros t' [= <-]. split; [split; [done|done]|by left].
Qed.
End log.

(** ** Theorems *)

(** C7: The log is read back as it was written.  Take any run of appends, rounds of the flush
    thread and the stop request, in any order, from any state the log can be in: the
    buffer and the files together hold the log extended by exactly the accepted payloads,
    with LSNs counted up from 1 without a gap; and iterating over the files from any LSN
    hands the consumer exactly the entries that were flushed, from that LSN on, in order,
    across file boundaries. *)
Theorem log_history_roundtrip M h all n k evs h' : 0 < M -> log_repr M h all n k ->
  Forall event_ok evs -> log_run h evs = Some h' ->
  let log := (all ++ logged (zlen all) evs)%list in zlen log + 2 * M < 2 ^ 31 ->
  h'.(entry_buffer).(current_lsn) = zlen log /\
  exists n' k', (n <= n')%nat /\ log_repr M h' log n' k' /\ h'.(entry_buffer).(flushed_lsn) = Z.of_nat n' /\
    forall St (consumer : St -> LogEntry -> RC * St) s st,
      iterate consumer h' s st = Some (consume consumer (filter (fun e => s <= lsn e) (take n' log)) st).
Proof.
  intros HM Hr Hev Hrun log Hb. destruct (log_run_ok M HM _ _ _ _ _ _ Hr Hev Hrun Hb) as (n' & k' & Hr' & Hn).
  split; [apply Hr'|]. exists n', k'. split_and!; [done|done|apply Hr'|].
  intros. eapply iterate_ok; [done|apply Hr'|apply Hr'].
Qed.

(** Collecting the entries, for the examples. *)
Definition collect_lsn (st : list (Z * list Z)) (e : LogEntry) : RC * list (Z * list Z) :=
  (SUCCESS, (st ++ [(lsn e, e.(data))])%list).

Definition demo_events : list LogEvent :=
  [Append TRANSACTION [1; 2]; Round; Append BUFFER_POOL [3]; Append RECORD_MANAGER [4; 5; 6]; Round; Round; Round].

Definition demo_log : DiskLogHandler := (start (handler_init ∅ [] 2)).2.

Lemma log_history_roundtrip_witness : exists h', log_run demo_log demo_events = Some h' /\
  iterate collect_lsn h' 2 [] = Some (SUCCESS, [(2, [3]); (3, [4; 5; 6])]) /\
  h'.(entry_buffer).(current_lsn) = 3.
Proof.
  assert (is_Some (log_run demo_log demo_events)) as [h' E] by (vm_compute; by eexists).
  assert (log_repr 2 demo_log [] 0 0) as Hr by (apply (log_init_repr 2); lia).
  destruct (log_history_roundtrip 2 demo_log [] 0 0 demo_events h') as (Hc & n' & k' & _ & _ & Hf & Hit).
  - lia.
  - exact Hr.
  - repeat constructor; vm_compute; done.
  - exact E.
  - vm_compute. done.
  - exists h'. split; [exact E|]. split; [|exact Hc].
    assert (n' = 3%nat) as ->.
    { enough (flushed_lsn (entry_buffer h') = 3) by lia. vm_compute in E. by injection E as <-. }
    rewrite Hit. vm_compute. reflexivity.
Defined.

(** C33: The flush thread makes progress: from any state the log can be in, as many rounds as
    there are queued entries plus one write the whole log to the files; no round fails an
    assertion, and every [wait_lsn] of an appended entry then returns [SUCCESS]. *)
Theorem log_flush_progress M h all n k : 0 < M -> log_repr M h all n k -> is_Some h.(thread) ->
  exists h' k', rounds (S (length all - n)) h = Some h' /\ log_repr M h' all (length all) k' /\
    h'.(entry_buffer).(entries) = [] /\ forall l, l <= zlen all -> wait_lsn h' l = Some SUCCESS.
Proof.
  intros HM Hr Ht. destruct (rounds_progress M HM (S (length all - n)) h all n k Hr Ht) as (h' & k' & E & Hr'); [lia|].
  exists h', k'. split_and!; [done|done|rewrite (lr_entries _ _ _ _ _ Hr'); by rewrite drop_all|].
  intros l Hl. unfold wait_lsn. rewrite (lr_flushed _ _ _ _ _ Hr').
  unfold zlen in Hl. destruct (Z.leb_spec l (Z.of_nat (length all))); [done|lia].
Qed.

Lemma log_flush_progress_witness : exists h h', log_run demo_log [Append TRANSACTION [1]; Append TRANSACTION [2]] = Some h /\
  rounds 3 h = Some h' /\ wait_lsn h 2 = None /\ wait_lsn h' 2 = Some SUCCESS.
Proof.
  set (evs := [Append TRANSACTION [1]; Append TRANSACTION [2]]).
  assert (is_Some (log_run demo_log evs)) as [h E] by (vm_compute; by eexists).
  assert (log_repr 2 demo_log [] 0 0) as Hr by (apply (log_init_repr 2); lia).
  destruct (log_run_ok 2 ltac:(lia) evs demo_log [] 0 0 h) as (n' & k' & Hr' & _);
    [exact Hr|repeat constructor; vm_compute; done|exact E|vm_compute; done|].
  assert (flushed_lsn (entry_buffer h) = 0) as Hfl by (vm_compute in E; by injection E as <-).
  rewrite (lr_flushed _ _ _ _ _ Hr') in Hfl. assert (n' = 0%nat) as -> by lia.
  destruct (log_flush_progress 2 h (logged 0 evs) 0 k') as (h' & k2 & E' & _ & _ & Hw).
  - lia.
  - exact Hr'.
  - vm_compute in E. injection E as <-. by eexists.
  - exists h, h'. split; [exact E|]. split; [exact E'|]. split; [by vm_compute in E; injection E as <-|].
    apply Hw. vm_compute. done.
Defined.

(** A restart continues the log.  After a stop or a crash the buffer is gone and the files
    hold the first [n] entries; a new handler that lists the directory (in any order) and
    replays from an LSN that is in the files hands the replayer exactly the entries from
    there on, and is then in a valid state for the log of those [n] entries, so that the
    next LSN is [n + 1]. *)
Theorem log_restart_continues {St} (replayer : St -> LogEntry -> RC * St) M h all n k ls s st st' :
  0 < M -> log_repr M h all n k ->
  (forall name, name ∈ ls <-> is_Some (h.(directory) !! name)) -> n = 0%nat \/ s <= Z.of_nat n ->
  consume replayer (filter (fun e => s <= lsn e) (take n all)) st = (SUCCESS, st') ->
  exists h', replay replayer (handler_init h.(directory) ls M) s st = Some (SUCCESS, st', h') /\
    (start h').1 = SUCCESS /\ log_repr M (start h').2 (take n all) n k /\
    (start h').2.(entry_buffer).(current_lsn) = Z.of_nat n.
Proof.
  intros HM Hr Hls Hs Hcon. destruct (replay_ok M HM replayer _ _ _ _ _ _ _ _ Hr Hls Hs Hcon) as (h' & E & Hr' & Ht).
  exists h'. split_and!; [done|unfold start; by rewrite Ht|done|].
  rewrite (lr_current _ _ _ _ _ Hr'). pose proof (fo_le _ _ _ _ _ _ (lr_files _ _ _ _ _ Hr)).
  unfold zlen. rewrite length_take. lia.
Qed.

Lemma log_restart_continues_witness : exists h h', log_run demo_log demo_events = Some h /\
  replay collect_lsn (handler_init h.(directory) (map_to_list h.(directory)).*1 2) 1 [] =
    Some (SUCCESS, [(1, [1; 2]); (2, [3]); (3, [4; 5; 6])], h') /\
  (start h').2.(entry_buffer).(current_lsn) = 3.
Proof.
  assert (is_Some (log_run demo_log demo_events)) as [h E] by (vm_compute; by eexists).
  assert (log_repr 2 demo_log [] 0 0) as Hr by (apply (log_init_repr 2); lia).
  destruct (log_run_ok 2 ltac:(lia) demo_events demo_log [] 0 0 h) as (n' & k' & Hr' & _);
    [exact Hr|repeat constructor; vm_compute; done|exact E|vm_compute; done|].
  assert (flushed_lsn (entry_buffer h) = 3) as Hfl by (vm_compute in E; by injection E as <-).
  rewrite (lr_flushed _ _ _ _ _ Hr') in Hfl. assert (n' = 3%nat) as -> by lia.
  destruct (log_restart_continues collect_lsn 2 h (logged 0 demo_events) 3 k' (map_to_list h.(directory)).*1 1 []
    [(1, [1; 2]); (2, [3]); (3, [4; 5; 6])]) as (h' & E' & _ & _ & Hc).
  - lia.
  - exact Hr'.
  - intros name. rewrite list_elem_of_fmap. split.
    + intros ([nm x] & -> & Hx). apply elem_of_map_to_list in Hx. by eexists.
    + intros [x Hx]. exists (name, x). split; [done|]. by apply elem_of_map_to_list.
  - right. lia.
  - vm_compute. reflexivity.
  - exists h, h'. split; [exact E|]. split; [exact E'|exact Hc].
Defined.

(** A log file whose last entry was cut by a crash: when less than its header reached the
    file, reading hands over the entries before it and succeeds; when the header is
    there and the payload is not whole, reading fails with [IOERR_READ] after the entries
    before it, and with it the server's recovery. *)
Theorem torn_log_tail {St} (consumer : St -> LogEntry -> RC * St) es e part rest s st st' :
  Forall entry_ok (es ++ [e]) -> StronglySorted (fun a b => lsn a < lsn b) (es ++ [e]) ->
  entry_bytes e = (part ++ rest)%list -> rest <> [] -> Forall (fun e => s <= lsn e) (es ++ [e]) ->
  consume consumer es st = (SUCCESS, st') ->
  reader_iterate consumer (file_bytes es ++ part) s st =
  Some (if zlen part <? HEADER_SIZE then SUCCESS else IOERR_READ, st').
Proof.
  intros Hok Hs He Hne Hst Hc. destruct (Z.ltb_spec (zlen part) HEADER_SIZE) as [Hlt|Hge].
  - apply Forall_app in Hok as [Hok _], Hst as [Hst _].
    rewrite reader_iterate_ok; [|done|by eapply StronglySorted_app_1_l|done].
    by rewrite filter_all, Hc.
  - assert (exists p, part = (header_bytes e.(header) ++ p)%list /\ e.(data) = (p ++ rest)%list) as (p & -> & Hd).
    { unfold entry_bytes in He. exists (drop 16 part).
      assert (take 16 part = header_bytes (header e)) as Ht.
      { apply (f_equal (take 16)) in He. rewrite take_app_le in He by (rewrite header_bytes_length; lia).
        rewrite (take_ge (header_bytes _)) in He by (rewrite header_bytes_length; lia).
        rewrite take_app_le in He; [done|]. unfold zlen, HEADER_SIZE in Hge. lia. }
      rewrite <- Ht at 1. rewrite take_drop. split; [done|].
      rewrite <- (take_drop 16 part), <- app_assoc, Ht in He. by apply app_inv_head in He. }
    erewrite reader_torn_payload; [by rewrite Hc|done..|by rewrite Hc].
Qed.

Definition demo_entry (l : Z) : LogEntry := log_entry l TRANSACTION [7; 7].

Lemma torn_log_tail_witness :
  reader_iterate collect_lsn (file_bytes [demo_entry 1] ++ take 5 (entry_bytes (demo_entry 2))) 1 [] =
    Some (SUCCESS, [(1, [7; 7])]).
Proof.
  apply (torn_log_tail collect_lsn [demo_entry 1] (demo_entry 2) (take 5 (entry_bytes (demo_entry 2)))
           (drop 5 (entry_bytes (demo_entry 2))) 1 [] [(1, [7; 7])]).
  - repeat constructor; vm_compute; done.
  - repeat constructor; vm_compute; done.
  - by rewrite take_drop.
  - vm_compute. done.
  - repeat constructor; vm_compute; done.
  - reflexivity.
Defined.

(** What happens next to a log with a piece of a header at its end: recovery succeeds,
    the new entry is written behind the piece, and from then on no recovery succeeds. *)
Definition torn_dir : Directory :=
  {[ file_name 0 := (file_bytes [demo_entry 1] ++ take 3 (entry_bytes (demo_entry 2)))%list ]}.

(** Half a log header that a crash left behind is not removed: the next recovery
    succeeds, the handler writes its next entry behind the garbage, [wait_lsn] reports
    that entry durable, and the recovery after that fails with [IOERR_READ]. *)
Theorem torn_header_poisons_log : exists h1 h2,
  replay collect_lsn (handler_init torn_dir [file_name 0] 1000) 0 [] = Some (SUCCESS, [(1, [7; 7])], h1) /\
  log_run (start h1).2 [Append TRANSACTION [9; 9]; Round] = Some h2 /\ wait_lsn h2 2 = Some SUCCESS /\
  iterate collect_lsn (handler_init h2.(directory) [file_name 0] 1000) 0 [] = Some (IOERR_READ, [(1, [7; 7])]).
Proof. eexists _, _. repeat split; vm_compute; reflexivity. Qed.

(** The writer keeps LSNs in [int] variables: whatever file is opened, an entry with an
    LSN of [2 ^ 31] or more is refused with [LOG_FILE_FULL], so the flush thread opens one
    file after the other and never writes again. *)
Theorem log_stops_at_int_max d w name last rc d' w' e :
  writer_open d w name last = (rc, d', w') -> rc = SUCCESS -> 2 ^ 31 <= lsn e ->
  writer_write d' w' e = (LOG_FILE_FULL, d', w').
Proof.
  unfold writer_open. destruct (opened w); [by intros [= <- _ _]|]. intros [= _ _ <-] _ He.
  unfold writer_write. cbn [end_lsn]. pose proof (Z.mod_pos_bound (last + 2 ^ (32 - 1)) (2 ^ 32) ltac:(lia)) as Hm.
  unfold wrap_s at 1. destruct (Z.ltb_spec ((last + 2 ^ (32 - 1)) `mod` 2 ^ 32 - 2 ^ (32 - 1)) (lsn e)); [done|].
  change (2 ^ (32 - 1)) with (2 ^ 31) in *. lia.
Qed.

Lemma log_stops_at_int_max_witness :
  let '(rc, d, w) := writer_open ∅ new_writer (file_name (2 ^ 31)) (2 ^ 31 + 999) in
  (writer_write d w (demo_entry (2 ^ 31))).1.1 = LOG_FILE_FULL.
Proof.
  destruct (writer_open ∅ new_writer (file_name (2 ^ 31)) (2 ^ 31 + 999)) as [[rc d] w] eqn:E.
  rewrite (log_stops_at_int_max ∅ new_writer (file_name (2 ^ 31)) (2 ^ 31 + 999) rc d w (demo_entry (2 ^ 31)) E).
  - reflexivity.
  - cbn in E. by injection E as <- _ _.
  - vm_compute. done.
Defined.
