(* ===== verification/RecordLog.v ===== *)
(** * RecordLog: write-ahead logging and redo of record pages

    Models [src/src/observer/storage/record/record_log.cpp] together with the
    calls that [RowRecordPageHandler] makes to it, and the log handlers it writes
    to ([VacuousLogHandler::_append] and [LogEntryBuffer::append], which numbers
    the entries).  A frame is a page with its LSN; a data file is a finite map
    from page numbers to frames.

    The theorem of this file is the redo property: whatever mixture of old page
    images a crash leaves behind, replaying the whole log from its start restores
    every page. *)

From S2P Require Import Prelude Bitmap RecordPage.

(** [RecordOperation::Type] with the payload of its log entry.  An [INIT_PAGE]
    entry carries the record size and the number of columns. *)
Inductive RecordOperation :=
| INIT_PAGE (rec_size ncol : Z)
| INSERT (slot : Z) (record : list Z)
| DELETE (slot : Z)
| UPDATE (slot : Z) (record : list Z).

(** A log entry of the record manager: its LSN, the page and the operation. *)
Record LogRec := mkLogRec { lr_lsn : Z; lr_page : Z; lr_op : RecordOperation }.

(** The log handlers: the disk handler numbers entries from its current LSN, the
    vacuous one answers LSN [0] and keeps nothing. *)
Inductive LogHandler :=
| DiskLog (current_lsn : Z) (entries : list LogRec)
| VacuousLog.

Definition append (lh : LogHandler) (pn : Z) (op : RecordOperation) : Z * LogHandler :=
  match lh with
  | DiskLog cur es => (cur + 1, DiskLog (cur + 1) (es ++ [mkLogRec (cur + 1) pn op]))
  | VacuousLog => (0, VacuousLog)
  end.

(** A frame: the page in memory and the LSN of the last change to it. *)
Record Frame := mkFrame { lsn : Z; page : RecPage }.

(** [if (OB_SUCC(rc) && lsn > 0) frame->set_lsn(lsn)] *)
Definition set_lsn_logged (f : Frame) (l : Z) : Frame :=
  if 0 <? l then mkFrame l f.(page) else f.

(** [RecordPageHandler::init_empty_page] with its log entry. *)
Definition h_init_empty_page (lh : LogHandler) (f : Frame) (pn rec_size ncol : Z)
    : RC * Frame * LogHandler :=
  let p := init_empty_page rec_size ncol f.(page).(data) in
  let '(l, lh') := append lh pn (INIT_PAGE rec_size ncol) in
  (SUCCESS, set_lsn_logged (mkFrame f.(lsn) p) l, lh').

(** [RowRecordPageHandler::insert_record]: the entry holds the slot and the
    [record_real_size] bytes of the record. *)
Definition h_insert_record (lh : LogHandler) (f : Frame) (pn : Z) (src : list Z)
    : RC * Frame * LogHandler :=
  let '(rc, p, s) := insert_record f.(page) src in
  if OB_FAIL rc then (rc, f, lh)
  else
    let '(l, lh') := append lh pn (INSERT s (take (Z.to_nat f.(page).(hdr).(record_real_size)) src)) in
    (SUCCESS, set_lsn_logged (mkFrame f.(lsn) p) l, lh').

Definition h_delete_record (lh : LogHandler) (f : Frame) (pn slot : Z) : RC * Frame * LogHandler :=
  let '(rc, p) := delete_record f.(page) slot in
  if OB_FAIL rc then (rc, f, lh)
  else
    let '(l, lh') := append lh pn (DELETE slot) in
    (SUCCESS, set_lsn_logged (mkFrame f.(lsn) p) l, lh').

Definition h_update_record (lh : LogHandler) (f : Frame) (pn slot : Z) (src : list Z)
    : RC * Frame * LogHandler :=
  let '(rc, p) := update_record f.(page) slot src in
  if OB_FAIL rc then (rc, f, lh)
  else
    let '(l, lh') := append lh pn (UPDATE slot (take (Z.to_nat f.(page).(hdr).(record_real_size)) src)) in
    (SUCCESS, set_lsn_logged (mkFrame f.(lsn) p) l, lh').

(** [RecordLogReplayer::replay] on the frame of the entry's page.  The handlers
    it opens write to a vacuous log; an insert is redone with [insert_record],
    which chooses the slot again. *)
Definition replay_op (f : Frame) (pn : Z) (op : RecordOperation) : RC * Frame :=
  match op with
  | INIT_PAGE rec_size ncol =>
      let '(rc, f', _) := h_init_empty_page VacuousLog f pn rec_size ncol in (rc, f')
  | INSERT _ record => let '(rc, f', _) := h_insert_record VacuousLog f pn record in (rc, f')
  | DELETE slot => let '(rc, f', _) := h_delete_record VacuousLog f pn slot in (rc, f')
  | UPDATE slot record => let '(rc, f', _) := h_update_record VacuousLog f pn slot record in (rc, f')
  end.

Definition replay_frame (f : Frame) (e : LogRec) : RC * Frame :=
  if e.(lr_lsn) <=? f.(lsn) then (SUCCESS, f)
  else
    let '(rc, f') := replay_op f e.(lr_page) e.(lr_op) in
    if OB_FAIL rc then (rc, f') else (SUCCESS, mkFrame e.(lr_lsn) f'.(page)).

(** A data file: the frames of its pages.  [get_this_page] of a page the file does
    not have fails to read it. *)
Definition replay (frames : gmap Z Frame) (e : LogRec) : RC * gmap Z Frame :=
  match frames !! e.(lr_page) with
  | None => (IOERR_READ, frames)
  | Some f => let '(rc, f') := replay_frame f e in (rc, <[e.(lr_page) := f']> frames)
  end.

(** [DiskLogHandler::iterate] with the replayer as its consumer stops at the first
    failure. *)
Fixpoint replay_all (frames : gmap Z Frame) (es : list LogRec) : RC * gmap Z Frame :=
  match es with
  | [] => (SUCCESS, frames)
  | e :: es' =>
      let '(rc, frames') := replay frames e in
      if OB_FAIL rc then (rc, frames') else replay_all frames' es'
  end.

(** ** Histories of logged operations *)

Inductive PageOp :=
| OpInit (rec_size ncol : Z)
| OpInsert (src : list Z)
| OpDelete (slot : Z)
| OpUpdate (slot : Z) (src : list Z).

Definition exec_op (lh : LogHandler) (f : Frame) (pn : Z) (op : PageOp) : RC * Frame * LogHandler :=
  match op with
  | OpInit rec_size ncol => h_init_empty_page lh f pn rec_size ncol
  | OpInsert src => h_insert_record lh f pn src
  | OpDelete slot => h_delete_record lh f pn slot
  | OpUpdate slot src => h_update_record lh f pn slot src
  end.

(** One operation on one page of the file; an operation on a missing page fails
    before it touches anything. *)
Definition step (st : gmap Z Frame * LogHandler) (o : Z * PageOp) : gmap Z Frame * LogHandler :=
  let '(frames, lh) := st in
  match frames !! o.1 with
  | None => st
  | Some f => let '(_, f', lh') := exec_op lh f o.1 o.2 in (<[o.1 := f']> frames, lh')
  end.

Definition run (ops : list (Z * PageOp)) (st : gmap Z Frame * LogHandler) := foldl step st ops.

(** A crash image: every page as it was after some prefix of the history (pages
    are flushed independently, each at its own time). *)
Definition crash_image (ops : list (Z * PageOp)) (st : gmap Z Frame * LogHandler)
    (img : gmap Z Frame) : Prop :=
  forall pn, exists k, img !! pn = (run (take k ops) st).1 !! pn.

(** ** One step, one entry *)

(** What one operation does with a disk log: either nothing, or it appends one
    entry whose redo on the old frame gives the new frame. *)
Lemma exec_op_disk c es f pn op :
  (exists rc, exec_op (DiskLog c es) f pn op = (rc, f, DiskLog c es)) \/
  (exists p rop,
     exec_op (DiskLog c es) f pn op =
       (SUCCESS, set_lsn_logged (mkFrame f.(lsn) p) (c + 1),
        DiskLog (c + 1) (es ++ [mkLogRec (c + 1) pn rop])) /\
     replay_op f pn rop = (SUCCESS, mkFrame f.(lsn) p)).
Proof.
  destruct op as [rs nc|src|slot|slot src]; cbn [exec_op].
  - right. by eexists _, _.
  - unfold h_insert_record. destruct (insert_record f.(page) src) as [[rc p] s] eqn:E.
    destruct (OB_FAIL rc) eqn:Er; [left; by eexists|]. right. eexists _, _. split; [done|].
    cbn [replay_op]. unfold h_insert_record.
    assert (insert_record f.(page) (take (Z.to_nat f.(page).(hdr).(record_real_size)) src) = (rc, p, s)) as ->.
    { rewrite <- E. unfold insert_record, put_record_data. cbn [hdr with_bits set_record_num record_real_size].
      by rewrite take_take, Nat.min_id. }
    by rewrite Er.
  - unfold h_delete_record. destruct (delete_record f.(page) slot) as [rc p] eqn:E.
    destruct (OB_FAIL rc) eqn:Er; [left; by eexists|]. right. eexists _, _. split; [done|].
    cbn [replay_op]. unfold h_delete_record. by rewrite E, Er.
  - unfold h_update_record. destruct (update_record f.(page) slot src) as [rc p] eqn:E.
    destruct (OB_FAIL rc) eqn:Er; [left; by eexists|]. right. eexists _, _. split; [done|].
    cbn [replay_op]. unfold h_update_record.
    assert (update_record f.(page) slot (take (Z.to_nat f.(page).(hdr).(record_real_size)) src) = (rc, p)) as ->.
    { rewrite <- E. unfold update_record, put_record_data. by rewrite take_take, Nat.min_id. }
    by rewrite Er.
Qed.

(** The frames' LSNs never exceed the log's. *)
Definition lsns_below (frames : gmap Z Frame) (c : Z) : Prop :=
  0 <= c /\ forall pn f, frames !! pn = Some f -> f.(lsn) <= c.

(** A step with a disk log either leaves the file and the log alone, or logs one
    entry; redoing that entry on the frame the step started from gives the frame it
    produced, and a frame that already has the step skips it. *)
Lemma step_disk frames c es o : lsns_below frames c ->
  step (frames, DiskLog c es) o = (frames, DiskLog c es) \/
  (exists f f' e,
     frames !! o.1 = Some f /\ e.(lr_page) = o.1 /\ e.(lr_lsn) = c + 1 /\ f'.(lsn) = c + 1 /\
     step (frames, DiskLog c es) o = (<[o.1 := f']> frames, DiskLog (c + 1) (es ++ [e])) /\
     replay_frame f e = (SUCCESS, f')).
Proof.
  intros [Hc Hb]. unfold step. destruct (frames !! o.1) as [f|] eqn:Hf; [|by left].
  destruct (exec_op_disk c es f o.1 o.2) as [[rc ->]|(p & rop & -> & Hr)].
  - left. by rewrite insert_id.
  - right. exists f, (mkFrame (c + 1) p), (mkLogRec (c + 1) o.1 rop). do 3 (split; [done|]).
    unfold set_lsn_logged. destruct (Z.ltb_spec 0 (c + 1)); [|lia].
    do 2 (split; [done|]).
    unfold replay_frame. cbn [lr_lsn lr_page lr_op].
    destruct (Z.leb_spec (c + 1) f.(lsn)); [apply Hb in Hf; lia|]. by rewrite Hr.
Qed.

Lemma lsns_below_insert frames c q f : lsns_below frames c -> f.(lsn) = c + 1 ->
  lsns_below (<[q := f]> frames) (c + 1).
Proof.
  intros [Hc Hb] Hf. split; [lia|]. intros pn g.
  rewrite lookup_insert. case_decide; intros; simplify_eq; [lia|].
  apply Z.le_trans with c; [eauto|lia].
Qed.

Lemma run_lsn_mono ops frames c es pn f : lsns_below frames c -> frames !! pn = Some f ->
  exists g, (run ops (frames, DiskLog c es)).1 !! pn = Some g /\ f.(lsn) <= g.(lsn).
Proof.
  revert frames c es f. induction ops as [|o ops IH]; intros frames c es f Hb Hf; [by eexists|].
  change (run (o :: ops) (frames, DiskLog c es)) with (run ops (step (frames, DiskLog c es) o)).
  destruct (step_disk frames c es o Hb) as [->|(f0 & f' & e & H0 & _ & _ & Hl & -> & _)]; [by eapply IH|].
  destruct (decide (o.1 = pn)) as [<-|Hne].
  - simplify_eq. destruct (IH (<[o.1:=f']> frames) (c + 1) (es ++ [e]) f') as (g & Hg & Hle).
    + by apply lsns_below_insert.
    + apply lookup_insert_eq.
    + exists g. split; [done|]. pose proof (proj2 Hb _ _ Hf). lia.
  - apply IH; [by apply lsns_below_insert|]. by rewrite lookup_insert_ne.
Qed.

Lemma run_take_0 ops st : run (take 0 ops) st = st.
Proof. done. Qed.

(** Redo, for any start of the log. *)
Lemma redo_from ops : forall frames c es img,
  lsns_below frames c -> crash_image ops (frames, DiskLog c es) img ->
  exists c' new frames',
    run ops (frames, DiskLog c es) = (frames', DiskLog c' (es ++ new)) /\
    replay_all img new = (SUCCESS, frames').
Proof.
  induction ops as [|o ops IH]; intros frames c es img Hb Himg.
  - exists c, [], frames. rewrite app_nil_r. split; [done|]. cbn. f_equal.
    apply map_eq. intros pn. destruct (Himg pn) as [k Hk]. by rewrite take_nil in Hk.
  - change (run (o :: ops) (frames, DiskLog c es)) with (run ops (step (frames, DiskLog c es) o)).
    destruct (step_disk frames c es o Hb)
      as [Hs|(f & f' & e & Hf & He & Hel & Hl & Hs & Hr)].
    + rewrite Hs. apply IH; [done|]. intros pn. destruct (Himg pn) as [[|k] Hk]; [by exists 0%nat|].
      exists k. rewrite Hk. cbn [take run foldl]. by rewrite Hs.
    + rewrite Hs.
      assert (forall pn k, (run (take (S k) (o :: ops)) (frames, DiskLog c es)).1 !! pn =
                (run (take k ops) (<[o.1 := f']> frames, DiskLog (c + 1) (es ++ [e]))).1 !! pn) as Hshift.
      { intros. cbn [take run foldl]. by rewrite Hs. }
      assert (lsns_below (<[o.1 := f']> frames) (c + 1)) as Hb' by by apply lsns_below_insert.
      assert (exists g g', img !! o.1 = Some g /\ replay_frame g e = (SUCCESS, g') /\
                crash_image ops (<[o.1 := f']> frames, DiskLog (c + 1) (es ++ [e])) (<[o.1 := g']> img))
        as (g & g' & Hg & Hrg & Hci).
      { destruct (Himg o.1) as [[|k] Hk].
        - exists f, f'. rewrite Hk. do 2 (split; [done|]). intros pn.
          destruct (decide (o.1 = pn)) as [<-|Hne]; [exists 0%nat; rewrite run_take_0; cbn [fst]; by rewrite !lookup_insert_eq|].
          rewrite lookup_insert_ne by done. destruct (Himg pn) as [[|k'] Hk'].
          + exists 0%nat. rewrite Hk', !run_take_0. cbn [fst]. by rewrite lookup_insert_ne.
          + exists k'. by rewrite Hk', Hshift.
        - rewrite Hshift in Hk.
          destruct (run_lsn_mono (take k ops) (<[o.1 := f']> frames) (c + 1) (es ++ [e]) o.1 f' Hb')
            as (g & Hg & Hle); [apply lookup_insert_eq|].
          exists g, g. rewrite Hk. split; [done|]. split.
          { unfold replay_frame. destruct (Z.leb_spec e.(lr_lsn) g.(lsn)); [done|lia]. }
          intros pn. destruct (decide (o.1 = pn)) as [<-|Hne];
            [exists k; by rewrite lookup_insert_eq|].
          rewrite lookup_insert_ne by done. destruct (Himg pn) as [[|k'] Hk'].
          + exists 0%nat. rewrite Hk', !run_take_0. cbn [fst]. by rewrite lookup_insert_ne.
          + exists k'. by rewrite Hk', Hshift. }
      destruct (IH _ _ _ _ Hb' Hci) as (c' & new & frames' & Hrun & Hrep).
      exists c', (e :: new), frames'. rewrite Hrun. split; [by rewrite <- app_assoc|].
      cbn [replay_all]. unfold replay. rewrite He, Hg, Hrg. cbn. done.
Qed.

(** ** The properties *)

(** C4: Redo: take any history of logged page operations, any number of pages, and a
    crash that leaves every page as it was after some prefix of the history (each page
    its own prefix).  Replaying the log entries of the history over that image succeeds
    and gives back exactly the pages, contents and LSNs, of the state before the
    crash. *)
Theorem redo_restores ops frames c es img : lsns_below frames c ->
  crash_image ops (frames, DiskLog c es) img ->
  exists c' new frames',
    run ops (frames, DiskLog c es) = (frames', DiskLog c' (es ++ new)) /\
    replay_all img new = (SUCCESS, frames').
Proof. apply redo_from. Qed.

Definition demo_page : RecPage := init_empty_page 4 0 (replicate 8180 0).
Definition demo_frames : gmap Z Frame := {[ 1 := mkFrame 0 demo_page ]}.
Definition demo_ops : list (Z * PageOp) :=
  [(1, OpInsert [1; 2; 3; 4]); (1, OpInsert [5; 6; 7; 8]); (1, OpDelete 0)].

Lemma redo_restores_witness :
  (run demo_ops (demo_frames, DiskLog 0 [])).2 =
    DiskLog 3 [mkLogRec 1 1 (INSERT 0 [1; 2; 3; 4]); mkLogRec 2 1 (INSERT 1 [5; 6; 7; 8]);
               mkLogRec 3 1 (DELETE 0)] /\
  exists c' new frames',
    run demo_ops (demo_frames, DiskLog 0 []) = (frames', DiskLog c' ([] ++ new)) /\
    replay_all demo_frames new = (SUCCESS, frames').
Proof.
  split; [vm_compute; reflexivity|].
  apply (redo_restores demo_ops demo_frames 0 [] demo_frames).
  - split; [lia|]. intros pn f H. unfold demo_frames in H. apply lookup_singleton_Some in H as [_ <-]. cbn. lia.
  - intros pn. exists 0%nat. reflexivity.
Defined.
