(* ===== verification/MvccTrx.v ===== *)
(** * MvccTrx: multi-version transactions

    Models [src/src/observer/storage/trx/mvcc_trx.cpp].  Every row carries two
    hidden integer fields, [__trx_xid_begin] and [__trx_xid_end]; a negative value
    marks an uncommitted insert or delete by the transaction with that id.

    The tables of the database are one finite map from row locations (table id,
    page number, slot number) to rows, which is what the record manager implements
    ([RecordPage.page_map]).  An [ASSERT] that fails stops the server; a function
    that asserts returns [None] in that case. *)

From S2P Require Import Prelude.

(** Where a row lives: table id, page number, slot number. *)
Definition Key : Type := Z * (Z * Z).

(** A row: the two transaction fields and the user's data. *)
Record Row := mkRow { begin_xid : Z; end_xid : Z; user_data : list Z }.

Definition set_begin (r : Row) (x : Z) : Row := mkRow x r.(end_xid) r.(user_data).
Definition set_end (r : Row) (x : Z) : Row := mkRow r.(begin_xid) x r.(user_data).

Inductive ReadWriteMode := READ_ONLY | READ_WRITE.

(** [class Operation] *)
Inductive OpType := OP_INSERT | OP_DELETE.
Record Operation := mkOperation { op_type : OpType; op_key : Key }.

#[export] Instance OpType_eq_dec : EqDecision OpType.
Proof. solve_decision. Defined.
#[export] Instance Operation_eq_dec : EqDecision Operation.
Proof. solve_decision. Defined.

(** [class MvccTrx] *)
Record MvccTrx := mkTrx {
  trx_id : Z;
  started : bool;
  recovering : bool;
  operations : list Operation
}.

Definition push_op (t : MvccTrx) (o : Operation) : MvccTrx :=
  mkTrx t.(trx_id) t.(started) t.(recovering) (t.(operations) ++ [o]).

(** [class MvccTrxKit]: the id counter.  [++current_trx_id_] is an [int32_t]. *)
Definition next_trx_id (current : Z) : Z := int32 (current + 1).
Definition max_trx_id : Z := INT32_MAX.

(** [MvccTrx::visit_record] *)
Definition visit_record (t : MvccTrx) (r : Row) (mode : ReadWriteMode) : RC :=
  let b := r.(begin_xid) in
  let e := r.(end_xid) in
  if (0 <? b) && (0 <? e) then
    if (b <=? t.(trx_id)) && (t.(trx_id) <=? e) then SUCCESS else RECORD_INVISIBLE
  else if b <? 0 then
    if - b =? t.(trx_id) then SUCCESS else RECORD_INVISIBLE
  else if e <? 0 then
    match mode with
    | READ_ONLY => if negb (- e =? t.(trx_id)) then SUCCESS else RECORD_INVISIBLE
    | READ_WRITE =>
        if negb (- e =? t.(trx_id)) then LOCKED_CONCURRENCY_CONFLICT else RECORD_INVISIBLE
    end
  else SUCCESS.

(** [Table::visit_record]: run the updater on a copy of the row and store the copy
    if it says so. *)
Definition table_visit (rows : gmap Key Row) (k : Key) (updater : Row -> bool * Row)
    : RC * gmap Key Row :=
  match rows !! k with
  | None => (RECORD_NOT_EXIST, rows)
  | Some r => let '(updated, r') := updater r in (SUCCESS, if updated then <[k := r']> rows else rows)
  end.

(** [MvccTrx::insert_record].  The table picks the location ([inl rc]: it fails with
    [rc]; [inr k]: the free location [k]). *)
Definition insert_record (t : MvccTrx) (rows : gmap Key Row) (user : list Z) (slot : RC + Key)
    : RC * MvccTrx * gmap Key Row :=
  let record := mkRow (- t.(trx_id)) max_trx_id user in
  match slot with
  | inl rc => (rc, t, rows)
  | inr k => (SUCCESS, push_op t (mkOperation OP_INSERT k), <[k := record]> rows)
  end.

(** [MvccTrx::delete_record] *)
Definition delete_record (t : MvccTrx) (rows : gmap Key Row) (k : Key)
    : RC * MvccTrx * gmap Key Row :=
  match rows !! k with
  | None => (RECORD_NOT_EXIST, t, rows)
  | Some r =>
      let delete_result := visit_record t r READ_WRITE in
      let '(rc, rows') :=
        table_visit rows k (fun r =>
          if OB_FAIL (visit_record t r READ_WRITE) then (false, r)
          else (true, set_end r (- t.(trx_id)))) in
      if OB_FAIL rc then (rc, t, rows')
      else if OB_FAIL delete_result then (delete_result, t, rows')
      else (SUCCESS, push_op t (mkOperation OP_DELETE k), rows')
  end.

(** [MvccTrx::start_if_need]: the new transaction and the new counter. *)
Definition start_if_need (t : MvccTrx) (current : Z) : option (MvccTrx * Z) :=
  if t.(started) then Some (t, current)
  else match t.(operations) with
       | [] => let id := next_trx_id current in Some (mkTrx id true t.(recovering) [], id)
       | _ => None
       end.

(** The updater of one operation in [MvccTrx::commit_with_trx_id]; [None] is a
    failed [ASSERT]. *)
Definition commit_op (t : MvccTrx) (commit_xid : Z) (rows : gmap Key Row) (o : Operation)
    : option (gmap Key Row) :=
  match rows !! o.(op_key) with
  | None => None
  | Some r =>
      match o.(op_type) with
      | OP_INSERT =>
          if (r.(begin_xid) =? - t.(trx_id)) && negb t.(recovering)
          then Some (<[o.(op_key) := set_begin r commit_xid]> rows) else None
      | OP_DELETE =>
          if r.(end_xid) =? - t.(trx_id)
          then Some (<[o.(op_key) := set_end r commit_xid]> rows) else None
      end
  end.

Fixpoint commit_ops (t : MvccTrx) (commit_xid : Z) (rows : gmap Key Row) (ops : list Operation)
    : option (gmap Key Row) :=
  match ops with
  | [] => Some rows
  | o :: ops' => rows' ← commit_op t commit_xid rows o; commit_ops t commit_xid rows' ops'
  end.

(** [MvccTrx::commit_with_trx_id]: the operations in order, then the list is
    cleared. *)
Definition commit_with_trx_id (t : MvccTrx) (rows : gmap Key Row) (commit_xid : Z)
    : option (MvccTrx * gmap Key Row) :=
  rows' ← commit_ops t commit_xid rows t.(operations);
  Some (mkTrx t.(trx_id) false t.(recovering) [], rows').

(** [MvccTrx::commit] *)
Definition commit (t : MvccTrx) (rows : gmap Key Row) (current : Z)
    : option (MvccTrx * gmap Key Row * Z) :=
  let commit_id := next_trx_id current in
  '(t', rows') ← commit_with_trx_id t rows commit_id;
  Some (t', rows', commit_id).

(** One operation of [MvccTrx::rollback]. *)
Definition rollback_op (t : MvccTrx) (rows : gmap Key Row) (o : Operation) : option (gmap Key Row) :=
  match o.(op_type) with
  | OP_INSERT =>
      match rows !! o.(op_key) with
      | Some r =>
          if t.(recovering) && negb (r.(begin_xid) =? - t.(trx_id)) then Some rows
          else Some (delete o.(op_key) rows)
      | None => if t.(recovering) then Some rows else None
      end
  | OP_DELETE =>
      match rows !! o.(op_key) with
      | None => None
      | Some r =>
          if t.(recovering) && negb (r.(end_xid) =? - t.(trx_id)) then Some rows
          else if r.(end_xid) =? - t.(trx_id)
          then Some (<[o.(op_key) := set_end r max_trx_id]> rows) else None
      end
  end.

Fixpoint rollback_ops (t : MvccTrx) (rows : gmap Key Row) (ops : list Operation)
    : option (gmap Key Row) :=
  match ops with
  | [] => Some rows
  | o :: ops' => rows' ← rollback_op t rows o; rollback_ops t rows' ops'
  end.

(** [MvccTrx::rollback]: the operations in reverse order. *)
Definition rollback (t : MvccTrx) (rows : gmap Key Row) : option (MvccTrx * gmap Key Row) :=
  rows' ← rollback_ops t rows (rev t.(operations));
  Some (mkTrx t.(trx_id) false t.(recovering) [], rows').

(** [MvccTrx::redo] of one log entry: inserts and deletes are remembered, a commit
    or a rollback entry changes nothing. *)
Inductive TrxLogEntry := LOG_INSERT (k : Key) | LOG_DELETE (k : Key) | LOG_COMMIT | LOG_ROLLBACK.

Definition redo (t : MvccTrx) (has_table : Z -> bool) (e : TrxLogEntry) : RC * MvccTrx :=
  match e with
  | LOG_INSERT k =>
      if has_table k.1 then (SUCCESS, push_op t (mkOperation OP_INSERT k)) else (SCHEMA_TABLE_NOT_EXIST, t)
  | LOG_DELETE k =>
      if has_table k.1 then (SUCCESS, push_op t (mkOperation OP_DELETE k)) else (SCHEMA_TABLE_NOT_EXIST, t)
  | LOG_COMMIT | LOG_ROLLBACK => (SUCCESS, t)
  end.

(** ** What committing and rolling back do to every row *)

Abbreviation opI k := (mkOperation OP_INSERT k).
Abbreviation opD k := (mkOperation OP_DELETE k).

(** The row an operation was recorded for still carries its transaction's mark. *)
Definition pending (id : Z) (rows : gmap Key Row) (o : Operation) : Prop :=
  exists r, rows !! o.(op_key) = Some r /\
    match o.(op_type) with
    | OP_INSERT => r.(begin_xid) = - id
    | OP_DELETE => r.(end_xid) = - id
    end.

Definition commit_row (c : Z) (ops : list Operation) (k : Key) (r : Row) : Row :=
  mkRow (if bool_decide (opI k ∈ ops) then c else r.(begin_xid))
        (if bool_decide (opD k ∈ ops) then c else r.(end_xid)) r.(user_data).

Definition rollback_row (ops : list Operation) (k : Key) (r : Row) : option Row :=
  if bool_decide (opI k ∈ ops) then None
  else if bool_decide (opD k ∈ ops) then Some (set_end r max_trx_id) else Some r.

Lemma pending_other id rows k r o :
  rows !! k = Some r -> pending id rows o ->
  forall r', (o = opI k -> r'.(begin_xid) = r.(begin_xid)) ->
             (o = opD k -> r'.(end_xid) = r.(end_xid)) ->
  pending id (<[k := r']> rows) o.
Proof.
  intros Hk (r0 & Hr0 & H0) r' HI HD. destruct o as [[] k0]; cbn in *;
    (destruct (decide (k = k0)) as [->|Hne];
     [exists r'; rewrite lookup_insert_eq; simplify_eq; split; [done|]|
      exists r0; by rewrite lookup_insert_ne]).
  - by rewrite HI.
  - by rewrite HD.
Qed.

Section effects.
Context (t : MvccTrx) (Hrec : t.(recovering) = false).

(** A committed transaction has changed exactly the rows on its list. *)
Lemma commit_ops_effect c ops : forall rows rows', commit_ops t c rows ops = Some rows' ->
  forall k, rows' !! k = commit_row c ops k <$> rows !! k.
Proof using Hrec.
  induction ops as [|o ops IH]; intros rows rows' Hc k; cbn [commit_ops] in Hc.
  { simplify_eq. by destruct (rows' !! k) as [[]|]. }
  destruct (commit_op t c rows o) as [rows1|] eqn:E; [|done]. cbn in Hc.
  rewrite (IH _ _ Hc). unfold commit_op in E.
  destruct (rows !! o.(op_key)) as [r|] eqn:Hr; [|done].
  destruct o as [[] k0]; cbn [op_type op_key] in *; (case_match; [|done]); simplify_eq;
    (destruct (decide (k0 = k)) as [<-|Hne];
     [rewrite lookup_insert_eq, Hr|rewrite lookup_insert_ne by done; destruct (rows !! k); [|done]]);
    cbn; f_equal; unfold commit_row; cbn; f_equal; repeat case_bool_decide; set_solver.
Qed.

Lemma rollback_ops_effect l : forall rows rows', rollback_ops t rows l = Some rows' ->
  forall k, rows' !! k = rows !! k ≫= rollback_row l k.
Proof using Hrec.
  induction l as [|o l IH]; intros rows rows' Hc k; cbn [rollback_ops] in Hc.
  { simplify_eq. by destruct (rows' !! k) as [[]|]. }
  destruct (rollback_op t rows o) as [rows1|] eqn:E; [|done]. cbn in Hc.
  rewrite (IH _ _ Hc). unfold rollback_op in E. rewrite Hrec in E. cbn [andb] in E.
  destruct o as [[] k0]; cbn [op_type op_key] in *;
    (destruct (rows !! k0) as [r|] eqn:Hr; [|done]); [|case_match; [|done]]; simplify_eq;
    (destruct (decide (k0 = k)) as [<-|Hne];
     [rewrite ?lookup_delete_eq, ?lookup_insert_eq, Hr
     |rewrite ?lookup_delete_ne, ?lookup_insert_ne by done; destruct (rows !! k); [|done]]);
    cbn; unfold rollback_row; repeat case_bool_decide; try done; set_solver.
Qed.

(** [rollback] walks the list backwards. *)
Lemma rollback_all_effect rows rows' : rollback_ops t rows (rev t.(operations)) = Some rows' ->
  forall k, rows' !! k = rows !! k ≫= rollback_row t.(operations) k.
Proof using Hrec.
  intros E k. rewrite (rollback_ops_effect _ _ _ E). destruct (rows !! k); [|done]. cbn.
  unfold rollback_row. rewrite !(bool_decide_ext _ _ (elem_of_rev _ _)). done.
Qed.

(** No assertion fails when no operation is listed twice. *)
Lemma commit_ops_total c ops : forall rows, NoDup ops -> Forall (pending t.(trx_id) rows) ops ->
  is_Some (commit_ops t c rows ops).
Proof using Hrec.
  induction ops as [|o ops IH]; intros rows Hnd Hp; [by eexists|].
  apply NoDup_cons in Hnd as [Hni Hnd]. apply Forall_cons in Hp as [(r & Hr & Hm) Hp].
  assert (commit_op t c rows o =
    Some (<[o.(op_key) := match o.(op_type) with OP_INSERT => set_begin r c | OP_DELETE => set_end r c end]> rows))
    as Hc.
  { unfold commit_op. rewrite Hr, Hrec. destruct o as [[] k]; cbn in *; by rewrite Hm, Z.eqb_refl. }
  cbn [commit_ops]. rewrite Hc. bind_step. apply IH; [done|].
  apply Forall_forall. intros o' Ho'. eapply Forall_forall in Hp; [|exact Ho'].
  eapply pending_other; [done|done|..]; intros ->; destruct o as [[] k]; cbn in *; done.
Qed.

(** An insert is undone only after every delete of the same row. *)
Definition undo_ordered (l : list Operation) : Prop :=
  forall l1 k l2, l = l1 ++ opI k :: l2 -> opD k ∉ l2.

Lemma rollback_ops_total l : forall rows, NoDup l -> undo_ordered l ->
  Forall (pending t.(trx_id) rows) l -> is_Some (rollback_ops t rows l).
Proof using Hrec.
  induction l as [|o l IH]; intros rows Hnd Hord Hp; [by eexists|].
  apply NoDup_cons in Hnd as [Hni Hnd]. apply Forall_cons in Hp as [(r & Hr & Hm) Hp].
  assert (undo_ordered l) as Hord' by (intros l1 k l2 ->; by apply (Hord (o :: l1) k l2)).
  cbn [rollback_ops]. unfold rollback_op at 1. rewrite Hr, Hrec.
  destruct o as [[] k0]; cbn [op_type op_key andb] in *.
  - apply IH; [done|done|].
    assert (opD k0 ∉ l) as HnD by (by apply (Hord [] k0 l)).
    apply Forall_forall. intros o' Ho'. eapply Forall_forall in Hp as (r' & Hr' & Hm'); [|exact Ho'].
    assert (k0 <> o'.(op_key)) by (destruct o' as [[] k']; cbn; congruence).
    exists r'. by rewrite lookup_delete_ne.
  - rewrite Hm, Z.eqb_refl. apply IH; [done|done|].
    apply Forall_forall. intros o' Ho'. eapply Forall_forall in Hp; [|exact Ho'].
    eapply pending_other; [done|done|..]; intros ->; done.
Qed.
End effects.

(** ** The system: sessions sharing the tables and the id counter *)

Record Sys := mkSys {
  current_trx_id : Z;
  rows : gmap Key Row;
  trxs : gmap Z MvccTrx   (* one transaction object per session *)
}.

(** One action of session [s].  The counter is assumed not to reach the value used
    as the end of a live row. *)
Inductive sys_step (s : Z) : Sys -> Sys -> Prop :=
| step_start sys t t' cur' :
    sys.(trxs) !! s = Some t -> sys.(current_trx_id) + 1 < max_trx_id ->
    start_if_need t sys.(current_trx_id) = Some (t', cur') ->
    sys_step s sys (mkSys cur' sys.(rows) (<[s := t']> sys.(trxs)))
| step_insert sys t user slot rc t' rows' :
    sys.(trxs) !! s = Some t -> t.(started) = true ->
    (forall k, slot = inr k -> sys.(rows) !! k = None) ->
    insert_record t sys.(rows) user slot = (rc, t', rows') ->
    sys_step s sys (mkSys sys.(current_trx_id) rows' (<[s := t']> sys.(trxs)))
| step_delete sys t k rc t' rows' :
    sys.(trxs) !! s = Some t -> t.(started) = true ->
    delete_record t sys.(rows) k = (rc, t', rows') ->
    sys_step s sys (mkSys sys.(current_trx_id) rows' (<[s := t']> sys.(trxs)))
| step_commit sys t t' rows' cur' :
    sys.(trxs) !! s = Some t -> t.(started) = true ->
    sys.(current_trx_id) + 1 < max_trx_id ->
    commit t sys.(rows) sys.(current_trx_id) = Some (t', rows', cur') ->
    sys_step s sys (mkSys cur' rows' (<[s := t']> sys.(trxs)))
| step_rollback sys t t' rows' :
    sys.(trxs) !! s = Some t -> t.(started) = true ->
    rollback t sys.(rows) = Some (t', rows') ->
    sys_step s sys (mkSys sys.(current_trx_id) rows' (<[s := t']> sys.(trxs))).

(** The transaction fields of a stored row. *)
Definition row_ok (cur : Z) (r : Row) : Prop :=
  r.(begin_xid) <> 0 /\ r.(end_xid) <> 0 /\ r.(begin_xid) <= cur /\
  (r.(end_xid) <= cur \/ r.(end_xid) = max_trx_id) /\
  (r.(begin_xid) < 0 -> r.(end_xid) = max_trx_id \/ r.(end_xid) = r.(begin_xid)).

Record trx_ok (cur : Z) (rs : gmap Key Row) (t : MvccTrx) : Prop := {
  tk_rec : t.(recovering) = false;
  tk_idle : t.(started) = false -> t.(operations) = [];
  tk_id : t.(started) = true -> 0 < t.(trx_id) <= cur;
  tk_pending : Forall (pending t.(trx_id) rs) t.(operations);
  tk_order : undo_ordered (rev t.(operations))
}.

(** The system invariant.  Every mark on a row belongs to a running transaction
    that has the matching operation on its list. *)
Record sys_ok (sys : Sys) : Prop := {
  so_cur : 0 <= sys.(current_trx_id) < max_trx_id;
  so_rows : forall k r, sys.(rows) !! k = Some r -> row_ok sys.(current_trx_id) r;
  so_trx : forall s t, sys.(trxs) !! s = Some t -> trx_ok sys.(current_trx_id) sys.(rows) t;
  so_uniq : forall s1 s2 t1 t2, sys.(trxs) !! s1 = Some t1 -> sys.(trxs) !! s2 = Some t2 ->
    t1.(started) = true -> t2.(started) = true -> t1.(trx_id) = t2.(trx_id) -> s1 = s2;
  so_begin : forall k r, sys.(rows) !! k = Some r -> r.(begin_xid) < 0 ->
    exists s t, sys.(trxs) !! s = Some t /\ t.(started) = true /\
      t.(trx_id) = - r.(begin_xid) /\ opI k ∈ t.(operations);
  so_end : forall k r, sys.(rows) !! k = Some r -> r.(end_xid) < 0 ->
    exists s t, sys.(trxs) !! s = Some t /\ t.(started) = true /\
      t.(trx_id) = - r.(end_xid) /\ opD k ∈ t.(operations)
}.

(** *** Rows marked by one transaction are not touched by another *)

Section sys_ok.
Context (sys : Sys) (Hok : sys_ok sys).

Lemma op_started s t o : sys.(trxs) !! s = Some t -> o ∈ t.(operations) -> t.(started) = true.
Proof using Hok.
  intros Ht Ho. destruct (started t) eqn:E; [done|].
  rewrite (tk_idle _ _ _ (so_trx _ Hok _ _ Ht) E) in Ho. set_solver.
Qed.

Lemma op_pending s t o : sys.(trxs) !! s = Some t -> o ∈ t.(operations) ->
  pending t.(trx_id) sys.(rows) o.
Proof using Hok.
  intros Ht Ho. pose proof (tk_pending _ _ _ (so_trx _ Hok _ _ Ht)) as Hp.
  by eapply Forall_forall in Hp.
Qed.

(** The id of the transaction that has an operation on a row is on the row. *)
Lemma op_mark s t o r : sys.(trxs) !! s = Some t -> o ∈ t.(operations) ->
  sys.(rows) !! o.(op_key) = Some r ->
  r.(begin_xid) = - t.(trx_id) \/ 0 < r.(begin_xid) /\ r.(end_xid) = - t.(trx_id).
Proof using Hok.
  intros Ht Ho Hr. destruct (op_pending s t o Ht Ho) as (r' & Hr' & Hm). simplify_eq.
  pose proof (tk_id _ _ _ (so_trx _ Hok _ _ Ht) (op_started _ _ _ Ht Ho)) as Hid.
  destruct (so_rows _ Hok _ _ Hr) as (H0 & H1 & _ & _ & Hbe).
  destruct (op_type o); [by left|].
  destruct (Z.lt_ge_cases (begin_xid r) 0) as [Hb|Hb]; [|right; lia].
  left. destruct (Hbe Hb) as [E|E]; [|lia]. unfold max_trx_id, INT32_MAX in E. lia.
Qed.

Lemma keys_disjoint s s' t t' o o' :
  sys.(trxs) !! s = Some t -> sys.(trxs) !! s' = Some t' ->
  o ∈ t.(operations) -> o' ∈ t'.(operations) -> o.(op_key) = o'.(op_key) -> s = s'.
Proof using Hok.
  intros Ht Ht' Ho Ho' Hk.
  destruct (op_pending s t o Ht Ho) as (r & Hr & _).
  pose proof (op_mark s t o r Ht Ho Hr) as M. rewrite Hk in Hr.
  pose proof (op_mark s' t' o' r Ht' Ho' Hr) as M'.
  pose proof (tk_id _ _ _ (so_trx _ Hok _ _ Ht) (op_started _ _ _ Ht Ho)).
  pose proof (tk_id _ _ _ (so_trx _ Hok _ _ Ht') (op_started _ _ _ Ht' Ho')).
  eapply (so_uniq _ Hok); [exact Ht|exact Ht'|by eapply op_started|by eapply op_started|lia].
Qed.

(** A row that a transaction may delete is not marked by anyone else. *)
Lemma deletable_free s t s' t' o' r :
  sys.(trxs) !! s = Some t -> t.(started) = true ->
  sys.(rows) !! o'.(op_key) = Some r -> visit_record t r READ_WRITE = SUCCESS ->
  sys.(trxs) !! s' = Some t' -> o' ∈ t'.(operations) -> s' = s.
Proof using Hok.
  intros Ht Hst Hr Hv Ht' Ho'.
  pose proof (op_mark s' t' o' r Ht' Ho' Hr) as M.
  pose proof (tk_id _ _ _ (so_trx _ Hok _ _ Ht) Hst).
  pose proof (tk_id _ _ _ (so_trx _ Hok _ _ Ht') (op_started _ _ _ Ht' Ho')).
  eapply (so_uniq _ Hok); [exact Ht'|exact Ht|by eapply op_started|done|].
  unfold visit_record in Hv.
  destruct (Z.ltb_spec 0 r.(begin_xid)), (Z.ltb_spec 0 r.(end_xid)), (Z.ltb_spec r.(begin_xid) 0),
    (Z.ltb_spec r.(end_xid) 0); cbn in Hv; try lia;
    repeat (case_match; try done); lia.
Qed.
End sys_ok.

(** *** Every step preserves the invariant *)

Lemma undo_ordered_cons o l : undo_ordered l -> (forall k, o = opI k -> opD k ∉ l) ->
  undo_ordered (o :: l).
Proof.
  intros Hl Ho [|o1 l1] k l2 E; simplify_eq/=; [by apply Ho|]. by apply (Hl l1).
Qed.

Lemma row_ok_mono cur cur' r : cur <= cur' -> row_ok cur r -> row_ok cur' r.
Proof. unfold row_ok. intuition lia. Qed.

Section preservation.
Context (sys : Sys) (Hok : sys_ok sys) (s : Z) (t : MvccTrx) (Ht : sys.(trxs) !! s = Some t).

(** The shape of all five steps: session [s] goes from [t] to [t'], the rows from
    [rows sys] to [rows'], the counter from [current_trx_id sys] to [cur']. *)
Lemma sys_ok_update t' rows' cur' :
  sys.(current_trx_id) <= cur' < max_trx_id ->
  (forall k r, rows' !! k = Some r -> row_ok cur' r) ->
  trx_ok cur' rows' t' ->
  (t'.(started) = true ->
     t.(started) = true /\ t'.(trx_id) = t.(trx_id) \/ sys.(current_trx_id) < t'.(trx_id)) ->
  (forall s' t0 o, s' <> s -> sys.(trxs) !! s' = Some t0 -> o ∈ t0.(operations) ->
     rows' !! o.(op_key) = sys.(rows) !! o.(op_key)) ->
  (forall k r, rows' !! k = Some r -> r.(begin_xid) < 0 ->
     t'.(started) = true /\ t'.(trx_id) = - r.(begin_xid) /\ opI k ∈ t'.(operations) \/
     exists r0, sys.(rows) !! k = Some r0 /\ r0.(begin_xid) = r.(begin_xid) /\ opI k ∉ t.(operations)) ->
  (forall k r, rows' !! k = Some r -> r.(end_xid) < 0 ->
     t'.(started) = true /\ t'.(trx_id) = - r.(end_xid) /\ opD k ∈ t'.(operations) \/
     exists r0, sys.(rows) !! k = Some r0 /\ r0.(end_xid) = r.(end_xid) /\ opD k ∉ t.(operations)) ->
  sys_ok (mkSys cur' rows' (<[s := t']> sys.(trxs))).
Proof using Hok Ht.
  intros Hcur Hrows Ht' Hid Hother Hbegin Hend.
  pose proof (so_cur _ Hok) as Hc0.
  split; cbn [current_trx_id rows trxs]; [lia|done|..].
  - intros s1 t1. rewrite lookup_insert. case_decide as E; [by intros [= <-]|]. intros H1.
    destruct (so_trx _ Hok _ _ H1) as [R1 R2 R3 R4 R5]. split; [done|done|..|done].
    + intros Hst. specialize (R3 Hst). lia.
    + apply Forall_forall. intros o Ho. eapply Forall_forall in R4 as (r & Hr & Hm); [|exact Ho].
      exists r. split; [|done]. by rewrite (Hother s1 t1 o) by done.
  - intros s1 s2 t1 t2. rewrite !lookup_insert.
    destruct (decide (s = s1)) as [<-|E1], (decide (s = s2)) as [<-|E2]; [done|..];
      intros H1 H2 S1 S2 E; simplify_eq.
    + pose proof (tk_id _ _ _ (so_trx _ Hok _ _ H2) S2). destruct (Hid S1) as [[??]|]; [|lia].
      eapply (so_uniq _ Hok); [exact Ht|exact H2|done|done|congruence].
    + pose proof (tk_id _ _ _ (so_trx _ Hok _ _ H1) S1). destruct (Hid S2) as [[??]|]; [|lia].
      eapply (so_uniq _ Hok); [exact H1|exact Ht|done|done|congruence].
    + by eapply (so_uniq _ Hok).
  - intros k r Hr Hb. destruct (Hbegin k r Hr Hb) as [(A & B & C)|(r0 & H0 & E0 & Hn)].
    + exists s, t'. by rewrite lookup_insert_eq.
    + destruct (so_begin _ Hok k r0 H0 ltac:(lia)) as (s0 & t0 & A & B & C & D).
      exists s0, t0. rewrite lookup_insert_ne by (intros ->; simplify_eq; done). rewrite <- E0. done.
  - intros k r Hr Hb. destruct (Hend k r Hr Hb) as [(A & B & C)|(r0 & H0 & E0 & Hn)].
    + exists s, t'. by rewrite lookup_insert_eq.
    + destruct (so_end _ Hok k r0 H0 ltac:(lia)) as (s0 & t0 & A & B & C & D).
      exists s0, t0. rewrite lookup_insert_ne by (intros ->; simplify_eq; done). rewrite <- E0. done.
Qed.

Lemma next_trx_id_succ : sys.(current_trx_id) + 1 < max_trx_id ->
  next_trx_id sys.(current_trx_id) = sys.(current_trx_id) + 1.
Proof using Hok.
  intros H. pose proof (so_cur _ Hok). unfold next_trx_id. apply int32_id.
  unfold in_int32, INT32_MIN, max_trx_id in *. lia.
Qed.

(** The marks of a row that the step leaves alone. *)
Lemma own_begin k r : sys.(rows) !! k = Some r -> opI k ∈ t.(operations) -> t.(trx_id) = - r.(begin_xid).
Proof using Hok Ht.
  intros Hr Ho. destruct (op_pending sys Hok s t _ Ht Ho) as (r' & Hr' & Hm). cbn in *.
  simplify_eq. lia.
Qed.

Lemma own_end k r : sys.(rows) !! k = Some r -> opD k ∈ t.(operations) -> t.(trx_id) = - r.(end_xid).
Proof using Hok Ht.
  intros Hr Ho. destruct (op_pending sys Hok s t _ Ht Ho) as (r' & Hr' & Hm). cbn in *.
  simplify_eq. lia.
Qed.

Lemma start_ok t' cur' : sys.(current_trx_id) + 1 < max_trx_id ->
  start_if_need t sys.(current_trx_id) = Some (t', cur') ->
  sys_ok (mkSys cur' sys.(rows) (<[s := t']> sys.(trxs))).
Proof using Hok Ht.
  intros Hw. unfold start_if_need. pose proof (so_cur _ Hok). pose proof (so_trx _ Hok _ _ Ht) as Hto.
  destruct (started t) eqn:Hst.
  - intros [= <- <-]. rewrite insert_id by done. by destruct sys.
  - rewrite (tk_idle _ _ _ Hto Hst). intros [= <- <-]. rewrite next_trx_id_succ by done.
    assert (t.(operations) = []) as Hnil by by apply (tk_idle _ _ _ Hto).
    apply sys_ok_update; cbn.
    + lia.
    + intros k r Hr. eapply row_ok_mono; [|by eapply so_rows]. lia.
    + split; cbn; [by apply (tk_rec _ _ _ Hto)|done|lia|constructor|]. intros [] ???; done.
    + right. lia.
    + done.
    + intros k r Hr Hb. right. exists r. rewrite Hnil. set_solver.
    + intros k r Hr Hb. right. exists r. rewrite Hnil. set_solver.
Qed.

Lemma push_op_ok o rows' : t.(started) = true ->
  trx_ok sys.(current_trx_id) rows' t -> pending t.(trx_id) rows' o ->
  (forall k, o = opI k -> opD k ∉ t.(operations)) ->
  trx_ok sys.(current_trx_id) rows' (push_op t o).
Proof using Type.
  intros Hst [R1 R2 R3 R4 R5] Hp Ho. split; cbn; [done|by rewrite Hst|done|..].
  - apply Forall_app. auto.
  - rewrite rev_app_distr. cbn. apply undo_ordered_cons; [done|]. intros k E.
    rewrite elem_of_rev. by apply Ho.
Qed.

Lemma trx_ok_rows rows' : trx_ok sys.(current_trx_id) sys.(rows) t ->
  (forall o, o ∈ t.(operations) -> pending t.(trx_id) sys.(rows) o -> pending t.(trx_id) rows' o) ->
  trx_ok sys.(current_trx_id) rows' t.
Proof using Type.
  intros [R1 R2 R3 R4 R5] Hr. split; try done.
  apply Forall_forall. intros o Ho. apply Hr; [done|]. by eapply Forall_forall in R4.
Qed.

Lemma insert_ok user slot rc t' rows' : t.(started) = true ->
  (forall k, slot = inr k -> sys.(rows) !! k = None) ->
  insert_record t sys.(rows) user slot = (rc, t', rows') ->
  sys_ok (mkSys sys.(current_trx_id) rows' (<[s := t']> sys.(trxs))).
Proof using Hok Ht.
  intros Hst Hfree. pose proof (so_cur _ Hok) as Hc. pose proof (so_trx _ Hok _ _ Ht) as Hto.
  pose proof (tk_id _ _ _ Hto Hst) as Hid.
  destruct slot as [e|k]; cbn; intros [= <- <- <-]; [rewrite insert_id by done; by destruct sys|].
  specialize (Hfree k eq_refl).
  assert (forall s' t0 o, sys.(trxs) !! s' = Some t0 -> o ∈ t0.(operations) -> k <> o.(op_key)) as Hne.
  { intros s' t0 o H0 Ho ->. destruct (op_pending sys Hok s' t0 o H0 Ho) as (r & Hr & _). congruence. }
  apply sys_ok_update; cbn [started trx_id push_op operations]; [lia|..].
  - intros k0 r. rewrite lookup_insert. case_decide; [|by apply (so_rows _ Hok)].
    intros [= <-]. unfold row_ok, max_trx_id, INT32_MAX in *. cbn. lia.
  - apply push_op_ok; [done|apply trx_ok_rows; [done|]|..].
    + intros o Ho (r & Hr & Hm). exists r. split; [|done].
      rewrite lookup_insert_ne by (by eapply Hne). done.
    + eexists. cbn. rewrite lookup_insert_eq. split; [done|done].
    + intros k0 [= <-] Hd. by apply (Hne s t _ Ht Hd).
  - by left.
  - intros s' t0 o _ H0 Ho. rewrite lookup_insert_ne by (by eapply Hne). done.
  - intros k0 r. rewrite lookup_insert. case_decide as E; [intros [= <-]; subst; cbn; intros; left|].
    + split; [done|]. split; [lia|set_solver].
    + intros Hr Hb. destruct (decide (opI k0 ∈ t.(operations))) as [Hi|Hi]; [left|right; by exists r].
      split; [done|]. split; [by apply (own_begin k0)|set_solver].
  - intros k0 r. rewrite lookup_insert. case_decide as E; [intros [= <-]; cbn; unfold max_trx_id, INT32_MAX; lia|].
    intros Hr Hb. destruct (decide (opD k0 ∈ t.(operations))) as [Hi|Hi]; [left|right; by exists r].
    split; [done|]. split; [by apply (own_end k0)|set_solver].
Qed.

(** What a successful delete does; a refused one changes nothing. *)
Lemma delete_record_cases k rc t' rows' : delete_record t sys.(rows) k = (rc, t', rows') ->
  (t' = t /\ rows' = sys.(rows) /\ rc <> SUCCESS) \/
  exists r, sys.(rows) !! k = Some r /\ visit_record t r READ_WRITE = SUCCESS /\ rc = SUCCESS /\
    t' = push_op t (opD k) /\ rows' = <[k := set_end r (- t.(trx_id))]> sys.(rows).
Proof using Type.
  unfold delete_record, table_visit. destruct (sys.(rows) !! k) as [r|] eqn:Hr.
  - unfold OB_FAIL. destruct (decide (visit_record t r READ_WRITE = SUCCESS)) as [E|E].
    + rewrite E. cbn. intros [= <- <- <-]. right. exists r. done.
    + rewrite (bool_decide_true (_ <> SUCCESS)) by done. cbn. intros [= <- <- <-]. left. done.
  - intros [= <- <- <-]. by left.
Qed.

Lemma visit_rw_success r : visit_record t r READ_WRITE = SUCCESS -> 0 < t.(trx_id) ->
  row_ok sys.(current_trx_id) r ->
  r.(begin_xid) = - t.(trx_id) \/ 0 < r.(begin_xid) <= t.(trx_id) /\ t.(trx_id) <= r.(end_xid).
Proof using Type.
  intros Hv Hid (H0 & H1 & _). unfold visit_record in Hv.
  destruct (Z.ltb_spec 0 r.(begin_xid)), (Z.ltb_spec 0 r.(end_xid)), (Z.ltb_spec r.(begin_xid) 0),
    (Z.ltb_spec r.(end_xid) 0); cbn in Hv; try lia;
    repeat (case_match; try done); lia.
Qed.

Lemma delete_ok k rc t' rows' : t.(started) = true ->
  delete_record t sys.(rows) k = (rc, t', rows') ->
  sys_ok (mkSys sys.(current_trx_id) rows' (<[s := t']> sys.(trxs))).
Proof using Hok Ht.
  intros Hst Hd. pose proof (so_cur _ Hok) as Hc. pose proof (so_trx _ Hok _ _ Ht) as Hto.
  pose proof (tk_id _ _ _ Hto Hst) as Hid.
  destruct (delete_record_cases _ _ _ _ Hd) as [(-> & -> & _)|(r & Hr & Hv & -> & -> & ->)].
  { rewrite insert_id by done. by destruct sys. }
  pose proof (so_rows _ Hok _ _ Hr) as Hrow.
  destruct (visit_rw_success r Hv ltac:(lia) Hrow) as [Hb0|Hb0].
  all: apply sys_ok_update; cbn [started trx_id push_op operations]; [lia|..].
  all: try (intros k0 r0; rewrite lookup_insert; case_decide; [|by apply (so_rows _ Hok)];
    intros [= <-]; unfold row_ok, max_trx_id, INT32_MAX in *; cbn; lia).
  all: try (by left).
  all: try (intros s' t0 o Hs' H0 Ho; rewrite lookup_insert_ne; [done|]; intros ->; apply Hs';
    by eapply (deletable_free sys Hok s t s' t0 o r)).
  all: try (apply push_op_ok; [done|apply trx_ok_rows; [done|]|by eexists; rewrite lookup_insert_eq|done];
    intros o Ho (r1 & Hr1 & Hm); destruct (decide (k = o.(op_key))) as [->|];
    [rewrite Hr in Hr1; simplify_eq; eexists; rewrite lookup_insert_eq; split; [done|]; by destruct (op_type o)
    |exists r1; by rewrite lookup_insert_ne]).
  all: intros k0 r0; rewrite lookup_insert; case_decide as E;
    [intros [= <-]; subst k0; cbn; intros Hlt|intros Hr0 Hlt].
  all: try (left; split; [done|]; split; [lia|set_solver]).
  all: try (destruct (decide (opI k0 ∈ t.(operations))) as [Hi|Hi]; [left|right; by exists r0];
    split; [done|]; split; [by apply (own_begin k0)|set_solver]).
  all: try (destruct (decide (opD k0 ∈ t.(operations))) as [Hi|Hi]; [left|right; by exists r0];
    split; [done|]; split; [by apply (own_end k0)|set_solver]).
  all: destruct (decide (opI k ∈ t.(operations))) as [Hi|Hi]; [left|right; by exists r];
    split; [done|]; split; [lia|set_solver].
Qed.

Lemma idle_ok cur' rows' : trx_ok cur' rows' (mkTrx t.(trx_id) false t.(recovering) []).
Proof using Hok Ht.
  split; cbn; [by apply (tk_rec _ _ _ (so_trx _ Hok _ _ Ht))|done|done|constructor|]. by intros [] ???.
Qed.

(** A row of another session's operation is not on this transaction's list. *)
Lemma other_not_mine s' t0 o : s' <> s -> sys.(trxs) !! s' = Some t0 -> o ∈ t0.(operations) ->
  opI o.(op_key) ∉ t.(operations) /\ opD o.(op_key) ∉ t.(operations).
Proof using Hok Ht.
  intros Hs' H0 Ho. split; intros Hin; apply Hs'; symmetry;
    by eapply (keys_disjoint sys Hok s s' t t0 _ o Ht H0 Hin Ho).
Qed.

Lemma commit_ok t' rows' cur' : t.(started) = true -> sys.(current_trx_id) + 1 < max_trx_id ->
  commit t sys.(rows) sys.(current_trx_id) = Some (t', rows', cur') ->
  sys_ok (mkSys cur' rows' (<[s := t']> sys.(trxs))).
Proof using Hok Ht.
  intros Hst Hw. unfold commit, commit_with_trx_id. rewrite next_trx_id_succ by done.
  pose proof (so_cur _ Hok) as Hc. pose proof (so_trx _ Hok _ _ Ht) as Hto.
  destruct (commit_ops _ _ _ _) as [rs|] eqn:E; [|done]. cbn. intros [= <- <- <-].
  pose proof (commit_ops_effect t (tk_rec _ _ _ Hto) _ _ _ _ E) as Heff.
  apply sys_ok_update; cbn [started]; [lia|..|done| | |].
  - intros k r. rewrite Heff. destruct (sys.(rows) !! k) as [r0|] eqn:Hr0; [|done]. intros [= <-].
    destruct (so_rows _ Hok _ _ Hr0) as (R0 & R1 & R2 & R3 & R4).
    unfold row_ok, commit_row; cbn. split_and!; repeat case_bool_decide; try lia.
    intros Hb. specialize (R4 Hb). exfalso.
    assert (r0.(begin_xid) = - t.(trx_id)) as Eb.
    { pose proof (own_end k r0 Hr0 H0). unfold max_trx_id, INT32_MAX in *.
      pose proof (tk_id _ _ _ Hto Hst). lia. }
    destruct (so_begin _ Hok k r0 Hr0 Hb) as (s0 & t0 & A & B & C & D).
    assert (s0 = s) as -> by (eapply (so_uniq _ Hok); [exact A|exact Ht|done|done|lia]).
    simplify_eq.
  - apply idle_ok.
  - intros s' t0 o Hs' H0 Ho. rewrite Heff.
    destruct (other_not_mine s' t0 o Hs' H0 Ho) as [HI HD].
    destruct (sys.(rows) !! o.(op_key)) as [[]|]; [|done]. cbn. unfold commit_row.
    by rewrite !bool_decide_false by done.
  - intros k r. rewrite Heff. destruct (sys.(rows) !! k) as [r0|] eqn:Hr0; [|done]. intros [= <-].
    unfold commit_row. cbn. case_bool_decide; [lia|]. intros. right. by exists r0.
  - intros k r. rewrite Heff. destruct (sys.(rows) !! k) as [r0|] eqn:Hr0; [|done]. intros [= <-].
    unfold commit_row. cbn. case_bool_decide; [lia|]. intros. right. by exists r0.
Qed.

Lemma rollback_ok t' rows' : t.(started) = true ->
  rollback t sys.(rows) = Some (t', rows') ->
  sys_ok (mkSys sys.(current_trx_id) rows' (<[s := t']> sys.(trxs))).
Proof using Hok Ht.
  intros Hst. unfold rollback. pose proof (so_cur _ Hok) as Hc. pose proof (so_trx _ Hok _ _ Ht) as Hto.
  destruct (rollback_ops _ _ _) as [rs|] eqn:E; [|done]. cbn. intros [= <- <-].
  pose proof (rollback_all_effect t (tk_rec _ _ _ Hto) _ _ E) as Heff'.
  apply sys_ok_update; cbn [started]; [lia|..|done| | |].
  - intros k r. rewrite Heff'. destruct (sys.(rows) !! k) as [r0|] eqn:Hr0; [|done]. cbn.
    unfold rollback_row. case_bool_decide; [done|].
    destruct (so_rows _ Hok _ _ Hr0) as (R0 & R1 & R2 & R3 & R4).
    case_bool_decide; intros [= <-]; [|done]. unfold row_ok, set_end, max_trx_id, INT32_MAX; cbn. lia.
  - apply idle_ok.
  - intros s' t0 o Hs' H0 Ho. rewrite Heff'.
    destruct (other_not_mine s' t0 o Hs' H0 Ho) as [HI HD].
    destruct (sys.(rows) !! o.(op_key)) as [[]|]; [|done]. cbn. unfold rollback_row.
    by rewrite !bool_decide_false by done.
  - intros k r. rewrite Heff'. destruct (sys.(rows) !! k) as [r0|] eqn:Hr0; [|done]. cbn.
    unfold rollback_row. case_bool_decide; [done|]. case_bool_decide; intros [= <-]; right; by exists r0.
  - intros k r. rewrite Heff'. destruct (sys.(rows) !! k) as [r0|] eqn:Hr0; [|done]. cbn.
    unfold rollback_row. case_bool_decide; [done|]. case_bool_decide; intros [= <-]; cbn.
    + unfold max_trx_id, INT32_MAX. lia.
    + right. by exists r0.
Qed.
End preservation.

(** The initial system of sessions that have not started anything, over rows that
    are all committed. *)
Definition committed_row (cur : Z) (r : Row) : Prop :=
  0 < r.(begin_xid) <= cur /\ (0 < r.(end_xid) <= cur \/ r.(end_xid) = max_trx_id).

Definition sys_init (sys : Sys) : Prop :=
  0 <= sys.(current_trx_id) < max_trx_id /\
  (forall k r, sys.(rows) !! k = Some r -> committed_row sys.(current_trx_id) r) /\
  (forall s t, sys.(trxs) !! s = Some t -> t.(started) = false /\ t.(recovering) = false /\ t.(operations) = []).

Lemma sys_init_ok sys : sys_init sys -> sys_ok sys.
Proof.
  intros (Hc & Hr & Ht). split; [done|..].
  - intros k r Hk. apply Hr in Hk as [H1 H2]. unfold row_ok, max_trx_id, INT32_MAX in *. lia.
  - intros s t Hs. apply Ht in Hs as (S & R & O). split; rewrite ?O; try done; [by rewrite S|].
    by intros [] ???.
  - intros s1 s2 t1 t2 H1 _ S1. apply Ht in H1 as (S & _). congruence.
  - intros k r Hk Hb. apply Hr in Hk as [H1 H2]. lia.
  - intros k r Hk Hb. apply Hr in Hk as [H1 H2]. unfold max_trx_id, INT32_MAX in *. lia.
Qed.

Lemma sys_step_ok s sys sys' : sys_step s sys sys' -> sys_ok sys -> sys_ok sys'.
Proof.
  intros [ ? t t' cur' Ht Hw Hs | ? t user slot rc t' rows' Ht Hst Hf Hi | ? t k rc t' rows' Ht Hst Hd
         | ? t t' rows' cur' Ht Hst Hw Hc | ? t t' rows' Ht Hst Hr ] Hok.
  - by eapply start_ok.
  - by eapply insert_ok.
  - by eapply delete_ok.
  - by eapply commit_ok.
  - by eapply rollback_ok.
Qed.

(** Runs: any interleaving of the sessions' actions. *)
Inductive sys_run : Sys -> Sys -> Prop :=
| run_refl sys : sys_run sys sys
| run_step s sys1 sys2 sys3 : sys_run sys1 sys2 -> sys_step s sys2 sys3 -> sys_run sys1 sys3.

Lemma sys_run_ok sys sys' : sys_run sys sys' -> sys_ok sys -> sys_ok sys'.
Proof. induction 1; eauto using sys_step_ok. Qed.

(** ** Snapshots *)

(** The rows transaction [id] ought to see: its own live inserts, and the rows
    committed before it that neither it nor anyone committed before it deleted. *)
Definition in_snapshot (id : Z) (r : Row) : bool :=
  if r.(begin_xid) <? 0 then (r.(begin_xid) =? - id) && negb (r.(end_xid) =? - id)
  else (r.(begin_xid) <=? id) &&
       (if r.(end_xid) <? 0 then negb (r.(end_xid) =? - id) else id <=? r.(end_xid)).

Definition snapshot (id : Z) (rs : gmap Key Row) : gmap Key (list Z) :=
  omap (fun r => if in_snapshot id r then Some r.(user_data) else None) rs.

Lemma snapshot_lookup id rs k :
  snapshot id rs !! k = rs !! k ≫= fun r => if in_snapshot id r then Some r.(user_data) else None.
Proof. apply lookup_omap. Qed.

(** The two rows outside the snapshot that [visit_record] lets a reader see: its own
    insert that it has deleted itself, and a row committed after it that another
    transaction is deleting. *)
Definition read_anomaly (id : Z) (r : Row) : bool :=
  if r.(begin_xid) <? 0 then (r.(begin_xid) =? - id) && (r.(end_xid) =? - id)
  else (id <? r.(begin_xid)) && (r.(end_xid) <? 0) && negb (r.(end_xid) =? - id).

Ltac cases_ltb :=
  repeat (match goal with
  | |- context [?a <? ?b] => destruct (Z.ltb_spec a b)
  | |- context [?a <=? ?b] => destruct (Z.leb_spec a b)
  | |- context [?a =? ?b] => destruct (Z.eqb_spec a b)
  end; cbn [andb orb negb]; try done; try (exfalso; lia)).

Lemma visit_record_read t r cur : row_ok cur r -> 0 < t.(trx_id) ->
  OB_SUCC (visit_record t r READ_ONLY) = in_snapshot t.(trx_id) r || read_anomaly t.(trx_id) r.
Proof.
  intros (H0 & H1 & _) Hid. unfold visit_record, in_snapshot, read_anomaly.
  destruct t as [id ? ? ?], r as [b e ?]; cbn [trx_id begin_xid end_xid] in *. cases_ltb.
Qed.

(** Rows whose deletion has been committed stay as they are. *)
Definition dead_rows_untouched (rs rs' : gmap Key Row) : Prop :=
  forall k r, rs !! k = Some r -> 0 < r.(end_xid) < max_trx_id -> rs' !! k = Some r.

Section stability.
Context (sys : Sys) (Hok : sys_ok sys) (s0 s : Z) (t0 t : MvccTrx) (Hne : s0 <> s).
Context (H0 : sys.(trxs) !! s0 = Some t0) (Hst0 : t0.(started) = true).
Context (Ht : sys.(trxs) !! s = Some t) (Hst : t.(started) = true).

Lemma ids_differ : t.(trx_id) <> t0.(trx_id) /\ 0 < t.(trx_id) <= sys.(current_trx_id) /\
  0 < t0.(trx_id) <= sys.(current_trx_id).
Proof using Hok Hne H0 Hst0 Ht Hst.
  split_and!; try (eapply tk_id; [by eapply (so_trx _ Hok)|done]).
  intros E. apply Hne. by eapply (so_uniq _ Hok).
Qed.

(** A row with this transaction's mark: another transaction sees it exactly when it
    was committed early enough. *)
Lemma marked_row k r : sys.(rows) !! k = Some r -> opI k ∈ t.(operations) \/ opD k ∈ t.(operations) ->
  in_snapshot t0.(trx_id) r = (0 <? r.(begin_xid)) && (r.(begin_xid) <=? t0.(trx_id)) /\
  (opI k ∈ t.(operations) <-> r.(begin_xid) < 0).
Proof using Hok Hne H0 Hst0 Ht Hst.
  intros Hr Hop. destruct ids_differ as (Hd & Hi & Hi0).
  destruct (so_rows _ Hok _ _ Hr) as (R0 & R1 & R2 & R3 & R4).
  assert (opI k ∈ t.(operations) -> r.(begin_xid) = - t.(trx_id)) as HI.
  { intros Ho. pose proof (own_begin sys Hok s t Ht k r Hr Ho). lia. }
  assert (opD k ∈ t.(operations) -> r.(end_xid) = - t.(trx_id)) as HD.
  { intros Ho. pose proof (own_end sys Hok s t Ht k r Hr Ho). lia. }
  assert (r.(begin_xid) < 0 -> r.(begin_xid) = - t.(trx_id) /\ opI k ∈ t.(operations)) as HB.
  { intros Hb. destruct (so_begin _ Hok k r Hr Hb) as (s1 & t1 & A & B & C & D).
    assert (s1 = s) as ->; [|simplify_eq; split; [lia|done]].
    destruct Hop as [Ho|Ho]; by eapply (keys_disjoint sys Hok s1 s t1 t (opI k)). }
  split.
  - unfold in_snapshot. destruct Hop as [Ho|Ho]; [specialize (HI Ho)|specialize (HD Ho)]; cases_ltb.
  - split; [intros Ho; specialize (HI Ho); lia|]. intros Hb. by apply HB.
Qed.

Lemma commit_stable c rs : t0.(trx_id) < c ->
  commit_ops t c sys.(rows) t.(operations) = Some rs ->
  snapshot t0.(trx_id) rs = snapshot t0.(trx_id) sys.(rows).
Proof using Hok Hne H0 Hst0 Ht Hst.
  intros Hc E. pose proof (tk_rec _ _ _ (so_trx _ Hok _ _ Ht)) as Hrec.
  apply map_eq. intros k. rewrite !snapshot_lookup, (commit_ops_effect t Hrec _ _ _ _ E).
  destruct (sys.(rows) !! k) as [r|] eqn:Hr; [|done]. cbn.
  destruct (decide (opI k ∈ t.(operations) \/ opD k ∈ t.(operations))) as [Hop|Hop].
  - destruct (marked_row k r Hr Hop) as [-> Hb].
    enough (in_snapshot t0.(trx_id) (commit_row c t.(operations) k r) =
            (0 <? r.(begin_xid)) && (r.(begin_xid) <=? t0.(trx_id))) as -> by done.
    destruct ids_differ as (Hd & Hi & Hi0). destruct (so_rows _ Hok _ _ Hr) as (R0 & _).
    unfold commit_row, in_snapshot. cbn. destruct (Z.ltb_spec 0 r.(begin_xid)) as [Hp|Hp]; cbn [andb].
    + assert (opI k ∉ t.(operations)) as HI by (intros HI; apply Hb in HI; lia).
      assert (opD k ∈ t.(operations)) as HD by tauto. clear Hop Hb.
      rewrite bool_decide_false, bool_decide_true by done. cases_ltb.
    + assert (opI k ∈ t.(operations)) as HI by (apply Hb; lia). clear Hop Hb.
      rewrite bool_decide_true by done. cases_ltb.
  - unfold commit_row. rewrite !bool_decide_false by tauto. by destruct r.
Qed.

Lemma rollback_stable rs : rollback_ops t sys.(rows) (rev t.(operations)) = Some rs ->
  snapshot t0.(trx_id) rs = snapshot t0.(trx_id) sys.(rows).
Proof using Hok Hne H0 Hst0 Ht Hst.
  intros E. pose proof (tk_rec _ _ _ (so_trx _ Hok _ _ Ht)) as Hrec.
  apply map_eq. intros k. rewrite !snapshot_lookup, (rollback_all_effect t Hrec _ _ E).
  destruct (sys.(rows) !! k) as [r|] eqn:Hr; [|done]. cbn. unfold rollback_row.
  destruct (decide (opI k ∈ t.(operations) \/ opD k ∈ t.(operations))) as [Hop|Hop].
  - destruct (marked_row k r Hr Hop) as [-> Hb].
    destruct ids_differ as (Hd & Hi & Hi0). destruct (so_rows _ Hok _ _ Hr) as (R0 & _).
    case_bool_decide as HI; cbn.
    + destruct (Z.ltb_spec 0 r.(begin_xid)); [|done]. apply Hb in HI. lia.
    + rewrite bool_decide_true by tauto. cbn. unfold in_snapshot. cbn. unfold max_trx_id, INT32_MAX.
      pose proof (so_cur _ Hok) as Hc. unfold max_trx_id, INT32_MAX in Hc.
      destruct (Z.ltb_spec r.(begin_xid) 0) as [Hlt|]; [by apply Hb in Hlt|]. clear Hop Hb. cases_ltb.
  - by rewrite !bool_decide_false by tauto.
Qed.

Lemma delete_stable k rc t' rs : delete_record t sys.(rows) k = (rc, t', rs) ->
  dead_rows_untouched sys.(rows) rs ->
  snapshot t0.(trx_id) rs = snapshot t0.(trx_id) sys.(rows).
Proof using Hok Hne H0 Hst0 Ht Hst.
  intros Hd Hdead. destruct ids_differ as (Hdi & Hi & Hi0).
  destruct (delete_record_cases sys t _ _ _ _ Hd) as [(-> & -> & _)|(r & Hr & Hv & -> & -> & ->)]; [done|].
  apply map_eq. intros k'. rewrite !snapshot_lookup, lookup_insert. case_decide as E; [subst k'|done].
  rewrite Hr. cbn. pose proof (so_rows _ Hok _ _ Hr) as Hrow.
  destruct (visit_rw_success sys t r Hv ltac:(lia) Hrow) as [Hb|[Hb He]].
  - unfold in_snapshot. cbn. rewrite Hb. cases_ltb.
  - destruct Hrow as (_ & _ & _ & R3 & _). pose proof (so_cur _ Hok).
    destruct (decide (r.(end_xid) = max_trx_id)) as [Em|Em].
    + unfold in_snapshot. cbn. rewrite Em. unfold max_trx_id, INT32_MAX in *. cases_ltb.
    + specialize (Hdead k r Hr ltac:(lia)). rewrite lookup_insert_eq in Hdead.
      apply (f_equal (fmap end_xid)) in Hdead. cbn in Hdead. injection Hdead. lia.
Qed.
End stability.

Lemma step_snapshot_stable sys sys' s s0 t0 : sys_ok sys -> sys_step s sys sys' -> s0 <> s ->
  sys.(trxs) !! s0 = Some t0 -> t0.(started) = true ->
  dead_rows_untouched sys.(rows) sys'.(rows) ->
  snapshot t0.(trx_id) sys'.(rows) = snapshot t0.(trx_id) sys.(rows).
Proof.
  intros Hok Hstep Hne H0 Hst0 Hdead.
  destruct Hstep as [ ? t t' cur' Ht Hw Hs | ? t user slot rc t' rows' Ht Hst Hf Hi | ? t k rc t' rows' Ht Hst Hd
         | ? t t' rows' cur' Ht Hst Hw Hc | ? t t' rows' Ht Hst Hr ]; cbn [rows] in *.
  - done.
  - destruct slot as [e|k]; cbn in Hi; simplify_eq; [done|].
    apply map_eq. intros k'. rewrite !snapshot_lookup, lookup_insert. case_decide as E; [subst k'|done].
    rewrite (Hf k eq_refl). cbn.
    destruct (ids_differ sys Hok s0 s t0 t Hne H0 Hst0 Ht Hst) as (Hd & Hi & Hi0).
    unfold in_snapshot. cbn. unfold max_trx_id, INT32_MAX. cases_ltb.
  - by eapply (delete_stable sys Hok s0 s t0 t).
  - unfold commit, commit_with_trx_id in Hc. rewrite (next_trx_id_succ sys Hok) in Hc by done.
    destruct (commit_ops _ _ _ _) as [rs|] eqn:E; [|done]. cbn in Hc. simplify_eq.
    eapply (commit_stable sys Hok s0 s t0 t); try done.
    destruct (ids_differ sys Hok s0 s t0 t) as (_ & _ & ?); try done. lia.
  - unfold rollback in Hr. destruct (rollback_ops _ _ _) as [rs|] eqn:E; [|done]. cbn in Hr. simplify_eq.
    by eapply (rollback_stable sys Hok s0 s t0 t).
Qed.

(** ** The properties *)

Definition k1 : Key := (1, (2, 0)).
Definition k2 : Key := (1, (2, 1)).
Definition idle_trx : MvccTrx := mkTrx 0 false false [].

(** Two sessions over one committed row. *)
Definition demo_sys : Sys :=
  mkSys 5 {[ k1 := mkRow 3 max_trx_id [7] ]} {[ 0 := idle_trx; 1 := idle_trx ]}.

Lemma demo_sys_init : sys_init demo_sys.
Proof.
  split; [by cbn|]. split.
  - intros k r H. cbn in H. apply lookup_singleton_Some in H as [<- <-]. unfold committed_row. cbn. lia.
  - intros s t. cbn. rewrite lookup_insert. case_decide; [by intros [= <-]|].
    intros H0. apply lookup_singleton_Some in H0 as [_ <-]. done.
Qed.

(** Session 0 starts, deletes the row and inserts another one. *)
Definition demo_trx : MvccTrx := mkTrx 6 true false [opD k1; opI k2].
Definition demo_rows : gmap Key Row :=
  {[ k1 := mkRow 3 (-6) [7]; k2 := mkRow (-6) max_trx_id [8] ]}.
Definition demo_sys2 : Sys := mkSys 6 demo_rows {[ 0 := demo_trx; 1 := idle_trx ]}.
(** Then session 1 starts. *)
Definition demo_reader : MvccTrx := mkTrx 7 true false [].
Definition demo_sys3 : Sys := mkSys 7 demo_rows {[ 0 := demo_trx; 1 := demo_reader ]}.

Lemma demo_run2 : sys_run demo_sys demo_sys2.
Proof.
  eapply (run_step 0); [eapply (run_step 0); [eapply (run_step 0); [apply run_refl|]|]|].
  - by eapply (step_start 0 _ idle_trx (mkTrx 6 true false []) 6).
  - by eapply (step_delete 0 _ (mkTrx 6 true false []) k1 SUCCESS (mkTrx 6 true false [opD k1])
      {[ k1 := mkRow 3 (-6) [7] ]}).
  - replace demo_sys2 with (mkSys 6 demo_rows (<[0 := demo_trx]> {[ 0 := mkTrx 6 true false [opD k1]; 1 := idle_trx ]}))
      by (vm_compute; reflexivity).
    eapply (step_insert 0 (mkSys 6 {[ k1 := mkRow 3 (-6) [7] ]} _) (mkTrx 6 true false [opD k1]) [8] (inr k2)
      SUCCESS demo_trx demo_rows); [done|done| |].
    + by intros k [= <-].
    + vm_compute. reflexivity.
Qed.

Lemma demo_run3 : sys_run demo_sys demo_sys3.
Proof.
  eapply (run_step 1); [apply demo_run2|].
  replace demo_sys3 with (mkSys 7 demo_rows (<[1 := demo_reader]> demo_sys2.(trxs))) by (vm_compute; reflexivity).
  by eapply (step_start 1 demo_sys2 idle_trx demo_reader 7).
Qed.

(** C26: The transaction manager's invariant holds in every state that any interleaving
    of the sessions' starts, inserts, deletes, commits and rollbacks can reach: row
    stamps are in range, running transactions have distinct ids, every negative stamp
    belongs to a running transaction that has the operation on its list, and every
    listed operation still finds its mark on its row. *)
Theorem mvcc_invariant sys sys' : sys_init sys -> sys_run sys sys' -> sys_ok sys'.
Proof. intros Hi Hr. eapply sys_run_ok; [done|]. by apply sys_init_ok. Qed.

Lemma mvcc_invariant_witness : sys_init demo_sys /\ sys_run demo_sys demo_sys3 /\ sys_ok demo_sys3.
Proof.
  split; [exact demo_sys_init|]. split; [exact demo_run3|].
  exact (mvcc_invariant demo_sys demo_sys3 demo_sys_init demo_run3).
Defined.

(** Steps of sessions other than [s0] that leave committed-deleted rows alone. *)
Inductive others_run (s0 : Z) : Sys -> Sys -> Prop :=
| others_refl sys : others_run s0 sys sys
| others_step s sys1 sys2 sys3 : others_run s0 sys1 sys2 -> s0 <> s -> sys_step s sys2 sys3 ->
    dead_rows_untouched sys2.(rows) sys3.(rows) -> others_run s0 sys1 sys3.

Lemma other_trx_kept s0 s sys sys' : sys_step s sys sys' -> s0 <> s -> sys'.(trxs) !! s0 = sys.(trxs) !! s0.
Proof. intros [] Hne; cbn; by rewrite lookup_insert_ne. Qed.

Lemma others_run_stable s0 sys sys' t0 : others_run s0 sys sys' -> sys_ok sys ->
  sys.(trxs) !! s0 = Some t0 -> t0.(started) = true ->
  sys_ok sys' /\ sys'.(trxs) !! s0 = Some t0 /\
  snapshot t0.(trx_id) sys'.(rows) = snapshot t0.(trx_id) sys.(rows).
Proof.
  intros Hr Hok H0 Hst. induction Hr as [|s sys1 sys2 sys3 Hr IH Hne Hs Hd]; [done|].
  destruct (IH Hok H0) as (Hok2 & H2 & Hsn). split_and!.
  - by eapply sys_step_ok.
  - by rewrite (other_trx_kept _ _ _ _ Hs Hne).
  - rewrite <- Hsn. by eapply step_snapshot_stable.
Qed.


(** Session 0 commits while session 1 reads. *)
Definition demo_committed : gmap Key Row :=
  {[ k1 := mkRow 3 8 [7]; k2 := mkRow 8 max_trx_id [8] ]}.
Definition demo_sys4 : Sys :=
  mkSys 8 demo_committed {[ 0 := mkTrx 6 false false []; 1 := demo_reader ]}.

Lemma demo_others : others_run 1 demo_sys3 demo_sys4.
Proof.
  eapply (others_step 1 0); [apply others_refl|done| |].
  - replace demo_sys4 with (mkSys 8 demo_committed (<[0 := mkTrx 6 false false []]> demo_sys3.(trxs)))
      by (vm_compute; reflexivity).
    eapply (step_commit 0 demo_sys3 demo_trx); [done|done|done|]. vm_compute. reflexivity.
  - intros k r. cbn. unfold demo_rows. rewrite lookup_insert. case_decide as E1; [intros [= <-]; cbn; lia|].
    intros H0. apply lookup_singleton_Some in H0 as [_ <-]. cbn. lia.
Qed.


(** [MvccTrx::visit_record] lets a reader see a stored row exactly when the row is
    in its snapshot or is one of two exceptions: its own insert that it deleted itself,
    or a row committed after the reader started that another transaction is deleting. *)
Theorem visit_record_sees_snapshot sys0 sys s t k r : sys_init sys0 -> sys_run sys0 sys ->
  sys.(trxs) !! s = Some t -> t.(started) = true -> sys.(rows) !! k = Some r ->
  OB_SUCC (visit_record t r READ_ONLY) = in_snapshot t.(trx_id) r || read_anomaly t.(trx_id) r.
Proof.
  intros Hi Hr Ht Hst Hk.
  assert (sys_ok sys) as Hok by (eapply sys_run_ok; [done|by apply sys_init_ok]).
  eapply visit_record_read; [by eapply so_rows|]. by apply (tk_id _ _ _ (so_trx _ Hok _ _ Ht)).
Qed.

Lemma visit_record_sees_snapshot_witness :
  OB_SUCC (visit_record demo_reader (mkRow 3 (-6) [7]) READ_ONLY) = true /\
  OB_SUCC (visit_record demo_reader (mkRow 3 (-6) [7]) READ_ONLY) =
    in_snapshot 7 (mkRow 3 (-6) [7]) || read_anomaly 7 (mkRow 3 (-6) [7]).
Proof.
  split; [vm_compute; reflexivity|].
  exact (visit_record_sees_snapshot demo_sys demo_sys3 1 demo_reader k1 (mkRow 3 (-6) [7])
           demo_sys_init demo_run3 eq_refl eq_refl eq_refl).
Defined.

Section outcome.
Context (sys : Sys) (Hok : sys_ok sys) (s : Z) (t : MvccTrx) (Ht : sys.(trxs) !! s = Some t).
Context (Hst : t.(started) = true) (Hnd : NoDup t.(operations)).

Lemma commit_succeeds : exists rs,
  commit t sys.(rows) sys.(current_trx_id) =
    Some (mkTrx t.(trx_id) false false [], rs, next_trx_id sys.(current_trx_id)) /\
  forall k, rs !! k = commit_row (next_trx_id sys.(current_trx_id)) t.(operations) k <$> sys.(rows) !! k.
Proof using Hok Ht Hnd.
  pose proof (so_trx _ Hok _ _ Ht) as [R1 R2 R3 R4 R5].
  destruct (commit_ops_total t R1 (next_trx_id sys.(current_trx_id)) _ _ Hnd R4) as [rs E].
  exists rs. split; [|by eapply commit_ops_effect].
  unfold commit, commit_with_trx_id. rewrite E. cbn. by rewrite R1.
Qed.

Lemma rollback_succeeds : exists rs,
  rollback t sys.(rows) = Some (mkTrx t.(trx_id) false false [], rs) /\
  forall k, rs !! k = sys.(rows) !! k ≫= rollback_row t.(operations) k.
Proof using Hok Ht Hnd.
  pose proof (so_trx _ Hok _ _ Ht) as [R1 R2 R3 R4 R5].
  destruct (rollback_ops_total t R1 (rev t.(operations)) sys.(rows)) as [rs E].
  - rewrite NoDup_ListNoDup. apply NoDup_rev. by rewrite <- NoDup_ListNoDup.
  - done.
  - apply Forall_forall. intros o. rewrite elem_of_rev. by apply Forall_forall.
  - exists rs. split; [|by apply rollback_all_effect]. unfold rollback. rewrite E. cbn. by rewrite R1.
Qed.

(** What a later transaction sees of a committed one. *)
Lemma committed_snapshot c id k r : c < id < max_trx_id -> sys.(rows) !! k = Some r ->
  0 < c ->
  in_snapshot id (commit_row c t.(operations) k r) =
  if bool_decide (opD k ∈ t.(operations)) then false
  else if bool_decide (opI k ∈ t.(operations)) then true else in_snapshot id r.
Proof using Hok Ht Hst.
  intros Hc Hr Hc0. destruct (so_rows _ Hok _ _ Hr) as (R0 & R1 & R2 & R3 & R4).
  unfold commit_row, in_snapshot; cbn. unfold max_trx_id, INT32_MAX in *.
  case_bool_decide as HI; case_bool_decide as HD; try done; [cases_ltb|..].
  - pose proof (own_begin sys Hok s t Ht k r Hr HI). pose proof (tk_id _ _ _ (so_trx _ Hok _ _ Ht) Hst).
    destruct (R4 ltac:(lia)) as [->|E]; [cases_ltb|].
    destruct (so_end _ Hok k r Hr ltac:(lia)) as (s1 & t1 & A & B & C & D).
    assert (s1 = s) as -> by (eapply (so_uniq _ Hok); [exact A|exact Ht|done|done|lia]). simplify_eq.
  - pose proof (own_end sys Hok s t Ht k r Hr HD). pose proof (tk_id _ _ _ (so_trx _ Hok _ _ Ht) Hst).
    destruct (Z.ltb_spec r.(begin_xid) 0) as [Hb|Hb]; [|cases_ltb].
    destruct (so_begin _ Hok k r Hr Hb) as (s1 & t1 & A & B & C & D).
    assert (s1 = s) as -> by (eapply (so_uniq _ Hok); [exact A|exact Ht|done|done|lia]). simplify_eq.
Qed.
End outcome.



(** Rollback is atomic.  In a reachable state a transaction that lists no operation
    twice rolls back without a failed assertion; afterwards its inserts are gone, its
    deletes are undone and every other row is untouched. *)
Theorem rollback_atomic sys0 sys s t : sys_init sys0 -> sys_run sys0 sys ->
  sys.(trxs) !! s = Some t -> NoDup t.(operations) ->
  exists rs, rollback t sys.(rows) = Some (mkTrx t.(trx_id) false false [], rs) /\
    forall k, rs !! k =
      if bool_decide (opI k ∈ t.(operations)) then None
      else if bool_decide (opD k ∈ t.(operations))
           then (fun r => set_end r max_trx_id) <$> sys.(rows) !! k
      else sys.(rows) !! k.
Proof.
  intros Hi Hr Ht Hnd.
  assert (sys_ok sys) as Hok by (eapply sys_run_ok; [done|by apply sys_init_ok]).
  destruct (rollback_succeeds sys Hok s t Ht Hnd) as (rs & E & Heff). exists rs. split; [done|].
  intros k. rewrite Heff. destruct (sys.(rows) !! k); cbn; unfold rollback_row; by repeat case_bool_decide.
Qed.

Lemma rollback_atomic_witness :
  exists rs, rollback demo_trx demo_rows = Some (mkTrx 6 false false [], rs) /\
    forall k, rs !! k =
      if bool_decide (opI k ∈ [opD k1; opI k2]) then None
      else if bool_decide (opD k ∈ [opD k1; opI k2])
           then (fun r => set_end r max_trx_id) <$> demo_rows !! k
      else demo_rows !! k.
Proof.
  apply (rollback_atomic demo_sys demo_sys3 0 demo_trx demo_sys_init demo_run3 eq_refl).
  apply (bool_decide_unpack _). vm_compute. exact I.
Defined.

(** Write-write conflicts: while one transaction has a row marked, a delete of
    the same row by any other transaction fails and changes neither the row nor the
    other transaction's list; it is a concurrency conflict exactly when the row was
    committed and the first transaction is deleting it. *)
Theorem write_write_conflict sys0 sys s t s' t' o r : sys_init sys0 -> sys_run sys0 sys ->
  sys.(trxs) !! s = Some t -> o ∈ t.(operations) ->
  sys.(trxs) !! s' = Some t' -> t'.(started) = true -> s' <> s -> sys.(rows) !! o.(op_key) = Some r ->
  delete_record t' sys.(rows) o.(op_key) =
    (if 0 <? r.(begin_xid) then LOCKED_CONCURRENCY_CONFLICT else RECORD_INVISIBLE, t', sys.(rows)).
Proof.
  intros Hi Hr Ht Ho Ht' Hst' Hne Hk.
  assert (sys_ok sys) as Hok by (eapply sys_run_ok; [done|by apply sys_init_ok]).
  pose proof (op_started sys Hok s t o Ht Ho) as Hst.
  destruct (ids_differ sys Hok s' s t' t Hne Ht' Hst' Ht Hst) as (Hd & Hid & Hid').
  assert (visit_record t' r READ_WRITE =
    (if 0 <? r.(begin_xid) then LOCKED_CONCURRENCY_CONFLICT else RECORD_INVISIBLE)) as Hv.
  { unfold visit_record. destruct (op_mark sys Hok s t o r Ht Ho Hk) as [->|[Hb ->]]; cases_ltb. }
  unfold delete_record, table_visit. rewrite Hk, Hv. by destruct (0 <? r.(begin_xid)).
Qed.

Lemma write_write_conflict_witness :
  delete_record demo_reader demo_rows k1 = (LOCKED_CONCURRENCY_CONFLICT, demo_reader, demo_rows).
Proof.
  refine (write_write_conflict demo_sys demo_sys3 0 demo_trx 1 demo_reader (opD k1) (mkRow 3 (-6) [7])
    demo_sys_init demo_run3 eq_refl _ eq_refl eq_refl _ eq_refl).
  - apply (bool_decide_unpack _). vm_compute. exact I.
  - discriminate.
Defined.

(** A transaction may delete the row it has just inserted twice (the row stays
    visible to its own transaction), and then its commit stops the server: the second
    delete entry no longer finds the mark the first one has replaced. *)
Theorem double_delete_commit_asserts :
  let t := mkTrx 6 true false [] in
  let '(_, t1, rs1) := insert_record t ∅ [8] (inr k2) in
  let '(rc2, t2, rs2) := delete_record t1 rs1 k2 in
  let '(rc3, t3, rs3) := delete_record t2 rs2 k2 in
  rc2 = SUCCESS /\ rc3 = SUCCESS /\ commit t3 rs3 6 = None.
Proof. vm_compute. done. Qed.

(** Deleting a row whose deletion is already committed succeeds when the deleting
    transaction is older than that deletion, and rolling back then brings the row back
    to life for every later transaction. *)
Theorem rollback_resurrects_row :
  let rs := {[ k1 := mkRow 3 8 [7] ]} in
  let '(rc, t1, rs1) := delete_record demo_reader rs k1 in
  snapshot 9 rs = ∅ /\ rc = SUCCESS /\
  exists t2 rs2, rollback t1 rs1 = Some (t2, rs2) /\ snapshot 9 rs2 = {[ k1 := [7] ]}.
Proof. cbn. split; [done|]. split; [done|]. eexists _, _. split; vm_compute; reflexivity. Qed.

(** Dirty read: a row committed after the reader started is invisible to it, and
    becomes visible as soon as another transaction begins to delete it. *)
Theorem late_row_becomes_visible :
  let late := mkRow 9 max_trx_id [7] in
  visit_record demo_reader late READ_ONLY = RECORD_INVISIBLE /\
  visit_record demo_reader (set_end late (-10)) READ_ONLY = SUCCESS.
Proof. done. Qed.
