(* ===== verification/HeapTable.v ===== *)
(** * HeapTable: a table with its indexes

    [src/src/observer/storage/table/heap_table_engine.cpp]: a record file and the indexes on
    it.  [TableIndex] is the interface [Index] ([insert_entry], [delete_entry]);
    [TableIndexLaws] is what the table relies on: an index is a set of entries, one insertion
    adds one entry or fails and changes nothing, one deletion removes one.  The theorems say
    that the table's operations keep every index equal to the set of stored records, also
    when an insertion fails half-way.  [BplusTreeIndex]
    ([src/src/observer/storage/index/bplus_tree_index.cpp]) satisfies the laws by the
    theorems of [BplusIndex]. *)

From S2P Require Import Prelude Bytes Bitmap RecordPage PageAlloc RecordFile Compare BplusTree BplusStep BplusScan BplusIndex.

(** ** The interface [Index] *)

Class TableIndex (X : Type) := {
  index_insert : X -> list Z -> RID -> option (RC * X);
  index_delete : X -> list Z -> RID -> option (RC * X)
}.

Class TableIndexLaws (X : Type) `{TableIndex X} := {
  idx_K : Type;
  (** The key of a record, fixed when the index is created. *)
  idx_key : X -> list Z -> RID -> idx_K;
  (** A sound index that holds the entries, with room for [n] insertions. *)
  idx_repr : nat -> X -> list (idx_K * RID) -> Prop;
  idx_repr_less : forall n x es, idx_repr (S n) x es -> idx_repr n x es;
  idx_insert_law : forall n x es d rid, idx_repr (S n) x es -> rid_ok rid = true -> rid ∉ es.*2 ->
    exists rc x' es', index_insert x d rid = Some (rc, x') /\ idx_repr n x' es' /\
      (forall d r, idx_key x' d r = idx_key x d r) /\
      es' ≡ₚ (if OB_SUCC rc then [(idx_key x d rid, rid)] else []) ++ es;
  idx_delete_law : forall n x es d rid, idx_repr n x es -> rid_ok rid = true -> (idx_key x d rid, rid) ∈ es ->
    exists x' es', index_delete x d rid = Some (SUCCESS, x') /\ idx_repr n x' es' /\
      (forall d r, idx_key x' d r = idx_key x d r) /\ es ≡ₚ (idx_key x d rid, rid) :: es';
  idx_delete_absent : forall n x es d rid, idx_repr n x es -> rid_ok rid = true -> rid ∉ es.*2 ->
    index_delete x d rid = Some (RECORD_NOT_EXIST, x)
}.

(** ** The table engine *)

Module HeapTable.
Section engine.
Context {X : Type} `{TableIndex X}.
(** [std::set]'s first element, and the table's record size and number of columns. *)
Context (first : gset Z -> Z) (rec_size ncol : Z).

Record HeapTableEngine := mkTable { record_handler : RecordFile.RecFile; indexes : list X }.

(** [insert_entry_of_indexes]: stops at the first failure.  [None] is a failed assertion
    inside an index. *)
Fixpoint insert_entry_of_indexes (rc : RC) (idx : list X) (record : list Z) (rid : RID) : option (RC * list X) :=
  match idx with
  | [] => Some (rc, [])
  | index :: idx' =>
      '(rc, index) ← index_insert index record rid;
      if OB_FAIL rc then Some (rc, index :: idx')
      else '(rc, idx') ← insert_entry_of_indexes rc idx' record rid; Some (rc, index :: idx')
  end.

Fixpoint delete_entry_of_indexes (rc : RC) (idx : list X) (record : list Z) (rid : RID) (error_on_not_exists : bool) :
  option (RC * list X) :=
  match idx with
  | [] => Some (rc, [])
  | index :: idx' =>
      '(rc, index) ← index_delete index record rid;
      if OB_FAIL rc && (negb (bool_decide (rc = RECORD_INVALID_KEY)) || negb error_on_not_exists)
      then Some (rc, index :: idx')
      else '(rc, idx') ← delete_entry_of_indexes rc idx' record rid error_on_not_exists; Some (rc, index :: idx')
  end.

(** [HeapTableEngine::insert_record]: the record's bytes, and the location it gets. *)
Definition insert_record (t : HeapTableEngine) (record : list Z) : option (RC * RID * HeapTableEngine) :=
  let '(rc, rid, f) := RecordFile.insert_record first rec_size ncol t.(record_handler) record in
  if OB_FAIL rc then Some (rc, rid, mkTable f t.(indexes))
  else
    '(rc, idx) ← insert_entry_of_indexes SUCCESS t.(indexes) record rid;
    if OB_FAIL rc then
      '(_, idx) ← delete_entry_of_indexes SUCCESS idx record rid false;
      let '(_, f) := RecordFile.delete_record f rid in
      Some (rc, rid, mkTable f idx)
    else Some (rc, rid, mkTable f idx).

(** The loop of [HeapTableEngine::delete_record], with its [ASSERT]. *)
Fixpoint delete_from_indexes (idx : list X) (record : list Z) (rid : RID) : option (list X) :=
  match idx with
  | [] => Some []
  | index :: idx' =>
      '(rc, index) ← index_delete index record rid;
      if OB_SUCC rc then idx' ← delete_from_indexes idx' record rid; Some (index :: idx') else None
  end.

Definition delete_record (t : HeapTableEngine) (record : list Z) (rid : RID) : option (RC * HeapTableEngine) :=
  idx ← delete_from_indexes t.(indexes) record rid;
  let '(rc, f) := RecordFile.delete_record t.(record_handler) rid in
  Some (rc, mkTable f idx).

Definition get_record (t : HeapTableEngine) (rid : RID) : RC * list Z := RecordFile.get_record t.(record_handler) rid.

(** The loop of [create_index] over the records of the scan. *)
Fixpoint fill_index (records : list (RID * list Z)) (index : X) : option (RC * X) :=
  match records with
  | [] => Some (SUCCESS, index)
  | (rid, d) :: records' =>
      '(rc, index) ← index_insert index d rid;
      if OB_FAIL rc then Some (rc, index) else fill_index records' index
  end.

(** [create_index] with the empty index that [BplusTreeIndex::create] made; [vis] is the
    transaction's [visit_record].  The metadata file is not modelled.  A failed scan or
    insertion leaves the table without the index. *)
Definition create_index (fuel : nat) (vis : list Z -> RC) (t : HeapTableEngine) (index : X) : option (RC * HeapTableEngine) :=
  let '(rc, records) := RecordFile.scan_all fuel t.(record_handler) (fun _ => true) vis (RecordFile.open_scan t.(record_handler)) in
  '(rc', index) ← fill_index records index;
  if OB_FAIL rc' then Some (rc', t)
  else if bool_decide (rc = RECORD_EOF) then Some (SUCCESS, mkTable t.(record_handler) (t.(indexes) ++ [index]))
  else Some (rc, t).
End engine.
Arguments HeapTableEngine : clear implicits.
End HeapTable.

(** ** [BplusTreeIndex] *)

Section bplus_tree_index.
Context {U : Type} (attr_cmp : U -> U -> Z) {Hattr : Comparator attr_cmp} (zero : U).
(** How the bytes of the field are read when keys are compared. *)
Context (read_attr : list Z -> U).
Context {A : Type} {PA : PageAllocator A}.
#[local] Hint Extern 0 KeyOrder => exact (attribute_key attr_cmp zero) : typeclass_instances.

Record BplusTreeIndex := mkIndex { field_offset : Z; field_len : Z; index_handler : BTree (A := A) }.

Definition entry_key (x : BplusTreeIndex) (record : list Z) (rid : RID) : key :=
  make_key attr_cmp zero (read_attr (slice record x.(field_offset) x.(field_len))) rid.

Definition rc_of (r : RC + unit) : RC := match r with inl rc => rc | inr _ => SUCCESS end.

Definition with_handler (x : BplusTreeIndex) (t : BTree) : BplusTreeIndex := mkIndex x.(field_offset) x.(field_len) t.

Definition bti_insert_entry (x : BplusTreeIndex) (record : list Z) (rid : RID) : option (RC * BplusTreeIndex) :=
  '(r, t) ← insert_entry (entry_key x record rid) rid x.(index_handler); Some (rc_of r, with_handler x t).

Definition bti_delete_entry (x : BplusTreeIndex) (record : list Z) (rid : RID) : option (RC * BplusTreeIndex) :=
  '(r, t) ← delete_entry (entry_key x record rid) x.(index_handler); Some (rc_of r, with_handler x t).

#[export] Instance bplus_tree_index : TableIndex BplusTreeIndex := {
  index_insert := bti_insert_entry; index_delete := bti_delete_entry
}.
End bplus_tree_index.
Arguments mkIndex {U attr_cmp Hattr zero A} _ _ _.
Arguments field_offset {U attr_cmp Hattr zero A} _.
Arguments field_len {U attr_cmp Hattr zero A} _.
Arguments index_handler {U attr_cmp Hattr zero A} _.
Arguments with_handler {U attr_cmp Hattr zero A} _ _.

(** ** Record locations *)

(** The capacities of all pages fit into an [int]. *)
Definition small_pages (f : RecordFile.RecFile) : Prop :=
  map_Forall (fun _ p => p.(hdr).(record_capacity) <= INT32_MAX) f.(RecordFile.pages).

Section locations.
Import RecordFile.
Context (rec_size ncol : Z).

Lemma record_at_in_page f rid d p : record_at f rid = Some d -> f.(pages) !! rid.(page_num) = Some p ->
  in_page p rid.(slot_num).
Proof using Type.
  intros Hr Hp. unfold record_at in Hr. rewrite Hp in Hr. cbn in Hr. rewrite page_map_lookup in Hr.
  destruct (in_pageb_spec p rid.(slot_num)); [done|]. by rewrite andb_false_l in Hr.
Qed.

Lemma record_at_rid_ok f rid d : file_ok rec_size f -> small_pages f -> record_at f rid = Some d -> rid_ok rid = true.
Proof using Type.
  intros Hok Hs Hr. destruct (f.(pages) !! rid.(page_num)) as [p|] eqn:Hp; [|unfold record_at in Hr; by rewrite Hp in Hr].
  pose proof (record_at_in_page f rid d p Hr Hp) as Hin. specialize (Hs _ _ Hp).
  destruct (proj1 (fo_dom _ _ Hok rid.(page_num))) as [Ha _]; [by eexists|].
  apply PageAlloc.elem_of_allocated in Ha as [Hpn _]. pose proof (fo_header _ _ Hok) as Hh.
  pose proof (PageAlloc.ho_count _ Hh). assert (PageAlloc.MAX_PAGE_NUM <= INT32_MAX) by (by vm_compute).
  unfold in_page in Hin. cbn beta in Hs. unfold rid_ok. rewrite !andb_true_iff, !Z.leb_le. lia.
Qed.

Lemma insert_keeps_capacity p d :
  (RecordPage.insert_record p d).1.2.(hdr).(record_capacity) = p.(hdr).(record_capacity).
Proof using Type. unfold RecordPage.insert_record. by destruct (_ =? _). Qed.

Lemma delete_keeps_capacity p s : (RecordPage.delete_record p s).2.(hdr).(record_capacity) = p.(hdr).(record_capacity).
Proof using Type. unfold RecordPage.delete_record. by destruct (get_bit _ _). Qed.

Lemma small_set_page f pn p : small_pages f -> p.(hdr).(record_capacity) <= INT32_MAX -> small_pages (set_page f pn p).
Proof using Type. intros Hs Hp. by apply map_Forall_insert_2. Qed.

Lemma small_delete f rid : small_pages f -> small_pages (RecordFile.delete_record f rid).2.
Proof using Type.
  intros Hs. unfold RecordFile.delete_record, page_init. destruct (f.(pages) !! rid.(page_num)) as [p|] eqn:Hp; [|done].
  pose proof (delete_keeps_capacity p rid.(slot_num)) as Hk.
  destruct (RecordPage.delete_record p rid.(slot_num)) as [rc p']. cbn [snd] in *.
  assert (small_pages (set_page f rid.(page_num) p')) by (apply small_set_page; [done|rewrite Hk; by apply (Hs _ _ Hp)]).
  by destruct (OB_SUCC rc).
Qed.

Lemma new_page_capacity : layout_args_ok rec_size ncol ->
  (init_empty_page rec_size ncol zero_bytes).(hdr).(record_capacity) <= INT32_MAX.
Proof using Type.
  intros Hlay. destruct (init_empty_page_ok rec_size ncol zero_bytes Hlay ltac:(by vm_compute)) as [Hok _].
  pose proof (po_size _ Hok). pose proof (po_fits _ Hok) as Hf. pose proof (po_offset _ Hok).
  assert (zlen (init_empty_page rec_size ncol zero_bytes).(data) <= INT32_MAX) by (by vm_compute).
  pose proof (po_bitmap _ Hok) as [[Hc _] _]. cbn [page_bitmap size_] in Hc.
  set (p := init_empty_page rec_size ncol zero_bytes) in *. clearbody p.
  assert (p.(hdr).(record_capacity) * 1 <= p.(hdr).(record_capacity) * p.(hdr).(record_size)) by (apply Z.mul_le_mono_nonneg_l; lia).
  lia.
Qed.

Lemma small_insert first f d : (forall S, S ≠ ∅ -> first S ∈ S) -> file_ok rec_size f -> layout_args_ok rec_size ncol ->
  small_pages f -> small_pages (RecordFile.insert_record first rec_size ncol f d).2.
Proof using Type.
  intros Hfirst Hok Hlay Hs. unfold RecordFile.insert_record.
  destruct (find_free_ok first Hfirst rec_size (S (size f.(free_pages))) f Hok ltac:(lia)) as (found & f1 & -> & Ep & _ & _ & _ & _ & Hm).
  rc_simpl.
  assert (small_pages f1) as Hs1 by (unfold small_pages; by rewrite Ep).
  destruct found as [[pn p]|].
  - destruct Hm as [Hp _]. pose proof (insert_keeps_capacity p d) as Hk.
    destruct (RecordPage.insert_record p d) as [[rc p'] slot]. cbn [snd fst] in *.
    apply small_set_page; [done|]. rewrite Hk. by apply (Hs _ _ Hp).
  - destruct (PageAlloc.allocate_page f1.(header) f1.(log)) as [[[rc pn] hf] l]. destruct (OB_FAIL rc); [done|].
    pose proof (insert_keeps_capacity (init_empty_page rec_size ncol zero_bytes) d) as Hk.
    destruct (RecordPage.insert_record _ d) as [[rc' p'] slot]. cbn [snd fst] in *.
    apply small_set_page; [|rewrite Hk; by apply new_page_capacity].
    apply map_Forall_insert_2; [by apply new_page_capacity|done].
Qed.
End locations.

(** ** The invariant: every index is the set of stored records *)

Section table.
Import HeapTable.
Context {X : Type} `{HX : TableIndex X} {HL : TableIndexLaws X}.
Context (first : gset Z -> Z) (Hfirst : forall S, S ≠ ∅ -> first S ∈ S) (rec_size ncol : Z).
#[local] Abbreviation RecFile := RecordFile.RecFile.
#[local] Abbreviation record_at := RecordFile.record_at.
#[local] Abbreviation Table := (HeapTableEngine X).

(** The entries are those of the stored records. *)
Record entries_of (f : RecFile) (x : X) (es : list (idx_K * RID)) : Prop := {
  eo_nodup : NoDup es;
  eo_entries : forall k r, (k, r) ∈ es <-> exists d, record_at f r = Some d /\ k = idx_key x d r
}.

Definition consistent (n : nat) (f : RecFile) (x : X) : Prop := exists es, idx_repr n x es /\ entries_of f x es.

Record table_ok (n : nat) (t : Table) : Prop := {
  to_file : RecordFile.file_ok rec_size t.(record_handler);
  to_free : RecordFile.free_complete t.(record_handler);
  to_small : small_pages t.(record_handler);
  to_indexes : Forall (consistent n t.(record_handler)) t.(indexes)
}.

(** The file [f'] is [f] with the record [d] at [rid], which was free. *)
Definition file_added (f f' : RecFile) (rid : RID) (d : list Z) : Prop :=
  record_at f rid = None /\ forall r, record_at f' r = if decide (r = rid) then Some d else record_at f r.

Lemma entries_fresh f x es rid : entries_of f x es -> record_at f rid = None -> rid ∉ es.*2.
Proof using.
  intros [_ Hc] Hn ([k r] & -> & Hin)%list_elem_of_fmap. apply Hc in Hin as (d & Hd & _). cbn in *. congruence.
Qed.

Lemma consistent_less n f x : consistent (S n) f x -> consistent n f x.
Proof using. intros (es & Hr & He). exists es. split; [by apply idx_repr_less|done]. Qed.

Lemma consistent_ext n f f' x : (forall r, record_at f' r = record_at f r) -> consistent n f x -> consistent n f' x.
Proof using.
  intros Hf (es & Hr & [Hnd Hc]). exists es. split; [done|]. split; [done|]. intros k r. by rewrite Hc, Hf.
Qed.

(** Inserting the entry of a new record: with it, or as before. *)
Lemma consistent_insert n f f' rid d x : rid_ok rid = true -> file_added f f' rid d -> consistent (S n) f x ->
  exists rc x', index_insert x d rid = Some (rc, x') /\
    if OB_SUCC rc then consistent n f' x' else consistent n f x'.
Proof using.
  intros Hrid [Hn Hf] (es & Hr & He). pose proof (entries_fresh f x es rid He Hn) as Hfresh.
  destruct (idx_insert_law n x es d rid Hr Hrid Hfresh) as (rc & x' & es' & E & Hr' & Hk & Hp).
  exists rc, x'. split; [done|]. destruct He as [Hnd Hc]. destruct (OB_SUCC rc); cbn [app] in Hp; exists es'; (split; [done|]).
  - split; [rewrite Hp; constructor; [|done]; intros Hin; apply Hfresh, list_elem_of_fmap; by exists (idx_key x d rid, rid)|].
    intros k r. rewrite Hp, elem_of_cons, Hf. case_decide as Hdec.
    + subst r. split.
      * intros [[= ->]|Hin]; [exists d; by rewrite Hk|]. destruct Hfresh. apply list_elem_of_fmap. by exists (k, rid).
      * intros (d' & [= <-] & ->). left. by rewrite Hk.
    + rewrite Hc. setoid_rewrite Hk. split; [intros [[= _ ->]|?]; done|by right].
  - split; [by rewrite Hp|]. intros k r. rewrite Hp, Hc. by setoid_rewrite Hk.
Qed.

(** Deleting the entry of a record takes the index back to the file without it. *)
Lemma consistent_delete n f f' rid d x : rid_ok rid = true -> file_added f f' rid d -> consistent n f' x ->
  exists x', index_delete x d rid = Some (SUCCESS, x') /\ consistent n f x'.
Proof using.
  intros Hrid [Hn Hf] (es & Hr & [Hnd Hc]).
  assert ((idx_key x d rid, rid) ∈ es) as Hin by (apply Hc; exists d; by rewrite Hf, decide_True by done).
  destruct (idx_delete_law n x es d rid Hr Hrid Hin) as (x' & es' & E & Hr' & Hk & Hp).
  exists x'. split; [done|]. exists es'. split; [done|].
  rewrite Hp in Hnd. apply NoDup_cons in Hnd as [Hni Hnd]. split; [done|]. intros k r.
  assert ((k, r) ∈ es' <-> (k, r) ∈ es /\ (k, r) <> (idx_key x d rid, rid)) as ->.
  { rewrite Hp, elem_of_cons. split; [|naive_solver]. intros Hi. split; [by right|]. intros Ek. by rewrite Ek in Hi. }
  rewrite Hc, Hf. setoid_rewrite Hk. case_decide as Hdec.
  - subst r. rewrite Hn. split; [|naive_solver]. intros [(d' & [= <-] & ->) Hne]. done.
  - split; [naive_solver|]. intros H. split; [done|]. intros [= _ ->]. done.
Qed.

Lemma consistent_absent n f rid d x : rid_ok rid = true -> record_at f rid = None -> consistent n f x ->
  index_delete x d rid = Some (RECORD_NOT_EXIST, x).
Proof using. intros Hrid Hn (es & Hr & He). eapply idx_delete_absent; [done..|by eapply entries_fresh]. Qed.

(** *** The loops over the indexes *)

Lemma insert_loop_spec n f f' d rid idx : rid_ok rid = true -> file_added f f' rid d ->
  Forall (consistent (S n) f) idx ->
  exists rc idx', insert_entry_of_indexes SUCCESS idx d rid = Some (rc, idx') /\
    ((rc = SUCCESS /\ Forall (consistent n f') idx') \/
     (rc <> SUCCESS /\ exists a x b, idx' = a ++ x :: b /\
        Forall (consistent n f') a /\ consistent n f x /\ Forall (consistent n f) b)).
Proof using.
  intros Hrid Hf. induction 1 as [|x idx Hx Hidx IH]; cbn [insert_entry_of_indexes].
  { exists SUCCESS, []. split; [done|]. left. by split; [|constructor]. }
  destruct (consistent_insert n f f' rid d x Hrid Hf Hx) as (rc & x' & -> & Hc). bind_step.
  case_rc rc Hrc.
  - subst rc. destruct IH as (rc & idx' & -> & Hres). bind_step.
    exists rc, (x' :: idx'). split; [done|].
    destruct Hres as [[-> Hall]|(Hne & a & y & b & -> & Ha & Hy & Hb)]; [left; by split; [|constructor]|right].
    split; [done|]. exists (x' :: a), y, b. by split_and!; [|constructor|..].
  - exists rc, (x' :: idx). split; [done|]. right. split; [intros ->; done|]. exists [], x', idx. split_and!; [done..|].
    eapply Forall_impl; [done|]. apply consistent_less.
Qed.

Lemma rollback_loop_spec n f f' d rid rc a x b : rid_ok rid = true -> file_added f f' rid d ->
  Forall (consistent n f') a -> consistent n f x ->
  exists rc' a', delete_entry_of_indexes rc (a ++ x :: b) d rid false = Some (rc', a' ++ x :: b) /\ Forall (consistent n f) a'.
Proof using.
  intros Hrid Hf Ha Hx. revert rc. induction Ha as [|y a Hy _ IH]; intros rc; cbn [app delete_entry_of_indexes].
  - exists RECORD_NOT_EXIST, []. by rewrite (consistent_absent n f rid d x Hrid (proj1 Hf) Hx).
  - destruct (consistent_delete n f f' rid d y Hrid Hf Hy) as (y' & -> & Hy').
    bind_step. change (OB_FAIL SUCCESS) with false. cbn [andb].
    destruct (IH SUCCESS) as (rc' & a' & -> & Ha'). exists rc', (y' :: a'). split; [done|]. by constructor.
Qed.

Lemma delete_loop_spec n f f' d rid idx : rid_ok rid = true -> file_added f f' rid d -> Forall (consistent n f') idx ->
  exists idx', delete_from_indexes idx d rid = Some idx' /\ Forall (consistent n f) idx'.
Proof using.
  intros Hrid Hf. induction 1 as [|x idx Hx _ IH]; cbn [delete_from_indexes]; [by exists []|].
  destruct (consistent_delete n f f' rid d x Hrid Hf Hx) as (x' & -> & Hx').
  bind_step. change (OB_SUCC SUCCESS) with true. destruct IH as (idx' & -> & Hidx).
  exists (x' :: idx'). split; [done|]. by constructor.
Qed.

(** *** The operations *)

Lemma delete_added f rid d : RecordFile.file_ok rec_size f -> RecordFile.free_complete f -> small_pages f ->
  record_at f rid = Some d ->
  exists f', RecordFile.delete_record f rid = (SUCCESS, f') /\ RecordFile.file_ok rec_size f' /\
    RecordFile.free_complete f' /\ small_pages f' /\ file_added f' f rid d.
Proof using.
  intros Hok Hfc Hs Hd.
  pose proof (RecordFile.delete_record_file_ok rec_size f rid Hok Hfc) as H. pose proof (small_delete f rid Hs) as Hs'.
  destruct (RecordFile.delete_record f rid) as [rc f']. cbn [snd] in Hs'.
  destruct H as (Hok' & Hfc' & Hr & ->); [intros p Hp; by eapply record_at_in_page|]. rewrite Hd.
  exists f'. split_and!; [done..|]. split; [by rewrite Hr, decide_True|].
  intros r. rewrite Hr. case_decide; by subst.
Qed.

Lemma insert_table_ok n t d : layout_args_ok rec_size ncol -> zlen d = rec_size -> table_ok (S n) t ->
  exists rc rid t', insert_record first rec_size ncol t d = Some (rc, rid, t') /\ table_ok n t' /\
    if OB_SUCC rc then file_added t.(record_handler) t'.(record_handler) rid d
    else forall r, record_at t'.(record_handler) r = record_at t.(record_handler) r.
Proof using Hfirst.
  intros Hlay Hlen [Hok Hfc Hs Hidx]. destruct t as [f idx]. cbn [record_handler indexes] in *. unfold insert_record.
  cbn [record_handler indexes].
  pose proof (RecordFile.insert_record_file_ok first Hfirst rec_size ncol f d Hok Hfc Hlay Hlen) as H.
  pose proof (small_insert rec_size ncol first f d Hfirst Hok Hlay Hs) as Hs'.
  destruct (RecordFile.insert_record first rec_size ncol f d) as [[rc rid] f']. cbn [snd] in Hs'.
  destruct H as (Hok' & Hfc' & H). case_rc rc Hrc.
  2:{ exists rc, rid, (mkTable f' idx). rewrite Hrc.
      assert (f'.(RecordFile.pages) = f.(RecordFile.pages)) as Ep by (destruct rc; try done; by destruct H as (_ & _ & ? & _)).
      assert (forall r, record_at f' r = record_at f r) as Hr by (intros; unfold RecordFile.record_at; by rewrite Ep).
      split_and!; [done| |done]. split; try done. cbn [indexes record_handler].
      eapply Forall_impl; [done|]. intros x Hx. eapply consistent_ext; [done|by apply consistent_less]. }
  subst rc. destruct H as (Hn & Hr & _). assert (file_added f f' rid d) as Hadd by done.
  assert (record_at f' rid = Some d) as Hd by (by rewrite Hr, decide_True).
  pose proof (record_at_rid_ok rec_size f' rid d Hok' Hs' Hd) as Hrid.
  destruct (insert_loop_spec n f f' d rid idx Hrid Hadd Hidx) as (rc & idx' & -> & Hres). bind_step.
  destruct Hres as [[-> Hall]|(Hne & a & x & b & -> & Ha & Hx & Hb)].
  - change (OB_FAIL SUCCESS) with false. exists SUCCESS, rid, (mkTable f' idx'). by split_and!.
  - case_rc rc Hrc; [done|].
    destruct (rollback_loop_spec n f f' d rid SUCCESS a x b Hrid Hadd Ha Hx) as (rc' & a' & -> & Ha'). bind_step.
    destruct (delete_added f' rid d Hok' Hfc' Hs' Hd) as (f'' & -> & Hok'' & Hfc'' & Hs'' & Hn'' & Hr'').
    assert (forall r, record_at f'' r = record_at f r) as Hback.
    { intros r. specialize (Hr'' r). rewrite Hr in Hr''. case_decide; [subst; by rewrite Hn, Hn''|done]. }
    exists rc, rid, (mkTable f'' (a' ++ x :: b)). rewrite Hrc. split_and!; [done| |done]. split; try done.
    cbn [record_handler indexes]. eapply Forall_impl; [apply Forall_app; split; [apply Ha'|constructor; [apply Hx|apply Hb]]|].
    intros y. by apply consistent_ext.
Qed.

Lemma delete_table_ok n t d rid : table_ok n t -> record_at t.(record_handler) rid = Some d ->
  exists t', delete_record t d rid = Some (SUCCESS, t') /\ table_ok n t' /\
    file_added t'.(record_handler) t.(record_handler) rid d.
Proof using.
  intros [Hok Hfc Hs Hidx] Hd. unfold delete_record.
  pose proof (record_at_rid_ok rec_size _ rid d Hok Hs Hd) as Hrid.
  destruct (delete_added _ rid d Hok Hfc Hs Hd) as (f' & E & Hok' & Hfc' & Hs' & Hadd).
  destruct (delete_loop_spec n f' _ d rid _ Hrid Hadd Hidx) as (idx' & -> & Hidx'). bind_step. rewrite E.
  exists (mkTable f' idx'). by split_and!.
Qed.
End table.

(** ** [BplusTreeIndex] satisfies the laws *)

Section bplus_laws.
Context {U : Type} (attr_cmp : U -> U -> Z) {Hattr : Comparator attr_cmp} (zero : U) (read_attr : list Z -> U).
Context {A : Type} {PA : PageAllocator A}.
#[local] Hint Extern 0 KeyOrder => exact (attribute_key attr_cmp zero) : typeclass_instances.
#[local] Abbreviation Index := (BplusTreeIndex attr_cmp zero (A := A)).
#[local] Instance bplus_index : TableIndex Index := bplus_tree_index attr_cmp zero read_attr.

Definition key_rids (es : list (key * RID)) : Prop := Forall (fun e : key * RID => e.1.(key_rid) = e.2) es /\ NoDup es.*2.

Definition bti_repr (n : nat) (x : Index) (es : list (key * RID)) : Prop :=
  exists base tot imax lmax h, (6 <= imax)%nat /\ (4 <= lmax)%nat /\
    index_repr base tot imax lmax h x.(index_handler) es /\ 3 * Z.of_nat (length es + n) + 2 <= tot /\ key_rids es.

Lemma make_key_rid u rid : rid_ok rid = true -> (make_key attr_cmp zero u rid).(key_rid) = rid.
Proof using Type. intros H. unfold make_key. by destruct (bool_dec _ _). Qed.

Lemma make_key_user u rid : rid_ok rid = true -> (make_key attr_cmp zero u rid).(user_key) = u.
Proof using Type. intros H. unfold make_key. by destruct (bool_dec _ _). Qed.

Lemma compare_key_rid (k k' : key) : compare k k' = 0 -> k.(key_rid) = k'.(key_rid).
Proof using Type.
  destruct k as [u r Hr], k' as [u' r' Hr']. cbn. unfold key_compare. cbn [user_key key_rid].
  destruct (Z.eqb_spec (attr_cmp u u') 0); cbn [negb]; [|lia]. rewrite rid_compare_ok by done.
  destruct r as [p s], r' as [p' s']. cbn. destruct (decide _); intros; f_equal; lia.
Qed.

Lemma compare_entry_rid (e : key * RID) (k : key) :
  (compare e.1 k =? 0) = true -> e.1.(key_rid) = k.(key_rid).
Proof using Type. intros E%Z.eqb_eq. by apply compare_key_rid. Qed.

Lemma sorted_insert_fresh (k : key) rid es : k.(key_rid) = rid -> key_rids es -> rid ∉ es.*2 ->
  exists es', sorted_insert k rid es = Some es' /\ es' ≡ₚ (k, rid) :: es /\ key_rids es'.
Proof using Type.
  intros Hk [Hf Hnd] Hni.
  assert (exists es', sorted_insert k rid es = Some es' /\ es' ≡ₚ (k, rid) :: es) as (es' & E & Hp).
  { clear Hnd. induction Hf as [|e es He _ IH]; cbn [sorted_insert]; [by eexists|].
    rewrite fmap_cons in Hni. apply not_elem_of_cons in Hni as [Hne Hni].
    destruct (_ =? 0) eqn:E; [apply compare_entry_rid in E; congruence|].
    destruct (_ <? 0); [|eexists; split; reflexivity]. destruct (IH Hni) as (es' & -> & Hp). cbn. eexists. split; [done|].
    rewrite Hp. constructor. }
  exists es'. split_and!; [done..|]. split; rewrite Hp; cbn; by constructor.
Qed.

Lemma sorted_delete_present (k : key) rid es : k.(key_rid) = rid -> key_rids es -> (k, rid) ∈ es ->
  exists es', sorted_delete k es = Some es' /\ es ≡ₚ (k, rid) :: es' /\ key_rids es'.
Proof using Type.
  intros Hk [Hf Hnd] Hin.
  assert (exists es', sorted_delete k es = Some es' /\ es ≡ₚ (k, rid) :: es') as (es' & E & Hp).
  { induction Hf as [|e es He Hf IH]; [by apply not_elem_of_nil in Hin|]. cbn [sorted_delete].
    rewrite fmap_cons in Hnd. apply NoDup_cons in Hnd as [Hni Hnd]. apply elem_of_cons in Hin.
    destruct (_ =? 0) eqn:E; [apply compare_entry_rid in E|apply Z.eqb_neq in E].
    - exists es. split; [done|]. destruct Hin as [<-|Hin]; [done|]. destruct Hni.
      apply list_elem_of_fmap. exists (k, rid). split; [by rewrite <- He, E|done].
    - destruct Hin as [<-|Hin]; [by rewrite cmp_refl in E|]. destruct (IH Hnd Hin) as (es' & -> & Hp).
      eexists. split; [done|]. rewrite Hp. constructor. }
  exists es'. split_and!; [done..|]. split.
  - rewrite Hp in Hf. by apply Forall_cons in Hf as [_ ?].
  - rewrite Hp in Hnd. by apply NoDup_cons in Hnd as [_ ?].
Qed.

Lemma sorted_delete_fresh (k : key) es : key_rids es -> k.(key_rid) ∉ es.*2 -> sorted_delete k es = None.
Proof using Type.
  intros [Hf _] Hni. induction Hf as [|e es He _ IH]; [done|]. cbn [sorted_delete]. rewrite fmap_cons in Hni. apply not_elem_of_cons in Hni as [Hne Hni].
  destruct (_ =? 0) eqn:E; [apply compare_entry_rid in E; congruence|]. by rewrite IH.
Qed.

#[export] Instance bplus_index_laws : TableIndexLaws Index.
Proof using Type.
  refine {| idx_K := key; idx_key := entry_key attr_cmp zero read_attr; idx_repr := bti_repr |}.
  - intros n x es (base & tot & imax & lmax & h & Hi & Hl & Hr & Htot & Hk). exists base, tot, imax, lmax, h.
    split_and!; [done..|lia|done].
  - intros n x es d rid (base & tot & imax & lmax & h & Hi & Hl & Hr & Htot & Hk) Hrid Hni.
    change (index_insert x d rid) with (bti_insert_entry attr_cmp zero read_attr x d rid). unfold bti_insert_entry.
    set (k := entry_key attr_cmp zero read_attr x d rid).
    destruct (sorted_insert_fresh k rid es (make_key_rid _ _ Hrid) Hk Hni) as (es' & Es & Hp & Hk').
    pose proof (insert_entry_ok base tot imax lmax h _ es k rid ltac:(lia) ltac:(lia) Hr
      (index_room base tot imax lmax h _ es ltac:(lia) ltac:(lia) Hr ltac:(lia))) as H.
    rewrite Es in H. destruct H as (s' & h' & -> & Hr' & _). cbn [mbind option_bind rc_of].
    exists SUCCESS, (with_handler x s'), es'. split_and!; [done| |done|done].
    exists base, tot, imax, lmax, h'. split_and!; [done..| |done].
    apply Permutation_length in Hp. cbn [length] in Hp. lia.
  - intros n x es d rid (base & tot & imax & lmax & h & Hi & Hl & Hr & Htot & Hk) Hrid Hin.
    change (index_delete x d rid) with (bti_delete_entry attr_cmp zero read_attr x d rid). unfold bti_delete_entry.
    set (k := entry_key attr_cmp zero read_attr x d rid) in *.
    destruct (sorted_delete_present k rid es (make_key_rid _ _ Hrid) Hk Hin) as (es' & Es & Hp & Hk').
    pose proof (delete_entry_ok base tot imax lmax h _ es k Hi Hl Hr) as H.
    rewrite Es in H. destruct H as (s' & h' & -> & Hr' & _). cbn [mbind option_bind rc_of].
    exists (with_handler x s'), es'. split_and!; [done| |done|done].
    exists base, tot, imax, lmax, h'. split_and!; [done..| |done].
    apply Permutation_length in Hp. cbn [length] in Hp. lia.
  - intros n x es d rid (base & tot & imax & lmax & h & Hi & Hl & Hr & Htot & Hk) Hrid Hni.
    change (index_delete x d rid) with (bti_delete_entry attr_cmp zero read_attr x d rid). unfold bti_delete_entry.
    set (k := entry_key attr_cmp zero read_attr x d rid) in *.
    pose proof (delete_entry_ok base tot imax lmax h _ es k Hi Hl Hr) as H.
    rewrite sorted_delete_fresh in H; [|done|unfold k, entry_key; by rewrite make_key_rid]. rewrite H. cbn. by destruct x.
Defined.
End bplus_laws.

(** ** Histories of a table *)

Section table_history.
Import HeapTable.
Context {X : Type} `{HX : TableIndex X} {HL : TableIndexLaws X}.
Context (first : gset Z -> Z) (rec_size ncol : Z).
#[local] Abbreviation Table := (HeapTableEngine X).

(** A client inserts a record, or reads the record at a location and deletes it. *)
Inductive TableOp := TInsert (record : list Z) | TDelete (rid : RID).

Definition exec_table (t : Table) (op : TableOp) : option (RC * RID * Table) :=
  match op with
  | TInsert d => insert_record first rec_size ncol t d
  | TDelete rid =>
      let '(rc, d) := get_record t rid in
      if OB_FAIL rc then Some (rc, rid, t) else '(rc, t) ← delete_record t d rid; Some (rc, rid, t)
  end.

Fixpoint run_table (t : Table) (ops : list TableOp) : option (list (RC * RID) * Table) :=
  match ops with
  | [] => Some ([], t)
  | op :: ops' => '(rc, rid, t) ← exec_table t op; '(l, t) ← run_table t ops'; Some ((rc, rid) :: l, t)
  end.

(** The specification: the records of the table as a map, changed by the calls that
    succeed. *)
Definition Records := RID -> option (list Z).
Definition apply_op (m : Records) (op : TableOp) (res : RC * RID) : Records :=
  if OB_SUCC res.1 then
    fun r => if decide (r = res.2) then match op with TInsert d => Some d | TDelete _ => None end else m r
  else m.
Fixpoint apply_ops (m : Records) (ops : list TableOp) (l : list (RC * RID)) : Records :=
  match ops, l with op :: ops', res :: l' => apply_ops (apply_op m op res) ops' l' | _, _ => m end.

Lemma apply_ops_ext m m' ops l r : (forall r, m r = m' r) -> apply_ops m ops l r = apply_ops m' ops l r.
Proof using.
  revert m m' l. induction ops as [|op ops IH]; intros m m' [|res l] H; cbn [apply_ops]; [apply H..|].
  apply IH. intros r'. unfold apply_op. destruct (OB_SUCC _); [|apply H]. case_decide; [done|apply H].
Qed.

Definition op_ok (op : TableOp) : Prop :=
  match op with TInsert d => zlen d = rec_size | TDelete rid => 0 <= rid.(slot_num) end.

Lemma exec_table_ok n t op : (forall S, S ≠ ∅ -> first S ∈ S) -> layout_args_ok rec_size ncol -> op_ok op ->
  table_ok rec_size (S n) t ->
  exists rc rid t', exec_table t op = Some (rc, rid, t') /\ table_ok rec_size n t' /\
    forall r, RecordFile.record_at t'.(record_handler) r = apply_op (RecordFile.record_at t.(record_handler)) op (rc, rid) r.
Proof using.
  intros Hfirst Hlay Hop Hok. destruct op as [d|rid]; cbn [exec_table op_ok] in *.
  - destruct (insert_table_ok first Hfirst rec_size ncol n t d Hlay Hop Hok) as (rc & rid & t' & E & Hok' & Hr).
    exists rc, rid, t'. split_and!; [done..|]. unfold apply_op. cbn [fst snd].
    destruct (OB_SUCC rc); [by destruct Hr|done].
  - assert (table_ok rec_size n t) as Hok'.
    { destruct Hok as [? ? ? Hidx]. split; try done. eapply Forall_impl; [done|]. intros x. apply consistent_less. }
    unfold get_record. pose proof (RecordFile.get_record_file_ok rec_size t.(record_handler) rid (to_file _ _ _ Hok) Hop) as Hg.
    destruct (RecordFile.record_at t.(record_handler) rid) as [d|] eqn:Hd.
    + rewrite Hg. rc_simpl.
      destruct (delete_table_ok rec_size n t d rid Hok' Hd) as (t' & -> & Hok'' & Hn & Hr). bind_step.
      exists SUCCESS, rid, t'. split_and!; [done..|]. intros r. unfold apply_op. cbn [fst snd].
      change (OB_SUCC SUCCESS) with true. cbn beta iota. specialize (Hr r). case_decide; [by subst|done].
    + destruct (RecordFile.get_record t.(record_handler) rid) as [rc d]. cbn [fst] in Hg.
      assert (OB_SUCC rc = false) as Hrc by (rewrite OB_FAIL_negb in Hg; by apply negb_true_iff).
      rewrite OB_FAIL_negb, Hrc. exists rc, rid, t. split_and!; [done..|]. intros r. unfold apply_op. cbn [fst]. by rewrite Hrc.
Qed.
End table_history.

Lemma run_table_ok {X : Type} `{HX : TableIndex X} `{HL : !TableIndexLaws X}
    (first : gset Z -> Z) (rec_size ncol : Z) (n : nat) (t : HeapTable.HeapTableEngine X) (ops : list TableOp) :
  (forall S, S ≠ ∅ -> first S ∈ S) -> layout_args_ok rec_size ncol -> Forall (op_ok rec_size) ops ->
  table_ok rec_size (length ops + n) t ->
  exists l t', run_table first rec_size ncol t ops = Some (l, t') /\ table_ok rec_size n t' /\
    forall r, RecordFile.record_at t'.(HeapTable.record_handler) r =
              apply_ops (RecordFile.record_at t.(HeapTable.record_handler)) ops l r.
Proof.
  intros Hfirst Hlay Hops. revert t. induction Hops as [|op ops Hop _ IH]; intros t Hok; [by exists [], t|].
  destruct (exec_table_ok first rec_size ncol _ t op Hfirst Hlay Hop Hok) as (rc & rid & t1 & E & Hok1 & Hr1).
  destruct (IH t1 Hok1) as (l & t' & E' & Hok' & Hr'). exists ((rc, rid) :: l), t'. cbn [run_table]. rewrite E. bind_step.
  rewrite E'. split_and!; [done..|]. intros r. rewrite Hr'. cbn [apply_ops]. apply apply_ops_ext, Hr1.
Qed.

(** ** Creating an index *)

Section creating.
Import HeapTable.
Context {X : Type} `{HX : TableIndex X} {HL : TableIndexLaws X}.
Context (rec_size : Z).
#[local] Abbreviation Table := (HeapTableEngine X).

Lemma pages_records_pages flt vis f pns rid d :
  (rid, d) ∈ RecordFile.pages_records flt vis f pns -> rid.(page_num) ∈ pns.
Proof using.
  induction pns as [|pn pns IH]; cbn; [by intros ?%not_elem_of_nil|].
  destruct (_ !! pn); [|right; by apply IH]. intros [Hin|Hin]%elem_of_app; [|right; by apply IH].
  apply list_elem_of_fmap in Hin as (s & [= -> _] & _). left.
Qed.

Lemma pages_records_nodup flt vis f pns : NoDup pns -> NoDup (RecordFile.pages_records flt vis f pns).*1.
Proof using.
  induction 1 as [|pn pns Hni _ IH]; cbn; [constructor|]. destruct (_ !! pn) as [p|]; [|done].
  rewrite fmap_app. apply NoDup_app. split_and!; [| |done].
  - rewrite <- list_fmap_compose. apply NoDup_fmap_2; [by intros ? ? [= ->]|]. apply NoDup_filter, NoDup_seqZ.
  - intros rid (q & -> & Hq)%list_elem_of_fmap ([rid' d'] & E & Hin)%list_elem_of_fmap.
    apply list_elem_of_fmap in Hq as (s & -> & _). cbn in E. subst rid'. by apply pages_records_pages in Hin.
Qed.

Lemma fill_index_spec n records : forall x es, idx_repr (length records + n) x es ->
  Forall (fun r => rid_ok r.1 = true) records -> NoDup records.*1 -> (forall r, r ∈ records.*1 -> r ∉ es.*2) ->
  exists rc x', fill_index records x = Some (rc, x') /\
    (rc = SUCCESS -> (forall d r, idx_key x' d r = idx_key x d r) /\
      exists es', idx_repr n x' es' /\ es' ≡ₚ map (fun r => (idx_key x r.2 r.1, r.1)) records ++ es).
Proof using.
  induction records as [|[rid d] records IH]; intros x es Hr Hok Hnd Hdis; cbn [fill_index].
  { exists SUCCESS, x. split; [done|]. intros _. split; [done|]. by exists es. }
  apply Forall_cons in Hok as [Hrid Hok]. cbn in Hnd. apply NoDup_cons in Hnd as [Hni Hnd].
  destruct (idx_insert_law _ x es d rid Hr Hrid) as (rc & x1 & es1 & -> & Hr1 & Hk1 & Hp1); [apply Hdis; left|].
  bind_step. case_rc rc Hrc.
  2:{ exists rc, x1. split; [done|]. by intros ->. }
  cbn [app] in Hp1. destruct (IH x1 es1 Hr1 Hok Hnd) as (rc' & x' & E & Hs).
  - intros r Hin. rewrite Hp1. cbn. apply not_elem_of_cons. split; [by intros ->|]. apply Hdis. by right.
  - exists rc', x'. split; [done|]. intros Hrc'. destruct (Hs Hrc') as (Hk & es' & Hr' & Hp').
    split; [intros; by rewrite Hk, Hk1|]. exists es'. split; [done|]. rewrite Hp', Hp1. cbn [map app].
    setoid_rewrite Hk1. cbn [fst snd]. symmetry. apply Permutation_middle.
Qed.

(** With every row visible, the new index holds exactly the stored records. *)
Lemma create_index_ok n fuel vis t x : table_ok rec_size n t -> (forall d, vis d = SUCCESS) ->
  let records := RecordFile.pages_records (fun _ => true) vis t.(record_handler) (RecordFile.data_pages t.(record_handler)) in
  (length records < fuel)%nat -> idx_repr (length records + n) x [] ->
  exists rc t', create_index fuel vis t x = Some (rc, t') /\ table_ok rec_size n t' /\
    t'.(record_handler) = t.(record_handler) /\
    if OB_SUCC rc then length t'.(indexes) = S (length t.(indexes)) else t' = t.
Proof using.
  intros Hok Hvis records Hf Hx. pose proof Hok as [Hfile Hfc Hs Hidx]. unfold create_index.
  destruct (RecordFile.scan_selects rec_size t.(record_handler) (fun _ => true) vis fuel Hfile) as [-> Hin];
    [intros; left; apply Hvis|done|]. fold records in Hin |- *.
  assert (forall rid d, (rid, d) ∈ records <-> RecordFile.record_at t.(record_handler) rid = Some d) as Hrec.
  { intros. rewrite Hin. unfold RecordFile.selected. rewrite Hvis. cbn. naive_solver. }
  assert (NoDup records.*1) as Hnd by (apply pages_records_nodup, NoDup_filter, NoDup_seqZ).
  destruct (fill_index_spec n records x [] Hx) as (rc & x' & -> & Hspec).
  - apply Forall_forall. intros [rid d] Hr. apply Hrec in Hr. by eapply record_at_rid_ok.
  - done.
  - intros r _. apply not_elem_of_nil.
  - bind_step. case_rc rc Hrc.
    2:{ exists rc, t. by rewrite Hrc. }
    rewrite bool_decide_true by done. eexists SUCCESS, _. split; [done|]. cbn [record_handler indexes].
    destruct (Hspec Hrc) as (Hk & es' & Hr' & Hp'). rewrite app_nil_r in Hp'.
    split_and!; [|done|by rewrite length_app, Nat.add_1_r]. split; try done. cbn [record_handler indexes].
    apply Forall_app. split; [done|]. constructor; [|done]. exists es'. split; [done|]. split.
    + rewrite Hp'. apply (NoDup_fmap_1 snd). by rewrite <- list_fmap_compose.
    + intros k r. rewrite Hp', list_elem_of_fmap. setoid_rewrite Hk. split.
      * intros ([r' d] & [= -> ->] & Hi). exists d. split; [by apply Hrec|done].
      * intros (d & Hd & ->). exists (r, d). split; [done|]. by apply Hrec.
Qed.
End creating.

(** ** Lookups by an indexed attribute *)

(** The rows of the table file, in the order of a scan. *)
Definition all_rows (f : RecordFile.RecFile) : list (RID * list Z) :=
  RecordFile.pages_records (fun _ => true) (fun _ => SUCCESS) f (RecordFile.data_pages f).

Lemma elem_of_all_rows rec_size f rid d : RecordFile.file_ok rec_size f ->
  (rid, d) ∈ all_rows f <-> RecordFile.record_at f rid = Some d.
Proof.
  intros Hok.
  destruct (RecordFile.scan_selects rec_size f (fun _ => true) (fun _ => SUCCESS) (S (length (all_rows f))) Hok) as [_ Hin];
    [by left|unfold all_rows; lia|].
  unfold all_rows. rewrite Hin. unfold RecordFile.selected. naive_solver.
Qed.

Lemma all_rows_nodup f : NoDup (all_rows f).*1.
Proof. apply pages_records_nodup, NoDup_filter, NoDup_seqZ. Qed.

Section lookup.
Import HeapTable.
Context {U : Type} (attr_cmp : U -> U -> Z) {Hattr : Comparator attr_cmp} (zero : U) (read_attr : list Z -> U).
Context {A : Type} {PA : PageAllocator A}.
#[local] Hint Extern 0 KeyOrder => exact (attribute_key attr_cmp zero) : typeclass_instances.
#[local] Abbreviation Index := (BplusTreeIndex attr_cmp zero (A := A)).
#[local] Existing Instance bplus_index.

Lemma entries_length rec_size f (x : Index) es : RecordFile.file_ok rec_size f ->
  NoDup es.*2 -> entries_of (HL := bplus_index_laws attr_cmp zero read_attr) f x es -> length es = length (all_rows f).
Proof using Type.
  intros Hok Hnd [_ Hc]. rewrite <- (length_fmap snd es), <- (length_fmap fst (all_rows f)). apply Permutation_length.
  apply NoDup_Permutation; [done|apply all_rows_nodup|]. intros r. rewrite !list_elem_of_fmap. split.
  - intros ([k r'] & -> & Hin). apply Hc in Hin as (d & Hd & _). exists (r', d). split; [done|]. by eapply elem_of_all_rows.
  - intros ([r' d] & -> & Hin). eapply elem_of_all_rows in Hin; [|done]. eexists (_, r'). split; [done|]. apply Hc. by exists d.
Qed.

Lemma index_lookup_ok rec_size n (t : HeapTableEngine Index) (x : Index) (u : U) (fuel : nat) :
  table_ok (HL := bplus_index_laws attr_cmp zero read_attr) rec_size n t -> x ∈ t.(indexes) ->
  (length (all_rows t.(record_handler)) < fuel)%nat ->
  exists rids, get_entry attr_cmp (make_key attr_cmp zero) (fun u _ => (u, false)) fuel u x.(index_handler) =
      Some (inr rids, x.(index_handler)) /\ NoDup rids /\
    forall r, r ∈ rids <-> exists d, RecordFile.record_at t.(record_handler) r = Some d /\
      attr_cmp (read_attr (slice d x.(field_offset) x.(field_len))) u = 0.
Proof using Type.
  intros [Hok Hfc Hs Hidx] Hx Hf. rewrite Forall_forall in Hidx. apply Hidx in Hx as (es & Hr & He).
  destruct Hr as (base & tot & imax & lmax & h & Hi & Hl & Hr & _ & Hk & Hnd).
  pose proof (entries_length rec_size _ x es Hok Hnd He) as Hlen.
  eexists. split; [apply (get_entry_finds attr_cmp zero base tot imax lmax h _ es); [lia|lia|done|exact (Nat.le_lt_trans _ _ _ (Nat.eq_le_incl _ _ Hlen) Hf)]|]. split.
  - eapply sublist_NoDup; [exact Hnd|]. apply fmap_sublist, sublist_filter.
  - intros r. rewrite list_elem_of_fmap. setoid_rewrite list_elem_of_filter. split.
    + intros ([k r'] & -> & Hu & Hin). apply He in Hin as (d & Hd & ->). exists d. split; [done|]. revert Hu.
      cbn. unfold entry_key. by rewrite make_key_user by by eapply record_at_rid_ok.
    + intros (d & Hd & Hu). eexists (_, r). split; [done|]. split; [|apply He; by exists d].
      cbn. unfold entry_key. by rewrite make_key_user by by eapply record_at_rid_ok.
Qed.

(** C20: On a table whose indexes are B+ trees, a lookup of an attribute value in an index,
    with fuel for one more step than there are rows, returns the locations of exactly the
    stored records whose attribute compares equal to the value, each of them once, and
    leaves the index unchanged. *)
Theorem index_lookup_finds_rows rec_size n (t : HeapTableEngine Index) (x : Index) (u : U) (fuel : nat) :
  table_ok (HL := bplus_index_laws attr_cmp zero read_attr) rec_size n t -> x ∈ t.(indexes) ->
  (length (all_rows t.(record_handler)) < fuel)%nat ->
  exists rids, get_entry attr_cmp (make_key attr_cmp zero) (fun u _ => (u, false)) fuel u x.(index_handler) =
      Some (inr rids, x.(index_handler)) /\ NoDup rids /\
    forall r, r ∈ rids <-> exists d, RecordFile.record_at t.(record_handler) r = Some d /\
      attr_cmp (read_attr (slice d x.(field_offset) x.(field_len))) u = 0.
Proof using Type. apply index_lookup_ok. Qed.
End lookup.

(** ** A table with an index on an integer column *)

Section int_table.
Import HeapTable.
#[local] Existing Instance compare_int_comparator.

(** Little-endian 32-bit integers, as [memcpy] into an [int] reads them. *)
Definition read_int (bytes : list Z) : Z := int32 (le_value bytes).
#[local] Instance int_index : TableIndex (BplusTreeIndex compare_int 0) := bplus_tree_index compare_int 0 read_int.
#[local] Instance int_index_laws : TableIndexLaws (BplusTreeIndex compare_int 0) := bplus_index_laws compare_int 0 read_int.

Definition empty_index : BplusTreeIndex compare_int 0 := mkIndex 0 4 empty_tree.
Definition demo_table : HeapTableEngine (BplusTreeIndex compare_int 0) := mkTable RecordFile.demo_file [empty_index].
Definition demo_ops : list TableOp :=
  [TInsert [7; 0; 0; 0]; TInsert [9; 0; 0; 0]; TInsert [7; 0; 0; 0]; TDelete (mkRID 1 1); TDelete (mkRID 1 1)].

Lemma empty_index_repr n : Z.of_nat n <= 20000 -> idx_repr n empty_index [].
Proof.
  intros Hn. exists {[0; 1]}, (PageAlloc.MAX_PAGE_NUM - 2), 6%nat, 4%nat, 0%nat.
  split_and!; [lia|lia|exact empty_tree_repr| |split; constructor].
  change (3 * Z.of_nat n + 2 <= 65344 - 2). lia.
Qed.

Lemma demo_table_ok n : Z.of_nat n <= 20000 -> table_ok 4 n demo_table.
Proof.
  intros Hn. split; [apply RecordFile.demo_file_ok..| |].
  - apply map_Forall_empty.
  - constructor; [|constructor]. exists []. split; [by apply empty_index_repr|]. split; [constructor|].
    intros k r. split; [by intros ?%not_elem_of_nil|]. by intros (d & Hd & _).
Qed.


Example demo_history :
  fst <$> run_table RecordFile.demo_first 4 0 demo_table demo_ops =
  Some [(SUCCESS, mkRID 1 0); (SUCCESS, mkRID 1 1); (SUCCESS, mkRID 1 2); (SUCCESS, mkRID 1 1); (RECORD_NOT_EXIST, mkRID 1 1)].
Proof. vm_compute. reflexivity. Qed.

(** The table after the operations, and its index. *)
Definition demo_table2 : HeapTableEngine (BplusTreeIndex compare_int 0) :=
  match run_table RecordFile.demo_first 4 0 demo_table demo_ops with Some (_, t) => t | None => demo_table end.
Definition demo_index2 : BplusTreeIndex compare_int 0 := default empty_index (head demo_table2.(indexes)).

Lemma demo_table2_ok : table_ok 4 100 demo_table2.
Proof.
  destruct (run_table_ok RecordFile.demo_first 4 0 100 demo_table demo_ops RecordFile.demo_first_in
    RecordFile.demo_layout ltac:(repeat constructor; cbn; lia) (demo_table_ok (length demo_ops + 100) ltac:(by vm_compute))) as (l & t & E & Ht & _).
  unfold demo_table2. by rewrite E.
Qed.

Lemma index_lookup_finds_rows_witness :
  exists rids, get_entry compare_int (make_key compare_int 0) (fun u _ => (u, false)) 9 7 demo_index2.(index_handler) =
      Some (inr rids, demo_index2.(index_handler)) /\ NoDup rids /\
    forall r, r ∈ rids <-> exists d, RecordFile.record_at demo_table2.(record_handler) r = Some d /\
      compare_int (read_int (slice d demo_index2.(field_offset) demo_index2.(field_len))) 7 = 0.
Proof.
  refine (index_lookup_finds_rows compare_int 0 read_int 4 100 demo_table2 demo_index2 7 9 demo_table2_ok _ _).
  - assert (length demo_table2.(indexes) = 1%nat) as Hl by (vm_compute; reflexivity).
    unfold demo_index2. destruct (indexes demo_table2) as [|x l]; [discriminate|]. left.
  - assert (length (all_rows demo_table2.(record_handler)) = 2%nat) as -> by (vm_compute; reflexivity). lia.
Defined.

Example demo_lookup :
  fst <$> get_entry compare_int (make_key compare_int 0) (fun u _ => (u, false)) 9 7 demo_index2.(index_handler) =
  Some (inr [mkRID 1 0; mkRID 1 2]).
Proof. vm_compute. reflexivity. Qed.

(** [create_index] indexes only the rows that its transaction sees.  A row that is
    hidden from it (one that another transaction has inserted and not committed) is not in
    the new index, and deleting that row afterwards, as the rollback of the other
    transaction does, fails the assertion in [delete_record]. *)
Theorem create_index_misses_rows :
  let hidden := fun d => if decide (d = [9; 0; 0; 0]) then RECORD_INVISIBLE else SUCCESS in
  let t0 := match run_table RecordFile.demo_first 4 0 (mkTable RecordFile.demo_file []) [TInsert [7; 0; 0; 0]; TInsert [9; 0; 0; 0]]
            with Some (_, t) => t | None => demo_table end in
  match create_index 9 hidden t0 empty_index with
  | Some (rc, t) => rc = SUCCESS /\ get_record t (mkRID 1 1) = (SUCCESS, [9; 0; 0; 0]) /\
      delete_record t [9; 0; 0; 0] (mkRID 1 1) = None
  | None => False
  end.
Proof. vm_compute. split_and!; reflexivity. Qed.
End int_table.
