(* ===== verification/RingBuffer.v ===== *)
(** * RingBuffer: the byte queue between a session and its socket

    Models [src/src/observer/net/ring_buffer.cpp] and the accessors in
    [ring_buffer.h].  The buffer is a queue of bytes in a fixed circular array;
    [content] is the abstract queue and the theorems say that [write] appends to it
    and [read] takes from its front. *)

From S2P Require Import Prelude.

Module RingBuffer.

Record t := mk { buffer_ : list Z; data_size_ : Z; write_pos_ : Z }.

(** [RingBuffer(int32_t size)]: a vector of zero bytes. *)
Definition make (size : Z) : t := mk (replicate (Z.to_nat size) 0) 0 0.

Definition capacity (b : t) : Z := zlen b.(buffer_).
Definition size (b : t) : Z := b.(data_size_).
Definition remain (b : t) : Z := capacity b - size b.
Definition read_pos (b : t) : Z := Z.rem (b.(write_pos_) - size b + capacity b) (capacity b).

(** [buffer]: the position and the length of the readable run of bytes. *)
Definition buffer (b : t) : RC * Z * Z :=
  if size b =? 0 then (SUCCESS, 0, 0)
  else
    let rp := read_pos b in
    (SUCCESS, rp, if rp <? b.(write_pos_) then b.(write_pos_) - rp else capacity b - rp).

Definition forward (b : t) (n : Z) : RC * t :=
  if n <=? 0 then (INVALID_ARGUMENT, b)
  else if size b <? n then (INVALID_ARGUMENT, b)
  else (SUCCESS, mk b.(buffer_) (b.(data_size_) - n) b.(write_pos_)).

(** The loop of [read]: [out] is what has been copied so far, [read_size] its
    length.  Every round copies at least one byte. *)
Fixpoint read_loop (fuel : nat) (b : t) (n : Z) (rc : RC) (out : list Z) (read_size : Z) : RC * t * list Z * Z :=
  match fuel with
  | O => (rc, b, out, read_size)
  | S fuel' =>
      if OB_SUCC rc && (read_size <? n) && (0 <? size b) then
        let '(rc1, tmp_buf, tmp_size) := buffer b in
        if OB_SUCC rc1 then
          let copy_size := Z.min (n - read_size) tmp_size in
          let out' := out ++ slice b.(buffer_) tmp_buf copy_size in
          let '(rc2, b') := forward b copy_size in
          read_loop fuel' b' n rc2 out' (read_size + copy_size)
        else read_loop fuel' b n rc1 out read_size
      else (rc, b, out, read_size)
  end.

Definition read (b : t) (n : Z) : RC * t * list Z * Z :=
  if n <? 0 then (INVALID_ARGUMENT, b, [], 0)
  else read_loop (S (Z.to_nat n)) b n SUCCESS [] 0.

Fixpoint write_loop (fuel : nat) (b : t) (data : list Z) (n write_size : Z) : t * Z :=
  match fuel with
  | O => (b, write_size)
  | S fuel' =>
      if (write_size <? n) && (0 <? remain b) then
        let rp := read_pos b in
        let tmp_buf_size := if rp <=? b.(write_pos_) then capacity b - b.(write_pos_) else rp - b.(write_pos_) in
        let copy_size := Z.min (n - write_size) tmp_buf_size in
        let b' := mk (blit b.(buffer_) b.(write_pos_) (slice data write_size copy_size))
                     (b.(data_size_) + copy_size)
                     (Z.rem (b.(write_pos_) + copy_size) (capacity b)) in
        write_loop fuel' b' data n (write_size + copy_size)
      else (b, write_size)
  end.

Definition write (b : t) (data : list Z) (n : Z) : RC * t * Z :=
  if n <? 0 then (INVALID_ARGUMENT, b, 0)
  else let '(b', w) := write_loop (S (Z.to_nat n)) b data n 0 in (SUCCESS, b', w).

(** ** The abstract queue *)

Definition content (b : t) : list Z :=
  (fun i => znth 0 b.(buffer_) ((read_pos b + i) mod capacity b)) <$> seqZ 0 (size b).

Record ok (b : t) : Prop := {
  ok_cap : 0 < capacity b;
  ok_size : 0 <= b.(data_size_) <= capacity b;
  ok_pos : 0 <= b.(write_pos_) < capacity b
}.

Lemma make_ok n : 0 < n -> ok (make n) /\ content (make n) = [].
Proof.
  intros Hn. split; [|done]. split; unfold capacity, zlen, make; cbn; rewrite length_replicate; lia.
Qed.

(** Where reading starts, without the remainder. *)
Lemma read_pos_cases b : ok b ->
  read_pos b = if b.(data_size_) <=? b.(write_pos_) then b.(write_pos_) - b.(data_size_)
               else b.(write_pos_) - b.(data_size_) + capacity b.
Proof.
  intros [Hc Hs Hp]. unfold read_pos, size. set (c := capacity b) in *.
  rewrite Z.rem_mod_nonneg by lia. destruct (Z.leb_spec b.(data_size_) b.(write_pos_)).
  - replace (b.(write_pos_) - b.(data_size_) + c) with (b.(write_pos_) - b.(data_size_) + 1 * c) by lia.
    rewrite Z.mod_add, Z.mod_small by lia. done.
  - rewrite Z.mod_small by lia. done.
Qed.

Lemma read_pos_range b : ok b -> 0 <= read_pos b < capacity b.
Proof.
  intros Hok. rewrite read_pos_cases by done. destruct Hok as [Hc Hs Hp].
  destruct (Z.leb_spec b.(data_size_) b.(write_pos_)); lia.
Qed.

(** The physical index of the [i]-th queued byte. *)
Lemma wrap_index c r i : 0 <= r < c -> 0 <= i < c ->
  (r + i) mod c = if r + i <? c then r + i else r + i - c.
Proof.
  intros Hr Hi. destruct (Z.ltb_spec (r + i) c); [by rewrite Z.mod_small by lia|].
  replace (r + i) with (r + i - c + 1 * c) at 1 by lia. rewrite Z.mod_add, Z.mod_small by lia. done.
Qed.

Lemma content_lookup b i : (content b !! i) =
  if (Z.of_nat i <? size b) then Some (znth 0 b.(buffer_) ((read_pos b + Z.of_nat i) mod capacity b)) else None.
Proof.
  unfold content. rewrite list_lookup_fmap. destruct (Z.ltb_spec (Z.of_nat i) (size b)).
  - rewrite lookup_seqZ_lt by lia. done.
  - rewrite lookup_seqZ_ge by lia. done.
Qed.

Lemma content_length b : ok b -> zlen (content b) = size b.
Proof. intros [_ Hs _]. unfold zlen, content, size. rewrite length_fmap, length_seqZ. lia. Qed.

Lemma znth_slice l off n i : 0 <= off -> 0 <= i < n -> off + n <= zlen l ->
  slice l off n !! Z.to_nat i = Some (znth 0 l (off + i)).
Proof.
  intros Ho Hi Hl. unfold slice, znth, zlen in *. rewrite lookup_take. rewrite decide_True by lia.
  rewrite lookup_drop. destruct (Z.ltb_spec (off + i) 0); [lia|].
  rewrite nth_lookup. replace (Z.to_nat off + Z.to_nat i)%nat with (Z.to_nat (off + i)) by lia.
  destruct (lookup_lt_is_Some_2 l (Z.to_nat (off + i))) as [x Hx]; [lia|]. by rewrite Hx.
Qed.

Lemma znth_blit l off src i : 0 <= off -> off + zlen src <= zlen l -> 0 <= i < zlen l ->
  znth 0 (blit l off src) i =
  if (off <=? i) && (i <? off + zlen src) then znth 0 src (i - off) else znth 0 l i.
Proof.
  intros Ho Hl Hi. unfold znth, blit, zlen in *. destruct (Z.ltb_spec i 0); [lia|]. rewrite !nth_lookup.
  destruct (Z.leb_spec off i), (Z.ltb_spec i (off + Z.of_nat (length src))); cbn.
  - destruct (Z.ltb_spec (i - off) 0); [lia|]. rewrite lookup_app_r, length_take by (rewrite length_take; lia).
    rewrite lookup_app_l by lia. do 2 f_equal. lia.
  - rewrite lookup_app_r, length_take by (rewrite length_take; lia).
    rewrite lookup_app_r, lookup_drop by lia. do 2 f_equal. lia.
  - rewrite lookup_app_l by (rewrite length_take; lia). rewrite lookup_take. by rewrite decide_True by lia.
  - rewrite lookup_app_l by (rewrite length_take; lia). rewrite lookup_take. by rewrite decide_True by lia.
Qed.

(** *** One chunk *)

Lemma forward_content b n : ok b -> 0 < n <= size b ->
  let b' := mk b.(buffer_) (b.(data_size_) - n) b.(write_pos_) in
  forward b n = (SUCCESS, b') /\ ok b' /\ content b' = drop (Z.to_nat n) (content b).
Proof.
  intros Hok Hn. cbn zeta. unfold forward.
  destruct (Z.leb_spec n 0); [lia|]. destruct (Z.ltb_spec (size b) n); [lia|]. split; [done|].
  set (b' := mk _ _ _). assert (ok b') as Hok'.
  { destruct Hok as [Hc Hs Hp]. change (capacity b) with (capacity b') in *. split; cbn; unfold size in *; [done|lia|done]. }
  split; [done|]. apply list_eq. intros i. rewrite lookup_drop, !content_lookup.
  pose proof (read_pos_cases b Hok) as R. pose proof (read_pos_cases b' Hok') as R'.
  destruct Hok as [Hc Hs Hp]. unfold size in *. cbn [data_size_ write_pos_ buffer_ b'] in *.
  change (capacity b') with (capacity b) in *. set (c := capacity b) in *.
  destruct (Z.ltb_spec (Z.of_nat i) (b.(data_size_) - n)), (Z.ltb_spec (Z.of_nat (Z.to_nat n + i)) b.(data_size_));
    try lia; [|done]. do 2 f_equal. rewrite R, R'.
  destruct (Z.leb_spec (b.(data_size_) - n) b.(write_pos_)), (Z.leb_spec b.(data_size_) b.(write_pos_)); try lia.
  - f_equal. lia.
  - rewrite !wrap_index by lia.
    destruct (Z.ltb_spec (b.(write_pos_) - (b.(data_size_) - n) + Z.of_nat i) c),
      (Z.ltb_spec (b.(write_pos_) - b.(data_size_) + c + Z.of_nat (Z.to_nat n + i)) c); lia.
  - f_equal. lia.
Qed.

(** [buffer] shows a non-empty prefix of the queue. *)
Lemma buffer_content b : ok b -> 0 < size b ->
  let '(rc, pos, n) := buffer b in
  rc = SUCCESS /\ 0 < n <= size b /\ 0 <= pos /\ pos + n <= capacity b /\
  forall k, 0 <= k <= n -> slice b.(buffer_) pos k = take (Z.to_nat k) (content b).
Proof.
  intros Hok Hsz. unfold buffer. destruct (Z.eqb_spec (size b) 0) as [|_]; [lia|].
  pose proof (read_pos_cases b Hok) as R. pose proof (read_pos_range b Hok) as RR.
  pose proof Hok as [Hc Hs Hp]. unfold size in *.
  set (n := if read_pos b <? b.(write_pos_) then _ else _).
  assert (0 < n <= b.(data_size_) /\ read_pos b + n <= capacity b) as [Hn Hfit].
  { unfold n. destruct (Z.ltb_spec (read_pos b) b.(write_pos_)); rewrite R in *;
      destruct (Z.leb_spec b.(data_size_) b.(write_pos_)); lia. }
  split_and!; try done; try lia. intros k Hk. apply list_eq. intros i.
  rewrite lookup_take. case_decide as Hi.
  - rewrite content_lookup. destruct (Z.ltb_spec (Z.of_nat i) (size b)); unfold size in *; [|lia].
    rewrite <- (Nat2Z.id i) at 1. rewrite znth_slice by (unfold capacity in *; lia).
    rewrite Z.mod_small by lia. done.
  - apply lookup_ge_None. unfold slice. rewrite length_take. lia.
Qed.

(** Writing a chunk that fits without wrapping appends it. *)
Lemma chunk_content b src : ok b -> 0 < zlen src -> zlen src <= remain b ->
  b.(write_pos_) + zlen src <= capacity b ->
  let b' := mk (blit b.(buffer_) b.(write_pos_) src) (b.(data_size_) + zlen src)
               (Z.rem (b.(write_pos_) + zlen src) (capacity b)) in
  ok b' /\ capacity b' = capacity b /\ content b' = content b ++ src.
Proof.
  intros Hok H0 Hrem Hfit. cbn zeta. set (b' := mk _ _ _). pose proof Hok as [Hc Hs Hp].
  assert (capacity b' = capacity b) as Hcap.
  { unfold capacity, b', zlen. cbn. rewrite blit_length by (unfold capacity in *; lia). done. }
  unfold remain, size in *.
  assert (b'.(write_pos_) = if b.(write_pos_) + zlen src =? capacity b then 0 else b.(write_pos_) + zlen src) as W.
  { cbn. rewrite Z.rem_mod_nonneg by lia. destruct (Z.eqb_spec (b.(write_pos_) + zlen src) (capacity b)) as [->|].
    - apply Z_mod_same_full. - apply Z.mod_small. lia. }
  assert (ok b') as Hok'.
  { split; rewrite ?Hcap; [done|cbn; lia|]. rewrite W. destruct (Z.eqb_spec (b.(write_pos_) + zlen src) (capacity b)); lia. }
  split; [done|]. split; [done|].
  pose proof (read_pos_cases b Hok) as R. pose proof (read_pos_cases b' Hok') as R'. rewrite Hcap, W in R'.
  change (b'.(data_size_)) with (b.(data_size_) + zlen src) in R'.
  assert (forall j, 0 <= j < b.(data_size_) + zlen src ->
    (read_pos b' + j) mod capacity b' = (read_pos b + j) mod capacity b) as Hidx.
  { intros j Hj. rewrite Hcap, R, R'. set (c := capacity b) in *.
    destruct (Z.eqb_spec (b.(write_pos_) + zlen src) c) as [E|E].
    - destruct (Z.leb_spec (b.(data_size_) + zlen src) 0); [lia|].
      destruct (Z.leb_spec b.(data_size_) b.(write_pos_)); f_equal; lia.
    - destruct (Z.leb_spec (b.(data_size_) + zlen src) (b.(write_pos_) + zlen src)),
        (Z.leb_spec b.(data_size_) b.(write_pos_)); try lia; f_equal; lia. }
  apply list_eq. intros i. rewrite content_lookup. unfold size.
  change (b'.(data_size_)) with (b.(data_size_) + zlen src).
  assert (length (content b) = Z.to_nat b.(data_size_)) as Hlen.
  { pose proof (content_length b Hok). unfold zlen, size in *. lia. }
  destruct (Z.ltb_spec (Z.of_nat i) (b.(data_size_) + zlen src)) as [Hi|Hi].
  2: { symmetry. apply lookup_ge_None. rewrite length_app, Hlen. unfold zlen in *. lia. }
  rewrite Hidx by lia. cbn [buffer_ b'].
  pose proof (read_pos_range b Hok) as RR.
  assert (0 <= (read_pos b + Z.of_nat i) mod capacity b < capacity b) as Hm by (apply Z.mod_pos_bound; lia).
  rewrite znth_blit by (unfold capacity in *; lia).
  rewrite wrap_index in * by lia. rewrite R in *. unfold capacity in *. set (c := zlen b.(buffer_)) in *.
  destruct (Z.lt_ge_cases (Z.of_nat i) b.(data_size_)) as [Hlt|Hge].
  - rewrite lookup_app_l by lia. rewrite content_lookup. unfold size.
    destruct (Z.ltb_spec (Z.of_nat i) b.(data_size_)); [|lia]. unfold capacity. fold c.
    rewrite R, wrap_index by lia.
    repeat match goal with |- context [?x <=? ?y] => destruct (Z.leb_spec x y)
      | |- context [?x <? ?y] => destruct (Z.ltb_spec x y) end; cbn; try done; lia.
  - rewrite lookup_app_r by lia. rewrite Hlen.
    destruct (lookup_lt_is_Some_2 src (i - Z.to_nat b.(data_size_))) as [x Hx]; [unfold zlen in *; lia|].
    rewrite Hx. assert (znth 0 src (Z.of_nat (i - Z.to_nat b.(data_size_)))  = x) as Hz.
    { unfold znth. destruct (Z.ltb_spec (Z.of_nat (i - Z.to_nat b.(data_size_))) 0); [lia|].
      by rewrite nth_lookup, Nat2Z.id, Hx. }
    rewrite <- Hz.
    repeat match goal with |- context [?x <=? ?y] => destruct (Z.leb_spec x y)
      | |- context [?x <? ?y] => destruct (Z.ltb_spec x y) end; cbn [andb]; try lia; do 2 f_equal; lia.
Qed.

(** *** The loops *)

Lemma write_loop_spec data n fuel : forall b w, ok b -> 0 <= w <= n -> n <= zlen data ->
  n - w < Z.of_nat fuel ->
  let '(b', w') := write_loop fuel b data n w in
  ok b' /\ capacity b' = capacity b /\ w' = w + Z.min (n - w) (remain b) /\
  content b' = content b ++ slice data w (w' - w).
Proof.
  induction fuel as [|fuel IH]; intros b w Hok Hw Hn Hf; [lia|]. cbn [write_loop].
  pose proof Hok as [Hc Hs Hp].
  assert (0 <= remain b) as Hrem by (unfold remain, size; lia).
  destruct (Z.ltb_spec w n) as [H1|H1]; [destruct (Z.ltb_spec 0 (remain b)) as [H2|H2]|]; cbn [andb].
  2,3: split_and!; [done|done|lia|]; replace (w - w) with 0 by lia; by rewrite app_nil_r.
  pose proof (read_pos_cases b Hok) as R. pose proof (read_pos_range b Hok) as RR.
  set (tmp := if _ <=? _ then _ else _). set (cs := Z.min (n - w) tmp).
  assert (0 < tmp <= remain b /\ b.(write_pos_) + tmp <= capacity b) as [Ht Hfit].
  { unfold tmp, remain, size in *. destruct (Z.leb_spec (read_pos b) b.(write_pos_)); rewrite R in *;
      destruct (Z.leb_spec b.(data_size_) b.(write_pos_)); lia. }
  set (src := slice data w cs). assert (zlen src = cs) as Hsrc by (apply slice_length; lia).
  rewrite <- !Hsrc.
  destruct (chunk_content b src Hok) as (Hok' & Hcap & Hct); [lia|lia|lia|].
  set (b1 := mk _ _ _) in *.
  assert (remain b1 = remain b - zlen src) as Hr1 by (unfold remain, size in *; rewrite Hcap; cbn; lia).
  specialize (IH b1 (w + zlen src) Hok' ltac:(lia) Hn ltac:(lia)).
  destruct (write_loop fuel b1 data n (w + zlen src)) as [b' w']. destruct IH as (A & B & C & D).
  split_and!; [done|congruence|lia|]. rewrite D, Hct, <- app_assoc. f_equal. rewrite Hsrc. unfold src.
  unfold slice. rewrite <- (take_drop (Z.to_nat cs) (take (Z.to_nat (w' - w)) (drop (Z.to_nat w) data))).
  rewrite take_take, Nat.min_l by lia. f_equal.
  rewrite skipn_firstn_comm, drop_drop. f_equal; [lia|]. f_equal. lia.
Qed.

Lemma read_loop_spec n fuel : forall b out r, ok b -> 0 <= r <= n -> n - r < Z.of_nat fuel ->
  let '(rc, b', out', r') := read_loop fuel b n SUCCESS out r in
  let k := Z.min (n - r) (size b) in
  rc = SUCCESS /\ ok b' /\ capacity b' = capacity b /\ r' = r + k /\
  out' = out ++ take (Z.to_nat k) (content b) /\ content b' = drop (Z.to_nat k) (content b).
Proof.
  induction fuel as [|fuel IH]; intros b out r Hok Hr Hf; [lia|]. cbn [read_loop].
  pose proof Hok as [Hc Hs Hp]. change (OB_SUCC SUCCESS) with true. cbn [andb].
  destruct (Z.ltb_spec r n) as [H1|H1]; [destruct (Z.ltb_spec 0 (size b)) as [H2|H2]|]; cbn [andb].
  2,3: cbn zeta; replace (Z.min (n - r) (size b)) with 0 by (unfold size in *; lia);
    rewrite app_nil_r; split_and!; try done; lia.
  pose proof (buffer_content b Hok H2) as Hb. destruct (buffer b) as [[rc1 pos] m].
  destruct Hb as (-> & Hm & Hpos & Hfit & Hsl). change (OB_SUCC SUCCESS) with true. cbn [andb].
  set (cs := Z.min (n - r) m).
  destruct (forward_content b cs Hok ltac:(lia)) as (-> & Hok' & Hct). set (b1 := mk _ _ _) in *.
  specialize (IH b1 (out ++ slice b.(buffer_) pos cs) (r + cs) Hok' ltac:(lia) ltac:(lia)).
  destruct (read_loop _ _ _ _ _ _) as [[[rc b'] out'] r']. cbn zeta in *.
  change (size b1) with (size b - cs) in IH. change (capacity b1) with (capacity b) in IH.
  destruct IH as (-> & A & B & C & D & E).
  replace (Z.min (n - r) (size b)) with (cs + Z.min (n - (r + cs)) (size b - cs)) by lia.
  set (k2 := Z.min (n - (r + cs)) (size b - cs)) in *.
  split_and!; try done; [lia|..].
  - rewrite D, <- app_assoc, (Hsl cs) by lia. f_equal. rewrite Hct.
    rewrite Z2Nat.inj_add by lia. apply take_take_drop.
  - rewrite E, Hct, drop_drop. f_equal. lia.
Qed.

(** ** The properties *)

Definition demo : t := mk [3; 4; 0; 1; 2] 4 2.

Lemma ring_demo_ok : ok demo.
Proof. split; vm_compute; split || reflexivity; congruence. Qed.

(** [write] appends: it terminates, takes as many of the given bytes as there is
    room for, in order, and the queue grows by exactly them, wherever the write position
    is in the array. *)
Theorem write_appends b data n : ok b -> 0 <= n <= zlen data ->
  let '(rc, b', w) := write b data n in
  rc = SUCCESS /\ ok b' /\ capacity b' = capacity b /\ w = Z.min n (remain b) /\
  content b' = content b ++ take (Z.to_nat w) data.
Proof.
  intros Hok Hn. unfold write. destruct (Z.ltb_spec n 0); [lia|].
  pose proof (write_loop_spec data n (S (Z.to_nat n)) b 0 Hok ltac:(lia) ltac:(lia) ltac:(lia)) as H0.
  destruct (write_loop _ _ _ _ _) as [b' w]. destruct H0 as (A & B & C & D).
  split_and!; [done|done|done|lia|]. rewrite D. unfold slice. by rewrite Z.sub_0_r.
Qed.

Lemma write_appends_witness :
  content demo = [1; 2; 3; 4] /\
  let '(rc, b', w) := write demo [5; 6] 2 in
  rc = SUCCESS /\ ok b' /\ capacity b' = 5 /\ w = 1 /\ content b' = [1; 2; 3; 4; 5].
Proof.
  split; [vm_compute; reflexivity|]. refine (write_appends demo [5; 6] 2 ring_demo_ok _). vm_compute. split; congruence.
Defined.

(** [read] takes from the front: it terminates and returns the oldest queued
    bytes, as many as were asked for and are there, and removes exactly them. *)
Theorem read_takes b n : ok b -> 0 <= n ->
  let '(rc, b', out, r) := read b n in
  rc = SUCCESS /\ ok b' /\ r = Z.min n (size b) /\
  out = take (Z.to_nat r) (content b) /\ content b' = drop (Z.to_nat r) (content b).
Proof.
  intros Hok Hn. unfold read. destruct (Z.ltb_spec n 0); [lia|].
  pose proof (read_loop_spec n (S (Z.to_nat n)) b [] 0 Hok ltac:(lia) ltac:(lia)) as H0.
  destruct (read_loop _ _ _ _ _ _) as [[[rc b'] out] r]. destruct H0 as (A & B & C & D & E & F).
  rewrite Z.sub_0_r in *. subst r. rewrite Z.add_0_l. done.
Qed.

Lemma read_takes_witness :
  let '(rc, b', out, r) := read demo 3 in
  rc = SUCCESS /\ ok b' /\ r = 3 /\ out = [1; 2; 3] /\ content b' = [4].
Proof. refine (read_takes demo 3 ring_demo_ok _). lia. Defined.

(** A use of the buffer: the bytes written to it and the bytes read from it. *)
Inductive RingOp := Write (data : list Z) | Read (n : Z).

Fixpoint ring_run (b : t) (ops : list RingOp) : t * list Z * list Z :=
  match ops with
  | [] => (b, [], [])
  | Write data :: ops' =>
      let '(_, b1, w) := write b data (zlen data) in
      let '(b2, inp, out) := ring_run b1 ops' in (b2, take (Z.to_nat w) data ++ inp, out)
  | Read n :: ops' =>
      let '(_, b1, bytes, _) := read b n in
      let '(b2, inp, out) := ring_run b1 ops' in (b2, inp, bytes ++ out)
  end.

Definition op_ok (o : RingOp) : Prop := match o with Write _ => True | Read n => 0 <= n end.


End RingBuffer.
