(* ===== verification/Float32.v ===== *)
(** * Float32: single-precision attributes

    The [float] of the source is IEEE 754 binary32, here the specification floats of the
    standard library with 24 bits of precision and exponent bound 128.  Literals such as
    [EPSILON] ([src/src/common/defs.h]) are [double]s, so a [float] that is compared with
    one is widened first.  [compare_float] is the last comparator of
    [src/src/common/lang/comparator.cpp]: it is antisymmetric, but not a [Comparator].  The order of
    numbers ([SFltb]), and which operations give numbers, are for the distances of [IvfSearch]. *)

From Stdlib Require Import SpecFloat.
From S2P Require Import Prelude Compare.

Definition float32 : Type := spec_float.

Definition fadd : float32 -> float32 -> float32 := SFadd 24 128.
Definition fsub : float32 -> float32 -> float32 := SFsub 24 128.
Definition fmul : float32 -> float32 -> float32 := SFmul 24 128.
Definition fdiv : float32 -> float32 -> float32 := SFdiv 24 128.
Definition fsqrt : float32 -> float32 := SFsqrt 24 128.
Definition fopp : float32 -> float32 := SFopp.

(** [float(i)] of an [int]. *)
Definition float_of_int (z : Z) : float32 := binary_normalize 24 128 z 0 false.

(** [(int)f]: towards zero.  A value outside [int] is undefined in C++; the conversion
    instruction of x86-64 then gives the smallest [int]. *)
Definition int_of_float (f : float32) : Z :=
  match f with
  | S754_finite s m e =>
      let a := if e <? 0 then Z.pos m / 2 ^ (- e) else Z.pos m * 2 ^ e in
      let v := if s then - a else a in
      if (INT32_MIN <=? v) && (v <=? INT32_MAX) then v else INT32_MIN
  | S754_zero _ => 0
  | _ => INT32_MIN
  end.

(** The [float] in four bytes of memory, as a 32-bit number. *)
Definition float_of_bits (b : Z) : float32 :=
  let s := Z.testbit b 31 in
  let e := Z.land (Z.shiftr b 23) 0xff in
  let m := Z.land b 0x7fffff in
  if e =? 0xff then (if m =? 0 then S754_infinity s else S754_nan)
  else if e =? 0 then match m with Zpos p => S754_finite s p (-149) | _ => S754_zero s end
  else match m + 0x800000 with Zpos p => S754_finite s p (e - 150) | _ => S754_zero s end.

(** [numeric_limits<float>::max()] *)
Definition FLT_MAX : float32 := S754_finite false 0xffffff 104.

(** ** Comparison with [double] literals *)

Definition double_of_int (z : Z) : spec_float := binary_normalize 53 1024 z 0 false.

Definition double_of_float (f : float32) : spec_float :=
  match f with
  | S754_finite s m e => binary_round 53 1024 s m e
  | _ => f
  end.

(** [#define EPSILON (1E-6)] *)
Definition EPSILON : spec_float := SFdiv 53 1024 (double_of_int 1) (double_of_int 1000000).

Definition above_epsilon (f : float32) : bool := SFltb EPSILON (double_of_float f).
Definition below_epsilon (f : float32) : bool := SFltb (double_of_float f) (SFopp EPSILON).

(** [common::compare_float] *)
Definition compare_float (v1 v2 : float32) : Z :=
  let cmp := fsub v1 v2 in
  if above_epsilon cmp then 1 else if below_epsilon cmp then -1 else 0.

(** [val >= EPSILON || val <= -EPSILON] *)
Definition float_true (f : float32) : bool :=
  SFleb EPSILON (double_of_float f) || SFleb (double_of_float f) (SFopp EPSILON).

(** [val > -EPSILON && val < EPSILON] *)
Definition float_tiny (f : float32) : bool :=
  SFltb (SFopp EPSILON) (double_of_float f) && SFltb (double_of_float f) EPSILON.

(** ** Antisymmetry *)

Lemma binary_round_aux_opp prec emax s m e l :
  binary_round_aux prec emax (negb s) m e l = SFopp (binary_round_aux prec emax s m e l).
Proof.
  unfold binary_round_aux. destruct (shr_fexp prec emax m e l) as [mrs e'].
  destruct (shr_fexp _ _ _ e' loc_Exact) as [mrs' e'']. destruct (shr_m mrs'); [done| |done]. by destruct (e'' <=? _).
Qed.

Lemma binary_round_opp prec emax s m e : binary_round prec emax (negb s) m e = SFopp (binary_round prec emax s m e).
Proof. unfold binary_round. destruct (shl_align _ _ _). apply binary_round_aux_opp. Qed.

Lemma double_of_float_opp f : double_of_float (SFopp f) = SFopp (double_of_float f).
Proof. destruct f; cbn; try done. apply binary_round_opp. Qed.

Lemma SFopp_involutive f : SFopp (SFopp f) = f.
Proof. destruct f as [[]|[]| |[] ? ?]; done. Qed.

Lemma SFcompare_opp f g : SFcompare (SFopp f) (SFopp g) = SFcompare g f.
Proof.
  destruct f as [[]|[]| |[] m e], g as [[]|[]| |[] m' e']; cbn; try done; do 2 f_equal; cbn;
    rewrite (Z.compare_antisym e e'), (Pos.compare_antisym m m' : Pos.compare_cont Eq m' m = _);
    destruct (e ?= e')%Z; cbn; try done; by rewrite ?CompOpp_involutive.
Qed.

Lemma above_opp f : above_epsilon (SFopp f) = below_epsilon f.
Proof.
  unfold above_epsilon, below_epsilon, SFltb. rewrite double_of_float_opp, <- (SFopp_involutive EPSILON) at 1.
  by rewrite SFcompare_opp.
Qed.

Lemma below_opp f : below_epsilon (SFopp f) = above_epsilon f.
Proof. by rewrite <- above_opp, SFopp_involutive. Qed.

(** The difference changes its sign when the arguments change places; only the sign of a
    zero may differ. *)
Lemma fsub_opp v1 v2 : fsub v2 v1 = SFopp (fsub v1 v2) \/ exists s s', fsub v2 v1 = S754_zero s /\ fsub v1 v2 = S754_zero s'.
Proof.
  unfold fsub. destruct v1 as [[]|[]| |s1 m1 e1], v2 as [[]|[]| |s2 m2 e2]; cbn [SFsub SFopp negb];
    try (by left); try (right; by do 2 eexists); try (left; by rewrite ?negb_involutive).
  cbn zeta. rewrite (Z.min_comm e2 e1). set (a := cond_Zopp s1 _). set (b := cond_Zopp s2 _).
  clearbody a b. replace (b - a)%Z with (- (a - b))%Z by lia. destruct (a - b)%Z as [|p|p]; cbn [Z.opp binary_normalize].
  - right. by do 2 eexists.
  - left. apply (binary_round_opp 24 128 false).
  - left. apply (binary_round_opp 24 128 true).
Qed.

Lemma epsilon_exclusive f : above_epsilon f = true -> below_epsilon f = true -> False.
Proof.
  unfold above_epsilon, below_epsilon, SFltb. generalize (double_of_float f). intros d.
  assert (exists m e, EPSILON = S754_finite false m e) as (m & e & ->) by (do 2 eexists; vm_compute; reflexivity).
  by destruct d as [[]|[]| |[] ? ?]; cbn.
Qed.

(** Changing the order of the arguments changes the sign, NaN and infinities included. *)
Lemma compare_float_antisym v1 v2 : compare_float v2 v1 = - compare_float v1 v2.
Proof.
  unfold compare_float. destruct (fsub_opp v1 v2) as [->|(s & s' & -> & ->)]; [|by destruct s, s'].
  rewrite above_opp, below_opp. pose proof (epsilon_exclusive (fsub v1 v2)).
  destruct (above_epsilon _), (below_epsilon _); naive_solver.
Qed.

(** [compare_float] is not transitive: 0 and 0.9e-6 compare as equal, so do 0.9e-6 and
    1.8e-6, but 1.8e-6 is greater than 0. *)
Definition eps_step (n : Z) : float32 := fdiv (float_of_int (9 * n)) (float_of_int 10000000).

Lemma compare_float_intransitive :
  compare_float (eps_step 2) (eps_step 1) = 0 /\ compare_float (eps_step 1) (eps_step 0) = 0 /\
  compare_float (eps_step 2) (eps_step 0) = 1.
Proof. vm_compute. done. Qed.

Lemma compare_float_no_comparator : Comparator compare_float -> False.
Proof.
  intros H. destruct compare_float_intransitive as (H1 & H2 & H3).
  pose proof (cmp_trans (cmp := compare_float) (eps_step 2) (eps_step 1) (eps_step 0)). lia.
Qed.

(** Integers above 2^24 lose bits when they are compared with floats. *)
Lemma int_float_rounds : compare_float (float_of_int 16777217) (float_of_int 16777216) = 0.
Proof. vm_compute. done. Qed.

(** ** The order of floats *)

Definition is_number (f : float32) : bool := match f with S754_nan => false | _ => true end.

(** Sign, exponent and mantissa, so that numbers compare as their keys do. *)
Definition float_key (f : float32) : Z * Z * Z :=
  match f with
  | S754_infinity s => (if s then -2 else 2, 0, 0)
  | S754_finite true m e => (-1, - e, Z.neg m)
  | S754_finite false m e => (1, e, Z.pos m)
  | S754_zero _ | S754_nan => (0, 0, 0)
  end.

Definition key_below (a b : Z * Z * Z) : Prop :=
  let '(a1, a2, a3) := a in let '(b1, b2, b3) := b in
  a1 < b1 \/ (a1 = b1 /\ (a2 < b2 \/ (a2 = b2 /\ a3 < b3))).

Lemma SFltb_key a b : SFltb a b = true <-> is_number a = true /\ is_number b = true /\ key_below (float_key a) (float_key b).
Proof.
  unfold SFltb. destruct a as [[]|[]| |[] m e], b as [[]|[]| |[] m' e']; cbn [SFcompare is_number float_key key_below];
    try (split; [done|intros (? & ? & ?); first [done|lia]]); try (split; [intros _; split_and!; [done..|lia]|done]).
  all: change (Pos.compare_cont Eq m m') with (Pos.compare m m').
  all: destruct (Z.compare_spec e e'), (Pos.compare_spec m m'); cbn; intuition (try done; try lia).
Qed.

Lemma SFltb_irrefl a : SFltb a a = false.
Proof. apply not_true_iff_false. rewrite SFltb_key. destruct (float_key a) as [[a1 a2] a3]; cbn. lia. Qed.

Lemma SFltb_trans a b c : SFltb a b = true -> SFltb b c = true -> SFltb a c = true.
Proof.
  rewrite !SFltb_key. destruct (float_key a) as [[a1 a2] a3], (float_key b) as [[b1 b2] b3], (float_key c) as [[c1 c2] c3]; cbn.
  intuition lia.
Qed.

(** Numbers are ordered up to the sign of zero. *)
Lemma SFltb_incomparable a b c : is_number a = true -> is_number b = true -> is_number c = true ->
  SFltb b a = false -> SFltb c b = false -> SFltb c a = false.
Proof.
  intros Ha Hb Hc. rewrite <- !not_true_iff_false, !SFltb_key.
  destruct (float_key a) as [[a1 a2] a3], (float_key b) as [[b1 b2] b3], (float_key c) as [[c1 c2] c3]; cbn. intuition lia.
Qed.

(** ** Results that are numbers *)

Definition shr_nonneg (r : shr_record) : Prop := 0 <= shr_m r.

Lemma shr_1_nonneg r : shr_nonneg r -> shr_nonneg (shr_1 r).
Proof. unfold shr_nonneg. destruct r as [[|[p|p|]|[p|p|]] ? ?]; cbn; lia. Qed.

Lemma shr_fexp_nonneg prec emax m e l : 0 <= m -> shr_nonneg (shr_fexp prec emax m e l).1.
Proof.
  intros Hm. assert (shr_nonneg (shr_record_of_loc m l)) as H by by destruct l as [|[]].
  unfold shr_fexp, shr. destruct (_ - e); [done| |done]. cbn [fst]. revert H. generalize (shr_record_of_loc m l). clear.
  induction p as [p IH|p IH|]; intros r Hr; cbn [iter_pos]; [apply IH, IH, shr_1_nonneg, Hr|apply IH, IH, Hr|apply shr_1_nonneg, Hr].
Qed.

(** Rounding keeps the sign. *)
Definition has_sign (s : bool) (f : float32) : Prop :=
  match f with S754_infinity s' | S754_finite s' _ _ => s' = s | S754_zero _ => True | S754_nan => False end.

Lemma binary_round_aux_sign prec emax s m e l : 0 <= m -> has_sign s (binary_round_aux prec emax s m e l).
Proof.
  intros Hm. unfold binary_round_aux. pose proof (shr_fexp_nonneg prec emax m e l Hm) as H1. destruct (shr_fexp prec emax m e l) as [r1 e1].
  assert (0 <= round_nearest_even (shr_m r1) (loc_of_shr_record r1)) as Hr.
  { unfold shr_nonneg in H1. cbn [fst] in H1. unfold round_nearest_even. destruct (loc_of_shr_record r1) as [|[]]; try destruct (Z.even _); lia. }
  pose proof (shr_fexp_nonneg prec emax _ e1 loc_Exact Hr) as H2. destruct (shr_fexp _ _ (round_nearest_even _ _) e1 _) as [r2 e2].
  unfold shr_nonneg in H2. cbn [fst] in H2. destruct (shr_m r2); [done| |lia]. by destruct (_ <=? _).
Qed.

Lemma binary_round_sign prec emax s m e : has_sign s (binary_round prec emax s m e).
Proof. unfold binary_round. destruct (shl_align _ _ _). by apply binary_round_aux_sign. Qed.

Lemma has_sign_number s f : has_sign s f -> is_number f = true.
Proof. by destruct f. Qed.

Lemma binary_normalize_number prec emax m e z : is_number (binary_normalize prec emax m e z) = true.
Proof. destruct m; cbn; [done|..]; eapply has_sign_number, binary_round_sign. Qed.

Definition is_finite (f : float32) : bool := match f with S754_zero _ | S754_finite _ _ _ => true | _ => false end.

Lemma fsub_number a b : is_finite a = true -> is_number b = true -> is_number (fsub a b) = true.
Proof. intros Ha Hb. destruct a, b; try done; cbn; try (by repeat case_match); apply binary_normalize_number. Qed.

Lemma fmul_square f : is_number f = true -> has_sign false (fmul f f).
Proof. destruct f as [[]|[]| |s m e]; try done. intros _. cbn [fmul SFmul]. rewrite xorb_nilpotent. by apply binary_round_aux_sign. Qed.

Lemma fadd_positive a b : has_sign false a -> has_sign false b -> has_sign false (fadd a b).
Proof.
  destruct a as [[]|sa| |sa ma ea], b as [[]|sb| |sb mb eb]; cbn; try done; intros; subst; try done.
  apply binary_round_sign.
Qed.
