(* ===== verification/Value.v ===== *)
(** * Value: typed values

    [src/src/observer/common/value.cpp] and the types under [src/src/observer/common/type/]:
    a value is tagged with its attribute type; comparison, arithmetic and casts are methods
    of the type that the tag selects.  [Value] has one constructor per tag.

    A result is [Res]: [None] where the code stops on a failed [ASSERT] or reads what it has
    not written, otherwise an error code or the value.  The conversions of the C and C++
    libraries between numbers and text are the class [CLib]; nothing is assumed of them.
    Signed overflow of [int] is undefined in C++; here it wraps.  A copy of a value is the
    value: that [set_string_from_other] leaves the pointer of a copied empty string as it was
    is not modelled. *)

From Stdlib Require Import SpecFloat.
From S2P Require Import Prelude Bytes Compare Float32.

(** ** Results *)

Definition Res (A : Type) : Type := option (RC + A).

#[export] Instance Res_ret : MRet Res := fun A x => Some (inr x).
#[export] Instance Res_bind : MBind Res := fun A B f m =>
  match m with Some (inr x) => f x | Some (inl rc) => Some (inl rc) | None => None end.

Definition fails {A} (rc : RC) : Res A := Some (inl rc).
Definition stops {A} : Res A := None.

Lemma Res_bind_ret {A B} (x : A) (f : A -> Res B) : (mret x : Res A) ≫= f = f x.
Proof. done. Qed.

Lemma Res_bind_inr {A B} (m : Res A) (f : A -> Res B) b : m ≫= f = Some (inr b) <->
  exists a, m = Some (inr a) /\ f a = Some (inr b).
Proof. destruct m as [[rc|a]|]; cbn; naive_solver. Qed.

(** ** Text and numbers *)

Class CLib := {
  (** [std::stol] and [std::stof]; [None] is the exception. *)
  stol : list Z -> option Z;
  stof : list Z -> option float32;
  (** [strtof]: the value and the number of characters read. *)
  strtof : list Z -> float32 * nat;
  (** [ss << i], [ss << f] and [double_to_str(f)]. *)
  put_int : Z -> list Z;
  put_float : float32 -> list Z;
  double_to_str : float32 -> list Z
}.

(** For examples: nothing can be parsed, and a number is printed as a question mark. *)
Definition demo_clib : CLib := Build_CLib (fun _ => None) (fun _ => None) (fun _ => (S754_zero false, O)) (fun _ => [63]) (fun _ => [63]) (fun _ => [63]).

(** ** Types and values *)

Inductive AttrType : Set := UNDEFINED | CHARS | INTS | FLOATS | VECTORS | BOOLEANS.
#[export] Instance AttrType_eq_dec : EqDecision AttrType.
Proof. solve_decision. Defined.

Inductive Value :=
| VUndefined
| VChars (s : list Z)
| VInt (z : Z)
| VFloat (f : float32)
| VVector (v : list float32)
| VBool (b : bool).

Definition attr_type (v : Value) : AttrType :=
  match v with
  | VUndefined => UNDEFINED | VChars _ => CHARS | VInt _ => INTS
  | VFloat _ => FLOATS | VVector _ => VECTORS | VBool _ => BOOLEANS
  end.

(** The characters before the first NUL. *)
Fixpoint c_string (s : list Z) : list Z :=
  match s with [] => [] | c :: s' => if c =? 0 then [] else c :: c_string s' end.

Definition nul_free (s : list Z) : Prop := Forall (fun c => c <> 0) s.

Lemma c_string_nul_free s : nul_free (c_string s).
Proof. induction s as [|c s IH]; cbn; [constructor|]. destruct (Z.eqb_spec c 0); by constructor. Qed.

(** [set_string(data, len)] *)
Definition set_string (data : list Z) (len : Z) : Value :=
  VChars (c_string (if 0 <? len then take (Z.to_nat len) data else data)).

Definition read_float (data : list Z) : float32 := float_of_bits (le_value (take 4 data)).

Fixpoint read_floats (dim : nat) (data : list Z) : list float32 :=
  match dim with O => [] | S dim' => read_float data :: read_floats dim' (drop 4 data) end.

(** [set_type] of a fresh value, then [set_data]. *)
Definition set_data (ty : AttrType) (data : list Z) (length : Z) : Value :=
  match ty with
  | CHARS => set_string data length
  | INTS => VInt (int32 (le_value (take 4 data)))
  | FLOATS => VFloat (read_float data)
  | BOOLEANS => VBool (negb (int32 (le_value (take 4 data)) =? 0))
  | VECTORS => VVector (read_floats (Z.to_nat (length / 4)) data)
  | UNDEFINED => VUndefined
  end.

Section conversions.
Context `{CLib}.

Definition get_int (v : Value) : Z :=
  match v with
  | VChars s => match stol s with Some z => int32 z | None => 0 end
  | VInt z => z
  | VFloat f => int_of_float f
  | VBool b => Z.b2z b
  | _ => 0
  end.

Definition get_float (v : Value) : float32 :=
  match v with
  | VChars s => default (float_of_int 0) (stof s)
  | VInt z => float_of_int z
  | VFloat f => f
  | VBool b => float_of_int (Z.b2z b)
  | _ => float_of_int 0
  end.

(** The text of a value whose pointer is not null: true whatever it says. *)
Definition get_boolean (v : Value) : bool :=
  match v with
  | VChars s => true
  | VInt z => negb (z =? 0)
  | VFloat f => float_true f
  | VBool b => b
  | _ => false
  end.

(** [VectorType::to_string] *)
Fixpoint join_floats (v : list float32) : list Z :=
  match v with
  | [] => []
  | [f] => put_float f
  | f :: v' => put_float f ++ 0x2c :: join_floats v'
  end.

(** [to_string], of which [get_string] is another name; a type without one gives the empty
    string. *)
Definition get_string (v : Value) : list Z :=
  match v with
  | VChars s => s
  | VInt z => put_int z
  | VFloat f => double_to_str f
  | VVector fs => 0x5b :: join_floats fs ++ [0x5d]
  | _ => []
  end.
End conversions.

(** ** Comparison *)

(** [VectorType::compare]; [1e-6f] is a [float]. *)
Definition vector_epsilon : float32 := fdiv (float_of_int 1) (float_of_int 1000000).

Fixpoint compare_floats (lv rv : list float32) : Z :=
  match lv, rv with
  | l :: lv', r :: rv' =>
      if SFltb vector_epsilon (SFabs (fsub l r)) then (if SFltb l r then -1 else 1) else compare_floats lv' rv'
  | _, _ => 0
  end.

Definition compare_vector (lv rv : list float32) : Z :=
  if negb (length lv =? length rv)%nat then -1 else compare_floats lv rv.

(** [Value::compare]: the method of the left value's type.  The base class answers
    [INT32_MAX]. *)
Definition compare_val (left right : Value) : option Z :=
  match left, right with
  | VChars a, VChars b => Some (compare_string a (zlen a) b (zlen b))
  | VInt a, VInt b => Some (compare_int a b)
  | VInt a, VFloat b => Some (compare_float (float_of_int a) b)
  | VFloat a, VInt b => Some (compare_float a (float_of_int b))
  | VFloat a, VFloat b => Some (compare_float a b)
  | VVector a, VVector b => Some (compare_vector a b)
  | VUndefined, _ | VBool _, _ => Some INT32_MAX
  | _, _ => None
  end.

Inductive CompOp : Set := EQUAL_TO | LESS_EQUAL | NOT_EQUAL | LESS_THAN | GREAT_EQUAL | GREAT_THAN | NO_OP.
#[export] Instance CompOp_eq_dec : EqDecision CompOp.
Proof. solve_decision. Defined.

(** [ComparisonExpr::compare_value] *)
Definition compare_value (comp : CompOp) (left right : Value) : Res bool :=
  match compare_val left right with
  | None => stops
  | Some cmp_result =>
      match comp with
      | EQUAL_TO => mret (0 =? cmp_result)
      | LESS_EQUAL => mret (cmp_result <=? 0)
      | NOT_EQUAL => mret (negb (cmp_result =? 0))
      | LESS_THAN => mret (cmp_result <? 0)
      | GREAT_EQUAL => mret (0 <=? cmp_result)
      | GREAT_THAN => mret (0 <? cmp_result)
      | NO_OP => fails INTERNAL
      end
  end.

(** ** Arithmetic and casts *)

Inductive ArithType : Set := ADD | SUB | MUL | DIV | NEGATIVE.
#[export] Instance ArithType_eq_dec : EqDecision ArithType.
Proof. solve_decision. Defined.

Section arithmetic.
Context `{CLib}.

(** [IntegerType::add] and the other operations of the type; there is no division. *)
Definition integer_calc (op : ArithType) (left right : Value) : RC + Value :=
  match op with
  | ADD => inr (VInt (int32 (get_int left + get_int right)))
  | SUB => inr (VInt (int32 (get_int left - get_int right)))
  | MUL => inr (VInt (int32 (get_int left * get_int right)))
  | NEGATIVE => inr (VInt (int32 (- get_int left)))
  | DIV => inl UNSUPPORTED
  end.

Definition float_calc (op : ArithType) (left right : Value) : RC + Value :=
  match op with
  | ADD => inr (VFloat (fadd (get_float left) (get_float right)))
  | SUB => inr (VFloat (fsub (get_float left) (get_float right)))
  | MUL => inr (VFloat (fmul (get_float left) (get_float right)))
  | DIV =>
      if float_tiny (get_float right) then inr (VFloat FLT_MAX)
      else inr (VFloat (fdiv (get_float left) (get_float right)))
  | NEGATIVE => inr (VFloat (fopp (get_float left)))
  end.

(** [Value::add] and the like, of the type of the result. *)
Definition value_calc (ty : AttrType) (op : ArithType) (left right : Value) : RC + Value :=
  match ty with
  | INTS => integer_calc op left right
  | FLOATS => float_calc op left right
  | _ => inl UNSUPPORTED
  end.

(** [Value::cast_to], of the type of the value. *)
Definition cast_to (v : Value) (type : AttrType) : RC + Value :=
  match attr_type v with
  | CHARS => inl UNIMPLEMENTED
  | INTS => if decide (type = FLOATS) then inr (VFloat (float_of_int (get_int v))) else inl SCHEMA_FIELD_TYPE_MISMATCH
  | _ => inl UNSUPPORTED
  end.
End arithmetic.

(** [DataType::cast_cost]: from the type of the object to [type]. *)
Definition cast_cost (from type : AttrType) : Z :=
  match from with
  | INTS => if decide (type = INTS) then 0 else if decide (type = FLOATS) then 1 else INT32_MAX
  | _ => if decide (type = from) then 0 else INT32_MAX
  end.

Definition implicit_cast_cost (from to : AttrType) : Z :=
  if decide (from = to) then 0 else cast_cost from to.

(** ** Comparisons of values of one type *)

(** Types whose values can be compared with each other without a failed assertion. *)
Definition comparable (l r : AttrType) : bool :=
  match l, r with
  | (INTS | FLOATS), (INTS | FLOATS) | CHARS, CHARS | VECTORS, VECTORS => true
  | _, _ => false
  end.

Lemma compare_val_total l r : comparable (attr_type l) (attr_type r) = true -> is_Some (compare_val l r).
Proof. destruct l, r; cbn; try done; by eexists. Qed.

Lemma compare_value_total comp l r : comp <> NO_OP -> comparable (attr_type l) (attr_type r) = true ->
  exists b, compare_value comp l r = mret b.
Proof.
  intros Hc [c Hv]%compare_val_total. unfold compare_value. rewrite Hv. destruct comp; [by eexists..|done].
Qed.

(** Comparison of numbers and of strings changes its sign with the order of its arguments. *)
Lemma compare_string_antisym a b : compare_string b (zlen b) a (zlen a) = - compare_string a (zlen a) b (zlen b).
Proof.
  unfold compare_string. rewrite (Z.min_comm (zlen b)). set (n := Z.min _ _).
  rewrite (strncmp_antisym (Z.to_nat n) b a). set (c := strncmp a b _). clearbody c.
  destruct (Z.eqb_spec 0 c), (Z.eqb_spec 0 (- c)), (Z.ltb_spec c 0), (Z.ltb_spec (- c) 0),
    (Z.ltb_spec n (zlen a)), (Z.ltb_spec n (zlen b)); cbn; lia.
Qed.

Lemma compare_int_antisym a b : compare_int b a = - compare_int a b.
Proof. unfold compare_int. destruct (Z.ltb_spec a b), (Z.ltb_spec b a); lia. Qed.

Lemma compare_val_antisym l r c : attr_type l <> VECTORS -> comparable (attr_type l) (attr_type r) = true ->
  compare_val l r = Some c -> compare_val r l = Some (- c).
Proof.
  destruct l as [|a|a|a|a|a], r as [|b|b|b|b|b]; cbn; try done; intros _ _ [= <-]; f_equal;
    [apply compare_string_antisym|apply compare_int_antisym|apply compare_float_antisym..].
Qed.

Lemma compare_string_refl a : compare_string a (zlen a) a (zlen a) = 0.
Proof. pose proof (compare_string_antisym a a). lia. Qed.
