(* ===== verification/Expr.v ===== *)
(** * Expr: expressions over tuples

    [src/src/observer/sql/expr/expression.cpp] and [.h]: evaluation of bound expressions on a
    tuple ([get_value]) and without one ([try_get_value]), their static type ([value_type])
    and structural equality ([equal]); the vector functions of
    [src/src/observer/common/type/vector_type.cpp].

    An expression looks at a tuple only through [find_cell], so evaluation takes that
    function.  The theorems: evaluation is type-safe, and constant evaluation agrees with
    evaluation on any tuple, unary minus aside. *)

From Stdlib Require Import SpecFloat.
From stdpp Require Import strings.
From S2P Require Import Prelude Bytes Compare Float32 Value.
#[local] Open Scope Z_scope.

(** ** Cell descriptions ([tuple_cell.h]) *)

Record TupleCellSpec := mkSpec { spec_table : string; spec_field : string; spec_alias : string }.
#[export] Instance TupleCellSpec_eq_dec : EqDecision TupleCellSpec.
Proof. solve_decision. Defined.

(** [TupleCellSpec(table_name, field_name)] *)
Definition field_spec (table_name field_name : string) : TupleCellSpec :=
  mkSpec table_name field_name
    (if decide (table_name = ""%string) then field_name else (table_name +:+ "." +:+ field_name)%string).

Definition alias_spec (alias : string) : TupleCellSpec := mkSpec "" "" alias.

(** ** Expressions *)

Inductive ConjType : Set := AND | OR.
Inductive AggType : Set := COUNT | SUM | AVG | MAX | MIN.
Inductive FuncType : Set := DISTANCE | VECTOR_TO_STRING | STRING_TO_VECTOR.
#[export] Instance ConjType_eq_dec : EqDecision ConjType.
Proof. solve_decision. Defined.
#[export] Instance AggType_eq_dec : EqDecision AggType.
Proof. solve_decision. Defined.
#[export] Instance FuncType_eq_dec : EqDecision FuncType.
Proof. solve_decision. Defined.

Inductive Expression :=
| FieldExpr (table_name field_name : string) (field_type : AttrType)
| ValueExpr (value : Value)
| CastExpr (child : Expression) (cast_type : AttrType)
| ComparisonExpr (comp : CompOp) (left right : Expression)
| ConjunctionExpr (conjunction_type : ConjType) (children : list Expression)
| ArithmeticExpr (arithmetic_type : ArithType) (left : Expression) (right : option Expression)
| AggregateExpr (aggregate_type : AggType) (child : Expression) (name : string)
| FunctionExpr (function_type : FuncType) (children : list Expression).

Section expression_ind.
Context (P : Expression -> Prop)
  (Hfield : forall t f ty, P (FieldExpr t f ty)) (Hvalue : forall v, P (ValueExpr v))
  (Hcast : forall c ty, P c -> P (CastExpr c ty))
  (Hcmp : forall op l r, P l -> P r -> P (ComparisonExpr op l r))
  (Hconj : forall ty cs, Forall P cs -> P (ConjunctionExpr ty cs))
  (Harith : forall op l r, P l -> (forall e, r = Some e -> P e) -> P (ArithmeticExpr op l r))
  (Hagg : forall ty c n, P c -> P (AggregateExpr ty c n))
  (Hfun : forall ty cs, Forall P cs -> P (FunctionExpr ty cs)).

Fixpoint expression_ind (e : Expression) : P e :=
  let forall_ind := fix go cs : Forall P cs :=
    match cs with [] => Forall_nil_2 _ | c :: cs' => Forall_cons_2 _ _ _ (expression_ind c) (go cs') end in
  match e with
  | FieldExpr t f ty => Hfield t f ty
  | ValueExpr v => Hvalue v
  | CastExpr c ty => Hcast c ty (expression_ind c)
  | ComparisonExpr op l r => Hcmp op l r (expression_ind l) (expression_ind r)
  | ConjunctionExpr ty cs => Hconj ty cs (forall_ind cs)
  | ArithmeticExpr op l r =>
      Harith op l r (expression_ind l)
        (match r with
         | Some e => fun e' H => match H in _ = o return match o with Some e' => P e' | None => True end with
                                 | eq_refl => expression_ind e end
         | None => fun e' H => False_ind _ (match H in _ = o return match o with Some _ => False | None => True end with
                                            | eq_refl => I end)
         end)
  | AggregateExpr ty c n => Hagg ty c n (expression_ind c)
  | FunctionExpr ty cs => Hfun ty cs (forall_ind cs)
  end.
End expression_ind.

(** [value_type()] *)
Fixpoint value_type (e : Expression) : AttrType :=
  match e with
  | FieldExpr _ _ ty => ty
  | ValueExpr v => attr_type v
  | CastExpr _ ty => ty
  | ComparisonExpr _ _ _ | ConjunctionExpr _ _ => BOOLEANS
  | ArithmeticExpr op l r =>
      match r with
      | None => value_type l
      | Some r =>
          if decide (value_type l = INTS /\ value_type r = INTS /\ op <> DIV) then INTS else FLOATS
      end
  | AggregateExpr ty c _ => match ty with COUNT => INTS | AVG => FLOATS | _ => value_type c end
  | FunctionExpr ty _ => match ty with DISTANCE => FLOATS | VECTOR_TO_STRING => CHARS | STRING_TO_VECTOR => VECTORS end
  end.

(** ** Vector functions *)

(** The loops accumulate in [float]. *)
Fixpoint dot_loop (a b : list float32) (dot : float32) : float32 :=
  match a, b with x :: a', y :: b' => dot_loop a' b' (fadd dot (fmul x y)) | _, _ => dot end.

Fixpoint l2_loop (a b : list float32) (sum : float32) : float32 :=
  match a, b with
  | x :: a', y :: b' => let diff := fsub x y in l2_loop a' b' (fadd sum (fmul diff diff))
  | _, _ => sum
  end.

Definition f_zero : float32 := float_of_int 0.
Definition f_one : float32 := float_of_int 1.

(** [1e-8f] *)
Definition norm_epsilon : float32 := fdiv f_one (float_of_int 100000000).

Definition cosine_distance (a b : list float32) : RC + float32 :=
  if bool_decide (a = []) then inl INVALID_ARGUMENT else
  let dot := dot_loop a b f_zero in
  let norm_a := fsqrt (dot_loop a a f_zero) in
  let norm_b := fsqrt (dot_loop b b f_zero) in
  if SFltb norm_a norm_epsilon || SFltb norm_b norm_epsilon then inl INVALID_ARGUMENT else
  let similarity := fdiv dot (fmul norm_a norm_b) in
  let similarity := if SFltb f_one similarity then f_one else similarity in
  let similarity := if SFltb similarity (fopp f_one) then fopp f_one else similarity in
  inr (fsub f_one similarity).

Definition dot_product (a b : list float32) : RC + float32 :=
  if bool_decide (a = []) then inl INVALID_ARGUMENT else inr (fopp (dot_loop a b f_zero)).

Definition euclidean_distance (a b : list float32) : RC + float32 :=
  if bool_decide (a = []) then inl INVALID_ARGUMENT else inr (l2_loop a b f_zero).

(** [strcasecmp(s, name) == 0] for a name in lower case. *)
Definition lower (c : Z) : Z := if (0x41 <=? c) && (c <=? 0x5a) then c + 32 else c.
Definition is_name (s : list Z) (name : string) : bool :=
  bool_decide (map lower (c_string s) = map (fun c => Z.of_N (Ascii.N_of_ascii c)) (String.list_ascii_of_string name)).

Definition distance_by (method : list Z) (a b : list float32) : RC + float32 :=
  if is_name method "cosine" then cosine_distance a b
  else if is_name method "dot" then dot_product a b
  else if is_name method "euclidean" || is_name method "l2" then euclidean_distance a b
  else inl INVALID_ARGUMENT.

Definition is_blank (blanks : list Z) (c : Z) : bool := bool_decide (c ∈ blanks).
Fixpoint drop_blanks (blanks s : list Z) : list Z :=
  match s with c :: s' => if is_blank blanks c then drop_blanks blanks s' else s | [] => [] end.
Definition trim_right (blanks s : list Z) : list Z := rev (drop_blanks blanks (rev s)).
Fixpoint until_comma (s : list Z) : list Z * list Z :=
  match s with
  | [] => ([], [])
  | c :: s' => if c =? 0x2c then ([], s') else let '(a, b) := until_comma s' in (c :: a, b)
  end.

Section functions.
Context `{CLib}.

(** The loop of [VectorType::set_value_from_str] over the text between the brackets. *)
Fixpoint parse_elements (fuel : nat) (content : list Z) (elements : list float32) : RC + list float32 :=
  match fuel with
  | O => inr elements
  | S fuel' =>
      let content := drop_blanks [0x20; 0x09] content in
      if bool_decide (content = []) then inr elements else
      let '(num_str, rest) := until_comma content in
      let num_str := trim_right [0x20; 0x09] num_str in
      if bool_decide (num_str = []) then parse_elements fuel' rest elements else
      let '(f, len) := strtof num_str in
      if negb (len =? length num_str)%nat then inl INVALID_ARGUMENT
      else parse_elements fuel' rest (elements ++ [f])
  end.

Definition string_to_vector (data : list Z) : RC + Value :=
  let spaces := [0x20; 0x09; 0x0a; 0x0d] in
  let s := trim_right spaces (drop_blanks spaces data) in
  if bool_decide (s = []) then inl INVALID_ARGUMENT else
  if negb (hd 0 s =? 0x5b) || negb (List.last s 0 =? 0x5d) then inl INVALID_ARGUMENT else
  let content := take (length s - 2) (drop 1 s) in
  match parse_elements (S (length content)) content [] with
  | inl rc => inl rc
  | inr [] => inl INVALID_ARGUMENT
  | inr elements => inr (VVector elements)
  end.

(** What a function does with the values of its arguments, in the order in which
    [eval_distance] and the others look at them. *)
Definition distance_values (v1 v2 method : Value) : RC + Value :=
  match v1, v2 with
  | VVector a, VVector b =>
      if negb (length a =? length b)%nat then inl INVALID_ARGUMENT
      else match distance_by (get_string method) a b with inl rc => inl rc | inr d => inr (VFloat d) end
  | _, _ => inl INVALID_ARGUMENT
  end.

Definition vector_to_string (v : Value) : RC + Value :=
  match v with VVector _ => inr (VChars (c_string (get_string v))) | _ => inl INVALID_ARGUMENT end.
End functions.

(** ** Evaluation *)

Section eval.
Context `{CLib}.

(** [CastExpr::cast] *)
Definition cast (v : Value) (cast_type : AttrType) : Res Value :=
  if decide (cast_type = attr_type v) then mret v else Some (cast_to v cast_type).

(** [ArithmeticExpr::calc_value]; the code of an operation that the type does not have is
    dropped, and the result is then a value that nothing was written to. *)
Definition calc_value (target_type : AttrType) (op : ArithType) (left right : Value) : Res Value :=
  match value_calc target_type op left right with inr v => mret v | inl _ => stops end.

(** The loop of [ConjunctionExpr::get_value]. *)
Definition conj_loop (eval : Expression -> Res Value) (ty : ConjType) :=
  fix go (children : list Expression) : Res Value :=
    match children with
    | [] => mret (VBool (bool_decide (ty = AND)))
    | expr :: children' =>
        tmp_value ← eval expr;
        let bool_value := get_boolean tmp_value in
        if bool_decide (ty = AND /\ bool_value = false) || bool_decide (ty = OR /\ bool_value = true)
        then mret (VBool bool_value) else go children'
    end.

Definition eval_function (eval : Expression -> Res Value) (ty : FuncType) (children : list Expression) : Res Value :=
  match ty, children with
  | DISTANCE, [c1; c2; c3] =>
      vec1 ← eval c1;
      if negb (bool_decide (attr_type vec1 = VECTORS)) then fails INVALID_ARGUMENT else
      vec2 ← eval c2;
      match vec1, vec2 with
      | VVector a, VVector b =>
          if negb (length a =? length b)%nat then fails INVALID_ARGUMENT else
          method ← eval c3; Some (distance_values vec1 vec2 method)
      | _, _ => fails INVALID_ARGUMENT
      end
  | STRING_TO_VECTOR, [c] => v ← eval c; Some (string_to_vector (get_string v))
  | VECTOR_TO_STRING, [c] => v ← eval c; Some (vector_to_string v)
  | _, _ => fails INVALID_ARGUMENT
  end.

Section get_value.
Context (find_cell : TupleCellSpec -> Res Value).

Fixpoint get_value (e : Expression) : Res Value :=
  match e with
  | FieldExpr table_name field_name _ => find_cell (field_spec table_name field_name)
  | ValueExpr v => mret v
  | CastExpr child ty => value ← get_value child; cast value ty
  | ComparisonExpr comp lhs rhs =>
      left_value ← get_value lhs; right_value ← get_value rhs;
      bool_value ← compare_value comp left_value right_value; mret (VBool bool_value)
  | ConjunctionExpr ty children =>
      if bool_decide (children = []) then mret (VBool true) else conj_loop get_value ty children
  | ArithmeticExpr op lhs rhs =>
      left_value ← get_value lhs;
      match rhs with
      | None => stops
      | Some rhs => right_value ← get_value rhs; calc_value (value_type e) op left_value right_value
      end
  | AggregateExpr _ _ name => find_cell (alias_spec name)
  | FunctionExpr ty children => eval_function get_value ty children
  end.
End get_value.

(** [FunctionExpr::try_get_value] evaluates all its arguments first. *)
Fixpoint try_values (eval : Expression -> Res Value) (children : list Expression) : Res (list Value) :=
  match children with
  | [] => mret []
  | c :: children' => v ← eval c; vs ← try_values eval children'; mret (v :: vs)
  end.

Definition try_function (ty : FuncType) (values : list Value) : RC + Value :=
  match ty, values with
  | DISTANCE, [v1; v2; v3] => distance_values v1 v2 v3
  | STRING_TO_VECTOR, [v] => string_to_vector (get_string v)
  | VECTOR_TO_STRING, [v] => vector_to_string v
  | _, _ => inl INVALID_ARGUMENT
  end.

Fixpoint try_get_value (e : Expression) : Res Value :=
  match e with
  | ValueExpr v => mret v
  | CastExpr child ty => value ← try_get_value child; cast value ty
  | ComparisonExpr comp (ValueExpr left_cell) (ValueExpr right_cell) =>
      value ← compare_value comp left_cell right_cell; mret (VBool value)
  | ComparisonExpr _ _ _ => fails INVALID_ARGUMENT
  | ArithmeticExpr op lhs rhs =>
      left_value ← try_get_value lhs;
      right_value ← match rhs with Some rhs => try_get_value rhs | None => mret VUndefined end;
      calc_value (value_type e) op left_value right_value
  | FunctionExpr ty children =>
      child_values ← (fix go cs : Res (list Value) :=
        match cs with [] => mret [] | c :: cs' => v ← try_get_value c; vs ← go cs'; mret (v :: vs) end) children;
      Some (try_function ty child_values)
  | FieldExpr _ _ _ | ConjunctionExpr _ _ | AggregateExpr _ _ _ => fails UNIMPLEMENTED
  end.

(** [equal] of two different objects; [None] is a failed assertion in [Value::compare]. *)
Fixpoint equal (e other : Expression) : option bool :=
  match e, other with
  | FieldExpr t f _, FieldExpr t' f' _ => Some (bool_decide (t = t' /\ f = f'))
  | ValueExpr v, ValueExpr v' => c ← compare_val v v'; Some (c =? 0)
  | ArithmeticExpr op l (Some r), ArithmeticExpr op' l' (Some r') =>
      if negb (bool_decide (op = op')) then Some false else
      b ← equal l l'; if b : bool then equal r r' else Some false
  | ArithmeticExpr op l _, ArithmeticExpr op' l' _ =>
      if negb (bool_decide (op = op')) then Some false else
      b ← equal l l'; if b : bool then None else Some false
  | AggregateExpr ty c _, AggregateExpr ty' c' _ => if negb (bool_decide (ty = ty')) then Some false else equal c c'
  | FunctionExpr ty cs, FunctionExpr ty' cs' =>
      if negb (bool_decide (ty = ty')) || negb (length cs =? length cs')%nat then Some false else
      (fix go cs cs' := match cs, cs' with
        | c :: cs, c' :: cs' => b ← equal c c'; if b : bool then go cs cs' else Some false
        | _, _ => Some true end) cs cs'
  | _, _ => Some false
  end.
End eval.

(** ** Type safety *)

Section typing.
Context `{CLib} (cell_type : TupleCellSpec -> option AttrType).

(** What the binder and the planner must have established: the cells have the declared
    types, values are compared with values of comparable types, and no operand is missing. *)
Fixpoint well_typed (e : Expression) : bool :=
  let all := fix all cs := match cs with [] => true | c :: cs' => well_typed c && all cs' end in
  match e with
  | FieldExpr t f ty => bool_decide (cell_type (field_spec t f) = Some ty)
  | ValueExpr _ => true
  | CastExpr c _ => well_typed c
  | ComparisonExpr _ l r => well_typed l && well_typed r && comparable (value_type l) (value_type r)
  | ConjunctionExpr _ cs => all cs
  | ArithmeticExpr _ l (Some r) => well_typed l && well_typed r
  | ArithmeticExpr _ _ None => false
  | AggregateExpr _ _ name => bool_decide (cell_type (alias_spec name) = Some (value_type e))
  | FunctionExpr _ cs => all cs
  end.

(** The code goes on, and a value has the type. *)
Definition has_type (m : Res Value) (ty : AttrType) : Prop :=
  match m with None => False | Some (inl _) => True | Some (inr v) => attr_type v = ty end.

Definition goes_on {A} (m : Res A) : Prop := is_Some m.

Lemma has_type_bind m ty ty' (f : Value -> Res Value) :
  has_type m ty -> (forall v, attr_type v = ty -> has_type (f v) ty') -> has_type (m ≫= f) ty'.
Proof. destruct m as [[rc|v]|]; cbn; auto. Qed.

Lemma has_type_any m ty : has_type m ty -> exists r, m = Some r.
Proof. destruct m; [by eexists|done]. Qed.

Lemma value_calc_typed op vl vr ty : (ty = FLOATS \/ ty = INTS /\ op <> DIV) ->
  has_type (calc_value ty op vl vr) ty.
Proof.
  unfold calc_value. intros [->|[-> Hop]]; destruct op; cbn; try done. by destruct (float_tiny _).
Qed.

Lemma has_type_cast v ty : has_type (cast v ty) ty.
Proof. unfold cast, cast_to. destruct (decide _) as [->|]; [done|]. destruct (attr_type v); cbn; try done. by case_decide; subst. Qed.

Lemma string_to_vector_typed s : has_type (Some (string_to_vector s)) VECTORS.
Proof.
  unfold string_to_vector. case_bool_decide; [done|]. case_match; [done|].
  case_match; [done|]. match goal with |- has_type (Some match ?e with _ => _ end) _ => by destruct e as [|[]] end.
Qed.

Lemma distance_values_typed v1 v2 v3 : has_type (Some (distance_values v1 v2 v3)) FLOATS.
Proof. destruct v1, v2; cbn; try done. destruct (negb _); [done|]. by destruct (distance_by _ _ _). Qed.

Lemma vector_to_string_typed v : has_type (Some (vector_to_string v)) CHARS.
Proof. by destruct v. Qed.

Lemma well_typed_children cs :
  (fix all cs := match cs with [] => true | c :: cs' => well_typed c && all cs' end) cs = true ->
  Forall (fun c => well_typed c = true) cs.
Proof. induction cs as [|c cs IH]; [done|]. intros [? ?]%andb_true_iff. by constructor; [|apply IH]. Qed.
End typing.

#[export] Hint Resolve has_type_cast string_to_vector_typed distance_values_typed vector_to_string_typed : typing.
#[export] Hint Resolve value_calc_typed : typing.

Section type_safety.
Context `{CLib} (cell_type : TupleCellSpec -> option AttrType) (find_cell : TupleCellSpec -> Res Value).
Context (cells : forall spec ty, cell_type spec = Some ty -> has_type (find_cell spec) ty).

Lemma has_type_function ty cs :
  Forall (fun c => has_type (get_value find_cell c) (value_type c)) cs ->
  has_type (eval_function (get_value find_cell) ty cs) (value_type (FunctionExpr ty cs)).
Proof using Type.
  intros Hcs. destruct ty, cs as [|c1 [|c2 [|c3 [|c4 cs]]]]; cbn; try done;
    repeat match goal with H : Forall _ (_ :: _) |- _ => apply Forall_cons in H as [? H] end;
    eapply has_type_bind; eauto with typing; intros v1 _.
  case_bool_decide; [cbn|done]. eapply has_type_bind; [done|]. intros v2 _.
  destruct v1, v2; cbn; try done. destruct (negb _); [done|].
  eapply has_type_bind; [done|]. intros m _. by destruct (distance_by _ _ _).
Qed.

Lemma has_type_conj ty cs : Forall (fun c => has_type (get_value find_cell c) (value_type c)) cs ->
  has_type (conj_loop (get_value find_cell) ty cs) BOOLEANS.
Proof using Type.
  induction 1 as [|c cs Hc _ IH]; [done|]. cbn. eapply has_type_bind; [done|]. intros v _. by case_match.
Qed.

Lemma get_value_typed e : well_typed cell_type e = true -> has_type (get_value find_cell e) (value_type e).
Proof.
  induction e as [t f ty|v|c ty IH|op l r IHl IHr|ty cs IH|op l r IHl IHr|ty c n IH|ty cs IH] using expression_ind;
    intros Hwt; cbn [get_value].
  - apply bool_decide_eq_true in Hwt. by apply cells.
  - done.
  - eapply has_type_bind; [by apply IH|]. eauto with typing.
  - cbn in Hwt. apply andb_true_iff in Hwt as [[Hl Hr]%andb_true_iff Hc].
    eapply has_type_bind; [by apply IHl|]. intros vl Hvl. eapply has_type_bind; [by apply IHr|]. intros vr Hvr.
    rewrite <- Hvl, <- Hvr in Hc. apply compare_val_total in Hc as [c Hc].
    unfold compare_value. rewrite Hc. by destruct op.
  - apply well_typed_children in Hwt. case_bool_decide; [done|]. apply has_type_conj.
    apply (Forall_impl _ _ _ (proj2 (Forall_and _ _) (conj IH Hwt))). naive_solver.
  - destruct r as [r|]; [|done]. cbn in Hwt. apply andb_true_iff in Hwt as [Hl Hr].
    eapply has_type_bind; [by apply IHl|]. intros vl Hvl. eapply has_type_bind; [by eapply IHr|]. intros vr Hvr.
    apply value_calc_typed. cbn. case_decide; naive_solver.
  - apply bool_decide_eq_true in Hwt. by apply cells.
  - apply well_typed_children in Hwt. apply has_type_function.
    apply (Forall_impl _ _ _ (proj2 (Forall_and _ _) (conj IH Hwt))). naive_solver.
Qed.
End type_safety.

(** ** Constant evaluation *)

(** No arithmetic expression lacks an operand, as unary minus does. *)
Fixpoint no_unary (e : Expression) : bool :=
  let all := fix all cs := match cs with [] => true | c :: cs' => no_unary c && all cs' end in
  match e with
  | FieldExpr _ _ _ | ValueExpr _ | AggregateExpr _ _ _ => true
  | CastExpr c _ => no_unary c
  | ComparisonExpr _ l r => no_unary l && no_unary r
  | ConjunctionExpr _ cs | FunctionExpr _ cs => all cs
  | ArithmeticExpr _ l (Some r) => no_unary l && no_unary r
  | ArithmeticExpr _ _ None => false
  end.

Lemma no_unary_children cs :
  (fix all cs := match cs with [] => true | c :: cs' => no_unary c && all cs' end) cs = true ->
  Forall (fun c => no_unary c = true) cs.
Proof. induction cs as [|c cs IH]; [done|]. intros [? ?]%andb_true_iff. by constructor; [|apply IH]. Qed.

Section try_get_value.
Context `{CLib}.

Lemma try_values_inr cs vs :
  (fix go cs : Res (list Value) :=
     match cs with [] => mret [] | c :: cs' => v ← try_get_value c; vs ← go cs'; mret (v :: vs) end) cs = Some (inr vs) ->
  Forall2 (fun c v => try_get_value c = Some (inr v)) cs vs.
Proof.
  revert vs. induction cs as [|c cs IH]; intros vs Hvs; [by inversion Hvs|].
  apply Res_bind_inr in Hvs as (v & Hv & (vs' & Hvs & [= <-])%Res_bind_inr). constructor; auto.
Qed.

Lemma try_function_agrees eval ty cs vs v :
  Forall2 (fun c v => eval c = Some (inr v)) cs vs -> try_function ty vs = inr v ->
  eval_function eval ty cs = Some (inr v).
Proof.
  intros Hcs. destruct ty; (destruct Hcs as [|c1 v1 cs vs Hc1 [|c2 v2 cs' vs' Hc2 [|c3 v3 cs'' vs'' Hc3 [|]]]]; try done);
    cbn -[distance_values]; rewrite Hc1; [|cbn; by intros ->..].
  destruct v1; cbn -[distance_values]; try done. rewrite Hc2. destruct v2; cbn -[distance_values]; try done.
  cbn. destruct (negb _) eqn:?; [done|]. rewrite Hc3. by intros <-.
Qed.

Lemma try_get_value_agrees find_cell e v : no_unary e = true ->
  try_get_value e = Some (inr v) -> get_value find_cell e = Some (inr v).
Proof.
  revert v. induction e as [t f ty|w|c ty IH|op l r IHl IHr|ty cs IH|op l r IHl IHr|ty c n IH|ty cs IH]
    using expression_ind; intros v Hu Hv; try done; cbn [try_get_value get_value] in *.
  - apply Res_bind_inr in Hv as (w & Hw & Hc). cbn in Hu. by rewrite (IH w).
  - destruct l; try done. destruct r; done.
  - destruct r as [r|]; [|done]. cbn in Hu. apply andb_true_iff in Hu as [Hl Hr].
    apply Res_bind_inr in Hv as (vl & Hvl & (vr & Hvr & Hc)%Res_bind_inr).
    by rewrite (IHl vl), (IHr r eq_refl vr).
  - apply no_unary_children in Hu. apply Res_bind_inr in Hv as (vs & Hvs%try_values_inr & [= Hv]).
    eapply try_function_agrees; [|done]. clear Hv. induction Hvs; [constructor|].
    apply Forall_cons in IH as [? ?], Hu as [? ?]. constructor; auto.
Qed.
End try_get_value.

(** ** Properties *)

(** C15: Evaluation is type-safe.  When the cells of the tuple have their declared types,
    comparisons are between comparable types and no operand is missing, evaluating an
    expression never fails an assertion or dereferences a null child: it gives an error code or
    a value whose tag is the [value_type] that was computed for the expression without a tuple. *)
Theorem value_type_sound `{CLib} cell_type find_cell e :
  (forall spec ty, cell_type spec = Some ty -> has_type (find_cell spec) ty) ->
  well_typed cell_type e = true -> has_type (get_value find_cell e) (value_type e).
Proof. intros Hcells. by apply get_value_typed. Qed.

Lemma value_type_sound_witness : let _ := demo_clib in
  let find (_ : TupleCellSpec) : Res Value := mret (VInt 3) in
  let e := ComparisonExpr LESS_THAN (FieldExpr "t" "a" INTS) (ArithmeticExpr MUL (ValueExpr (VInt 2)) (Some (ValueExpr (VInt 2)))) in
  get_value find e = mret (VBool true) /\ has_type (get_value find e) (value_type e).
Proof.
  intros H find e. split; [reflexivity|].
  refine (value_type_sound (fun _ => Some INTS) find e _ eq_refl). intros spec ty E. injection E as <-. reflexivity.
Defined.

(** C22: What [try_get_value] computes at planning time is what [get_value] gives on every
    tuple, if no operand is missing; on unary minus the two differ, [get_value] dereferencing
    the missing operand. *)
Theorem constant_folding_sound `{CLib} find_cell :
  (forall e v, no_unary e = true -> try_get_value e = Some (inr v) -> get_value find_cell e = Some (inr v)) /\
  (forall z, let minus := ArithmeticExpr NEGATIVE (ValueExpr (VInt z)) None in
     try_get_value minus = Some (inr (VInt (int32 (- z)))) /\ get_value find_cell minus = stops).
Proof. split; [intros e v; apply try_get_value_agrees|done]. Qed.
