(* ===== verification/Tuple.v ===== *)
(** * Tuple: the rows that operators pass to each other

    [src/src/observer/sql/expr/tuple.h], [expression_tuple.h], [composite_tuple.cpp] and
    [tuple_cell.cpp]: a tuple answers for a cell by position ([cell_at], [spec_at]) or by
    description ([find_cell]).  The classes derived from [Tuple] are the constructors.

    The theorems: the cells of the rows of a table have the types of its schema; copying a
    tuple into a list of values ([ValueListTuple::make]) keeps what every field expression
    finds in it. *)

From stdpp Require Import strings.
From S2P Require Import Prelude Bytes Compare RecordPage Float32 Value Expr.
#[local] Open Scope Z_scope.

(** ** Data *)

Record FieldMeta := mkField { field_name : string; field_type : AttrType; attr_offset : Z; attr_len : Z }.

(** An expression with its [name()]. *)
Definition Named : Type := string * Expression.

Inductive Tuple :=
| RowTuple (table_name : string) (fields : list FieldMeta) (rid : RID) (record : list Z)
| ValueListTuple (cells : list Value) (specs : list TupleCellSpec)
| JoinedTuple (left right : Tuple)
| ExpressionTuple (expressions : list Named) (child_tuple : option Tuple)
| CompositeTuple (tuples : list Tuple).

Section tuple_ind.
Context (P : Tuple -> Prop)
  (Hrow : forall t fs i r, P (RowTuple t fs i r)) (Hvalues : forall cs ss, P (ValueListTuple cs ss))
  (Hjoined : forall l r, P l -> P r -> P (JoinedTuple l r))
  (Hexpr : forall es, P (ExpressionTuple es None)) (Hchild : forall es t, P t -> P (ExpressionTuple es (Some t)))
  (Hcomposite : forall ts, Forall P ts -> P (CompositeTuple ts)).

Fixpoint tuple_ind (t : Tuple) : P t :=
  match t with
  | RowTuple t fs i r => Hrow t fs i r
  | ValueListTuple cs ss => Hvalues cs ss
  | JoinedTuple l r => Hjoined l r (tuple_ind l) (tuple_ind r)
  | ExpressionTuple es None => Hexpr es
  | ExpressionTuple es (Some t) => Hchild es t (tuple_ind t)
  | CompositeTuple ts =>
      Hcomposite ts ((fix go ts : Forall P ts := match ts with
        | [] => Forall_nil_2 _ | t :: ts' => Forall_cons_2 _ _ _ (tuple_ind t) (go ts') end) ts)
  end.
End tuple_ind.

(** ** Operations *)

Section tuple.
Context `{CLib}.

(** [vector::operator[]] with an index that may be out of range. *)
Definition at_index {A} (l : list A) (index : Z) : Res A :=
  match l !! Z.to_nat index with Some x => if index <? 0 then stops else mret x | None => stops end.

Definition in_range {A} (l : list A) (index : Z) : bool := (0 <=? index) && (index <? zlen l).

Fixpoint cell_num (t : Tuple) : Z :=
  match t with
  | RowTuple _ fields _ _ => zlen fields
  | ValueListTuple cells _ => zlen cells
  | JoinedTuple l r => cell_num l + cell_num r
  | ExpressionTuple expressions _ => zlen expressions
  | CompositeTuple tuples => (fix go ts := match ts with [] => 0 | t :: ts' => cell_num t + go ts' end) tuples
  end.

(** The cell of a row: the field's bytes as a value of the field's type. *)
Definition row_cell (field : FieldMeta) (record : list Z) : Value :=
  set_data field.(field_type) (drop (Z.to_nat field.(attr_offset)) record) field.(attr_len).

(** The value of an expression of an [ExpressionTuple]. *)
Definition expression_value (find : option (TupleCellSpec -> Res Value)) (e : Expression) : Res Value :=
  match find with Some find_cell => get_value find_cell e | None => try_get_value e end.

Fixpoint find_field (fields : list FieldMeta) (record : list Z) (name : string) : Res Value :=
  match fields with
  | [] => fails NOTFOUND
  | field :: fields' =>
      if bool_decide (name = field.(field_name)) then mret (row_cell field record) else find_field fields' record name
  end.

Fixpoint find_spec (cells : list Value) (specs : list TupleCellSpec) (spec : TupleCellSpec) : Res Value :=
  match cells, specs with
  | c :: cells', s :: specs' => if bool_decide (s = spec) then mret c else find_spec cells' specs' spec
  | _, _ => fails NOTFOUND
  end.

Fixpoint find_named (eval : Expression -> Res Value) (expressions : list Named) (alias : string) : Res Value :=
  match expressions with
  | [] => fails NOTFOUND
  | (name, e) :: expressions' => if bool_decide (alias = name) then eval e else find_named eval expressions' alias
  end.

Fixpoint find_cell (t : Tuple) (spec : TupleCellSpec) : Res Value :=
  match t with
  | RowTuple table_name fields _ record =>
      if negb (bool_decide (spec.(spec_table) = table_name)) then fails NOTFOUND
      else find_field fields record spec.(spec_field)
  | ValueListTuple cells specs => if (length cells =? length specs)%nat then find_spec cells specs spec else stops
  | JoinedTuple l r =>
      match find_cell l spec with
      | Some (inl NOTFOUND) => find_cell r spec
      | res => res
      end
  | ExpressionTuple expressions child =>
      match child with
      | Some c =>
          match find_cell c spec with
          | Some (inl _) => find_named (expression_value (Some (find_cell c))) expressions spec.(spec_alias)
          | res => res
          end
      | None => find_named (expression_value None) expressions spec.(spec_alias)
      end
  | CompositeTuple tuples =>
      (fix go rc ts := match ts with
       | [] => fails rc
       | t :: ts' => match find_cell t spec with Some (inl rc) => go rc ts' | res => res end
       end) NOTFOUND tuples
  end.

Fixpoint cell_at (t : Tuple) (index : Z) : Res Value :=
  match t with
  | RowTuple _ fields _ record =>
      if negb (in_range fields index) then fails INVALID_ARGUMENT
      else field ← at_index fields index; mret (row_cell field record)
  | ValueListTuple cells _ => if negb (in_range cells index) then fails NOTFOUND else at_index cells index
  | JoinedTuple l r =>
      let left_cell_num := cell_num l in
      if (0 <=? index) && (index <? left_cell_num) then cell_at l index
      else if (left_cell_num <=? index) && (index <? left_cell_num + cell_num r) then cell_at r (index - left_cell_num)
      else fails NOTFOUND
  | ExpressionTuple expressions child =>
      if negb (in_range expressions index) then fails INVALID_ARGUMENT
      else e ← at_index expressions index; expression_value (find_cell <$> child) e.2
  | CompositeTuple tuples =>
      (fix go ts index := match ts with
       | [] => fails NOTFOUND
       | t :: ts' => if index <? cell_num t then cell_at t index else go ts' (index - cell_num t)
       end) tuples index
  end.

Fixpoint spec_at (t : Tuple) (index : Z) : Res TupleCellSpec :=
  match t with
  | RowTuple table_name fields _ _ => field ← at_index fields index; mret (field_spec table_name field.(field_name))
  | ValueListTuple cells specs => if negb (in_range cells index) then fails NOTFOUND else at_index specs index
  | JoinedTuple l r =>
      let left_cell_num := cell_num l in
      if (0 <=? index) && (index <? left_cell_num) then spec_at l index
      else if (left_cell_num <=? index) && (index <? left_cell_num + cell_num r) then spec_at r (index - left_cell_num)
      else fails NOTFOUND
  | ExpressionTuple expressions _ =>
      if negb (in_range expressions index) then fails INVALID_ARGUMENT
      else e ← at_index expressions index; mret (alias_spec e.1)
  | CompositeTuple tuples =>
      (fix go ts index := match ts with
       | [] => fails NOTFOUND
       | t :: ts' => if index <? cell_num t then spec_at t index else go ts' (index - cell_num t)
       end) tuples index
  end.

(** [ValueListTuple::make] *)
Fixpoint make_loop (t : Tuple) (i : Z) (n : nat) : Res (list (Value * TupleCellSpec)) :=
  match n with
  | O => mret []
  | S n' =>
      cell ← cell_at t i; spec ← spec_at t i; rest ← make_loop t (i + 1) n'; mret ((cell, spec) :: rest)
  end.

Definition make (t : Tuple) : Res Tuple :=
  cells ← make_loop t 0 (Z.to_nat (cell_num t)); mret (ValueListTuple cells.*1 cells.*2).

(** [Tuple::compare] *)
Fixpoint compare_loop (t other : Tuple) (i : Z) (n : nat) : Res Z :=
  match n with
  | O => mret 0
  | S n' =>
      this_value ← cell_at t i; other_value ← cell_at other i;
      match compare_val this_value other_value with
      | None => stops
      | Some result => if negb (0 =? result) then mret result else compare_loop t other (i + 1) n'
      end
  end.

Definition compare (t other : Tuple) : Res Z :=
  if cell_num t <? cell_num other then mret (-1)
  else if cell_num other <? cell_num t then mret 1
  else compare_loop t other 0 (Z.to_nat (cell_num t)).
End tuple.

(** ** Rows and joined rows as lists of cells *)

Fixpoint row_shaped (t : Tuple) : Prop :=
  match t with
  | RowTuple name _ _ _ => name <> ""%string
  | JoinedTuple l r => row_shaped l /\ row_shaped r
  | _ => False
  end.

Fixpoint row_cells (t : Tuple) : list (Value * TupleCellSpec) :=
  match t with
  | RowTuple name fields _ record => (fun f => (row_cell f record, field_spec name f.(field_name))) <$> fields
  | JoinedTuple l r => row_cells l ++ row_cells r
  | _ => []
  end.

(** Descriptions that expressions look for. *)
Inductive asked : TupleCellSpec -> Prop :=
| asked_field t f : asked (field_spec t f)
| asked_alias a : asked (alias_spec a).
#[export] Hint Constructors asked : core.

Lemma at_index_lt {A} (l : list A) (i : nat) x : l !! i = Some x -> at_index l (Z.of_nat i) = mret x.
Proof. intros Hx. unfold at_index. rewrite Nat2Z.id, Hx. by destruct (Z.ltb_spec (Z.of_nat i) 0); [lia|]. Qed.

Lemma in_range_lookup {A} (l : list A) (i : nat) x : l !! i = Some x -> in_range l (Z.of_nat i) = true.
Proof.
  intros Hx%lookup_lt_Some. unfold in_range, zlen. apply andb_true_iff. split; [apply Z.leb_le|apply Z.ltb_lt]; lia.
Qed.

Lemma field_spec_inj t f t' f' : field_spec t f = field_spec t' f' -> t = t' /\ f = f'.
Proof. by intros [= -> -> _]. Qed.

Section rows.
Context `{CLib}.

Lemma cell_num_rows t : row_shaped t -> cell_num t = zlen (row_cells t).
Proof.
  induction t as [name fs i0 r|cs ss|l r IHl IHr|es|es c IHc|ts IHts] using tuple_ind; cbn; intros Ht; try done.
  - unfold zlen. by rewrite length_fmap.
  - destruct Ht. unfold zlen in *. rewrite length_app. rewrite IHl, IHr by done. lia.
Qed.

(** Positions of a joined row: in the left row, or behind it in the right one. *)
Lemma cell_at_rows t (i : nat) v s : row_shaped t -> row_cells t !! i = Some (v, s) ->
  cell_at t (Z.of_nat i) = mret v /\ spec_at t (Z.of_nat i) = mret s.
Proof.
  revert i. induction t as [name fs i0 r|cs ss|l r IHl IHr|es|es c IHc|ts IHts] using tuple_ind; cbn; intros i Ht Hi; try done.
  - apply list_lookup_fmap_Some in Hi as (f & [= -> ->] & Hf).
    rewrite (in_range_lookup _ _ _ Hf), (at_index_lt _ _ _ Hf). done.
  - destruct Ht as [Hl Hr]. rewrite !cell_num_rows by done. unfold zlen.
    apply lookup_app_Some in Hi as [Hi|[Hge Hi]].
    + pose proof (lookup_lt_Some _ _ _ Hi). rewrite (proj2 (Z.leb_le 0 _)), (proj2 (Z.ltb_lt _ _)) by lia. by apply IHl.
    + pose proof (lookup_lt_Some _ _ _ Hi). rewrite (proj2 (Z.leb_le 0 _)), (proj2 (Z.ltb_ge _ _)) by lia. cbn [andb].
      rewrite (proj2 (Z.leb_le _ _)), (proj2 (Z.ltb_lt _ _)) by lia. rewrite <- Nat2Z.inj_sub by lia. by apply IHr.
Qed.

Lemma make_loop_rows t k n : row_shaped t -> (k + n = length (row_cells t))%nat ->
  make_loop t (Z.of_nat k) n = mret (drop k (row_cells t)).
Proof.
  intros Ht. revert k. induction n as [|n IH]; intros k Hk; cbn.
  - by rewrite drop_ge by lia.
  - destruct (lookup_lt_is_Some_2 (row_cells t) k) as [[v s] Hvs]; [lia|].
    destruct (cell_at_rows t k v s Ht Hvs) as [-> ->]. rewrite !Res_bind_ret.
    replace (Z.of_nat k + 1) with (Z.of_nat (S k)) by lia. rewrite IH by lia. rewrite Res_bind_ret.
    by rewrite (drop_S _ _ _ Hvs).
Qed.

Lemma make_rows t : row_shaped t -> make t = mret (ValueListTuple (row_cells t).*1 (row_cells t).*2).
Proof.
  intros Ht. unfold make. rewrite (make_loop_rows t 0); [done..|]. rewrite cell_num_rows by done. unfold zlen. lia.
Qed.

Lemma find_spec_app c1 c2 spec :
  find_spec (c1 ++ c2).*1 (c1 ++ c2).*2 spec =
  match find_spec c1.*1 c1.*2 spec with Some (inl NOTFOUND) => find_spec c2.*1 c2.*2 spec | res => res end.
Proof. induction c1 as [|[v s] c1 IH]; cbn; [done|]. by case_bool_decide. Qed.

Lemma find_spec_none cs spec : Forall (fun c => c.2 <> spec) cs -> find_spec cs.*1 cs.*2 spec = fails NOTFOUND.
Proof. induction 1 as [|[v s] cs ? ? IH]; cbn in *; [done|]. by rewrite bool_decide_false. Qed.

Lemma find_cell_rows t spec : row_shaped t -> asked spec ->
  find_cell t spec = find_spec (row_cells t).*1 (row_cells t).*2 spec.
Proof.
  intros Ht Hs. induction t as [name fs i0 r|cs ss|l r IHl IHr|es|es c IHc|ts IHts] using tuple_ind; cbn in *; try done.
  - case_bool_decide as Hname; cbn.
    + destruct Hs as [tn f|a]; [|done]. cbn in *. subst tn. induction fs as [|fm fs IH]; cbn; [done|].
      case_bool_decide as Hf; [by subst; rewrite bool_decide_true|]. rewrite bool_decide_false; [done|].
      by intros [_ ?]%field_spec_inj.
    + symmetry. apply find_spec_none, Forall_fmap, Forall_true. intros f E. by subst spec.
  - destruct Ht. by rewrite find_spec_app, <- IHl, <- IHr.
Qed.

Lemma get_value_ext (f g : TupleCellSpec -> Res Value) e :
  (forall spec, asked spec -> f spec = g spec) -> get_value f e = get_value g e.
Proof.
  intros Hfg. induction e as [t fl ty|v|c ty IH|op l r IHl IHr|ty cs IH|op l r IHl IHr|ty c n IH|ty cs IH]
    using expression_ind; cbn; auto.
  - by rewrite IH.
  - by rewrite IHl, IHr.
  - case_bool_decide; [done|]. induction IH as [|c cs Hc _ IH]; cbn; [done|]. rewrite Hc.
    destruct (get_value g c) as [[|v]|]; cbn; [done| |done]. case_match; [done|]. destruct cs; [done|by apply IH].
  - rewrite IHl. destruct r as [r|]; [|done]. by rewrite (IHr r).
  - destruct ty, cs as [|c1 [|c2 [|c3 [|c4 cs]]]]; cbn; try done;
      repeat match goal with H : Forall _ (_ :: _) |- _ => apply Forall_cons in H as [-> H] end; done.
Qed.

Lemma make_keeps t v : row_shaped t -> make t = mret v -> forall e, get_value (find_cell v) e = get_value (find_cell t) e.
Proof.
  intros Ht. rewrite make_rows by done. intros [= <-] e. apply get_value_ext. intros spec Hs.
  rewrite (find_cell_rows t) by done. cbn. by rewrite !length_fmap, Nat.eqb_refl.
Qed.
End rows.

(** ** Schemas *)

Definition Schema : Type := list (string * FieldMeta).

Fixpoint schema_of (t : Tuple) : Schema :=
  match t with
  | RowTuple name fields _ _ => (fun f => (name, f)) <$> fields
  | JoinedTuple l r => schema_of l ++ schema_of r
  | _ => []
  end.

(** The type of the first field that a description matches. *)
Fixpoint schema_type (s : Schema) (spec : TupleCellSpec) : option AttrType :=
  match s with
  | [] => None
  | (name, f) :: s' =>
      if bool_decide (spec.(spec_table) = name /\ spec.(spec_field) = f.(field_name)) then Some f.(field_type)
      else schema_type s' spec
  end.

Lemma schema_type_app s1 s2 spec :
  schema_type (s1 ++ s2) spec = match schema_type s1 spec with Some ty => Some ty | None => schema_type s2 spec end.
Proof. induction s1 as [|[n f] s1 IH]; cbn; [done|]. by case_bool_decide. Qed.

Lemma set_data_type ty data len : attr_type (set_data ty data len) = ty.
Proof. by destruct ty. Qed.

Lemma find_field_schema `{CLib} name fields record spec : spec.(spec_table) = name ->
  match schema_type ((fun f => (name, f)) <$> fields) spec with
  | Some ty => exists v, find_field fields record spec.(spec_field) = mret v /\ attr_type v = ty
  | None => find_field fields record spec.(spec_field) = fails NOTFOUND
  end.
Proof.
  intros <-. induction fields as [|f fields IH]; cbn; [done|]. case_bool_decide as Hf.
  - rewrite bool_decide_true by tauto. eexists. split; [done|]. apply set_data_type.
  - rewrite bool_decide_false by tauto. done.
Qed.

Lemma schema_type_other name fields spec : spec.(spec_table) <> name ->
  schema_type ((fun f : FieldMeta => (name, f)) <$> fields) spec = None.
Proof. intros Hn. induction fields as [|f fields IH]; cbn; [done|]. by rewrite bool_decide_false by tauto. Qed.

Lemma find_cell_schema `{CLib} t spec : row_shaped t ->
  match schema_type (schema_of t) spec with
  | Some ty => exists v, find_cell t spec = mret v /\ attr_type v = ty
  | None => find_cell t spec = fails NOTFOUND
  end.
Proof.
  induction t as [name fs i0 r|cs ss|l r IHl IHr|es|es c IHc|ts IHts] using tuple_ind; cbn; intros Ht; try done.
  - case_bool_decide as Hn; cbn; [by apply find_field_schema|]. by rewrite schema_type_other.
  - destruct Ht as [Hl Hr]. rewrite schema_type_app. specialize (IHl Hl). specialize (IHr Hr).
    destruct (schema_type (schema_of l) spec) as [ty|]; [destruct IHl as (v & -> & ?); by eexists|]. by rewrite IHl.
Qed.

(** ** Properties *)

(** Expressions keep their meaning when rows are materialised, as ORDER BY and GROUP BY do:
    copying a row, or a join of rows, into a list of values never fails, and every expression has
    on the copy the value it has on the row. *)
Theorem materialised_rows_equal `{CLib} t : row_shaped t ->
  exists v, make t = mret v /\ forall e, get_value (find_cell v) e = get_value (find_cell t) e.
Proof. intros Ht. eexists. split; [by apply make_rows|]. intros e. by eapply make_keeps, make_rows. Qed.

Lemma materialised_rows_equal_witness : let _ := demo_clib in
  let row name n := RowTuple name [mkField "a" INTS 0 4] (mkRID 1 0) [n; 0; 0; 0] in
  let t := JoinedTuple (row "t" 3) (row "u" 4) in
  get_value (find_cell t) (FieldExpr "u" "a" INTS) = mret (VInt 4) /\
  exists v, make t = mret v /\ forall e, get_value (find_cell v) e = get_value (find_cell t) e.
Proof.
  intros H row t. split; [reflexivity|]. refine (materialised_rows_equal t _). split; discriminate.
Defined.
