(* ===== verification/TableMeta.v ===== *)
(** * TableMeta: schemas, and values in records

    [src/src/observer/storage/table/table_meta.cpp] lays the fields of a table out in a record,
    [src/src/observer/storage/field/field_meta.cpp] checks each of them, and
    [Table::make_record] ([src/src/observer/storage/table/table.cpp]) writes the values of an
    INSERT to their places.  [Tuple.row_cell] is how the operators read them back.

    Of a [FieldMeta] the flags [visible] and [field_id], which none of this reads, are left out. *)

From stdpp Require Import strings.
From Stdlib Require Import SpecFloat.
From S2P Require Import Prelude Bytes Compare RecordPage Float32 Value Expr Tuple.
#[local] Open Scope Z_scope.

(** ** Floats in memory *)

Definition bits_of_float (f : float32) : Z :=
  let sign (s : bool) := if s then 2 ^ 31 else 0 in
  match f with
  | S754_zero s => sign s
  | S754_infinity s => sign s + 0xff * 2 ^ 23
  | S754_nan => 0xff * 2 ^ 23 + 2 ^ 22
  | S754_finite s m e => sign s + (if Zpos m <? 2 ^ 23 then Zpos m else (e + 150) * 2 ^ 23 + (Zpos m - 2 ^ 23))
  end.

Lemma float_fields (s : bool) E M : 0 <= E < 256 -> 0 <= M < 2 ^ 23 ->
  let b := (if s then 2 ^ 31 else 0) + E * 2 ^ 23 + M in
  Z.testbit b 31 = s /\ Z.land (Z.shiftr b 23) 0xff = E /\ Z.land b 0x7fffff = M.
Proof.
  intros HE HM b.
  assert (Hd : b / 2 ^ 23 = (if s then 256 else 0) + E).
  { unfold b. replace (if s then 2 ^ 31 else 0) with ((if s then 256 else 0) * 2 ^ 23) by by destruct s.
    rewrite <- Z.mul_add_distr_r. rewrite Z.div_add_l by lia. rewrite (Z.div_small M) by done. lia. }
  split_and!.
  - rewrite Z.testbit_odd, Z.shiftr_div_pow2 by lia.
    replace (b / 2 ^ 31) with (b / 2 ^ 23 / 2 ^ 8) by (rewrite Z.div_div by lia; done).
    rewrite Hd. destruct s.
    + replace (256 + E) with (E + 1 * 2 ^ 8) by lia. rewrite Z.div_add by lia. rewrite (Z.div_small E) by lia. done.
    + rewrite Z.add_0_l, (Z.div_small E) by lia. done.
  - rewrite Z.shiftr_div_pow2, Hd by lia. change 0xff with (Z.ones 8). rewrite Z.land_ones by lia. destruct s.
    + replace (256 + E) with (E + 1 * 2 ^ 8) by lia. rewrite Z.mod_add by lia. apply Z.mod_small. lia.
    + apply Z.mod_small. lia.
  - change 0x7fffff with (Z.ones 23). rewrite Z.land_ones by lia. unfold b.
    replace (_ + E * 2 ^ 23 + M) with (M + ((if s then 256 else 0) + E) * 2 ^ 23) by (destruct s; lia).
    rewrite Z.mod_add by lia. apply Z.mod_small. lia.
Qed.

Lemma digits2_pos_bounds m : 2 ^ (Zpos (digits2_pos m) - 1) <= Zpos m < 2 ^ Zpos (digits2_pos m).
Proof.
  assert (Hs : forall d : positive, 2 ^ Zpos (Pos.succ d) = 2 * 2 ^ Zpos d) by (intros d; rewrite Pos2Z.inj_succ, Z.pow_succ_r; lia).
  assert (Hp : forall d : positive, 2 ^ Zpos d = 2 * 2 ^ (Zpos d - 1)).
  { intros d. rewrite <- Z.pow_succ_r by lia. f_equal. lia. }
  induction m as [m IH|m IH|]; cbn [digits2_pos]; [| |cbn; lia];
    rewrite Hs; replace (Zpos (Pos.succ (digits2_pos m)) - 1) with (Zpos (digits2_pos m)) by lia; rewrite (Hp (digits2_pos m)) in *; lia.
Qed.

(** The values a [float] can have. *)
Definition is_float (f : float32) : bool := valid_binary 24 128 f.

Lemma float_bits_roundtrip f : is_float f = true -> float_of_bits (bits_of_float f) = f.
Proof.
  destruct f as [s|s| |s m e]; intros Hv; cbn [bits_of_float]; unfold float_of_bits.
  - destruct (float_fields s 0 0 ltac:(lia) ltac:(lia)) as (Hs & He & Hm). rewrite !Z.add_0_r in *. cbn zeta. by rewrite Hs, He, Hm.
  - destruct (float_fields s 255 0 ltac:(lia) ltac:(lia)) as (Hs & He & Hm). rewrite !Z.add_0_r in *. cbn zeta. by rewrite Hs, He, Hm.
  - reflexivity.
  - unfold is_float, valid_binary, bounded, canonical_mantissa, fexp, emin in Hv. apply andb_true_iff in Hv as [Hc%Zeq_bool_eq Hle%Z.leb_le].
    pose proof (digits2_pos_bounds m) as Hd. set (d := Zpos (digits2_pos m)) in *.
    assert (Hd24 : d <= 24) by lia. assert (Hm24 : Zpos m < 2 ^ 24) by (eapply Z.lt_le_trans; [apply Hd|]; apply Z.pow_le_mono_r; lia).
    destruct (Z.ltb_spec (Zpos m) (2 ^ 23)) as [Hm|Hm].
    + assert (d < 24) by (destruct (Z.eq_dec d 24) as [E|]; [rewrite E in Hd; cbn in Hd; lia|lia]). assert (e = -149) as -> by lia.
      destruct (float_fields s 0 (Zpos m) ltac:(lia) ltac:(lia)) as (Hs & He & HM). rewrite Z.mul_0_l, Z.add_0_r in *.
      cbn zeta. by rewrite Hs, He, HM.
    + assert (d = 24).
      { destruct (Z.eq_dec d 24); [done|]. assert (2 ^ d <= 2 ^ 23) by (apply Z.pow_le_mono_r; lia). lia. }
      destruct (float_fields s (e + 150) (Zpos m - 2 ^ 23) ltac:(lia) ltac:(lia)) as (Hs & He & HM). rewrite <- Z.add_assoc in *.
      cbn zeta. rewrite Hs, He, HM. rewrite (proj2 (Z.eqb_neq (e + 150) 0xff)), (proj2 (Z.eqb_neq (e + 150) 0)) by lia.
      replace (Zpos m - 2 ^ 23 + 0x800000) with (Zpos m) by lia. f_equal. lia.
Qed.

Lemma bits_of_float_range f : is_float f = true -> 0 <= bits_of_float f < 2 ^ 32.
Proof.
  destruct f as [s|s| |s m e]; cbn [bits_of_float]; [destruct s; cbn; lia|destruct s; cbn; lia|intros _; lia|].
  intros Hv. unfold is_float, valid_binary, bounded, canonical_mantissa, fexp, emin in Hv. apply andb_true_iff in Hv as [Hc%Zeq_bool_eq Hle%Z.leb_le].
  pose proof (digits2_pos_bounds m) as Hd. set (d := Zpos (digits2_pos m)) in *.
  assert (Zpos m < 2 ^ 24) by (eapply Z.lt_le_trans; [apply Hd|]; apply Z.pow_le_mono_r; lia).
  destruct (Z.ltb_spec (Zpos m) (2 ^ 23)); destruct s; lia.
Qed.

(** ** Schemas *)

(** [isspace] and [common::is_blank] *)
Definition isspace (c : Ascii.ascii) : bool :=
  let n := Ascii.N_of_ascii c in ((n =? 32) || ((9 <=? n) && (n <=? 13)))%N.
Fixpoint is_blank (s : string) : bool :=
  match s with EmptyString => true | String c s' => isspace c && is_blank s' end.

(** [FieldMeta::init] *)
Definition field_init (name : string) (ty : AttrType) (offset len : Z) : RC + FieldMeta :=
  if is_blank name then inl INVALID_ARGUMENT
  else if bool_decide (ty = UNDEFINED) || (offset <? 0) || (len <=? 0) then inl INVALID_ARGUMENT
  else inr (mkField name ty offset len).

(** A column of CREATE TABLE. *)
Record AttrInfo := mkAttr { attr_name : string; attr_info_type : AttrType; attr_length : Z }.

Record TableMeta := mkTableMeta { meta_name : string; trx_fields : list FieldMeta; fields : list FieldMeta; record_size : Z }.

Definition sys_field_num (m : TableMeta) : Z := zlen m.(trx_fields).
Definition field_num (m : TableMeta) : Z := zlen m.(fields).

(** The loop over the transaction's fields; the constructor of [FieldMeta] asserts. *)
Fixpoint place_trx_fields (trx : list FieldMeta) (field_offset : Z) : option (list FieldMeta * Z) :=
  match trx with
  | [] => Some ([], field_offset)
  | f :: trx' =>
      match field_init f.(field_name) f.(field_type) field_offset f.(attr_len) with
      | inl _ => None
      | inr f' => '(fs, off) ← place_trx_fields trx' (int32 (field_offset + f.(attr_len))); Some (f' :: fs, off)
      end
  end.

(** The loop over the columns. *)
Fixpoint place_fields (attributes : list AttrInfo) (field_offset : Z) : RC + list FieldMeta * Z :=
  match attributes with
  | [] => inr ([], field_offset)
  | a :: attributes' =>
      match field_init a.(attr_name) a.(attr_info_type) field_offset a.(attr_length) with
      | inl rc => inl rc
      | inr f =>
          match place_fields attributes' (int32 (field_offset + a.(attr_length))) with
          | inl rc => inl rc
          | inr (fs, off) => inr (f :: fs, off)
          end
      end
  end.

(** [TableMeta::init] *)
Definition meta_init (name : string) (trx : list FieldMeta) (attributes : list AttrInfo) : Res TableMeta :=
  if is_blank name then fails INVALID_ARGUMENT
  else if bool_decide (attributes = []) then fails INVALID_ARGUMENT
  else
    match place_trx_fields trx 0 with
    | None => stops
    | Some (sys, field_offset) =>
        match place_fields attributes field_offset with
        | inl rc => fails rc
        | inr (fs, size) => mret (mkTableMeta name trx (sys ++ fs) size)
        end
    end.

(** [TableMeta::field] *)
Definition meta_field (m : TableMeta) (name : string) : option FieldMeta :=
  head (List.filter (fun f => bool_decide (f.(field_name) = name)) m.(fields)).

(** ** Records *)

(** The bytes that [Value::data] points to, as far as they are those of the value; no column
    has the type BOOLEANS. *)
Definition value_data (v : Value) : option (list Z) :=
  match v with
  | VInt z => Some (le_bytes 4 z)
  | VFloat f => Some (le_bytes 4 (bits_of_float f))
  | VChars s => Some (s ++ [0])
  | VVector fs => Some (concat (map (fun f => le_bytes 4 (bits_of_float f)) fs))
  | VBool _ | VUndefined => None
  end.

(** [Value::length] *)
Definition value_length (v : Value) : Z :=
  match v with VChars s => zlen s | VVector fs => zlen fs | VInt _ | VFloat _ | VBool _ => 4 | VUndefined => 0 end.

(** [Table::set_value_to_record]; [None]: the copy reads past the value. *)
Definition set_value_to_record (record_data : list Z) (value : Value) (field : FieldMeta) : option (list Z) :=
  let copy_len := field.(attr_len) in
  let data_len := value_length value in
  let copy_len := if bool_decide (field.(field_type) = CHARS) && (data_len <? copy_len) then data_len + 1 else copy_len in
  data ← value_data value;
  if zlen data <? copy_len then None else Some (blit record_data field.(attr_offset) (take (Z.to_nat copy_len) data)).

Section make_record.
Context `{CLib}.

(** One turn of the loop of [make_record]. *)
Definition set_field (record_data : list Z) (field : FieldMeta) (value : Value) : Res (list Z) :=
  if bool_decide (field.(field_type) = VECTORS) && bool_decide (attr_type value = VECTORS) &&
     negb (field.(attr_len) / 4 =? value_length value) then fails INVALID_ARGUMENT
  else
    real_value ← (if bool_decide (field.(field_type) = attr_type value) then mret value
                  else Some (cast_to value field.(field_type)) : Res Value);
    match set_value_to_record record_data real_value field with Some r => mret r | None => stops end.

Fixpoint set_fields (record_data : list Z) (fs : list FieldMeta) (values : list Value) : Res (list Z) :=
  match fs, values with
  | f :: fs', v :: values' => r ← set_field record_data f v; set_fields r fs' values'
  | _, _ => mret record_data
  end.

(** [Table::make_record] *)
Definition make_record (m : TableMeta) (values : list Value) : Res (list Z) :=
  if negb (zlen values + sys_field_num m =? field_num m) then fails SCHEMA_FIELD_MISSING
  else set_fields (replicate (Z.to_nat m.(record_size)) 0) (drop (Z.to_nat (sys_field_num m)) m.(fields)) values.

(** ** Layout *)

(** Fields one behind the other, from [off] to [size]. *)
Fixpoint packed (fs : list FieldMeta) (off size : Z) : Prop :=
  match fs with
  | [] => off = size
  | f :: fs' => f.(attr_offset) = off /\ 0 < f.(attr_len) /\ packed fs' (off + f.(attr_len)) size
  end.

Lemma packed_le fs off size : packed fs off size -> off <= size.
Proof. revert off. induction fs as [|f fs IH]; intros off; cbn; [lia|]. intros (_ & ? & ?%IH). lia. Qed.

Lemma packed_app fs1 fs2 off mid size : packed fs1 off mid -> packed fs2 mid size -> packed (fs1 ++ fs2) off size.
Proof. revert off. induction fs1 as [|f fs1 IH]; intros off; cbn; [by intros ->|]. naive_solver. Qed.

Lemma packed_drop fs off size n : packed fs off size -> 0 <= off -> exists off', 0 <= off' /\ packed (drop n fs) off' size.
Proof.
  revert off n. induction fs as [|f fs IH]; intros off [|n] Hp Hoff; cbn in *; try (by exists off).
  destruct Hp as (_ & ? & Hp). apply (IH (off + attr_len f) n Hp). lia.
Qed.

Lemma field_init_inr name ty off len f : field_init name ty off len = inr f -> f = mkField name ty off len /\ 0 <= off /\ 0 < len.
Proof.
  unfold field_init. destruct (is_blank name), (bool_decide (ty = UNDEFINED)), (Z.ltb_spec off 0), (Z.leb_spec len 0); cbn; try done.
  by intros [= <-].
Qed.

Lemma place_fields_nonneg attributes off fs size : place_fields attributes off = inr (fs, size) -> 0 <= foldr Z.add 0 (attr_length <$> attributes).
Proof.
  revert off fs. induction attributes as [|a attributes IH]; intros off fs; cbn; [lia|].
  destruct (field_init _ _ _ _) eqn:Ef; [done|]. apply field_init_inr in Ef as (_ & _ & ?).
  destruct (place_fields attributes _) as [|[fs' size']] eqn:Ep; [done|]. intros [= <- <-]. apply IH in Ep. lia.
Qed.

Lemma place_trx_nonneg trx off fs size : place_trx_fields trx off = Some (fs, size) -> 0 <= foldr Z.add 0 (attr_len <$> trx).
Proof.
  revert off fs. induction trx as [|a trx IH]; intros off fs; cbn; [lia|].
  destruct (field_init _ _ _ _) eqn:Ef; [done|]. apply field_init_inr in Ef as (_ & _ & ?).
  destruct (place_trx_fields trx _) as [[fs' size']|] eqn:Ep; [|done]. intros [= <- <-]. apply IH in Ep. lia.
Qed.

(** As long as the sizes fit in an [int]. *)
Lemma place_fields_packed attributes off fs size : place_fields attributes off = inr (fs, size) ->
  off + foldr Z.add 0 (attr_length <$> attributes) <= INT32_MAX -> 0 <= off -> packed fs off size /\ Forall2 (fun a f =>
    f.(field_name) = a.(attr_name) /\ f.(field_type) = a.(attr_info_type) /\ f.(attr_len) = a.(attr_length)) attributes fs.
Proof.
  revert off fs. induction attributes as [|a attributes IH]; intros off fs; cbn; [by intros [= <- <-]|].
  destruct (field_init _ _ _ _) as [|f] eqn:Ef; [done|]. apply field_init_inr in Ef as (-> & Hoff & Hlen).
  destruct (place_fields attributes _) as [|[fs' size']] eqn:Ep; [done|]. intros [= <- <-] Hsum _.
  pose proof (place_fields_nonneg _ _ _ _ Ep).
  rewrite int32_id in Ep by (unfold in_int32, INT32_MIN; lia).
  destruct (IH _ _ Ep) as [Hp Hf]; [lia|lia|]. cbn. split_and!; try done. by constructor.
Qed.

Lemma place_trx_packed trx off fs size : place_trx_fields trx off = Some (fs, size) ->
  off + foldr Z.add 0 (attr_len <$> trx) <= INT32_MAX -> 0 <= off -> packed fs off size /\ length fs = length trx.
Proof.
  revert off fs. induction trx as [|a trx IH]; intros off fs; cbn; [by intros [= <- <-]|].
  destruct (field_init _ _ _ _) as [|f] eqn:Ef; [done|]. apply field_init_inr in Ef as (-> & Hoff & Hlen).
  destruct (place_trx_fields trx _) as [[fs' size']|] eqn:Ep; [|done]. intros [= <- <-] Hsum _.
  pose proof (place_trx_nonneg _ _ _ _ Ep).
  rewrite int32_id in Ep by (unfold in_int32, INT32_MIN; lia).
  destruct (IH _ _ Ep) as [Hp Hf]; [lia|lia|]. cbn. split_and!; try done. by rewrite Hf.
Qed.

(** ** Reading back *)

(** A value that the field can hold. *)
Definition fits (f : FieldMeta) (v : Value) : Prop :=
  f.(field_type) = attr_type v /\
  match v with
  | VInt z => f.(attr_len) = 4 /\ in_int32 z
  | VFloat x => f.(attr_len) = 4 /\ is_float x = true
  | VChars s => nul_free s /\ 0 < f.(attr_len) /\ zlen s <= f.(attr_len)
  | VVector xs => f.(attr_len) = 4 * zlen xs /\ Forall (fun x => is_float x = true) xs
  | VBool _ | VUndefined => False
  end.

Lemma read_float_bytes x l : is_float x = true -> read_float (le_bytes 4 (bits_of_float x) ++ l) = x.
Proof.
  intros Hx. unfold read_float. rewrite take_app_length' by by rewrite le_bytes_length. rewrite le_value_bytes.
  rewrite Z.mod_small by (apply bits_of_float_range in Hx; exact Hx). by apply float_bits_roundtrip.
Qed.

Lemma read_floats_bytes xs l : Forall (fun x => is_float x = true) xs ->
  read_floats (length xs) (concat (map (fun f => le_bytes 4 (bits_of_float f)) xs) ++ l) = xs.
Proof.
  induction 1 as [|x xs Hx _ IH]; [done|]. cbn [length read_floats map concat]. rewrite <- app_assoc. rewrite read_float_bytes by done.
  rewrite drop_app_length' by by rewrite le_bytes_length. by rewrite IH.
Qed.

Lemma vector_bytes_length xs : length (concat (map (fun f => le_bytes 4 (bits_of_float f)) xs)) = (4 * length xs)%nat.
Proof. induction xs as [|x xs IH]; [done|]. cbn [map concat length]. rewrite length_app, le_bytes_length, IH. lia. Qed.

Lemma c_string_app s l : nul_free s -> c_string (s ++ 0 :: l) = s.
Proof. induction 1 as [|c s Hc _ IH]; cbn; [done|]. by rewrite (proj2 (Z.eqb_neq c 0)), IH. Qed.

Lemma c_string_id s : nul_free s -> c_string s = s.
Proof. induction 1 as [|c s Hc _ IH]; cbn; [done|]. by rewrite (proj2 (Z.eqb_neq c 0)), IH. Qed.

Lemma drop_blit r off src : 0 <= off -> off + zlen src <= zlen r ->
  drop (Z.to_nat off) (blit r off src) = src ++ drop (Z.to_nat off + length src) r.
Proof. intros. unfold blit. rewrite drop_app_length'; [done|]. rewrite length_take. unfold zlen in *. lia. Qed.

Lemma take_blit r off src : 0 <= off -> off + zlen src <= zlen r -> take (Z.to_nat off) (blit r off src) = take (Z.to_nat off) r.
Proof. intros. unfold blit. rewrite take_app_length'; [done|]. rewrite length_take. unfold zlen in *. lia. Qed.

(** The bytes that are written, and that the cell read from them is the value. *)
Lemma written_value f v : fits f v -> exists src, (forall r, set_value_to_record r v f = Some (blit r f.(attr_offset) src)) /\
  zlen src <= f.(attr_len) /\ forall l, f.(attr_len) <= zlen src + zlen l -> set_data f.(field_type) (src ++ l) f.(attr_len) = v.
Proof.
  intros [Hty Hv]. unfold set_value_to_record. rewrite Hty. destruct v as [|s|z|x|xs|b]; try done; cbn [attr_type value_data value_length].
  - destruct Hv as (Hs & Hpos & Hl). rewrite bool_decide_true by done. cbn [andb mbind option_bind].
    assert (Hz : zlen (s ++ [0]) = zlen s + 1) by (unfold zlen; rewrite length_app; cbn; lia). assert (0 <= zlen s) by (unfold zlen; lia).
    destruct (Z.ltb_spec (zlen s) f.(attr_len)) as [Hlt|Hge].
    + exists (s ++ [0]). split_and!; [|lia|].
      * intros r. rewrite Hz, Z.ltb_irrefl, take_ge by (unfold zlen in *; lia). done.
      * intros l Hl'. cbn [set_data]. unfold set_string. rewrite (proj2 (Z.ltb_lt 0 _)) by lia. f_equal.
        rewrite <- app_assoc. cbn [app]. rewrite take_app_ge by (unfold zlen in *; lia).
        destruct (Z.to_nat f.(attr_len) - length s)%nat as [|k] eqn:Ek; [unfold zlen in *; lia|]. cbn [take]. by apply c_string_app.
    + assert (f.(attr_len) = zlen s) as E by lia. rewrite E in *. exists s. split_and!; [|lia|].
      * intros r. rewrite Hz. rewrite (proj2 (Z.ltb_ge _ _)) by lia. rewrite take_app_length' by (unfold zlen; lia). done.
      * intros l _. cbn [set_data]. unfold set_string. f_equal. rewrite (proj2 (Z.ltb_lt 0 _)) by lia.
        rewrite take_app_length' by (unfold zlen; lia). by apply c_string_id.
  - destruct Hv as [-> Hz]. exists (le_bytes 4 z). split_and!; [done|done|]. intros l _. cbn [set_data]. f_equal.
    rewrite take_app_length' by by rewrite le_bytes_length. by apply le_value_int32.
  - destruct Hv as [-> Hx]. exists (le_bytes 4 (bits_of_float x)). split_and!; [done|done|]. intros l _. cbn [set_data]. f_equal.
    by apply read_float_bytes.
  - destruct Hv as [Hl Hx]. exists (concat (map (fun f => le_bytes 4 (bits_of_float f)) xs)). pose proof (vector_bytes_length xs) as Hb.
    assert (Hz : zlen (concat (map (fun f => le_bytes 4 (bits_of_float f)) xs)) = f.(attr_len)) by (rewrite Hl; unfold zlen; lia).
    split_and!; [|lia|].
    + intros r. cbn [bool_decide andb mbind option_bind]. rewrite bool_decide_false by done. cbn [andb]. rewrite Hz, Z.ltb_irrefl. by rewrite take_ge by (unfold zlen in *; lia).
    + intros l _. cbn [set_data]. rewrite Hl, Z.mul_comm, Z.div_mul by done. unfold zlen. rewrite Nat2Z.id. f_equal. by apply read_floats_bytes.
Qed.

Lemma set_field_fits r f v : fits f v -> set_field r f v = match set_value_to_record r v f with Some r' => mret r' | None => stops end.
Proof.
  intros [Hty Hv]. unfold set_field. rewrite Hty. assert (negb (f.(attr_len) / 4 =? value_length v) = true -> attr_type v <> VECTORS) as Hd.
  { intros Hn Hvt. destruct v; try done. destruct Hv as [Hl _]. cbn in Hn. rewrite Hl, Z.mul_comm, Z.div_mul, Z.eqb_refl in Hn by done. done. }
  destruct (negb _) eqn:En.
  - rewrite (bool_decide_false (attr_type v = VECTORS)) by auto. cbn [andb]. by rewrite bool_decide_true.
  - rewrite !andb_false_r. by rewrite bool_decide_true.
Qed.

(** What is read from the bytes of a field does not depend on the bytes in front of it. *)
Lemma set_fields_ok fs vs off size r : packed fs off size -> 0 <= off -> size <= zlen r -> Forall2 fits fs vs ->
  exists r', set_fields r fs vs = mret r' /\ length r' = length r /\ take (Z.to_nat off) r' = take (Z.to_nat off) r /\
    Forall2 (fun f v => row_cell f r' = v) fs vs.
Proof.
  intros Hp Hoff Hr Hf. revert off r Hp Hoff Hr. induction Hf as [|f v fs vs Hfit _ IH]; intros off r Hp Hoff Hr; [by exists r|].
  destruct Hp as (Ho & Hlen & Hp). pose proof (packed_le _ _ _ Hp) as Hle. cbn [set_fields].
  destruct (written_value f v Hfit) as (src & Hset & Hsrc & Hread). rewrite set_field_fits, Hset, Res_bind_ret by done. rewrite Ho.
  assert (Hbl : length (blit r off src) = length r) by (apply blit_length; lia).
  destruct (IH (off + f.(attr_len)) (blit r off src) Hp) as (r' & -> & Hl' & Ht' & Hc); [lia|unfold zlen in *; lia|].
  exists r'. split_and!; [done|lia| |].
  - rewrite <- (take_blit r off src) by lia. replace (take (Z.to_nat off) r') with (take (Z.to_nat off) (take (Z.to_nat (off + attr_len f)) r'))
      by (rewrite take_take; f_equal; lia). rewrite Ht', take_take. f_equal. lia.
  - constructor; [|done]. unfold row_cell. rewrite Ho.
    assert (Hd : exists l, drop (Z.to_nat off) r' = src ++ l).
    { exists (drop (length src) (drop (Z.to_nat off) r')). rewrite <- (take_drop (length src) (drop (Z.to_nat off) r')) at 1. f_equal.
      assert (Htk : take (Z.to_nat off + length src) r' = take (Z.to_nat off + length src) (blit r off src)).
      { replace (Z.to_nat off + length src)%nat with (Nat.min (Z.to_nat off + length src) (Z.to_nat (off + attr_len f))) by (unfold zlen in *; lia).
        rewrite <- !take_take. by rewrite Ht'. }
      rewrite take_drop_commute, Htk, <- take_drop_commute, drop_blit by lia. by rewrite take_app_length. }
    destruct Hd as [l Hd]. rewrite Hd. apply Hread. assert (length (src ++ l) = (length r' - Z.to_nat off)%nat) by (rewrite <- Hd; apply length_drop).
    rewrite length_app in *. unfold zlen in *. lia.
Qed.
End make_record.

Lemma meta_init_layout name trx attributes m : meta_init name trx attributes = mret m ->
  foldr Z.add 0 (attr_len <$> trx) + foldr Z.add 0 (attr_length <$> attributes) <= INT32_MAX ->
  m.(trx_fields) = trx /\ exists sys fs mid, m.(fields) = sys ++ fs /\ length sys = length trx /\ packed sys 0 mid /\ packed fs mid m.(record_size).
Proof.
  unfold meta_init. intros Hm Hsum. destruct (is_blank name); [done|]. case_bool_decide; [done|].
  destruct (place_trx_fields trx 0) as [[sys off]|] eqn:Es; [|done]. destruct (place_fields attributes off) as [|[fs size]] eqn:Ef; [done|].
  pose proof (place_fields_nonneg _ _ _ _ Ef) as Hnn. injection Hm as <-. split; [done|]. destruct (place_trx_packed _ _ _ _ Es) as [Hp Hl]; [lia|lia|].
  assert (Hoff : off = foldr Z.add 0 (attr_len <$> trx)).
  { clear -Es Hsum Hnn. assert (Hgen : forall o, place_trx_fields trx o = Some (sys, off) -> o + foldr Z.add 0 (attr_len <$> trx) <= INT32_MAX -> 0 <= o ->
      off = o + foldr Z.add 0 (attr_len <$> trx)); [|rewrite (Hgen 0); [lia|done|lia|lia]].
    clear Es Hsum. revert sys. induction trx as [|a l IH]; intros sys o; cbn; [intros [= _ <-]; lia|].
    destruct (field_init _ _ _ _) as [|f] eqn:Ef; [done|]. apply field_init_inr in Ef as (-> & Hoff & Hlen).
    destruct (place_trx_fields l _) as [[fs' size']|] eqn:Ep; [|done]. intros [= <- <-] Hs _.
    pose proof (place_trx_nonneg _ _ _ _ Ep).
    rewrite int32_id in Ep by (unfold in_int32, INT32_MIN; lia). apply IH in Ep; lia. }
  assert (0 <= off) by (apply packed_le in Hp; lia).
  destruct (place_fields_packed _ _ _ _ Ef) as [Hq _]; [lia|done|]. by exists sys, fs, off.
Qed.

(** ** Properties *)



(** The length that CREATE TABLE gives for an INT column is believed.  [a INT(1)] occupies one
    byte of the record, [make_record] writes one byte of the value and reports success, and
    reading the column takes four bytes, three of them those of the next column: after
    [INSERT INTO t VALUES (1, 'abc')] the column [a] is 1667391745. *)
Theorem short_int_column `{CLib} : exists m record,
  meta_init "t" [] [mkAttr "a" INTS 1; mkAttr "s" CHARS 7] = mret m /\
  make_record m [VInt 1; VChars [97; 98; 99]] = mret record /\
  row_cell (mkField "a" INTS 0 1) record = VInt 1667391745 /\ head m.(fields) = Some (mkField "a" INTS 0 1).
Proof. do 2 eexists. split_and!; reflexivity. Qed.
