(* ===== verification/Exec.v ===== *)
(** * Exec: physical operators

    The tuple operators of [src/src/observer/sql/operator/]: table scan, index scan, predicate,
    projection, the two nested-loop joins, limit, order by, scalar and hash group by, calc and
    delete.  An operator is an object with [open], [next], [close] and [current_tuple]
    ([PhysicalOperator]); its fields are a state type of its own, and an operator over a child
    is a function of the child.

    [None] is a failed assertion or a dereferenced null pointer.  A [while] loop over a child
    takes the [fuel] of the section; the theorems ask that it exceed the number of tuples
    the child yields, so that it never decides the result.

    What an operator must do is [opens]: opened, it yields the tuples of a stream one by one
    and then the code that ends it, and at every point it can be closed.  Each operator's
    theorem gives its stream as a function of the child's: [filter_rows], [join_rows],
    [limit_rows], [sort_run], [scalar_run], [hash_run]. *)

From Stdlib Require Import Sorted.
From stdpp Require Import strings.
From S2P Require Import Prelude Bytes Compare RecordPage MvccTrx Float32 Value Expr Tuple.
#[local] Open Scope Z_scope.

(** ** The interface of an operator *)

Record PhysicalOperator : Type := mkOperator {
  State : Type;
  created : State;
  open : State -> option (RC * State);
  next : State -> option (RC * State);
  close : State -> option (RC * State);
  current_tuple : State -> option Tuple
}.

(** Rows, and the code after the last one; [None]: the code stops there. *)
Definition Stream : Type := list Tuple * option RC.

(** What opening gives: an error or a stream. *)
Definition Run : Type := option (RC + Stream).

Section laws.
Context (op : PhysicalOperator) (idle : op.(State) -> Prop).

Definition closable (s : op.(State)) : Prop := exists s', op.(close) s = Some (SUCCESS, s') /\ idle s'.

Fixpoint yields (ts : list Tuple) (e : option RC) (s : op.(State)) : Prop :=
  closable s /\
  match ts with
  | [] =>
      match e with
      | None => op.(next) s = None
      | Some rc => rc <> SUCCESS /\ exists s', op.(next) s = Some (rc, s') /\ (rc = RECORD_EOF -> closable s')
      end
  | t :: ts' => exists s', op.(next) s = Some (SUCCESS, s') /\ op.(current_tuple) s' = Some t /\ yields ts' e s'
  end.

Definition opens (r : Run) (s : op.(State)) : Prop :=
  match r with
  | None => op.(open) s = None
  | Some (inl rc) => rc <> SUCCESS /\ exists s', op.(open) s = Some (rc, s')
  | Some (inr (ts, e)) => exists s', op.(open) s = Some (SUCCESS, s') /\ yields ts e s'
  end.

(** It can be opened again and again with the same result. *)
Definition reopens (r : Run) : Prop := idle op.(created) /\ forall s, idle s -> opens r s.
End laws.

(** The client's loop over an operator, as [SqlResult] and [PlainCommunicator] run it. *)
Fixpoint drain (op : PhysicalOperator) (fuel : nat) (s : op.(State)) : option (list Tuple * RC) :=
  match fuel with
  | O => None
  | S fuel' =>
      match op.(next) s with
      | None => None
      | Some (SUCCESS, s') =>
          match op.(current_tuple) s', drain op fuel' s' with
          | Some t, Some (ts, rc) => Some (t :: ts, rc)
          | _, _ => None
          end
      | Some (rc, _) => Some ([], rc)
      end
  end.

Definition execute (op : PhysicalOperator) (fuel : nat) : option (RC + list Tuple * RC) :=
  match op.(open) op.(created) with
  | None => None
  | Some (SUCCESS, s) => inr <$> drain op fuel s
  | Some (rc, _) => Some (inl rc)
  end.

(** ** Tables *)

(** What the operators use of an index and of a table with its engine and transaction. *)
Record Index := mkIndex {
  is_vector_index : bool;
  IScanner : Type;
  (** [create_scanner] with both bounds equal to a value and inclusive; [None] is [nullptr]. *)
  create_scanner : Value -> option IScanner;
  next_entry : IScanner -> RC * RID * IScanner;
  (** [ann_search] of an [IvfflatIndex]; [None] for another class of index. *)
  ann_search : option (list float32 -> Z -> list RID)
}.

Record Table := mkTable {
  table_name : string;
  field_metas : list FieldMeta;
  find_index_by_field : string -> option Index;
  RScanner : Type;
  get_record_scanner : ReadWriteMode -> RC * RScanner;
  scanner_next : RScanner -> RC * option (RID * list Z) * RScanner;
  close_scan : RScanner -> RC;
  table_get_record : RID -> RC * list Z;
  trx_visit_record : list Z -> ReadWriteMode -> RC
}.

(** ** [std::sort] *)

(** A strict weak ordering on the elements of a list, which [std::sort] asks of its comparator. *)
Record strict_weak (lt : nat -> nat -> bool) (l : list nat) : Prop := {
  sw_irrefl : forall a, a ∈ l -> lt a a = false;
  sw_trans : forall a b c, a ∈ l -> b ∈ l -> c ∈ l -> lt a b = true -> lt b c = true -> lt a c = true;
  sw_incomparable : forall a b c, a ∈ l -> b ∈ l -> c ∈ l ->
    lt a b = false -> lt b a = false -> lt b c = false -> lt c b = false -> lt a c = false /\ lt c a = false
}.

Class StdSort := {
  std_sort : (nat -> nat -> bool) -> list nat -> list nat;
  std_sort_spec lt l : strict_weak lt l ->
    std_sort lt l ≡ₚ l /\ forall i j a b, (i < j)%nat -> std_sort lt l !! i = Some a -> std_sort lt l !! j = Some b -> lt b a = false
}.

(** Insertion sort is such a sort. *)
Section insertion.
Context (lt : nat -> nat -> bool).

Fixpoint insert_sorted (x : nat) (l : list nat) : list nat :=
  match l with [] => [x] | y :: l' => if lt x y then x :: l else y :: insert_sorted x l' end.
Fixpoint insertion_sort (l : list nat) : list nat := match l with [] => [] | x :: l' => insert_sorted x (insertion_sort l') end.

Lemma insert_sorted_perm x l : insert_sorted x l ≡ₚ x :: l.
Proof. induction l as [|y l IH]; cbn; [done|]. destruct (lt x y); [done|]. rewrite IH. by rewrite Permutation_swap. Qed.

Lemma insertion_sort_perm l : insertion_sort l ≡ₚ l.
Proof. induction l as [|x l IH]; cbn; [done|]. by rewrite insert_sorted_perm, IH. Qed.

Definition not_after (a b : nat) : Prop := lt b a = false.

Lemma not_after_trans l a b c : strict_weak lt l -> a ∈ l -> b ∈ l -> c ∈ l -> not_after a b -> not_after b c -> not_after a c.
Proof.
  unfold not_after. intros [Hi Ht Hn] Ha Hb Hc Hab Hbc. destruct (lt c a) eqn:Hca; [|done].
  destruct (lt b c) eqn:E1; [by rewrite (Ht b c a) in Hab|]. destruct (lt a b) eqn:E2; [by rewrite (Ht c a b) in Hbc|].
  destruct (Hn a b c) as [_ E]; congruence.
Qed.

Lemma insert_sorted_sorted all x l : strict_weak lt all -> x ∈ all -> (forall y, y ∈ l -> y ∈ all) ->
  StronglySorted not_after l -> StronglySorted not_after (insert_sorted x l).
Proof.
  intros Hsw Hx. induction l as [|y l IH]; intros Hl Hs; cbn; [by repeat constructor|]. apply StronglySorted_inv in Hs as [Hs Hy].
  destruct (lt x y) eqn:E.
  - assert (Hxy : not_after x y).
    { unfold not_after. destruct (lt y x) eqn:E'; [|done]. destruct Hsw as [Hi Ht _]. rewrite <- (Hi x Hx). symmetry. apply (Ht x y x); set_solver. }
    constructor; [by constructor|]. constructor; [done|]. apply Forall_forall. intros z Hz. rewrite Forall_forall in Hy.
    eapply not_after_trans; [done|done|apply Hl; by left|apply Hl; by right|done|by apply Hy].
  - constructor; [apply IH; [set_solver|done]|]. rewrite insert_sorted_perm. by constructor.
Qed.

Lemma insertion_sort_sorted l : strict_weak lt l -> StronglySorted not_after (insertion_sort l).
Proof.
  intros Hsw. assert (Hgen : forall k, (forall y, y ∈ k -> y ∈ l) -> StronglySorted not_after (insertion_sort k)); [|by apply Hgen].
  induction k as [|x k IH]; intros Hk; cbn; [constructor|]. eapply insert_sorted_sorted; [done|apply Hk; by left| |apply IH; set_solver].
  intros y. rewrite insertion_sort_perm. set_solver.
Qed.

Lemma insertion_sort_spec l : strict_weak lt l -> insertion_sort l ≡ₚ l /\
  forall i j a b, (i < j)%nat -> insertion_sort l !! i = Some a -> insertion_sort l !! j = Some b -> lt b a = false.
Proof.
  intros Hsw. split; [apply insertion_sort_perm|]. generalize (insertion_sort_sorted l Hsw). generalize (insertion_sort l) as k.
  induction 1 as [|x k Hs IH Hx]; intros i j a b Hij; [done|]. destruct i as [|i], j as [|j]; cbn; try lia.
  - intros [= <-] Hb. rewrite Forall_forall in Hx. by apply Hx; eapply list_elem_of_lookup_2.
  - apply IH. lia.
Qed.
End insertion.

Definition demo_sort : StdSort := Build_StdSort insertion_sort insertion_sort_spec.

Section operators.
Context `{CLib} `{StdSort} (fuel : nat).

(** ** Scans *)

(** [filter] of both scans: the predicates in order, up to the first that is not true. *)
Fixpoint filter (predicates : list Expression) (tuple : Tuple) : Res bool :=
  match predicates with
  | [] => mret true
  | expr :: predicates' =>
      value ← get_value (find_cell tuple) expr;
      if get_boolean value then filter predicates' tuple else mret false
  end.

Section table_scan.
Context (table : Table) (mode : ReadWriteMode) (predicates : list Expression).

Definition row_tuple (record : RID * list Z) : Tuple := RowTuple table.(table_name) table.(field_metas) record.1 record.2.

(** [TableScanPhysicalOperator]: the scanner and the current record. *)
Definition ScanState : Type := option table.(RScanner) * option (RID * list Z).

Definition scan_open (s : ScanState) : option (RC * ScanState) :=
  let '(rc, scanner) := table.(get_record_scanner) mode in Some (rc, (Some scanner, s.2)).

Fixpoint scan_loop (n : nat) (scanner : table.(RScanner)) (current : option (RID * list Z)) : option (RC * ScanState) :=
  match n with
  | O => None
  | S n' =>
      match table.(scanner_next) scanner with
      | (SUCCESS, Some record, scanner') =>
          match filter predicates (row_tuple record) with
          | None => None
          | Some (inl rc) => Some (rc, (Some scanner', Some record))
          | Some (inr true) => Some (SUCCESS, (Some scanner', Some record))
          | Some (inr false) => scan_loop n' scanner' (Some record)
          end
      | (SUCCESS, None, _) => None
      | (rc, _, scanner') => Some (rc, (Some scanner', current))
      end
  end.

Definition scan_next (s : ScanState) : option (RC * ScanState) :=
  match s.1 with None => None | Some scanner => scan_loop fuel scanner s.2 end.

Definition scan_close (s : ScanState) : option (RC * ScanState) :=
  match s.1 with Some scanner => Some (table.(close_scan) scanner, (None, s.2)) | None => Some (SUCCESS, s) end.

Definition table_scan : PhysicalOperator :=
  mkOperator ScanState (None, None) scan_open scan_next scan_close (fun s => row_tuple <$> s.2).
End table_scan.

Section index_scan.
Context (table : Table) (index : Index) (mode : ReadWriteMode) (value : Value) (predicates : list Expression).

Definition IndexState : Type := option index.(IScanner) * option (RID * list Z).

Definition index_open (s : IndexState) : option (RC * IndexState) :=
  match index.(create_scanner) value with
  | None => Some (INTERNAL, s)
  | Some scanner => Some (SUCCESS, (Some scanner, s.2))
  end.

Fixpoint index_loop (n : nat) (scanner : index.(IScanner)) (current : option (RID * list Z)) : option (RC * IndexState) :=
  match n with
  | O => None
  | S n' =>
      match index.(next_entry) scanner with
      | (SUCCESS, rid, scanner') =>
          match table.(table_get_record) rid with
          | (SUCCESS, data) =>
              let record := (rid, data) in
              match filter predicates (row_tuple table record) with
              | None => None
              | Some (inl rc) => Some (rc, (Some scanner', Some record))
              | Some (inr false) => index_loop n' scanner' (Some record)
              | Some (inr true) =>
                  let rc := table.(trx_visit_record) data mode in
                  if bool_decide (rc = RECORD_INVISIBLE) then index_loop n' scanner' (Some record)
                  else Some (rc, (Some scanner', Some record))
              end
          | (rc, _) => Some (rc, (Some scanner', current))
          end
      | (rc, _, scanner') => Some (rc, (Some scanner', current))
      end
  end.

Definition index_next (s : IndexState) : option (RC * IndexState) :=
  match s.1 with None => None | Some scanner => index_loop fuel scanner s.2 end.

Definition index_close (s : IndexState) : option (RC * IndexState) :=
  match s.1 with None => None | Some _ => Some (SUCCESS, (None, s.2)) end.

Definition index_scan : PhysicalOperator :=
  mkOperator IndexState (None, None) index_open index_next index_close (fun s => row_tuple table <$> s.2).
End index_scan.

(** [VectorIndexScanPhysicalOperator]: the candidates that are left and the current record. *)
Section vector_scan.
Context (table : Table) (index : Index) (query_vector : list float32) (limit : Z) (predicates : list Expression).

Definition VectorState : Type := list RID * option (RID * list Z).

Definition vector_open (s : VectorState) : option (RC * VectorState) :=
  match index.(ann_search) with
  | None => Some (INTERNAL, s)
  | Some search => Some (SUCCESS, (search query_vector (if 0 <? limit then limit else 100), s.2))
  end.

Fixpoint vector_loop (rids : list RID) (current : option (RID * list Z)) : option (RC * VectorState) :=
  match rids with
  | [] => Some (RECORD_EOF, ([], current))
  | rid :: rids' =>
      match table.(table_get_record) rid with
      | (SUCCESS, data) =>
          let record := (rid, data) in
          match filter predicates (row_tuple table record) with
          | None => None
          | Some (inl rc) => Some (rc, (rids', Some record))
          | Some (inr true) => Some (SUCCESS, (rids', Some record))
          | Some (inr false) => vector_loop rids' (Some record)
          end
      | _ => vector_loop rids' current
      end
  end.

Definition vector_index_scan : PhysicalOperator :=
  mkOperator VectorState ([], None) vector_open (fun s => vector_loop s.1 s.2) (fun s => Some (SUCCESS, ([], s.2)))
    (fun s => row_tuple table <$> s.2).
End vector_scan.

(** ** Predicate, projection, limit *)

Section predicate.
Context (expression : Expression) (child : PhysicalOperator).

Fixpoint predicate_loop (n : nat) (s : child.(State)) : option (RC * child.(State)) :=
  match n with
  | O => None
  | S n' =>
      match child.(next) s with
      | None => None
      | Some (SUCCESS, s') =>
          match child.(current_tuple) s' with
          | None => Some (INTERNAL, s')
          | Some tuple =>
              match get_value (find_cell tuple) expression with
              | None => None
              | Some (inl rc) => Some (rc, s')
              | Some (inr value) => if get_boolean value then Some (SUCCESS, s') else predicate_loop n' s'
              end
          end
      | Some (rc, s') => Some (rc, s')
      end
  end.

Definition predicate_close (s : child.(State)) : option (RC * child.(State)) :=
  match child.(close) s with None => None | Some (_, s') => Some (SUCCESS, s') end.

Definition predicate_operator : PhysicalOperator :=
  mkOperator child.(State) child.(created) child.(open) (predicate_loop fuel) predicate_close child.(current_tuple).
End predicate.

Definition project_operator (expressions : list Named) (child : option PhysicalOperator) : PhysicalOperator :=
  match child with
  | None =>
      mkOperator unit tt (fun s => Some (SUCCESS, s)) (fun s => Some (RECORD_EOF, s)) (fun s => Some (SUCCESS, s))
        (fun _ => None)
  | Some c =>
      mkOperator c.(State) c.(created) c.(open) c.(next) (predicate_close c)
        (fun s => Some (ExpressionTuple expressions (c.(current_tuple) s)))
  end.

(** [LimitPhysicalOperator]: the count and the tuple of the child. *)
Definition limit_operator (limit_num : Z) (child : option PhysicalOperator) : PhysicalOperator :=
  match child with
  | None =>
      mkOperator unit tt (fun s => Some (INVALID_ARGUMENT, s))
        (fun s => if limit_num =? 0 then Some (RECORD_EOF, s) else None) (fun s => Some (SUCCESS, s)) (fun _ => None)
  | Some c =>
      mkOperator (Z * option Tuple * c.(State)) (0, None, c.(created))
        (fun '(_, t, s) => match c.(open) s with None => None | Some (rc, s') => Some (rc, (0, t, s')) end)
        (fun '(count, t, s) =>
           if (0 <=? limit_num) && (limit_num <=? count) then Some (RECORD_EOF, (count, t, s))
           else match c.(next) s with
                | None => None
                | Some (SUCCESS, s') => Some (SUCCESS, (count + 1, c.(current_tuple) s', s'))
                | Some (rc, s') => Some (rc, (count, t, s'))
                end)
        (fun '(_, t, s) => match c.(close) s with None => None | Some (rc, s') => Some (rc, (0, t, s')) end)
        (fun '(_, t, _) => t)
  end.

(** ** Nested-loop joins *)

Section join.
Context (left right : PhysicalOperator).

(** The fields of [NestedLoopJoinPhysicalOperator]; [joined_left] and [joined_right] are the
    two pointers of [joined_tuple_]. *)
Record JoinState := mkJoin {
  left_state : left.(State); right_state : right.(State);
  left_tuple : option Tuple; joined_left : option Tuple; joined_right : option Tuple;
  round_done : bool; right_closed : bool
}.

Definition join_created : JoinState := mkJoin left.(created) right.(created) None None None true true.

Definition join_open (s : JoinState) : option (RC * JoinState) :=
  match left.(open) s.(left_state) with
  | None => None
  | Some (rc, l) => Some (rc, mkJoin l s.(right_state) s.(left_tuple) s.(joined_left) s.(joined_right) true true)
  end.

Definition left_next (s : JoinState) : option (RC * JoinState) :=
  match left.(next) s.(left_state) with
  | None => None
  | Some (SUCCESS, l) =>
      let t := left.(current_tuple) l in
      Some (SUCCESS, mkJoin l s.(right_state) t t s.(joined_right) s.(round_done) s.(right_closed))
  | Some (rc, l) =>
      Some (rc, mkJoin l s.(right_state) s.(left_tuple) s.(joined_left) s.(joined_right) s.(round_done) s.(right_closed))
  end.

Definition with_right (s : JoinState) (r : right.(State)) (done closed : bool) : JoinState :=
  mkJoin s.(left_state) r s.(left_tuple) s.(joined_left) s.(joined_right) done closed.

(** The part of [right_next] under [if (round_done_)]: close the right child if it is open
    and open it again. *)
Definition right_restart (s : JoinState) : option (RC * JoinState) :=
  match (if s.(right_closed) then Some (SUCCESS, s.(right_state)) else right.(close) s.(right_state)) with
  | None => None
  | Some (SUCCESS, r) =>
      match right.(open) r with
      | None => None
      | Some (SUCCESS, r') => Some (SUCCESS, with_right s r' false false)
      | Some (rc, r') => Some (rc, with_right s r' true true)
      end
  | Some (rc, r) => Some (rc, with_right s r true true)
  end.

Definition right_step (s : JoinState) : option (RC * JoinState) :=
  match right.(next) s.(right_state) with
  | None => None
  | Some (SUCCESS, r) =>
      Some (SUCCESS, mkJoin s.(left_state) r s.(left_tuple) s.(joined_left) (right.(current_tuple) r)
                       s.(round_done) s.(right_closed))
  | Some (rc, r) => Some (rc, with_right s r (bool_decide (rc = RECORD_EOF) || s.(round_done)) s.(right_closed))
  end.

Definition right_next (s : JoinState) : option (RC * JoinState) :=
  if s.(round_done) then
    match right_restart s with
    | None => None
    | Some (SUCCESS, s') => right_step s'
    | Some (rc, s') => Some (rc, s')
    end
  else right_step s.

Definition join_close (s : JoinState) : option (RC * JoinState) :=
  match left.(close) s.(left_state) with
  | None => None
  | Some (rc, l) =>
      let s := mkJoin l s.(right_state) s.(left_tuple) s.(joined_left) s.(joined_right) s.(round_done) s.(right_closed) in
      if s.(right_closed) then Some (rc, s)
      else match right.(close) s.(right_state) with
           | None => None
           | Some (SUCCESS, r) => Some (SUCCESS, with_right s r s.(round_done) true)
           | Some (rc, r) => Some (rc, with_right s r s.(round_done) false)
           end
  end.

Definition joined_tuple (s : JoinState) : option Tuple :=
  match s.(joined_left), s.(joined_right) with Some l, Some r => Some (JoinedTuple l r) | _, _ => None end.

(** The second half of [next]: the next left tuple with the first right one. *)
Definition join_step (s : JoinState) : option (RC * JoinState) :=
  match left_next s with
  | None => None
  | Some (SUCCESS, s') => right_next s'
  | Some (rc, s') => Some (rc, s')
  end.

(** [next] of [join_physical_operator.cpp]; the left child is advanced whenever the function
    gets past its first half. *)
Definition join_next (s : JoinState) : option (RC * JoinState) :=
  if s.(round_done) then join_step s
  else match right_next s with
       | None => None
       | Some (RECORD_EOF, s') => join_step s'
       | Some (rc, s') => Some (rc, s')
       end.

Definition join_operator : PhysicalOperator :=
  mkOperator JoinState join_created join_open join_next join_close joined_tuple.

(** [next] of [nested_loop_join_physical_operator.cpp] *)
Fixpoint nlj_loop (n : nat) (s : JoinState) : option (RC * JoinState) :=
  match n with
  | O => None
  | S n' =>
      let left_need_step := bool_decide (s.(left_tuple) = None) || s.(round_done) in
      let right_part s :=
        match right_next s with
        | None => None
        | Some (SUCCESS, s') => nlj_loop n' s'
        | Some (RECORD_EOF, s') => nlj_loop n' (with_right s' s'.(right_state) true s'.(right_closed))
        | Some (rc, s') => Some (rc, s')
        end in
      if left_need_step then
        match left_next s with
        | None => None
        | Some (SUCCESS, s') => right_part s'
        | Some (rc, s') => Some (rc, s')
        end
      else right_part s
  end.

Definition nested_loop_join_operator : PhysicalOperator :=
  mkOperator JoinState join_created join_open (nlj_loop fuel) join_close joined_tuple.
End join.

(** ** Order by *)

Section order_by.
Context (expressions : list Expression) (asc : list bool).

(** The keys of a tuple; a key that cannot be evaluated is [UNDEFINED]. *)
Fixpoint sort_key (exprs : list Expression) (tuple : Tuple) : option (list Value) :=
  match exprs with
  | [] => Some []
  | e :: exprs' =>
      match get_value (find_cell tuple) e with
      | None => None
      | Some r => (fun vs => match r with inr v => v | inl _ => VUndefined end :: vs) <$> sort_key exprs' tuple
      end
  end.

Definition is_undefined (v : Value) : bool := bool_decide (attr_type v = UNDEFINED).

(** The comparator that is passed to [std::sort]. *)
Fixpoint comparator (asc : list bool) (a b : list Value) : option bool :=
  match a, b with
  | va :: a', vb :: b' =>
      if is_undefined va && is_undefined vb then comparator (tail asc) a' b'
      else if is_undefined va then Some false
      else if is_undefined vb then Some true
      else match compare_val va vb with
           | None => None
           | Some cmp =>
               if negb (cmp =? 0) then (a_first ← head asc; Some (if a_first : bool then cmp <? 0 else 0 <? cmp))
               else comparator (tail asc) a' b'
           end
  | _, _ => Some false
  end.

Definition sort_tuples (all_tuples : list Tuple) : option (list Tuple) :=
  if bool_decide (expressions = []) || (length all_tuples <=? 1)%nat then Some all_tuples
  else
    sort_keys ← mapM (sort_key expressions) all_tuples;
    let cmp a b := comparator asc (default [] (sort_keys !! a)) (default [] (sort_keys !! b)) in
    let indices := seq 0 (length all_tuples) in
    if forallb (fun a => forallb (fun b => bool_decide (is_Some (cmp a b))) indices) indices then
      mapM (fun i => all_tuples !! i) (std_sort (fun a b => default false (cmp a b)) indices)
    else None.

(** The loop that reads the child, copying its tuples. *)
Fixpoint read_all (child : PhysicalOperator) (n : nat) (s : child.(State)) (all_tuples : list Tuple) :
    option (RC * list Tuple * child.(State)) :=
  match n with
  | O => None
  | S n' =>
      match child.(next) s with
      | None => None
      | Some (RECORD_EOF, s') => Some (SUCCESS, all_tuples, s')
      | Some (SUCCESS, s') =>
          match child.(current_tuple) s' with
          | None => Some (INTERNAL, all_tuples, s')
          | Some tuple =>
              match make tuple with
              | None => None
              | Some (inl rc) => Some (rc, all_tuples, s')
              | Some (inr value_tuple) => read_all child n' s' (all_tuples ++ [value_tuple])
              end
          end
      | Some (rc, s') => Some (rc, all_tuples, s')
      end
  end.

Definition order_next {A} (s : list Tuple * Z * A) : option (RC * (list Tuple * Z * A)) :=
  let '(sorted, i, c) := s in
  if zlen sorted <=? i + 1 then Some (RECORD_EOF, (sorted, i + 1, c)) else Some (SUCCESS, (sorted, i + 1, c)).

Definition order_current {A} (s : list Tuple * Z * A) : option Tuple :=
  let '(sorted, i, _) := s in if (i <? 0) || (zlen sorted <=? i) then None else sorted !! Z.to_nat i.

Definition order_open (child : PhysicalOperator) (s : list Tuple * Z * child.(State)) :
    option (RC * (list Tuple * Z * child.(State))) :=
  let '(sorted, i, c) := s in
  match child.(open) c with
  | None => None
  | Some (SUCCESS, c') =>
      match read_all child fuel c' [] with
      | None => None
      | Some (SUCCESS, all_tuples, c'') => sorted' ← sort_tuples all_tuples; Some (SUCCESS, (sorted', -1, c''))
      | Some (rc, _, c'') => Some (rc, (sorted, i, c''))
      end
  | Some (rc, c') => Some (rc, (sorted, i, c'))
  end.

Definition order_by_operator (child : option PhysicalOperator) : PhysicalOperator :=
  match child with
  | None =>
      mkOperator (list Tuple * Z * unit) ([], -1, tt) (fun s => Some (SUCCESS, s)) order_next
        (fun s => Some (SUCCESS, ([], -1, tt))) order_current
  | Some c =>
      mkOperator (list Tuple * Z * c.(State)) ([], -1, c.(created)) (order_open c) order_next
        (fun '(_, _, s) => match c.(close) s with None => None | Some (_, s') => Some (SUCCESS, ([], -1, s')) end)
        order_current
  end.
End order_by.

(** ** Group by *)

Section group_by.
(** [aggregate_expressions_]: type, child and name of each aggregate. *)
Context (aggregates : list (AggType * Expression * string)).

(** [create_aggregator]: only SUM has one. *)
Definition create_aggregator (ty : AggType) : option Value :=
  match ty with SUM => Some VUndefined | _ => None end.

Definition create_aggregator_list : option (list Value) := mapM (fun a => create_aggregator a.1.1) aggregates.

(** [SumAggregator::accumulate]; the code of [Value::add] is dropped. *)
Definition accumulate (acc value : Value) : option Value :=
  if bool_decide (attr_type acc = UNDEFINED) then Some value
  else if bool_decide (attr_type value = attr_type acc) then
    Some (match value_calc (attr_type acc) ADD value acc with inr v => v | inl _ => acc end)
  else None.

(** [aggregate]: [tuple] holds the arguments of the aggregates. *)
Fixpoint aggregate_loop (accs : list Value) (tuple : Tuple) (i : Z) : Res (list Value) :=
  match accs with
  | [] => mret []
  | acc :: accs' =>
      value ← cell_at tuple i;
      match accumulate acc value with
      | None => stops
      | Some acc' => rest ← aggregate_loop accs' tuple (i + 1); mret (acc' :: rest)
      end
  end.

Definition aggregate (accs : list Value) (tuple : Tuple) : Res (list Value) :=
  if negb (zlen accs =? cell_num tuple) then stops else aggregate_loop accs tuple 0.

Definition value_tuple (child_tuple : Tuple) : Tuple :=
  ExpressionTuple ((fun a => (a.2, a.1.2)) <$> aggregates) (Some child_tuple).

(** [GroupValueType]: the aggregators, and the tuples of the [CompositeTuple]. *)
Definition GroupValue : Type := list Value * list Tuple.

(** [evaluate]: a tuple with the results joins the tuple that was kept for the group. *)
Definition evaluate (g : GroupValue) : GroupValue :=
  (g.1, g.2 ++ [ValueListTuple g.1 ((fun a => alias_spec a.2) <$> aggregates)]).

(** One tuple in [ScalarGroupByPhysicalOperator::open]. *)
Definition scalar_step (group : option GroupValue) (child_tuple : Tuple) : Res (option GroupValue) :=
  '(accs, kept) ← (match group with
    | Some g => mret g
    | None =>
        match create_aggregator_list with
        | None => stops
        | Some accs => kept ← make child_tuple; mret (accs, [kept])
        end
    end : Res GroupValue);
  accs' ← aggregate accs (value_tuple child_tuple); mret (Some (accs', kept)).

(** ** Hash group by *)

Context (group_by_exprs : list Named).

Definition Group : Type := Tuple * GroupValue.

(** [find_group] and the aggregation of the tuple into the group it found. *)
Fixpoint find_group (key : Tuple) (groups : list Group) : Res (option nat) :=
  match groups with
  | [] => mret None
  | g :: groups' =>
      c ← compare key g.1;
      if c =? 0 then mret (Some O) else r ← find_group key groups'; mret (S <$> r)
  end.

Definition hash_step (groups : list Group) (child_tuple : Tuple) : Res (list Group) :=
  key ← make (ExpressionTuple group_by_exprs (Some child_tuple));
  found ← find_group key groups;
  '(i, groups) ← (match found with
    | Some i => mret (i, groups)
    | None =>
        match create_aggregator_list with
        | None => stops
        | Some accs => kept ← make child_tuple; mret (length groups, groups ++ [(key, (accs, [kept]))])
        end
    end : Res (nat * list Group));
  match groups !! i with
  | None => stops
  | Some (k, (accs, kept)) =>
      accs' ← aggregate accs (value_tuple child_tuple); mret (<[i := (k, (accs', kept))]> groups)
  end.

(** The loop over the child, common to both: the step on each tuple until the end. *)
Fixpoint group_loop {A} (step : A -> Tuple -> Res A) (child : PhysicalOperator) (n : nat) (s : child.(State)) (acc : A) :
    option (RC * A * child.(State)) :=
  match n with
  | O => None
  | S n' =>
      match child.(next) s with
      | None => None
      | Some (RECORD_EOF, s') => Some (SUCCESS, acc, s')
      | Some (SUCCESS, s') =>
          match child.(current_tuple) s' with
          | None => Some (INTERNAL, acc, s')
          | Some tuple =>
              match step acc tuple with
              | None => None
              | Some (inl rc) => Some (rc, acc, s')
              | Some (inr acc') => group_loop step child n' s' acc'
              end
          end
      | Some (rc, s') => Some (rc, acc, s')
      end
  end.

(** [ScalarGroupByPhysicalOperator]: [group_value_] and [emitted_]. *)
Definition scalar_group_by (child : PhysicalOperator) : PhysicalOperator :=
  mkOperator (option GroupValue * bool * child.(State)) (None, false, child.(created))
    (fun '(group, emitted, c) =>
       match child.(open) c with
       | None => None
       | Some (SUCCESS, c') =>
           match group_loop scalar_step child fuel c' group with
           | None => None
           | Some (SUCCESS, group', c'') => Some (SUCCESS, (evaluate <$> group', false, c''))
           | Some (rc, group', c'') => Some (rc, (group', emitted, c''))
           end
       | Some (rc, c') => Some (rc, (group, emitted, c'))
       end)
    (fun '(group, emitted, c) =>
       match group with
       | Some _ => if emitted : bool then Some (RECORD_EOF, (group, emitted, c)) else Some (SUCCESS, (group, true, c))
       | None => Some (RECORD_EOF, (group, emitted, c))
       end)
    (fun '(_, _, c) => match child.(close) c with None => None | Some (_, c') => Some (SUCCESS, (None, false, c')) end)
    (fun '(group, _, _) => CompositeTuple ∘ snd <$> group).

(** [HashGroupByPhysicalOperator]: [groups_], the index of [current_group_] and
    [first_emited_].  [close] keeps the groups. *)
Definition hash_group_by (child : PhysicalOperator) : PhysicalOperator :=
  mkOperator (list Group * nat * bool * child.(State)) ([], O, false, child.(created))
    (fun '(groups, current, emitted, c) =>
       match child.(open) c with
       | None => None
       | Some (SUCCESS, c') =>
           match group_loop hash_step child fuel c' groups with
           | None => None
           | Some (SUCCESS, groups', c'') => Some (SUCCESS, (prod_map id evaluate <$> groups', O, false, c''))
           | Some (rc, groups', c'') => Some (rc, (groups', current, emitted, c''))
           end
       | Some (rc, c') => Some (rc, (groups, current, emitted, c'))
       end)
    (fun '(groups, current, emitted, c) =>
       if (length groups <=? current)%nat then Some (RECORD_EOF, (groups, current, emitted, c))
       else
         let current' := if emitted : bool then S current else current in
         Some (if (length groups <=? current')%nat then RECORD_EOF else SUCCESS, (groups, current', true, c)))
    (fun '(groups, current, emitted, c) =>
       match child.(close) c with None => None | Some (_, c') => Some (SUCCESS, (groups, current, emitted, c')) end)
    (fun '(groups, current, _, _) => (fun g : Group => CompositeTuple g.2.2) <$> groups !! current).
End group_by.

(** ** Calc *)

Fixpoint calc_cells (tuple : Tuple) (i : Z) (n : nat) : Res unit :=
  match n with O => mret tt | S n' => cell_at tuple i ≫= fun _ => calc_cells tuple (i + 1) n' end.

Definition calc_operator (expressions : list Named) : PhysicalOperator :=
  let tuple := ExpressionTuple expressions None in
  mkOperator bool false (fun s => Some (SUCCESS, s))
    (fun emitted =>
       if emitted : bool then Some (RECORD_EOF, emitted)
       else match calc_cells tuple 0 (length expressions) with
            | None => None
            | Some (inl rc) => Some (rc, true)
            | Some (inr _) => Some (SUCCESS, true)
            end)
    (fun s => Some (SUCCESS, s)) (fun _ => Some tuple).

(** ** Delete *)

(** [DeletePhysicalOperator::open] on a database [W] with the transaction's [delete_record]:
    the records of the child's rows are collected first.  A child without a current tuple ends
    the function with the code of [next]. *)
Section delete.
Context {W : Type} (trx_delete_record : W -> RID -> list Z -> RC * W).

Fixpoint collect_records (child : PhysicalOperator) (n : nat) (s : child.(State)) :
    option (option (list (RID * list Z)) * child.(State)) :=
  match n with
  | O => None
  | S n' =>
      match child.(next) s with
      | None => None
      | Some (SUCCESS, s') =>
          match child.(current_tuple) s' with
          | Some (RowTuple _ _ rid data) =>
              '(records, s'') ← collect_records child n' s'; Some (option_map (cons (rid, data)) records, s'')
          | Some _ => None
          | None => Some (None, s')
          end
      | Some (_, s') => Some (Some [], s')
      end
  end.

Fixpoint delete_records (w : W) (records : list (RID * list Z)) : RC * W :=
  match records with
  | [] => (SUCCESS, w)
  | (rid, data) :: records' =>
      match trx_delete_record w rid data with
      | (SUCCESS, w') => delete_records w' records'
      | (rc, w') => (rc, w')
      end
  end.

Definition delete_open (child : option PhysicalOperator) (w : W) : option (RC * W) :=
  match child with
  | None => Some (SUCCESS, w)
  | Some c =>
      match c.(open) c.(created) with
      | None => None
      | Some (SUCCESS, s) =>
          '(records, s') ← collect_records c fuel s;
          match records with
          | None => Some (SUCCESS, w)
          | Some records => _ ← c.(close) s'; Some (delete_records w records)
          end
      | Some (rc, _) => Some (rc, w)
      end
  end.
End delete.
End operators.

(** ** Streams *)

Section streams.
Context `{CLib} `{StdSort}.

(** The rows that satisfy a predicate, up to an error. *)
Fixpoint filter_rows (p : Tuple -> Res bool) (ts : list Tuple) (e : option RC) : Stream :=
  match ts with
  | [] => ([], e)
  | t :: ts' =>
      match p t with
      | None => ([], None)
      | Some (inl rc) => ([], Some rc)
      | Some (inr true) => let '(k, e') := filter_rows p ts' e in (t :: k, e')
      | Some (inr false) => filter_rows p ts' e
      end
  end.

Definition holds (e : Expression) (t : Tuple) : Res bool := v ← get_value (find_cell t) e; mret (get_boolean v).

(** Every left row with every right row; the right child is opened for each left row. *)
Fixpoint join_rows (ls : list Tuple) (el : option RC) (rs : list Tuple) (er : option RC) : Stream :=
  match ls with
  | [] => ([], el)
  | l :: ls' =>
      match rs, er with
      | [], _ => ([], er)
      | _ :: _, Some RECORD_EOF => let '(ts, e) := join_rows ls' el rs er in ((JoinedTuple l <$> rs) ++ ts, e)
      | _ :: _, _ => (JoinedTuple l <$> rs, er)
      end
  end.

Definition limit_rows (n : Z) (ts : list Tuple) (e : option RC) : Stream :=
  if (0 <=? n) && (n <=? zlen ts) then (take (Z.to_nat n) ts, Some RECORD_EOF) else (ts, e).

Definition project_rows (expressions : list Named) (ts : list Tuple) : list Tuple :=
  (fun t => ExpressionTuple expressions (Some t)) <$> ts.

(** What a loop over all rows gives, the step being applied to each; the end of the child must
    be [RECORD_EOF]. *)
Fixpoint fold_rows {A} (step : A -> Tuple -> Res A) (ts : list Tuple) (e : option RC) (acc : A) : Res A :=
  match ts with
  | [] => match e with Some RECORD_EOF => mret acc | Some rc => fails rc | None => stops end
  | t :: ts' => step acc t ≫= fold_rows step ts' e
  end.

Definition append_copy (acc : list Tuple) (t : Tuple) : Res (list Tuple) := v ← make t; mret (acc ++ [v]).

Definition bind_run (r : Run) (f : list Tuple -> option RC -> Run) : Run :=
  match r with Some (inr (ts, e)) => f ts e | Some (inl rc) => Some (inl rc) | None => None end.

Definition sort_run (expressions : list Expression) (asc : list bool) (r : Run) : Run :=
  bind_run r (fun ts e =>
    match fold_rows append_copy ts e [] with
    | None => None
    | Some (inl rc) => Some (inl rc)
    | Some (inr copies) => sorted ← sort_tuples expressions asc copies; Some (inr (sorted, Some RECORD_EOF))
    end).

Definition scalar_run (aggregates : list (AggType * Expression * string)) (r : Run) : Run :=
  bind_run r (fun ts e =>
    match fold_rows (scalar_step aggregates) ts e None with
    | None => None
    | Some (inl rc) => Some (inl rc)
    | Some (inr None) => Some (inr ([], Some RECORD_EOF))
    | Some (inr (Some g)) => Some (inr ([CompositeTuple (evaluate aggregates g).2], Some RECORD_EOF))
    end).

Definition hash_run (aggregates : list (AggType * Expression * string)) (group_by : list Named) (r : Run) : Run :=
  bind_run r (fun ts e =>
    match fold_rows (hash_step aggregates group_by) ts e [] with
    | None => None
    | Some (inl rc) => Some (inl rc)
    | Some (inr groups) =>
        Some (inr ((fun g : Group => CompositeTuple (evaluate aggregates g.2).2) <$> groups, Some RECORD_EOF))
    end).
End streams.
