(* ===== verification/ExecLaws.v ===== *)
(** * ExecLaws: the operators refine their streams

    For every operator of [Exec]: when the child yields a stream, the operator yields the
    stream that [filter_rows], [join_rows], [limit_rows], [sort_run], [scalar_run] or
    [hash_run] computes from it, errors included; and the driver that drains an operator gets
    exactly those rows. *)

From stdpp Require Import strings.
From S2P Require Import Prelude Bytes Compare RecordPage MvccTrx Float32 Value Expr Tuple Exec.
#[local] Open Scope Z_scope.

(** ** Errors are not success *)

Definition real {A} (m : Res A) : Prop := m <> Some (inl SUCCESS).

Lemma real_bind {A B} (m : Res A) (f : A -> Res B) : real m -> (forall a, real (f a)) -> real (m ≫= f).
Proof. destruct m as [[rc|a]|]; cbn; [|done..]. intros Hm _ [= ->]. by apply Hm. Qed.
Lemma real_ret {A} (x : A) : real (mret x).
Proof. done. Qed.
Lemma real_fails {A} rc : rc <> SUCCESS -> real (fails rc : Res A).
Proof. by intros ? [= ->]. Qed.
#[export] Hint Resolve real_bind real_ret real_fails : real.
#[export] Hint Extern 1 (real (Some (inr _))) => done : real.
#[export] Hint Extern 1 (real None) => done : real.
#[export] Hint Extern 1 (real stops) => done : real.
#[export] Hint Extern 1 (_ <> SUCCESS) => done : real.

Section real.
Context `{CLib}.

Lemma real_string_to_vector s : real (Some (string_to_vector s)).
Proof.
  unfold string_to_vector. case_bool_decide; [done|]. destruct (_ || _); [done|].
  set (l := take _ _). generalize (S (length l)). clearbody l. intros n.
  assert (Hp : forall n l acc rc, parse_elements n l acc = inl rc -> rc = INVALID_ARGUMENT).
  { clear. induction n as [|n IH]; intros l acc rc; cbn; [done|]. case_bool_decide; [done|].
    destruct (until_comma _) as [a b]. case_bool_decide; [apply IH|]. destruct (strtof _) as [f k].
    destruct (negb _); [by intros [= <-]|apply IH]. }
  destruct (parse_elements n l []) as [rc|[|]] eqn:E; [|done..]. by rewrite (Hp _ _ _ _ E).
Qed.

Lemma real_distance_values v1 v2 v3 : real (Some (distance_values v1 v2 v3)).
Proof.
  destruct v1, v2; cbn; try done. destruct (negb _); [done|]. unfold distance_by, cosine_distance, dot_product,
    euclidean_distance. repeat case_match; simplify_eq; done.
Qed.

Lemma real_function eval ty cs : Forall (fun c => real (eval c)) cs -> real (eval_function eval ty cs).
Proof.
  intros Hcs. destruct ty, cs as [|c1 [|c2 [|c3 [|c4 cs]]]]; cbn; try done;
    repeat match goal with H : Forall _ (_ :: _) |- _ => apply Forall_cons in H as [? H] end;
    apply real_bind; try done; intros v; [|by destruct v|apply real_string_to_vector].
  destruct (negb _); [done|]. apply real_bind; [done|]. intros v2.
  destruct v, v2; try done. destruct (negb _); [done|]. apply real_bind; [done|]. intros. apply real_distance_values.
Qed.

Lemma real_compare op l r : real (compare_value op l r).
Proof. unfold compare_value. destruct (compare_val l r); [|done]. by destruct op. Qed.

Lemma real_cast v ty : real (cast v ty).
Proof. unfold cast, cast_to. case_decide; [done|]. destruct (attr_type v); try done. by case_decide. Qed.

Lemma real_calc ty op l r : real (calc_value ty op l r).
Proof. unfold calc_value. by destruct (value_calc _ _ _ _). Qed.

Lemma real_get_value f e : (forall spec, real (f spec)) -> real (get_value f e).
Proof.
  intros Hf. induction e as [t fl ty|v|c ty IH|op l r IHl IHr|ty cs IH|op l r IHl IHr|ty c n IH|ty cs IH]
    using expression_ind; cbn; auto using real_function.
  - done.
  - apply real_bind; [done|]. intros. apply real_cast.
  - repeat (apply real_bind; [done|]; intros). apply real_bind; [apply real_compare|done].
  - case_bool_decide; [done|]. clear H0. induction IH as [|c cs Hc _ IH]; cbn; [done|].
    apply real_bind; [done|]. intros v. by destruct (_ || _).
  - apply real_bind; [done|]. intros. destruct r; [|done]. apply real_bind; [by apply IHr|]. intros. apply real_calc.
Qed.

Lemma real_try_get_value e : real (try_get_value e).
Proof.
  induction e as [t fl ty|v|c ty IH|op l r IHl IHr|ty cs IH|op l r IHl IHr|ty c n IH|ty cs IH]
    using expression_ind; cbn; try done.
  - apply real_bind; [done|]. intros. apply real_cast.
  - destruct l; try done. destruct r; try done. apply real_bind; [apply real_compare|done].
  - apply real_bind; [done|]. intros. apply real_bind; [|intros; apply real_calc]. destruct r; [by apply IHr|done].
  - apply real_bind.
    + induction IH as [|c cs Hc _ IH]; [done|]. apply real_bind; [done|]. intros. by apply real_bind.
    + intros vs. destruct ty, vs as [|v1 [|v2 [|v3 [|v4 vs]]]]; cbn [try_function]; try done;
        [apply real_distance_values|by destruct v1|apply real_string_to_vector].
Qed.

Lemma real_find_field fs r n : real (find_field fs r n).
Proof. induction fs; cbn; [done|]. by case_bool_decide. Qed.

Lemma real_find_spec cs ss spec : real (find_spec cs ss spec).
Proof. revert ss. induction cs as [|c cs IH]; intros [|s ss]; cbn; try done. by case_bool_decide. Qed.

Lemma real_find_named eval es a : (forall e, real (eval e)) -> real (find_named eval es a).
Proof. intros He. induction es as [|[n e] es IH]; cbn; [done|]. by case_bool_decide. Qed.

Lemma real_find_cell t spec : real (find_cell t spec).
Proof.
  revert spec. induction t as [name fs i0 r|cs ss|l r IHl IHr|es|es c IHc|ts IHts] using tuple_ind; intros spec; cbn.
  - destruct (negb _); [done|]. apply real_find_field.
  - destruct (_ =? _)%nat; [|done]. apply real_find_spec.
  - specialize (IHl spec). destruct (find_cell l spec) as [[rc|v]|]; [|done..]. destruct rc; done.
  - apply real_find_named. intros e. apply real_try_get_value.
  - destruct (find_cell c spec) as [[rc|v]|]; [|done..]. apply real_find_named. intros e. by apply real_get_value.
  - assert (forall rc, rc <> SUCCESS -> real ((fix go rc ts := match ts with
       | [] => fails rc
       | t :: ts' => match find_cell t spec with Some (inl rc) => go rc ts' | res => res end
       end) rc ts)); [|by apply H0].
    induction IHts as [|t ts Ht _ IH]; intros rc Hrc; [by apply real_fails|]. specialize (Ht spec).
    destruct (find_cell t spec) as [[rc'|v]|]; [|done..]. apply IH. by intros ->.
Qed.

Lemma real_at_index {A} (l : list A) i : real (at_index l i).
Proof. unfold at_index. case_match; [|done]. by case_match. Qed.

Lemma real_cell_at t i : real (cell_at t i).
Proof.
  revert i. induction t as [name fs i0 r|cs ss|l r IHl IHr|es|es c IHc|ts IHts] using tuple_ind; intros i; cbn.
  - destruct (negb _); [done|]. apply real_bind; [apply real_at_index|done].
  - destruct (negb _); [done|]. apply real_at_index.
  - destruct (_ && _); [done|]. by destruct (_ && _).
  - destruct (negb _); [done|]. apply real_bind; [apply real_at_index|]. intros. apply real_try_get_value.
  - destruct (negb _); [done|]. apply real_bind; [apply real_at_index|]. intros. apply real_get_value, real_find_cell.
  - revert i. induction IHts as [|t ts Ht _ IH]; intros i; [done|]. by destruct (_ <? _).
Qed.

Lemma real_spec_at t i : real (spec_at t i).
Proof.
  revert i. induction t as [name fs i0 r|cs ss|l r IHl IHr|es|es c IHc|ts IHts] using tuple_ind; intros i; cbn.
  - apply real_bind; [apply real_at_index|done].
  - destruct (negb _); [done|]. apply real_at_index.
  - destruct (_ && _); [done|]. by destruct (_ && _).
  - destruct (negb _); [done|]. apply real_bind; [apply real_at_index|done].
  - destruct (negb _); [done|]. apply real_bind; [apply real_at_index|done].
  - revert i. induction IHts as [|t ts Ht _ IH]; intros i; [done|]. by destruct (_ <? _).
Qed.

Lemma real_make t : real (make t).
Proof.
  unfold make. apply real_bind; [|done]. generalize (Z.to_nat (cell_num t)) as n, 0. induction n as [|n IH]; intros i; [done|].
  cbn. apply real_bind; [apply real_cell_at|]. intros. apply real_bind; [apply real_spec_at|]. intros.
  by apply real_bind.
Qed.

Lemma real_compare_tuples t t' : real (compare t t').
Proof.
  unfold compare. destruct (_ <? _); [done|]. destruct (_ <? _); [done|].
  generalize (Z.to_nat (cell_num t)) as n, 0. induction n as [|n IH]; intros i; [done|]. cbn.
  apply real_bind; [apply real_cell_at|]. intros. apply real_bind; [apply real_cell_at|]. intros.
  destruct (compare_val _ _); [|done]. by destruct (negb _).
Qed.
End real.

(** ** Draining an operator *)

Lemma yields_closable op idle ts e s : yields op idle ts e s -> closable op idle s.
Proof. by destruct ts; intros [? _]. Qed.

Lemma yields_mono op (P Q : op.(State) -> Prop) ts e s : (forall s, P s -> Q s) -> yields op P ts e s -> yields op Q ts e s.
Proof.
  intros HPQ. revert s. assert (Hc : forall s, closable op P s -> closable op Q s).
  { intros s (s' & ? & ?). exists s'. auto. }
  induction ts as [|t ts IH]; cbn; intros s [? Hn]; split; auto.
  - destruct e as [rc|]; [|done]. destruct Hn as (? & s' & ? & ?). eauto 6.
  - destruct Hn as (s' & ? & ? & ?). eauto 6.
Qed.

(** The client sees the rows and the final code. *)
Lemma drain_yields op idle ts rc s n : (length ts < n)%nat -> yields op idle ts (Some rc) s -> drain op n s = Some (ts, rc).
Proof.
  revert s n. induction ts as [|t ts IH]; intros s [|n] Hn; cbn in *; try lia; intros [_ Hy].
  - destruct Hy as (Hrc & s' & -> & _). by destruct rc.
  - destruct Hy as (s' & -> & -> & Hy). by rewrite (IH s' n) by (done || lia).
Qed.

Lemma execute_opens op idle ts rc n : (length ts < n)%nat -> opens op idle (Some (inr (ts, Some rc))) op.(created) ->
  execute op n = Some (inr (ts, rc)).
Proof. unfold execute. intros Hn (s & -> & Hy). cbn. by rewrite (drain_yields _ _ _ _ _ _ Hn Hy). Qed.

(** ** Predicate *)

Definition bounded (n : nat) (r : Run) : Prop := match r with Some (inr (ts, _)) => (length ts < n)%nat | _ => True end.

Section predicate_laws.
Context `{CLib} (fuel : nat) (expression : Expression) (child : PhysicalOperator) (idle : child.(State) -> Prop).
Notation oper := (predicate_operator fuel expression child).
Notation p := (holds expression).

Lemma predicate_loop_ok n ts e s : yields child idle ts e s -> (length ts < n)%nat ->
  match filter_rows p ts e with
  | ([], None) => predicate_loop expression child n s = None
  | ([], Some rc) => rc <> SUCCESS /\ exists s', predicate_loop expression child n s = Some (rc, s') /\
      (rc = RECORD_EOF -> closable child idle s')
  | (t :: k, e') => exists ts' s', predicate_loop expression child n s = Some (SUCCESS, s') /\
      child.(current_tuple) s' = Some t /\ yields child idle ts' e s' /\ (length ts' < length ts)%nat /\
      filter_rows p ts' e = (k, e')
  end.
Proof.
  revert s n. induction ts as [|t ts IH]; intros s [|n]; cbn; try lia.
  - intros [_ Hy] _. destruct e as [rc|]; [|by rewrite Hy].
    destruct Hy as (Hrc & s' & -> & Hc). split; [done|]. exists s'. by destruct rc.
  - intros (_ & s' & -> & Ht & Hy) Hn. rewrite Ht. unfold holds at 1.
    pose proof (real_get_value (find_cell t) expression (real_find_cell t)) as Hreal.
    destruct (get_value (find_cell t) expression) as [[rc|v]|] eqn:Hv; cbn; [|destruct (get_boolean v)|done].
    + split; [by intros ->|]. exists s'. split; [done|]. intros _. by eapply yields_closable.
    + destruct (filter_rows p ts e) as [k e'] eqn:Hf. exists ts, s'. split_and!; auto; lia.
    + specialize (IH s' n Hy ltac:(lia)). destruct (filter_rows p ts e) as [[|t' k] e']; [done|].
      destruct IH as (ts' & s'' & ? & ? & ? & ? & ?). exists ts', s''. split_and!; auto; lia.
Qed.

Lemma predicate_closable s : closable child idle s -> closable oper idle s.
Proof. intros (s' & Hc & ?). exists s'. cbn. unfold predicate_close. by rewrite Hc. Qed.

Lemma predicate_yields ts e s : yields child idle ts e s -> (length ts < fuel)%nat ->
  yields oper idle (filter_rows p ts e).1 (filter_rows p ts e).2 s.
Proof.
  remember (length ts) as n eqn:Hn. revert ts s Hn. induction n as [n IH] using lt_wf_ind. intros ts s -> Hy Hf.
  pose proof (predicate_loop_ok fuel ts e s Hy Hf) as Hl. pose proof (predicate_closable s (yields_closable _ _ _ _ _ Hy)).
  destruct (filter_rows p ts e) as [[|t k] e']; cbn; (split; [done|]).
  - destruct e' as [rc|]; [|done]. destruct Hl as (? & s' & ? & ?). split; [done|]. exists s'. split; [done|].
    intros ->. apply predicate_closable; auto.
  - destruct Hl as (ts' & s' & ? & ? & Hy' & Hlt & Hfr). exists s'. split_and!; [done..|].
    specialize (IH _ Hlt ts' s' eq_refl Hy' ltac:(lia)). by rewrite Hfr in IH.
Qed.

Lemma predicate_opens r s : bounded fuel r -> opens child idle r s ->
  opens oper idle (bind_run r (fun ts e => Some (inr (filter_rows p ts e)))) s.
Proof.
  destruct r as [[rc|[ts e]]|]; cbn; [done| |done]. intros Hb (s' & ? & Hy).
  destruct (filter_rows p ts e) as [k e'] eqn:Hf. exists s'. split; [done|].
  pose proof (predicate_yields ts e s' Hy Hb) as Hp. by rewrite Hf in Hp.
Qed.
End predicate_laws.

(** ** Projection and limit *)

Section project_laws.
Context (expressions : list Named) (child : PhysicalOperator) (idle : child.(State) -> Prop).
Notation oper := (project_operator expressions (Some child)).

Lemma project_yields ts e s : yields child idle ts e s -> yields oper idle (project_rows expressions ts) e s.
Proof.
  assert (Hc : forall s, closable child idle s -> closable oper idle s).
  { intros s0 (s' & Hc & ?). exists s'. cbn. unfold predicate_close. by rewrite Hc. }
  revert s. induction ts as [|t ts IH]; intros s [? Hy]; cbn; (split; [auto|]).
  - destruct e as [rc|]; [|done]. destruct Hy as (? & s' & ? & ?). eauto 6.
  - destruct Hy as (s' & ? & Ht & ?). exists s'. split_and!; [done|by rewrite Ht|auto].
Qed.

Lemma project_opens r s : opens child idle r s ->
  opens oper idle (bind_run r (fun ts e => Some (inr (project_rows expressions ts, e)))) s.
Proof. destruct r as [[rc|[ts e]]|]; cbn; [done| |done]. intros (s' & ? & ?). eauto using project_yields. Qed.
End project_laws.

Section limit_laws.
Context (limit_num : Z) (child : PhysicalOperator) (idle : child.(State) -> Prop).
Notation oper := (limit_operator limit_num (Some child)).
Definition limit_idle (s : Z * option Tuple * child.(State)) : Prop := idle s.2.

Lemma limit_next_full count t s : 0 <= limit_num <= count -> oper.(next) (count, t, s) = Some (RECORD_EOF, (count, t, s)).
Proof. intros ?. cbn. by rewrite (proj2 (Z.leb_le 0 _)), (proj2 (Z.leb_le limit_num _)) by lia. Qed.

Lemma limit_next_more count t s r : count < limit_num ->
  match child.(next) s with
  | None => None
  | Some (SUCCESS, s') => Some (SUCCESS, (count + 1, child.(current_tuple) s', s'))
  | Some (rc, s') => Some (rc, (count, t, s'))
  end = r -> oper.(next) (count, t, s) = r.
Proof. intros ? <-. cbn. by rewrite (proj2 (Z.leb_gt limit_num _)), andb_false_r by lia. Qed.

Lemma limit_yields ts e count t s : 0 <= limit_num -> 0 <= count <= limit_num -> yields child idle ts e s ->
  let st := limit_rows (limit_num - count) ts e in yields oper limit_idle st.1 st.2 (count, t, s).
Proof.
  assert (Hc : forall c t s, closable child idle s -> closable oper limit_idle (c, t, s)).
  { intros c0 t0 s0 (s' & Hc & ?). exists (0, t0, s'). cbn. by rewrite Hc. }
  intros Hl. revert count t s. induction ts as [|t' ts IH]; intros count t s Hcount Hy;
    pose proof (Hc count t s (yields_closable _ _ _ _ _ Hy)) as Hcl; cbn zeta; unfold limit_rows, zlen; cbn [length].
  - destruct Hy as [_ Hy]. rewrite (proj2 (Z.leb_le 0 _)) by lia. cbn [andb].
    destruct (Z.leb_spec (limit_num - count) (Z.of_nat 0)) as [Hle|Hgt].
    + rewrite take_nil. split; [done|]. split; [done|]. exists (count, t, s). split; [by apply limit_next_full; lia|done].
    + split; [done|]. destruct e as [rc|]; [|by apply limit_next_more; [lia|rewrite Hy]].
      destruct Hy as (? & s' & Hnx & ?). split; [done|]. exists (count, t, s'). split; [|auto].
      apply limit_next_more; [lia|]. rewrite Hnx. by destruct rc.
  - destruct Hy as (_ & s' & Hnx & Ht & Hy). rewrite (proj2 (Z.leb_le 0 _)) by lia. cbn [andb].
    destruct (decide (count = limit_num)) as [->|Hne].
    { rewrite Z.sub_diag, (proj2 (Z.leb_le 0 _)) by lia. split; [done|]. split; [done|].
      exists (limit_num, t, s). split; [by apply limit_next_full; lia|done]. }
    assert (Hnext : oper.(next) (count, t, s) = Some (SUCCESS, (count + 1, Some t', s'))).
    { apply limit_next_more; [lia|]. by rewrite Hnx, Ht. }
    specialize (IH (count + 1) (Some t') s' ltac:(lia) Hy). cbn zeta in IH. unfold limit_rows, zlen in IH.
    rewrite (proj2 (Z.leb_le 0 _)) in IH by lia. cbn [andb] in IH.
    destruct (Z.leb_spec (limit_num - count) (Z.of_nat (S (length ts)))) as [Hle|Hgt].
    + rewrite (proj2 (Z.leb_le (limit_num - (count + 1)) _)) in IH by lia. cbn [fst snd] in *.
      replace (Z.to_nat (limit_num - count)) with (S (Z.to_nat (limit_num - (count + 1)))) by lia. cbn [take yields].
      split; [done|]. eexists. split_and!; [done|done|done].
    + rewrite (proj2 (Z.leb_gt (limit_num - (count + 1)) _)) in IH by lia. cbn [fst snd yields] in *.
      split; [done|]. eexists. split_and!; [done|done|done].
Qed.

Lemma limit_opens r c t s : 0 <= limit_num -> opens child idle r s ->
  opens oper limit_idle (bind_run r (fun ts e => Some (inr (limit_rows limit_num ts e)))) (c, t, s).
Proof.
  intros Hl. destruct r as [[rc|[ts e]]|]; cbn.
  - intros (? & s' & ->). eauto.
  - intros (s' & -> & Hy). pose proof (limit_yields ts e 0 t s' Hl ltac:(lia) Hy) as Hk. cbn zeta in Hk.
    rewrite Z.sub_0_r in Hk. destruct (limit_rows limit_num ts e) as [k e']. eexists. split; [done|]. done.
  - by intros ->.
Qed.
End limit_laws.

(** ** Joins *)

(** What one call of [next] must give. *)
Definition result_ok (op : PhysicalOperator) (idle : op.(State) -> Prop) (ts : list Tuple) (e : option RC)
    (r : option (RC * op.(State))) : Prop :=
  match ts with
  | [] =>
      match e with
      | None => r = None
      | Some rc => rc <> SUCCESS /\ exists s', r = Some (rc, s') /\ (rc = RECORD_EOF -> closable op idle s')
      end
  | t :: ts' => exists s', r = Some (SUCCESS, s') /\ op.(current_tuple) s' = Some t /\ yields op idle ts' e s'
  end.

Lemma yields_result op idle ts e s : yields op idle ts e s <-> closable op idle s /\ result_ok op idle ts e (op.(next) s).
Proof. by destruct ts. Qed.

Section join_laws.
Context (left right : PhysicalOperator) (idle_l : left.(State) -> Prop) (idle_r : right.(State) -> Prop).
Context (el er : option RC) (rs : list Tuple).
Context (right_runs : forall s, idle_r s -> opens right idle_r (Some (inr (rs, er))) s).
Notation oper := (join_operator left right).
Notation JS := (JoinState left right).

Definition join_idle (s : JS) : Prop := idle_l s.(left_state _ _) /\ idle_r s.(right_state _ _).

(** The right child is closed, or open and can be closed. *)
Definition right_ready (s : JS) : Prop :=
  if s.(right_closed _ _) then idle_r s.(right_state _ _) else closable right idle_r s.(right_state _ _).

(** Between two rounds, and inside a round with the left row [lt]. *)
Definition between (ls : list Tuple) (s : JS) : Prop :=
  yields left idle_l ls el s.(left_state _ _) /\ s.(round_done _ _) = true /\ right_ready s.

Definition in_round (lt : Tuple) (ls rs' : list Tuple) (s : JS) : Prop :=
  yields left idle_l ls el s.(left_state _ _) /\ s.(round_done _ _) = false /\ s.(right_closed _ _) = false /\
  yields right idle_r rs' er s.(right_state _ _) /\ s.(joined_left _ _) = Some lt.

Lemma join_closable_ready s : closable left idle_l s.(left_state _ _) -> right_ready s -> closable oper join_idle s.
Proof.
  intros (l & Hl & Hi) Hr. unfold right_ready in Hr. destruct s as [ls r lt jl jr rd rcl]; cbn in *.
  destruct rcl.
  - eexists. cbn. unfold join_close. cbn. rewrite Hl. split; [done|]. done.
  - destruct Hr as (r' & Hr & Hri). eexists. cbn. unfold join_close. cbn. rewrite Hl, Hr. split; [done|]. done.
Qed.

Lemma between_closable ls s : between ls s -> closable oper join_idle s.
Proof. intros (Hy & _ & Hr). apply join_closable_ready; [by eapply yields_closable|done]. Qed.

Lemma in_round_closable lt ls rs' s : in_round lt ls rs' s -> closable oper join_idle s.
Proof.
  intros (Hy & _ & Hc & Hr & _). apply join_closable_ready; [by eapply yields_closable|].
  unfold right_ready. rewrite Hc. by eapply yields_closable.
Qed.

(** The rows after the current round. *)
Definition later_rows (ls : list Tuple) : Stream :=
  match er with Some RECORD_EOF => join_rows ls el rs er | _ => ([], er) end.

Lemma join_rows_cons l ls : join_rows (l :: ls) el rs er =
  if bool_decide (rs = []) then ([], er) else ((JoinedTuple l <$> rs) ++ (later_rows ls).1, (later_rows ls).2).
Proof.
  unfold later_rows. cbn [join_rows]. destruct rs as [|r rs'] eqn:E; [done|]. cbn [bool_decide decide_rel].
  rewrite bool_decide_false by done. destruct er as [[]|]; cbn -[join_rows]; rewrite ?app_nil_r; try done.
  by destruct (join_rows ls el (r :: rs') (Some RECORD_EOF)).
Qed.

(** The right child is opened anew and yields all its rows. *)
Lemma right_next_fresh s : right_ready s -> s.(round_done _ _) = true ->
  exists s', right_restart left right s = Some (SUCCESS, s') /\ s'.(round_done _ _) = false /\ s'.(right_closed _ _) = false /\
    yields right idle_r rs er s'.(right_state _ _) /\ s'.(left_state _ _) = s.(left_state _ _) /\
    s'.(joined_left _ _) = s.(joined_left _ _).
Proof.
  intros Hr Hd. unfold right_restart, right_ready in *. destruct s as [ls r lt jl jr rd rcl]; cbn in *. subst rd.
  assert (exists r0, (if rcl then Some (SUCCESS, r) else right.(close) r) = Some (SUCCESS, r0) /\ idle_r r0) as (r0 & -> & Hi).
  { destruct rcl; [by eexists|]. destruct Hr as (r' & ? & ?). by eexists. }
  destruct (right_runs r0 Hi) as (r' & -> & Hy). eexists. split; [done|]. done.
Qed.

Lemma right_step_ok lt ls rs' s : in_round lt ls rs' s ->
  match rs' with
  | [] => match er with
          | None => right_step left right s = None
          | Some rc => rc <> SUCCESS /\ exists s', right_step left right s = Some (rc, s') /\
              s'.(left_state _ _) = s.(left_state _ _) /\ (rc = RECORD_EOF -> s'.(round_done _ _) = true /\ right_ready s')
          end
  | r :: rs'' => exists s', right_step left right s = Some (SUCCESS, s') /\ joined_tuple left right s' = Some (JoinedTuple lt r) /\
      in_round lt ls rs'' s'
  end.
Proof.
  intros (Hl & Hd & Hc & Hr & Hj). unfold right_step. destruct rs' as [|r rs'']; destruct Hr as [_ Hr].
  - destruct er as [rc|]; [|by rewrite Hr]. destruct Hr as (Hrc & r' & -> & Hcl). split; [done|].
    exists (with_right left right s r' (bool_decide (rc = RECORD_EOF) || s.(round_done _ _)) s.(right_closed _ _)).
    split; [by destruct rc|]. split; [done|]. intros ->. split; [done|]. unfold right_ready. cbn. rewrite Hc. auto.
  - destruct Hr as (r' & -> & Ht & Hy). eexists. split; [done|]. unfold joined_tuple, in_round. cbn. rewrite Ht, Hj. done.
Qed.

Lemma in_round_yields lt ls : (forall s, between ls s -> result_ok oper join_idle (join_rows ls el rs er).1 (join_rows ls el rs er).2 (join_step left right s)) ->
  forall rs' s, in_round lt ls rs' s ->
  yields oper join_idle ((JoinedTuple lt <$> rs') ++ (later_rows ls).1) (later_rows ls).2 s.
Proof.
  intros Hls. induction rs' as [|r rs' IH]; intros s Hs; apply yields_result; (split; [by eapply in_round_closable|]);
    pose proof (right_step_ok _ _ _ _ Hs) as Hstep; cbn [next join_operator fmap list_fmap app].
  - unfold join_next, right_next. rewrite (proj1 (proj2 Hs)). unfold later_rows.
    destruct er as [rc|] eqn:Her; [|by rewrite Hstep]. destruct Hstep as (Hrc & s' & -> & Hsl & Hready).
    destruct (decide (rc = RECORD_EOF)) as [->|Hne].
    + destruct (Hready eq_refl) as [Hd Hr]. apply Hls. split_and!; [|done|done]. rewrite Hsl. by destruct Hs.
    + destruct rc; try done; cbn; (split; [done|]); exists s'; (split; [done|]); done.
  - destruct Hstep as (s' & Hstep & Hj & Hs'). exists s'. split_and!; [|done|by apply IH].
    unfold join_next, right_next. by rewrite (proj1 (proj2 Hs)), Hstep.
Qed.

Lemma join_step_ok ls s : between ls s ->
  result_ok oper join_idle (join_rows ls el rs er).1 (join_rows ls el rs er).2 (join_step left right s).
Proof.
  revert s. induction ls as [|l ls IH]; intros s (Hl & Hd & Hr); unfold join_step, left_next.
  - cbn [join_rows fst snd result_ok]. destruct Hl as [_ Hl]. destruct el as [rc|]; [|by rewrite Hl].
    destruct Hl as (Hrc & l' & -> & Hcl). split; [done|].
    exists (mkJoin left right l' s.(right_state _ _) s.(left_tuple _ _) s.(joined_left _ _) s.(joined_right _ _) s.(round_done _ _) s.(right_closed _ _)).
    split; [by destruct rc|]. intros ->.
    by apply join_closable_ready; [apply Hcl|].
  - destruct Hl as (_ & l' & -> & Ht & Hl). rewrite Ht, join_rows_cons.
    set (s1 := mkJoin left right l' s.(right_state _ _) (Some l) (Some l) s.(joined_right _ _) s.(round_done _ _) s.(right_closed _ _)).
    destruct (right_next_fresh s1) as (s2 & Hrs & Hd2 & Hc2 & Hy2 & Hl2 & Hj2); [done|done|].
    assert (Hin : in_round l ls rs s2) by (split_and!; [by rewrite Hl2|done..]).
    pose proof (right_step_ok _ _ _ _ Hin) as Hstep. unfold right_next. change (round_done _ _ s1) with (round_done _ _ s).
    rewrite Hd, Hrs. case_bool_decide as Hrs0.
    + rewrite Hrs0 in Hstep. cbn [fst snd result_ok]. destruct er as [rc|]; [|done].
      destruct Hstep as (Hrc & s' & -> & Hsl & Hready). split; [done|]. eexists. split; [done|]. intros ->.
      destruct (Hready eq_refl). apply join_closable_ready; [|done]. rewrite Hsl, Hl2. by eapply yields_closable.
    + assert (exists r rs', rs = r :: rs') as (r & rs' & Ers) by (destruct rs; [done|by do 2 eexists]).
      rewrite Ers in Hstep. destruct Hstep as (s' & -> & Hj & Hs'). rewrite Ers. cbn [fmap list_fmap app fst snd result_ok].
      exists s'. split_and!; [done|done|]. by apply in_round_yields.
Qed.

Lemma join_opens rl s : (forall ts e, rl = Some (inr (ts, e)) -> e = el) -> join_idle s ->
  opens left idle_l rl s.(left_state _ _) ->
  opens oper join_idle (bind_run rl (fun ls e => Some (inr (join_rows ls e rs er)))) s.
Proof.
  intros Hel [_ Hi] Ho. destruct rl as [[rc|[ls e]]|]; cbn in *.
  - destruct Ho as (? & l' & Ho). split; [done|]. unfold join_open. rewrite Ho. by eexists.
  - rewrite (Hel ls e eq_refl). destruct Ho as (l' & Ho & Hy). rewrite (Hel ls e eq_refl) in Hy.
    destruct (join_rows ls el rs er) as [ts e'] eqn:E. unfold join_open. rewrite Ho. eexists. split; [done|].
    set (s' := mkJoin _ _ _ _ _ _ _ _ _). assert (Hb : between ls s') by done.
    apply yields_result. split; [by eapply between_closable|]. cbn [next join_operator]. unfold join_next.
    pose proof (join_step_ok ls s' Hb) as Hok. by rewrite E in Hok.
  - unfold join_open. by rewrite Ho.
Qed.

(** [nested_loop_join_physical_operator.cpp]: the loop goes on after a row, so that it ends
    only with the code of the left child. *)
Lemma right_step_left_tuple s rc s' : right_step left right s = Some (rc, s') -> s'.(left_tuple _ _) = s.(left_tuple _ _).
Proof. clear right_runs. unfold right_step. destruct (next right (right_state _ _ s)) as [[[] r]|]; intros [= <- <-]; done. Qed.

Lemma right_restart_left_tuple s rc s' : right_restart left right s = Some (rc, s') ->
  s'.(left_tuple _ _) = s.(left_tuple _ _).
Proof.
  clear right_runs. unfold right_restart.
  destruct (if s.(right_closed _ _) then _ else _ : option (RC * right.(State))) as [[rc0 r]|]; [|done].
  destruct rc0; try (by intros [= <- <-]). destruct (open right r) as [[[] r']|]; intros [= <- <-]; done.
Qed.

Section nlj.
Context (n0 : nat) (er_eof : er = Some RECORD_EOF).
Notation nlj := (nested_loop_join_operator n0 left right).

Lemma nlj_between_ok ls s n : between ls s -> (length ls * S (length rs) < n)%nat ->
  result_ok nlj join_idle [] el (nlj_loop left right n s).
Proof.
  revert s n. induction ls as [|l ls IH]; intros s [|n] (Hl & Hd & Hr) Hn; [lia| |lia|]; cbn [nlj_loop];
    rewrite Hd, orb_true_r; unfold left_next.
  - destruct Hl as [_ Hl]. cbn [result_ok]. destruct el as [rc|]; [|by rewrite Hl].
    destruct Hl as (Hrc & l' & -> & Hcl). split; [done|].
    exists (mkJoin left right l' s.(right_state _ _) s.(left_tuple _ _) s.(joined_left _ _) s.(joined_right _ _) s.(round_done _ _) s.(right_closed _ _)).
    split; [by destruct rc|]. intros ->. by apply join_closable_ready; [apply Hcl|].
  - destruct Hl as (_ & l' & -> & Ht & Hl). rewrite Ht, <- Hd.
    set (s1 := mkJoin left right l' s.(right_state _ _) (Some l) (Some l) s.(joined_right _ _) s.(round_done _ _) s.(right_closed _ _)).
    destruct (right_next_fresh s1) as (s2 & Hrs & Hd2 & Hc2 & Hy2 & Hl2 & Hj2); [done|done|].
    assert (Hin : in_round l ls rs s2) by (split_and!; [by rewrite Hl2|done..]).
    pose proof (right_restart_left_tuple _ _ _ Hrs) as Hlt. cbn in Hlt.
    unfold right_next at 1. change (round_done _ _ s1) with (round_done _ _ s). rewrite Hd, Hrs.
    assert (Hround : forall rs' s n, in_round l ls rs' s -> s.(left_tuple _ _) = Some l ->
      (length rs' + length ls * S (length rs) < n)%nat ->
      result_ok nlj join_idle [] el
        match right_step left right s with
        | None => None
        | Some (SUCCESS, s') => nlj_loop left right n s'
        | Some (RECORD_EOF, s') => nlj_loop left right n (with_right left right s' s'.(right_state _ _) true s'.(right_closed _ _))
        | Some (rc, s') => Some (rc, s')
        end).
    { clear - IH er_eof right_runs. induction rs' as [|r rs' IHr]; intros s n Hs Hlt Hn; pose proof (right_step_ok _ _ _ _ Hs) as Hstep.
      - rewrite er_eof in Hstep. destruct Hstep as (_ & s' & -> & Hsl & Hready). destruct (Hready eq_refl) as [_ Hr].
        apply IH; [|lia]. split_and!; [|done|done]. cbn. rewrite Hsl. by destruct Hs.
      - destruct Hstep as (s' & Hstep & Hj & Hs'). pose proof (right_step_left_tuple _ _ _ Hstep) as Hlt'. rewrite Hstep.
        destruct n as [|n]; [cbn in Hn; lia|]. cbn [nlj_loop]. rewrite Hlt', Hlt, (proj1 (proj2 Hs')).
        rewrite bool_decide_false by done. cbn [orb]. unfold right_next. rewrite (proj1 (proj2 Hs')).
        apply IHr; [done|congruence|cbn in Hn; lia]. }
    apply (Hround rs); [done|done|]. cbn in Hn. lia.
Qed.

Lemma nlj_opens ls s : (length ls * S (length rs) < n0)%nat -> join_idle s ->
  opens left idle_l (Some (inr (ls, el))) s.(left_state _ _) -> opens nlj join_idle (Some (inr ([], el))) s.
Proof.
  intros Hn [_ Hi] (l' & Ho & Hy). cbn. unfold join_open. rewrite Ho. eexists. split; [done|].
  set (s' := mkJoin _ _ _ _ _ _ _ _ _). assert (Hb : between ls s') by done.
  split; [by eapply (between_closable ls)|]. by apply nlj_between_ok with (ls := ls).
Qed.
End nlj.
End join_laws.

(** ** Order by and group by *)

Section blocking_laws.
Context `{CLib} `{StdSort} (fuel : nat) (child : PhysicalOperator) (idle : child.(State) -> Prop).

Lemma group_loop_ok {A} (step : A -> Tuple -> Res A) n ts e s acc : (forall acc t, real (step acc t)) ->
  yields child idle ts e s -> (length ts < n)%nat ->
  match fold_rows step ts e acc with
  | None => group_loop step child n s acc = None
  | Some (inl rc) => rc <> SUCCESS /\ exists acc' s', group_loop step child n s acc = Some (rc, acc', s')
  | Some (inr acc') => exists s', group_loop step child n s acc = Some (SUCCESS, acc', s') /\ closable child idle s'
  end.
Proof.
  intros Hreal. revert s n acc. induction ts as [|t ts IH]; intros s [|n] acc; cbn; try lia; intros [_ Hy] Hn.
  - destruct e as [rc|]; [|by rewrite Hy]. destruct Hy as (Hrc & s' & -> & Hc).
    destruct rc; try done; cbn; eauto; split; eauto.
  - destruct Hy as (s' & -> & -> & Hy). specialize (Hreal acc t). destruct (step acc t) as [[rc|acc']|]; cbn; [|apply IH; [done|lia]|done].
    split; [by intros ->|]. eauto.
Qed.

Lemma read_all_loop n s acc : read_all child n s acc = group_loop append_copy child n s acc.
Proof.
  revert s acc. induction n as [|n IH]; intros s acc; cbn; [done|]. destruct (child.(next) s) as [[[] s']|]; try done.
  destruct (child.(current_tuple) s') as [t|]; [|done]. unfold append_copy at 1. by destruct (make t) as [[rc|v]|]; cbn.
Qed.

Lemma real_append_copy acc t : real (append_copy acc t).
Proof. apply real_bind; [apply real_make|done]. Qed.

Definition order_idle (s : list Tuple * Z * child.(State)) : Prop := idle s.2.

Lemma order_yields expressions asc sorted k c : closable child idle c ->
  yields (order_by_operator fuel expressions asc (Some child)) order_idle (drop k sorted) (Some RECORD_EOF)
    (sorted, Z.of_nat k - 1, c).
Proof.
  intros (c' & Hc & Hi). set (op := order_by_operator _ _ _ _).
  assert (Hcl : forall i, closable op order_idle (sorted, i, c)).
  { intros i. exists ([], -1, c'). cbn. by rewrite Hc. }
  remember (length sorted - k)%nat as m eqn:Hm. revert k Hm. induction m as [|m IH]; intros k Hm.
  - rewrite drop_ge by lia. split; [done|]. split; [done|]. exists (sorted, Z.of_nat k - 1 + 1, c). cbn.
    rewrite (proj2 (Z.leb_le _ _)) by (unfold zlen; lia). done.
  - destruct (lookup_lt_is_Some_2 sorted k) as [t Ht]; [lia|]. rewrite (drop_S _ _ _ Ht). split; [done|].
    exists (sorted, Z.of_nat k - 1 + 1, c). split_and!.
    + cbn. rewrite (proj2 (Z.leb_gt _ _)) by (unfold zlen; lia). done.
    + cbn. rewrite (proj2 (Z.leb_gt _ _)), (proj2 (Z.ltb_ge _ _)) by (unfold zlen; lia). cbn.
      by replace (Z.to_nat _) with k by lia.
    + replace (Z.of_nat k - 1 + 1) with (Z.of_nat (S k) - 1) by lia. apply IH. lia.
Qed.

Lemma order_opens expressions asc r sorted i c : bounded fuel r -> opens child idle r c ->
  opens (order_by_operator fuel expressions asc (Some child)) order_idle (sort_run expressions asc r) (sorted, i, c).
Proof.
  destruct r as [[rc|[ts e]]|]; unfold opens; cbn [bounded sort_run bind_run order_by_operator open]; unfold order_open.
  - intros _ (Hrc & c' & ->). split; [done|]. by destruct rc; eauto.
  - intros Hb (c' & -> & Hy). rewrite read_all_loop.
    pose proof (group_loop_ok append_copy fuel ts e c' [] real_append_copy Hy Hb) as Hl.
    destruct (fold_rows append_copy ts e []) as [[rc|copies]|].
    + destruct Hl as (Hrc & acc' & s' & ->). split; [done|]. by destruct rc; eauto.
    + destruct Hl as (s' & -> & Hc). cbn. destruct (sort_tuples expressions asc copies) as [sorted'|]; cbn; [|done].
      eexists. split; [done|]. apply (order_yields expressions asc sorted' 0 s' Hc).
    + by rewrite Hl.
  - by intros _ ->.
Qed.

Lemma real_aggregate accs t : real (aggregate accs t).
Proof.
  unfold aggregate. destruct (negb _); [done|]. generalize 0. induction accs as [|a accs IH]; intros i; cbn; [done|].
  apply real_bind; [apply real_cell_at|]. intros v. destruct (accumulate a v); [|done]. by apply real_bind.
Qed.

Lemma real_scalar_step aggs g t : real (scalar_step aggs g t).
Proof.
  unfold scalar_step. apply real_bind.
  - destruct g; [done|]. destruct (create_aggregator_list aggs); [|done]. apply real_bind; [apply real_make|done].
  - intros [accs kept]. apply real_bind; [apply real_aggregate|done].
Qed.

Lemma real_hash_step aggs by_ gs t : real (hash_step aggs by_ gs t).
Proof.
  unfold hash_step. apply real_bind; [apply real_make|]. intros key. apply real_bind.
  { induction gs as [|g gs IH]; cbn; [done|]. apply real_bind; [apply real_compare_tuples|]. intros c.
    destruct (_ =? _); [done|]. by apply real_bind. }
  intros found. apply real_bind.
  - destruct found; [done|]. destruct (create_aggregator_list aggs); [|done]. apply real_bind; [apply real_make|done].
  - intros [i gs']. destruct (gs' !! i) as [[k [accs kept]]|]; [|done]. apply real_bind; [apply real_aggregate|done].
Qed.

Definition scalar_idle (s : option GroupValue * bool * child.(State)) : Prop := s.1.1 = None /\ idle s.2.

Lemma scalar_opens aggs r em c : bounded fuel r -> opens child idle r c ->
  opens (scalar_group_by fuel aggs child) scalar_idle (scalar_run aggs r) (None, em, c).
Proof.
  set (op := scalar_group_by fuel aggs child).
  assert (Hcl : forall g em c, closable child idle c -> closable op scalar_idle (g, em, c)).
  { intros g em0 c0 (c' & Hc & ?). exists (None, false, c'). cbn. by rewrite Hc. }
  destruct r as [[rc|[ts e]]|]; cbn [opens bounded scalar_run bind_run].
  - intros _ (Hrc & c' & Ho). split; [done|]. cbn. rewrite Ho. by destruct rc; eauto.
  - intros Hb (c' & Ho & Hy).
    pose proof (group_loop_ok (scalar_step aggs) fuel ts e c' None (real_scalar_step aggs) Hy Hb) as Hl.
    destruct (fold_rows (scalar_step aggs) ts e None) as [[rc|[g|]]|]; cbn; rewrite Ho.
    + destruct Hl as (Hrc & acc' & s' & ->). split; [done|]. by destruct rc; eauto.
    + destruct Hl as (s' & -> & Hc). eexists. split; [done|]. split; [by apply Hcl|].
      exists (Some (evaluate aggs g), true, s'). split_and!; [done|done|by apply Hcl|done|].
      exists (Some (evaluate aggs g), true, s'). auto.
    + destruct Hl as (s' & -> & Hc). eexists. split; [done|]. split; [by apply Hcl|]. split; [done|].
      exists (None, false, s'). auto.
    + by rewrite Hl.
  - intros _ Ho. cbn. by rewrite Ho.
Qed.

Lemma hash_yields aggs by_ (groups : list Group) k em c : closable child idle c ->
  (em = false -> k = O) -> (em = true -> k < length groups)%nat ->
  yields (hash_group_by fuel aggs by_ child) (fun _ => True)
    (drop (if em : bool then S k else k) ((fun g : Group => CompositeTuple g.2.2) <$> groups)) (Some RECORD_EOF) (groups, k, em, c).
Proof.
  intros (c' & Hc & _). set (op := hash_group_by _ _ _ _).
  assert (Hcl : forall k em, closable op (fun _ => True) (groups, k, em, c)).
  { intros k0 em0. exists (groups, k0, em0, c'). cbn. by rewrite Hc. }
  remember (length groups - (if em then S k else k))%nat as m eqn:Hm. revert k em Hm.
  induction m as [|m IH]; intros k em Hm Hf Ht.
  - rewrite drop_ge by (rewrite length_fmap; lia). split; [done|]. split; [done|].
    destruct (decide (length groups <= k)%nat) as [Hle|Hgt].
    + exists (groups, k, em, c). cbn. by rewrite (proj2 (Nat.leb_le _ _)) by lia.
    + assert (em = true) as -> by (destruct em; [done|lia]). exists (groups, S k, true, c). cbn.
      rewrite (proj2 (Nat.leb_gt _ _)), (proj2 (Nat.leb_le _ _)) by lia. done.
  - set (k' := if em then S k else k) in *. destruct (lookup_lt_is_Some_2 groups k') as [g Hg]; [lia|].
    rewrite (drop_S _ (CompositeTuple g.2.2) k') by (by rewrite list_lookup_fmap, Hg). split; [done|].
    exists (groups, k', true, c). split_and!.
    + cbn. rewrite (proj2 (Nat.leb_gt _ k)) by (destruct em; lia). fold k'. by rewrite (proj2 (Nat.leb_gt _ k')) by lia.
    + cbn. by rewrite Hg.
    + apply (IH k' true); lia || done.
Qed.

Lemma hash_opens aggs by_ r k em c : bounded fuel r -> opens child idle r c ->
  opens (hash_group_by fuel aggs by_ child) (fun _ => True) (hash_run aggs by_ r) ([], k, em, c).
Proof.
  destruct r as [[rc|[ts e]]|]; cbn [opens bounded hash_run bind_run].
  - intros _ (Hrc & c' & Ho). split; [done|]. cbn. rewrite Ho. by destruct rc; eauto.
  - intros Hb (c' & Ho & Hy).
    pose proof (group_loop_ok (hash_step aggs by_) fuel ts e c' [] (real_hash_step aggs by_) Hy Hb) as Hl.
    destruct (fold_rows (hash_step aggs by_) ts e []) as [[rc|gs]|]; cbn -[yields evaluate]; rewrite Ho.
    + destruct Hl as (Hrc & acc' & s' & ->). split; [done|]. by destruct rc; eauto.
    + destruct Hl as (s' & -> & Hc). eexists. split; [done|].
      pose proof (hash_yields aggs by_ (prod_map id (evaluate aggs) <$> gs) 0 false s' Hc (fun _ => eq_refl) ltac:(done)) as Hh.
      cbn -[yields] in Hh. by rewrite drop_0, <- list_fmap_compose in Hh.
    + by rewrite Hl.
  - intros _ Ho. cbn. by rewrite Ho.
Qed.
End blocking_laws.

(** ** Scans *)

(** What the scanner of a table promises: it gives the rows one by one, then [e]. *)
Fixpoint scanner_gives (table : Table) (rows : list (RID * list Z)) (e : RC) (sc : table.(RScanner)) : Prop :=
  match rows with
  | [] => e <> SUCCESS /\ exists r sc', table.(scanner_next) sc = (e, r, sc')
  | row :: rows' => exists sc', table.(scanner_next) sc = (SUCCESS, Some row, sc') /\ scanner_gives table rows' e sc'
  end.

Class TableRows (table : Table) (mode : ReadWriteMode) (rows : list (RID * list Z)) (e : RC) := {
  rows_opened : exists sc, table.(get_record_scanner) mode = (SUCCESS, sc) /\ scanner_gives table rows e sc;
  rows_closed : forall sc, table.(close_scan) sc = SUCCESS
}.

(** A table kept as a list, for examples. *)
Definition list_table (name : string) (fields : list FieldMeta) (rows : list (RID * list Z)) : Table :=
  mkTable name fields (fun _ => None) (list (RID * list Z)) (fun _ => (SUCCESS, rows))
    (fun sc => match sc with [] => (RECORD_EOF, None, []) | r :: sc' => (SUCCESS, Some r, sc') end)
    (fun _ => SUCCESS) (fun _ => (RECORD_NOT_EXIST, [])) (fun _ _ => SUCCESS).

Lemma list_table_rows name fields rows mode : TableRows (list_table name fields rows) mode rows RECORD_EOF.
Proof.
  split; [|done]. exists rows. split; [done|]. generalize rows at 1 as all. intros all.
  induction rows as [|r rows IH]; cbn [scanner_gives]; [split; [done|by do 2 eexists]|]. exists rows. split; [done|exact IH].
Qed.

Definition demo_rows : list (RID * list Z) := [(mkRID 1 0, [7; 0; 0; 0]); (mkRID 1 1, [9; 0; 0; 0]); (mkRID 1 2, [7; 0; 0; 0])].
Definition demo_list_table : Table := list_table "t" [mkField "a" INTS 0 4] demo_rows.

Section scan_laws.
Context `{CLib} (fuel : nat) (table : Table) (mode : ReadWriteMode) (predicates : list Expression).
Context (rows : list (RID * list Z)) (e : RC) `{TableRows table mode rows e}.
Notation op := (table_scan fuel table mode predicates).
Notation any := (fun _ : ScanState table => True).

Lemma real_filter t : real (filter predicates t).
Proof.
  induction predicates as [|p ps IH]; cbn; [done|]. apply real_bind; [apply real_get_value, real_find_cell|].
  intros v. by destruct (get_boolean v).
Qed.

Lemma scan_closable sc cur : closable op any (Some sc, cur).
Proof. exists (None, cur). cbn. by rewrite (rows_closed (table := table)). Qed.

Lemma scan_loop_ok n rs sc cur : scanner_gives table rs e sc -> (length rs < n)%nat ->
  match filter_rows (filter predicates) (row_tuple table <$> rs) (Some e) with
  | ([], None) => scan_loop table predicates n sc cur = None
  | ([], Some rc) => rc <> SUCCESS /\ exists sc' cur', scan_loop table predicates n sc cur = Some (rc, (Some sc', cur'))
  | (t :: k, e') => exists r rs' sc', scan_loop table predicates n sc cur = Some (SUCCESS, (Some sc', Some r)) /\
      t = row_tuple table r /\ scanner_gives table rs' e sc' /\ (length rs' < length rs)%nat /\
      filter_rows (filter predicates) (row_tuple table <$> rs') (Some e) = (k, e')
  end.
Proof.
  revert sc cur n. induction rs as [|r rs IH]; intros sc cur [|n]; cbn; try lia.
  - intros (He & r & sc' & ->) _. split; [done|]. exists sc', cur. by destruct e.
  - intros (sc' & -> & Hs) Hn. pose proof (real_filter (row_tuple table r)) as Hreal.
    destruct (filter predicates (row_tuple table r)) as [[rc|[]]|]; [| | |done].
    + split; [by intros ->|]. by do 2 eexists.
    + destruct (filter_rows _ (row_tuple table <$> rs) _) as [k e'] eqn:Hf. exists r, rs, sc'. split_and!; auto; lia.
    + specialize (IH sc' (Some r) n Hs ltac:(lia)).
      destruct (filter_rows _ (row_tuple table <$> rs) _) as [[|t k] e']; [done|].
      destruct IH as (r' & rs' & sc'' & ? & ? & ? & ? & ?). exists r', rs', sc''. split_and!; auto; lia.
Qed.

Lemma scan_yields rs sc cur : scanner_gives table rs e sc -> (length rs < fuel)%nat ->
  let st := filter_rows (filter predicates) (row_tuple table <$> rs) (Some e) in yields op any st.1 st.2 (Some sc, cur).
Proof.
  remember (length rs) as n eqn:Hn. revert rs sc cur Hn. induction n as [n IH] using lt_wf_ind. intros rs sc cur -> Hs Hf.
  pose proof (scan_loop_ok fuel rs sc cur Hs Hf) as Hl. pose proof (scan_closable sc cur). cbn zeta.
  destruct (filter_rows _ (row_tuple table <$> rs) _) as [[|t k] e']; cbn; (split; [done|]).
  - destruct e' as [rc|]; [|done]. destruct Hl as (? & sc' & cur' & ?). split; [done|]. eexists. split; [done|].
    intros _. apply scan_closable.
  - destruct Hl as (r & rs' & sc' & Hl & -> & Hs' & Hlt & Hfr). eexists. split_and!; [done..|].
    specialize (IH _ Hlt rs' sc' (Some r) eq_refl Hs' ltac:(lia)). cbn zeta in IH. by rewrite Hfr in IH.
Qed.

Lemma scan_opens s : (length rows < fuel)%nat ->
  opens op any (Some (inr (filter_rows (filter predicates) (row_tuple table <$> rows) (Some e)))) s.
Proof.
  intros Hf. destruct (rows_opened (table := table) (mode := mode) (rows := rows) (e := e)) as (sc & Ho & Hs).
  pose proof (scan_yields rows sc s.2 Hs Hf) as Hy. cbn zeta in Hy.
  destruct (filter_rows _ (row_tuple table <$> rows) _) as [k e'] eqn:Hk. eexists.
  split; [cbn; unfold scan_open; by rewrite Ho|done].
Qed.
End scan_laws.

(** What the scanner of an index promises. *)
Fixpoint entries_give (index : Index) (rids : list RID) (e : RC) (sc : index.(IScanner)) : Prop :=
  match rids with
  | [] => e <> SUCCESS /\ exists rid sc', index.(next_entry) sc = (e, rid, sc')
  | rid :: rids' => exists sc', index.(next_entry) sc = (SUCCESS, rid, sc') /\ entries_give index rids' e sc'
  end.

Section index_laws.
Context `{CLib} (fuel : nat) (table : Table) (index : Index) (mode : ReadWriteMode) (value : Value) (predicates : list Expression).

(** The rows of the entries that satisfy the predicates and are visible. *)
Fixpoint index_rows (rids : list RID) (e : RC) : Stream :=
  match rids with
  | [] => ([], Some e)
  | rid :: rids' =>
      match table.(table_get_record) rid with
      | (SUCCESS, data) =>
          match filter predicates (row_tuple table (rid, data)) with
          | None => ([], None)
          | Some (inl rc) => ([], Some rc)
          | Some (inr false) => index_rows rids' e
          | Some (inr true) =>
              match table.(trx_visit_record) data mode with
              | RECORD_INVISIBLE => index_rows rids' e
              | SUCCESS => let '(k, e') := index_rows rids' e in (row_tuple table (rid, data) :: k, e')
              | rc => ([], Some rc)
              end
          end
      | (rc, _) => ([], Some rc)
      end
  end.

Notation op := (index_scan fuel table index mode value predicates).
Notation any := (fun _ : IndexState index => True).

Lemma index_closable sc cur : closable op any (Some sc, cur).
Proof. by exists (None, cur). Qed.

Lemma index_loop_ok n rids e sc cur : entries_give index rids e sc -> (length rids < n)%nat ->
  match index_rows rids e with
  | ([], None) => index_loop table index mode predicates n sc cur = None
  | ([], Some rc) => rc <> SUCCESS /\ exists sc' cur', index_loop table index mode predicates n sc cur = Some (rc, (Some sc', cur'))
  | (t :: k, e') => exists r rids' sc', index_loop table index mode predicates n sc cur = Some (SUCCESS, (Some sc', Some r)) /\
      t = row_tuple table r /\ entries_give index rids' e sc' /\ (length rids' < length rids)%nat /\ index_rows rids' e = (k, e')
  end.
Proof.
  revert sc cur n. induction rids as [|rid rids IH]; intros sc cur [|n]; cbn; try lia.
  - intros (He & r & sc' & ->) _. split; [done|]. exists sc', cur. by destruct e.
  - intros (sc' & -> & Hs) Hn. destruct (table_get_record table rid) as [rc data].
    destruct (decide (rc = SUCCESS)) as [->|Hrc]; [|destruct rc; try done; (split; [done|by do 2 eexists])].
    pose proof (real_filter predicates (row_tuple table (rid, data))) as Hreal.
    assert (Hskip : match index_rows rids e with
      | ([], None) => index_loop table index mode predicates n sc' (Some (rid, data)) = None
      | ([], Some rc) => rc <> SUCCESS /\ exists sc'' cur', index_loop table index mode predicates n sc' (Some (rid, data)) = Some (rc, (Some sc'', cur'))
      | (t :: k, e') => exists r rids' sc'', index_loop table index mode predicates n sc' (Some (rid, data)) = Some (SUCCESS, (Some sc'', Some r)) /\
          t = row_tuple table r /\ entries_give index rids' e sc'' /\ (length rids' < S (length rids))%nat /\ index_rows rids' e = (k, e')
      end).
    { specialize (IH sc' (Some (rid, data)) n Hs ltac:(lia)). destruct (index_rows rids e) as [[|t k] e']; [done|].
      destruct IH as (r' & rids' & sc'' & ? & ? & ? & ? & ?). exists r', rids', sc''. split_and!; auto; lia. }
    destruct (filter predicates _) as [[rc|[]]|]; [split; [by intros ->|by do 2 eexists]| |exact Hskip|done].
    destruct (trx_visit_record table data mode) eqn:Hv; try (split; [done|by do 2 eexists]); [|exact Hskip].
    destruct (index_rows rids e) as [k e'] eqn:Hf. exists (rid, data), rids, sc'. split_and!; auto; lia.
Qed.

Lemma index_yields rids e sc cur : entries_give index rids e sc -> (length rids < fuel)%nat ->
  yields op any (index_rows rids e).1 (index_rows rids e).2 (Some sc, cur).
Proof.
  remember (length rids) as n eqn:Hn. revert rids sc cur Hn. induction n as [n IH] using lt_wf_ind. intros rids sc cur -> Hs Hf.
  pose proof (index_loop_ok fuel rids e sc cur Hs Hf) as Hl. pose proof (index_closable sc cur).
  destruct (index_rows rids e) as [[|t k] e']; cbn; (split; [done|]).
  - destruct e' as [rc|]; [|done]. destruct Hl as (? & sc' & cur' & ?). split; [done|]. eexists. split; [done|].
    intros _. apply index_closable.
  - destruct Hl as (r & rs' & sc' & Hl & -> & Hs' & Hlt & Hfr). eexists. split_and!; [done..|].
    specialize (IH _ Hlt rs' sc' (Some r) eq_refl Hs' ltac:(lia)). by rewrite Hfr in IH.
Qed.

Lemma index_opens rids e sc s : index.(create_scanner) value = Some sc -> entries_give index rids e sc ->
  (length rids < fuel)%nat -> opens op any (Some (inr (index_rows rids e))) s.
Proof.
  intros Ho Hs Hf. pose proof (index_yields rids e sc s.2 Hs Hf) as Hy. destruct (index_rows rids e) as [k e'].
  eexists. split; [cbn; unfold index_open; by rewrite Ho|done].
Qed.
End index_laws.

(** ** Vector index scan *)

Section vector_laws.
Context `{CLib} (table : Table) (index : Index) (query : list float32) (limit : Z) (predicates : list Expression).
Notation op := (vector_index_scan table index query limit predicates).
Notation any := (fun _ : VectorState => True).

(** The candidates that are stored and satisfy the predicates; the transaction is not asked. *)
Fixpoint vector_rows (rids : list RID) : Stream :=
  match rids with
  | [] => ([], Some RECORD_EOF)
  | rid :: rids' =>
      match table.(table_get_record) rid with
      | (SUCCESS, data) =>
          match filter predicates (row_tuple table (rid, data)) with
          | None => ([], None)
          | Some (inl rc) => ([], Some rc)
          | Some (inr true) => let '(k, e) := vector_rows rids' in (row_tuple table (rid, data) :: k, e)
          | Some (inr false) => vector_rows rids'
          end
      | _ => vector_rows rids'
      end
  end.

Lemma vector_closable s : closable op any s.
Proof. by exists ([], s.2). Qed.

Lemma vector_yields rids cur : yields op any (vector_rows rids).1 (vector_rows rids).2 (rids, cur).
Proof.
  assert (Hr : forall rids cur, result_ok op any (vector_rows rids).1 (vector_rows rids).2 (vector_loop table predicates rids cur)).
  { induction rids0 as [|rid rids0 IH]; intros cur0; cbn [vector_rows vector_loop].
    - split; [done|]. eexists. split; [done|]. intros _. apply vector_closable.
    - destruct (table_get_record table rid) as [rc data]. destruct rc; try apply IH.
      pose proof (real_filter predicates (row_tuple table (rid, data))) as Hreal.
      destruct (filter predicates _) as [[rc|[]]|]; [| |apply IH|done].
      + split; [by intros ->|]. eexists. split; [done|]. intros _. apply vector_closable.
      + specialize (IH (Some (rid, data))). destruct (vector_rows rids0) as [k e] eqn:Ek. eexists. split_and!; [done..|].
        apply yields_result. split; [apply vector_closable|]. exact IH. }
  apply yields_result. split; [apply vector_closable|]. apply Hr.
Qed.

Lemma vector_opens search s : index.(ann_search) = Some search ->
  opens op any (Some (inr (vector_rows (search query (if 0 <? limit then limit else 100))))) s.
Proof.
  intros Hs. set (rids := search _ _). pose proof (vector_yields rids s.2) as Hy. destruct (vector_rows rids) as [k e].
  eexists. split; [cbn; unfold vector_open; by rewrite Hs|done].
Qed.
End vector_laws.

(** ** Delete *)

Section delete_laws.
Context {W : Type} (trx_delete_record : W -> RID -> list Z -> RC * W).

Definition row_record (t : Tuple) : option (RID * list Z) :=
  match t with RowTuple _ _ rid data => Some (rid, data) | _ => None end.

Lemma collect_records_ok child idle ts rc s n records : yields child idle ts (Some rc) s -> (length ts < n)%nat ->
  mapM row_record ts = Some records -> exists s', collect_records child n s = Some (Some records, s') /\
    (rc = RECORD_EOF -> closable child idle s').
Proof.
  revert s n records. induction ts as [|t ts IH]; intros s [|n] records; cbn; try lia; intros [_ Hy] Hn Hr.
  - injection Hr as <-. destruct Hy as (Hrc & s' & -> & ?). exists s'. by destruct rc.
  - destruct Hy as (s' & -> & -> & Hy). destruct t as [tn fs rid data| | | |]; try done. cbn in Hr.
    apply bind_Some in Hr as (rs' & Hr & [= <-]). destruct (IH s' n rs' Hy ltac:(lia) Hr) as (s'' & -> & ?). by exists s''.
Qed.

(** The records of the child's rows are deleted, whatever ends the scan if the child can be
    closed after it. *)
Lemma delete_open_ok fuel child idle ts rc records w : opens child idle (Some (inr (ts, Some rc))) child.(created) ->
  (length ts < fuel)%nat -> mapM row_record ts = Some records ->
  (forall s, exists r, child.(close) s = Some r) ->
  delete_open fuel trx_delete_record (Some child) w = Some (delete_records trx_delete_record w records).
Proof.
  intros (s & Ho & Hy) Hf Hr Hc. unfold delete_open. rewrite Ho.
  destruct (collect_records_ok child idle ts rc s fuel records Hy Hf Hr) as (s' & -> & _). cbn.
  destruct (Hc s') as [r ->]. done.
Qed.
End delete_laws.
