(* ===== verification/Logical.v ===== *)
(** * Logical: statements and logical plans

    [src/src/observer/sql/optimizer/logical_plan_generator.cpp] turns a resolved statement into
    a tree of logical operators ([src/src/observer/sql/operator/*_logical_operator.*]).
    [denote] says what a plan means: the stream of rows that its operators compute from the
    rows of the tables.

    Expressions are kept with their names where an operator shows them.  A table is the
    interface of [Exec]; equality of tables is never asked. *)

From stdpp Require Import strings.
From S2P Require Import Prelude Bytes Compare RecordPage MvccTrx Float32 Value Expr Tuple Exec.
#[local] Open Scope Z_scope.

(** ** Operators *)

Definition Aggregate : Type := AggType * Expression * string.

Inductive OperType :=
| CALC
| TABLE_GET (table : Table) (mode : ReadWriteMode) (predicates : list Expression)
| PREDICATE
| PROJECTION
| JOIN
| INSERT (table : Table) (values : list Value)
| DELETE (table : Table)
| EXPLAIN
| GROUP_BY (group_by_expressions : list Named) (aggregate_expressions : list Aggregate)
| ORDER_BY (order_by_asc : list bool)
| LIMIT (limit_num : Z).

(** [expressions_] and [children_] are the fields of the base class. *)
Inductive LogicalOperator := mkOper (type : OperType) (expressions : list Named) (children : list LogicalOperator).

Definition oper_type (o : LogicalOperator) : OperType := let 'mkOper ty _ _ := o in ty.
Definition oper_exprs (o : LogicalOperator) : list Named := let 'mkOper _ es _ := o in es.
Definition oper_children (o : LogicalOperator) : list LogicalOperator := let 'mkOper _ _ cs := o in cs.
Definition add_child (o c : LogicalOperator) : LogicalOperator := let 'mkOper ty es cs := o in mkOper ty es (cs ++ [c]).

Section oper_ind.
Context (P : LogicalOperator -> Prop) (Hop : forall ty es cs, Forall P cs -> P (mkOper ty es cs)).

Fixpoint oper_ind (o : LogicalOperator) : P o :=
  match o with
  | mkOper ty es cs => Hop ty es cs ((fix go cs : Forall P cs :=
      match cs with [] => Forall_nil_2 _ | c :: cs' => Forall_cons_2 _ _ _ (oper_ind c) (go cs') end) cs)
  end.
End oper_ind.

(** ** Statements *)

Inductive FilterObj := FilterAttr (table_name field_name : string) (ty : AttrType) | FilterValue (value : Value).
Record FilterUnit := mkUnit { unit_comp : CompOp; unit_left : FilterObj; unit_right : FilterObj }.
Definition FilterStmt : Type := list FilterUnit.

Record SelectStmt := mkSelect {
  sel_tables : list Table;
  sel_query_expressions : list Named;
  sel_filter_stmt : FilterStmt;
  sel_group_by : list Named;
  sel_order_by : list Expression;
  sel_order_by_asc : list bool;
  sel_limit_num : Z
}.

(** [Expression::copy]: the name of the copy is empty, which matters where [get_value] reads it. *)
Fixpoint copy (e : Expression) : Expression :=
  match e with
  | FieldExpr _ _ _ | ValueExpr _ => e
  | CastExpr c ty => CastExpr (copy c) ty
  | ComparisonExpr op l r => ComparisonExpr op (copy l) (copy r)
  | ConjunctionExpr ty cs => ConjunctionExpr ty (map copy cs)
  | ArithmeticExpr op l r => ArithmeticExpr op (copy l) (match r with Some r => Some (copy r) | None => None end)
  | AggregateExpr ty c _ => AggregateExpr ty (copy c) ""
  | FunctionExpr ty cs => FunctionExpr ty (map copy cs)
  end.

(** ** The filter *)

Section planning.
Context `{CLib}.

Definition filter_expr (obj : FilterObj) : Expression :=
  match obj with FilterAttr t f ty => FieldExpr t f ty | FilterValue v => ValueExpr v end.

Definition is_value (e : Expression) : bool := match e with ValueExpr _ => true | _ => false end.

(** A side that is cast: a value is cast at once. *)
Definition cast_side (side : Expression) (type : AttrType) : Res Expression :=
  let cast_expr := CastExpr side type in
  if is_value side then v ← try_get_value cast_expr; mret (ValueExpr v) else mret cast_expr.

Definition create_comparison (u : FilterUnit) : Res Expression :=
  let lhs := filter_expr u.(unit_left) in
  let rhs := filter_expr u.(unit_right) in
  '(lhs, rhs) ← (if decide (value_type lhs = value_type rhs) then mret (lhs, rhs)
    else
      let left_to_right_cost := implicit_cast_cost (value_type lhs) (value_type rhs) in
      let right_to_left_cost := implicit_cast_cost (value_type rhs) (value_type lhs) in
      if (left_to_right_cost <=? right_to_left_cost) && negb (left_to_right_cost =? INT32_MAX) then
        lhs' ← cast_side lhs (value_type rhs); mret (lhs', rhs)
      else if (right_to_left_cost <? left_to_right_cost) && negb (right_to_left_cost =? INT32_MAX) then
        rhs' ← cast_side rhs (value_type lhs); mret (lhs, rhs')
      else fails UNSUPPORTED : Res (Expression * Expression));
  if bool_decide (value_type lhs = VECTORS \/ value_type rhs = VECTORS) &&
     negb (bool_decide (u.(unit_comp) = EQUAL_TO \/ u.(unit_comp) = NOT_EQUAL)) then fails UNSUPPORTED
  else mret (ComparisonExpr u.(unit_comp) lhs rhs).

Fixpoint create_comparisons (units : FilterStmt) : Res (list Expression) :=
  match units with
  | [] => mret []
  | u :: units' => c ← create_comparison u; cs ← create_comparisons units'; mret (c :: cs)
  end.

(** [create_plan(FilterStmt)]; no operator for an empty filter. *)
Definition create_filter_plan (units : FilterStmt) : Res (option LogicalOperator) :=
  cmp_exprs ← create_comparisons units;
  mret (match cmp_exprs with
        | [] => None
        | _ => Some (mkOper PREDICATE [(""%string, ConjunctionExpr AND cmp_exprs)] [])
        end).

(** ** Group by *)

(** [bind_group_by_expr]: whether the position of the expression is set, that is, whether it
    equals one of the GROUP BY expressions; its children are bound as well. *)
Fixpoint bind_group_by (group_by : list Expression) (e : Expression) : option bool :=
  let bind_all := fix go cs := match cs with
    | [] => Some tt | c :: cs' => _ ← bind_group_by group_by c; go cs' end in
  let bind_children : option unit := match e with
    | FieldExpr _ _ _ | ValueExpr _ => Some tt
    | CastExpr c _ | AggregateExpr _ c _ => _ ← bind_group_by group_by c; Some tt
    | ComparisonExpr _ l r => _ ← bind_group_by group_by l; _ ← bind_group_by group_by r; Some tt
    | ConjunctionExpr _ cs | FunctionExpr _ cs => bind_all cs
    | ArithmeticExpr _ l (Some r) => _ ← bind_group_by group_by l; _ ← bind_group_by group_by r; Some tt
    | ArithmeticExpr _ l None => None
    end in
  (fix go gs (pos : bool) := match gs with
   | [] => Some pos
   | g :: gs' =>
       match e with
       | AggregateExpr _ _ _ => Some pos
       | _ => b ← equal e g; if b : bool then go gs' true else _ ← bind_children; go gs' pos
       end
   end) group_by false.

(** [find_unbound_column] *)
Fixpoint unbound_column (group_by : list Expression) (e : Expression) : option bool :=
  let any := fix go cs := match cs with
    | [] => Some false | c :: cs' => b ← unbound_column group_by c; b' ← go cs'; Some (b || b') end in
  match e with
  | AggregateExpr _ _ _ => Some false
  | _ =>
      bound ← bind_group_by group_by e;
      if bound : bool then Some false
      else match e with
           | FieldExpr _ _ _ => Some true
           | ValueExpr _ | AggregateExpr _ _ _ => Some false
           | CastExpr c _ => unbound_column group_by c
           | ComparisonExpr _ l r =>
               b ← unbound_column group_by l; b' ← unbound_column group_by r; Some (b || b')
           | ConjunctionExpr _ cs | FunctionExpr _ cs => any cs
           | ArithmeticExpr _ l (Some r) =>
               b ← unbound_column group_by l; b' ← unbound_column group_by r; Some (b || b')
           | ArithmeticExpr _ l None => None
           end
  end.

(** [collector]: the aggregates of an expression, from the outside in. *)
Fixpoint collect_aggregates (e : Expression) : list Aggregate :=
  match e with
  | FieldExpr _ _ _ | ValueExpr _ => []
  | CastExpr c _ => collect_aggregates c
  | ComparisonExpr _ l r => collect_aggregates l ++ collect_aggregates r
  | ConjunctionExpr _ cs | FunctionExpr _ cs => concat (map collect_aggregates cs)
  | ArithmeticExpr _ l r => collect_aggregates l ++ match r with Some r => collect_aggregates r | None => [] end
  | AggregateExpr ty c name => (ty, c, name) :: collect_aggregates c
  end.

Fixpoint any_unbound (group_by : list Expression) (es : list Named) : option bool :=
  match es with
  | [] => Some false
  | e :: es' => b ← unbound_column group_by e.2; b' ← any_unbound group_by es'; Some (b || b')
  end.

Definition create_group_by_plan (stmt : SelectStmt) : Res (option LogicalOperator) :=
  match any_unbound stmt.(sel_group_by).*2 stmt.(sel_query_expressions) with
  | None => stops
  | Some found_unbound_column =>
      let aggregate_expressions := concat (map (fun e => collect_aggregates e.2) stmt.(sel_query_expressions)) in
      match stmt.(sel_group_by), aggregate_expressions with
      | [], [] => mret None
      | _, _ =>
          if found_unbound_column then fails INVALID_ARGUMENT
          else mret (Some (mkOper (GROUP_BY stmt.(sel_group_by) aggregate_expressions) [] []))
      end
  end.

(** ** Statements to plans *)

Definition table_get (mode : ReadWriteMode) (t : Table) : LogicalOperator := mkOper (TABLE_GET t mode []) [] [].

(** The loop over the tables of FROM. *)
Definition table_plan (tables : list Table) : option LogicalOperator :=
  fold_left (fun table_oper t =>
    match table_oper with
    | None => Some (table_get READ_ONLY t)
    | Some o => Some (mkOper JOIN [] [o; table_get READ_ONLY t])
    end) tables None.

(** [oper->add_child] of the plan so far, if there is one. *)
Definition put_over (oper : LogicalOperator) (last : option LogicalOperator) : LogicalOperator :=
  match last with Some o => add_child oper o | None => oper end.

Definition put_optional (oper last : option LogicalOperator) : option LogicalOperator :=
  match oper with Some o => Some (put_over o last) | None => last end.

Definition create_select_plan (stmt : SelectStmt) : Res LogicalOperator :=
  predicate_oper ← create_filter_plan stmt.(sel_filter_stmt);
  let last := put_optional predicate_oper (table_plan stmt.(sel_tables)) in
  group_by_oper ← create_group_by_plan stmt;
  let last := put_optional group_by_oper last in
  let order_by_oper :=
    if bool_decide (stmt.(sel_order_by) = []) then None
    else Some (mkOper (ORDER_BY stmt.(sel_order_by_asc)) ((fun e => (""%string, copy e)) <$> stmt.(sel_order_by)) []) in
  let last := put_optional order_by_oper last in
  let limit_oper := if 0 <=? stmt.(sel_limit_num) then Some (mkOper (LIMIT stmt.(sel_limit_num)) [] []) else None in
  let last := put_optional limit_oper last in
  mret (put_over (mkOper PROJECTION stmt.(sel_query_expressions) []) last).

Definition create_delete_plan (table : Table) (filter : FilterStmt) : Res LogicalOperator :=
  let table_get_oper := table_get READ_WRITE table in
  predicate_oper ← create_filter_plan filter;
  mret (add_child (mkOper (DELETE table) [] [])
    (match predicate_oper with Some p => add_child p table_get_oper | None => table_get_oper end)).

(** [LogicalPlanGenerator::create] *)
Inductive Stmt :=
| CalcStmt (expressions : list Named)
| Select (stmt : SelectStmt)
| InsertStmt (table : Table) (values : list Value)
| DeleteStmt (table : Table) (filter : FilterStmt)
| ExplainStmt (child : Stmt)
| OtherStmt.

Fixpoint create_logical (stmt : Stmt) : Res LogicalOperator :=
  match stmt with
  | CalcStmt es => mret (mkOper CALC es [])
  | Select s => create_select_plan s
  | InsertStmt t vs => mret (mkOper (INSERT t vs) [] [])
  | DeleteStmt t f => create_delete_plan t f
  | ExplainStmt child => child_oper ← create_logical child; mret (mkOper EXPLAIN [] [child_oper])
  | OtherStmt => fails UNIMPLEMENTED
  end.
End planning.

(** ** Meaning of a plan *)

Section denote.
Context `{CLib} `{StdSort} (table_rows : Table -> ReadWriteMode -> list (RID * list Z) * RC).

(** The right child of a join is opened only for a left row. *)
Definition join_run (rl rr : Run) : Run :=
  bind_run rl (fun ls el =>
    match ls, rr with
    | [], _ => Some (inr ([], el))
    | _, Some (inr (rs, er)) => Some (inr (join_rows ls el rs er))
    | _, Some (inl rc) => Some (inr ([], Some rc))
    | _, None => Some (inr ([], None))
    end).

Definition empty_run : Run := Some (inr ([], Some RECORD_EOF)).

Fixpoint denote (o : LogicalOperator) : Run :=
  match o with
  | mkOper (TABLE_GET t mode predicates) _ _ =>
      let '(rows, e) := table_rows t mode in
      Some (inr (filter_rows (filter predicates) (row_tuple t <$> rows) (Some e)))
  | mkOper PREDICATE [(_, e)] [c] =>
      if decide (value_type e = BOOLEANS) then
        bind_run (denote c) (fun ts e' => Some (inr (filter_rows (holds e) ts e')))
      else None
  | mkOper PROJECTION es (c :: _) => bind_run (denote c) (fun ts e => Some (inr (project_rows es ts, e)))
  | mkOper PROJECTION _ [] => empty_run
  | mkOper JOIN _ [l; r] => join_run (denote l) (denote r)
  | mkOper (ORDER_BY asc) es (c :: _) => sort_run (copy <$> es.*2) asc (denote c)
  | mkOper (ORDER_BY _) _ [] => empty_run
  | mkOper (LIMIT n) _ (c :: _) => bind_run (denote c) (fun ts e => Some (inr (limit_rows n ts e)))
  | mkOper (LIMIT _) _ [] => Some (inl INVALID_ARGUMENT)
  | mkOper (GROUP_BY [] aggs) _ [c] => scalar_run aggs (denote c)
  | mkOper (GROUP_BY by_ aggs) _ [c] => hash_run aggs by_ (denote c)
  | _ => None
  end.
End denote.

(** ** Filters evaluate without errors *)

Section filters.
Context `{CLib} (find : TupleCellSpec -> Res Value).

(** The side of a comparison has a value, of the type computed for it. *)
Definition side_ok (e : Expression) : Prop := exists v, get_value find e = mret v /\ attr_type v = value_type e.

Definition attr_found (obj : FilterObj) : Prop :=
  match obj with
  | FilterAttr t f ty => exists v, find (field_spec t f) = mret v /\ attr_type v = ty
  | FilterValue _ => True
  end.

Lemma filter_expr_ok obj : attr_found obj -> side_ok (filter_expr obj).
Proof. destruct obj as [t f ty|v]; cbn; [done|]. by eexists. Qed.

(** Only from INTS to FLOATS is there a cast between different types. *)
Lemma cast_cost_finite from to : from <> to -> implicit_cast_cost from to <> INT32_MAX -> from = INTS /\ to = FLOATS.
Proof.
  unfold implicit_cast_cost, cast_cost. intros Hne. rewrite decide_False by done.
  destruct from; repeat case_decide; simplify_eq; done.
Qed.

Lemma cast_side_ok side e : side_ok side -> value_type side = INTS -> cast_side side FLOATS = mret e ->
  side_ok e /\ value_type e = FLOATS.
Proof.
  intros (v & Hv & Hty) Hint. rewrite Hint in Hty. unfold cast_side. destruct (is_value side) eqn:Hval.
  - destruct side; try done. intros (v' & Hc & [= <-])%Res_bind_inr. cbn in Hc.
    pose proof (has_type_cast value FLOATS) as Ht. rewrite Hc in Ht. cbn in Ht. split; [by eexists|done].
  - intros [= <-]. split; [|done]. exists (VFloat (float_of_int (get_int v))). cbn. rewrite Hv. cbn.
    destruct v; try done.
Qed.

Lemma compare_same_type l r : attr_type l = attr_type r -> is_Some (compare_val l r).
Proof. destruct l, r; cbn; try done; by eexists. Qed.

Lemma compare_value_same op l r : op <> NO_OP -> attr_type l = attr_type r -> exists b, compare_value op l r = mret b.
Proof.
  intros Hop [c Hc]%compare_same_type. unfold compare_value. rewrite Hc. destruct op; [by eexists..|done].
Qed.

Lemma create_comparison_sides u e : attr_found u.(unit_left) -> attr_found u.(unit_right) ->
  create_comparison u = mret e ->
  exists l r, e = ComparisonExpr u.(unit_comp) l r /\ side_ok l /\ side_ok r /\ value_type l = value_type r.
Proof.
  intros Hl%filter_expr_ok Hr%filter_expr_ok. unfold create_comparison.
  set (lhs := filter_expr _) in *. set (rhs := filter_expr _) in *.
  intros ([l r] & Hcast & Hend)%Res_bind_inr.
  assert (Hok : side_ok l /\ side_ok r /\ value_type l = value_type r).
  { case_decide as Hty; [by injection Hcast as <- <-|].
    destruct (_ && _) eqn:Hc1; [|destruct ((_ <? _) && _) eqn:Hc2; [|done]].
    - apply andb_true_iff in Hc1 as [_ Hc1%negb_true_iff%Z.eqb_neq].
      destruct (cast_cost_finite _ _ Hty Hc1) as [Hi Hf]. apply Res_bind_inr in Hcast as (l' & Hcast & [= <- <-]).
      rewrite Hf in Hcast |- *. by destruct (cast_side_ok _ _ Hl Hi Hcast).
    - apply andb_true_iff in Hc2 as [_ Hc2%negb_true_iff%Z.eqb_neq].
      destruct (cast_cost_finite _ _ (not_eq_sym Hty) Hc2) as [Hi Hf]. apply Res_bind_inr in Hcast as (r' & Hcast & [= <- <-]).
      rewrite Hf in Hcast |- *. by destruct (cast_side_ok _ _ Hr Hi Hcast). }
  destruct (_ && _) in Hend; [done|]. injection Hend as <-. naive_solver.
Qed.

Lemma create_comparison_total u e : u.(unit_comp) <> NO_OP -> attr_found u.(unit_left) -> attr_found u.(unit_right) ->
  create_comparison u = mret e -> exists b, get_value find e = mret (VBool b).
Proof.
  intros Hop Hl Hr He. destruct (create_comparison_sides u e Hl Hr He) as (l & r & -> & (vl & Hvl & Htl) & (vr & Hvr & Htr) & Hty).
  cbn. rewrite Hvl, Hvr, !Res_bind_ret. destruct (compare_value_same u.(unit_comp) vl vr Hop) as [b ->]; [congruence|].
  by exists b.
Qed.
End filters.

(** The units of a filter whose columns are fields of the rows. *)
Definition unit_in_schema (s : Schema) (u : FilterUnit) : Prop :=
  let in_schema obj := match obj with
    | FilterAttr t f ty => schema_type s (field_spec t f) = Some ty | FilterValue _ => True end in
  u.(unit_comp) <> NO_OP /\ in_schema u.(unit_left) /\ in_schema u.(unit_right).

Lemma attr_found_schema `{CLib} t obj : row_shaped t ->
  match obj with FilterAttr tn f ty => schema_type (schema_of t) (field_spec tn f) = Some ty | FilterValue _ => True end ->
  attr_found (find_cell t) obj.
Proof.
  intros Ht. destruct obj as [tn f ty|v]; [|done]. intros Hs. cbn.
  pose proof (find_cell_schema t (field_spec tn f) Ht) as Hf. by rewrite Hs in Hf.
Qed.

Lemma create_comparisons_total `{CLib} units es t : row_shaped t -> Forall (unit_in_schema (schema_of t)) units ->
  create_comparisons units = mret es -> Forall (fun e => exists b, get_value (find_cell t) e = mret (VBool b)) es.
Proof.
  intros Ht Hu. revert es. induction Hu as [|u units (Hop & Hl & Hr) _ IH]; cbn.
  - intros es [= <-]. constructor.
  - intros es (e & He & (es' & Hes & [= <-])%Res_bind_inr)%Res_bind_inr. constructor; [|by apply IH].
    eapply create_comparison_total; eauto using attr_found_schema.
Qed.

Lemma conj_total `{CLib} find es : Forall (fun e => exists b, get_value find e = mret (VBool b)) es ->
  exists b, get_value find (ConjunctionExpr AND es) = mret (VBool b).
Proof.
  intros Hes. cbn. case_bool_decide; [by exists true|]. clear H0. induction Hes as [|e es [b Hb] _ IH]; cbn; [by exists true|].
  rewrite Hb. cbn. destruct b; cbn; [done|by exists false].
Qed.

(** Planning a WHERE clause makes its evaluation safe.  If the columns it names are fields of
    the rows with the types the planner was told, then whenever the planner accepts the
    clause, casting INTS to FLOATS where the types differ, its predicate evaluates on every row
    to a boolean: no error code, no failed assertion. *)
Theorem planned_filter_total `{CLib} units o t : row_shaped t -> Forall (unit_in_schema (schema_of t)) units ->
  create_filter_plan units = mret (Some o) ->
  exists e b, o = mkOper PREDICATE [(""%string, e)] [] /\ get_value (find_cell t) e = mret (VBool b).
Proof.
  intros Ht Hu (es & Hes & Ho)%Res_bind_inr. pose proof (create_comparisons_total units es t Ht Hu Hes) as Hall.
  destruct (conj_total _ _ Hall) as [b Hb]. destruct es as [|e es]; [done|]. injection Ho as <-. by do 2 eexists.
Qed.

Lemma planned_filter_total_witness : let _ := demo_clib in
  let row := RowTuple "t" [mkField "a" INTS 0 4] (mkRID 1 0) [7; 0; 0; 0] in
  let units := [mkUnit LESS_THAN (FilterAttr "t" "a" INTS) (FilterValue (VFloat (float_of_int 8)))] in
  let e := ConjunctionExpr AND [ComparisonExpr LESS_THAN (CastExpr (FieldExpr "t" "a" INTS) FLOATS) (ValueExpr (VFloat (float_of_int 8)))] in
  create_filter_plan units = mret (Some (mkOper PREDICATE [(""%string, e)] [])) /\
  exists e' b, mkOper PREDICATE [(""%string, e)] [] = mkOper PREDICATE [(""%string, e')] [] /\ get_value (find_cell row) e' = mret (VBool b).
Proof.
  intros H row units e. split; [reflexivity|]. refine (planned_filter_total units _ row _ _ _); [discriminate| |reflexivity].
  constructor; [|constructor]. split; [discriminate|]. split; [reflexivity|exact I].
Defined.
