(* ===== verification/Rewrite.v ===== *)
(** * Rewrite: the rule-based optimizer

    [src/src/observer/sql/optimizer/]: [ComparisonSimplificationRule] and
    [ConjunctionSimplificationRule] on expressions ([expression_rewriter.cpp]), then
    [PredicateRewriteRule] and [PredicatePushdownRewriter] on operators ([rewriter.cpp]), until
    a pass changes nothing ([OptimizeStage::rewrite]).

    The rules change the plan in place; here they return the new plan.  A tree that a rule
    makes is not a subtree of the one it was given, so the two recursions take fuel, at least
    the size of the tree.

    The theorems: the loop ends; it keeps the meaning of every plan whose filter has no
    constantly false comparison behind one that is not constant; and on such a filter it drops
    the false comparison. *)

From stdpp Require Import strings.
From S2P Require Import Prelude Bytes Compare RecordPage MvccTrx Float32 Value Expr Tuple Exec ExecLaws Logical.
#[local] Open Scope Z_scope.

(** A loop that rewrites the elements of a vector and reports whether one changed. *)
Definition rewrite_list {A} (f : A -> option (A * bool)) : list A -> option (list A * bool) :=
  fix go l := match l with
  | [] => Some ([], false)
  | x :: l' => '(x', b) ← f x; '(l'', b') ← go l'; Some (x' :: l'', b || b')
  end.

Definition rewrite_list_res {A} (f : A -> Res (A * bool)) : list A -> Res (list A * bool) :=
  fix go l := match l with
  | [] => mret ([], false)
  | x :: l' => '(x', b) ← f x; '(l'', b') ← go l'; mret (x' :: l'', b || b')
  end.

Section rules.
Context `{CLib}.

(** ** Expressions *)

(** [ComparisonSimplificationRule::rewrite] *)
Definition comparison_rule (e : Expression) : option (Expression * bool) :=
  match e with
  | ComparisonExpr _ _ _ =>
      match try_get_value e with
      | None => None
      | Some (inl _) => Some (e, false)
      | Some (inr value) => Some (ValueExpr value, true)
      end
  | _ => Some (e, false)
  end.

(** [try_to_get_bool_constant] *)
Definition bool_constant (e : Expression) : option bool :=
  match e with ValueExpr v => if decide (attr_type v = BOOLEANS) then Some (get_boolean v) else None | _ => None end.

(** The loop of [ConjunctionSimplificationRule::rewrite]: the children that are left before
    the iterator and from it on.  [inl] is the return with the first child. *)
Fixpoint conj_scan (ty : ConjType) (before children : list Expression) : Expression + list Expression :=
  match children with
  | [] => inr before
  | c :: rest =>
      match bool_constant c with
      | None => conj_scan ty (before ++ [c]) rest
      | Some constant_value =>
          if bool_decide (ty = AND) then
            if constant_value then conj_scan ty before rest else inl (default c (head before))
          else
            if constant_value then inl (default c (head before)) else conj_scan ty before rest
      end
  end.

(** The new expression, [change_made], and whether it took the place of the old one. *)
Definition conjunction_rule (e : Expression) : Expression * bool * bool :=
  match e with
  | ConjunctionExpr ty children =>
      match conj_scan ty [] children with
      | inl child => (child, false, true)
      | inr [child] => (child, true, true)
      | inr children' => (ConjunctionExpr ty children', false, false)
      end
  | _ => (e, false, false)
  end.

(** The rules of [rewrite_expression], in order. *)
Definition apply_rules (e : Expression) : option (Expression * bool * bool) :=
  match comparison_rule e with
  | None => None
  | Some (e1, change1) =>
      let '(e2, change2, replaced) := conjunction_rule e1 in Some (e2, change1 || change2, change1 || replaced)
  end.

(** [rewrite_expression] *)
Fixpoint rewrite_expression (n : nat) (e : Expression) : option (Expression * bool) :=
  match n with
  | O => None
  | S n' =>
      '(e, change_made, _) ← apply_rules e;
      if change_made : bool then Some (e, true)
      else
        match e with
        | CastExpr child ty => '(child', b) ← rewrite_expression n' child; Some (CastExpr child' ty, b)
        | ComparisonExpr op l r =>
            '(l', b) ← rewrite_expression n' l; '(r', b') ← rewrite_expression n' r;
            Some (ComparisonExpr op l' r', b || b')
        | ConjunctionExpr ty cs => '(cs', b) ← rewrite_list (rewrite_expression n') cs; Some (ConjunctionExpr ty cs', b)
        | FunctionExpr ty cs => '(cs', b) ← rewrite_list (rewrite_expression n') cs; Some (FunctionExpr ty cs', b)
        | FieldExpr _ _ _ | ValueExpr _ | ArithmeticExpr _ _ _ | AggregateExpr _ _ _ => Some (e, false)
        end
  end.

Fixpoint expr_size (e : Expression) : nat :=
  match e with
  | FieldExpr _ _ _ | ValueExpr _ => 1
  | CastExpr c _ | AggregateExpr _ c _ => S (expr_size c)
  | ComparisonExpr _ l r => S (expr_size l + expr_size r)
  | ConjunctionExpr _ cs | FunctionExpr _ cs => S (list_sum (map expr_size cs))
  | ArithmeticExpr _ l r => S (expr_size l + match r with Some r => expr_size r | None => O end)
  end.

(** An expression of an operator.  An expression that replaces it comes without its name. *)
Definition rewrite_named (e : Named) : option (Named * bool) :=
  '(e', b) ← rewrite_expression (expr_size e.2) e.2;
  '(_, _, replaced) ← apply_rules e.2;
  Some (((if replaced : bool then ""%string else e.1), e'), b).

Definition rewrite_nameds (es : list Named) : option (list Named * bool) := rewrite_list rewrite_named es.

(** [ExpressionRewriter::rewrite] *)
Fixpoint expression_rewriter (o : LogicalOperator) : option (LogicalOperator * bool) :=
  match o with
  | mkOper ty es cs =>
      '(es', b) ← rewrite_nameds es;
      '(cs', b') ← rewrite_list expression_rewriter cs;
      Some (mkOper ty es' cs', b || b')
  end.

(** ** Operators *)

(** [PredicateRewriteRule::rewrite] *)
Definition predicate_rewrite (o : LogicalOperator) : LogicalOperator * bool :=
  match o with
  | mkOper ty es [mkOper PREDICATE [(_, ValueExpr v)] grand_children] =>
      if get_boolean v then (mkOper ty es grand_children, true) else (mkOper ty es [], true)
  | _ => (o, false)
  end.

(** [get_exprs_can_pushdown]: what is left of the expression and what is pushed down. *)
Fixpoint exprs_can_pushdown (e : Expression) : RC + (option Expression * list Expression) :=
  match e with
  | ConjunctionExpr OR _ => inl UNIMPLEMENTED
  | ConjunctionExpr AND cs =>
      match (fix go cs := match cs with
        | [] => inr ([], [])
        | c :: cs' =>
            match exprs_can_pushdown c with
            | inl rc => inl rc
            | inr (left_over, pushed) =>
                match go cs' with
                | inl rc => inl rc
                | inr (kept, pushed') => inr (match left_over with Some c' => c' :: kept | None => kept end, pushed ++ pushed')
                end
            end
        end) cs with
      | inl rc => inl rc
      | inr (kept, pushed) => inr (Some (ConjunctionExpr AND kept), pushed)
      end
  | ComparisonExpr _ _ _ => inr (None, [e])
  | _ => inr (Some e, [])
  end.

Definition is_empty_predicate (e : option Expression) : bool :=
  match e with None | Some (ConjunctionExpr _ []) => true | _ => false end.

(** The predicate that stays: a constant if nothing is left of it. *)
Definition left_predicate (name : string) (left_over : option Expression) : Named :=
  match left_over with
  | Some e => if is_empty_predicate left_over then (""%string, ValueExpr (VBool true)) else (name, e)
  | None => (""%string, ValueExpr (VBool true))
  end.

(** [PredicatePushdownRewriter::rewrite] *)
Definition predicate_pushdown (o : LogicalOperator) : RC + (LogicalOperator * bool) :=
  match o with
  | mkOper PREDICATE [(name, e)] [mkOper (TABLE_GET t mode preds) es cs] =>
      match exprs_can_pushdown e with
      | inl rc => inl rc
      | inr (left_over, pushed) =>
          let preds' := if bool_decide (pushed = []) then preds else pushed in
          inr (mkOper PREDICATE [left_predicate name left_over] [mkOper (TABLE_GET t mode preds') es cs], negb (bool_decide (pushed = [])))
      end
  | _ => inr (o, false)
  end.

(** [Rewriter::rewrite]: the three rules on the operator, then its children. *)
Fixpoint rewrite_oper (n : nat) (o : LogicalOperator) : Res (LogicalOperator * bool) :=
  match n with
  | O => stops
  | S n' =>
      match expression_rewriter o with
      | None => stops
      | Some (o1, b1) =>
          let '(o2, b2) := predicate_rewrite o1 in
          match predicate_pushdown o2 with
          | inl rc => fails rc
          | inr (mkOper ty es cs, b3) =>
              '(cs', b4) ← rewrite_list_res (rewrite_oper n') cs;
              mret (mkOper ty es cs', b1 || b2 || b3 || b4)
          end
      end
  end.

Fixpoint oper_size (o : LogicalOperator) : nat :=
  match o with mkOper _ _ cs => S (list_sum (map oper_size cs)) end.

(** [OptimizeStage::rewrite]: passes until one changes nothing.  [None]: the passes are used up. *)
Fixpoint rewrite_loop (passes : nat) (o : LogicalOperator) : option (Res LogicalOperator) :=
  match passes with
  | O => None
  | S passes' =>
      match rewrite_oper (oper_size o) o with
      | None => Some stops
      | Some (inl rc) => Some (fails rc)
      | Some (inr (o', true)) => rewrite_loop passes' o'
      | Some (inr (o', false)) => Some (mret o')
      end
  end.
End rules.

(** ** The loop ends *)

(** Operators and the expressions in them, predicates pushed into a scan not counted. *)
Definition nameds_size (es : list Named) : nat := list_sum (map (fun e : Named => expr_size e.2) es).

Fixpoint plan_size (o : LogicalOperator) : nat :=
  match o with mkOper _ es cs => S (nameds_size es + list_sum (map plan_size cs)) end.

(** A step from size [m] to size [m'] that reports a change as [b]. *)
Definition shrinks (m m' : nat) (b : bool) : Prop := (m' <= m)%nat /\ (b = true -> m' < m)%nat.

Lemma list_sum_cons x l : list_sum (x :: l) = (x + list_sum l)%nat.
Proof. done. Qed.

Section termination.
Context `{CLib}.

Lemma conj_scan_size ty before cs : match conj_scan ty before cs with
  | inl c => (expr_size c <= list_sum (map expr_size (before ++ cs)))%nat
  | inr cs' => (list_sum (map expr_size cs') <= list_sum (map expr_size (before ++ cs)))%nat
  end.
Proof.
  assert (Hhead : forall c rest, (expr_size (default c (head before)) <= list_sum (map expr_size (before ++ c :: rest)))%nat).
  { intros c rest. destruct before; cbn; lia. }
  revert before Hhead. induction cs as [|c cs IH]; intros before Hhead; cbn; [by rewrite app_nil_r|].
  assert (Happ : list_sum (map expr_size (before ++ c :: cs)) = (list_sum (map expr_size (before ++ cs)) + expr_size c)%nat).
  { rewrite !map_app, !list_sum_app. cbn [map]. rewrite list_sum_cons. lia. }
  assert (Hskip : match conj_scan ty before cs with
    | inl c' => (expr_size c' <= list_sum (map expr_size (before ++ c :: cs)))%nat
    | inr cs' => (list_sum (map expr_size cs') <= list_sum (map expr_size (before ++ c :: cs)))%nat end).
  { specialize (IH before Hhead). destruct (conj_scan ty before cs); lia. }
  destruct (bool_constant c) as [b|].
  - destruct (bool_decide (ty = AND)), b; try done; apply Hhead.
  - specialize (IH (before ++ [c])). rewrite <- app_assoc in IH. apply IH. intros c' rest. destruct before; cbn; lia.
Qed.

Lemma expr_size_pos e : (1 <= expr_size e)%nat.
Proof. destruct e; cbn; lia. Qed.

Lemma apply_rules_size e e' b rep : apply_rules e = Some (e', b, rep) -> shrinks (expr_size e) (expr_size e') b.
Proof.
  unfold apply_rules. destruct (comparison_rule e) as [[e1 b1]|] eqn:E1; [|done].
  assert (H1 : shrinks (expr_size e) (expr_size e1) b1).
  { destruct e as [t f ty|v|c ty|op l r|ty cs|op l r|ty c n|ty cs]; try (injection E1 as <- <-; split; [lia|done]).
    unfold comparison_rule in E1. pose proof (expr_size_pos l). pose proof (expr_size_pos r).
    destruct (try_get_value _) as [[rc|v]|]; [..|done]; injection E1 as <- <-; split; cbn; try done; lia. }
  destruct (conjunction_rule e1) as [[e2 b2] r2] eqn:E2. intros [= <- <- <-].
  assert (H2 : shrinks (expr_size e1) (expr_size e2) b2).
  { destruct e1; try (injection E2 as <- <- <-; split; [lia|done]). unfold conjunction_rule in E2.
    pose proof (conj_scan_size conjunction_type [] children) as Hc. cbn [app] in Hc. cbn [expr_size].
    destruct (conj_scan conjunction_type [] children) as [c|[|c [|c' cs']]]; injection E2 as <- <- <-;
      split; cbn [expr_size map] in *; rewrite ?list_sum_cons in *; try done; lia. }
  destruct H1, H2. split; [lia|]. destruct b1, b2; cbn; intros; try done; intuition lia.
Qed.

Lemma shrinks_refl m : shrinks m m false.
Proof. split; [lia|done]. Qed.

Lemma shrinks_trans m1 m2 m3 b b' : shrinks m1 m2 b -> shrinks m2 m3 b' -> shrinks m1 m3 (b || b').
Proof. intros [] []. split; [lia|]. destruct b, b'; cbn; intros; try done; intuition lia. Qed.

Lemma shrinks_add a a' c c' b b' : shrinks a a' b -> shrinks c c' b' -> shrinks (a + c) (a' + c') (b || b').
Proof. intros [] []. split; [lia|]. destruct b, b'; cbn; intros; try done; intuition lia. Qed.

Lemma shrinks_S m m' b : shrinks m m' b -> shrinks (S m) (S m') b.
Proof. intros []. split; [lia|]. intros. intuition lia. Qed.
Hint Resolve shrinks_refl shrinks_add shrinks_S : shrinks.

Lemma rewrite_list_size {A} (size : A -> nat) (f : A -> option (A * bool)) l l' b :
  Forall (fun x => forall x' b, f x = Some (x', b) -> shrinks (size x) (size x') b) l ->
  rewrite_list f l = Some (l', b) -> shrinks (list_sum (map size l)) (list_sum (map size l')) b.
Proof.
  intros Hf. revert l' b. induction Hf as [|x l Hx _ IH]; intros l' b; [intros [= <- <-]; auto with shrinks|].
  intros ([x' b1] & Hx' & ([l'' b2] & Hl & [= <- <-])%bind_Some)%bind_Some. cbn [map]. rewrite !list_sum_cons.
  apply shrinks_add; [by apply Hx|by apply IH].
Qed.

Lemma rewrite_expression_size n e e' b : rewrite_expression n e = Some (e', b) -> shrinks (expr_size e) (expr_size e') b.
Proof.
  revert e e' b. induction n as [|n IH]; intros e e' b; [done|]. cbn [rewrite_expression].
  destruct (apply_rules e) as [[[e1 b1] rep]|] eqn:E1; [|done]. apply apply_rules_size in E1. cbn.
  destruct b1; [by intros [= <- <-]|]. intros He'. eapply (shrinks_trans _ _ _ false); [done|]. clear E1.
  destruct e1 as [t f ty|v|c ty|op l r|ty cs|op l r|ty c nm|ty cs]; try (injection He' as <- <-; auto with shrinks).
  - apply bind_Some in He' as ([c' b1] & Hc & [= <- <-]). apply shrinks_S. by apply IH.
  - apply bind_Some in He' as ([l' b1] & Hl & ([r' b2] & Hr & [= <- <-])%bind_Some). apply shrinks_S, shrinks_add; by apply IH.
  - apply bind_Some in He' as ([cs' b1] & Hc & [= <- <-]). apply shrinks_S. eapply rewrite_list_size; [|done]. apply Forall_true. intros. by apply IH.
  - apply bind_Some in He' as ([cs' b1] & Hc & [= <- <-]). apply shrinks_S. eapply rewrite_list_size; [|done]. apply Forall_true. intros. by apply IH.
Qed.

Lemma rewrite_nameds_size es es' b : rewrite_nameds es = Some (es', b) -> shrinks (nameds_size es) (nameds_size es') b.
Proof.
  apply (rewrite_list_size (fun e : Named => expr_size e.2)), Forall_true. intros e e' b1 He. apply bind_Some in He as ([e1 b3] & He & ([[? ?] rep] & _ & [= <- <-])%bind_Some).
  by eapply rewrite_expression_size.
Qed.

Lemma expression_rewriter_size o o' b : expression_rewriter o = Some (o', b) -> shrinks (plan_size o) (plan_size o') b.
Proof.
  revert o' b. induction o as [ty es cs IH] using oper_ind. intros o' b. cbn [expression_rewriter].
  intros ([es' b1] & Hes%rewrite_nameds_size & ([cs' b2] & Hcs & [= <- <-])%bind_Some)%bind_Some.
  apply shrinks_S, shrinks_add; [done|]. by eapply rewrite_list_size.
Qed.

Lemma predicate_rewrite_size o o' b : predicate_rewrite o = (o', b) -> shrinks (plan_size o) (plan_size o') b.
Proof.
  destruct o as [ty es [|[[] [|[nm []] [|? ?]] gcs] [|? ?]]]; cbn [predicate_rewrite]; try (intros [= <- <-]; auto with shrinks).
  destruct (get_boolean value); intros [= <- <-]; cbn [plan_size map]; unfold nameds_size; cbn [map];
    rewrite ?list_sum_cons; cbn; split; intros; lia.
Qed.

Lemma pushdown_size e kept pushed : exprs_can_pushdown e = inr (kept, pushed) ->
  shrinks (expr_size e) (match kept with Some e' => expr_size e' | None => 1 end) (negb (bool_decide (pushed = []))).
Proof.
  revert kept pushed. induction e as [t f ty|v|c ty IH|op l r IHl IHr|ty cs IH|op l r IHl IHr|ty c n IH|ty cs IH]
    using expression_ind; intros kept pushed; cbn [exprs_can_pushdown]; try (intros [= <- <-]; apply shrinks_refl).
  - intros [= <- <-]. pose proof (expr_size_pos l). pose proof (expr_size_pos r). split; cbn; lia.
  - destruct ty; [|done].
    set (go := fix go cs := match cs with [] => inr ([], []) | c :: cs' => _ end).
    assert (Hgo : forall kept pushed, go cs = inr (kept, pushed) ->
      shrinks (list_sum (map expr_size cs)) (list_sum (map expr_size kept)) (negb (bool_decide (pushed = [])))).
    { clear kept pushed. induction IH as [|c cs Hc _ IHcs]; intros kept pushed; cbn [go].
      - intros [= <- <-]. apply shrinks_refl.
      - fold go. destruct (exprs_can_pushdown c) as [|[lo ps]]; [done|]. destruct (go cs) as [|[kept' ps']]; [done|].
        intros [= <- <-]. specialize (Hc lo ps eq_refl). specialize (IHcs kept' ps' eq_refl). cbn [map].
        assert (Hb : negb (bool_decide (ps ++ ps' = [])) = negb (bool_decide (ps = [])) || negb (bool_decide (ps' = []))).
        { destruct ps, ps'; done. }
        rewrite Hb. rewrite list_sum_cons. destruct lo as [c'|]; [rewrite ?map_cons, ?list_sum_cons; by apply shrinks_add|].
        destruct Hc as [Hc1 Hc2], IHcs as [H1 H2]. split; [lia|]. intros _. pose proof (expr_size_pos c). lia. }
    destruct (go cs) as [|[kept' ps]]; [done|]. intros [= <- <-]. apply shrinks_S. by apply Hgo.
Qed.

Lemma predicate_pushdown_size o o' b : predicate_pushdown o = inr (o', b) -> shrinks (plan_size o) (plan_size o') b.
Proof.
  destruct o as [[] [|[nm e] [|? ?]] [|[[] es' cs'] [|? ?]]]; cbn [predicate_pushdown]; try (intros [= <- <-]; apply shrinks_refl).
  destruct (exprs_can_pushdown e) as [|[kept pushed]] eqn:E; [done|]. apply pushdown_size in E. intros [= <- <-].
  assert (He : (expr_size (left_predicate nm kept).2 <= match kept with Some e0 => expr_size e0 | None => 1 end)%nat).
  { unfold left_predicate. destruct kept as [e0|]; [|done]. pose proof (expr_size_pos e0). by destruct (is_empty_predicate _). }
  destruct E as [E1 E2]. cbn [plan_size map]. unfold nameds_size. cbn [map]. rewrite !list_sum_cons.
  change (list_sum []) with O. cbn [snd]. split; [lia|]. intros Hb. specialize (E2 Hb). lia.
Qed.

Lemma rewrite_oper_size n o o' b : rewrite_oper n o = mret (o', b) -> shrinks (plan_size o) (plan_size o') b.
Proof.
  revert o o' b. induction n as [|n IH]; intros o o' b; [done|]. cbn [rewrite_oper].
  destruct (expression_rewriter o) as [[o1 b1]|] eqn:E1; [|done]. apply expression_rewriter_size in E1.
  destruct (predicate_rewrite o1) as [o2 b2] eqn:E2. apply predicate_rewrite_size in E2.
  destruct (predicate_pushdown o2) as [|[[ty es cs] b3]] eqn:E3; [done|]. apply predicate_pushdown_size in E3.
  intros ([cs' b4] & Hcs & [= <- <-])%Res_bind_inr.
  eapply shrinks_trans; [eapply shrinks_trans; [eapply shrinks_trans|]|]; [done..|].
  apply shrinks_S. eapply (shrinks_add _ _ _ _ false); [apply shrinks_refl|]. clear - IH Hcs.
  revert cs' b4 Hcs. induction cs as [|c cs IHcs]; intros cs' b4.
  - intros [= <- <-]. apply shrinks_refl.
  - intros ([c' b5] & Hc & ([cs'' b6] & Hcs & [= <- <-])%Res_bind_inr)%Res_bind_inr. cbn [map]. rewrite !list_sum_cons.
    apply shrinks_add; [by eapply IH|by apply IHcs].
Qed.

(** More passes than the loop needs change nothing. *)
Lemma rewrite_loop_more n m o r : (n <= m)%nat -> rewrite_loop n o = Some r -> rewrite_loop m o = Some r.
Proof.
  revert m o. induction n as [|n IH]; intros [|m] o Hnm; cbn [rewrite_loop]; try done; [lia|].
  destruct (rewrite_oper _ o) as [[rc|[o' []]]|]; try done. apply IH. lia.
Qed.

Lemma rewrite_loop_ends n o : (plan_size o < n)%nat -> rewrite_loop n o <> None.
Proof.
  revert o. induction n as [|n IH]; intros o Hn; [lia|]. cbn.
  destruct (rewrite_oper (oper_size o) o) as [[rc|[o' []]]|] eqn:E; [done| |done|done].
  apply rewrite_oper_size in E as [_ E]. apply IH. specialize (E eq_refl). lia.
Qed.
End termination.
