(* ===== verification/RewriteSound.v ===== *)
(** * RewriteSound: rewriting keeps the meaning of a query

    The predicate of a query is a conjunction of comparisons between fields, casts of fields
    and constants ([create_comparison]).  The invariant [pred_shape] describes what the rules
    make of it; every rule keeps its truth on the rows, and the plan around it, until the loop
    ends.  The exception is a constantly false comparison behind one that is not constant:
    [ConjunctionSimplificationRule] then keeps the first comparison instead. *)

From stdpp Require Import strings.
From S2P Require Import Prelude Bytes Compare RecordPage MvccTrx Float32 Value Expr Tuple Exec ExecLaws Logical Rewrite.
#[local] Open Scope Z_scope.

Lemma single_or_not {A} (l : list A) : (exists x, l = [x]) \/ ~ exists x, l = [x].
Proof. destruct l as [|x [|y l]]; [right|left|right]; naive_solver. Qed.

(** ** Comparisons of a filter *)

Definition side (e : Expression) : bool :=
  match e with FieldExpr _ _ _ | ValueExpr _ | CastExpr (FieldExpr _ _ _) _ => true | _ => false end.

Section atoms.
Context `{CLib}.

Inductive comparison : Expression -> Prop :=
| comparison_intro op l r : op <> NO_OP -> side l = true -> side r = true -> value_type l = value_type r ->
    comparison (ComparisonExpr op l r).

(** The value of a comparison of two constants. *)
Definition const_cmp (a : Expression) : option bool :=
  match a with
  | ComparisonExpr op (ValueExpr x) (ValueExpr y) =>
      match compare_value op x y with Some (inr b) => Some b | _ => None end
  | _ => None
  end.

Definition bool_expr (b : bool) : Expression := ValueExpr (VBool b).

Definition simp (a : Expression) : Expression := match const_cmp a with Some b => bool_expr b | None => a end.

(** A comparison, or what becomes of one. *)
Inductive atom : Expression -> Prop :=
| atom_cmp a : comparison a -> atom a
| atom_bool b : atom (bool_expr b).

(** An atom that the rules leave alone. *)
Definition simple (a : Expression) : Prop := atom a /\ const_cmp a = None.

Lemma side_rewrite e n : side e = true -> (expr_size e <= n)%nat -> rewrite_expression n e = Some (e, false).
Proof.
  destruct e as [t f ty|v|[t f ty'| | | | | | |] ty| | | | |]; try done; intros _ Hn; destruct n as [|[|n]]; cbn in Hn; try lia; done.
Qed.

Lemma const_cmp_some a : comparison a -> match const_cmp a with
  | Some b => try_get_value a = mret (VBool b)
  | None => try_get_value a = fails INVALID_ARGUMENT
  end.
Proof.
  intros [op l r Hop Hl Hr Hty]. destruct l as [|x| | | | | |]; try done. destruct r as [|y| | | | | |]; try done.
  cbn in *. destruct (compare_value_same op x y Hop Hty) as [b ->]. done.
Qed.

Lemma atom_rewrite a n : atom a -> (expr_size a <= n)%nat ->
  rewrite_expression n a = Some (simp a, bool_decide (is_Some (const_cmp a))).
Proof.
  intros Ha Hn. pose proof (expr_size_pos a). destruct n as [|n]; [lia|]. destruct Ha as [a' Ha|b]; [|done]. unfold simp. pose proof (const_cmp_some a' Ha) as Hc. cbn [rewrite_expression].
  destruct Ha as [op l r Hop Hl Hr Hty]. unfold apply_rules, comparison_rule.
  destruct (const_cmp (ComparisonExpr op l r)) as [b|]; rewrite Hc; cbn -[rewrite_expression]; [done|].
  cbn in Hn. rewrite !side_rewrite by (done || lia). done.
Qed.

Lemma simp_value f a : atom a -> get_value f (simp a) = get_value f a.
Proof.
  intros [a' Ha|b]; [|done]. unfold simp. pose proof (const_cmp_some a' Ha) as Hc. destruct Ha as [op l r Hop Hl Hr Hty].
  destruct l as [|x| | | | | |]; try done. destruct r as [|y| | | | | |]; try done. cbn in *.
  destruct (compare_value op x y) as [[|b]|] eqn:E; try done. cbn. by rewrite E.
Qed.

Lemma simp_atom a : atom a -> simple (simp a).
Proof.
  unfold simple, simp. intros Ha. destruct (const_cmp a) eqn:E; [|done]. split; [apply atom_bool|done].
Qed.

(** ** Truth on a row *)

Definition total (t : Tuple) (e : Expression) : Prop := exists b, get_value (find_cell t) e = mret (VBool b).

Definition truth (t : Tuple) (e : Expression) : bool :=
  match get_value (find_cell t) e with Some (inr v) => get_boolean v | _ => false end.

(** The conjuncts of a predicate. *)
Definition parts (e : Expression) : list Expression := match e with ConjunctionExpr AND cs => cs | _ => [e] end.

Definition all_true (t : Tuple) (cs : list Expression) : bool := forallb (truth t) cs.

Lemma all_true_cons t c cs : all_true t (c :: cs) = truth t c && all_true t cs.
Proof. done. Qed.

Lemma total_value t e : total t e -> get_value (find_cell t) e = mret (VBool (truth t e)).
Proof. intros [b Hb]. unfold truth. by rewrite Hb. Qed.

Lemma conj_value t cs : Forall (total t) cs ->
  get_value (find_cell t) (ConjunctionExpr AND cs) = mret (VBool (all_true t cs)).
Proof.
  intros Hcs. cbn. case_bool_decide; [by subst|]. clear H0. induction Hcs as [|c cs Hc _ IH]; cbn; [done|].
  rewrite (total_value _ _ Hc). cbn. destruct (truth t c); [|done]. apply IH.
Qed.

Lemma holds_parts t e : Forall (total t) (parts e) -> holds e t = mret (all_true t (parts e)).
Proof.
  intros He. unfold holds. destruct e as [| | | |[] cs| | |]; cbn [parts] in *;
    try (apply Forall_cons in He as [He _]; rewrite (total_value _ _ He); cbn; by rewrite andb_true_r).
  by rewrite conj_value.
Qed.

Lemma filter_all_true t preds : Forall (total t) preds -> filter preds t = mret (all_true t preds).
Proof.
  induction 1 as [|c cs Hc _ IH]; cbn; [done|]. rewrite (total_value _ _ Hc). cbn. by destruct (truth t c).
Qed.

Lemma total_simp t a : atom a -> total t a -> total t (simp a) /\ truth t (simp a) = truth t a.
Proof. intros Ha. unfold total, truth. by rewrite simp_value. Qed.

Lemma all_true_simp t cs : Forall atom cs -> Forall (total t) cs ->
  Forall (total t) (map simp cs) /\ all_true t (map simp cs) = all_true t cs.
Proof.
  induction 1 as [|c cs Hc _ IH]; cbn [map]; [done|]. intros [Ht Hts]%Forall_cons. rewrite !all_true_cons.
  destruct (IH Hts) as [? ->], (total_simp t c Hc Ht) as [? ->]. by split; [constructor|].
Qed.

(** ** Conjunctions *)

(** Whether a constantly false comparison comes behind one that is not constant, before
    any other that is constantly false. *)
Fixpoint late_false (seen : bool) (cs : list Expression) : bool :=
  match cs with
  | [] => false
  | c :: cs' =>
      match bool_constant (simp c) with
      | Some true => late_false seen cs'
      | Some false => seen
      | None => late_false true cs'
      end
  end.

Lemma simp_simple a : simple a -> simp a = a.
Proof. intros [_ Ha]. unfold simp. by rewrite Ha. Qed.

Lemma late_false_simp seen cs : Forall atom cs -> late_false seen (map simp cs) = late_false seen cs.
Proof.
  intros Hcs. revert seen. induction Hcs as [|c cs Hc _ IH]; intros seen; cbn; [done|].
  rewrite (simp_simple (simp c)) by by apply simp_atom. destruct (bool_constant (simp c)) as [[]|]; auto.
Qed.

Lemma simple_constant a : simple a -> match bool_constant a with Some b => a = bool_expr b | None => comparison a end.
Proof. intros [[a' Ha|b] Hc]; [|done]. by destruct Ha. Qed.

(** The comparisons among the children. *)
Definition comparisons (cs : list Expression) : list Expression :=
  List.filter (fun c => bool_decide (bool_constant c = None)) cs.

Lemma conj_scan_simple before cs : Forall simple cs -> late_false (negb (bool_decide (before = []))) cs = false ->
  match conj_scan AND before cs with
  | inl c => c = bool_expr false /\ bool_expr false ∈ cs
  | inr cs' => cs' = before ++ comparisons cs /\ forall c, c ∈ cs -> bool_constant c <> Some false
  end.
Proof.
  intros Hcs. revert before. induction Hcs as [|c cs Hc Hcs IH]; intros before Hl; cbn.
  - rewrite app_nil_r. split; [done|]. set_solver.
  - pose proof (simple_constant c Hc) as Hb. cbn in Hl. rewrite (simp_simple c Hc) in Hl.
    destruct (bool_constant c) as [[]|] eqn:E.
    + specialize (IH before Hl). destruct (conj_scan AND before cs) as [c'|cs'].
      * destruct IH. split; [done|]. set_solver.
      * destruct IH as [-> IH]. split; [done|]. intros c' [->|?]%elem_of_cons; [congruence|auto].
    + apply negb_false_iff, bool_decide_eq_true in Hl as ->. subst c. split; [done|]. set_solver.
    + specialize (IH (before ++ [c])). rewrite <- app_assoc in IH.
      rewrite (bool_decide_false (before ++ [c] = [])) in IH by (by destruct before).
      specialize (IH Hl). destruct (conj_scan AND (before ++ [c]) cs) as [c'|cs'].
      * destruct IH. split; [done|]. set_solver.
      * destruct IH as [-> IH]. split; [done|]. intros c' [->|?]%elem_of_cons; [congruence|auto].
Qed.

Lemma all_true_comparisons t cs : Forall simple cs -> (forall c, c ∈ cs -> bool_constant c <> Some false) ->
  all_true t (comparisons cs) = all_true t cs.
Proof.
  induction 1 as [|c cs Hc _ IH]; [done|]. intros Hno. rewrite all_true_cons. cbn [comparisons List.filter]. pose proof (simple_constant c Hc) as Hb.
  assert (all_true t (comparisons cs) = all_true t cs) as IH' by (apply IH; set_solver).
  fold (comparisons cs). case_bool_decide as E; [by rewrite all_true_cons, IH'|]. rewrite IH'. destruct (bool_constant c) as [[]|] eqn:Ec; [by subst c| |done].
  exfalso. apply (Hno c); [set_solver|done].
Qed.

Lemma all_true_false t cs : bool_expr false ∈ cs -> all_true t cs = false.
Proof.
  intros Hc. apply not_true_iff_false. unfold all_true. rewrite forallb_forall. intros Hall.
  apply list_elem_of_In in Hc. by specialize (Hall _ Hc).
Qed.

Lemma comparisons_sub (P : Expression -> Prop) cs : Forall P cs -> Forall P (comparisons cs).
Proof. induction 1; cbn; [done|]. case_bool_decide; [by constructor|done]. Qed.

Lemma comparisons_late cs seen : Forall simple cs -> late_false seen (comparisons cs) = false.
Proof.
  intros Hcs. revert seen. induction Hcs as [|c cs Hc _ IH]; intros seen; cbn; [done|]. case_bool_decide as E; [|apply IH].
  cbn. rewrite (simp_simple c Hc), E. apply IH.
Qed.

(** ** The shapes of a predicate *)

Inductive pred_shape : Expression -> Prop :=
| shape_atom a : atom a -> pred_shape a
| shape_raw cs : Forall comparison cs -> late_false false cs = false -> pred_shape (ConjunctionExpr AND cs)
| shape_simple cs : Forall simple cs -> late_false false cs = false -> pred_shape (ConjunctionExpr AND cs).

Lemma shape_boolean e : pred_shape e -> value_type e = BOOLEANS.
Proof. by intros [a [a' []|b]|cs ? ?|cs ? ?]. Qed.

(** Some conjunct is constantly false. *)
Definition may_be_false (e : Expression) : Prop := bool_expr false ∈ map simp (parts e).

(** [e'] is as true as [e] on every row on which the conjuncts of [e] have values; no
    comparison and no false constant appears. *)
Definition same_truth (e e' : Expression) : Prop :=
  (comparisons (parts e) = [] -> comparisons (parts e') = []) /\ (may_be_false e' -> may_be_false e) /\
  forall t, Forall (total t) (parts e) ->
    Forall (total t) (parts e') /\ all_true t (parts e') = all_true t (parts e).

Lemma simp_simp cs : Forall atom cs -> map simp (map simp cs) = map simp cs.
Proof. induction 1 as [|c cs Hc _ IH]; cbn; [done|]. rewrite IH, (simp_simple (simp c)) by by apply simp_atom. done. Qed.

Lemma elem_of_map_simp cs : bool_expr false ∈ cs -> bool_expr false ∈ map simp cs.
Proof. intros Hin. apply list_elem_of_In. apply (in_map simp cs (bool_expr false)). by apply list_elem_of_In. Qed.

Lemma map_simp_sub (p : Expression -> bool) cs e : e ∈ map simp (List.filter p cs) -> e ∈ map simp cs.
Proof. induction cs as [|c cs IH]; cbn; [done|]. destruct (p c); cbn; set_solver. Qed.

Lemma map_simp_comparisons cs e : e ∈ map simp (comparisons cs) -> e ∈ map simp cs.
Proof. apply map_simp_sub. Qed.

Lemma comparisons_cmp cs : Forall comparison cs -> comparisons cs = cs.
Proof. induction 1 as [|c cs [] _ IH]; cbn; [done|]. f_equal. apply IH. Qed.

Lemma atom_parts a : atom a -> parts a = [a].
Proof. by intros [a' []|b]. Qed.

Lemma atoms_rewrite n cs : Forall atom cs -> (list_sum (map expr_size cs) <= n)%nat -> exists b,
  rewrite_list (rewrite_expression n) cs = Some (map simp cs, b).
Proof.
  induction 1 as [|c cs Hc _ IH]; intros Hn; [by eexists|]. cbn [map] in Hn. rewrite list_sum_cons in Hn.
  cbn [rewrite_list]. rewrite atom_rewrite by (done || lia). destruct (IH ltac:(lia)) as [b Hb]. cbn [mbind option_bind].
  fold (rewrite_list (rewrite_expression n)). rewrite Hb. by eexists.
Qed.

Lemma comparison_atoms cs : Forall comparison cs -> Forall atom cs.
Proof. intros Hcs. eapply Forall_impl; [done|]. apply atom_cmp. Qed.

Lemma simple_atoms cs : Forall simple cs -> Forall atom cs.
Proof. intros Hcs. eapply Forall_impl; [done|]. by intros ? []. Qed.

Lemma map_simp_simple cs : Forall simple cs -> map simp cs = cs.
Proof. induction 1; cbn; [done|]. rewrite simp_simple by done. congruence. Qed.

Lemma conj_scan_raw before cs : Forall comparison cs -> conj_scan AND before cs = inr (before ++ cs).
Proof.
  intros Hcs. revert before. induction Hcs as [|c cs Hc _ IH]; intros before; cbn; [by rewrite app_nil_r|].
  destruct Hc. cbn. by rewrite IH, <- app_assoc.
Qed.

(** The children of a conjunction that no rule replaced. *)
Lemma conj_descend n cs cs' rep : apply_rules (ConjunctionExpr AND cs) = Some (ConjunctionExpr AND cs', false, rep) ->
  Forall atom cs' -> (list_sum (map expr_size cs') <= n)%nat ->
  exists b, rewrite_expression (S n) (ConjunctionExpr AND cs) = Some (ConjunctionExpr AND (map simp cs'), b).
Proof.
  intros Hr Hcs Hn. cbn [rewrite_expression]. rewrite Hr. cbn [mbind option_bind].
  destruct (atoms_rewrite n cs' Hcs Hn) as [b ->]. by eexists.
Qed.

Lemma raw_rewrite n cs : Forall comparison cs -> late_false false cs = false -> (expr_size (ConjunctionExpr AND cs) <= n)%nat ->
  exists e' b, rewrite_expression n (ConjunctionExpr AND cs) = Some (e', b) /\ pred_shape e' /\
    same_truth (ConjunctionExpr AND cs) e'.
Proof.
  intros Hcs Hl Hn. destruct n as [|n]; [cbn in Hn; lia|]. pose proof (comparison_atoms cs Hcs) as Hat.
  assert (Hr : apply_rules (ConjunctionExpr AND cs) = Some (match cs with [c] => (c, true, true) | _ => (ConjunctionExpr AND cs, false, false) end)).
  { unfold apply_rules. cbn. rewrite conj_scan_raw by done. by destruct cs as [|c [|c' cs]]. }
  destruct (single_or_not cs) as [[c ->]|Hne].
  - exists c, true. cbn [rewrite_expression]. rewrite Hr. split; [done|]. apply Forall_cons in Hat as [Hc _].
    split; [by apply shape_atom|]. unfold same_truth, may_be_false. by rewrite (atom_parts c).
  - destruct (conj_descend n cs cs false) as [b Hb]; [|done|cbn in Hn; lia|].
    { rewrite Hr. destruct cs as [|c [|c' cs']]; [done| |done]. by destruct Hne; exists c. }
    exists (ConjunctionExpr AND (map simp cs)), b. split; [done|]. split.
    + apply shape_simple; [|by rewrite late_false_simp]. apply Forall_map. eapply Forall_impl; [done|]. apply simp_atom.
    + split_and!; [|unfold may_be_false; cbn [parts]|intros t Ht; by apply all_true_simp].
      * cbn [parts]. rewrite (comparisons_cmp cs) by done. by intros ->.
      * by rewrite simp_simp.
Qed.

Lemma simple_rewrite n cs : Forall simple cs -> late_false false cs = false -> (expr_size (ConjunctionExpr AND cs) <= n)%nat ->
  exists e' b, rewrite_expression n (ConjunctionExpr AND cs) = Some (e', b) /\ pred_shape e' /\
    same_truth (ConjunctionExpr AND cs) e'.
Proof.
  intros Hcs Hl Hn. destruct n as [|n]; [cbn in Hn; lia|].
  pose proof (conj_scan_simple [] cs Hcs Hl) as Hs. pose proof (conj_scan_size AND [] cs) as Hsz.
  assert (Hr : apply_rules (ConjunctionExpr AND cs) = Some (conjunction_rule (ConjunctionExpr AND cs))).
  { unfold apply_rules. cbn [comparison_rule]. by destruct (conjunction_rule _) as [[e2 b2] r2]. }
  unfold conjunction_rule in Hr. destruct (conj_scan AND [] cs) as [c|cs'].
  - destruct Hs as [-> Hin]. exists (bool_expr false), false. cbn [rewrite_expression]. rewrite Hr. split; [done|].
    split; [apply shape_atom, atom_bool|]. split; [done|].
    split; [intros _; by apply elem_of_map_simp|]. intros t Ht. split; [by constructor; [eexists|]|].
    cbn [parts]. by rewrite (all_true_false t cs).
  - destruct Hs as [Hs Hno]. cbn [app] in Hs, Hsz.
    assert (Hsame : same_truth (ConjunctionExpr AND cs) (ConjunctionExpr AND cs')).
    { split_and!; cbn [parts]; [by subst cs'; intros ->|unfold may_be_false; cbn [parts]; subst cs'; apply map_simp_comparisons|].
      intros t Ht. subst cs'.
      split; [by apply comparisons_sub|by apply all_true_comparisons]. }
    assert (Hsim : Forall simple cs') by (subst cs'; by apply comparisons_sub).
    destruct (single_or_not cs') as [[c ->]|Hne].
    + exists c, true. cbn [rewrite_expression]. rewrite Hr. split; [done|]. apply Forall_cons in Hsim as [[Hc _] _].
      split; [by apply shape_atom|]. unfold same_truth, may_be_false. rewrite (atom_parts c) by done. apply Hsame.
    + destruct (conj_descend n cs cs' false) as [b Hb]; [|by apply simple_atoms|cbn in Hn; lia|].
      { rewrite Hr. destruct cs' as [|c [|c' cs'']]; [done| |done]. by destruct Hne; exists c. }
      rewrite map_simp_simple in Hb by done. exists (ConjunctionExpr AND cs'), b. split_and!; [done| |done].
      apply shape_simple; [done|]. rewrite Hs. by apply comparisons_late.
Qed.

Lemma shape_rewrite e n : pred_shape e -> (expr_size e <= n)%nat ->
  exists e' b, rewrite_expression n e = Some (e', b) /\ pred_shape e' /\ same_truth e e'.
Proof.
  intros [a Ha|cs Hcs Hl|cs Hcs Hl] Hn; [|by apply raw_rewrite|by apply simple_rewrite].
  rewrite atom_rewrite by done. do 2 eexists. split; [done|]. destruct (simp_atom a Ha) as [Hs _].
  split; [by apply shape_atom|]. unfold same_truth, may_be_false. rewrite !atom_parts by done. split_and!.
  - unfold simp. destruct Ha as [a' []|b]; [done|]. done.
  - cbn. by rewrite (simp_simple (simp a)) by by apply simp_atom.
  - intros t [Ht _]%Forall_cons. destruct (total_simp t a Ha Ht) as [? Hx]. split; [by constructor|]. cbn. by rewrite Hx.
Qed.

(** ** Pushing down *)

Definition constants (cs : list Expression) : list Expression :=
  List.filter (fun c => negb (bool_decide (bool_constant c = None))) cs.

Lemma all_true_split t cs : all_true t cs = all_true t (constants cs) && all_true t (comparisons cs).
Proof.
  induction cs as [|c cs IH]; [done|]. rewrite all_true_cons, IH. unfold constants, comparisons in *. cbn [List.filter].
  case_bool_decide; cbn [negb]; rewrite all_true_cons; destruct (truth t c), (all_true t _); cbn; try done; by rewrite ?andb_false_r.
Qed.

Lemma constants_sub (P : Expression -> Prop) cs : Forall P cs -> Forall P (constants cs).
Proof. induction 1; cbn; [done|]. case_bool_decide; cbn; [done|by constructor]. Qed.

Lemma constants_shape cs : Forall atom cs -> pred_shape (ConjunctionExpr AND (constants cs)).
Proof.
  intros Hcs. assert (Hb : Forall (fun c => exists b, c = bool_expr b) (constants cs)).
  { induction Hcs as [|c cs Hc _ IH]; cbn; [done|]. destruct Hc as [a []|b]; cbn; [done|]. constructor; [by eexists|done]. }
  apply shape_simple.
  - eapply Forall_impl; [done|]. intros c [b ->]. split; [apply atom_bool|done].
  - clear Hcs. induction Hb as [|c cs' [b ->] _ IH]; cbn; [done|]. by destruct b.
Qed.

Lemma atoms_pushdown cs : Forall atom cs ->
  exprs_can_pushdown (ConjunctionExpr AND cs) = inr (Some (ConjunctionExpr AND (constants cs)), comparisons cs).
Proof.
  intros Hcs. cbn [exprs_can_pushdown]. set (go := fix go cs := match cs with [] => inr ([], []) | c :: cs' => _ end).
  assert (go cs = inr (constants cs, comparisons cs)) as ->; [|done].
  induction Hcs as [|c cs Hc _ IH]; [done|]. cbn [go]. fold go. destruct Hc as [a []|b]; cbn [exprs_can_pushdown bool_expr]; by rewrite IH.
Qed.

Lemma constants_comparisons cs : comparisons (constants cs) = [].
Proof. induction cs as [|c cs IH]; cbn; [done|]. case_bool_decide as E; cbn; [done|]. by rewrite bool_decide_false. Qed.

(** What the comparisons are worth that go, and the predicate that stays. *)
Definition pushes (e : Expression) (kept : option Expression) : Prop :=
  let e' := (left_predicate "" kept).2 in
  pred_shape e' /\ comparisons (parts e') = [] /\ (may_be_false e' -> may_be_false e) /\
  forall t, Forall (total t) (parts e) -> Forall (total t) (comparisons (parts e)) /\ Forall (total t) (parts e') /\
    all_true t (comparisons (parts e)) && all_true t (parts e') = all_true t (parts e).

Lemma conj_pushdown cs : Forall atom cs -> exists kept,
  exprs_can_pushdown (ConjunctionExpr AND cs) = inr (kept, comparisons cs) /\ pushes (ConjunctionExpr AND cs) kept.
Proof.
  intros Hcs. exists (Some (ConjunctionExpr AND (constants cs))). split; [by apply atoms_pushdown|]. unfold pushes, left_predicate.
  destruct (is_empty_predicate _) eqn:E; cbn [snd parts].
  - assert (Hnil : constants cs = []) by by destruct (constants cs). split; [apply shape_atom, atom_bool|]. split; [done|].
    split; [intros Hf; by apply list_elem_of_singleton in Hf|].
    intros t Ht. split_and!; [by apply comparisons_sub|by constructor; [eexists|]|].
    by rewrite (all_true_split t cs), Hnil, andb_true_r.
  - split; [by apply constants_shape|]. split; [apply constants_comparisons|].
    split; [apply map_simp_sub|]. intros t Ht. split_and!; [by apply comparisons_sub|by apply constants_sub|]. by rewrite (all_true_split t cs), andb_comm.
Qed.

Lemma shape_pushdown e : pred_shape e -> exists kept,
  exprs_can_pushdown e = inr (kept, comparisons (parts e)) /\ pushes e kept.
Proof.
  intros [a [a' Ha|b]|cs Hcs _|cs Hcs _]; [| |by apply conj_pushdown, comparison_atoms|by apply conj_pushdown, simple_atoms].
  - exists None. destruct Ha as [op l r]. split; [done|]. split; [apply shape_atom, atom_bool|]. split; [done|].
    split; [intros Hf; by apply list_elem_of_singleton in Hf|].
    intros t Ht. split; [done|]. split; [constructor; [by eexists|done]|]. cbn. by rewrite !andb_true_r.
  - exists (Some (bool_expr b)). split; [done|]. split; [apply shape_atom, atom_bool|]. done.
Qed.
End atoms.

(** ** Plans *)

(** The tables of a query, with what was pushed into them; [good] is what is known of each. *)
Inductive source (good : Table -> ReadWriteMode -> Prop) : LogicalOperator -> Prop :=
| source_get t mode preds : good t mode -> source good (mkOper (TABLE_GET t mode preds) [] [])
| source_join l r : source good l -> source good r -> source good (mkOper JOIN [] [l; r]).

(** Expressions that the rules neither change nor look into for a comparison. *)
Fixpoint inert (e : Expression) : bool :=
  match e with
  | FieldExpr _ _ _ | ValueExpr _ | ArithmeticExpr _ _ _ | AggregateExpr _ _ _ => true
  | CastExpr c _ => inert c
  | FunctionExpr _ cs => forallb inert cs
  | ComparisonExpr _ _ _ | ConjunctionExpr _ _ => false
  end.

Section plans.
Context `{CLib} `{StdSort} (table_rows : Table -> ReadWriteMode -> list (RID * list Z) * RC).
Context (good : Table -> ReadWriteMode -> Prop).
Notation denote := (denote table_rows).
Notation source := (source good).

Lemma source_rewriter o : source o -> expression_rewriter o = Some (o, false).
Proof. induction 1 as [|l r _ IHl _ IHr]; [done|]. cbn. by rewrite IHl, IHr. Qed.

Lemma source_not_predicate o : source o -> oper_type o <> PREDICATE.
Proof. by intros []. Qed.

Lemma predicate_rewrite_other ty es cs : (forall c, cs = [c] -> oper_type c <> PREDICATE) ->
  predicate_rewrite (mkOper ty es cs) = (mkOper ty es cs, false).
Proof.
  intros Hc. destruct cs as [|[ty' es' cs'] [|c' cs]]; [done| |by destruct ty', es' as [|[? []] []]].
  specialize (Hc _ eq_refl). by destruct ty'.
Qed.

Lemma predicate_pushdown_other ty es cs : ty <> PREDICATE -> predicate_pushdown (mkOper ty es cs) = inr (mkOper ty es cs, false).
Proof. by destruct ty. Qed.

Lemma source_oper o n : source o -> (oper_size o <= n)%nat -> rewrite_oper n o = mret (o, false).
Proof.
  intros Ho. revert n. induction Ho as [t mode preds|l r Hl IHl Hr IHr]; intros [|n] Hn; cbn in Hn; try lia; [done|].
  cbn [rewrite_oper]. rewrite (source_rewriter (mkOper JOIN [] [l; r])) by by apply source_join.
  rewrite predicate_rewrite_other, predicate_pushdown_other by done. cbn [rewrite_list_res].
  by rewrite IHl, IHr by (cbn in Hn; lia).
Qed.

Lemma inert_rewrite e n : inert e = true -> (expr_size e <= n)%nat -> rewrite_expression n e = Some (e, false).
Proof.
  revert n. induction e as [t f ty|v|c ty IH|op l r IHl IHr|ty cs IH|op l r IHl IHr|ty c nm IH|ty cs IH] using expression_ind;
    intros [|n] Hi Hn; cbn [expr_size] in Hn; try lia; try done; cbn [rewrite_expression apply_rules comparison_rule conjunction_rule].
  - cbn [mbind option_bind]. by rewrite IH by (done || lia).
  - cbn [mbind option_bind orb]. cbn in Hi. assert (rewrite_list (rewrite_expression n) cs = Some (cs, false)) as ->; [|done].
    assert (Hn' : (list_sum (map expr_size cs) <= n)%nat) by lia. clear Hn. revert Hi Hn'.
    induction IH as [|c cs Hc _ IHcs]; intros Hi Hn'; [done|]. cbn in Hi. apply andb_true_iff in Hi as [Hic Hics].
    cbn [map] in Hn'. rewrite list_sum_cons in Hn'. cbn [rewrite_list]. rewrite Hc by (done || lia).
    fold (rewrite_list (rewrite_expression n)). cbn [mbind option_bind]. by rewrite IHcs by (done || lia).
Qed.

Lemma inert_nameds es : forallb inert es.*2 = true -> rewrite_nameds es = Some (es, false).
Proof.
  induction es as [|[nm e] es IH]; [done|]. cbn [fmap list_fmap forallb]. intros [He Hes]%andb_true_iff.
  assert (Hn : rewrite_named (nm, e) = Some ((nm, e), false)).
  { unfold rewrite_named. cbn [fst snd]. rewrite inert_rewrite by done. by destruct e. }
  unfold rewrite_nameds in *. cbn [rewrite_list]. rewrite Hn. cbn [mbind option_bind]. fold (rewrite_list rewrite_named).
  by rewrite IH.
Qed.

(** An operator above the predicate. *)
Definition spine_op (s : OperType * list Named) : Prop := s.1 <> PREDICATE /\ forallb inert s.2.*2 = true.

Fixpoint plug (sp : list (OperType * list Named)) (core : list LogicalOperator) : list LogicalOperator :=
  match sp with [] => core | (ty, es) :: sp' => [mkOper ty es (plug sp' core)] end.

Definition size_of (core : list LogicalOperator) : nat := list_sum (map oper_size core).

(** ** The invariant of the bottom of the plan *)

Context (result : list Tuple) (ending : option RC) (vanishes : Prop).

(** The predicate over its source, the source alone, or nothing: always with [result] as its
    rows and, where there is a source, [ending] behind them. *)
Inductive core_ok : list LogicalOperator -> Prop :=
| core_predicate nm e src rows : source src -> pred_shape e -> (may_be_false e -> vanishes) ->
    denote src = Some (inr (rows, ending)) -> (forall t, t ∈ rows -> Forall (total t) (parts e)) ->
    List.filter (fun t => all_true t (parts e)) rows = result ->
    (forall t mode preds, src = mkOper (TABLE_GET t mode preds) [] [] -> preds = [] \/ comparisons (parts e) = []) ->
    core_ok [mkOper PREDICATE [(nm, e)] [src]]
| core_source src : source src -> denote src = Some (inr (result, ending)) -> core_ok [src]
| core_empty : result = [] -> vanishes -> core_ok [].

Lemma filter_ext_in {A} (f g : A -> bool) l : (forall x, x ∈ l -> f x = g x) -> List.filter f l = List.filter g l.
Proof.
  induction l as [|x l IH]; intros Hfg; cbn; [done|]. rewrite (Hfg x) by set_solver. rewrite IH by set_solver. done.
Qed.

Lemma list_filter_all {A} (f : A -> bool) l : (forall x, f x = true) -> List.filter f l = l.
Proof. intros Hf. induction l as [|x l IH]; cbn; [done|]. by rewrite Hf, IH. Qed.

Lemma list_filter_none {A} (f : A -> bool) l : (forall x, f x = false) -> List.filter f l = [].
Proof. intros Hf. induction l as [|x l IH]; cbn; [done|]. by rewrite Hf. Qed.

Lemma filter_filter {A} (f g : A -> bool) l : List.filter g (List.filter f l) = List.filter (fun x => f x && g x) l.
Proof. induction l as [|x l IH]; cbn; [done|]. destruct (f x); cbn; [|done]. by destruct (g x); rewrite IH. Qed.

(** Rewriting the expressions of the predicate. *)
Lemma predicate_rewriter nm e src : source src -> pred_shape e ->
  exists nm' e' b, expression_rewriter (mkOper PREDICATE [(nm, e)] [src]) = Some (mkOper PREDICATE [(nm', e')] [src], b) /\
    pred_shape e' /\ same_truth e e'.
Proof.
  intros Hsrc He. destruct (shape_rewrite e (expr_size e) He) as (e' & b & Hr & Hs & Ht); [done|].
  cbn [expression_rewriter]. unfold rewrite_nameds. cbn [rewrite_list]. unfold rewrite_named. cbn [snd fst]. rewrite Hr.
  cbn [mbind option_bind]. assert (exists x, apply_rules e = Some x) as [[[x y] rep] ->].
  { destruct (expr_size e) eqn:E; [by pose proof (expr_size_pos e); lia|]. cbn in Hr. destruct (apply_rules e); [by eexists|done]. }
  cbn [mbind option_bind]. rewrite source_rewriter by done. cbn [mbind option_bind]. do 3 eexists. done.
Qed.

Lemma same_truth_core nm nm' e e' src : same_truth e e' -> pred_shape e' ->
  core_ok [mkOper PREDICATE [(nm, e)] [src]] -> core_ok [mkOper PREDICATE [(nm', e')] [src]].
Proof.
  intros (Hc & Hm & Ht) Hs Hcore. inversion Hcore as [nm0 e0 src0 rows Hsrc He Hv Hd Htot Hres Hpush| |]; simplify_eq.
  - eapply core_predicate; [done|done|auto|done| | |].
    + intros t Hin. by apply Ht, Htot.
    + rewrite <- Hres. apply filter_ext_in. intros t Hin. by apply Ht, Htot.
    + intros t mode preds Hs'. destruct (Hpush t mode preds Hs'); auto.
  - by match goal with Hs : source _ |- _ => apply source_not_predicate in Hs end.
Qed.

(** One run of the expression rewriter over the plan. *)
Lemma core_rewriter core : core_ok core -> exists core' b,
  (forall ty es, forallb inert es.*2 = true ->
    expression_rewriter (mkOper ty es core) = Some (mkOper ty es core', b)) /\ core_ok core' /\ size_of core' = size_of core.
Proof.
  intros Hcore. destruct (Hcore) as [nm e src rows Hsrc He|src Hsrc|].
  - destruct (predicate_rewriter nm e src Hsrc He) as (nm' & e' & b & Hr & Hs & Ht).
    exists [mkOper PREDICATE [(nm', e')] [src]], b. split_and!; [|by eapply same_truth_core|done].
    intros ty es Hes. remember (mkOper PREDICATE [(nm, e)] [src]) as p. cbn [expression_rewriter rewrite_list].
    rewrite inert_nameds by done. cbn [mbind option_bind]. rewrite Hr. cbn. by rewrite orb_false_r.
  - exists [src], false. split_and!; [|done|done]. intros ty es Hes. cbn. by rewrite inert_nameds, source_rewriter by done.
  - exists [], false. split_and!; [|done|done]. intros ty es Hes. cbn. by rewrite inert_nameds by done.
Qed.

(** [PredicateRewriteRule] at the operator above. *)
Lemma core_predicate_rewrite ty es core : core_ok core -> exists core' b,
  predicate_rewrite (mkOper ty es core) = (mkOper ty es core', b) /\ core_ok core' /\ (size_of core' <= size_of core)%nat.
Proof.
  intros Hcore. destruct (Hcore) as [nm e src rows Hsrc He Hv Hd Htot Hres Hpush|src Hsrc|].
  - destruct (decide (is_value e = true)) as [Hval|Hval].
    + destruct e as [|v| | | | | |]; try done.
      assert (exists b, v = VBool b) as [b ->] by (inversion He as [a Ha| |]; inversion Ha as [a' Hc|]; [inversion Hc|by eexists]).
      cbn [predicate_rewrite get_boolean]. cbn [parts] in *. destruct b; do 2 eexists; (split; [done|]); split; cbn; try lia.
      * apply core_source; [done|]. rewrite <- Hres, Hd. do 3 f_equal. symmetry. by apply list_filter_all.
      * apply core_empty; [|apply Hv; by apply list_elem_of_singleton]. rewrite <- Hres. by apply list_filter_none.
    + exists [mkOper PREDICATE [(nm, e)] [src]], false. split_and!; [|done|done]. by destruct e.
  - exists [src], false. split_and!; [|done|done]. apply predicate_rewrite_other. intros c [= <-]. by apply source_not_predicate.
  - exists [], false. split_and!; [|done|done]. by apply predicate_rewrite_other.
Qed.

Lemma filter_rows_total (p : Tuple -> Res bool) q ts e : (forall t, t ∈ ts -> p t = mret (q t)) ->
  filter_rows p ts e = (List.filter q ts, e).
Proof.
  induction ts as [|t ts IH]; intros Hp; cbn; [done|]. rewrite (Hp t) by set_solver. cbn. rewrite IH by set_solver.
  by destruct (q t).
Qed.

Lemma denote_get t mode preds rows rc : denote (mkOper (TABLE_GET t mode []) [] []) = Some (inr (rows, rc)) ->
  (forall tu, tu ∈ rows -> Forall (total tu) preds) ->
  denote (mkOper (TABLE_GET t mode preds) [] []) = Some (inr (List.filter (fun tu => all_true tu preds) rows, rc)).
Proof.
  cbn. destruct (table_rows t mode) as [rs e]. rewrite (filter_rows_total (filter []) (fun _ => true)) by done.
  intros [= Hrows <-] Htot. do 2 f_equal.
  assert (Hr : List.filter (fun _ => true) (row_tuple t <$> rs) = row_tuple t <$> rs).
  { by apply list_filter_all. }
  rewrite Hr in Hrows. rewrite Hrows. apply filter_rows_total. intros tu Hin. apply filter_all_true; auto.
Qed.

Lemma left_predicate_name nm k : (left_predicate nm k).2 = (left_predicate "" k).2.
Proof. unfold left_predicate. destruct k; [|done]. by destruct (is_empty_predicate _). Qed.

(** [PredicatePushdownRewriter] at the predicate. *)
Lemma core_pushdown nm e src : core_ok [mkOper PREDICATE [(nm, e)] [src]] -> exists nm' e' src' b,
  predicate_pushdown (mkOper PREDICATE [(nm, e)] [src]) = inr (mkOper PREDICATE [(nm', e')] [src'], b) /\
  core_ok [mkOper PREDICATE [(nm', e')] [src']] /\ source src' /\ oper_size src' = oper_size src.
Proof.
  intros Hcore. inversion Hcore as [nm0 e0 src0 rows Hsrc He Hv Hd Htot Hres Hpush|src0 Hsrc|]; simplify_eq;
    [|by apply source_not_predicate in Hsrc].
  destruct Hsrc as [t mode preds Hgood|l r Hl Hr]; [|by exists nm, e, (mkOper JOIN [] [l; r]), false; split_and!; try by constructor].
  destruct (shape_pushdown e He) as (kept & Hp & Hs & Hnc & Hm & Hval). cbn [predicate_pushdown]. rewrite Hp.
  pose proof (left_predicate_name nm kept) as Hname. destruct (left_predicate nm kept) as [nm' e'] eqn:El. cbn [snd] in Hname.
  rewrite <- Hname in Hs, Hnc, Hm, Hval. clear Hname.
  do 4 eexists. split; [done|]. split_and!; [|by constructor|done].
  case_bool_decide as Hnil.
  - eapply core_predicate; [by constructor|done|auto|done| | |by right].
    + intros tu Hin. by apply Hval, Htot.
    + rewrite <- Hres at 1. apply filter_ext_in. intros tu Hin. destruct (Hval tu (Htot tu Hin)) as (_ & _ & <-). by rewrite Hnil.
  - assert (preds = []) as -> by (destruct (Hpush t mode preds eq_refl); [done|by destruct Hnil]).
    assert (Htc : forall tu, tu ∈ rows -> Forall (total tu) (comparisons (parts e))) by (intros; by apply Hval, Htot).
    eapply core_predicate; [by constructor|done|auto|by apply denote_get| | |by right].
    + intros tu Hin. apply list_elem_of_In, filter_In in Hin as [Hin _]. apply Hval, Htot. by apply list_elem_of_In.
    + rewrite filter_filter. rewrite <- Hres at 1. apply filter_ext_in. intros tu Hin. by apply Hval, Htot.
Qed.

(** A pass over the predicate and its source. *)
Lemma core_oper core n : core_ok core -> (size_of core <= n)%nat -> exists core' b,
  rewrite_list_res (rewrite_oper n) core = mret (core', b) /\ core_ok core' /\ (size_of core' <= size_of core)%nat.
Proof.
  intros Hcore Hn. destruct (Hcore) as [nm e src rows Hsrc He Hv Hd Htot Hres Hpush|src Hsrc|].
  - destruct n as [|n]; [cbn in Hn; lia|]. cbn [rewrite_list_res rewrite_oper].
    destruct (predicate_rewriter nm e src Hsrc He) as (nm1 & e1 & b1 & Hr & Hs & Ht). rewrite Hr.
    pose proof (same_truth_core nm nm1 e e1 src Ht Hs Hcore) as Hcore1.
    rewrite predicate_rewrite_other by (intros c [= <-]; by apply source_not_predicate).
    destruct (core_pushdown nm1 e1 src Hcore1) as (nm2 & e2 & src2 & b2 & Hp & Hcore2 & Hsrc2 & Hsz). rewrite Hp.
    cbn [rewrite_list_res]. rewrite source_oper by (done || (cbn in Hn; lia)). do 2 eexists. split; [done|].
    split; [done|]. cbn. rewrite Hsz. lia.
  - exists [src], false. split_and!; [|done|done]. cbn [rewrite_list_res]. by rewrite source_oper by (done || (cbn in Hn; lia)).
  - by exists [], false.
Qed.

(** A pass over the whole plan. *)
Lemma spine_oper sp ty es core n : Forall spine_op ((ty, es) :: sp) -> core_ok core ->
  (S (length sp + size_of core) <= n)%nat -> exists core' b,
  rewrite_oper n (mkOper ty es (plug sp core)) = mret (mkOper ty es (plug sp core'), b) /\ core_ok core' /\
    (size_of core' <= size_of core)%nat.
Proof.
  revert ty es core n. induction sp as [|[ty' es'] sp IH]; intros ty es core n Hsp Hcore Hn;
    (destruct n as [|n]; [lia|]); apply Forall_cons in Hsp as [[Hty Hes] Hsp]; cbn [rewrite_oper plug length] in *.
  - destruct (core_rewriter core Hcore) as (core1 & b1 & Her & Hc1 & Hs1). rewrite Her by done.
    destruct (core_predicate_rewrite ty es core1 Hc1) as (core2 & b2 & -> & Hc2 & Hs2). rewrite predicate_pushdown_other by done.
    destruct (core_oper core2 n Hc2) as (core3 & b3 & -> & Hc3 & Hs3); [lia|]. do 2 eexists. split; [done|]. split; [done|lia].
  - assert (Her : exists core1 b1, expression_rewriter (mkOper ty es [mkOper ty' es' (plug sp core)]) =
      Some (mkOper ty es [mkOper ty' es' (plug sp core1)], b1) /\ core_ok core1 /\ size_of core1 = size_of core).
    { destruct (core_rewriter core Hcore) as (core1 & b1 & Her & Hc1 & Hs1). exists core1, b1. split_and!; [|done|done].
      assert (Hspine : forall sp ty es, Forall spine_op ((ty, es) :: sp) ->
        expression_rewriter (mkOper ty es (plug sp core)) = Some (mkOper ty es (plug sp core1), b1)).
      { clear - Her. induction sp as [|[ty' es'] sp IHsp]; intros ty es [[Hty Hes] Hsp]%Forall_cons; [by apply Her|].
        specialize (IHsp ty' es' Hsp). cbn [plug]. remember (mkOper ty' es' (plug sp core)) as o.
        cbn [expression_rewriter rewrite_list]. rewrite inert_nameds by done. cbn [mbind option_bind]. rewrite IHsp. cbn.
        by rewrite orb_false_r. }
      apply (Hspine ((ty', es') :: sp)). by constructor. }
    destruct Her as (core1 & b1 & -> & Hc1 & Hs1).
    rewrite predicate_rewrite_other by (intros c [= <-]; by apply Forall_cons in Hsp as [[? _] _]).
    rewrite predicate_pushdown_other by done. cbn [rewrite_list_res].
    destruct (IH ty' es' core1 n Hsp Hc1) as (core2 & b2 & -> & Hc2 & Hs2); [lia|]. do 2 eexists. split; [done|]. split; [done|lia].
Qed.

Lemma plug_size sp core : list_sum (map oper_size (plug sp core)) = (length sp + size_of core)%nat.
Proof.
  induction sp as [|[ty es] sp IH]; [done|]. cbn [plug map length oper_size]. rewrite list_sum_cons, IH. cbn. lia.
Qed.

Lemma spine_loop passes sp ty es core : Forall spine_op ((ty, es) :: sp) -> core_ok core ->
  (plan_size (mkOper ty es (plug sp core)) < passes)%nat -> exists core',
  rewrite_loop passes (mkOper ty es (plug sp core)) = Some (mret (mkOper ty es (plug sp core'))) /\ core_ok core'.
Proof.
  intros Hsp. revert core. induction passes as [|passes IH]; intros core Hcore Hn; [lia|]. cbn [rewrite_loop].
  destruct (spine_oper sp ty es core (oper_size (mkOper ty es (plug sp core))) Hsp Hcore) as (core' & b & Hr & Hc & Hs).
  { cbn [oper_size]. rewrite plug_size. lia. }
  rewrite Hr. destruct b; [|by eexists]. apply IH; [done|]. apply rewrite_oper_size in Hr as [_ Hlt]. specialize (Hlt eq_refl). lia.
Qed.

(** ** The rows of the plan *)

Lemma core_denote c : core_ok [c] -> denote c = Some (inr (result, ending)).
Proof.
  intros Hcore. inversion Hcore as [nm e src rows Hsrc He Hv Hd Htot Hres Hpush|src Hsrc|]; [|done].
  cbn [denote Logical.denote]. rewrite decide_True by by apply shape_boolean. fold denote. rewrite Hd. cbn.
  rewrite (filter_rows_total _ (fun t => all_true t (parts e))); [by rewrite Hres|]. intros t Hin. by apply holds_parts, Htot.
Qed.

(** The operators of a query above the predicate, and whether one can stand without a child. *)
Definition query_op (ty : OperType) : bool :=
  match ty with PROJECTION | ORDER_BY _ | LIMIT _ | GROUP_BY _ _ => true | _ => false end.
Definition childless (ty : OperType) : bool := match ty with PROJECTION | ORDER_BY _ => true | _ => false end.

Lemma denote_child ty es c c' : query_op ty = true -> denote c = denote c' -> denote (mkOper ty es [c]) = denote (mkOper ty es [c']).
Proof. intros Hq Hd. destruct ty as [| | | | | | | |[|g gs] aggs| |]; try done; cbn; fold denote; by rewrite Hd. Qed.

Lemma denote_childless ty es c : childless ty = true -> denote c = empty_run -> denote (mkOper ty es []) = denote (mkOper ty es [c]).
Proof.
  intros Hq Hd. destruct ty as [| | | | | | | | |asc|]; try done; cbn; fold denote; rewrite Hd; [done|].
  unfold sort_run, sort_tuples. cbn. by rewrite orb_true_r.
Qed.

Lemma denote_plug sp ty es core core' : ending = Some RECORD_EOF -> Forall (fun s => query_op s.1 = true) ((ty, es) :: sp) ->
  (vanishes -> childless (List.last ((ty, es) :: sp) (ty, es)).1 = true) -> core_ok core -> core_ok core' -> core <> [] ->
  denote (mkOper ty es (plug sp core')) = denote (mkOper ty es (plug sp core)).
Proof.
  intros Heof Hq Hlast Hc Hc' Hne. revert ty es Hq Hlast. induction sp as [|[ty1 es1] sp IH]; intros ty es Hq Hlast;
    apply Forall_cons in Hq as [Hq1 Hq].
  - cbn [plug]. destruct core as [|c [|c2 core]]; [done| |by inversion Hc].
    pose proof (core_denote c Hc) as Hd. inversion Hc' as [nm e src rows| |Hr Hv]; simplify_eq; cbn in Hlast.
    + apply denote_child; [done|]. rewrite Hd. by apply core_denote.
    + apply denote_child; [done|]. by rewrite Hd.
    + apply denote_childless; [by apply Hlast|]. by rewrite Hd, Hr, Heof.
  - cbn [plug]. apply denote_child; [done|]. apply IH; [done|]. intros Hv. specialize (Hlast Hv). revert Hlast. clear.
    revert ty1 es1. induction sp as [|s sp IH]; intros; [done|]. cbn in *. destruct sp; auto.
Qed.
End plans.

(** ** Plans of SELECT statements *)

(** The fields of the tables of a query. *)
Definition table_schema (t : Table) : Schema := (fun f => (t.(table_name), f)) <$> t.(field_metas).
Definition tables_schema (ts : list Table) : Schema := concat (map table_schema ts).

Section select.
Context `{CLib} `{StdSort} (table_rows : Table -> ReadWriteMode -> list (RID * list Z) * RC).
Context (good : Table -> ReadWriteMode -> Prop).

Lemma join_rows_elem ls rs t : t ∈ (join_rows ls (Some RECORD_EOF) rs (Some RECORD_EOF)).1 ->
  exists l r, t = JoinedTuple l r /\ l ∈ ls /\ r ∈ rs.
Proof.
  induction ls as [|l ls IH]; cbn; [by intros ?%not_elem_of_nil|]. destruct rs as [|r rs]; [by intros ?%not_elem_of_nil|].
  destruct (join_rows ls _ _ _) as [ts e] eqn:E. cbn [fst]. intros [Hin|Hin]%elem_of_app.
  - change (JoinedTuple l r :: (JoinedTuple l <$> rs)) with (JoinedTuple l <$> (r :: rs)) in Hin.
    apply list_elem_of_fmap in Hin as (r' & -> & Hr'). exists l, r'. set_solver.
  - destruct (IH Hin) as (l' & r' & -> & ? & ?). exists l', r'. set_solver.
Qed.

Lemma join_rows_eof ls rs : (join_rows ls (Some RECORD_EOF) rs (Some RECORD_EOF)).2 = Some RECORD_EOF.
Proof.
  induction ls as [|l ls IH]; cbn; [done|]. destruct rs as [|r rs]; [done|].
  by destruct (join_rows ls (Some RECORD_EOF) (r :: rs) (Some RECORD_EOF)).
Qed.

(** The plan of FROM yields rows with the fields of the tables. *)
Definition from_rows (src : LogicalOperator) (s : Schema) : Prop := source good src /\ exists rows,
  denote table_rows src = Some (inr (rows, Some RECORD_EOF)) /\ forall t, t ∈ rows -> row_shaped t /\ schema_of t = s.

Lemma from_table t : good t READ_ONLY -> t.(table_name) <> ""%string -> (table_rows t READ_ONLY).2 = RECORD_EOF ->
  from_rows (table_get READ_ONLY t) (table_schema t).
Proof.
  intros Hg Hn He. split; [by constructor|]. cbn. destruct (table_rows t READ_ONLY) as [rs e]. cbn in He. subst e.
  rewrite (filter_rows_total (filter []) (fun _ => true)) by done. rewrite (list_filter_all (fun _ => true)) by done.
  eexists. split; [done|]. intros tu (r & -> & _)%list_elem_of_fmap. done.
Qed.

Lemma from_join l r sl sr : from_rows l sl -> from_rows r sr -> from_rows (mkOper JOIN [] [l; r]) (sl ++ sr).
Proof.
  intros (Hl & ls & Hdl & Hls) (Hr & rs & Hdr & Hrs). split; [by constructor|]. cbn. rewrite Hdl, Hdr. cbn.
  destruct ls as [|l0 ls]; [by eexists; split; [done|]; intros ? ?%not_elem_of_nil|].
  pose proof (join_rows_eof (l0 :: ls) rs) as He. pose proof (join_rows_elem (l0 :: ls) rs) as Hin.
  destruct (join_rows (l0 :: ls) _ rs _) as [ts e]. cbn in He, Hin. subst e. eexists. split; [done|].
  intros t Ht. destruct (Hin t Ht) as (a & b & -> & Ha & Hb). destruct (Hls a Ha) as [? Hsa], (Hrs b Hb) as [? Hsb].
  cbn. by rewrite Hsa, Hsb.
Qed.

Lemma from_tables ts : ts <> [] -> Forall (fun t => good t READ_ONLY) ts -> Forall (fun t => t.(table_name) <> ""%string /\ (table_rows t READ_ONLY).2 = RECORD_EOF) ts ->
  exists src, table_plan ts = Some src /\ from_rows src (tables_schema ts).
Proof.
  destruct ts as [|t ts]; [done|]. intros _ [Hg Hgs]%Forall_cons [[Hn He] Hts]%Forall_cons. unfold table_plan, tables_schema. cbn [fold_left map concat].
  assert (Hgen : forall src s, from_rows src s -> exists src', fold_left (fun table_oper t =>
    match table_oper with None => Some (table_get READ_ONLY t) | Some o => Some (mkOper JOIN [] [o; table_get READ_ONLY t]) end)
    ts (Some src) = Some src' /\ from_rows src' (s ++ concat (map table_schema ts))).
  { induction Hts as [|t' ts [Hn' He'] _ IH]; intros src s Hs; cbn; [by exists src; rewrite app_nil_r|].
    apply Forall_cons in Hgs as [Hg' Hgs]. rewrite app_assoc. apply IH; [done|]. apply from_join; [done|by apply from_table]. }
  apply Hgen. by apply from_table.
Qed.

Lemma create_comparison_shape u e : u.(unit_comp) <> NO_OP -> create_comparison u = mret e -> comparison e.
Proof.
  intros Hop. unfold create_comparison. set (lhs := filter_expr _). set (rhs := filter_expr _).
  intros ([l r] & Hcast & Hend)%Res_bind_inr.
  assert (Hside : forall x y, (exists obj, x = filter_expr obj) -> value_type x = INTS -> cast_side x FLOATS = mret y ->
    side y = true /\ value_type y = FLOATS).
  { intros x y [obj ->] Hi. unfold cast_side. destruct obj as [t f ty|v]; cbn in *; [by intros [= <-]|].
    intros (v' & Hc & [= <-])%Res_bind_inr. pose proof (has_type_cast v FLOATS) as Ht. by rewrite Hc in Ht. }
  assert (Hok : side l = true /\ side r = true /\ value_type l = value_type r).
  { assert (Hf : forall obj, side (filter_expr obj) = true) by by intros [].
    case_decide as Hty; [injection Hcast as <- <-; split_and!; [apply Hf..|done]|].
    destruct (_ && _) eqn:Hc1; [|destruct ((_ <? _) && _) eqn:Hc2; [|done]].
    - apply andb_true_iff in Hc1 as [_ Hc1%negb_true_iff%Z.eqb_neq].
      destruct (cast_cost_finite _ _ Hty Hc1) as [Hi Hfl]. apply Res_bind_inr in Hcast as (l' & Hcast & [= <- <-]).
      rewrite Hfl in Hcast |- *. destruct (Hside lhs l') as [? ->]; [by eexists|done|done|]. split_and!; [done|apply Hf|done].
    - apply andb_true_iff in Hc2 as [_ Hc2%negb_true_iff%Z.eqb_neq].
      destruct (cast_cost_finite _ _ (not_eq_sym Hty) Hc2) as [Hi Hfl]. apply Res_bind_inr in Hcast as (r' & Hcast & [= <- <-]).
      rewrite Hfl in Hcast |- *. destruct (Hside rhs r') as [? ->]; [by eexists|done|done|]. split_and!; [apply Hf|done|done]. }
  destruct (_ && _) in Hend; [done|]. injection Hend as <-. by constructor; destruct Hok as (? & ? & ?).
Qed.

Lemma create_comparisons_shape units cs : Forall (fun u => u.(unit_comp) <> NO_OP) units ->
  create_comparisons units = mret cs -> Forall comparison cs.
Proof.
  intros Hu. revert cs. induction Hu as [|u units Hop _ IH]; cbn.
  - by intros cs [= <-].
  - intros cs (c & Hc & (cs' & Hcs & [= <-])%Res_bind_inr)%Res_bind_inr. constructor; [by eapply create_comparison_shape|auto].
Qed.

Lemma inert_copy e : inert (copy e) = inert e.
Proof.
  induction e as [t f ty|v|c ty IH|op l r IHl IHr|ty cs IH|op l r IHl IHr|ty c nm IH|ty cs IH] using expression_ind; cbn; try done.
  induction IH as [|c cs Hc _ IH]; cbn; [done|]. by rewrite Hc, IH.
Qed.

(** The bottom of the plan of a SELECT, and the operators above it. *)
Definition select_core (src : LogicalOperator) (cmps : list Expression) : list LogicalOperator :=
  match cmps with [] => [src] | _ => [mkOper PREDICATE [(""%string, ConjunctionExpr AND cmps)] [src]] end.

Definition select_spine (stmt : SelectStmt) (group_by_oper : option LogicalOperator) : list (OperType * list Named) :=
  (if 0 <=? stmt.(sel_limit_num) then [(LIMIT stmt.(sel_limit_num), [])] else []) ++
  (if bool_decide (stmt.(sel_order_by) = []) then []
   else [(ORDER_BY stmt.(sel_order_by_asc), (fun e => (""%string, copy e)) <$> stmt.(sel_order_by))]) ++
  match group_by_oper with Some (mkOper ty _ _) => [(ty, [])] | None => [] end.

Lemma create_group_by_shape stmt g : create_group_by_plan stmt = mret g ->
  g = None \/ exists by_ aggs, g = Some (mkOper (GROUP_BY by_ aggs) [] []).
Proof.
  unfold create_group_by_plan. destruct (any_unbound _ _) as [b|]; [|done].
  destruct (sel_group_by stmt), (concat _); [intros [= <-]; by left|..]; destruct b; try done; intros [= <-]; right; by do 2 eexists.
Qed.

Lemma select_shape stmt o src : table_plan stmt.(sel_tables) = Some src -> create_select_plan stmt = mret o ->
  exists cmps g, create_comparisons stmt.(sel_filter_stmt) = mret cmps /\ create_group_by_plan stmt = mret g /\
    o = mkOper PROJECTION stmt.(sel_query_expressions) (plug (select_spine stmt g) (select_core src cmps)).
Proof.
  intros Hsrc (pred & Hpred & (g & Hg & [= <-])%Res_bind_inr)%Res_bind_inr.
  apply Res_bind_inr in Hpred as (cmps & Hcmps & [= <-]). exists cmps, g. split_and!; [done|done|].
  rewrite Hsrc. unfold select_spine, select_core.
  destruct (create_group_by_shape stmt g Hg) as [->|(by_ & aggs & ->)]; destruct cmps as [|c cmps];
    case_bool_decide; destruct (0 <=? sel_limit_num stmt); done.
Qed.
End select.

Lemma may_be_false_const `{CLib} cmps : Forall comparison cmps -> Forall (fun c => const_cmp c <> Some false) cmps ->
  ~ may_be_false (ConjunctionExpr AND cmps).
Proof.
  unfold may_be_false. cbn [parts]. induction 1 as [|c cs Hc _ IH]; intros Hf; [by intros ?%not_elem_of_nil|].
  apply Forall_cons in Hf as [Hc' Hf]. cbn. intros [E|?]%elem_of_cons; [|by apply IH].
  unfold simp in E. destruct (const_cmp c) as [[]|]; [done|done|]. by destruct Hc.
Qed.

(** ** Properties *)

(** C16: The optimizer ends.  On every plan the do-while loop of [OptimizeStage::rewrite] stops
    after at most as many passes as the plan has operators and expression nodes: a pass that
    reports a change made the plan smaller. *)
Theorem rewrite_terminates `{CLib} o : exists r, rewrite_loop (S (plan_size o)) o = Some r.
Proof.
  destruct (rewrite_loop (S (plan_size o)) o) eqn:E; [by eexists|]. by apply rewrite_loop_ends in E; [|lia].
Qed.

(** The conditions under which a SELECT keeps its meaning: the WHERE clause names fields of the
    tables; no constantly false comparison stands behind one that is not constant; and where
    there is one at all, LIMIT and GROUP BY do not stand directly over the predicate. *)
Record select_ok `{CLib} (table_rows : Table -> ReadWriteMode -> list (RID * list Z) * RC) (stmt : SelectStmt)
    (cmps : list Expression) : Prop := {
  ok_tables : stmt.(sel_tables) <> [];
  ok_rows : Forall (fun t => t.(table_name) <> ""%string /\ (table_rows t READ_ONLY).2 = RECORD_EOF) stmt.(sel_tables);
  ok_filter : Forall (unit_in_schema (tables_schema stmt.(sel_tables))) stmt.(sel_filter_stmt);
  ok_query : forallb inert stmt.(sel_query_expressions).*2 = true;
  ok_order : forallb inert stmt.(sel_order_by) = true;
  ok_late : late_false false cmps = false;
  ok_false : Forall (fun c => const_cmp c <> Some false) cmps \/
    create_group_by_plan stmt = mret None /\ (stmt.(sel_limit_num) < 0 \/ stmt.(sel_order_by) <> [])
}.

Section select_plans.
Context `{CLib} `{StdSort} (table_rows : Table -> ReadWriteMode -> list (RID * list Z) * RC).
Context (good : Table -> ReadWriteMode -> Prop).

(** Nothing is pushed into the plan of FROM yet. *)
Lemma table_plan_raw ts t mode preds : table_plan ts = Some (mkOper (TABLE_GET t mode preds) [] []) -> preds = [].
Proof.
  destruct ts as [|t0 ts]; [done|]. unfold table_plan. cbn [fold_left].
  assert (Hgen : forall o0, fold_left (fun table_oper t =>
    match table_oper with None => Some (table_get READ_ONLY t) | Some o => Some (mkOper JOIN [] [o; table_get READ_ONLY t]) end)
    ts (Some o0) = Some (mkOper (TABLE_GET t mode preds) [] []) -> o0 = mkOper (TABLE_GET t mode preds) [] []).
  { induction ts as [|t1 ts IH]; cbn; [by intros o0 [= ->]|]. intros o0 Hf. by apply IH in Hf. }
  intros Hf%Hgen. by injection Hf.
Qed.

Lemma select_core_ok stmt cmps src rows : select_ok table_rows stmt cmps -> create_comparisons stmt.(sel_filter_stmt) = mret cmps ->
  Forall comparison cmps -> table_plan stmt.(sel_tables) = Some src -> source good src ->
  denote table_rows src = Some (inr (rows, Some RECORD_EOF)) ->
  (forall t, t ∈ rows -> row_shaped t /\ schema_of t = tables_schema stmt.(sel_tables)) ->
  core_ok table_rows good (List.filter (fun t => all_true t cmps) rows) (Some RECORD_EOF) (may_be_false (ConjunctionExpr AND cmps)) (select_core src cmps).
Proof.
  intros Hok Hcmps Hcmp Hplan Hsrc Hd Hschema. unfold select_core. destruct cmps as [|c cmps0] eqn:E.
  - apply core_source; [done|]. by rewrite (list_filter_all (fun t => all_true t [])).
  - apply (core_predicate _ _ _ _ _ "" _ src rows); try done; [apply shape_raw; [done|by apply Hok]| |].
    + intros t Hin. destruct (Hschema t Hin) as [Hr Hs]. eapply create_comparisons_total; [done| |done]. rewrite Hs. apply Hok.
    + intros t mode preds ->. left. by eapply table_plan_raw.
Qed.

Lemma select_spine_ok stmt g : forallb inert stmt.(sel_query_expressions).*2 = true -> forallb inert stmt.(sel_order_by) = true ->
  create_group_by_plan stmt = mret g ->
  Forall spine_op ((PROJECTION, stmt.(sel_query_expressions)) :: select_spine stmt g) /\
  Forall (fun s => query_op s.1 = true) ((PROJECTION, stmt.(sel_query_expressions)) :: select_spine stmt g).
Proof.
  intros Hq Hord Hg. assert (Hio : forallb inert ((fun e => (""%string, copy e)) <$> stmt.(sel_order_by)).*2 = true).
  { revert Hord. clear. induction (sel_order_by stmt) as [|e es IH]; cbn; [done|]. rewrite inert_copy.
    intros [-> ?]%andb_true_iff. by apply IH. }
  unfold select_spine. destruct (create_group_by_shape stmt g Hg) as [->|(by_ & aggs & ->)];
    destruct (0 <=? _); case_bool_decide; split; repeat constructor; cbn; done.
Qed.

Lemma select_childless stmt cmps g : select_ok table_rows stmt cmps -> Forall comparison cmps ->
  create_group_by_plan stmt = mret g -> may_be_false (ConjunctionExpr AND cmps) ->
  let q := (PROJECTION, stmt.(sel_query_expressions)) in childless (List.last (q :: select_spine stmt g) q).1 = true.
Proof.
  intros Hok Hcmp Hg Hv. destruct (ok_false _ _ _ Hok) as [Hnf|[Hg' Hlim]]; [by destruct (may_be_false_const cmps Hcmp Hnf)|].
  rewrite Hg in Hg'. injection Hg' as ->. unfold select_spine. destruct Hlim as [Hlim|Hob].
  - rewrite (proj2 (Z.leb_gt 0 _)) by done. by case_bool_decide.
  - rewrite bool_decide_false by done. by destruct (0 <=? _).
Qed.

(** The plan before and after the rewriting: the operators above the predicate stay, and below
    them the rows that satisfy the WHERE clause. *)
Lemma select_rewritten stmt cmps o : create_comparisons stmt.(sel_filter_stmt) = mret cmps -> select_ok table_rows stmt cmps ->
  Forall (fun t => good t READ_ONLY) stmt.(sel_tables) -> create_select_plan stmt = mret o ->
  exists src rows g core', table_plan stmt.(sel_tables) = Some src /\ create_group_by_plan stmt = mret g /\
    denote table_rows src = Some (inr (rows, Some RECORD_EOF)) /\
    let result := List.filter (fun t => all_true t cmps) rows in
    let o' := mkOper PROJECTION stmt.(sel_query_expressions) (plug (select_spine stmt g) core') in
    core_ok table_rows good result (Some RECORD_EOF) (may_be_false (ConjunctionExpr AND cmps)) core' /\ denote table_rows o' = denote table_rows o /\
    (forall passes, (plan_size o < passes)%nat -> rewrite_loop passes o = Some (mret o')).
Proof.
  intros Hcmps Hok Hgood Ho.
  destruct (from_tables table_rows good stmt.(sel_tables) (ok_tables _ _ _ Hok) Hgood (ok_rows _ _ _ Hok)) as (src & Hplan & Hsrc & rows & Hd & Hschema).
  destruct (select_shape stmt o src Hplan Ho) as (cmps' & g & Hc & Hg & ->). rewrite Hcmps in Hc. injection Hc as <-.
  assert (Hcmp : Forall comparison cmps).
  { eapply create_comparisons_shape; [|done]. eapply Forall_impl; [apply Hok|]. by intros u [? _]. }
  pose proof (select_core_ok stmt cmps src rows Hok Hcmps Hcmp Hplan Hsrc Hd Hschema) as Hcore.
  destruct (select_spine_ok stmt g (ok_query _ _ _ Hok) (ok_order _ _ _ Hok) Hg) as [Hsp Hqo].
  destruct (spine_loop _ _ _ _ _ _ _ _ _ _ Hsp Hcore (Nat.lt_succ_diag_r _)) as (core' & Hloop & Hcore').
  exists src, rows, g, core'. cbn zeta. split_and!; [done..| |].
  - eapply (denote_plug table_rows good _ (Some RECORD_EOF) (may_be_false (ConjunctionExpr AND cmps)));
      [done|done| |exact Hcore|exact Hcore'|by destruct cmps]. intros Hv. by eapply select_childless.
  - intros passes Hp. by eapply rewrite_loop_more.
Qed.
End select_plans.



(** ** Where the meaning changes *)

Definition eq_units (table : Table) (k : Z) : FilterStmt :=
  [mkUnit EQUAL_TO (FilterAttr table.(table_name) "a" INTS) (FilterValue (VInt k));
   mkUnit EQUAL_TO (FilterValue (VInt 1)) (FilterValue (VInt 2))].

Definition field_a (table : Table) : Expression := FieldExpr table.(table_name) "a" INTS.

(** [SELECT a FROM t WHERE ...] with an optional LIMIT. *)
Definition select_a (table : Table) (filter : FilterStmt) (limit : Z) : SelectStmt :=
  mkSelect [table] [("a"%string, field_a table)] filter [] [] [] limit.

(** [SELECT SUM(a) FROM t WHERE ...] *)
Definition select_sum (table : Table) (filter : FilterStmt) : SelectStmt :=
  mkSelect [table] [("sum(a)"%string, AggregateExpr SUM (field_a table) "sum(a)")] filter [] [] [] (-1).

Definition rewritten `{CLib} (stmt : SelectStmt) : option (Res LogicalOperator) :=
  match create_select_plan stmt with Some (inr o) => rewrite_loop (S (plan_size o)) o | _ => None end.

(** [WHERE a = k AND 1 = 2] becomes [WHERE a = k].  When a conjunct is constantly false,
    [ConjunctionSimplificationRule] returns the first conjunct and not the false one, so that the
    optimized plan scans for the rows with [a = k], where no row satisfies the clause. *)
Theorem false_conjunct_dropped `{CLib} table k :
  rewritten (select_a table (eq_units table k) (-1)) =
    Some (mret (mkOper PROJECTION [("a"%string, field_a table)]
      [mkOper (TABLE_GET table READ_ONLY [ComparisonExpr EQUAL_TO (field_a table) (ValueExpr (VInt k))]) [] []])).
Proof. reflexivity. Qed.

(** A constantly false WHERE clause loses the child of the operator above it.  Under LIMIT
    the query then fails with [INVALID_ARGUMENT] instead of returning no rows; an aggregate
    query has a GROUP BY without a child, on which the physical planner's assertion fails. *)
Theorem constant_false_under_limit `{CLib} `{StdSort} table table_rows n : 0 <= n ->
  let never := [mkUnit EQUAL_TO (FilterValue (VInt 1)) (FilterValue (VInt 2))] in
  (exists o, rewritten (select_a table never n) = Some (mret o) /\ denote table_rows o = Some (inl INVALID_ARGUMENT)) /\
  (exists o, rewritten (select_sum table never) = Some (mret o) /\ denote table_rows o = None).
Proof.
  intros Hn never. split; [|by eexists]. unfold rewritten, create_select_plan. cbn.
  rewrite (proj2 (Z.leb_le 0 n)) by done. by eexists.
Qed.

Lemma constant_false_under_limit_witness : let _ := demo_clib in let _ := demo_sort in
  0 <= 5 /\
  let rows := fun _ _ => (demo_rows, RECORD_EOF) in
  let never := [mkUnit EQUAL_TO (FilterValue (VInt 1)) (FilterValue (VInt 2))] in
  (exists o, rewritten (select_a demo_list_table never 5) = Some (mret o) /\ denote rows o = Some (inl INVALID_ARGUMENT)) /\
  (exists o, rewritten (select_sum demo_list_table never) = Some (mret o) /\ denote rows o = None).
Proof. intros H H0. split; [lia|]. refine (constant_false_under_limit demo_list_table _ 5 _). lia. Defined.
