(* ===== verification/PlanSound.v ===== *)
(** * PlanSound: statements from plan to rows

    The layers of the SQL engine put together: a SELECT is planned ([Logical]), rewritten
    ([Rewrite]), given physical operators ([Plan]) and drained ([Exec]).  [scannable] is what the
    engine promises of a table; [RecordFile]'s scanner keeps that promise ([heap_table]).

    Fuel occurs only in the form "from some number on": [eventually]. *)

From stdpp Require Import strings.
From S2P Require Import Prelude Bytes Compare RecordPage RecordFile MvccTrx Float32 Value Expr Tuple Exec ExecLaws Logical Rewrite RewriteSound Plan.
#[local] Open Scope Z_scope.

(** ** Enough fuel *)

Definition eventually (P : nat -> Prop) : Prop := exists n, forall m, (n <= m)%nat -> P m.

Lemma eventually_and (P Q : nat -> Prop) : eventually P -> eventually Q -> eventually (fun n => P n /\ Q n).
Proof. intros [a Ha] [b Hb]. exists (a + b)%nat. intros m Hm. split; [apply Ha|apply Hb]; lia. Qed.

Lemma eventually_mono (P Q : nat -> Prop) : (forall n, P n -> Q n) -> eventually P -> eventually Q.
Proof. intros HPQ [a Ha]. exists a. auto. Qed.

Lemma eventually_always (P : nat -> Prop) : (forall n, P n) -> eventually P.
Proof. by exists O. Qed.

Lemma eventually_gt k : eventually (fun n => (k < n)%nat).
Proof. exists (S k). lia. Qed.

Lemma eventually_bounded r : eventually (fun n => bounded n r).
Proof. destruct r as [[rc|[ts e]]|]; [by apply eventually_always|apply eventually_gt|by apply eventually_always]. Qed.

(** What the client sees of a run; [None]: the server stops. *)
Definition outcome (r : Run) : option (RC + list Tuple * RC) :=
  match r with
  | None | Some (inr (_, None)) => None
  | Some (inl rc) => Some (inl rc)
  | Some (inr (ts, Some rc)) => Some (inr (ts, rc))
  end.

Lemma drain_stops op idle ts s n : yields op idle ts None s -> drain op n s = None.
Proof.
  revert s n. induction ts as [|t ts IH]; intros s [|n]; cbn; try done; intros [_ Hy]; [by rewrite Hy|].
  destruct Hy as (s' & -> & -> & Hy). by rewrite (IH s' n Hy).
Qed.

Lemma execute_run op idle r n : bounded n r -> opens op idle r op.(created) -> execute op n = outcome r.
Proof.
  destruct r as [[rc|[ts [rc|]]]|]; cbn [bounded outcome].
  - intros _ (Hrc & s' & Ho). unfold execute. rewrite Ho. by destruct rc.
  - intros Hb Ho. by eapply execute_opens.
  - intros _ (s & Ho & Hy). unfold execute. rewrite Ho. cbn. by rewrite (drain_stops _ _ _ _ _ Hy).
  - intros _ Ho. unfold execute. by rewrite Ho.
Qed.

(** ** Plans over tables that are scanned *)

Section runs.
Context `{CLib} `{StdSort} (table_rows : Table -> ReadWriteMode -> list (RID * list Z) * RC).
Notation denote := (denote table_rows).

(** The scanner gives the rows of the table, and no field has an index. *)
Definition scannable (t : Table) (mode : ReadWriteMode) : Prop :=
  TableRows t mode (table_rows t mode).1 (table_rows t mode).2 /\ forall f, t.(find_index_by_field) f = None.

Definition closes (op : PhysicalOperator) : Prop := forall s, is_Some (op.(close) s).

Definition runs (o : LogicalOperator) (fuel : nat) : Prop :=
  exists op idle, create fuel join_operator o = mret op /\ opens op idle (denote o) op.(created).

Definition restarts (o : LogicalOperator) (fuel : nat) : Prop :=
  exists op idle, create fuel join_operator o = mret op /\ reopens op idle (denote o) /\ closes op.

Lemma scan_closes fuel t mode preds : closes (table_scan fuel t mode preds).
Proof. intros [[sc|] cur]; by eexists. Qed.

Lemma join_closes l r : closes l -> closes r -> closes (join_operator l r).
Proof.
  intros Hl Hr s. cbn. unfold join_close. destruct (Hl (left_state l r s)) as [[rc l'] ->]. cbn.
  destruct (right_closed l r s); [by eexists|]. destruct (Hr (right_state l r s)) as [[rc' r'] ->]. destruct rc'; by eexists.
Qed.

Lemma predicate_closes fuel e op : closes op -> closes (predicate_operator fuel e op).
Proof. intros Hc s. cbn. unfold predicate_close. destruct (Hc s) as [[rc s'] ->]. by eexists. Qed.

Lemma no_vector_access t preds : (forall f, t.(find_index_by_field) f = None) -> find_vector_access t preds = Some None.
Proof.
  intros Hn. assert (Ha : forall e, vector_access t e = Some None).
  { intros e. unfold vector_access. repeat (case_match; try done); by match goal with Hf : find_index_by_field t _ = Some _ |- _ => rewrite Hn in Hf end. }
  induction preds as [|e preds IH]; [done|]. cbn. destruct e; rewrite ?Ha; cbn; rewrite ?Ha; cbn; done.
Qed.

Lemma no_index_access t preds : (forall f, t.(find_index_by_field) f = None) -> find_index_access t preds = None.
Proof.
  intros Hn. induction preds as [|e preds IH]; [done|]. cbn. destruct e; try done. case_bool_decide; [|done].
  repeat (case_match; try done); by match goal with Hf : find_index_by_field t _ = Some _ |- _ => rewrite Hn in Hf end.
Qed.

Lemma source_stream good o : source good o -> exists ts e, denote o = Some (inr (ts, e)).
Proof.
  induction 1 as [t mode preds _|l r Hl (ls & el & Hdl) Hr (rs & er & Hdr)]; cbn; fold denote.
  - destruct (table_rows t mode) as [rows e]. destruct (filter_rows _ _ _) as [ts e']. by do 2 eexists.
  - rewrite Hdl, Hdr. cbn. destruct ls; [by do 2 eexists|]. destruct (join_rows _ _ _ _) as [ts e]. by do 2 eexists.
Qed.

Lemma source_restarts o : source scannable o -> eventually (restarts o).
Proof.
  induction 1 as [t mode preds [Hrows Hno]|l r Hl IHl Hr IHr].
  - eapply eventually_mono; [|apply (eventually_gt (length (table_rows t mode).1))]. intros fuel Hf.
    exists (table_scan fuel t mode preds), (fun _ => True). split.
    + cbn. unfold table_get_plan. by rewrite no_vector_access, no_index_access by done.
    + split; [|apply scan_closes]. split; [done|]. intros s _. cbn. pose proof (scan_opens fuel t mode preds _ _ s Hf) as Ho.
      by destruct (table_rows t mode) as [rows e].
  - eapply eventually_mono; [|apply (eventually_and _ _ IHl IHr)]. intros fuel [(lo & li & Hcl & [Hil Hol] & Hlc) (ro & ri & Hcr & [Hir Hor] & Hrc)].
    destruct (source_stream _ l Hl) as (ls & el & Hdl), (source_stream _ r Hr) as (rs & er & Hdr).
    exists (join_operator lo ro), (join_idle lo ro li ri). split; [cbn; by rewrite Hcl, Hcr|]. split; [|by apply join_closes].
    split; [done|]. intros s Hs. rewrite Hdr in Hor. rewrite Hdl in Hol.
    pose proof (join_opens lo ro li ri el er rs Hor (Some (inr (ls, el))) s) as Hj.
    cbn [denote Logical.denote]. fold denote. rewrite Hdl, Hdr. cbn in Hj |- *. destruct ls; apply Hj; try naive_solver; by apply Hol, Hs.
Qed.

Lemma core_runs_closing result ending vanishes c : core_ok table_rows scannable result ending vanishes [c] ->
  eventually (fun fuel => exists op idle, create fuel join_operator c = mret op /\ opens op idle (denote c) op.(created) /\ closes op).
Proof.
  intros Hcore. inversion Hcore as [nm e src rows Hsrc He _ Hd _ _ _|src Hsrc|]; simplify_eq.
  - eapply eventually_mono; [|apply (eventually_and _ _ (source_restarts src Hsrc) (eventually_bounded (denote src)))].
    intros fuel [(op & idle & Hc & [Hi Ho] & Hcl) Hb]. exists (predicate_operator fuel e op), idle.
    pose proof (shape_boolean e He) as Hbool. split; [cbn; rewrite Hc; cbn; by rewrite decide_True|].
    split; [|by apply predicate_closes].
    cbn [Logical.denote]. rewrite decide_True by done. apply (predicate_opens fuel e op idle (denote src) op.(created) Hb). by apply Ho.
  - eapply eventually_mono; [|by apply source_restarts]. intros fuel (op & idle & ? & [Hi Ho] & ?). exists op, idle. auto.
Qed.

Lemma core_runs result ending vanishes c : core_ok table_rows scannable result ending vanishes [c] -> eventually (runs c).
Proof. intros Hc%core_runs_closing. eapply eventually_mono; [|exact Hc]. intros fuel (op & idle & ? & ? & _). by exists op, idle. Qed.

(** An operator over a plan that runs. *)
Lemma query_op_runs ty es c : query_op ty = true -> (forall n, ty = LIMIT n -> 0 <= n) -> eventually (runs c) ->
  eventually (runs (mkOper ty es [c])).
Proof.
  intros Hq Hlim Hc. eapply eventually_mono; [|apply (eventually_and _ _ Hc (eventually_bounded (denote c)))].
  intros fuel [(op & idle & Hcr & Ho) Hb]. destruct ty as [| | | | | | | |by_ aggs|asc|n]; try done.
  - exists (project_operator es (Some op)), idle. split; [cbn; by rewrite Hcr|]. by apply project_opens.
  - destruct by_ as [|b by_].
    + exists (scalar_group_by fuel aggs op), (scalar_idle op idle). split; [cbn; by rewrite Hcr|]. by apply scalar_opens.
    + exists (hash_group_by fuel aggs (b :: by_) op), (fun _ => True). split; [cbn; by rewrite Hcr|]. by eapply hash_opens.
  - exists (order_by_operator fuel (copy <$> es.*2) asc (Some op)), (order_idle op idle). split; [cbn; by rewrite Hcr|]. by apply order_opens.
  - exists (limit_operator n (Some op)), (limit_idle op idle). split; [cbn; by rewrite Hcr|]. apply limit_opens; [by apply Hlim|done].
Qed.

Lemma childless_runs ty es : childless ty = true -> eventually (runs (mkOper ty es [])).
Proof.
  intros Hq. apply eventually_always. intros fuel. destruct ty as [| | | | | | | | |asc|]; try done.
  - exists (project_operator es None), (fun _ => True). split; [done|]. cbn. exists tt. split; [done|].
    split; [by exists tt|]. split; [done|]. exists tt. split; [done|]. by exists tt.
  - exists (order_by_operator fuel (copy <$> es.*2) asc None), (fun _ => True). split; [done|]. cbn.
    exists ([], -1, tt). split; [done|]. split; [by eexists|]. split; [done|]. eexists. split; [done|]. intros _. by eexists.
Qed.

Lemma plug_runs result ending vanishes sp ty es core : Forall (fun s => query_op s.1 = true) ((ty, es) :: sp) ->
  (forall n, LIMIT n ∈ ((ty, es) :: sp).*1 -> 0 <= n) -> core_ok table_rows scannable result ending vanishes core ->
  (vanishes -> childless (List.last ((ty, es) :: sp) (ty, es)).1 = true) -> eventually (runs (mkOper ty es (plug sp core))).
Proof.
  intros Hq Hlim Hcore Hlast. revert ty es Hq Hlim Hlast. induction sp as [|[ty1 es1] sp IH]; intros ty es Hq Hlim Hlast;
    apply Forall_cons in Hq as [Hq1 Hq]; cbn [plug].
  - assert (Hn : forall n, ty = LIMIT n -> 0 <= n) by (intros n ->; apply Hlim; set_solver).
    destruct core as [|c [|c' core]]; [| |by inversion Hcore].
    + apply childless_runs. apply Hlast. by inversion Hcore.
    + apply query_op_runs; [done|done|]. by eapply core_runs.
  - apply query_op_runs; [done|intros n ->; apply Hlim; set_solver|]. apply IH; [done|set_solver|].
    intros Hv. specialize (Hlast Hv). revert Hlast. clear. revert ty1 es1.
    induction sp as [|s sp IH]; intros; [done|]. cbn in *. destruct sp; auto.
Qed.

Lemma select_spine_limits stmt g n : LIMIT n ∈ ((PROJECTION, stmt.(sel_query_expressions)) :: select_spine stmt g).*1 ->
  create_group_by_plan stmt = mret g -> 0 <= n.
Proof.
  intros Hin Hg. unfold select_spine in Hin.
  destruct (create_group_by_shape stmt g Hg) as [->|(by_ & aggs & ->)]; destruct (0 <=? sel_limit_num stmt) eqn:El;
    case_bool_decide; cbn in Hin; apply Z.leb_le in El || clear El; set_solver.
Qed.

(** A SELECT from plan to result. *)
Lemma select_runs stmt cmps o : create_comparisons stmt.(sel_filter_stmt) = mret cmps -> select_ok table_rows stmt cmps ->
  Forall (fun t => scannable t READ_ONLY) stmt.(sel_tables) -> create_select_plan stmt = mret o ->
  eventually (fun fuel => exists op, plan_statement fuel join_operator fuel (Select stmt) = Some (mret (QueryPlan op)) /\
    execute op fuel = outcome (denote o)).
Proof.
  intros Hcmps Hok Hscan Ho.
  destruct (select_rewritten table_rows scannable stmt cmps o Hcmps Hok Hscan Ho) as (src & rows & g & core' & Hplan & Hg & Hd & Hcore & Hden & Hr).
  destruct (select_spine_ok stmt g (ok_query _ _ _ Hok) (ok_order _ _ _ Hok) Hg) as [_ Hqo].
  assert (Hcmp : Forall comparison cmps).
  { eapply create_comparisons_shape; [|done]. eapply Forall_impl; [apply Hok|]. by intros u [? _]. }
  assert (Hrun : eventually (runs (mkOper PROJECTION (sel_query_expressions stmt) (plug (select_spine stmt g) core')))).
  { eapply plug_runs; [done| |done|]; [intros n Hin; by eapply select_spine_limits|]. intros Hv. by eapply select_childless. }
  pose proof (eventually_and _ _ Hrun (eventually_and _ _ (eventually_gt (plan_size o)) (eventually_bounded (denote o)))) as Hev.
  eapply eventually_mono; [|exact Hev]. intros fuel ((op & idle & Hcr & Hop) & Hp & Hb). exists op. rewrite Hden in Hop. split.
  - unfold plan_statement. cbn [create_logical]. rewrite Ho. cbn [mret Res_ret]. rewrite (Hr fuel Hp). cbn in Hcr |- *. by rewrite Hcr.
  - by eapply execute_run.
Qed.
End runs.

(** ** What a SELECT returns *)

Section answers.
Context `{CLib} `{StdSort} (table_rows : Table -> ReadWriteMode -> list (RID * list Z) * RC).

Definition rows_of (t : Table) : list Tuple := row_tuple t <$> (table_rows t READ_ONLY).1.

Definition product (ls rs : list Tuple) : list Tuple := l ← ls; JoinedTuple l <$> rs.

(** The product of the tables of FROM, leftmost first. *)
Definition cross_product (ts : list Table) : list Tuple :=
  match ts with
  | [] => []
  | t :: ts' => fold_left (fun acc t' => product acc (rows_of t')) ts' (rows_of t)
  end.

Definition limited (n : Z) (ts : list Tuple) : list Tuple := if 0 <=? n then take (Z.to_nat n) ts else ts.

(** The rows that satisfy the WHERE clause. *)
Definition selected_rows (cmps : list Expression) (ts : list Table) : list Tuple :=
  List.filter (fun t => all_true t cmps) (cross_product ts).

Lemma join_rows_product ls rs :
  join_rows ls (Some RECORD_EOF) rs (Some RECORD_EOF) = (product ls rs, Some RECORD_EOF).
Proof.
  induction ls as [|l ls IH]; [done|]. cbn -[product]. destruct rs as [|r rs].
  - f_equal. unfold product. clear. induction ls as [|l' ls IH]; [done|exact IH].
  - rewrite IH. done.
Qed.

Lemma table_get_rows t : (table_rows t READ_ONLY).2 = RECORD_EOF ->
  denote table_rows (table_get READ_ONLY t) = Some (inr (rows_of t, Some RECORD_EOF)).
Proof.
  intros He. cbn. unfold rows_of. destruct (table_rows t READ_ONLY) as [rs e]. cbn in He. subst e.
  rewrite (filter_rows_total (filter []) (fun _ => true)) by done. by rewrite (list_filter_all (fun _ => true)).
Qed.

Lemma table_plan_rows ts src : Forall (fun t => (table_rows t READ_ONLY).2 = RECORD_EOF) ts -> table_plan ts = Some src ->
  denote table_rows src = Some (inr (cross_product ts, Some RECORD_EOF)).
Proof.
  intros Hts. destruct Hts as [|t ts Ht Hts]; [done|]. unfold table_plan, cross_product. cbn [fold_left].
  pose proof (table_get_rows t Ht) as Hd. revert Hd. generalize (table_get READ_ONLY t) as o, (rows_of t) as rows.
  induction Hts as [|t' ts Ht' _ IH]; intros o rows Hd; cbn [fold_left]; [by intros [= <-]|]. apply IH.
  cbn [denote]. rewrite Hd, (table_get_rows t' Ht'). unfold join_run. cbn [bind_run]. rewrite join_rows_product.
  by destruct rows.
Qed.

Lemma limit_rows_eof n ts : 0 <= n -> limit_rows n ts (Some RECORD_EOF) = (take (Z.to_nat n) ts, Some RECORD_EOF).
Proof.
  intros Hn. unfold limit_rows. rewrite (proj2 (Z.leb_le 0 n)) by done. cbn [andb]. destruct (Z.leb_spec n (zlen ts)); [done|].
  rewrite take_ge; [done|]. unfold zlen in *. lia.
Qed.

(** The rows of a plan in terms of the rows below ORDER BY and GROUP BY. *)
Lemma select_core_rows stmt cmps o : create_comparisons stmt.(sel_filter_stmt) = mret cmps -> select_ok table_rows stmt cmps ->
  create_select_plan stmt = mret o -> exists core g, create_group_by_plan stmt = mret g /\
    denote table_rows core = Some (inr (selected_rows cmps stmt.(sel_tables), Some RECORD_EOF)) /\
    o = mkOper PROJECTION stmt.(sel_query_expressions) (plug (select_spine stmt g) [core]) /\
    forall t, t ∈ selected_rows cmps stmt.(sel_tables) -> row_shaped t /\ schema_of t = tables_schema stmt.(sel_tables).
Proof.
  intros Hcmps Hok Ho.
  destruct (from_tables table_rows (fun _ _ => True) stmt.(sel_tables) (ok_tables _ _ _ Hok) (ltac:(by apply Forall_true))
    (ok_rows _ _ _ Hok)) as (src & Hplan & Hsrc & rows & Hd & Hschema).
  destruct (select_shape stmt o src Hplan Ho) as (cmps' & g & Hc & Hg & ->). rewrite Hcmps in Hc. injection Hc as <-.
  assert (Hcmp : Forall comparison cmps).
  { eapply create_comparisons_shape; [|done]. eapply Forall_impl; [apply Hok|]. by intros u [? _]. }
  pose proof (select_core_ok table_rows (fun _ _ => True) stmt cmps src rows Hok Hcmps Hcmp Hplan Hsrc Hd Hschema) as Hcore.
  assert (rows = cross_product stmt.(sel_tables)) as ->.
  { rewrite (table_plan_rows _ _ (Forall_impl _ _ _ (ok_rows _ _ _ Hok) (fun _ Ht => proj2 Ht)) Hplan) in Hd. by injection Hd. }
  assert (exists core, select_core src cmps = [core]) as [core Hc] by (destruct cmps; by eexists).
  exists core, g. rewrite Hc in *. split_and!; [done|by apply (core_denote _ _ _ _ _ _ Hcore)|done|].
  intros t Hin. apply Hschema. unfold selected_rows in Hin. by apply list_elem_of_In, filter_In in Hin as [?%list_elem_of_In _].
Qed.

(** What SELECT returns.  For a statement without GROUP BY, aggregates and ORDER BY that
    satisfies [select_ok], on tables whose scanners keep their promise, the server plans,
    rewrites and executes the statement without an error, and the client receives exactly the
    projections of the rows of the product of the tables that make every comparison of the
    WHERE clause true, in the order of the product and cut at LIMIT, and then [RECORD_EOF]. *)
Theorem select_answers stmt cmps : create_comparisons stmt.(sel_filter_stmt) = mret cmps -> select_ok table_rows stmt cmps ->
  Forall (fun t => scannable table_rows t READ_ONLY) stmt.(sel_tables) ->
  create_group_by_plan stmt = mret None -> stmt.(sel_order_by) = [] ->
  eventually (fun fuel => exists op, plan_statement fuel join_operator fuel (Select stmt) = Some (mret (QueryPlan op)) /\
    execute op fuel = Some (inr (project_rows stmt.(sel_query_expressions)
      (limited stmt.(sel_limit_num) (selected_rows cmps stmt.(sel_tables))), RECORD_EOF))).
Proof.
  intros Hcmps Hok Hscan Hg Hord. assert (exists o, create_select_plan stmt = mret o) as [o Ho].
  { unfold create_select_plan, create_filter_plan. rewrite Hcmps, Hg. by eexists. }
  pose proof (select_runs table_rows stmt cmps o Hcmps Hok Hscan Ho) as Hrun.
  destruct (select_core_rows stmt cmps o Hcmps Hok Ho) as (core & g & Hg' & Hd & Heq & _).
  rewrite Hg in Hg'. injection Hg' as <-. eapply eventually_mono; [|exact Hrun]. intros fuel (op & Hplan & Hex). exists op.
  split; [done|]. rewrite Hex, Heq. unfold select_spine, limited. rewrite Hord, bool_decide_true by done.
  destruct (Z.leb_spec 0 (sel_limit_num stmt)); cbn [app plug denote]; rewrite Hd; cbn; [by rewrite limit_rows_eof|done].
Qed.
End answers.

(** ** DELETE *)

Section deletes.
Context `{CLib} `{StdSort} (table_rows : Table -> ReadWriteMode -> list (RID * list Z) * RC).
Context {W : Type} (trx_delete_record : W -> RID -> list Z -> RC * W).

Lemma row_records t rows : mapM row_record (row_tuple t <$> rows) = Some rows.
Proof. induction rows as [|[r d] rows IH]; [done|]. cbn. cbn in IH. by rewrite IH. Qed.

Lemma filter_rows_of t (p : Tuple -> bool) rows :
  List.filter p (row_tuple t <$> rows) = row_tuple t <$> List.filter (fun r => p (row_tuple t r)) rows.
Proof. induction rows as [|r rows IH]; cbn; [done|]. destruct (p _); cbn; by rewrite IH. Qed.

(** What DELETE does.  The statement is planned, rewritten and executed: the records of the
    table that make every comparison of the WHERE clause true are handed to the transaction one
    by one until one of them cannot be deleted.  The code [e] with which the scan of the table
    ended plays no part: where the scan stopped at a record that another transaction holds
    ([LOCKED_CONCURRENCY_CONFLICT]), the records in front of it are deleted and the statement
    reports success. *)
Theorem delete_executes table units cmps rows e w : table_rows table READ_WRITE = (rows, e) ->
  scannable table_rows table READ_WRITE -> table.(table_name) <> ""%string ->
  Forall (unit_in_schema (table_schema table)) units -> create_comparisons units = mret cmps -> late_false false cmps = false ->
  eventually (fun fuel => exists child, plan_statement fuel join_operator fuel (DeleteStmt table units) = Some (mret (DeletePlan table child)) /\
    delete_open fuel trx_delete_record child w =
      Some (delete_records trx_delete_record w (List.filter (fun r => all_true (row_tuple table r) cmps) rows))).
Proof.
  intros Hrows Hscan Hname Hunits Hcmps Hlate.
  assert (Hcmp : Forall comparison cmps).
  { eapply create_comparisons_shape; [|done]. eapply Forall_impl; [exact Hunits|]. by intros u [? _]. }
  set (src := table_get READ_WRITE table). set (o := mkOper (DELETE table) [] (plug [] (select_core src cmps))).
  assert (Ho : create_delete_plan table units = mret o).
  { unfold create_delete_plan, create_filter_plan. rewrite Hcmps. by destruct cmps. }
  assert (Hd : denote table_rows src = Some (inr (row_tuple table <$> rows, Some e))).
  { cbn. rewrite Hrows, (filter_rows_total (filter []) (fun _ => true)) by done. by rewrite (list_filter_all (fun _ => true)). }
  set (result := List.filter (fun t => all_true t cmps) (row_tuple table <$> rows)).
  assert (Hcore : core_ok table_rows (scannable table_rows) result (Some e) True (select_core src cmps)).
  { unfold result, select_core. destruct cmps as [|c cmps0] eqn:E.
    - apply core_source; [by constructor|]. by rewrite (list_filter_all (fun t => all_true t [])).
    - apply (core_predicate _ _ _ _ _ "" _ src (row_tuple table <$> rows)); try done; [by constructor|by apply shape_raw| |].
      + intros t (r & -> & _)%list_elem_of_fmap. by eapply create_comparisons_total.
      + intros t mode preds [= _ _ <-]. by left. }
  destruct (spine_loop table_rows (scannable table_rows) result (Some e) True (S (plan_size o)) [] (DELETE table) [] _ ltac:(by repeat constructor) Hcore)
    as (core' & Hloop & Hcore'); [apply Nat.lt_succ_diag_r|].
  assert (Hplan : forall fuel, (plan_size o < fuel)%nat ->
    plan_statement fuel join_operator fuel (DeleteStmt table units) = Some (create_physical fuel join_operator (mkOper (DELETE table) [] core'))).
  { intros fuel Hf. unfold plan_statement. cbn [create_logical]. rewrite Ho. cbn [mret Res_ret].
    pose proof (rewrite_loop_more _ fuel _ _ Hf Hloop) as Hm. fold o in Hm. rewrite Hm. done. }
  destruct core' as [|c [|c2 core']]; [| |by inversion Hcore'].
  - eapply eventually_mono; [|apply (eventually_gt (plan_size o))]. intros fuel Hf. exists None. split; [by rewrite Hplan|].
    assert (Hnil : result = []) by by inversion Hcore'. unfold result in Hnil. rewrite filter_rows_of in Hnil. apply fmap_nil_inv in Hnil. by rewrite Hnil.
  - pose proof (core_denote _ _ _ _ _ _ Hcore') as Hdc.
    pose proof (eventually_and _ _ (core_runs_closing _ _ _ _ _ Hcore') (eventually_and _ _ (eventually_gt (plan_size o)) (eventually_gt (length result)))) as Hev.
    eapply eventually_mono; [|exact Hev]. intros fuel ((op & idle & Hcr & Hop & Hcl) & Hf & Hlen). exists (Some op). split.
    + rewrite Hplan by done. cbn. by rewrite Hcr.
    + rewrite Hdc in Hop. eapply delete_open_ok; [exact Hop|done| |intros s; destruct (Hcl s) as [r Hr]; by exists r].
      unfold result. rewrite filter_rows_of. apply row_records.
Qed.
End deletes.

(** ** The second definition of the nested-loop join *)

Section second_join.
Context `{CLib} `{StdSort} (table_rows : Table -> ReadWriteMode -> list (RID * list Z) * RC).

Definition join_stmt (l r : Table) : SelectStmt := mkSelect [l; r] [("a"%string, FieldExpr l.(table_name) "a" INTS)] [] [] [] [] (-1).

(** With the class of [nested_loop_join_physical_operator.cpp], the second definition of
    [NestedLoopJoinPhysicalOperator] in the sources, a join of two tables returns no rows at all: after
    a row its [next] goes on to the next one instead of returning, until the left child ends. *)
Theorem second_join_finds_nothing l r : scannable table_rows l READ_ONLY -> scannable table_rows r READ_ONLY ->
  (table_rows l READ_ONLY).2 = RECORD_EOF -> (table_rows r READ_ONLY).2 = RECORD_EOF ->
  eventually (fun fuel => exists op,
    plan_statement fuel (nested_loop_join_operator fuel) 20 (Select (join_stmt l r)) = Some (mret (QueryPlan op)) /\
    execute op fuel = Some (inr ([], RECORD_EOF))).
Proof.
  intros [Hl Hnl] [Hr Hnr] Hel Her. set (q := [("a"%string, FieldExpr l.(table_name) "a" INTS)]).
  set (ls := length (table_rows l READ_ONLY).1). set (rs := length (table_rows r READ_ONLY).1).
  eapply eventually_mono; [|apply (eventually_gt (ls * S rs + ls + rs))]. intros fuel Hf. cbv beta in Hf.
  assert (Hfl : (ls < fuel)%nat /\ (rs < fuel)%nat /\ (ls * S rs < fuel)%nat) by (clearbody ls rs; pose proof (Nat.le_0_l (ls * S rs)); split_and!; lia). destruct Hfl as (Hfl & Hfr & Hfj).
  set (lo := table_scan fuel l READ_ONLY []). set (ro := table_scan fuel r READ_ONLY []).
  exists (project_operator q (Some (nested_loop_join_operator fuel lo ro))). split.
  - unfold plan_statement. cbn -[rewrite_loop]. change (rewrite_loop 20 _) with
      (Some (mret (mkOper PROJECTION q [mkOper JOIN [] [table_get READ_ONLY l; table_get READ_ONLY r]]) : Res LogicalOperator)).
    done.
  - assert (Hlo : forall s, opens lo (fun _ => True) (Some (inr (rows_of table_rows l, Some RECORD_EOF))) s).
    { intros s. pose proof (scan_opens fuel l READ_ONLY [] _ _ s Hfl) as Ho.
      rewrite (filter_rows_total (filter []) (fun _ => true)), (list_filter_all (fun _ => true)), Hel in Ho by done. exact Ho. }
    assert (Hro : forall s, True -> opens ro (fun _ => True) (Some (inr (rows_of table_rows r, Some RECORD_EOF))) s).
    { intros s _. pose proof (scan_opens fuel r READ_ONLY [] _ _ s Hfr) as Ho.
      rewrite (filter_rows_total (filter []) (fun _ => true)), (list_filter_all (fun _ => true)), Her in Ho by done. exact Ho. }
    assert (Hj : opens (nested_loop_join_operator fuel lo ro) (join_idle lo ro (fun _ => True) (fun _ => True)) (Some (inr ([], Some RECORD_EOF))) (join_created lo ro)).
    { apply (nlj_opens lo ro (fun _ => True) (fun _ => True) (Some RECORD_EOF) (Some RECORD_EOF) (rows_of table_rows r) Hro fuel eq_refl (rows_of table_rows l));
        [unfold rows_of; by rewrite !length_fmap|done|apply Hlo]. }
    eapply execute_opens; [cbn; lia|]. exact (project_opens q _ _ _ _ Hj).
Qed.
End second_join.

(** ** Heap tables *)

(** A table on the record file of [RecordFile]: [HeapTableEngine::get_record_scanner] gives a
    scanner without a condition filter; [visit] is the transaction's verdict on a record. *)
Section heap.
Context (name : string) (fields : list FieldMeta) (index : string -> option Index).
Context (f : RecordFile.RecFile) (visit : ReadWriteMode -> list Z -> RC).

Definition heap_table : Table :=
  mkTable name fields index (ReadWriteMode * RecordFile.Scanner)
    (fun mode => (SUCCESS, (mode, RecordFile.open_scan f)))
    (fun '(mode, sc) =>
       let '(rc, r, sc') := RecordFile.scan_next f (fun _ => true) (visit mode) sc in (rc, r, (mode, sc')))
    (fun _ => SUCCESS) (RecordFile.get_record f) (fun data mode => visit mode data).

Definition heap_rows (mode : ReadWriteMode) : list (RID * list Z) :=
  RecordFile.pages_records (fun _ => true) (visit mode) f (RecordFile.data_pages f).

Context (rec_size : Z) (Hok : RecordFile.file_ok rec_size f).
Context (Hvisit : forall mode d, visit mode d = SUCCESS \/ visit mode d = RECORD_INVISIBLE).

Lemma heap_scanner_gives mode sc rows : RecordFile.remaining (fun _ => true) (visit mode) f sc rows ->
  scanner_gives heap_table rows RECORD_EOF (mode, sc).
Proof.
  revert sc. induction rows as [|r rows IH]; intros sc Hrem; pose proof (RecordFile.scan_next_ok rec_size _ _ (Hvisit mode) f sc _ Hok Hrem) as Hn; cbn.
  - destruct Hn as [sc' ->]. split; [done|]. by do 2 eexists.
  - destruct Hn as (sc' & -> & Hrem'). eexists. split; [done|]. by apply IH.
Qed.

(** The scanner of a heap table keeps the promise of [TableRows]: the rows are the stored
    records that the transaction sees, page by page. *)
Lemma heap_table_rows mode : TableRows heap_table mode (heap_rows mode) RECORD_EOF.
Proof.
  split; [|done]. exists (mode, RecordFile.open_scan f). split; [done|]. apply heap_scanner_gives.
  unfold heap_rows, RecordFile.open_scan. rewrite (RecordFile.data_pages_iter rec_size) by done.
  apply RecordFile.rem_none. intros pn Hpn. by apply (RecordFile.elem_of_data_pages rec_size).
Qed.

Lemma elem_of_heap_rows mode rid d : (rid, d) ∈ heap_rows mode <->
  RecordFile.record_at f rid = Some d /\ visit mode d = SUCCESS.
Proof using Hok Hvisit.
  clear index. destruct (RecordFile.scan_selects rec_size f (fun _ => true) (visit mode) (S (length (heap_rows mode))) Hok (Hvisit mode) (Nat.lt_succ_diag_r _))
    as [_ Hs]. unfold heap_rows. rewrite Hs. unfold RecordFile.selected. cbn. destruct (Hvisit mode d) as [-> | ->]; cbn; intuition discriminate.
Qed.
End heap.

(** ** Examples

    The two records of [RecordFile.demo_file2] as rows of a table with one INTS column. *)
Definition heap_demo : Table := heap_table "t" [mkField "a" INTS 0 4] (fun _ => None) RecordFile.demo_file2 (fun _ _ => SUCCESS).
Definition demo_table_rows (t : Table) (mode : ReadWriteMode) : list (RID * list Z) * RC :=
  (heap_rows RecordFile.demo_file2 (fun _ _ => SUCCESS) mode, RECORD_EOF).

Lemma heap_demo_scannable mode : scannable demo_table_rows heap_demo mode.
Proof.
  split; [|done]. apply (heap_table_rows "t" _ _ RecordFile.demo_file2 (fun _ _ => SUCCESS) 4 (proj1 RecordFile.demo_file2_ok)). by left.
Qed.

Definition demo_column : Expression := FieldExpr "t" "a" INTS.
Definition big_a : FilterStmt := [mkUnit GREAT_THAN (FilterAttr "t" "a" INTS) (FilterValue (VInt 100000000))].
Definition big_a_planned : list Expression := [ComparisonExpr GREAT_THAN demo_column (ValueExpr (VInt 100000000))].

(** [SELECT a FROM t ...] *)
Definition demo_select (filter : FilterStmt) : SelectStmt := mkSelect [heap_demo] [("a"%string, demo_column)] filter [] [] [] (-1).

Lemma demo_select_ok `{CLib} order asc n : forallb inert order = true ->
  select_ok demo_table_rows (mkSelect [heap_demo] [("a"%string, demo_column)] big_a [] order asc n) big_a_planned.
Proof.
  intros Hord. split; try done.
  - by repeat constructor.
  - by repeat constructor.
  - left. by repeat constructor.
Qed.

(** [SELECT a FROM t WHERE a > 100000000] finds the second record. *)
Lemma select_answers_witness : let _ := demo_clib in let _ := demo_sort in
  selected_rows demo_table_rows big_a_planned [heap_demo] = [row_tuple heap_demo (mkRID 1 1, [5; 6; 7; 8])] /\
  eventually (fun fuel => exists op, plan_statement fuel join_operator fuel (Select (demo_select big_a)) = Some (mret (QueryPlan op)) /\
    execute op fuel = Some (inr (project_rows [("a"%string, demo_column)]
      (limited (-1) (selected_rows demo_table_rows big_a_planned [heap_demo])), RECORD_EOF))).
Proof.
  intros H H0. split; [vm_compute; reflexivity|].
  refine (select_answers demo_table_rows (demo_select big_a) big_a_planned eq_refl (demo_select_ok [] [] (-1) eq_refl) _ eq_refl eq_refl).
  constructor; [exact (heap_demo_scannable READ_ONLY)|constructor].
Defined.

(** [DELETE FROM t WHERE a > 100000000], with a transaction that takes note of the records. *)
Lemma delete_executes_witness : let _ := demo_clib in let _ := demo_sort in
  let note (w : list RID) (rid : RID) (_ : list Z) := (SUCCESS, w ++ [rid]) in
  let doomed := List.filter (fun r => all_true (row_tuple heap_demo r) big_a_planned) (demo_table_rows heap_demo READ_WRITE).1 in
  delete_records note [] doomed = (SUCCESS, [mkRID 1 1]) /\
  eventually (fun fuel => exists child,
    plan_statement fuel join_operator fuel (DeleteStmt heap_demo big_a) = Some (mret (DeletePlan heap_demo child)) /\
    delete_open fuel note child [] = Some (delete_records note [] doomed)).
Proof.
  intros H H0 note doomed. split; [vm_compute; reflexivity|].
  refine (delete_executes demo_table_rows note heap_demo big_a big_a_planned _ RECORD_EOF [] eq_refl (heap_demo_scannable READ_WRITE) _ _ eq_refl eq_refl);
    [discriminate|]. constructor; [|constructor]. split; [discriminate|]. split; [reflexivity|exact I].
Defined.

(** A table joined with itself: four pairs, of which none is returned. *)
Lemma second_join_finds_nothing_witness : let _ := demo_clib in let _ := demo_sort in
  length (cross_product demo_table_rows [heap_demo; heap_demo]) = 4%nat /\
  eventually (fun fuel => exists op,
    plan_statement fuel (nested_loop_join_operator fuel) 20 (Select (join_stmt heap_demo heap_demo)) = Some (mret (QueryPlan op)) /\
    execute op fuel = Some (inr ([], RECORD_EOF))).
Proof.
  intros H H0. split; [vm_compute; reflexivity|].
  refine (second_join_finds_nothing demo_table_rows heap_demo heap_demo (heap_demo_scannable READ_ONLY) (heap_demo_scannable READ_ONLY) eq_refl eq_refl).
Defined.
