(* ===== verification/IndexPlan.v ===== *)
(** * IndexPlan: plans that use an index

    [physical_plan_generator.cpp] replaces the scan of a table by a scan of an index when a
    pushed comparison [field = constant] or [field <> constant] finds an index on the field.
    For [=] this gives the same rows; for [<>] it gives none.

    [IndexFinds] is what the plan needs of an index.  The B+ tree of [BplusTree] keeps that
    promise on a heap table ([HeapTable]): [tree_index]. *)

From stdpp Require Import strings.
From S2P Require Import Prelude Bytes PageAlloc Compare RecordPage RecordFile BplusTree BplusInv BplusScan BplusIndex MvccTrx HeapTable.
From S2P Require Import Float32 Value Expr Tuple Exec ExecLaws Logical Rewrite RewriteSound Plan PlanSound.
#[local] Open Scope Z_scope.

(** ** The promise of an index *)

(** The entries for a value are the records with a key, each once. *)
Class IndexFinds (index : Index) (value : Value) (f : RecordFile.RecFile) (has_key : list Z -> bool) : Prop := {
  index_entries : exists sc rids, index.(create_scanner) value = Some sc /\ entries_give index rids RECORD_EOF sc /\
    NoDup rids /\ forall r, r ∈ rids <-> exists d, RecordFile.record_at f r = Some d /\ has_key d = true
}.

Section agreement.
Context `{CLib} (name : string) (fields : list FieldMeta) (indexes : string -> option Index).
Context (f : RecordFile.RecFile) (visit : ReadWriteMode -> list Z -> RC) (rec_size : Z).
Context (Hok : RecordFile.file_ok rec_size f) (Hsmall : HeapTable.small_pages f).
Context (Hvisit : forall mode d, visit mode d = SUCCESS \/ visit mode d = RECORD_INVISIBLE).
Context (mode : ReadWriteMode) (predicates : list Expression).
Notation table := (heap_table name fields indexes f visit).
Notation row r d := (row_tuple table (r, d)).

(** The predicates have a value on every record. *)
Context (Htotal : forall r d, RecordFile.record_at f r = Some d -> Forall (total (row r d)) predicates).

Definition wanted (p : RID * list Z) : bool := all_true (row_tuple table p) predicates.

Definition fetched (rids : list RID) : list (RID * list Z) :=
  omap (fun r => d ← RecordFile.record_at f r; if OB_SUCC (visit mode d) then Some (r, d) else None) rids.

Lemma stored_slot r d : RecordFile.record_at f r = Some d -> 0 <= r.(slot_num).
Proof.
  intros Hd. eapply record_at_rid_ok in Hd; [|done..]. unfold rid_ok in Hd. rewrite !andb_true_iff, !Z.leb_le in Hd. tauto.
Qed.

Lemma index_rows_fetched rids : Forall (fun r => is_Some (RecordFile.record_at f r)) rids ->
  index_rows table mode predicates rids RECORD_EOF =
    (row_tuple table <$> List.filter wanted (fetched rids), Some RECORD_EOF).
Proof.
  induction 1 as [|r rids [d Hd] _ IH]; [done|]. cbn [index_rows]. unfold fetched. cbn. rewrite Hd. cbn.
  pose proof (stored_slot r d Hd) as Hslot.
  pose proof (RecordFile.get_record_file_ok rec_size f r Hok Hslot) as Hg. rewrite Hd in Hg. rewrite Hg.
  rewrite filter_all_true by by apply Htotal. cbn. change (all_true (row r d) predicates) with (wanted (r, d)).
  fold (fetched rids). rewrite IH.
  destruct (wanted (r, d)) eqn:Hw; destruct (Hvisit mode d) as [Hv | Hv]; rewrite Hv; try done;
    change (OB_SUCC SUCCESS) with true; cbn [List.filter]; by rewrite Hw.
Qed.

Lemma elem_of_fetched rids r d : (r, d) ∈ fetched rids <->
  r ∈ rids /\ RecordFile.record_at f r = Some d /\ visit mode d = SUCCESS.
Proof.
  unfold fetched. rewrite list_elem_of_omap. split.
  - intros (r' & Hin & (d' & Hd & Hv)%bind_Some). destruct (Hvisit mode d') as [E|E]; rewrite E in Hv; [|done].
    change (OB_SUCC SUCCESS) with true in Hv. by injection Hv as -> ->.
  - intros (Hin & Hd & Hv). exists r. split; [done|]. rewrite Hd. cbn. by rewrite Hv.
Qed.

Lemma fetched_nodup rids : NoDup rids -> NoDup (fetched rids).
Proof.
  induction 1 as [|r rids Hr _ IH]; [constructor|]. unfold fetched. cbn. fold (fetched rids).
  destruct (_ ≫= _) as [[r' d]|] eqn:E; [|done]. constructor; [|done]. intros [Hin _]%elem_of_fetched.
  apply bind_Some in E as (d' & _ & E). destruct (OB_SUCC _); by simplify_eq.
Qed.

Lemma filter_nodup {A} (p : A -> bool) l : NoDup l -> NoDup (List.filter p l).
Proof.
  induction 1 as [|x l Hx _ IH]; cbn; [constructor|]. destruct (p x); [|done]. constructor; [|done].
  by intros [?%list_elem_of_In _]%list_elem_of_In%filter_In.
Qed.

Lemma elem_of_filter_b {A} (p : A -> bool) l x : x ∈ List.filter p l <-> p x = true /\ x ∈ l.
Proof. rewrite !list_elem_of_In, filter_In. tauto. Qed.

Lemma heap_rows_nodup : NoDup (heap_rows f visit mode).
Proof. eapply NoDup_fmap_1, (pages_records_nodup (fun _ => true)), NoDup_filter, NoDup_seqZ. Qed.

(** The scan of an index that finds every wanted record returns the rows of the table scan. *)
Lemma index_rows_agree rids : NoDup rids -> Forall (fun r => is_Some (RecordFile.record_at f r)) rids ->
  (forall r d, RecordFile.record_at f r = Some d -> wanted (r, d) = true -> r ∈ rids) ->
  exists ts, index_rows table mode predicates rids RECORD_EOF = (ts, Some RECORD_EOF) /\
    ts ≡ₚ row_tuple table <$> List.filter wanted (heap_rows f visit mode).
Proof.
  intros Hnd Hst Hall. eexists. split; [by apply index_rows_fetched|]. apply Permutation_map.
  apply NoDup_Permutation; [by apply filter_nodup, fetched_nodup|apply filter_nodup, heap_rows_nodup|].
  intros [r d]. rewrite !elem_of_filter_b, elem_of_fetched, (elem_of_heap_rows f visit rec_size Hok Hvisit). naive_solver.
Qed.

Lemma filter_none_in {A} (p : A -> bool) l : (forall x, x ∈ l -> p x = false) -> List.filter p l = [].
Proof. induction l as [|x l IH]; cbn; [done|]. intros Hp. rewrite Hp by set_solver. apply IH. set_solver. Qed.

(** Records without a wanted one among them give nothing. *)
Lemma index_rows_none rids : Forall (fun r => is_Some (RecordFile.record_at f r)) rids ->
  (forall r d, RecordFile.record_at f r = Some d -> r ∈ rids -> wanted (r, d) = false) ->
  index_rows table mode predicates rids RECORD_EOF = ([], Some RECORD_EOF).
Proof.
  intros Hst Hall. rewrite index_rows_fetched by done. replace (List.filter wanted _) with (@nil (RID * list Z)); [done|].
  symmetry. apply filter_none_in. intros [r d] (Hin & Hd & _)%elem_of_fetched. by apply Hall.
Qed.
End agreement.

(** ** The access path *)

(** The comparison that [find_index_access] has found. *)
Lemma find_index_access_some table predicates index value : find_index_access table predicates = Some (index, value) ->
  exists comp tn fn ty c, c ∈ predicates /\ (comp = EQUAL_TO \/ comp = NOT_EQUAL) /\
    (c = ComparisonExpr comp (FieldExpr tn fn ty) (ValueExpr value) \/ c = ComparisonExpr comp (ValueExpr value) (FieldExpr tn fn ty)) /\
    table.(find_index_by_field) fn = Some index.
Proof.
  induction predicates as [|e predicates IH]; [done|]. cbn. intros Hf.
  assert (Hlater : find_index_access table predicates = Some (index, value) ->
    exists comp tn fn ty c, c ∈ e :: predicates /\ (comp = EQUAL_TO \/ comp = NOT_EQUAL) /\
      (c = ComparisonExpr comp (FieldExpr tn fn ty) (ValueExpr value) \/ c = ComparisonExpr comp (ValueExpr value) (FieldExpr tn fn ty)) /\
      table.(find_index_by_field) fn = Some index).
  { intros (comp & tn & fn & ty & c & Hin & Hrest)%IH. exists comp, tn, fn, ty, c. split; [by right|done]. }
  destruct e as [| | |comp l r| | | |]; try by apply Hlater. case_bool_decide as Hop; [|by apply Hlater].
  destruct l as [tn fn ty|v| | | | | |]; try by apply Hlater.
  - destruct r as [|v| | | | | |]; try by apply Hlater. destruct (find_index_by_field table fn) as [i|] eqn:Hi; [|by apply Hlater].
    injection Hf as -> ->. exists comp, tn, fn, ty. eexists. split_and!; [by left|done|by left|done].
  - destruct r as [tn fn ty| | | | | | |]; try by apply Hlater. destruct (find_index_by_field table fn) as [i|] eqn:Hi; [|by apply Hlater].
    injection Hf as -> ->. exists comp, tn, fn, ty. eexists. split_and!; [by left|done|by right|done].
Qed.

(** Without a call of DISTANCE there is no vector access. *)
Definition scalar_sides (e : Expression) : bool := match e with ComparisonExpr _ l r => side l && side r | _ => false end.

Lemma scalar_no_vector `{CLib} table predicates : forallb scalar_sides predicates = true -> find_vector_access table predicates = Some None.
Proof.
  assert (Hs : forall e, side e = true -> vector_access table e = Some None) by (intros []; by try done).
  induction predicates as [|e predicates IH]; [done|]. cbn. intros [He Hp]%andb_true_iff. destruct e; try done.
  cbn in He. apply andb_true_iff in He as [Hl Hr]. rewrite (Hs _ Hl). cbn. rewrite (Hs _ Hr). cbn. by apply IH.
Qed.

(** A side of a planned comparison that is a bare field is the attribute of the unit. *)
Lemma cast_side_field `{CLib} e ty tn fn ty' : cast_side e ty <> mret (FieldExpr tn fn ty').
Proof.
  unfold cast_side. destruct (is_value e); [|done]. intros (v & _ & [=])%Res_bind_inr.
Qed.

Lemma filter_expr_field obj tn fn ty : filter_expr obj = FieldExpr tn fn ty -> obj = FilterAttr tn fn ty.
Proof. destruct obj; cbn; [by intros [= -> -> ->]|done]. Qed.

Lemma create_comparison_fields `{CLib} u comp l r : create_comparison u = mret (ComparisonExpr comp l r) ->
  unit_comp u = comp /\ (forall tn fn ty, l = FieldExpr tn fn ty -> u.(unit_left) = FilterAttr tn fn ty) /\
  (forall tn fn ty, r = FieldExpr tn fn ty -> u.(unit_right) = FilterAttr tn fn ty).
Proof.
  unfold create_comparison. intros ([l' r'] & Hcast & Hend)%Res_bind_inr. destruct (_ && _) in Hend; [done|].
  injection Hend as -> -> ->. split; [done|]. case_decide.
  - injection Hcast as <- <-. split; intros; by apply filter_expr_field.
  - destruct (_ && _); [|destruct (_ && _); [|done]]; apply Res_bind_inr in Hcast as (e' & Hc & [= <- <-]);
      split; intros tn fn ty E; subst; first [by apply filter_expr_field|by apply cast_side_field in Hc].
Qed.

Lemma create_comparisons_in `{CLib} units cs c : create_comparisons units = mret cs -> c ∈ cs ->
  exists u, u ∈ units /\ create_comparison u = mret c.
Proof.
  revert cs. induction units as [|u units IH]; intros cs; cbn; [by intros [= <-] ?%not_elem_of_nil|].
  intros (c' & Hc & (cs' & Hcs & [= <-])%Res_bind_inr)%Res_bind_inr [->|Hin]%elem_of_cons; [exists u; split; [by left|done]|].
  destruct (IH cs' Hcs Hin) as (u' & ? & ?). exists u'. split; [by right|done].
Qed.

Lemma shape_scalar `{CLib} cs : Forall comparison cs -> forallb scalar_sides cs = true.
Proof. induction 1 as [|c cs Hc _ IH]; [done|]. cbn [forallb]. rewrite IH. destruct Hc as [op l r _ Hl Hr _]. cbn. by rewrite Hl, Hr. Qed.

(** ** B+ tree indexes *)

Section tree_index.
Context {A : Type} {PA : PageAllocator A}.
#[local] Hint Extern 0 KeyOrder => exact (attribute_key compare_int 0) : typeclass_instances.
#[local] Abbreviation Tree := (BTree (KO := attribute_key compare_int 0) (A := A)).
#[local] Abbreviation TreeScanner := (BplusScan.Scanner (KO := attribute_key compare_int 0)).

(** [BplusTreeIndex::create_scanner] and [BplusTreeIndexScanner::next_entry] on an index of an
    INTS field, with both bounds equal to the value and inclusive.  The planner passes only
    values of the type of the field.  A crash of the tree, which [tree_finds] excludes, is
    shown as [INTERNAL]. *)
Definition tree_index (s : Tree) : Index :=
  mkIndex false (TreeScanner * Tree)
    (fun v => match v with
      | VInt u =>
          match BplusScan.open compare_int (make_key compare_int 0) (fun u _ => (u, false)) (tree_fuel s) (Some (u, true)) (Some (u, true)) s with
          | Some (inr sc, s') => Some (sc, s')
          | _ => None
          end
      | _ => None
      end)
    (fun '(sc, s) =>
       match BplusScan.next_entry (tree_fuel s) sc s with
       | Some (inr (Some rid, sc'), s') => (SUCCESS, rid, (sc', s'))
       | Some (inr (None, sc'), s') => (RECORD_EOF, rid_min, (sc', s'))
       | Some (inl rc, s') => (rc, rid_min, (sc, s'))
       | None => (INTERNAL, rid_min, (sc, s))
       end)
    None.

Lemma collect_gives t n sc s rids s' : collect n sc s = Some (inr rids, s') -> entries_give (tree_index t) rids RECORD_EOF (sc, s).
Proof.
  revert sc s rids. induction n as [|n IH]; intros sc s rids; cbn [collect]; [done|].
  unfold mbind, M_bind. destruct (BplusScan.next_entry (tree_fuel s) sc s) as [[[rc|[[rid|] sc1]] s1]|] eqn:En; try done.
  - destruct (collect n sc1 s1) as [[[rc|rids1] s2]|] eqn:Ec; try done. intros [= <- <-]. cbn [entries_give tree_index Exec.next_entry]. rewrite En.
    exists (sc1, s1). split; [done|]. by apply IH.
  - intros [= <- <-]. cbn [entries_give tree_index Exec.next_entry]. rewrite En. split; [done|]. by do 2 eexists.
Qed.

(** The index of a consistent heap table finds the records with the value. *)
Lemma tree_finds rec_size n (t : HeapTable.HeapTableEngine (HeapTable.BplusTreeIndex compare_int 0 (A := A))) x u :
  HeapTable.table_ok (HL := HeapTable.bplus_index_laws compare_int 0 read_int) rec_size n t -> x ∈ t.(HeapTable.indexes) ->
  IndexFinds (tree_index x.(HeapTable.index_handler)) (VInt u) t.(HeapTable.record_handler)
    (fun d => compare_int (read_int (slice d x.(HeapTable.field_offset) x.(HeapTable.field_len))) u =? 0).
Proof.
  intros Hok Hx. destruct (index_lookup_ok compare_int 0 read_int rec_size n t x u _ Hok Hx (Nat.lt_succ_diag_r _)) as (rids & Hg & Hnd & Hin).
  unfold get_entry, scan in Hg. unfold mbind, M_bind in Hg.
  destruct (BplusScan.open _ _ _ (tree_fuel x.(HeapTable.index_handler)) _ _ x.(HeapTable.index_handler)) as [[[rc|sc] s]|] eqn:Eo; try done.
  split. exists (sc, s), rids. split_and!; [cbn [tree_index create_scanner]; by rewrite Eo|by eapply collect_gives|done|].
  intros r. rewrite Hin. by setoid_rewrite Z.eqb_eq.
Qed.
End tree_index.

(** ** Tables with an index *)

(** A heap table with an index on an INTS field, which is described in the same way in both. *)
Section indexed.
Context `{CLib} `{StdSort} {A : Type} {PA : PageAllocator A}.
Context (rec_size : Z) (n : nat) (t : HeapTable.HeapTableEngine (HeapTable.BplusTreeIndex compare_int 0 (A := A))).
Context (x : HeapTable.BplusTreeIndex compare_int 0 (A := A)).
Context (name : string) (fields : list FieldMeta) (fm : FieldMeta) (visit : ReadWriteMode -> list Z -> RC).

Definition indexed_table : Table :=
  heap_table name fields
    (fun fn => if bool_decide (fn = fm.(field_name)) then Some (tree_index x.(HeapTable.index_handler)) else None)
    t.(HeapTable.record_handler) visit.

Record index_setup : Prop := {
  setup_table : HeapTable.table_ok (HL := HeapTable.bplus_index_laws compare_int 0 read_int) rec_size n t;
  setup_index : x ∈ t.(HeapTable.indexes);
  setup_name : name <> ""%string;
  setup_fields : NoDup (field_name <$> fields);
  setup_in : fm ∈ fields;
  setup_type : fm.(field_type) = INTS;
  setup_offset : x.(HeapTable.field_offset) = fm.(attr_offset) /\ x.(HeapTable.field_len) = 4;
  setup_visit : forall m d, visit m d = SUCCESS \/ visit m d = RECORD_INVISIBLE
}.

Lemma find_field_in record : NoDup (field_name <$> fields) -> fm ∈ fields ->
  find_field fields record fm.(field_name) = mret (row_cell fm record).
Proof.
  induction fields as [|f0 fs IH]; cbn; [by intros _ ?%not_elem_of_nil|]. intros [Hn Hnd]%NoDup_cons [->|Hin]%elem_of_cons.
  - by rewrite bool_decide_true.
  - rewrite bool_decide_false; [by apply IH|]. intros E. apply Hn. rewrite <- E. by apply list_elem_of_fmap_2.
Qed.

(** What the index compares is the cell of the row. *)
Lemma index_cell d : index_setup -> row_cell fm d = VInt (read_int (slice d x.(HeapTable.field_offset) x.(HeapTable.field_len))).
Proof. intros []. unfold row_cell. rewrite setup_type0. cbn. destruct setup_offset0 as [-> ->]. done. Qed.

Definition key_is (u : Z) (d : list Z) : bool :=
  compare_int (read_int (slice d x.(HeapTable.field_offset) x.(HeapTable.field_len))) u =? 0.

(** The truth of the comparison that found the index. *)
Lemma index_comparison_truth r d comp tn ty u c : index_setup -> comp = EQUAL_TO \/ comp = NOT_EQUAL ->
  c = ComparisonExpr comp (FieldExpr tn fm.(field_name) ty) (ValueExpr (VInt u)) \/
  c = ComparisonExpr comp (ValueExpr (VInt u)) (FieldExpr tn fm.(field_name) ty) ->
  total (row_tuple indexed_table (r, d)) c ->
  truth (row_tuple indexed_table (r, d)) c = match comp with EQUAL_TO => key_is u d | _ => negb (key_is u d) end.
Proof.
  intros Hs Hop Hc Ht. pose proof (index_cell d Hs) as Hcell. destruct Hs.
  pose proof (find_field_in d setup_fields0 setup_in0) as Hf. unfold key_is. set (k := read_int _) in *.
  assert (Hfc : tn = name -> find_cell (row_tuple indexed_table (r, d)) (field_spec tn fm.(field_name)) = mret (VInt k)).
  { intros ->. cbn. rewrite bool_decide_true by done. cbn. by rewrite Hf, Hcell. }
  destruct (decide (tn = name)) as [E|Hne].
  - apply total_value in Ht. destruct Hop as [-> | ->], Hc as [-> | ->]; cbn [get_value] in Ht; rewrite Hfc in Ht by done;
      cbn in Ht |- *; injection Ht as <-; pose proof (compare_int_antisym k u); destruct (compare_int k u), (compare_int u k); done || lia.
  - destruct Ht as [b Hb]. destruct Hc as [-> | ->]; cbn in Hb; rewrite bool_decide_false in Hb by done; done.
Qed.

(** ** Which rows the access path gives *)

Context (mode : ReadWriteMode) (units : FilterStmt) (predicates : list Expression).
Context (Hsetup : index_setup) (Hplan : create_comparisons units = mret predicates).
Context (Hunits : Forall (unit_in_schema (table_schema indexed_table)) units).

Lemma stored_total r d : RecordFile.record_at t.(HeapTable.record_handler) r = Some d ->
  Forall (total (row_tuple indexed_table (r, d))) predicates.
Proof.
  intros _. eapply create_comparisons_total; [|exact Hunits|exact Hplan]. cbn. by destruct Hsetup.
Qed.

(** The comparison that chose the index compares the field with an integer. *)
Lemma index_access_int index value : find_index_access indexed_table predicates = Some (index, value) ->
  exists comp tn ty u c, index = tree_index x.(HeapTable.index_handler) /\ value = VInt u /\ c ∈ predicates /\
    (comp = EQUAL_TO \/ comp = NOT_EQUAL) /\ (exists un, un ∈ units /\ un.(unit_comp) = comp) /\
    (c = ComparisonExpr comp (FieldExpr tn fm.(field_name) ty) (ValueExpr (VInt u)) \/
     c = ComparisonExpr comp (ValueExpr (VInt u)) (FieldExpr tn fm.(field_name) ty)).
Proof.
  intros (comp & tn & fn & ty & c & Hin & Hop & Hc & Hi)%find_index_access_some. cbn in Hi. case_bool_decide as Hfn; [|done].
  injection Hi as <-. subst fn. destruct (create_comparisons_in _ _ _ Hplan Hin) as (un & Hun & Hcr).
  rewrite Forall_forall in Hunits. destruct (Hunits un Hun) as (Hno & Hl & Hr).
  assert (Hschema : forall ty', schema_type (table_schema indexed_table) (field_spec tn fm.(field_name)) = Some ty' -> ty' = INTS).
  { clear Hl Hr. intros ty'. unfold table_schema. cbn. destruct Hsetup. revert setup_fields0 setup_in0 setup_type0. clear.
    intros Hnd Hin Hty. induction fields as [|f0 fs IH]; [done|]. cbn. apply NoDup_cons in Hnd as [Hn Hnd]. case_bool_decide as Hb.
    - intros [= <-]. apply elem_of_cons in Hin as [->|Hin]; [done|]. destruct Hn. destruct Hb as [_ <-]. by apply list_elem_of_fmap_2.
    - apply elem_of_cons in Hin as [->|Hin]; [|by apply IH]. intros Hs. exfalso. apply Hn. revert Hs. clear.
      induction fs as [|f1 fs IH]; cbn; [done|]. case_bool_decide as Hb; [intros _; destruct Hb as [_ ->]; left|]. intros; right; auto. }
  pose proof (create_comparison_shape un c Hno Hcr) as Hsh. exists comp, tn, ty.
  destruct Hc as [-> | ->]; pose proof (create_comparison_fields un _ _ _ Hcr) as (Hcomp & Hfl & Hfr);
    inversion Hsh as [? ? ? _ _ _ Hty]; subst; cbn in Hty.
  - rewrite (Hfl _ _ _ eq_refl) in Hl. apply Hschema in Hl. subst ty. destruct value; try done. do 2 eexists. split_and!; eauto.
  - rewrite (Hfr _ _ _ eq_refl) in Hr. apply Hschema in Hr. subst ty. destruct value; try done. do 2 eexists. split_and!; eauto.
Qed.

Lemma no_vector_plan : find_vector_access indexed_table predicates = Some None.
Proof.
  apply scalar_no_vector, shape_scalar. eapply create_comparisons_shape; [|exact Hplan]. eapply Forall_impl; [exact Hunits|]. by intros u [? _].
Qed.

(** The entries of the index for a value: locations of stored records. *)
Lemma index_rids u : exists sc rids, (tree_index x.(HeapTable.index_handler)).(create_scanner) (VInt u) = Some sc /\
  entries_give (tree_index x.(HeapTable.index_handler)) rids RECORD_EOF sc /\ NoDup rids /\
  (forall r, r ∈ rids <-> exists d, RecordFile.record_at t.(HeapTable.record_handler) r = Some d /\ key_is u d = true) /\
  Forall (fun r => is_Some (RecordFile.record_at t.(HeapTable.record_handler) r)) rids.
Proof.
  destruct (tree_finds rec_size n t x u (setup_table Hsetup) (setup_index Hsetup)) as [(sc & rids & Hs & Hg & Hnd & Hin)].
  exists sc, rids. split_and!; [done..|]. apply Forall_forall. intros r (d & Hd & _)%Hin. by exists d.
Qed.

(** [index_scan] over such entries. *)
Lemma index_scan_runs fuel u sc rids ts : (tree_index x.(HeapTable.index_handler)).(create_scanner) (VInt u) = Some sc ->
  entries_give (tree_index x.(HeapTable.index_handler)) rids RECORD_EOF sc ->
  index_rows indexed_table mode predicates rids RECORD_EOF = (ts, Some RECORD_EOF) -> (length rids < fuel)%nat -> (length ts < fuel)%nat ->
  execute (index_scan fuel indexed_table (tree_index x.(HeapTable.index_handler)) mode (VInt u) predicates) fuel = Some (inr (ts, RECORD_EOF)).
Proof.
  intros Hs Hg Hr Hf Ht. eapply execute_opens; [done|]. rewrite <- Hr. by eapply index_opens.
Qed.

Definition planned_rows : list Tuple :=
  List.filter (fun tu => all_true tu predicates) (row_tuple indexed_table <$> heap_rows t.(HeapTable.record_handler) visit mode).

Lemma filter_fmap {X Y} (g : X -> Y) (p : Y -> bool) l : List.filter p (g <$> l) = g <$> List.filter (fun a => p (g a)) l.
Proof. induction l as [|a l IH]; cbn; [done|]. destruct (p (g a)); cbn; by rewrite IH. Qed.

(** The access path does not matter as long as no [<>] is involved. *)
Lemma access_path_agrees : Forall (fun u => u.(unit_comp) <> NOT_EQUAL) units ->
  eventually (fun fuel => exists op ts, table_get_plan fuel indexed_table mode predicates = mret op /\
    execute op fuel = Some (inr (ts, RECORD_EOF)) /\ ts ≡ₚ planned_rows).
Proof.
  intros Hne. pose proof (setup_table Hsetup) as Htab. pose proof (HeapTable.to_file _ _ _ Htab) as Hfile.
  unfold table_get_plan. rewrite no_vector_plan.
  destruct (find_index_access indexed_table predicates) as [[index value]|] eqn:Hacc.
  - destruct (index_access_int index value Hacc) as (comp & tn & ty & u & c & -> & -> & Hin & Hop & (un & Hun & Hcomp) & Hc).
    destruct (index_rids u) as (sc & rids & Hs & Hg & Hnd & Hrids & Hst).
    destruct (index_rows_agree name fields _ t.(HeapTable.record_handler) visit rec_size Hfile (HeapTable.to_small _ _ _ Htab)
      (setup_visit Hsetup) mode predicates stored_total rids Hnd Hst) as (ts & Hr & Hperm).
    { intros r d Hd Hw. apply Hrids. exists d. split; [done|]. rewrite Forall_forall in Hne. pose proof (Hne un Hun) as Hnu.
      assert (comp = EQUAL_TO) as -> by (destruct Hop; congruence).
      pose proof (stored_total r d Hd) as Ht. rewrite Forall_forall in Ht.
      pose proof (index_comparison_truth r d EQUAL_TO tn ty u c Hsetup Hop Hc (Ht c Hin)) as Htr. cbn in Htr. rewrite <- Htr.
      unfold wanted, all_true in Hw. rewrite forallb_forall in Hw. by apply Hw, list_elem_of_In. }
    eapply eventually_mono; [|apply (eventually_and _ _ (eventually_gt (length rids)) (eventually_gt (length ts)))].
    intros fuel [Hf Ht]. exists (index_scan fuel indexed_table (tree_index x.(HeapTable.index_handler)) mode (VInt u) predicates), ts.
    split; [done|]. split; [by eapply index_scan_runs|]. unfold planned_rows. by rewrite filter_fmap.
  - assert (Hrows : TableRows indexed_table mode (heap_rows t.(HeapTable.record_handler) visit mode) RECORD_EOF).
    { by apply (heap_table_rows _ _ _ _ _ rec_size); [|apply (setup_visit Hsetup)]. }
    eapply eventually_mono; [|apply (eventually_gt (length (heap_rows t.(HeapTable.record_handler) visit mode)))]. intros fuel Hf.
    exists (table_scan fuel indexed_table mode predicates), planned_rows. split_and!; [done| |done].
    eapply execute_opens; [apply (Nat.le_lt_trans _ _ _ (filter_length_le _ _)); by rewrite length_fmap|].
    pose proof (scan_opens fuel indexed_table mode predicates _ _ (None, None) Hf) as Ho.
    rewrite (filter_rows_total (filter predicates) (fun tu => all_true tu predicates)) in Ho; [exact Ho|].
    intros tu ([r d] & -> & Hin)%list_elem_of_fmap. apply filter_all_true, stored_total.
    by apply (elem_of_heap_rows _ _ rec_size Hfile (setup_visit Hsetup)) in Hin as [? _].
Qed.

(** C12: An index is used only where it gives the same rows.  On a consistent heap table with a
    B+ tree index on an INTS field, for a WHERE clause without [<>] that the planner accepted,
    the physical operator that is chosen for the table, the index scan where some [field =
    constant] finds the index and the table scan otherwise, returns without an error a
    permutation of the visible records that satisfy the clause. *)
Theorem index_scan_agrees : Forall (fun u => u.(unit_comp) <> NOT_EQUAL) units ->
  eventually (fun fuel => exists op ts, table_get_plan fuel indexed_table mode predicates = mret op /\
    execute op fuel = Some (inr (ts, RECORD_EOF)) /\ ts ≡ₚ planned_rows).
Proof. apply access_path_agrees. Qed.
End indexed.

Section not_equal.
Context `{CLib} `{StdSort} {A : Type} {PA : PageAllocator A}.

(** C40: [WHERE field <> constant] on an indexed field returns no rows.  [find_index_access] also
    takes the index for NOT_EQUAL and scans it for the constant itself: the entries it finds are
    those that the comparison, still checked on every row, rejects. *)
Theorem not_equal_finds_nothing rec_size n (t : HeapTable.HeapTableEngine (HeapTable.BplusTreeIndex compare_int 0 (A := A))) x name fields fm visit
    mode u : index_setup rec_size n t x name fields fm visit ->
  let clause := [mkUnit NOT_EQUAL (FilterAttr name fm.(field_name) INTS) (FilterValue (VInt u))] in
  let table := indexed_table t x name fields fm visit in
  exists preds, create_comparisons clause = mret preds /\
    eventually (fun fuel => exists op, table_get_plan fuel table mode preds = mret op /\ execute op fuel = Some (inr ([], RECORD_EOF))).
Proof.
  intros Hs clause table. eexists. split; [reflexivity|].
  set (c := ComparisonExpr NOT_EQUAL (FieldExpr name (field_name fm) INTS) (ValueExpr (VInt u))). pose proof (setup_table _ _ _ _ _ _ _ _ Hs) as Htab.
  assert (Htotal : forall r d, RecordFile.record_at t.(HeapTable.record_handler) r = Some d -> Forall (total (row_tuple table (r, d))) [c]).
  { intros r d _. constructor; [|constructor]. eexists. cbn. rewrite bool_decide_true by done. cbn.
    rewrite find_field_in, (index_cell _ _ _ _ _ _ _ _ _ Hs) by by destruct Hs. done. }
  destruct (index_rids rec_size n t x name fields fm visit Hs u) as (sc & rids & Hsc & Hg & Hnd & Hrids & Hst).
  assert (Hr : index_rows table mode [c] rids RECORD_EOF = ([], Some RECORD_EOF)).
  { apply (index_rows_none name fields _ _ visit rec_size (HeapTable.to_file _ _ _ Htab) (HeapTable.to_small _ _ _ Htab)
      (setup_visit _ _ _ _ _ _ _ _ Hs) mode [c] Htotal rids Hst). intros r d Hd (d' & Hd' & Hk)%Hrids. rewrite Hd in Hd'. injection Hd' as <-.
    pose proof (Forall_inv (Htotal r d Hd)) as Ht. unfold wanted. rewrite all_true_cons.
    pose proof (index_comparison_truth rec_size n t x name fields fm visit r d NOT_EQUAL name INTS u c Hs ltac:(auto) ltac:(auto) Ht) as Htr.
    cbn in Htr. fold table in Htr. rewrite Hk in Htr. change (row_tuple _ (r, d)) with (row_tuple table (r, d)). by rewrite Htr. }
  eapply eventually_mono; [|apply (eventually_gt (length rids))]. intros fuel Hf.
  exists (index_scan fuel table (tree_index x.(HeapTable.index_handler)) mode (VInt u) [c]). split.
  - unfold table_get_plan. cbn. rewrite !bool_decide_true by auto. done.
  - eapply index_scan_runs; [exact Hsc|exact Hg|exact Hr|done|cbn [length]; exact (Nat.le_lt_trans _ _ _ (Nat.le_0_l _) Hf)].
Qed.
End not_equal.

(** ** Examples

    The table of [HeapTable.demo_table2], whose two rows are 7, with its index. *)
#[local] Existing Instance compare_int_comparator.
Definition demo_index_field : FieldMeta := mkField "a" INTS 0 4.

Lemma demo_index2_in : demo_index2 ∈ demo_table2.(HeapTable.indexes).
Proof.
  assert (length demo_table2.(HeapTable.indexes) = 1%nat) as Hl by (vm_compute; reflexivity).
  unfold demo_index2. destruct (HeapTable.indexes demo_table2) as [|x l]; [discriminate|]. left.
Qed.

Lemma demo_index2_place : demo_index2.(HeapTable.field_offset) = 0 /\ demo_index2.(HeapTable.field_len) = 4.
Proof. vm_compute. split; reflexivity. Qed.

Lemma demo_index_setup : index_setup 4 100 demo_table2 demo_index2 "t" [demo_index_field] demo_index_field (fun _ _ => SUCCESS).
Proof.
  refine (Build_index_setup 4 100 demo_table2 demo_index2 "t" [demo_index_field] demo_index_field (fun _ _ => SUCCESS)
    demo_table2_ok demo_index2_in _ _ _ eq_refl demo_index2_place _).
  - discriminate.
  - repeat constructor. by intros ?%not_elem_of_nil.
  - by left.
  - by left.
Qed.

(** [WHERE a = 7]; the two rows of the table hold 7. *)
Definition demo_index_eq : list Expression := [ComparisonExpr EQUAL_TO (FieldExpr "t" "a" INTS) (ValueExpr (VInt 7))].
Lemma demo_index_rows : let _ := demo_clib in
  length (heap_rows demo_table2.(HeapTable.record_handler) (fun _ _ => SUCCESS) READ_ONLY) = 2%nat.
Proof. vm_compute. reflexivity. Qed.

Lemma demo_planned_rows : let _ := demo_clib in
  length (planned_rows demo_table2 demo_index2 "t" [demo_index_field] demo_index_field (fun _ _ => SUCCESS) READ_ONLY demo_index_eq) = 2%nat.
Proof. vm_compute. reflexivity. Qed.

Lemma index_scan_agrees_witness : let _ := demo_clib in let _ := demo_sort in
  let units := [mkUnit EQUAL_TO (FilterAttr "t" "a" INTS) (FilterValue (VInt 7))] in
  let table := indexed_table demo_table2 demo_index2 "t" [demo_index_field] demo_index_field (fun _ _ => SUCCESS) in
  let rows := planned_rows demo_table2 demo_index2 "t" [demo_index_field] demo_index_field (fun _ _ => SUCCESS) READ_ONLY demo_index_eq in
  length rows = 2%nat /\
  eventually (fun fuel => exists op ts, table_get_plan fuel table READ_ONLY demo_index_eq = mret op /\
    execute op fuel = Some (inr (ts, RECORD_EOF)) /\
    ts ≡ₚ rows).
Proof.
  intros H H0 units table rows. split; [exact demo_planned_rows|].
  refine (index_scan_agrees 4 100 demo_table2 demo_index2 "t" [demo_index_field] demo_index_field (fun _ _ => SUCCESS) READ_ONLY units demo_index_eq
    demo_index_setup eq_refl _ _).
  - constructor; [|constructor]. split; [discriminate|]. split; [reflexivity|exact I].
  - constructor; [discriminate|constructor].
Defined.

(** [WHERE a <> 8]: no row, although both have 7. *)
Lemma not_equal_finds_nothing_witness : let _ := demo_clib in let _ := demo_sort in
  let clause := [mkUnit NOT_EQUAL (FilterAttr "t" "a" INTS) (FilterValue (VInt 8))] in
  let table := indexed_table demo_table2 demo_index2 "t" [demo_index_field] demo_index_field (fun _ _ => SUCCESS) in
  length (heap_rows demo_table2.(HeapTable.record_handler) (fun _ _ => SUCCESS) READ_ONLY) = 2%nat /\
  exists preds, create_comparisons clause = mret preds /\
    eventually (fun fuel => exists op, table_get_plan fuel table READ_ONLY preds = mret op /\ execute op fuel = Some (inr ([], RECORD_EOF))).
Proof.
  intros H H0 clause table. split; [exact demo_index_rows|].
  exact (not_equal_finds_nothing 4 100 demo_table2 demo_index2 "t" [demo_index_field] demo_index_field (fun _ _ => SUCCESS) READ_ONLY 8 demo_index_setup).
Defined.
