(* ===== verification/OrderBy.v ===== *)
(** * OrderBy: sorted answers

    The comparator of [order_by_physical_operator.cpp] on keys of integers, strings without NUL
    and missing values is a strict weak ordering, the lexicographic one of [keys_cmp]; what
    [std::sort] promises then carries through the plan to the answer of a SELECT with ORDER BY.
    For FLOATS there is no such theorem: [Float32] shows that their comparison is not
    transitive. *)

From stdpp Require Import strings.
From S2P Require Import Prelude Bytes Compare RecordPage MvccTrx Float32 Value Expr Tuple Exec ExecLaws Logical Rewrite RewriteSound Plan PlanSound.
#[local] Open Scope Z_scope.

(** ** Strings *)

(** Lexicographic order, a prefix first. *)
Fixpoint lex (a b : list Z) : Z :=
  match a, b with
  | [], [] => 0
  | [], _ => -1
  | _, [] => 1
  | x :: a', y :: b' => if x =? y then lex a' b' else compare_int x y
  end.

#[export] Instance lex_comparator : Comparator lex.
Proof.
  split.
  - intros x. induction x as [|c x IH]; intros [|d y]; cbn; try done. rewrite (Z.eqb_sym d c).
    destruct (Z.eqb_spec c d); [apply IH|]. apply cmp_antisym.
  - intros x. induction x as [|c x IH]; intros [|d y] [|e z]; cbn; try done; try lia.
    destruct (Z.eqb_spec c d) as [->|], (Z.eqb_spec d e) as [->|].
    + by apply IH.
    + done.
    + by rewrite (proj2 (Z.eqb_neq _ _)).
    + unfold compare_int. destruct (Z.eqb_spec c e), (Z.ltb_spec d c), (Z.ltb_spec c d), (Z.ltb_spec e d), (Z.ltb_spec d e),
        (Z.ltb_spec e c), (Z.ltb_spec c e); try lia.
Qed.

(** [compare_string] with the lengths of the strings. *)
Lemma compare_string_lex a b : nul_free a -> nul_free b -> compare_string a (zlen a) b (zlen b) = lex a b.
Proof.
  assert (Hl : forall s (e : Z), zlen (e :: s) = zlen s + 1 /\ 0 <= zlen s) by (intros; unfold zlen; cbn; lia).
  intros Ha. revert b. induction Ha as [|c a Hc _ IH]; intros b Hb; destruct Hb as [|d b Hd Hb].
  - done.
  - unfold compare_string. destruct (Hl b d) as [-> ?]. change (zlen []) with 0. rewrite Z.min_l by lia.
    by rewrite (proj2 (Z.ltb_lt 0 (zlen b + 1))) by lia.
  - unfold compare_string. destruct (Hl a c) as [-> ?]. change (zlen []) with 0. rewrite Z.min_r by lia.
    by rewrite (proj2 (Z.ltb_lt 0 (zlen a + 1))) by lia.
  - specialize (IH b Hb). unfold compare_string in *.
    destruct (Hl a c) as [-> ?], (Hl b d) as [-> ?].
    replace (Z.min (zlen a + 1) (zlen b + 1)) with (Z.min (zlen a) (zlen b) + 1) by lia.
    rewrite Z2Nat.inj_add, Nat.add_1_r by lia. cbn [strncmp hd tl lex]. destruct (Z.eqb_spec c d) as [->|Hne].
    + cbn [negb]. rewrite (proj2 (Z.eqb_neq d 0)) by done. rewrite <- IH.
      destruct (negb _); [done|]. destruct (Z.ltb_spec (Z.min (zlen a) (zlen b) + 1) (zlen a + 1)), (Z.ltb_spec (Z.min (zlen a) (zlen b)) (zlen a));
        try lia; destruct (Z.ltb_spec (Z.min (zlen a) (zlen b) + 1) (zlen b + 1)), (Z.ltb_spec (Z.min (zlen a) (zlen b)) (zlen b)); lia.
    + cbn [negb]. rewrite (proj2 (Z.eqb_neq 0 (c - d))) by lia. cbn [negb]. unfold compare_int.
      destruct (Z.ltb_spec (c - d) 0), (Z.ltb_spec d c), (Z.ltb_spec c d); lia.
Qed.

(** ** Keys *)

(** Values by kind, integers and strings by their order. *)
Definition rank (v : Value) : Z := match v with VInt _ => 1 | VChars _ => 2 | _ => 0 end.

Definition vcmp (a b : Value) : Z :=
  match a, b with
  | VInt x, VInt y => compare_int x y
  | VChars x, VChars y => lex x y
  | _, _ => compare_int (rank a) (rank b)
  end.

#[export] Instance vcmp_comparator : Comparator vcmp.
Proof.
  split.
  - intros x y. destruct x, y; cbn [vcmp]; try apply cmp_antisym; done.
  - intros x y z. destruct x, y; cbn; try done; destruct z; cbn; try done; apply cmp_trans.
Qed.

(** One column: missing values last, the others in the order asked for. *)
Definition col_cmp (asc : bool) (a b : Value) : Z :=
  if is_undefined a then (if is_undefined b then 0 else 1)
  else if is_undefined b then -1
  else if asc then vcmp a b else vcmp b a.

#[export] Instance col_cmp_comparator asc : Comparator (col_cmp asc).
Proof.
  split; unfold col_cmp.
  - intros x y. destruct (is_undefined x), (is_undefined y), asc; try done; apply cmp_antisym.
  - intros x y z. destruct (is_undefined x), (is_undefined y), (is_undefined z), asc; try done; try lia; try apply cmp_trans.
    intros H1 H2. by eapply cmp_trans.
Qed.

Fixpoint keys_cmp (asc : list bool) (a b : list Value) : Z :=
  match a, b with
  | [], [] => 0
  | [], _ => -1
  | _, [] => 1
  | va :: a', vb :: b' =>
      let c := col_cmp (default true (head asc)) va vb in if c =? 0 then keys_cmp (tail asc) a' b' else c
  end.

#[export] Instance keys_cmp_comparator asc : Comparator (keys_cmp asc).
Proof.
  split.
  - intros x. revert asc. induction x as [|va x IH]; intros asc [|vb y]; cbn; try done.
    set (c := col_cmp (default true (head asc))). pose proof (cmp_antisym (cmp := c) va vb).
    destruct (Z.eqb_spec (c va vb) 0), (Z.eqb_spec (c vb va) 0); try lia. apply IH.
  - intros x. revert asc. induction x as [|va x IH]; intros asc [|vb y] [|vc z]; cbn; try done; try lia.
    set (c := col_cmp (default true (head asc))).
    pose proof (cmp_trans (cmp := c) va vb vc). pose proof (cmp_le_lt (cmp := c) va vb vc). pose proof (cmp_lt_le (cmp := c) va vb vc).
    pose proof (cmp_trans (cmp := c) vc va vb). pose proof (cmp_flip_eq (cmp := c) va vb). pose proof (cmp_flip_eq (cmp := c) vb vc).
    destruct (Z.eqb_spec (c va vb) 0), (Z.eqb_spec (c vb vc) 0), (Z.eqb_spec (c va vc) 0); try lia. apply IH.
Qed.

(** Two values of a column that the comparator can order. *)
Definition sortable (a b : Value) : Prop :=
  match a, b with
  | VUndefined, _ | _, VUndefined => True
  | VInt _, VInt _ => True
  | VChars s, VChars s' => nul_free s /\ nul_free s'
  | _, _ => False
  end.

(** One column of the comparator, decided by [c], with [c'] the comparison the other way. *)
Lemma column_step (d : bool) c c' rest r : Z.sgn c = - Z.sgn c' -> rest = Some (r <? 0) ->
  (if negb (c =? 0) then Some (if d then c <? 0 else 0 <? c) else rest) =
  Some ((let k := if d then c else c' in if k =? 0 then r else k) <? 0).
Proof.
  intros Hs ->. destruct d; cbn zeta; [destruct (Z.eqb_spec c 0); done|].
  destruct (Z.eqb_spec c 0), (Z.eqb_spec c' 0); cbn [negb]; try lia; [done|].
  destruct (Z.ltb_spec 0 c), (Z.ltb_spec c' 0); done || lia.
Qed.

(** The comparator that [std::sort] gets. *)
Lemma comparator_keys asc a b : Forall2 sortable a b -> (length a <= length asc)%nat ->
  comparator asc a b = Some (keys_cmp asc a b <? 0).
Proof.
  intros Hs. revert asc. induction Hs as [|va vb a b Hv _ IH]; intros asc Hl; [done|].
  destruct asc as [|d asc]; [cbn in Hl; lia|]. cbn in Hl.
  assert (Hrec : comparator asc a b = Some (keys_cmp asc a b <? 0)) by (apply IH; lia).
  destruct va as [|s|z| | |], vb as [|s'|z'| | |]; try done.
  - destruct Hv. unfold comparator; fold comparator. change (is_undefined (VChars s)) with false. change (is_undefined (VChars s')) with false.
    cbn [andb compare_val]. rewrite compare_string_lex by done. exact (column_step d _ _ _ _ (cmp_antisym s s') Hrec).
  - exact (column_step d _ _ _ _ (cmp_antisym (cmp := compare_int) z z') Hrec).
Qed.

(** ** Sorting *)

Section sorting.
Context `{CLib} `{StdSort} (exprs : list Expression) (asc : list bool).

(** Keys of one table: of the same length, and every two of them sortable column by column. *)
Record keys_ok (keys : list (list Value)) : Prop := {
  keys_sortable : forall a b, a ∈ keys -> b ∈ keys -> Forall2 sortable a b;
  keys_length : forall a, a ∈ keys -> (length a <= length asc)%nat
}.

Definition key_lt (keys : list (list Value)) (i j : nat) : bool :=
  keys_cmp asc (default [] (keys !! i)) (default [] (keys !! j)) <? 0.

Lemma key_lt_strict_weak keys l : strict_weak (key_lt keys) l.
Proof.
  unfold key_lt. split.
  - intros a _. apply Z.ltb_ge. by rewrite cmp_refl.
  - intros a b c _ _ _. rewrite !Z.ltb_lt. apply cmp_lt_lt.
  - intros a b c _ _ _. rewrite !Z.ltb_ge, <- !cmp_flip_le. intros. split; rewrite <- ?cmp_flip_le; by eapply cmp_trans.
Qed.

Lemma comparators_agree keys i j : keys_ok keys -> (i < length keys)%nat -> (j < length keys)%nat ->
  comparator asc (default [] (keys !! i)) (default [] (keys !! j)) = Some (key_lt keys i j).
Proof.
  intros [Hs Hl] [a Ha]%lookup_lt_is_Some_2 [b Hb]%lookup_lt_is_Some_2. unfold key_lt. rewrite Ha, Hb. cbn.
  apply comparator_keys; [apply Hs|apply Hl]; by eapply list_elem_of_lookup_2.
Qed.

Lemma omap_perm {A B} (f : A -> option B) l l' : l ≡ₚ l' -> omap f l ≡ₚ omap f l'.
Proof.
  induction 1 as [|x l l' _ IH|x y l|l1 l2 l3 _ IH1 _ IH2]; cbn; [done| | |by rewrite IH1].
  - destruct (f x); by rewrite IH.
  - destruct (f x), (f y); try done. by rewrite Permutation_swap.
Qed.

Lemma omap_seq {A} (l : list A) : omap (fun i => l !! i) (seq 0 (length l)) = l.
Proof.
  induction l as [|x l IH]; [done|]. cbn [length seq]. cbn. f_equal. rewrite <- fmap_S_seq. rewrite <- IH at 2. clear.
  generalize (seq 0 (length l)) as s. induction s as [|i s IH]; [done|]. cbn. by rewrite IH.
Qed.

Lemma mapM_omap {A B} (f : A -> option B) l l' : mapM f l = Some l' -> l' = omap f l.
Proof. revert l'. induction l as [|x l IH]; cbn; intros l'; [by intros [= <-]|]. intros (y & Hy & (k & Hk & [= <-])%bind_Some)%bind_Some. rewrite Hy. f_equal. auto. Qed.

Lemma mapM_lookup_perm {A} (l : list A) idx : idx ≡ₚ seq 0 (length l) -> exists l', mapM (fun i => l !! i) idx = Some l' /\
  Forall2 (fun i x => l !! i = Some x) idx l' /\ l' ≡ₚ l.
Proof.
  intros Hp. destruct (mapM (fun i => l !! i) idx) as [l'|] eqn:E.
  - exists l'. split; [done|]. split; [by apply mapM_Some|]. apply mapM_omap in E as ->. by rewrite (omap_perm _ _ _ Hp), omap_seq.
  - apply mapM_None, Exists_exists in E as (i & Hin & Hi). rewrite Hp in Hin. apply elem_of_seq in Hin. apply lookup_ge_None in Hi. lia.
Qed.

(** The rows in the order of their keys. *)
Definition in_key_order (key : Tuple -> list Value) (ts : list Tuple) : Prop :=
  forall i j a b, (i < j)%nat -> ts !! i = Some a -> ts !! j = Some b -> keys_cmp asc (key a) (key b) <= 0.

Lemma sort_tuples_sorted (key : Tuple -> list Value) ts : (forall t, t ∈ ts -> sort_key exprs t = Some (key t)) ->
  keys_ok (key <$> ts) -> exprs <> [] ->
  exists sorted, sort_tuples exprs asc ts = Some sorted /\ sorted ≡ₚ ts /\ in_key_order key sorted.
Proof.
  intros Hkey Hok Hne. unfold sort_tuples. rewrite bool_decide_false by done. cbn [orb].
  destruct (Nat.leb_spec (length ts) 1) as [Hle|Hgt].
  { exists ts. split_and!; [done|done|]. intros i j a b Hij _ Hb%lookup_lt_Some. lia. }
  assert (mapM (sort_key exprs) ts = Some (key <$> ts)) as ->.
  { apply mapM_Some. clear Hok Hgt. induction ts as [|t ts IH]; [constructor|]. cbn. constructor; [apply Hkey; by left|].
    apply IH. intros; apply Hkey; by right. }
  cbn [mbind option_bind]. set (keys := key <$> ts) in *. set (idx := seq 0 (length ts)).
  assert (Hlen : length keys = length ts) by apply length_fmap.
  assert (Hcmp : forall i j, i ∈ idx -> j ∈ idx -> comparator asc (default [] (keys !! i)) (default [] (keys !! j)) = Some (key_lt keys i j)).
  { intros i j Hi%elem_of_seq Hj%elem_of_seq. apply comparators_agree; [done|lia|lia]. }
  rewrite (proj2 (forallb_forall _ idx)).
  2: { intros i Hi. apply forallb_forall. intros j Hj. rewrite Hcmp by by apply list_elem_of_In. by apply bool_decide_eq_true. }
  set (lt := fun a b => default false _).
  assert (Hlt : forall i j, i ∈ idx -> j ∈ idx -> lt i j = key_lt keys i j) by (intros; unfold lt; by rewrite Hcmp).
  assert (Hsw : strict_weak lt idx).
  { destruct (key_lt_strict_weak keys idx) as [H1 H2 H3]. split.
    - intros a Ha. rewrite Hlt by done. auto.
    - intros a b c Ha Hb Hc. rewrite !Hlt by done. eauto.
    - intros a b c Ha Hb Hc. rewrite !Hlt by done. eauto. }
  destruct (std_sort_spec lt idx Hsw) as [Hp Hord]. destruct (mapM_lookup_perm ts (std_sort lt idx) Hp) as (sorted & -> & Hf & Hperm).
  exists sorted. split_and!; [done|done|]. intros i j a b Hij Ha Hb.
  destruct (Forall2_lookup_r _ _ _ _ _ Hf Ha) as (i' & Hi' & Hia), (Forall2_lookup_r _ _ _ _ _ Hf Hb) as (j' & Hj' & Hjb).
  pose proof (Hord i j i' j' Hij Hi' Hj') as Hno.
  rewrite Hlt in Hno by (rewrite <- Hp; by eapply list_elem_of_lookup_2). unfold key_lt, keys in Hno.
  rewrite !list_lookup_fmap, Hia, Hjb in Hno. cbn in Hno. apply Z.ltb_ge in Hno. by apply cmp_flip_le.
Qed.
End sorting.

(** ** ORDER BY *)

Section answers.
Context `{CLib} `{StdSort} (table_rows : Table -> ReadWriteMode -> list (RID * list Z) * RC).

(** The copy of a row that ORDER BY keeps. *)
Definition materialised (t : Tuple) : Tuple := ValueListTuple (row_cells t).*1 (row_cells t).*2.

Lemma append_copies ts acc : Forall row_shaped ts ->
  fold_rows append_copy ts (Some RECORD_EOF) acc = mret (acc ++ (materialised <$> ts)).
Proof.
  intros Hts. revert acc. induction Hts as [|t ts Ht _ IH]; intros acc; cbn [fold_rows]; [cbn; by rewrite app_nil_r|].
  assert (append_copy acc t = mret (acc ++ [materialised t])) as -> by (unfold append_copy; by rewrite make_rows).
  rewrite Res_bind_ret, IH, <- app_assoc. done.
Qed.

(** The sort keys of a row. *)
Definition order_key (es : list Expression) (t : Tuple) : list Value :=
  (fun e => match get_value (find_cell t) e with Some (inr v) => v | _ => VUndefined end) <$> es.

Lemma order_key_copy es t : row_shaped t -> order_key es (materialised t) = order_key es t.
Proof.
  intros Ht. apply list_fmap_ext. intros i e _. by rewrite (make_keeps t (materialised t) Ht (make_rows t Ht)).
Qed.

(** A sort expression that is a field of a type with an order. *)
Definition sort_field (s : Schema) (e : Expression) : Prop :=
  exists tn fn ty, e = FieldExpr tn fn ty /\ (schema_type s (field_spec tn fn) = Some INTS \/ schema_type s (field_spec tn fn) = Some CHARS).

Lemma cell_nul_free fm record s : row_cell fm record = VChars s -> nul_free s.
Proof. unfold row_cell. destruct (field_type fm); cbn; try done. intros [= <-]. apply c_string_nul_free. Qed.

(** What is found in a row is a cell of it. *)
Lemma find_cell_from t spec v : row_shaped t -> find_cell t spec = mret v -> exists fm record, v = row_cell fm record.
Proof.
  induction t as [name fs i0 r|cs ss|l r IHl IHr|es|es c IHc|ts IHts] using tuple_ind; cbn; intros Ht; try done.
  - destruct (negb _); [done|]. induction fs as [|f fs IH]; cbn; [done|]. case_bool_decide; [|done].
    intros [= Hc]. by exists f, r.
  - destruct Ht as [Hl Hr]. destruct (find_cell l spec) as [[rc|v']|] eqn:El; [|by intros [= ->]; apply IHl|done].
    destruct rc; try done. auto.
Qed.

Lemma find_cell_nul_free t spec s : row_shaped t -> find_cell t spec = mret (VChars s) -> nul_free s.
Proof. intros Ht (fm & record & Hc)%find_cell_from; [|done]. by eapply cell_nul_free. Qed.

Lemma order_keys_ok asc s es ts : Forall (sort_field s) es -> (length es <= length asc)%nat ->
  (forall t, t ∈ ts -> row_shaped t /\ schema_of t = s) -> keys_ok asc (order_key es <$> ts).
Proof.
  intros Hes Hlen Hts. split.
  - intros a b (t & -> & Ht)%list_elem_of_fmap (t' & -> & Ht')%list_elem_of_fmap.
    destruct (Hts t Ht) as [Hr Hs], (Hts t' Ht') as [Hr' Hs']. unfold order_key. clear Hlen Hts Ht Ht'.
    induction Hes as [|e es (tn & fn & ty & -> & Hty) _ IH]; cbn; [constructor|]. constructor; [|done].
    pose proof (find_cell_schema t (field_spec tn fn) Hr) as Hf. pose proof (find_cell_schema t' (field_spec tn fn) Hr') as Hf'.
    rewrite Hs in Hf. rewrite Hs' in Hf'.
    destruct Hty as [Hty|Hty]; rewrite Hty in Hf, Hf'; destruct Hf as (v & Hv & Hvt), Hf' as (v' & Hv' & Hvt'); rewrite Hv, Hv';
      destruct v; try done; destruct v'; try done. split; [exact (find_cell_nul_free t _ _ Hr Hv)|exact (find_cell_nul_free t' _ _ Hr' Hv')].
  - intros a (t & -> & _)%list_elem_of_fmap. unfold order_key. by rewrite length_fmap.
Qed.

Lemma sort_key_fields s es t : Forall (sort_field s) es -> row_shaped t ->
  sort_key es (materialised t) = Some (order_key es (materialised t)).
Proof.
  intros Hes Ht. induction Hes as [|e es (tn & fn & ty & -> & Hty) _ IH]; [done|]. cbn [sort_key order_key fmap list_fmap].
  rewrite (make_keeps t (materialised t) Ht (make_rows t Ht)). rewrite IH. cbn [get_value].
  pose proof (find_cell_schema t (field_spec tn fn) Ht) as Hf.
  destruct (schema_type (schema_of t) (field_spec tn fn)); [destruct Hf as (v & -> & _)|rewrite Hf]; done.
Qed.

(** The rows of ORDER BY over rows of tables. *)
Lemma sort_run_rows asc s es ts : Forall (sort_field s) es -> es <> [] -> (length es <= length asc)%nat ->
  (forall t, t ∈ ts -> row_shaped t /\ schema_of t = s) ->
  exists rows, sort_run es asc (Some (inr (ts, Some RECORD_EOF))) = Some (inr (materialised <$> rows, Some RECORD_EOF)) /\
    rows ≡ₚ ts /\ in_key_order asc (order_key es) rows.
Proof.
  intros Hes Hne Hlen Hts. unfold sort_run. cbn [bind_run]. rewrite append_copies by (apply Forall_forall; intros; by apply Hts). cbn [app].
  assert (Hk : order_key es <$> (materialised <$> ts) = order_key es <$> ts).
  { rewrite <- list_fmap_compose. apply list_fmap_ext. intros i t Hi%list_elem_of_lookup_2. by apply order_key_copy, Hts. }
  destruct (sort_tuples_sorted es asc (order_key es) (materialised <$> ts)) as (sorted & Hs & Hp & Ho); [| |done|].
  - intros t' (t & -> & Ht)%list_elem_of_fmap. eapply sort_key_fields; [done|by apply Hts].
  - rewrite Hk. by eapply order_keys_ok.
  - apply Permutation_map_inv in Hp as (rows & -> & Hp). exists rows. cbn. rewrite Hs. split_and!; [done|by symmetry|].
    intros i j a b Hij Ha Hb.
    assert (Hrow : forall t, t ∈ rows -> row_shaped t) by (intros t Hin; apply Hts; by rewrite Hp).
    rewrite <- (order_key_copy es a), <- (order_key_copy es b) by (eapply Hrow, list_elem_of_lookup_2; done).
    apply (Ho i j); [done|rewrite list_lookup_fmap, Ha|rewrite list_lookup_fmap, Hb]; done.
Qed.

Lemma copy_fields s es : Forall (sort_field s) es -> copy <$> ((fun e => (""%string, copy e)) <$> es).*2 = es.
Proof. induction 1 as [|e es (tn & fn & ty & -> & _) _ IH]; cbn; [done|]. by rewrite IH. Qed.

End answers.

