(* ===== verification/GroupBy.v ===== *)
(** * GroupBy: sums and groups

    [scalar_group_by_physical_operator.cpp] and [hash_group_by_physical_operator.cpp] fold the
    rows of their child into groups.  With SUM, the only aggregate that has an aggregator, over
    integers, the state after any number of rows is a function of those rows: [group_state].
    The keys of the groups are compared with [Tuple::compare]; on integers and on strings without
    NUL that is equality. *)

From stdpp Require Import strings.
From S2P Require Import Prelude Bytes Compare RecordPage MvccTrx Float32 Value Expr Tuple Exec ExecLaws Logical Rewrite RewriteSound Plan PlanSound OrderBy.
#[local] Open Scope Z_scope.

(** ** Lists *)

Definition sum_z (l : list Z) : Z := foldr Z.add 0 l.

Lemma sum_z_app l x : sum_z (l ++ [x]) = sum_z l + x.
Proof. unfold sum_z. induction l as [|y l IH]; cbn in *; lia. Qed.

Lemma int32_add_r a b : int32 (a + int32 b) = int32 (a + b).
Proof.
  unfold wrap_s. f_equal. set (m := 2 ^ 32). set (h := 2 ^ (32 - 1)).
  replace (a + ((b + h) mod m - h) + h) with (a + (b + h) mod m) by lia. rewrite Zplus_mod_idemp_r. f_equal. lia.
Qed.

(** The elements without repetitions, in the order of their first occurrence. *)
Definition distinct {A} `{EqDecision A} (l : list A) : list A :=
  fold_left (fun acc x => if bool_decide (x ∈ acc) then acc else acc ++ [x]) l [].

Lemma distinct_app {A} `{EqDecision A} (l : list A) x :
  distinct (l ++ [x]) = if bool_decide (x ∈ distinct l) then distinct l else distinct l ++ [x].
Proof. unfold distinct. by rewrite fold_left_app. Qed.

Lemma elem_of_distinct {A} `{EqDecision A} (l : list A) x : x ∈ distinct l <-> x ∈ l.
Proof.
  induction l as [|y l IH] using rev_ind; [done|]. rewrite distinct_app. case_bool_decide as Hy; set_solver.
Qed.

Lemma distinct_nodup {A} `{EqDecision A} (l : list A) : NoDup (distinct l).
Proof.
  induction l as [|y l IH] using rev_ind; [constructor|]. rewrite distinct_app. case_bool_decide as Hy; [done|].
  apply NoDup_app. split_and!; [done|set_solver|apply NoDup_singleton].
Qed.

Lemma at_zlen {A B} (l : list A) (l0 : list B) x : l !! length l0 = Some x ->
  in_range l (zlen l0) = true /\ at_index l (zlen l0) = mret x.
Proof. intros Hx. unfold zlen. by rewrite (in_range_lookup _ _ _ Hx), (at_index_lt _ _ _ Hx). Qed.

(** ** Aggregates *)

Section sums.
Context `{CLib} (aggs : list Aggregate) (Hsum : Forall (fun a : Aggregate => a.1.1 = SUM) aggs).

Definition int_value (e : Expression) (t : Tuple) : Z :=
  match get_value (find_cell t) e with Some (inr (VInt z)) => z | _ => 0 end.

(** The arguments of the aggregates are integers on the row. *)
Definition args_ok (t : Tuple) : Prop :=
  Forall (fun a : Aggregate => exists z, get_value (find_cell t) a.1.2 = mret (VInt z) /\ int32 z = z) aggs.

(** The aggregators after some rows. *)
Definition sums (ts : list Tuple) : list Value :=
  (fun a : Aggregate => VInt (int32 (sum_z (int_value a.1.2 <$> ts)))) <$> aggs.
Definition sum_state (ts : list Tuple) : list Value :=
  match ts with [] => (fun _ => VUndefined) <$> aggs | _ => sums ts end.

Lemma aggregators_created : create_aggregator_list aggs = Some (sum_state []).
Proof.
  unfold create_aggregator_list. apply mapM_Some. cbn [sum_state]. apply Forall2_fmap_r, Forall_Forall2_diag.
  eapply Forall_impl; [exact Hsum|]. intros [[ty c] nm]. cbn. by intros ->.
Qed.

Lemma accumulate_int ts e z : get_value (find_cell z) e = mret (VInt (int_value e z)) -> int32 (int_value e z) = int_value e z ->
  accumulate (match ts with [] => VUndefined | _ => VInt (int32 (sum_z (int_value e <$> ts))) end) (VInt (int_value e z)) =
    Some (VInt (int32 (sum_z (int_value e <$> ts ++ [z])))).
Proof.
  intros _ Hz. destruct ts as [|t ts]; [unfold accumulate; cbn; by rewrite Z.add_0_r, Hz|].
  rewrite fmap_app. cbn [fmap list_fmap]. change ([int_value e z]) with ([int_value e z] : list Z). rewrite sum_z_app.
  unfold accumulate. cbn [attr_type bool_decide decide_rel]. rewrite bool_decide_false, bool_decide_true by done.
  cbn [value_calc integer_calc get_int]. by rewrite int32_add_r, Z.add_comm.
Qed.

Lemma aggregate_loop_ok ts t l l0 : args_ok t -> aggs = l0 ++ l ->
  aggregate_loop ((fun a : Aggregate => match ts with [] => VUndefined | _ => VInt (int32 (sum_z (int_value a.1.2 <$> ts))) end) <$> l)
      (value_tuple aggs t) (zlen l0) =
    mret ((fun a : Aggregate => VInt (int32 (sum_z (int_value a.1.2 <$> ts ++ [t])))) <$> l).
Proof.
  intros Hok. revert l0. induction l as [|a l IH]; intros l0 Hl; [done|]. cbn [fmap list_fmap aggregate_loop].
  assert (Hcell : cell_at (value_tuple aggs t) (zlen l0) = mret (VInt (int_value a.1.2 t)) /\ int32 (int_value a.1.2 t) = int_value a.1.2 t).
  { unfold args_ok in Hok. rewrite Hl in Hok. apply Forall_app in Hok as [_ Hok]. apply Forall_inv in Hok as (z & Hz & Hi).
    set (es := (fun a : Aggregate => (a.2, a.1.2)) <$> aggs : list Named). change (value_tuple aggs t) with (ExpressionTuple es (Some t)).
    assert (Hlk : es !! length l0 = Some (a.2, a.1.2)).
    { unfold es. rewrite list_lookup_fmap, Hl, lookup_app_r, Nat.sub_diag by lia. done. }
    clearbody es. cbn [cell_at]. destruct (at_zlen (A := Named) es l0 _ Hlk) as [-> ->]. cbn. unfold int_value. rewrite Hz. done. }
  destruct Hcell as [-> Hi]. rewrite Res_bind_ret. rewrite accumulate_int; [|unfold int_value in *|done].
  - specialize (IH (l0 ++ [a])). rewrite <- app_assoc in IH. specialize (IH Hl).
    replace (zlen l0 + 1) with (zlen (l0 ++ [a])) by (unfold zlen; rewrite length_app; cbn; lia). rewrite IH. done.
  - unfold args_ok in Hok. rewrite Hl in Hok. apply Forall_app in Hok as [_ Hok]. apply Forall_inv in Hok as (z & Hz & _). by rewrite Hz.
Qed.

Lemma aggregate_ok ts t : args_ok t -> aggregate (sum_state ts) (value_tuple aggs t) = mret (sum_state (ts ++ [t])).
Proof.
  intros Hok. unfold aggregate.
  assert (Hst : forall ts, sum_state ts = (fun a : Aggregate => match ts with [] => VUndefined | _ => VInt (int32 (sum_z (int_value a.1.2 <$> ts))) end) <$> aggs).
  { intros [|]; done. }
  rewrite !Hst. cbn [cell_num value_tuple]. replace (zlen (_ <$> aggs) =? zlen (_ <$> aggs)) with true
    by (symmetry; apply Z.eqb_eq; unfold zlen; by rewrite !length_fmap).
  cbn [negb]. pose proof (aggregate_loop_ok ts t aggs [] Hok eq_refl) as Hl. change (zlen []) with 0 in Hl. rewrite Hl. by destruct ts.
Qed.
End sums.

(** ** Keys *)

#[export] Instance float32_eq_dec : EqDecision float32.
Proof. unfold float32. solve_decision. Defined.
#[export] Instance Value_eq_dec : EqDecision Value.
Proof. solve_decision. Defined.

Lemma lex_eq a b : lex a b = 0 <-> a = b.
Proof.
  revert b. induction a as [|x a IH]; intros [|y b]; cbn; try done. destruct (Z.eqb_spec x y) as [->|Hne].
  - rewrite IH. by split; [intros ->|intros [= ->]].
  - unfold compare_int. split; [|by intros [= -> ->]]. destruct (Z.ltb_spec y x), (Z.ltb_spec x y); lia.
Qed.

Lemma compare_int_eq a b : compare_int a b = 0 <-> a = b.
Proof. unfold compare_int. destruct (Z.ltb_spec b a), (Z.ltb_spec a b); lia. Qed.

(** Two key values of a column. *)
Definition key_values (a b : Value) : Prop :=
  match a, b with
  | VInt _, VInt _ => True
  | VChars s, VChars s' => nul_free s /\ nul_free s'
  | _, _ => False
  end.

Lemma compare_keys_eq a b : key_values a b -> exists c, compare_val a b = Some c /\ (c = 0 <-> a = b).
Proof.
  destruct a as [|s|z| | |], b as [|s'|z'| | |]; cbn; try done.
  - intros [Hs Hs']. eexists. split; [done|]. rewrite compare_string_lex by done. rewrite lex_eq. by split; [intros ->|intros [= ->]].
  - intros _. eexists. split; [done|]. rewrite compare_int_eq. by split; [intros ->|intros [= ->]].
Qed.

Section keys.
Context `{CLib} (specs : list TupleCellSpec).

Lemma cell_at_list {A} cells (l0 : list A) v : cells !! length l0 = Some v -> cell_at (ValueListTuple cells specs) (zlen l0) = mret v.
Proof. intros Hv. cbn [cell_at]. by destruct (at_zlen _ l0 _ Hv) as [-> ->]. Qed.

(** [Tuple::compare] on keys: zero exactly for equal keys. *)
Lemma compare_loop_keys a b a0 b0 : Forall2 key_values a b -> length a0 = length b0 ->
  exists c, compare_loop (ValueListTuple (a0 ++ a) specs) (ValueListTuple (b0 ++ b) specs) (zlen a0) (length a) = mret c /\ (c = 0 <-> a = b).
Proof.
  intros Hk. revert a0 b0. induction Hk as [|va vb a b Hv Hk IH]; intros a0 b0 Hl; cbn [compare_loop length].
  { exists 0. done. }
  assert (Hla : (a0 ++ va :: a) !! length a0 = Some va) by (rewrite lookup_app_r, Nat.sub_diag by lia; done).
  assert (Hlb : (b0 ++ vb :: b) !! length a0 = Some vb) by (rewrite Hl, lookup_app_r, Nat.sub_diag by lia; done).
  rewrite (cell_at_list _ _ _ Hla), (cell_at_list _ _ _ Hlb), !Res_bind_ret.
  destruct (compare_keys_eq va vb Hv) as (c & -> & Hc). destruct (Z.eqb_spec 0 c) as [<-|Hne]; cbn [negb].
  - assert (va = vb) as -> by by apply Hc. destruct (IH (a0 ++ [vb]) (b0 ++ [vb])) as (c & Hc' & Heq); [rewrite !length_app; cbn; lia|].
    rewrite <- !app_assoc in Hc'. cbn [app] in Hc'. replace (zlen (a0 ++ [vb])) with (zlen a0 + 1) in Hc' by (unfold zlen; rewrite length_app; cbn; lia).
    exists c. split; [exact Hc'|]. rewrite Heq. by split; [intros ->|intros [= ->]].
  - exists c. split; [done|]. split; [done|]. intros [= -> ->]. by apply Hc.
Qed.

Lemma compare_keys a b : Forall2 key_values a b ->
  exists c, compare (ValueListTuple a specs) (ValueListTuple b specs) = mret c /\ (c = 0 <-> a = b).
Proof.
  intros Hk. unfold compare. cbn [cell_num]. pose proof (Forall2_length _ _ _ Hk) as Hl. unfold zlen. rewrite Hl, Z.ltb_irrefl, <- Hl, Nat2Z.id.
  by apply (compare_loop_keys a b [] []).
Qed.
End keys.

(** ** Groups *)

Section groups.
Context `{CLib} (aggs : list Aggregate) (Hsum : Forall (fun a : Aggregate => a.1.1 = SUM) aggs).
Context (by_ : list Named).

Definition group_key (t : Tuple) : list Value := order_key by_.*2 t.
Definition key_tuple (k : list Value) : Tuple := ValueListTuple k ((fun b : Named => alias_spec b.1) <$> by_).
Definition rows_with (k : list Value) (ts : list Tuple) : list Tuple := List.filter (fun t => bool_decide (group_key t = k)) ts.

(** The first row of a group is kept, as a copy. *)
Definition kept_row (k : list Value) (ts : list Tuple) : list Tuple := materialised <$> take 1 (rows_with k ts).

Definition group_state (ts : list Tuple) : list Group :=
  (fun k => (key_tuple k, (sum_state aggs (rows_with k ts), kept_row k ts))) <$> distinct (group_key <$> ts).

(** Rows on which the keys and the arguments of the aggregates can be computed; [cols] are
    the rows whose keys occur. *)
Record group_row (t : Tuple) : Prop := {
  gr_row : row_shaped t;
  gr_args : args_ok aggs t;
  gr_keys : Forall (fun b : Named => exists v, get_value (find_cell t) b.2 = mret v) by_
}.

Definition keys_comparable (ts : list Tuple) : Prop :=
  forall t t', t ∈ ts -> t' ∈ ts -> Forall2 key_values (group_key t) (group_key t').

Lemma make_key_loop t l l0 : Forall (fun b : Named => exists v, get_value (find_cell t) b.2 = mret v) by_ -> by_ = l0 ++ l ->
  make_loop (ExpressionTuple by_ (Some t)) (zlen l0) (length l) =
    mret (zip (order_key l.*2 t) ((fun b : Named => alias_spec b.1) <$> l)).
Proof.
  intros Hok. revert l0. induction l as [|b l IH]; intros l0 Hl; [done|]. cbn [length make_loop].
  assert (Hlk : by_ !! length l0 = Some b) by (rewrite Hl, lookup_app_r, Nat.sub_diag by lia; done).
  rewrite Forall_forall in Hok. destruct (Hok b) as [v Hv]; [by eapply list_elem_of_lookup_2|].
  cbn [cell_at spec_at]. destruct (at_zlen (A := Named) by_ l0 _ Hlk) as [-> ->].
  cbn [negb]. rewrite !Res_bind_ret. cbn [expression_value fmap option_fmap option_map]. rewrite Hv, Res_bind_ret.
  specialize (IH (l0 ++ [b])). rewrite <- app_assoc in IH.
  replace (zlen l0 + 1) with (zlen (l0 ++ [b])) by (unfold zlen; rewrite length_app; cbn; lia). rewrite IH by done.
  rewrite Res_bind_ret. unfold order_key. cbn [fmap list_fmap zip zip_with]. by rewrite Hv.
Qed.

Lemma make_key t : Forall (fun b : Named => exists v, get_value (find_cell t) b.2 = mret v) by_ ->
  make (ExpressionTuple by_ (Some t)) = mret (key_tuple (group_key t)).
Proof.
  intros Hok. unfold make. cbn [cell_num]. unfold zlen. rewrite Nat2Z.id. pose proof (make_key_loop t by_ [] Hok eq_refl) as Hm.
  change (zlen []) with 0 in Hm. rewrite Hm, Res_bind_ret. unfold key_tuple, group_key.
  rewrite fst_zip, snd_zip by (unfold order_key; rewrite !length_fmap; apply Nat.le_refl). done.
Qed.

Definition group_of (ts : list Tuple) (k : list Value) : Group := (key_tuple k, (sum_state aggs (rows_with k ts), kept_row k ts)).

Lemma find_group_keys k0 ks (g : list Value -> Group) : (forall k, (g k).1 = key_tuple k) ->
  (forall k, k ∈ ks -> Forall2 key_values k0 k) ->
  find_group (key_tuple k0) (g <$> ks) = mret (fst <$> list_find (fun k => k0 = k) ks).
Proof.
  intros Hg. induction ks as [|k ks IH]; intros Hk; [done|]. cbn [fmap list_fmap find_group list_find]. rewrite Hg.
  destruct (compare_keys ((fun b : Named => alias_spec b.1) <$> by_) k0 k) as (c & Hc & Heq); [apply Hk; by left|].
  fold (key_tuple k0) in Hc. fold (key_tuple k) in Hc. rewrite Hc, Res_bind_ret. destruct (decide (k0 = k)) as [E|E].
  - rewrite (proj2 Heq E). done.
  - destruct (Z.eqb_spec c 0); [by destruct E; apply Heq|]. rewrite IH by (intros; apply Hk; by right). rewrite Res_bind_ret.
    by destruct (list_find _ ks) as [[]|].
Qed.

Lemma rows_with_app k ts t : rows_with k (ts ++ [t]) = rows_with k ts ++ (if bool_decide (group_key t = k) then [t] else []).
Proof. unfold rows_with. rewrite List.filter_app. cbn. by case_bool_decide. Qed.

Lemma group_of_other ts t k : group_key t <> k -> group_of (ts ++ [t]) k = group_of ts k.
Proof. intros Hk. unfold group_of, kept_row. by rewrite rows_with_app, bool_decide_false, app_nil_r. Qed.

Lemma rows_with_elem k ts : k ∈ distinct (group_key <$> ts) <-> rows_with k ts <> [].
Proof.
  rewrite elem_of_distinct, list_elem_of_fmap. unfold rows_with. split.
  - intros (t & -> & Ht) E. assert (Hin : t ∈ List.filter (fun t' => bool_decide (group_key t' = group_key t)) ts).
    { apply list_elem_of_In, filter_In. split; [by apply list_elem_of_In|by apply bool_decide_true]. }
    rewrite E in Hin. by apply not_elem_of_nil in Hin.
  - destruct (List.filter _ ts) as [|t l] eqn:E; [done|]. intros _. exists t.
    assert (Hin : In t (List.filter (fun t => bool_decide (group_key t = k)) ts)) by (rewrite E; by left).
    apply filter_In in Hin as [Hin Hb%bool_decide_eq_true]. split; [done|]. by apply list_elem_of_In.
Qed.

(** One row in the hash group by. *)
Lemma hash_step_ok ts t : group_row t -> keys_comparable (ts ++ [t]) ->
  hash_step aggs by_ (group_state ts) t = mret (group_state (ts ++ [t])).
Proof.
  intros [Hrow Hargs Hkeys] Hcomp. unfold hash_step. rewrite make_key, Res_bind_ret by done.
  set (ks := distinct (group_key <$> ts)). change (group_state ts) with (group_of ts <$> ks).
  assert (Hks : forall k, k ∈ ks -> Forall2 key_values (group_key t) k).
  { intros k (t' & -> & Ht')%elem_of_distinct%list_elem_of_fmap. apply Hcomp; set_solver. }
  rewrite (find_group_keys _ ks (group_of ts)), Res_bind_ret by done.
  assert (Hnew : group_state (ts ++ [t]) = group_of (ts ++ [t]) <$> (if bool_decide (group_key t ∈ ks) then ks else ks ++ [group_key t])).
  { unfold group_state. rewrite fmap_app. cbn [fmap list_fmap]. by rewrite distinct_app. }
  rewrite Hnew. destruct (list_find _ ks) as [[i k]|] eqn:Ef; cbn [fmap option_fmap option_map].
  - apply list_find_Some in Ef as (Hi & <- & _). rewrite bool_decide_true by by eapply list_elem_of_lookup_2.
    rewrite Res_bind_ret. cbn [fst]. rewrite list_lookup_fmap, Hi. cbn [fmap option_fmap option_map group_of].
    rewrite (aggregate_ok aggs (rows_with (group_key t) ts) t Hargs), Res_bind_ret. f_equal. apply list_eq. intros j.
    destruct (decide (i = j)) as [<-|Hij].
    + rewrite list_lookup_insert_eq by (rewrite length_fmap; by eapply lookup_lt_Some). rewrite list_lookup_fmap, Hi. cbn.
      unfold group_of, kept_row. rewrite rows_with_app, bool_decide_true by done.
      apply list_elem_of_lookup_2, rows_with_elem in Hi. by destruct (rows_with (group_key t) ts).
    + rewrite list_lookup_insert_ne by done. rewrite !list_lookup_fmap. destruct (ks !! j) as [k'|] eqn:Hj; [|done]. cbn.
      rewrite group_of_other; [done|]. intros <-. pose proof (NoDup_lookup _ _ _ _ (distinct_nodup (group_key <$> ts)) Hi Hj). done.
  - apply list_find_None in Ef. rewrite Forall_forall in Ef. rewrite bool_decide_false by (intros Hin; by destruct (Ef _ Hin)).
    rewrite (aggregators_created aggs Hsum), (make_rows t Hrow), !Res_bind_ret. cbn [fst]. fold (materialised t).
    rewrite lookup_app_r by apply Nat.le_refl. rewrite Nat.sub_diag. cbn [lookup list_lookup].
    rewrite (aggregate_ok aggs [] t Hargs), Res_bind_ret. f_equal.
    rewrite insert_app_r_alt by apply Nat.le_refl. rewrite Nat.sub_diag. cbn [insert list_insert app]. rewrite fmap_app. f_equal.
    + apply list_fmap_ext. intros j k Hj. symmetry. apply group_of_other. intros <-. by apply (Ef _ (list_elem_of_lookup_2 _ _ _ Hj)).
    + cbn. unfold group_of, kept_row. rewrite rows_with_app, bool_decide_true by done.
      assert (rows_with (group_key t) ts = []) as ->; [|done].
      destruct (rows_with (group_key t) ts) eqn:E; [done|]. exfalso. apply (Ef (group_key t)); [|done]. apply rows_with_elem. by rewrite E.
Qed.

Lemma hash_fold ts ts0 : Forall group_row ts -> keys_comparable (ts0 ++ ts) ->
  fold_rows (hash_step aggs by_) ts (Some RECORD_EOF) (group_state ts0) = mret (group_state (ts0 ++ ts)).
Proof.
  intros Hts. revert ts0. induction Hts as [|t ts Ht _ IH]; intros ts0 Hc; cbn [fold_rows]; [by rewrite app_nil_r|].
  rewrite hash_step_ok; [|done|intros a b Ha Hb; apply Hc; set_solver]. rewrite Res_bind_ret.
  rewrite IH; rewrite <- app_assoc; done.
Qed.

(** One row in the scalar group by. *)
Definition scalar_state (ts : list Tuple) : option GroupValue :=
  match ts with [] => None | t :: _ => Some (sum_state aggs ts, [materialised t]) end.

Lemma scalar_step_ok ts t : row_shaped t -> args_ok aggs t -> scalar_step aggs (scalar_state ts) t = mret (scalar_state (ts ++ [t])).
Proof.
  intros Hrow Hargs. unfold scalar_step. destruct ts as [|t0 ts].
  - cbn [scalar_state]. rewrite (aggregators_created aggs Hsum), (make_rows t Hrow), !Res_bind_ret.
    by rewrite (aggregate_ok aggs [] t Hargs).
  - cbn [scalar_state app]. rewrite Res_bind_ret. by rewrite (aggregate_ok aggs (t0 :: ts) t Hargs).
Qed.

Lemma scalar_fold ts ts0 : Forall (fun t => row_shaped t /\ args_ok aggs t) ts ->
  fold_rows (scalar_step aggs) ts (Some RECORD_EOF) (scalar_state ts0) = mret (scalar_state (ts0 ++ ts)).
Proof.
  intros Hts. revert ts0. induction Hts as [|t ts [Ht Ha] _ IH]; intros ts0; cbn [fold_rows]; [by rewrite app_nil_r|].
  rewrite scalar_step_ok, Res_bind_ret, IH, <- app_assoc by done. done.
Qed.

(** The rows that come out: the copy of the first row of the group, and the sums under the
    names of the aggregates. *)
Definition group_tuple (ts : list Tuple) : Tuple :=
  CompositeTuple ((materialised <$> take 1 ts) ++ [ValueListTuple (sums aggs ts) ((fun a : Aggregate => alias_spec a.2) <$> aggs)]).

Definition grouped_rows (ts : list Tuple) : list Tuple :=
  match by_ with
  | [] => match ts with [] => [] | _ => [group_tuple ts] end
  | _ => (fun k => group_tuple (rows_with k ts)) <$> distinct (group_key <$> ts)
  end.

(** The query expressions on such a row: an aggregate is the sum under its name. *)
Lemma find_spec_list (l : list Aggregate) (v : Aggregate -> Value) a : NoDup l.*2 -> a ∈ l ->
  find_spec (v <$> l) ((fun a : Aggregate => alias_spec a.2) <$> l) (alias_spec a.2) = mret (v a).
Proof.
  induction l as [|b l IH]; cbn; [by intros _ ?%not_elem_of_nil|]. intros [Hn Hnd]%NoDup_cons [->|Hin]%elem_of_cons.
  - by rewrite bool_decide_true.
  - rewrite bool_decide_false; [by apply IH|]. intros [= E]. apply Hn. rewrite E. by apply list_elem_of_fmap_2.
Qed.

Lemma alias_not_in_row t a : row_shaped t -> find_cell t (alias_spec a) = fails NOTFOUND.
Proof.
  induction t as [name fs i0 r|cs ss|l r IHl IHr|es|es c IHc|ts IHts] using tuple_ind; cbn; intros Ht; try done.
  - by rewrite bool_decide_false.
  - destruct Ht. rewrite IHl by done. by apply IHr.
Qed.

Lemma group_tuple_sum ts a : Forall row_shaped ts -> NoDup aggs.*2 -> a ∈ aggs ->
  get_value (find_cell (group_tuple ts)) (AggregateExpr a.1.1 a.1.2 a.2) = mret (VInt (int32 (sum_z (int_value a.1.2 <$> ts)))).
Proof.
  intros Hts Hnd Hin. cbn [get_value].
  assert (Hsums : find_cell (ValueListTuple (sums aggs ts) ((fun a : Aggregate => alias_spec a.2) <$> aggs)) (alias_spec a.2) =
    mret (VInt (int32 (sum_z (int_value a.1.2 <$> ts))))).
  { unfold sums. cbn [find_cell]. rewrite !length_fmap, Nat.eqb_refl.
    by apply (find_spec_list aggs (fun a => VInt (int32 (sum_z (int_value a.1.2 <$> ts))))). }
  assert (Hrow : forall t, row_shaped t -> find_cell (materialised t) (alias_spec a.2) = fails NOTFOUND).
  { intros t Ht. pose proof (make_keeps t (materialised t) Ht (make_rows t Ht) (AggregateExpr SUM (ValueExpr VUndefined) a.2)) as Hk.
    cbn [get_value] in Hk. by rewrite Hk, alias_not_in_row. }
  unfold group_tuple. revert Hsums Hrow. set (v := ValueListTuple _ _). set (spec := alias_spec _). clearbody v spec. intros Hsums Hrow.
  destruct Hts as [|t ts Ht Hts]; [cbn; by rewrite Hsums|]. change (take 1 (t :: ts)) with [t]. cbn [fmap list_fmap app].
  pose proof (Hrow t Ht) as Hm. revert Hm. set (m := materialised t). clearbody m. intros Hm. cbn. rewrite Hm. cbn. by rewrite Hsums.
Qed.

Lemma hash_run_rows ts : by_ <> [] -> Forall group_row ts -> keys_comparable ts ->
  hash_run aggs by_ (Some (inr (ts, Some RECORD_EOF))) = Some (inr (grouped_rows ts, Some RECORD_EOF)).
Proof.
  intros Hby Hts Hc. unfold hash_run. cbn [bind_run]. pose proof (hash_fold ts [] Hts Hc) as Hf.
  change (group_state []) with ([] : list Group) in Hf. rewrite Hf. cbn [app]. do 3 f_equal.
  unfold group_state, grouped_rows. destruct by_; [done|]. rewrite <- list_fmap_compose. apply list_fmap_ext.
  intros i k Hk%list_elem_of_lookup_2%rows_with_elem. unfold compose, evaluate, group_tuple, kept_row. cbn [snd fst].
  destruct (rows_with k ts); done.
Qed.

Lemma scalar_run_rows ts : by_ = [] -> Forall (fun t => row_shaped t /\ args_ok aggs t) ts ->
  scalar_run aggs (Some (inr (ts, Some RECORD_EOF))) = Some (inr (grouped_rows ts, Some RECORD_EOF)).
Proof.
  intros Hby Hts. unfold scalar_run. cbn [bind_run]. pose proof (scalar_fold ts [] Hts) as Hf. cbn [scalar_state app] in Hf. rewrite Hf.
  unfold grouped_rows. rewrite Hby. by destruct ts.
Qed.
End groups.

(** ** GROUP BY *)

Section answers.
Context `{CLib} `{StdSort} (table_rows : Table -> ReadWriteMode -> list (RID * list Z) * RC).

(** Arguments that are fields of type INTS. *)
Definition int_field (s : Schema) (e : Expression) : Prop :=
  exists tn fn ty, e = FieldExpr tn fn ty /\ schema_type s (field_spec tn fn) = Some INTS.

Lemma int_field_value s e t : int_field s e -> row_shaped t -> schema_of t = s ->
  exists z, get_value (find_cell t) e = mret (VInt z) /\ int32 z = z.
Proof.
  intros (tn & fn & ty & -> & Hty) Hr Hs. pose proof (find_cell_schema t (field_spec tn fn) Hr) as Hf. rewrite Hs, Hty in Hf.
  destruct Hf as (v & Hv & Hvt). destruct v as [| |z| | |]; try done. exists z. split; [done|].
  destruct (find_cell_from t _ _ Hr Hv) as (fm & record & Hc). unfold row_cell in Hc. destruct (field_type fm); try done.
  cbn in Hc. injection Hc as ->. pose proof (int32_add_r 0 (le_value (take 4 (drop (Z.to_nat (attr_offset fm)) record)))) as Hi. by rewrite !Z.add_0_l in Hi.
Qed.

Lemma sort_field_keys s e t t' : sort_field s e -> row_shaped t -> schema_of t = s -> row_shaped t' -> schema_of t' = s ->
  exists v v', get_value (find_cell t) e = mret v /\ get_value (find_cell t') e = mret v' /\ key_values v v'.
Proof.
  intros (tn & fn & ty & -> & Hty) Hr Hs Hr' Hs'.
  pose proof (find_cell_schema t (field_spec tn fn) Hr) as Hf. pose proof (find_cell_schema t' (field_spec tn fn) Hr') as Hf'.
  rewrite Hs in Hf. rewrite Hs' in Hf'. destruct Hty as [Hty|Hty]; rewrite Hty in Hf, Hf';
    destruct Hf as (v & Hv & Hvt), Hf' as (v' & Hv' & Hvt'); exists v, v'; (split_and!; [done|done|]); destruct v; try done; destruct v'; try done.
  split; [exact (find_cell_nul_free t _ _ Hr Hv)|exact (find_cell_nul_free t' _ _ Hr' Hv')].
Qed.

Lemma rows_groupable s aggs by_ ts : Forall (fun a : Aggregate => int_field s a.1.2) aggs ->
  Forall (fun b : Named => sort_field s b.2) by_ -> (forall t, t ∈ ts -> row_shaped t /\ schema_of t = s) ->
  Forall (group_row aggs by_) ts /\ keys_comparable by_ ts.
Proof.
  intros Ha Hb Hts. split.
  - apply Forall_forall. intros t Ht. destruct (Hts t Ht) as [Hr Hs]. split; [done| |].
    + eapply Forall_impl; [exact Ha|]. intros a Hf. exact (int_field_value s _ t Hf Hr Hs).
    + eapply Forall_impl; [exact Hb|]. intros b Hf. destruct (sort_field_keys s b.2 t t Hf Hr Hs Hr Hs) as (v & _ & ? & _). by exists v.
  - intros t t' Ht Ht'. destruct (Hts t Ht) as [Hr Hs], (Hts t' Ht') as [Hr' Hs']. unfold group_key, order_key.
    clear Hts Ht Ht'. induction Hb as [|b bs Hf _ IH]; cbn; [constructor|]. constructor; [|done].
    by destruct (sort_field_keys s b.2 t t' Hf Hr Hs Hr' Hs') as (v & v' & -> & -> & ?).
Qed.

End answers.

