(* ===== verification/Binder.v ===== *)
(** * Binder: from parse trees to statements

    The resolver: [src/src/observer/sql/parser/expression_binder.cpp] looks up the names in the
    expressions of a parse tree, [src/src/observer/sql/stmt/select_stmt.cpp], [filter_stmt.cpp],
    [insert_stmt.cpp], [delete_stmt.cpp] and [explain_stmt.cpp] make statements of the trees of
    [src/src/observer/sql/parser/parse_defs.h].

    The lemmas: the resolver ends in a statement or in a code; a bound expression without
    aggregates names fields of the tables of FROM with their types, and so can be evaluated
    on every row; a filter names fields of the tables, and with a column in every condition
    none of its comparisons is constant. *)

From stdpp Require Import strings.
From S2P Require Import Prelude Bytes Compare RecordPage MvccTrx Float32 Value Expr Tuple Exec ExecLaws Logical Rewrite RewriteSound Plan PlanSound.
#[local] Open Scope Z_scope.

(** ** Names *)

(** [tolower] and [isspace] of the C locale. *)
Definition lower_char (c : Ascii.ascii) : Ascii.ascii :=
  let n := Ascii.N_of_ascii c in if ((65 <=? n) && (n <=? 90))%N then Ascii.ascii_of_N (n + 32) else c.
Fixpoint lower_name (s : string) : string :=
  match s with String c s' => String (lower_char c) (lower_name s') | EmptyString => EmptyString end.

(** [strcasecmp(a, b) == 0] *)
Definition same_name (a b : string) : bool := bool_decide (lower_name a = lower_name b).

Definition space_char (c : Ascii.ascii) : bool :=
  let n := Ascii.N_of_ascii c in ((n =? 32) || ((9 <=? n) && (n <=? 13)))%N.
Definition blank_name (s : string) : bool := forallb space_char (String.list_ascii_of_string s).

(** ** Parse trees *)

(** The expressions that the parser makes, each with its [name()]. *)
Inductive Parsed :=
| PStar (table_name : string)
| PField (name table_name field_name : string)
| PAggregate (name aggregate_name : string) (child : Parsed)
| PFunction (name function_name : string) (children : list Parsed)
| PValue (name : string) (value : Value)
| PCast (name : string) (child : Parsed) (cast_type : AttrType)
| PComparison (name : string) (comp : CompOp) (left right : Parsed)
| PConjunction (name : string) (conjunction_type : ConjType) (children : list Parsed)
| PArithmetic (name : string) (arithmetic_type : ArithType) (left : Parsed) (right : option Parsed).

Section parsed_ind.
Context (P : Parsed -> Prop)
  (Hstar : forall t, P (PStar t)) (Hfield : forall n t f, P (PField n t f))
  (Hagg : forall n a c, P c -> P (PAggregate n a c)) (Hfun : forall n f cs, Forall P cs -> P (PFunction n f cs))
  (Hvalue : forall n v, P (PValue n v)) (Hcast : forall n c ty, P c -> P (PCast n c ty))
  (Hcmp : forall n op l r, P l -> P r -> P (PComparison n op l r))
  (Hconj : forall n ty cs, Forall P cs -> P (PConjunction n ty cs))
  (Harith : forall n op l r, P l -> P r -> P (PArithmetic n op l (Some r))) (Hunary : forall n op l, P l -> P (PArithmetic n op l None)).

Fixpoint parsed_ind (e : Parsed) : P e :=
  let forall_ind := fix go cs : Forall P cs :=
    match cs with [] => Forall_nil_2 _ | c :: cs' => Forall_cons_2 _ _ _ (parsed_ind c) (go cs') end in
  match e with
  | PStar t => Hstar t
  | PField n t f => Hfield n t f
  | PAggregate n a c => Hagg n a c (parsed_ind c)
  | PFunction n f cs => Hfun n f cs (forall_ind cs)
  | PValue n v => Hvalue n v
  | PCast n c ty => Hcast n c ty (parsed_ind c)
  | PComparison n op l r => Hcmp n op l r (parsed_ind l) (parsed_ind r)
  | PConjunction n ty cs => Hconj n ty cs (forall_ind cs)
  | PArithmetic n op l (Some r) => Harith n op l r (parsed_ind l) (parsed_ind r)
  | PArithmetic n op l None => Hunary n op l (parsed_ind l)
  end.
End parsed_ind.

Inductive CondSide := CondAttr (relation_name attribute_name : string) | CondValue (value : Value).
Record ConditionSqlNode := mkCond { cond_left : CondSide; cond_comp : CompOp; cond_right : CondSide }.

Record SelectSqlNode := mkSelectNode {
  node_expressions : list Parsed;
  node_relations : list string;
  node_conditions : list ConditionSqlNode;
  node_group_by : list Parsed;
  node_order_by : list (Parsed * bool);
  node_limit_num : Z
}.

Inductive ParsedSqlNode :=
| SCF_SELECT (selection : SelectSqlNode)
| SCF_INSERT (relation_name : string) (values : list Value)
| SCF_DELETE (relation_name : string) (conditions : list ConditionSqlNode)
| SCF_EXPLAIN (sql_node : ParsedSqlNode).

(** ** Binding *)

(** [AggregateExpr::type_from_string] and [FunctionExpr::type_from_string] *)
Definition aggregate_type_of (s : string) : option AggType :=
  if same_name s "count" then Some COUNT else if same_name s "sum" then Some SUM
  else if same_name s "avg" then Some AVG else if same_name s "max" then Some MAX
  else if same_name s "min" then Some MIN else None.

Definition function_type_of (s : string) : option FuncType :=
  if same_name s "distance" then Some DISTANCE else if same_name s "string_to_vector" then Some STRING_TO_VECTOR
  else if same_name s "vector_to_string" then Some VECTOR_TO_STRING else None.

Definition is_numerical_type (ty : AttrType) : bool := bool_decide (ty = INTS \/ ty = FLOATS).

(** The recursive check of [check_aggregate_expression]: an aggregate in the expression. *)
Fixpoint has_aggregate (e : Expression) : bool :=
  match e with
  | FieldExpr _ _ _ | ValueExpr _ => false
  | CastExpr c _ => has_aggregate c
  | ComparisonExpr _ l r => has_aggregate l || has_aggregate r
  | ConjunctionExpr _ cs | FunctionExpr _ cs => existsb has_aggregate cs
  | ArithmeticExpr _ l r => has_aggregate l || match r with Some r => has_aggregate r | None => false end
  | AggregateExpr _ _ _ => true
  end.

Definition check_aggregate_expression (ty : AggType) (child : Expression) : Res unit :=
  let numeric := match ty with SUM | AVG => true | COUNT | MAX | MIN => false end in
  if numeric && negb (is_numerical_type (value_type child)) then fails INVALID_ARGUMENT
  else if has_aggregate child then fails INVALID_ARGUMENT else mret tt.

(** The one expression that a child is bound to. *)
Definition only (r : Res (list Named)) : Res Expression :=
  bound ← r; match bound with [(_, e)] => mret e | _ => fails INVALID_ARGUMENT end.

Section binder.
(** [sys_field_num] of a table, and [query_tables_] of the context. *)
Context (sys_field_num : Table -> nat) (query_tables : list Table).

Definition context_find_table (name : string) : option Table :=
  head (List.filter (fun t => same_name name t.(table_name)) query_tables).

(** [TableMeta::field] *)
Definition table_field (t : Table) (name : string) : option FieldMeta :=
  head (List.filter (fun f => bool_decide (f.(field_name) = name)) t.(field_metas)).

Definition field_expr (t : Table) (f : FieldMeta) : Expression := FieldExpr t.(table_name) f.(field_name) f.(field_type).

Definition wildcard_fields (t : Table) : list Named :=
  (fun f => (f.(field_name), field_expr t f)) <$> drop (sys_field_num t) t.(field_metas).

Definition bind_star_expression (table_name : string) : Res (list Named) :=
  if negb (blank_name table_name) && negb (bool_decide (table_name = "*"%string)) then
    match context_find_table table_name with
    | None => fails SCHEMA_TABLE_NOT_EXIST
    | Some t => mret (wildcard_fields t)
    end
  else mret (concat (map wildcard_fields query_tables)).

Definition bind_unbound_field_expression (name table_name field_name : string) : Res (list Named) :=
  table ← (if blank_name table_name then
      match query_tables with [t] => mret t | _ => fails SCHEMA_TABLE_NOT_EXIST end
    else match context_find_table table_name with Some t => mret t | None => fails SCHEMA_TABLE_NOT_EXIST end : Res Table);
  if bool_decide (field_name = "*"%string) then mret (wildcard_fields table)
  else match table_field table field_name with
       | None => fails SCHEMA_FIELD_MISSING
       | Some f => mret [(name, field_expr table f)]
       end.

(** [bind_aggregate_expression]; [is_star] and [bound] are the child's kind and its binding. *)
Definition bind_aggregate (name aggregate_name : string) (is_star : bool) (bound : Res (list Named)) : Res (list Named) :=
  match aggregate_type_of aggregate_name with
  | None => fails INVALID_ARGUMENT
  | Some ty =>
      child ← (if is_star && bool_decide (ty = COUNT) then mret (ValueExpr (VInt 1)) else only bound);
      _ ← check_aggregate_expression ty child;
      mret [(name, AggregateExpr ty child name)]
  end.

Definition is_star (e : Parsed) : bool := match e with PStar _ => true | _ => false end.

(** The children of an expression, in turn. *)
Fixpoint bind_children (children : list (Res (list Named))) : Res (list Expression) :=
  match children with
  | [] => mret []
  | bound :: children' => c ← only bound; cs ← bind_children children'; mret (c :: cs)
  end.

Definition bind_cast_expression (name : string) (cast_type : AttrType) (child : Res (list Named)) : Res (list Named) :=
  c ← only child; mret [(name, CastExpr c cast_type)].

Definition bind_comparison_expression (name : string) (comp : CompOp) (left right : Res (list Named)) : Res (list Named) :=
  l ← only left; r ← only right; mret [(name, ComparisonExpr comp l r)].

Definition bind_conjunction_expression (name : string) (ty : ConjType) (children : list (Res (list Named))) : Res (list Named) :=
  cs ← bind_children children; mret [(name, ConjunctionExpr ty cs)].

Definition bind_arithmetic_expression (name : string) (op : ArithType) (left right : Res (list Named)) : Res (list Named) :=
  l ← only left; r ← only right; mret [(name, ArithmeticExpr op l (Some r))].

(** [stars] tells which arguments are stars. *)
Definition bind_unbound_function_expression (name function_name : string) (stars : list bool)
    (children : list (Res (list Named))) : Res (list Named) :=
  match aggregate_type_of function_name with
  | Some _ =>
      match stars, children with
      | [star], [bound] => bind_aggregate name function_name star bound
      | [], [] => bind_aggregate name function_name false (mret [(""%string, ValueExpr (VInt 1))])
      | _, _ => fails INVALID_ARGUMENT
      end
  | None =>
      match function_type_of function_name with
      | None => fails INVALID_ARGUMENT
      | Some ty => cs ← bind_children children; mret [(name, FunctionExpr ty cs)]
      end
  end.

(** A child that is missing binds to nothing. *)
Fixpoint bind_expression (e : Parsed) : Res (list Named) :=
  match e with
  | PStar t => bind_star_expression t
  | PField n t f => bind_unbound_field_expression n t f
  | PAggregate n a c => bind_aggregate n a (is_star c) (bind_expression c)
  | PFunction n f cs => bind_unbound_function_expression n f (map is_star cs) (map bind_expression cs)
  | PValue n v => mret [(n, ValueExpr v)]
  | PCast n c ty => bind_cast_expression n ty (bind_expression c)
  | PComparison n op l r => bind_comparison_expression n op (bind_expression l) (bind_expression r)
  | PConjunction n ty cs => bind_conjunction_expression n ty (map bind_expression cs)
  | PArithmetic n op l r =>
      bind_arithmetic_expression n op (bind_expression l) (match r with Some r => bind_expression r | None => mret [] end)
  end.

(** The loops over the expressions of a clause. *)
Fixpoint bind_expressions (es : list Parsed) : Res (list Named) :=
  match es with [] => mret [] | e :: es' => b ← bind_expression e; bs ← bind_expressions es'; mret (b ++ bs) end.

(** ** ORDER BY *)

(** [alias_map]: the last expression with a name. *)
Fixpoint find_alias (bound : list Named) (name : string) : option Expression :=
  match bound with
  | [] => None
  | (n, e) :: bound' =>
      match find_alias bound' name with
      | Some e' => Some e'
      | None => if bool_decide (n = name /\ n <> ""%string) then Some e else None
      end
  end.

Fixpoint bind_order_by (bound : list Named) (items : list (Parsed * bool)) : Res (list Expression * list bool) :=
  match items with
  | [] => mret ([], [])
  | (e, is_asc) :: items' =>
      let alias := match e with
        | PField _ table_name field_name => if blank_name table_name then find_alias bound field_name else None
        | _ => None end in
      es ← (match alias with Some e' => mret [copy e'] | None => b ← bind_expression e; mret b.*2 end : Res (list Expression));
      '(es', asc) ← bind_order_by bound items';
      mret (es ++ es', replicate (length es) is_asc ++ asc)
  end.
End binder.

(** ** Statements *)

Section statements.
Context (sys_field_num : Table -> nat).
(** [Db::find_table] *)
Context (find_table : string -> option Table).

(** A [table_map]: the first entry of a name counts. *)
Definition TableMap : Type := list (string * Table).
Definition map_find (m : TableMap) (name : string) : option Table :=
  snd <$> head (List.filter (fun p => bool_decide (p.1 = name)) m).

(** [get_table_and_field]; [tables] may be null. *)
Definition get_table_and_field (default_table : option Table) (tables : option TableMap) (relation attribute : string) :
    Res (Table * FieldMeta) :=
  let table :=
    if blank_name relation then default_table
    else match tables with Some m => map_find m relation | None => find_table relation end in
  match table with
  | None => fails SCHEMA_TABLE_NOT_EXIST
  | Some t => match table_field t attribute with None => fails SCHEMA_FIELD_NOT_EXIST | Some f => mret (t, f) end
  end.

Definition create_filter_obj (default_table : option Table) (tables : option TableMap) (side : CondSide) : Res FilterObj :=
  match side with
  | CondAttr relation attribute =>
      '(t, f) ← get_table_and_field default_table tables relation attribute;
      mret (FilterAttr t.(table_name) f.(field_name) f.(field_type))
  | CondValue v => mret (FilterValue v)
  end.

Definition create_filter_unit (default_table : option Table) (tables : option TableMap) (c : ConditionSqlNode) : Res FilterUnit :=
  if bool_decide (c.(cond_comp) = NO_OP) then fails INVALID_ARGUMENT else
  l ← create_filter_obj default_table tables c.(cond_left);
  r ← create_filter_obj default_table tables c.(cond_right);
  mret (mkUnit c.(cond_comp) l r).

Fixpoint create_filter (default_table : option Table) (tables : option TableMap) (conditions : list ConditionSqlNode) : Res FilterStmt :=
  match conditions with
  | [] => mret []
  | c :: cs => u ← create_filter_unit default_table tables c; us ← create_filter default_table tables cs; mret (u :: us)
  end.

(** The tables of FROM. *)
Fixpoint collect_tables (relations : list string) : Res (list Table) :=
  match relations with
  | [] => mret []
  | n :: ns => match find_table n with None => fails SCHEMA_TABLE_NOT_EXIST | Some t => ts ← collect_tables ns; mret (t :: ts) end
  end.

Definition create_select (node : SelectSqlNode) : Res SelectStmt :=
  tables ← collect_tables node.(node_relations);
  let bind := bind_expressions sys_field_num tables in
  bound ← bind node.(node_expressions);
  group_by ← bind node.(node_group_by);
  let default_table := match tables with [t] => Some t | _ => None end in
  filter ← create_filter default_table (Some (zip node.(node_relations) tables)) node.(node_conditions);
  '(order_by, asc) ← bind_order_by sys_field_num tables bound node.(node_order_by);
  mret (mkSelect tables bound filter group_by order_by asc node.(node_limit_num)).

Definition create_insert (relation : string) (values : list Value) : Res Stmt :=
  if bool_decide (values = []) then fails INVALID_ARGUMENT else
  match find_table relation with
  | None => fails SCHEMA_TABLE_NOT_EXIST
  | Some t =>
      if negb (length t.(field_metas) - sys_field_num t =? length values)%nat then fails SCHEMA_FIELD_MISSING
      else mret (InsertStmt t values)
  end.

Definition create_delete (relation : string) (conditions : list ConditionSqlNode) : Res Stmt :=
  match find_table relation with
  | None => fails SCHEMA_TABLE_NOT_EXIST
  | Some t => filter ← create_filter (Some t) (Some [(relation, t)]) conditions; mret (DeleteStmt t filter)
  end.

(** [Stmt::create_stmt] for the statements that are planned. *)
Fixpoint create_stmt (node : ParsedSqlNode) : Res Stmt :=
  match node with
  | SCF_SELECT s => stmt ← create_select s; mret (Select stmt)
  | SCF_INSERT relation values => create_insert relation values
  | SCF_DELETE relation conditions => create_delete relation conditions
  | SCF_EXPLAIN child => stmt ← create_stmt child; mret (ExplainStmt stmt)
  end.
End statements.

(** ** What the tables promise *)

(** [Db] finds a table under its own name; names of tables and columns are checked when a
    table is created. *)
Record catalog_ok (find_table : string -> option Table) : Prop := {
  catalog_name n t : find_table n = Some t -> t.(table_name) = n;
  catalog_nonempty : find_table "" = None;
  catalog_fields n t : find_table n = Some t -> NoDup (field_name <$> t.(field_metas))
}.

Lemma head_filter {A} (p : A -> bool) l x : head (List.filter p l) = Some x -> x ∈ l /\ p x = true.
Proof.
  intros Hh. assert (Hin : In x (List.filter p l)) by (destruct (List.filter p l); [done|injection Hh as ->; by left]).
  apply filter_In in Hin as [? ?]. by rewrite list_elem_of_In.
Qed.

Lemma table_field_name t n f : table_field t n = Some f -> f ∈ t.(field_metas) /\ f.(field_name) = n.
Proof. by intros [? ?%bool_decide_eq_true]%head_filter. Qed.

Lemma schema_type_table t n : schema_type (table_schema t) (field_spec t.(table_name) n) = field_type <$> table_field t n.
Proof.
  unfold table_schema, table_field. induction (field_metas t) as [|f fs IH]; cbn; [done|].
  destruct (decide (n = f.(field_name))) as [Hn|Hn].
  - by rewrite !bool_decide_true.
  - rewrite !bool_decide_false; [done|congruence|]. by intros [_ ?].
Qed.

Lemma table_field_nodup t f : NoDup (field_name <$> t.(field_metas)) -> f ∈ t.(field_metas) -> table_field t f.(field_name) = Some f.
Proof.
  unfold table_field. induction (field_metas t) as [|g fs IH]; cbn; [by intros _ ?%not_elem_of_nil|].
  intros [Hg Hnd]%NoDup_cons [->|Hin]%elem_of_cons; [by rewrite bool_decide_true|].
  rewrite bool_decide_false; [by apply IH|]. intros E. apply Hg. rewrite E. by apply list_elem_of_fmap_2.
Qed.

(** ** Binding is sound *)

Section bound.
Context `{CLib} (sys_field_num : Table -> nat) (find_table : string -> option Table) (Hcat : catalog_ok find_table).

Lemma collect_tables_found ns ts : collect_tables find_table ns = mret ts -> Forall2 (fun n t => find_table n = Some t) ns ts.
Proof using Type.
  revert ts. induction ns as [|n ns IH]; cbn; [by intros ts [= <-]|]. intros ts.
  destruct (find_table n) as [t|] eqn:Hn; [|done]. intros (ts' & Hts & [= <-])%Res_bind_inr. auto.
Qed.

(** Tables that the catalog knows under their names. *)
Definition known (ts : list Table) : Prop := Forall (fun t => find_table t.(table_name) = Some t) ts.

Lemma collect_tables_known ns ts : collect_tables find_table ns = mret ts -> known ts.
Proof using Hcat.
  intros Hts%collect_tables_found. induction Hts as [|n t ns ts Ht _ IH]; constructor; [|done].
  by rewrite (catalog_name _ Hcat n t Ht).
Qed.

Lemma schema_type_known ts t n : known ts -> t ∈ ts ->
  schema_type (tables_schema ts) (field_spec t.(table_name) n) = field_type <$> table_field t n.
Proof using Type.
  intros Hts Hin. pose proof (proj1 (Forall_forall _ _) Hts t Hin) as Ht. cbn in Ht.
  assert (Hone : forall t', find_table t'.(table_name) = Some t' -> t' = t \/ schema_type (table_schema t') (field_spec t.(table_name) n) = None).
  { intros t' Ht'. destruct (decide (t.(table_name) = t'.(table_name))) as [E|Hne]; [left; congruence|]. right. by apply schema_type_other. }
  rewrite <- schema_type_table. set (spec := field_spec _ n) in *.
  assert (Hall : forall us, known us -> schema_type (tables_schema us) spec = schema_type (table_schema t) spec \/
    schema_type (tables_schema us) spec = None).
  { induction 1 as [|u us Hu _ IH]; [by right|]. unfold tables_schema in *. cbn [map concat]. rewrite schema_type_app.
    destruct (Hone u Hu) as [->| ->]; [|done]. destruct (schema_type (table_schema t) spec); [by left|done]. }
  induction Hts as [|u ts Hu Hts IH]; [by apply not_elem_of_nil in Hin|]. specialize (Hall ts Hts).
  unfold tables_schema in *. cbn [map concat]. rewrite schema_type_app. apply elem_of_cons in Hin as [<-|Hin].
  - destruct (schema_type (table_schema t) spec); [done|]. by destruct Hall.
  - rewrite (IH Hin). destruct (Hone u Hu) as [->| ->]; [|done]. by destruct (schema_type (table_schema t) spec).
Qed.

(** Expressions over the tables of FROM without aggregates and comparisons; the grammar has
    comparisons only in WHERE. *)
Fixpoint plain (e : Parsed) : bool :=
  match e with
  | PStar _ | PField _ _ _ | PValue _ _ => true
  | PAggregate _ _ _ | PComparison _ _ _ _ | PConjunction _ _ _ => false
  | PFunction _ f cs => bool_decide (aggregate_type_of f = None) && forallb plain cs
  | PCast _ c _ => plain c
  | PArithmetic _ _ l r => plain l && match r with Some r => plain r | None => true end
  end.

(** A bound expression: its fields are fields of the tables, no operand is missing, and it
    holds neither aggregates nor comparisons. *)
Definition column_expr (ts : list Table) (e : Expression) : bool :=
  well_typed (schema_type (tables_schema ts)) e && inert e && negb (has_aggregate e).

Lemma column_expr_spec ts e : column_expr ts e = true <->
  well_typed (schema_type (tables_schema ts)) e = true /\ inert e = true /\ has_aggregate e = false.
Proof using Type. unfold column_expr. rewrite !andb_true_iff, negb_true_iff. tauto. Qed.

Lemma column_field ts t f : known ts -> t ∈ ts -> table_field t f.(field_name) = Some f -> column_expr ts (field_expr t f) = true.
Proof using Type.
  intros Hts Hin Hf. apply column_expr_spec. split; [|done]. apply bool_decide_eq_true.
  rewrite schema_type_known by done. by rewrite Hf.
Qed.

Lemma wildcard_columns ts t : known ts -> t ∈ ts -> Forall (fun e => column_expr ts e = true) (wildcard_fields sys_field_num t).*2.
Proof using Hcat.
  intros Hts Hin. pose proof (proj1 (Forall_forall _ _) Hts t Hin) as Ht. unfold wildcard_fields.
  rewrite <- list_fmap_compose. apply Forall_fmap, Forall_forall. intros f Hf. cbn. apply column_field; [done..|].
  apply table_field_nodup; [exact (catalog_fields _ Hcat _ _ Ht)|].
  rewrite <- (take_drop (sys_field_num t) t.(field_metas)). apply elem_of_app. by right.
Qed.

Lemma context_table_in ts n t : context_find_table ts n = Some t -> t ∈ ts.
Proof using Type. by intros [? _]%head_filter. Qed.

Lemma star_columns ts n bs : known ts -> bind_star_expression sys_field_num ts n = mret bs -> Forall (fun e => column_expr ts e = true) bs.*2.
Proof using Hcat.
  intros Hts. unfold bind_star_expression. destruct (_ && _).
  - destruct (context_find_table ts n) as [t|] eqn:Ht; [|done]. intros [= <-]. eapply wildcard_columns; [done|by eapply context_table_in].
  - intros [= <-]. assert (Hsub : forall us, us ⊆ ts -> Forall (fun e => column_expr ts e = true) (concat (map (wildcard_fields sys_field_num) us)).*2); [|by apply Hsub].
    induction us as [|u us IH]; intros Hus; cbn; [constructor|]. rewrite fmap_app. apply Forall_app. split; [apply wildcard_columns|apply IH]; set_solver.
Qed.

Lemma field_columns ts n t f bs : known ts -> bind_unbound_field_expression sys_field_num ts n t f = mret bs ->
  Forall (fun e => column_expr ts e = true) bs.*2.
Proof using Hcat.
  intros Hts (tb & Htb & Hend)%Res_bind_inr.
  assert (Hin : tb ∈ ts).
  { destruct (blank_name t); [destruct ts as [|? []]; try done; injection Htb as ->; by left|].
    destruct (context_find_table ts t) eqn:E; [|done]. injection Htb as ->. by eapply context_table_in. }
  case_bool_decide; [injection Hend as <-; by apply wildcard_columns|].
  destruct (table_field tb f) as [fm|] eqn:Hf; [|done]. injection Hend as <-. constructor; [|constructor].
  apply column_field; [done..|]. by destruct (table_field_name _ _ _ Hf) as [_ ->].
Qed.

Lemma only_inr r e : only r = mret e -> exists n, r = mret [(n, e)].
Proof using Type. intros ([|[n e'] [|]] & -> & Hend)%Res_bind_inr; try done. injection Hend as ->. by exists n. Qed.

(** A child of an expression that binds to one expression. *)
Lemma only_column ts p r e : (forall bs, plain p = true -> r = mret bs -> Forall (fun e => column_expr ts e = true) bs.*2) ->
  plain p = true -> only r = mret e -> column_expr ts e = true.
Proof using Type. intros Hp Hpl [n Hr]%only_inr. specialize (Hp _ Hpl Hr). by inversion Hp. Qed.

Lemma forallb_Forall {A} (p : A -> bool) l : forallb p l = true <-> Forall (fun x => p x = true) l.
Proof using Type. induction l as [|x l IH]; cbn; [done|]. by rewrite andb_true_iff, Forall_cons, IH. Qed.

Lemma function_column ts ty cs : Forall (fun e => column_expr ts e = true) cs -> column_expr ts (FunctionExpr ty cs) = true.
Proof using Type.
  intros Hcs. apply column_expr_spec. induction Hcs as [|c cs Hc _ IH]; [done|]. apply column_expr_spec in Hc as (Hw & Hi & Ha).
  destruct IH as (IHw & IHi & IHa). cbn in *. by rewrite Hw, Hi, Ha.
Qed.

Lemma bind_columns ts p bs : known ts -> plain p = true -> bind_expression sys_field_num ts p = mret bs ->
  Forall (fun e => column_expr ts e = true) bs.*2.
Proof using Hcat.
  intros Hts. revert bs. induction p as [t|n t f|n a c IH|n f cs IH|n v|n c ty IH|n op l r IHl IHr|n ty cs IH|n op l r IHl IHr|n op l IH]
    using parsed_ind; intros bs Hp; cbn -[only]; try done.
  - by apply star_columns.
  - by apply field_columns.
  - cbn in Hp. apply andb_true_iff in Hp as [Hagg%bool_decide_eq_true Hcs]. unfold bind_unbound_function_expression. rewrite Hagg.
    destruct (function_type_of f) as [ty|]; [|done]. intros (es & Hes & [= <-])%Res_bind_inr.
    constructor; [|constructor]. cbn. apply function_column. revert es Hes. induction IH as [|c cs Hc _ IHcs]; [by intros es [= <-]|].
    apply andb_true_iff in Hcs as [Hpc Hpcs]. intros es (e & He & (es' & Hes & [= <-])%Res_bind_inr)%Res_bind_inr.
    constructor; [by eapply only_column|by apply IHcs].
  - intros [= <-]. by repeat constructor.
  - intros (e & He & [= <-])%Res_bind_inr. constructor; [|constructor]. cbn. cbn in Hp.
    eapply only_column in He as (Hw & Hi & Ha)%column_expr_spec; [|done..]. apply column_expr_spec. done.
  - cbn in Hp. apply andb_true_iff in Hp as [Hpl Hpr]. intros (el & Hl & (er & Hr & [= <-])%Res_bind_inr)%Res_bind_inr.
    constructor; [|constructor]. eapply only_column in Hl as (Hwl & _ & Hal)%column_expr_spec; [|done..].
    eapply only_column in Hr as (Hwr & _ & Har)%column_expr_spec; [|done..]. apply column_expr_spec. cbn. by rewrite Hwl, Hwr, Hal, Har.
  - by intros (el & Hl & (er & Hr & _)%Res_bind_inr)%Res_bind_inr.
Qed.

Lemma bind_all_columns ts ps bs : known ts -> forallb plain ps = true -> bind_expressions sys_field_num ts ps = mret bs ->
  Forall (fun e => column_expr ts e = true) bs.*2.
Proof using Hcat.
  intros Hts. revert bs. induction ps as [|p ps IH]; cbn; [by intros bs _ [= <-]; constructor|].
  intros bs [Hp Hps]%andb_true_iff (b & Hb & (bs' & Hbs & [= <-])%Res_bind_inr)%Res_bind_inr.
  rewrite fmap_app. apply Forall_app. split; [by eapply bind_columns|by apply IH].
Qed.

Lemma column_value ts e row : column_expr ts e = true -> row_shaped row -> schema_of row = tables_schema ts ->
  has_type (get_value (find_cell row) e) (value_type e).
Proof using Type.
  intros [Hw _]%column_expr_spec Hrow Hs. rewrite <- Hs in Hw. eapply get_value_typed; [|exact Hw].
  intros spec ty Hty. pose proof (find_cell_schema row spec Hrow) as Hf. rewrite Hty in Hf. by destruct Hf as (v & -> & <-).
Qed.
End bound.

(** ** Filters *)

Section filters.
Context `{CLib} (find_table : string -> option Table).

(** A condition with a column on one side at least. *)
Definition on_column (c : ConditionSqlNode) : bool :=
  match c.(cond_left), c.(cond_right) with CondValue _, CondValue _ => false | _, _ => true end.

Definition names_column (u : FilterUnit) : bool :=
  match u.(unit_left), u.(unit_right) with FilterValue _, FilterValue _ => false | _, _ => true end.

Lemma map_find_in m n t : map_find m n = Some t -> (n, t) ∈ m.
Proof using Type.
  unfold map_find. destruct (head _) as [[n' t']|] eqn:Hh; [|done]. intros [= <-].
  apply head_filter in Hh as [Hin Hn%bool_decide_eq_true]. cbn in Hn. by subst n'.
Qed.

(** The columns of a filter are fields of the tables that it may name. *)
Lemma filter_obj_in_schema ts dt m side o : known find_table ts -> (forall t, dt = Some t -> t ∈ ts) -> (forall n t, (n, t) ∈ m -> t ∈ ts) ->
  create_filter_obj find_table dt (Some m) side = mret o ->
  match o with
  | FilterAttr t f ty => schema_type (tables_schema ts) (field_spec t f) = Some ty
  | FilterValue _ => True end.
Proof using Type.
  intros Hts Hdt Hm. destruct side as [rel attr|v]; cbn; [|by intros [= <-]].
  intros ([t f] & Htf & [= <-])%Res_bind_inr. unfold get_table_and_field in Htf.
  assert (Hin : exists tb, (if blank_name rel then dt else map_find m rel) = Some tb /\ tb ∈ ts).
  { destruct (blank_name rel); [destruct dt; [|done]|destruct (map_find m rel) eqn:E; [apply map_find_in in E|done]]; eauto. }
  destruct Hin as (tb & Htb & Hin). rewrite Htb in Htf. destruct (table_field tb attr) as [fm|] eqn:Hf; [|done].
  injection Htf as <- <-. rewrite (schema_type_known find_table) by done. destruct (table_field_name _ _ _ Hf) as [_ ->]. by rewrite Hf.
Qed.

Lemma filter_unit_in_schema ts dt m c u : known find_table ts -> (forall t, dt = Some t -> t ∈ ts) -> (forall n t, (n, t) ∈ m -> t ∈ ts) ->
  create_filter_unit find_table dt (Some m) c = mret u -> unit_in_schema (tables_schema ts) u.
Proof using Type.
  intros Hts Hdt Hm. unfold create_filter_unit. case_bool_decide as Hop; [done|].
  intros (l & Hl & (r & Hr & [= <-])%Res_bind_inr)%Res_bind_inr. split; [done|]. split; by eapply filter_obj_in_schema.
Qed.

Lemma filter_in_schema ts dt m cs us : known find_table ts -> (forall t, dt = Some t -> t ∈ ts) -> (forall n t, (n, t) ∈ m -> t ∈ ts) ->
  create_filter find_table dt (Some m) cs = mret us -> Forall (unit_in_schema (tables_schema ts)) us.
Proof using Type.
  intros Hts Hdt Hm. revert us. induction cs as [|c cs IH]; cbn; [by intros us [= <-]|].
  intros us (u & Hu & (us' & Hus & [= <-])%Res_bind_inr)%Res_bind_inr. constructor; [by eapply filter_unit_in_schema|by apply IH].
Qed.

Lemma filter_obj_kind dt m side o : create_filter_obj find_table dt m side = mret o ->
  match side, o with CondAttr _ _, FilterAttr _ _ _ | CondValue _, FilterValue _ => True | _, _ => False end.
Proof using Type. destruct side; [by intros ([t f] & _ & [= <-])%Res_bind_inr|by intros [= <-]]. Qed.

Lemma filter_names_columns dt m cs us : create_filter find_table dt m cs = mret us -> forallb on_column cs = true ->
  Forall (fun u => names_column u = true) us.
Proof using Type.
  revert us. induction cs as [|c cs IH]; cbn; [by intros us [= <-]|].
  intros us (u & Hu & (us' & Hus & [= <-])%Res_bind_inr)%Res_bind_inr [Hc Hcs]%andb_true_iff. constructor; [|by apply IH].
  unfold create_filter_unit in Hu. case_bool_decide; [done|].
  apply Res_bind_inr in Hu as (l & Hl%filter_obj_kind & (r & Hr%filter_obj_kind & [= <-])%Res_bind_inr).
  unfold on_column in Hc. unfold names_column. cbn. by destruct (cond_left c), (cond_right c), l, r.
Qed.

(** A comparison with a column is not constant. *)
Lemma cast_side_column t f ty0 ty e : cast_side (FieldExpr t f ty0) ty = mret e -> e = CastExpr (FieldExpr t f ty0) ty.
Proof using Type. by intros [= <-]. Qed.

Lemma column_comparison u e : names_column u = true -> create_comparison u = mret e -> const_cmp e = None.
Proof using Type.
  unfold names_column, create_comparison. intros Hu ([l r] & Hlr & Hend)%Res_bind_inr.
  destruct (_ && _) in Hend; [done|]. injection Hend as <-.
  assert (Hv : is_value l && is_value r = false).
  { revert Hlr. case_decide.
    - intros [= <- <-]. by destruct (unit_left u), (unit_right u).
    - destruct (_ && _); [|destruct (_ && _); [|done]]; intros (x & Hx & [= <- <-])%Res_bind_inr;
        destruct (unit_left u), (unit_right u); cbn in Hx |- *; try done; try (by apply andb_false_r);
        apply cast_side_column in Hx as ->; try done; by apply andb_false_r. }
  destruct l; try done. by destruct r.
Qed.

Lemma column_comparisons us es : Forall (fun u => names_column u = true) us -> create_comparisons us = mret es ->
  Forall (fun e => const_cmp e = None) es.
Proof using Type.
  intros Hus. revert es. induction Hus as [|u us Hu _ IH]; cbn; [by intros es [= <-]|].
  intros es (e & He & (es' & Hes & [= <-])%Res_bind_inr)%Res_bind_inr. constructor; [by eapply column_comparison|by apply IH].
Qed.

Lemma not_constant_late es seen : Forall comparison es -> Forall (fun e => const_cmp e = None) es -> late_false seen es = false.
Proof using Type.
  intros Hcmp. revert seen. induction Hcmp as [|e es He _ IH]; intros seen Hes; [done|]. apply Forall_cons in Hes as [Hc Hes].
  cbn. unfold simp. rewrite Hc. destruct He. by apply IH.
Qed.

(** Neither the resolver nor the planner stops on a condition. *)
Lemma create_filter_goes_on dt m cs : goes_on (create_filter find_table dt m cs).
Proof using Type.
  assert (Hobj : forall side, goes_on (create_filter_obj find_table dt m side)).
  { intros [rel attr|v]; [|by eexists]. cbn. unfold get_table_and_field. destruct (if blank_name rel then _ else _) as [t|]; [|by eexists].
    destruct (table_field t attr); by eexists. }
  induction cs as [|c cs [r Hr]]; cbn; [by eexists|]. unfold create_filter_unit. case_bool_decide; [by eexists|].
  destruct (Hobj (cond_left c)) as [[rc|l] ->]; [by eexists|]. destruct (Hobj (cond_right c)) as [[rc|x] ->]; [by eexists|]. cbn.
  rewrite Hr. destruct r; by eexists.
Qed.

Lemma cast_side_goes_on side ty : goes_on (cast_side side ty).
Proof using Type.
  unfold cast_side. destruct side; try by eexists. cbn. unfold cast. case_decide; [by eexists|]. by destruct (cast_to value ty); eexists.
Qed.

Lemma create_comparisons_goes_on us : goes_on (create_comparisons us).
Proof using Type.
  induction us as [|u us [r Hr]]; cbn; [by eexists|].
  assert (goes_on (create_comparison u)) as [[rc|c] ->].
  { unfold create_comparison. match goal with |- goes_on (?m ≫= _) => assert (goes_on m) as [[rc|[l x]] ->] end; [|by eexists|].
    - case_decide; [by eexists|]. set (a := filter_expr _). set (b := filter_expr (unit_right u)).
      destruct (_ && _); [destruct (cast_side_goes_on a (value_type b)) as [[] ->]; by eexists|].
      destruct (_ && _); [destruct (cast_side_goes_on b (value_type a)) as [[] ->]; by eexists|by eexists].
    - cbn. destruct (_ && _); by eexists. }
  - by eexists.
  - cbn. rewrite Hr. destruct r; by eexists.
Qed.
End filters.

(** ** The resolver ends in a statement or in a code *)

Lemma goes_on_bind {A B} (m : Res A) (f : A -> Res B) : goes_on m -> (forall x, goes_on (f x)) -> goes_on (m ≫= f).
Proof. intros [[rc|x] ->] Hf; [by eexists|apply Hf]. Qed.

Section goes_on.
Context (sys_field_num : Table -> nat) (find_table : string -> option Table) (ts : list Table).

Lemma only_goes_on r : goes_on r -> goes_on (only r).
Proof. intros Hr. apply goes_on_bind; [done|]. by intros [|[? ?] []]; eexists. Qed.

Lemma bind_aggregate_goes_on n a star r : goes_on r -> goes_on (bind_aggregate n a star r).
Proof.
  intros Hr. unfold bind_aggregate. destruct (aggregate_type_of a) as [ty|]; [|by eexists].
  apply goes_on_bind; [destruct (_ && _); [by eexists|by apply only_goes_on]|]. intros c.
  apply goes_on_bind; [|by eexists]. unfold check_aggregate_expression. destruct (_ && _), (has_aggregate c); by eexists.
Qed.

Lemma bind_goes_on p : goes_on (bind_expression sys_field_num ts p).
Proof.
  assert (Hgo : forall cs, Forall (fun c => goes_on (bind_expression sys_field_num ts c)) cs ->
    goes_on (bind_children (map (bind_expression sys_field_num ts) cs))).
  { induction 1 as [|c cs Hc _ IH]; [by eexists|]. apply goes_on_bind; [by apply only_goes_on|]. intros c'.
    apply goes_on_bind; [done|]. by eexists. }
  induction p as [t|n t f|n a c IH|n f cs IH|n v|n c ty IH|n op l r IHl IHr|n ty cs IH|n op l r IHl IHr|n op l IH] using parsed_ind; cbn -[only].
  - unfold bind_star_expression. destruct (_ && _); [|by eexists]. destruct (context_find_table ts t); by eexists.
  - apply goes_on_bind; [destruct (blank_name t); [destruct ts as [|? []]|destruct (context_find_table ts t)]; by eexists|].
    intros tb. case_bool_decide; [by eexists|]. destruct (table_field tb f); by eexists.
  - by apply bind_aggregate_goes_on.
  - unfold bind_unbound_function_expression. destruct (aggregate_type_of f).
    + destruct cs as [|c [|c' cs]]; [apply bind_aggregate_goes_on; by eexists| |by eexists].
      apply bind_aggregate_goes_on. by inversion IH.
    + destruct (function_type_of f); [|by eexists]. apply goes_on_bind; [by apply Hgo|by eexists].
  - by eexists.
  - apply goes_on_bind; [by apply only_goes_on|by eexists].
  - apply goes_on_bind; [by apply only_goes_on|]. intros l'. apply goes_on_bind; [by apply only_goes_on|by eexists].
  - apply goes_on_bind; [by apply Hgo|by eexists].
  - apply goes_on_bind; [by apply only_goes_on|]. intros l'. apply goes_on_bind; [by apply only_goes_on|by eexists].
  - apply goes_on_bind; [by apply only_goes_on|]. by eexists.
Qed.

Lemma bind_all_goes_on ps : goes_on (bind_expressions sys_field_num ts ps).
Proof.
  induction ps as [|p ps IH]; [by eexists|]. apply goes_on_bind; [apply bind_goes_on|]. intros b.
  apply goes_on_bind; [done|by eexists].
Qed.

Lemma bind_order_goes_on bound items : goes_on (bind_order_by sys_field_num ts bound items).
Proof.
  induction items as [|[e asc] items IH]; [by eexists|]. cbn -[bind_expression]. apply goes_on_bind.
  - destruct (match e with PField _ _ _ => _ | _ => None end); [by eexists|]. apply goes_on_bind; [apply bind_goes_on|by eexists].
  - intros es. apply goes_on_bind; [done|]. intros [es' a]. by eexists.
Qed.

Lemma collect_goes_on ns : goes_on (collect_tables find_table ns).
Proof.
  induction ns as [|n ns IH]; [by eexists|]. cbn. destruct (find_table n); [|by eexists]. apply goes_on_bind; [done|by eexists].
Qed.
End goes_on.

Lemma create_stmt_goes_on sys_field_num find_table node : goes_on (create_stmt sys_field_num find_table node).
Proof.
  induction node as [s|rel vs|rel cs|child IH]; cbn -[create_select].
  - apply goes_on_bind; [|by eexists]. unfold create_select. apply goes_on_bind; [apply collect_goes_on|]. intros ts.
    apply goes_on_bind; [apply bind_all_goes_on|]. intros bound. apply goes_on_bind; [apply bind_all_goes_on|]. intros gs.
    apply goes_on_bind; [apply create_filter_goes_on|]. intros fs. apply goes_on_bind; [apply bind_order_goes_on|]. intros [os asc]. by eexists.
  - unfold create_insert. case_bool_decide; [by eexists|]. destruct (find_table rel); [|by eexists]. destruct (negb _); by eexists.
  - unfold create_delete. destruct (find_table rel); [|by eexists]. apply goes_on_bind; [apply create_filter_goes_on|by eexists].
  - apply goes_on_bind; [done|by eexists].
Qed.
