(* ===== verification/SqlSpec.v ===== *)
(** * SqlSpec: what a SELECT asks for

    A reference semantics of the SELECT statements of [parse_defs.h] without aggregates,
    GROUP BY and ORDER BY, on parse trees and records: names are looked up in a row of the
    product of FROM, values are computed from values.  It knows no bound expressions, static
    types, plans or operators.

    The theorem: the server, from the resolver to the rows that the client fetches, answers a
    statement with a code or with what the reference says. *)

From stdpp Require Import strings.
From S2P Require Import Prelude Bytes Compare RecordPage RecordFile MvccTrx Float32 Value Expr Tuple Exec ExecLaws Logical Rewrite RewriteSound Plan PlanSound Binder.
#[local] Open Scope Z_scope.

(** ** Rows and names *)

(** A row of the product: a record of each table of FROM. *)
Definition FromRow : Type := list (Table * (RID * list Z)).

Section spec.
Context `{CLib} (table_rows : Table -> ReadWriteMode -> list (RID * list Z) * RC).
Context (sys_field_num : Table -> nat) (find_table : string -> option Table).

(** The rows of the product, the leftmost table varying slowest. *)
Fixpoint from_product (ts : list Table) : list FromRow :=
  match ts with
  | [] => [[]]
  | t :: ts' => r ← (table_rows t READ_ONLY).1; (fun row => (t, r) :: row) <$> from_product ts'
  end.

(** The part of a row that belongs to a table, whatever the case of the name; a column without
    a table belongs to the first. *)
Definition part_of (row : FromRow) (table : string) : option (Table * (RID * list Z)) :=
  if blank_name table then head row else head (List.filter (fun p => same_name table p.1.(table_name)) row).

Definition part_cells (p : Table * (RID * list Z)) : list Value :=
  (fun f => row_cell f p.2.2) <$> drop (sys_field_num p.1) p.1.(field_metas).

Definition column (row : FromRow) (table field : string) : option Value :=
  '(t, r) ← part_of row table; f ← table_field t field; Some (row_cell f r.2).

(** ** Expressions *)

(** The value of an operation; what is an error is no value. *)
Definition value_of {A} (r : Res A) : option A := match r with Some (inr v) => Some v | _ => None end.

Definition arithmetic (op : ArithType) (l r : Value) : option Value :=
  let ty := if decide (attr_type l = INTS /\ attr_type r = INTS /\ op <> DIV) then INTS else FLOATS in
  value_of (calc_value ty op l r).

Definition one (cells : list (option Value)) : option Value := match cells with [v] => v | _ => None end.

(** The columns that an expression of the SELECT list stands for, and their values. *)
Fixpoint columns (row : FromRow) (e : Parsed) : list (option Value) :=
  match e with
  | PStar table =>
      if negb (blank_name table) && negb (bool_decide (table = "*"%string)) then
        match part_of row table with Some p => Some <$> part_cells p | None => [] end
      else Some <$> concat (map part_cells row)
  | PField _ table field =>
      if bool_decide (field = "*"%string) then
        match part_of row table with Some p => Some <$> part_cells p | None => [] end
      else [column row table field]
  | PValue _ v => [Some v]
  | PCast _ c ty => [v ← one (columns row c); value_of (cast v ty)]
  | PFunction _ f cs =>
      [ty ← function_type_of f; vs ← mapM id (map (fun c => one (columns row c)) cs); value_of (Some (try_function ty vs))]
  | PArithmetic _ op l (Some r) => [a ← one (columns row l); b ← one (columns row r); arithmetic op a b]
  | PArithmetic _ _ _ None | PAggregate _ _ _ | PComparison _ _ _ _ | PConjunction _ _ _ => [None]
  end.

(** ** Statements *)

Definition side_value (row : FromRow) (s : CondSide) : option Value :=
  match s with CondAttr table field => column row table field | CondValue v => Some v end.

(** Whether a row satisfies a condition of WHERE. *)
Definition satisfies (row : FromRow) (c : ConditionSqlNode) : bool :=
  default false (a ← side_value row c.(cond_left); b ← side_value row c.(cond_right); value_of (compare_value c.(cond_comp) a b)).

Definition select_rows (node : SelectSqlNode) (ts : list Table) : list FromRow :=
  let rows := List.filter (fun row => forallb (satisfies row) node.(node_conditions)) (from_product ts) in
  if 0 <=? node.(node_limit_num) then take (Z.to_nat node.(node_limit_num)) rows else rows.

(** The answer to a SELECT: rows of values. *)
Definition select_answer (node : SelectSqlNode) : list (list (option Value)) :=
  match mapM find_table node.(node_relations) with
  | None => []
  | Some ts => (fun row => concat (map (columns row) node.(node_expressions))) <$> select_rows node ts
  end.

(** A statement of the fragment: tables that differ in more than the case of their names, no
    aggregates, and a column in every condition. *)
Record plain_select (node : SelectSqlNode) : Prop := {
  plain_from : node.(node_relations) <> [];
  plain_names : NoDup (lower_name <$> node.(node_relations));
  plain_list : forallb plain node.(node_expressions) = true;
  plain_where : forallb on_column node.(node_conditions) = true;
  plain_group_by : node.(node_group_by) = [];
  plain_order_by : node.(node_order_by) = []
}.

(** ** Tuples answer rows *)

(** A computation gives a value, or a code where there is none. *)
Definition gives (m : Res Value) (v : option Value) : Prop :=
  match v with Some v => m = mret v | None => exists rc, m = fails rc end.

(** The cells of a tuple. *)
Definition answers (t : Tuple) (vs : list (option Value)) : Prop :=
  cell_num t = zlen vs /\ forall (i : nat) v, vs !! i = Some v -> gives (cell_at t (Z.of_nat i)) v.
End spec.

Section gives.
Context `{CLib}.

Lemma gives_value m : goes_on m -> gives m (value_of m).
Proof. intros [[rc|v] ->]; cbn; [by exists rc|done]. Qed.

Lemma gives_bind m o (f : Value -> Res Value) (g : Value -> option Value) :
  gives m o -> (forall v, m = mret v -> gives (f v) (g v)) -> gives (m ≫= f) (o ≫= g).
Proof. destruct o as [v|]; cbn; [intros -> Hf; by apply Hf|intros [rc ->] _; by exists rc]. Qed.

(** The arguments of a function are looked at one by one; they matter all in the end. *)
Lemma function_values eval ty cs vs : Forall2 (fun c v => eval c = mret v) cs vs ->
  eval_function eval ty cs = Some (try_function ty vs).
Proof.
  intros Hcs. destruct ty; (destruct Hcs as [|c1 v1 cs vs H1 [|c2 v2 cs' vs' H2 [|c3 v3 cs'' vs'' H3 [|]]]]; try done);
    cbn -[distance_values]; rewrite H1; [|done..]. destruct v1; cbn -[distance_values]; try done. rewrite H2.
  destruct v2; cbn -[distance_values]; try done. rewrite H3. cbn. by destruct (length v =? length v0)%nat eqn:E; cbn; rewrite ?E.
Qed.

Lemma function_fails eval ty cs os : Forall2 (fun c o => gives (eval c) o) cs os -> mapM id os = None ->
  exists rc, eval_function eval ty cs = fails rc.
Proof.
  assert (Hone : forall c o, gives (eval c) o -> mapM id [o] = None -> forall f : Value -> Res Value, exists rc, (v ← eval c; f v) = fails rc).
  { intros c [v|]; cbn; [done|]. intros [rc ->] _ f. by exists rc. }
  intros Hcs Hos. destruct ty; (destruct Hcs as [|c1 o1 cs os H1 [|c2 o2 cs' os' H2 [|c3 o3 cs'' os'' H3 [|]]]]; try (by eexists)).
  2-3: by apply (Hone c1 o1).
  cbn -[distance_values]. destruct o1 as [v1|]; cbn in H1; [|destruct H1 as [rc ->]; by exists rc]. rewrite H1.
  destruct v1; cbn -[distance_values]; try by eexists. destruct o2 as [v2|]; cbn in H2; [|destruct H2 as [rc ->]; by exists rc]. rewrite H2.
  destruct v2; cbn -[distance_values]; try by eexists. cbn. destruct (negb (length _ =? _)%nat); [by eexists|].
  destruct o3 as [v3|]; cbn in H3; [done|]. destruct H3 as [rc ->]. by exists rc.
Qed.

Lemma gives_function eval ty cs os : Forall2 (fun c o => gives (eval c) o) cs os ->
  gives (eval_function eval ty cs) (vs ← mapM id os; value_of (Some (try_function ty vs))).
Proof.
  intros Hcs. destruct (mapM id os) as [vs|] eqn:Hos; [|by eapply function_fails]. cbn.
  rewrite (function_values eval ty cs vs); [destruct (try_function ty vs); [by eexists|done]|].
  apply mapM_Some_1 in Hos. revert vs Hos. induction Hcs as [|c o cs os Hc _ IH]; intros vs Hos; inversion Hos as [|? v ? vs' Ho Hvs]; subst; [by constructor|].
  cbn in Ho. constructor; [by subst o|by apply IH].
Qed.
End gives.

(** ** Rows of records and rows of operators *)

(** The tuple that the joins make of a row. *)
Definition join_part (acc : Tuple) (p : Table * (RID * list Z)) : Tuple := JoinedTuple acc (row_tuple p.1 p.2).
Definition tuple_of (row : FromRow) : Tuple :=
  match row with [] => ValueListTuple [] [] | p :: row' => fold_left join_part row' (row_tuple p.1 p.2) end.

Section product.
Context (table_rows : Table -> ReadWriteMode -> list (RID * list Z) * RC).

Lemma product_rows ts acc : fold_left (fun acc t => product acc (rows_of table_rows t)) ts acc =
  a ← acc; (fun row => fold_left join_part row a) <$> from_product table_rows ts.
Proof.
  revert acc. induction ts as [|t ts IH]; intros acc; cbn [fold_left from_product].
  - induction acc as [|a acc IHa]; [done|]. cbn. by f_equal.
  - rewrite IH. unfold product. induction acc as [|a acc IHa]; [done|]. cbn. rewrite bind_app. unfold mbind in *. rewrite IHa. f_equal. clear.
    unfold rows_of. induction (table_rows t READ_ONLY).1 as [|r rows IHr]; [done|]. cbn. rewrite IHr, fmap_app. f_equal.
    by rewrite <- list_fmap_compose.
Qed.

Lemma cross_product_rows ts : ts <> [] -> cross_product table_rows ts = tuple_of <$> from_product table_rows ts.
Proof.
  destruct ts as [|t ts]; [done|]. intros _. cbn. rewrite product_rows. unfold rows_of.
  induction (table_rows t READ_ONLY).1 as [|r rows IH]; [done|]. cbn. rewrite fmap_app, <- list_fmap_compose. by f_equal.
Qed.

Lemma from_product_tables ts row : row ∈ from_product table_rows ts -> row.*1 = ts.
Proof.
  revert row. induction ts as [|t ts IH]; intros row; cbn; [by intros ->%list_elem_of_singleton|].
  intros (r & (row' & -> & Hrow)%list_elem_of_fmap & _)%list_elem_of_bind. cbn. by rewrite (IH row').
Qed.
End product.

(** What a cell description finds in the parts of a row. *)
Fixpoint find_parts `{CLib} (row : FromRow) (spec : TupleCellSpec) : Res Value :=
  match row with
  | [] => fails NOTFOUND
  | p :: row' => match find_cell (row_tuple p.1 p.2) spec with Some (inl NOTFOUND) => find_parts row' spec | res => res end
  end.

Section parts.
Context `{CLib}.

Lemma find_fold row u spec : find_cell (fold_left join_part row u) spec =
  match find_cell u spec with Some (inl NOTFOUND) => find_parts row spec | res => res end.
Proof.
  revert u. induction row as [|p row IH]; intros u; cbn [fold_left find_parts].
  - by destruct (find_cell u spec) as [[[]|]|].
  - rewrite IH. unfold join_part. cbn [find_cell]. by destruct (find_cell u spec) as [[[]|]|].
Qed.

Lemma find_tuple_of row spec : row <> [] -> find_cell (tuple_of row) spec = find_parts row spec.
Proof. destruct row as [|p row]; [done|]. intros _. apply find_fold. Qed.

Lemma find_row_field t r n f : table_field t n = Some f ->
  find_cell (row_tuple t r) (field_spec t.(table_name) n) = mret (row_cell f r.2).
Proof.
  unfold table_field. cbn. rewrite bool_decide_true by done. cbn. induction (field_metas t) as [|g fs IH]; cbn; [done|].
  destruct (decide (n = g.(field_name))) as [->|Hn].
  - rewrite !bool_decide_true by done. cbn. by intros [= ->].
  - rewrite !bool_decide_false by congruence. apply IH.
Qed.

Lemma find_row_other t r tn n : tn <> t.(table_name) -> find_cell (row_tuple t r) (field_spec tn n) = fails NOTFOUND.
Proof. intros Hn. cbn. by rewrite bool_decide_false. Qed.

(** A field of a part, when no other part has the name. *)
Lemma find_part row t r n f : NoDup (table_name <$> row.*1) -> (t, r) ∈ row -> table_field t n = Some f ->
  find_parts row (field_spec t.(table_name) n) = mret (row_cell f r.2).
Proof.
  intros Hnd Hin Hf. induction row as [|[t' r'] row IH]; [by apply not_elem_of_nil in Hin|].
  cbn in Hnd. apply NoDup_cons in Hnd as [Hn Hnd]. cbn [find_parts fst snd]. apply elem_of_cons in Hin as [[= <- <-]|Hin].
  - by rewrite find_row_field with (f := f).
  - rewrite find_row_other; [by apply IH|]. intros E. apply Hn. rewrite <- E. rewrite <- list_fmap_compose.
    by apply (list_elem_of_fmap_2 (table_name ∘ fst) row (t, r)).
Qed.

Lemma fold_shaped row u : row_shaped u -> Forall (fun p => p.1.(table_name) <> ""%string) row -> row_shaped (fold_left join_part row u).
Proof. intros Hu Hrow. revert u Hu. induction Hrow as [|p row Hp _ IH]; intros u Hu; [done|]. by apply IH. Qed.

Lemma fold_schema row u : schema_of (fold_left join_part row u) = schema_of u ++ tables_schema row.*1.
Proof.
  revert u. induction row as [|p row IH]; intros u; cbn [fold_left]; [by rewrite app_nil_r|]. rewrite IH. cbn.
  by rewrite <- app_assoc.
Qed.
End parts.

(** ** Expressions on a row *)

Section expressions.
Context `{CLib} (sys_field_num : Table -> nat) (find_table : string -> option Table) (Hcat : catalog_ok find_table).
Context (row : FromRow) (Hne : row <> []) (Hknown : known find_table row.*1).
Context (Hnames : NoDup ((fun t => lower_name t.(table_name)) <$> row.*1)).
Notation value e := (get_value (find_cell (tuple_of row)) e).
Notation cols := (columns sys_field_num row).

Lemma row_names : NoDup (table_name <$> row.*1).
Proof using Hnames. apply (NoDup_fmap_1 lower_name). by rewrite <- list_fmap_compose. Qed.

Lemma part_known t r : (t, r) ∈ row -> t ∈ row.*1 /\ find_table t.(table_name) = Some t.
Proof using Hknown.
  intros Hin. assert (t ∈ row.*1) by by apply (list_elem_of_fmap_2 fst row (t, r)). split; [done|].
  by apply (proj1 (Forall_forall _ _) Hknown).
Qed.

Lemma part_field t r n f : (t, r) ∈ row -> table_field t n = Some f ->
  value (field_expr t f) = mret (row_cell f r.2).
Proof using Hne Hnames.
  intros Hin Hf. cbn. rewrite find_tuple_of by done. destruct (table_field_name _ _ _ Hf) as [_ Hn].
  rewrite <- Hn in Hf. by apply find_part; [apply row_names| |].
Qed.

Lemma tuple_shaped : row_shaped (tuple_of row) /\ schema_of (tuple_of row) = tables_schema row.*1.
Proof using Hcat Hne Hknown Hnames.
  assert (Hnon : Forall (fun p => p.1.(table_name) <> ""%string) row).
  { apply Forall_forall. intros [t r] Hin E. destruct (part_known t r Hin) as [_ Ht]. cbn in E. rewrite E, (catalog_nonempty _ Hcat) in Ht. done. }
  destruct row as [|p row']; [done|]. apply Forall_cons in Hnon as [Hp Hrow]. split; [by apply fold_shaped|]. apply fold_schema.
Qed.

Lemma column_type e : column_expr row.*1 e = true -> has_type (value e) (value_type e).
Proof using Hcat Hne Hknown Hnames. intros He. eapply column_value; [done|apply tuple_shaped..]. Qed.

(** *** Names *)

Lemma find_part_named n : context_find_table row.*1 n = fst <$> head (List.filter (fun p => same_name n p.1.(table_name)) row).
Proof using Type.
  unfold context_find_table. clear. induction row as [|p row' IH]; [done|]. cbn. by destruct (same_name n _).
Qed.

Lemma part_of_in n p : part_of row n = Some p -> p ∈ row.
Proof using Type. unfold part_of. destruct (blank_name n); [by intros ?%head_Some_elem_of|by intros [? _]%head_filter]. Qed.

Lemma context_part n t : blank_name n = false -> context_find_table row.*1 n = Some t -> exists r, part_of row n = Some (t, r).
Proof using Type.
  intros Hn. rewrite find_part_named. unfold part_of. rewrite Hn. destruct (head _) as [[t' r]|]; [|done]. cbn. intros [= ->]. by exists r.
Qed.

(** The part that a name means is the only one. *)
Lemma part_of_exact t r : (t, r) ∈ row -> blank_name t.(table_name) = false -> part_of row t.(table_name) = Some (t, r).
Proof using Hnames.
  intros Hin Hb. unfold part_of. rewrite Hb. revert Hin Hnames. clear. induction row as [|[t' r'] row' IH]; [by intros ?%not_elem_of_nil|].
  cbn. intros Hin [Hn Hnd]%NoDup_cons. apply elem_of_cons in Hin as [[= -> ->]|Hin].
  - unfold same_name. by rewrite bool_decide_true.
  - unfold same_name. rewrite bool_decide_false; [by apply IH|]. intros E. apply Hn. rewrite <- E, <- list_fmap_compose.
    by apply (list_elem_of_fmap_2 ((fun t => lower_name (table_name t)) ∘ fst) row' (t, r)).
Qed.

Lemma wildcard_gives t r : (t, r) ∈ row ->
  Forall2 (fun e v => gives (value e) v) (wildcard_fields sys_field_num t).*2 (Some <$> part_cells sys_field_num (t, r)).
Proof using Hcat Hne Hknown Hnames.
  intros Hin. destruct (part_known t r Hin) as [_ Ht]. unfold wildcard_fields, part_cells. rewrite <- !list_fmap_compose.
  apply Forall2_fmap_2, Forall_Forall2_diag, Forall_forall. intros f Hf. cbn -[get_value field_expr]. unfold gives.
  eapply part_field; [done|]. apply table_field_nodup; [exact (catalog_fields _ Hcat _ _ Ht)|].
  rewrite <- (take_drop (sys_field_num t) t.(field_metas)). apply elem_of_app. by right.
Qed.

Lemma all_gives : Forall2 (fun e v => gives (value e) v) (concat (map (wildcard_fields sys_field_num) row.*1)).*2
  (Some <$> concat (map (part_cells sys_field_num) row)).
Proof using Hcat Hne Hknown Hnames.
  assert (Hsub : forall rs, rs ⊆ row -> Forall2 (fun e v => gives (value e) v)
    (concat (map (wildcard_fields sys_field_num) rs.*1)).*2 (Some <$> concat (map (part_cells sys_field_num) rs))); [|by apply Hsub].
  induction rs as [|[t r] rs IH]; intros Hrs; cbn; [constructor|]. rewrite !fmap_app. apply Forall2_app; [apply wildcard_gives|apply IH]; set_solver.
Qed.

Lemma star_gives n bs : bind_star_expression sys_field_num row.*1 n = mret bs ->
  Forall2 (fun e v => gives (value e) v) bs.*2 (cols (PStar n)).
Proof using Hcat Hne Hknown Hnames.
  unfold bind_star_expression. cbn. destruct (blank_name n) eqn:Hn; cbn [negb andb]; [intros [= <-]; apply all_gives|].
  destruct (negb _); [|intros [= <-]; apply all_gives].
  destruct (context_find_table _ n) as [t|] eqn:Ht; [|done]. intros [= <-]. destruct (context_part n t Hn Ht) as [r Hr].
  rewrite Hr. apply wildcard_gives. by apply part_of_in in Hr.
Qed.

Lemma field_gives nm n f bs : bind_unbound_field_expression sys_field_num row.*1 nm n f = mret bs ->
  Forall2 (fun e v => gives (value e) v) bs.*2 (cols (PField nm n f)).
Proof using Hcat Hne Hknown Hnames.
  intros (t & Ht & Hend)%Res_bind_inr.
  assert (exists r, part_of row n = Some (t, r)) as [r Hr].
  { destruct (blank_name n) eqn:Hn.
    - unfold part_of. rewrite Hn. destruct row as [|[t' r] [|? ?]]; try done. injection Ht as ->. by exists r.
    - destruct (context_find_table _ n) eqn:E; [|done]. injection Ht as ->. by apply context_part. }
  pose proof (part_of_in _ _ Hr) as Hin. cbn -[get_value]. unfold column. rewrite Hr.
  case_bool_decide; [injection Hend as <-; by apply wildcard_gives|].
  destruct (table_field t f) as [fm|] eqn:Hf; [|done]. injection Hend as <-. constructor; [|constructor]. cbn -[get_value].
  rewrite Hf. by eapply part_field.
Qed.

(** *** Expressions *)

Lemma one_gives r e vs : (forall bs, r = mret bs -> Forall2 (fun e v => gives (value e) v) bs.*2 vs) ->
  only r = mret e -> gives (value e) (one vs).
Proof using Type.
  intros Hp [n Hr]%only_inr. specialize (Hp _ Hr). apply Forall2_cons_inv_l in Hp as (v & vs' & Hv & Hnil%Forall2_nil_inv_l & ->). by subst vs'.
Qed.

Lemma arithmetic_gives op l r a b : column_expr row.*1 l = true -> column_expr row.*1 r = true ->
  gives (value l) a -> gives (value r) b ->
  gives (value (ArithmeticExpr op l (Some r))) (a ← a; b ← b; arithmetic op a b).
Proof using Hcat Hne Hknown Hnames.
  intros Hl%column_type Hr%column_type Ha Hb. cbn [get_value].
  apply gives_bind; [done|]. intros va Hva. apply gives_bind; [done|]. intros vb Hvb.
  rewrite Hva in Hl. rewrite Hvb in Hr. cbn in Hl, Hr. unfold arithmetic. rewrite Hl, Hr. cbn [value_type].
  apply gives_value. eapply has_type_any, value_calc_typed. case_decide; naive_solver.
Qed.

Lemma bind_gives p bs : plain p = true -> bind_expression sys_field_num row.*1 p = mret bs ->
  Forall2 (fun e v => gives (value e) v) bs.*2 (cols p).
Proof using Hcat Hne Hknown Hnames.
  revert bs. induction p as [t|n t f|n a c IH|n f cs IH|n v|n c ty IH|n op l r IHl IHr|n ty cs IH|n op l r IHl IHr|n op l IH]
    using parsed_ind; intros bs Hp; cbn -[only get_value columns]; try done.
  - by apply star_gives.
  - by apply field_gives.
  - cbn in Hp. apply andb_true_iff in Hp as [Hagg%bool_decide_eq_true Hcs]. unfold bind_unbound_function_expression. rewrite Hagg.
    destruct (function_type_of f) as [ty|] eqn:Hty; [|done]. intros (es & Hes & [= <-])%Res_bind_inr.
    constructor; [|constructor]. cbn -[one try_function]. rewrite Hty. cbn -[one try_function]. apply gives_function.
    revert es Hes. induction IH as [|c cs Hc _ IHcs]; [by intros es [= <-]|].
    apply andb_true_iff in Hcs as [Hpc Hpcs]. intros es (e & He & (es' & Hes & [= <-])%Res_bind_inr)%Res_bind_inr.
    constructor; [by eapply one_gives; [intros b Hb; by apply Hc|]|by apply IHcs].
  - intros [= <-]. by repeat constructor.
  - intros (e & He & [= <-])%Res_bind_inr. constructor; [|constructor]. cbn -[one]. apply gives_bind.
    + eapply one_gives; [|done]. intros b Hb. by apply IH.
    + intros v _. apply gives_value. eapply has_type_any, has_type_cast.
  - cbn in Hp. apply andb_true_iff in Hp as [Hpl Hpr]. intros (el & Hl & (er & Hr & [= <-])%Res_bind_inr)%Res_bind_inr.
    constructor; [|constructor]. apply arithmetic_gives.
    + eapply only_column in Hl; [done|intros b Hb; by eapply bind_columns|done].
    + eapply only_column in Hr; [done|intros b Hb; by eapply bind_columns|done].
    + eapply one_gives; [|done]. intros b Hb. by apply IHl.
    + eapply one_gives; [|done]. intros b Hb. by apply IHr.
  - by intros (el & Hl & (er & Hr & _)%Res_bind_inr)%Res_bind_inr.
Qed.

Lemma bind_all_gives ps bs : forallb plain ps = true -> bind_expressions sys_field_num row.*1 ps = mret bs ->
  Forall2 (fun e v => gives (value e) v) bs.*2 (concat (map cols ps)).
Proof using Hcat Hne Hknown Hnames.
  revert bs. induction ps as [|p ps IH]; cbn -[get_value]; [by intros bs _ [= <-]; constructor|].
  intros bs [Hp Hps]%andb_true_iff (b & Hb & (bs' & Hbs & [= <-])%Res_bind_inr)%Res_bind_inr.
  rewrite fmap_app. apply Forall2_app; [by apply bind_gives|by apply IH].
Qed.

(** The row that the client sees. *)
Lemma project_answers (bs : list Named) vs : Forall2 (fun e v => gives (value e) v) bs.*2 vs ->
  answers (ExpressionTuple bs (Some (tuple_of row))) vs.
Proof using Type.
  intros Hbs. pose proof (Forall2_length _ _ _ Hbs) as Hlen. rewrite length_fmap in Hlen. split; [cbn; unfold zlen; f_equal; exact Hlen|].
  intros i v Hi. destruct (Forall2_lookup_r _ _ _ _ _ Hbs Hi) as (e & ([n e'] & -> & He)%list_lookup_fmap_Some & Hv).
  change (bs !! i = Some ((n, e') : Named)) in He. cbn -[get_value]. by rewrite (in_range_lookup _ _ _ He), (at_index_lt _ _ _ He).
Qed.
End expressions.

(** ** Conditions *)

Section comparisons.
Context `{CLib} (find : TupleCellSpec -> Res Value).

Definition holds_value (e : Expression) (v : Value) : Prop := get_value find e = mret v /\ attr_type v = value_type e.

(** INTS cast to FLOATS compares like the INTS value. *)
Lemma cast_side_value side e v : holds_value side v -> value_type side = INTS -> cast_side side FLOATS = mret e ->
  holds_value e (VFloat (float_of_int (get_int v))) /\ value_type e = FLOATS.
Proof using Type.
  intros [Hv Ht] Hint. rewrite Hint in Ht. unfold cast_side. destruct (is_value side) eqn:Hval.
  - destruct side; try done. injection Hv as <-. cbn. unfold cast, cast_to. rewrite Ht. cbn. by intros [= <-].
  - intros [= <-]. split; [|done]. split; [|done]. cbn. rewrite Hv. cbn. unfold cast, cast_to. by rewrite Ht.
Qed.

Lemma promote_left op a b : attr_type a = INTS -> attr_type b = FLOATS ->
  compare_value op (VFloat (float_of_int (get_int a))) b = compare_value op a b.
Proof using Type. by destruct a, b. Qed.

Lemma promote_right op a b : attr_type a = FLOATS -> attr_type b = INTS ->
  compare_value op a (VFloat (float_of_int (get_int b))) = compare_value op a b.
Proof using Type. by destruct a, b. Qed.

Lemma comparison_value u e a b : u.(unit_comp) <> NO_OP -> holds_value (filter_expr u.(unit_left)) a ->
  holds_value (filter_expr u.(unit_right)) b -> create_comparison u = mret e ->
  exists r, compare_value u.(unit_comp) a b = mret r /\ get_value find e = mret (VBool r).
Proof using Type.
  intros Hop Ha Hb. unfold create_comparison. set (lhs := filter_expr _) in *. set (rhs := filter_expr _) in *.
  intros ([l r] & Hcast & Hend)%Res_bind_inr. destruct (_ && _) in Hend; [done|]. injection Hend as <-.
  assert (Hok : exists a' b', holds_value l a' /\ holds_value r b' /\ attr_type a' = attr_type b' /\
    compare_value u.(unit_comp) a' b' = compare_value u.(unit_comp) a b).
  { pose proof Ha as [_ Hta]. pose proof Hb as [_ Htb].
    case_decide as Hty; [injection Hcast as <- <-; exists a, b; split_and!; [done|done|congruence|done]|].
    destruct (_ && _) eqn:Hc1 in Hcast; [|destruct ((_ <? _) && _) eqn:Hc2 in Hcast; [|done]].
    - apply andb_true_iff in Hc1 as [_ Hc1%negb_true_iff%Z.eqb_neq].
      destruct (cast_cost_finite _ _ Hty Hc1) as [Hi Hf]. apply Res_bind_inr in Hcast as (l' & Hcast & [= <- <-]).
      rewrite Hf in Hcast. destruct (cast_side_value _ _ _ Ha Hi Hcast) as [Hl _]. exists (VFloat (float_of_int (get_int a))), b.
      split_and!; [done|done|by rewrite Htb, Hf|apply promote_left; congruence].
    - apply andb_true_iff in Hc2 as [_ Hc2%negb_true_iff%Z.eqb_neq].
      destruct (cast_cost_finite _ _ (not_eq_sym Hty) Hc2) as [Hi Hf]. apply Res_bind_inr in Hcast as (r' & Hcast & [= <- <-]).
      rewrite Hf in Hcast. destruct (cast_side_value _ _ _ Hb Hi Hcast) as [Hr _]. exists a, (VFloat (float_of_int (get_int b))).
      split_and!; [done|done|by rewrite Hta, Hf|apply promote_right; congruence]. }
  destruct Hok as (a' & b' & [Hl _] & [Hr _] & Hty & Hcmp).
  destruct (compare_value_same u.(unit_comp) a' b' Hop Hty) as [x Hx]. exists x. rewrite <- Hcmp. split; [done|].
  cbn. by rewrite Hl, Hr, !Res_bind_ret, Hx.
Qed.
End comparisons.

Section conditions.
Context `{CLib} (find_table : string -> option Table) (Hcat : catalog_ok find_table).
Context (row : FromRow) (Hne : row <> []) (rels : list string) (Hrels : Forall2 (fun n t => find_table n = Some t) rels row.*1).
Context (Hnames : NoDup ((fun t => lower_name t.(table_name)) <$> row.*1)).
Notation default_table := (match row.*1 with [t] => Some t | _ => None end).
Notation table_map := (zip rels row.*1).

Lemma side_holds side o : create_filter_obj find_table default_table (Some table_map) side = mret o ->
  exists v, side_value row side = Some v /\ holds_value (find_cell (tuple_of row)) (filter_expr o) v.
Proof using Hcat Hne Hrels Hnames.
  destruct side as [rel attr|v]; [|intros [= <-]; by exists v].
  intros ([t f] & Htf & [= <-])%Res_bind_inr. unfold get_table_and_field in Htf.
  assert (Hpart : exists tb r, (if blank_name rel then default_table else map_find table_map rel) = Some tb /\ part_of row rel = Some (tb, r)).
  { destruct (blank_name rel) eqn:Hb.
    - unfold part_of. rewrite Hb. revert Htf. destruct row as [|[t' r'] [|? ?]]; cbn; try done. intros _. by exists t', r'.
    - destruct (map_find table_map rel) as [tb|] eqn:Hm; [|done]. apply map_find_in, list_elem_of_lookup in Hm as [i Hi].
      apply lookup_zip_Some in Hi as [Hi Htb]. pose proof (Forall2_lookup_lr _ _ _ _ _ _ Hrels Hi Htb) as Hfind. cbn in Hfind.
      apply list_lookup_fmap_Some in Htb as ([tb' r] & -> & Hr). exists tb', r. split; [done|].
      rewrite <- (catalog_name _ Hcat _ _ Hfind) in Hb |- *. eapply part_of_exact; [done|by eapply list_elem_of_lookup_2|done]. }
  destruct Hpart as (tb & r & Htb & Hpart). rewrite Htb in Htf. destruct (table_field tb attr) as [fm|] eqn:Hf; [|done]. injection Htf as <- <-.
  exists (row_cell fm r.2). cbn [side_value]. unfold column. rewrite Hpart. cbn. rewrite Hf. split; [done|].
  split; [|by apply set_data_type]. eapply (part_field row); [done..| |done]. by apply part_of_in in Hpart.
Qed.

Lemma filter_satisfies conds units cmps : create_filter find_table default_table (Some table_map) conds = mret units ->
  create_comparisons units = mret cmps -> all_true (tuple_of row) cmps = forallb (satisfies row) conds.
Proof using Hcat Hne Hrels Hnames.
  revert units cmps. induction conds as [|c conds IH]; cbn; [by intros units cmps [= <-] [= <-]|].
  intros units cmps (u & Hu & (us & Hus & [= <-])%Res_bind_inr)%Res_bind_inr (e & He & (es & Hes & [= <-])%Res_bind_inr)%Res_bind_inr.
  rewrite all_true_cons, (IH us es Hus Hes). cbn [forallb]. f_equal.
  unfold create_filter_unit in Hu. case_bool_decide as Hop; [done|].
  apply Res_bind_inr in Hu as (l & Hl & (r & Hr & [= <-])%Res_bind_inr).
  destruct (side_holds _ _ Hl) as (a & Hsa & Ha), (side_holds _ _ Hr) as (b & Hsb & Hb).
  destruct (comparison_value _ (mkUnit c.(cond_comp) l r) e a b Hop Ha Hb He) as (x & Hx & Hex). cbn in Hx.
  unfold satisfies, truth. rewrite Hsa, Hsb, Hex. cbn. by rewrite Hx.
Qed.
End conditions.

(** ** The server and the reference *)

Section answer.
Context `{CLib} `{StdSort} (table_rows : Table -> ReadWriteMode -> list (RID * list Z) * RC).
Context (sys_field_num : Table -> nat) (find_table : string -> option Table) (Hcat : catalog_ok find_table).
Context (Hscan : forall n t, find_table n = Some t -> scannable table_rows t READ_ONLY /\ (table_rows t READ_ONLY).2 = RECORD_EOF).

(** A resolved statement, clause by clause. *)
Lemma create_select_inv node stmt : plain_select node -> create_select sys_field_num find_table node = mret stmt ->
  exists ts bound units, collect_tables find_table node.(node_relations) = mret ts /\
    bind_expressions sys_field_num ts node.(node_expressions) = mret bound /\
    create_filter find_table (match ts with [t] => Some t | _ => None end) (Some (zip node.(node_relations) ts)) node.(node_conditions) = mret units /\
    stmt = mkSelect ts bound units [] [] [] node.(node_limit_num).
Proof using Type.
  intros Hnode. unfold create_select. rewrite (plain_group_by _ Hnode), (plain_order_by _ Hnode).
  intros (ts & Hts & (bound & Hb & (gs & [= <-] & (units & Hu & ([os asc] & [= <- <-] & [= <-])%Res_bind_inr)%Res_bind_inr)%Res_bind_inr)%Res_bind_inr)%Res_bind_inr.
  by exists ts, bound, units.
Qed.

(** An expression without aggregates asks for no GROUP BY operator. *)
Lemma column_group cell_type e : well_typed cell_type e = true -> has_aggregate e = false ->
  (exists b, unbound_column [] e = Some b) /\ collect_aggregates e = [].
Proof using Type.
  assert (Hall : forall cs, Forall (fun c => well_typed cell_type c = true -> has_aggregate c = false ->
      (exists b, unbound_column [] c = Some b) /\ collect_aggregates c = []) cs ->
    Forall (fun c => well_typed cell_type c = true) cs -> existsb has_aggregate cs = false ->
    (exists b, (fix go cs := match cs with [] => Some false | c :: cs' => b ← unbound_column [] c; b' ← go cs'; Some (b || b') end) cs = Some b) /\
    concat (map collect_aggregates cs) = []).
  { induction 1 as [|c cs Hc _ IH]; [by split; [exists false|]|]. intros [Hw Hws]%Forall_cons [Ha Has]%orb_false_iff.
    destruct (Hc Hw Ha) as [[b Hb] Hca], (IH Hws Has) as [[b' Hb'] Hcs]. cbn. rewrite Hb, Hca, Hcs. cbn. rewrite Hb'. split; [by eexists|done]. }
  induction e as [t f ty|v|c ty IH|op l r IHl IHr|ty cs IH|op l r IHl IHr|ty c n IH|ty cs IH] using expression_ind; intros Hw Ha.
  - split; [by eexists|done].
  - split; [by eexists|done].
  - by apply IH.
  - cbn in Hw, Ha. apply andb_true_iff in Hw as [[Hwl Hwr]%andb_true_iff _]. apply orb_false_iff in Ha as [Hal Har].
    destruct (IHl Hwl Hal) as [[b Hb] Hl], (IHr Hwr Har) as [[b' Hb'] Hr]. cbn. rewrite Hb, Hb', Hl, Hr. split; [by eexists|done].
  - cbn in Hw. apply well_typed_children in Hw. by apply Hall.
  - destruct r as [r|]; [|done]. cbn in Hw, Ha. apply andb_true_iff in Hw as [Hwl Hwr]. apply orb_false_iff in Ha as [Hal Har].
    destruct (IHl Hwl Hal) as [[b Hb] Hl], (IHr r eq_refl Hwr Har) as [[b' Hb'] Hr]. cbn. rewrite Hb, Hb', Hl, Hr. split; [by eexists|done].
  - done.
  - cbn in Hw. apply well_typed_children in Hw. by apply Hall.
Qed.

Lemma no_group_by ts bound stmt : Forall (fun e => column_expr ts e = true) bound.*2 -> stmt.(sel_query_expressions) = bound ->
  stmt.(sel_group_by) = [] -> create_group_by_plan stmt = mret None.
Proof using Type.
  intros Hb Hq Hg. unfold create_group_by_plan. rewrite Hg, Hq. cbn [fmap list_fmap].
  assert (Hboth : (exists b, any_unbound [] bound = Some b) /\ concat (map (fun e => collect_aggregates e.2) bound) = []).
  { clear Hq. induction bound as [|[n e] bound IH]; [by split; [exists false|]|]. apply Forall_cons in Hb as [He Hb].
    apply column_expr_spec in He as (Hw & _ & Ha). destruct (IH Hb) as [[b Hu] Hc], (column_group _ _ Hw Ha) as [[b' Hu'] Hc'].
    cbn in *. rewrite Hu', Hc', Hc. cbn. rewrite Hu. split; [by eexists|done]. }
  destruct Hboth as [[b ->] ->]. done.
Qed.

(** The statement satisfies what the theorems about plans ask for. *)
Lemma plain_select_ok node ts bound units cmps : plain_select node -> collect_tables find_table node.(node_relations) = mret ts ->
  bind_expressions sys_field_num ts node.(node_expressions) = mret bound ->
  create_filter find_table (match ts with [t] => Some t | _ => None end) (Some (zip node.(node_relations) ts)) node.(node_conditions) = mret units ->
  create_comparisons units = mret cmps ->
  select_ok table_rows (mkSelect ts bound units [] [] [] node.(node_limit_num)) cmps.
Proof using Hcat Hscan.
  intros Hnode Hts Hbound Hunits Hcmps. pose proof (collect_tables_known _ Hcat _ _ Hts) as Hknown.
  pose proof (bind_all_columns _ _ Hcat _ _ _ Hknown (plain_list _ Hnode) Hbound) as Hcols.
  assert (Hin : Forall (unit_in_schema (tables_schema ts)) units).
  { eapply filter_in_schema; [done| | |exact Hunits].
    - intros t. destruct ts as [|t' [|]]; try done. intros [= ->]. by left.
    - intros n t Hz. apply elem_of_zip_r in Hz. done. }
  assert (Hcmp : Forall comparison cmps).
  { eapply create_comparisons_shape; [|done]. eapply Forall_impl; [exact Hin|]. by intros u [? _]. }
  assert (Hnc : Forall (fun e => const_cmp e = None) cmps).
  { eapply column_comparisons; [|done]. eapply filter_names_columns; [done|apply Hnode]. }
  split; cbn; try done.
  - apply collect_tables_found, Forall2_length in Hts. pose proof (plain_from _ Hnode). destruct ts; [|done]. by destruct (node_relations node).
  - apply Forall_forall. intros t Ht. pose proof (proj1 (Forall_forall _ _) Hknown t Ht) as Hf. cbn in Hf. split; [|by apply (Hscan _ _ Hf)].
    intros E. rewrite E, (catalog_nonempty _ Hcat) in Hf. done.
  - apply forallb_Forall. eapply Forall_impl; [exact Hcols|]. by intros e (_ & ? & _)%column_expr_spec.
  - by apply not_constant_late.
  - left. eapply Forall_impl; [exact Hnc|]. intros e E. cbn in E. by rewrite E.
Qed.

Lemma filter_product ts (p : Tuple -> bool) (q : FromRow -> bool) : (forall row, row.*1 = ts -> p (tuple_of row) = q row) ->
  List.filter p (tuple_of <$> from_product table_rows ts) = tuple_of <$> List.filter q (from_product table_rows ts).
Proof using Type.
  intros Hpq. assert (Hall : forall rows, (forall row, row ∈ rows -> row.*1 = ts) -> List.filter p (tuple_of <$> rows) = tuple_of <$> List.filter q rows).
  { induction rows as [|row rows IH]; intros Hrows; [done|]. cbn. rewrite Hpq by (apply Hrows; left). rewrite IH by (intros; apply Hrows; by right).
    by destruct (q row). }
  apply Hall. intros row. apply from_product_tables.
Qed.
Lemma product_known ts (row : FromRow) : known find_table ts -> NoDup (lower_name <$> (table_name <$> ts)) -> ts <> [] -> row.*1 = ts ->
  row <> [] /\ known find_table row.*1 /\ NoDup ((fun t => lower_name t.(table_name)) <$> row.*1).
Proof using Type.
  intros Hk Hnd Hne <-. split; [by intros ->|]. split; [done|]. by rewrite <- list_fmap_compose in Hnd.
Qed.

(** What the operators return is what the reference says. *)
Lemma rows_answer node ts bound units cmps : plain_select node -> collect_tables find_table node.(node_relations) = mret ts ->
  bind_expressions sys_field_num ts node.(node_expressions) = mret bound ->
  create_filter find_table (match ts with [t] => Some t | _ => None end) (Some (zip node.(node_relations) ts)) node.(node_conditions) = mret units ->
  create_comparisons units = mret cmps ->
  Forall2 answers (project_rows bound (limited node.(node_limit_num) (selected_rows table_rows cmps ts)))
    (select_answer table_rows sys_field_num find_table node).
Proof using Hcat.
  intros Hnode Hts Hbound Hunits Hcmps. pose proof (collect_tables_known _ Hcat _ _ Hts) as Hknown.
  pose proof (collect_tables_found _ _ _ Hts) as Hfound. unfold select_answer. rewrite (mapM_Some_2 _ _ _ Hfound).
  assert (Hrels : table_name <$> ts = node.(node_relations)).
  { clear -Hfound Hcat. induction Hfound as [|n t ns ts Hn _ IH]; [done|]. cbn. by rewrite IH, (catalog_name _ Hcat _ _ Hn). }
  assert (Hne : ts <> []) by (intros ->; apply (plain_from _ Hnode); by rewrite <- Hrels).
  assert (Hrow : forall row : FromRow, row.*1 = ts -> row <> [] /\ known find_table row.*1 /\ NoDup ((fun t => lower_name t.(table_name)) <$> row.*1)).
  { intros row. apply product_known; [done| |done]. rewrite Hrels. apply Hnode. }
  unfold selected_rows. rewrite cross_product_rows by done.
  rewrite (filter_product ts _ (fun row => forallb (satisfies row) node.(node_conditions))).
  2: { intros row <-. destruct (Hrow row eq_refl) as (? & ? & ?). by eapply filter_satisfies. }
  assert (limited (node_limit_num node) (tuple_of <$> List.filter (fun row => forallb (satisfies row) (node_conditions node)) (from_product table_rows ts))
    = tuple_of <$> select_rows table_rows node ts) as ->.
  { unfold limited, select_rows. destruct (_ <=? _); [|done]. by rewrite fmap_take. }
  unfold project_rows. rewrite <- list_fmap_compose. apply Forall2_fmap_2, Forall_Forall2_diag, Forall_forall. intros row Hin.
  assert (Hfst : row.*1 = ts).
  { apply (from_product_tables table_rows). unfold select_rows in Hin. assert (Hin' : row ∈ List.filter (fun row => forallb (satisfies row) (node_conditions node)) (from_product table_rows ts)).
    { destruct (_ <=? _); [|done]. eapply subseteq_take, Hin. }
    by apply list_elem_of_In, filter_In in Hin' as [?%list_elem_of_In _]. }
  destruct (Hrow row Hfst) as (? & ? & ?). cbn. apply project_answers. rewrite <- Hfst in Hbound.
  eapply bind_all_gives; [done..|apply Hnode|done].
Qed.

End answer.

(** ** DELETE *)

Section delete.
Context `{CLib} `{StdSort} (table_rows : Table -> ReadWriteMode -> list (RID * list Z) * RC).
Context (sys_field_num : Table -> nat) (find_table : string -> option Table) (Hcat : catalog_ok find_table).
Context (Hscan : forall n t, find_table n = Some t -> scannable table_rows t READ_WRITE).
Context {W : Type} (trx_delete_record : W -> RID -> list Z -> RC * W).

End delete.

(** ** Names that the server takes for others *)

Section names.
Context `{CLib} (sys_field_num : Table -> nat) (find_table : string -> option Table).

(** A unary minus before anything but a number has no right operand, which binds to nothing. *)
Lemma negative_never_binds ts n op l e : only (bind_expression sys_field_num ts l) = mret e ->
  bind_expression sys_field_num ts (PArithmetic n op l None) = fails INVALID_ARGUMENT.
Proof. intros He. cbn -[only]. unfold bind_arithmetic_expression. by rewrite He. Qed.

(** The SELECT list finds a table whatever the case of its name, WHERE only by the name in FROM. *)
Lemma where_is_case_sensitive rel t n f fm : t.(table_name) = rel -> same_name n rel = true -> n <> rel -> blank_name n = false ->
  f <> "*"%string -> table_field t f = Some fm ->
  bind_unbound_field_expression sys_field_num [t] f n f = mret [(f, field_expr t fm)] /\
  create_filter_obj find_table (Some t) (Some [(rel, t)]) (CondAttr n f) = fails SCHEMA_TABLE_NOT_EXIST.
Proof.
  intros Ht Hsame Hne Hb Hf Hfm. split.
  - unfold bind_unbound_field_expression, context_find_table. rewrite Hb. cbn. rewrite Ht, Hsame. cbn.
    by rewrite bool_decide_false, Hfm.
  - cbn. unfold get_table_and_field, map_find. rewrite Hb. cbn. by rewrite bool_decide_false by done.
Qed.

(** Two tables that differ in the case of their names: the columns of the second cannot be named. *)
Lemma first_of_two_tables t t' n f fm : same_name n t.(table_name) = true -> blank_name n = false -> f <> "*"%string ->
  table_field t f = Some fm -> bind_unbound_field_expression sys_field_num [t; t'] f n f = mret [(f, field_expr t fm)].
Proof.
  intros Hn Hb Hf Hfm. unfold bind_unbound_field_expression, context_find_table. rewrite Hb. cbn. rewrite Hn. cbn.
  by rewrite bool_decide_false, Hfm.
Qed.

(** A table joined with itself: every column is read from the first row. *)
Lemma self_join_first_row t r r' n f : table_field t n = Some f ->
  get_value (find_cell (tuple_of [(t, r); (t, r')])) (field_expr t f) = mret (row_cell f r.2).
Proof.
  intros Hf. destruct (table_field_name _ _ _ Hf) as [_ E]. rewrite <- E in Hf. unfold field_expr. cbn [get_value].
  rewrite find_tuple_of by done. cbn [find_parts fst snd]. by rewrite (find_row_field _ _ _ _ Hf).
Qed.
End names.

(** ** Example

    [SELECT T.a, a + 1 FROM t WHERE a > 100000000] on the table of [PlanSound]. *)
Definition demo_catalog (n : string) : option Table := if bool_decide (n = "t"%string) then Some heap_demo else None.
Definition demo_node : SelectSqlNode :=
  mkSelectNode [PField "T.a" "T" "a"; PArithmetic "a + 1" ADD (PField "a" "" "a") (Some (PValue "1" (VInt 1)))] ["t"%string]
    [mkCond (CondAttr "" "a") GREAT_THAN (CondValue (VInt 100000000))] [] [] (-1).

Lemma demo_catalog_ok : catalog_ok demo_catalog.
Proof.
  assert (Hdemo : forall n t, demo_catalog n = Some t -> n = "t"%string /\ t = heap_demo).
  { intros n t. unfold demo_catalog. case_bool_decide; [by intros [= <-]|done]. }
  split; [by intros n t [-> ->]%Hdemo|done|]. intros n t [-> ->]%Hdemo. apply NoDup_singleton.
Qed.

Lemma demo_node_plain : plain_select demo_node.
Proof. split; [discriminate|apply NoDup_singleton|reflexivity..]. Qed.

Lemma demo_catalog_scannable n t : demo_catalog n = Some t ->
  scannable demo_table_rows t READ_ONLY /\ (demo_table_rows t READ_ONLY).2 = RECORD_EOF.
Proof. unfold demo_catalog. case_bool_decide; [|done]. intros [= <-]. split; [apply heap_demo_scannable|done]. Qed.


