(* ===== verification/IvfIndex.v ===== *)
(** * IvfIndex: the IVF-Flat vector index

    [src/src/observer/storage/index/ivfflat_index.cpp] and [.h]: vectors are kept in inverted
    lists, one for each centroid of a k-means clustering; a search ranks the vectors in the
    lists of the centroids nearest to the query.  Creation from the records of a table,
    training, insertion and deletion, search, the scanner, the file format; and
    [HeapTableEngine::create_vector_index].

    [None] is undefined behaviour of C++ or an exception the code does not catch: an access
    out of range, a sort with a comparator that is not an order, a negative size.  The
    theorems say that neither can happen on an index that satisfies [ivf_ok], which creation
    establishes and every operation preserves.  A vector always has [dim] elements, the
    size of the loops in the code. *)

From Stdlib Require Import SpecFloat.
From stdpp Require Import strings.
From S2P Require Import Prelude Bytes RecordPage RecordFile HeapTable Float32 Value Expr Tuple TableMeta Exec OrderBy.
#[local] Open Scope Z_scope.

(** The generator of [train_kmeans]: [dis size k] is the [k]-th number drawn from
    [uniform_int_distribution(0, size - 1)]. *)
Class RandomSource := {
  dis : Z -> nat -> Z;
  dis_range n k : 0 < n -> 0 <= dis n k < n
}.

(** The characters of a literal. *)
Definition text (s : string) : list Z := map (fun c => Z.of_N (Ascii.N_of_ascii c)) (String.list_ascii_of_string s).

Record IvfflatListItem := mkItem { vec : list float32; item_rid : RID }.

Module IvfIndex.

Record IvfflatIndex := mkIvf {
  inited : bool;
  field_offset : Z;
  dim : Z;
  distance_method : list Z;
  lists : Z;
  probes : Z;
  centroids : list (list float32);
  inverted_lists : list (list IvfflatListItem)
}.

(** [IvfflatIndex()] *)
Definition new_index : IvfflatIndex := mkIvf false 0 0 [] 1 1 [] [].

(** ** Distances *)

(** [min] and [max] of the standard library. *)
Definition fmin (a b : float32) : float32 := if SFltb b a then b else a.
Definition fmax (a b : float32) : float32 := if SFltb a b then b else a.

Definition compute_distance (method : list Z) (a b : list float32) : float32 :=
  if bool_decide (method = text "cosine") then
    let dot := dot_loop a b f_zero in
    let norm_a := dot_loop a a f_zero in
    let norm_b := dot_loop b b f_zero in
    if SFltb norm_a norm_epsilon || SFltb norm_b norm_epsilon then FLT_MAX else
    let cos_sim := fdiv dot (fmul (fsqrt norm_a) (fsqrt norm_b)) in
    let cos_sim := fmax (fopp f_one) (fmin f_one cos_sim) in
    fsub f_one cos_sim
  else if bool_decide (method = text "dot") then fopp (dot_loop a b f_zero)
  else l2_loop a b f_zero.

(** The loop of [find_nearest_centroid], from centroid [i] on. *)
Fixpoint nearest_loop (method : list Z) (v : list float32) (cs : list (list float32)) (i best_id : Z) (best_dist : float32) : Z :=
  match cs with
  | [] => best_id
  | c :: cs' =>
      let dist := compute_distance method v c in
      if SFltb dist best_dist then nearest_loop method v cs' (i + 1) i dist
      else nearest_loop method v cs' (i + 1) best_id best_dist
  end.

Definition nearest (method : list Z) (cs : list (list float32)) (v : list float32) : Z :=
  if bool_decide (cs = []) then 0 else nearest_loop method v cs 0 (-1) FLT_MAX.

Definition find_nearest_centroid (x : IvfflatIndex) (v : list float32) : Z := nearest x.(distance_method) x.(centroids) v.

(** [extract_vector] *)
Definition extract_vector (x : IvfflatIndex) (record : list Z) : list float32 :=
  read_floats (Z.to_nat x.(dim)) (drop (Z.to_nat x.(field_offset)) record).

(** ** Insertion and deletion *)

Definition with_lists (x : IvfflatIndex) (l : list (list IvfflatListItem)) : IvfflatIndex :=
  mkIvf x.(inited) x.(field_offset) x.(dim) x.(distance_method) x.(lists) x.(probes) x.(centroids) l.

(** [inverted_lists_[cluster_id].push_back(item)] *)
Definition push_back (ls : list (list IvfflatListItem)) (cluster_id : Z) (item : IvfflatListItem) :
    option (list (list IvfflatListItem)) :=
  l ← ls !! Z.to_nat cluster_id; Some (<[Z.to_nat cluster_id := l ++ [item]]> ls).

Definition insert_entry (x : IvfflatIndex) (record : list Z) (rid : RID) : option (RC * IvfflatIndex) :=
  if negb x.(inited) then Some (INTERNAL, x) else
  let v := extract_vector x record in
  if bool_decide (v = []) then Some (INVALID_ARGUMENT, x) else
  let cluster_id := find_nearest_centroid x v in
  let cluster_id := if (cluster_id <? 0) || (zlen x.(inverted_lists) <=? cluster_id) then 0 else cluster_id in
  ls ← push_back x.(inverted_lists) cluster_id (mkItem v rid);
  Some (SUCCESS, with_lists x ls).

(** The first item with the location is erased; [None]: there is none. *)
Fixpoint erase_rid (rid : RID) (l : list IvfflatListItem) : option (list IvfflatListItem) :=
  match l with
  | [] => None
  | item :: l' => if decide (item.(item_rid) = rid) then Some l' else k ← erase_rid rid l'; Some (item :: k)
  end.

Definition delete_entry (x : IvfflatIndex) (record : list Z) (rid : RID) : option (RC * IvfflatIndex) :=
  if negb x.(inited) then Some (INTERNAL, x) else
  let v := extract_vector x record in
  if bool_decide (v = []) then Some (INVALID_ARGUMENT, x) else
  let cluster_id := find_nearest_centroid x v in
  if (cluster_id <? 0) || (zlen x.(inverted_lists) <=? cluster_id) then Some (INVALID_ARGUMENT, x) else
  l ← x.(inverted_lists) !! Z.to_nat cluster_id;
  match erase_rid rid l with
  | Some l' => Some (SUCCESS, with_lists x (<[Z.to_nat cluster_id := l']> x.(inverted_lists)))
  | None => Some (RECORD_NOT_EXIST, x)
  end.

(** It writes nothing. *)
Definition sync (x : IvfflatIndex) : RC := SUCCESS.

Definition close (x : IvfflatIndex) : RC * IvfflatIndex :=
  (SUCCESS, mkIvf false x.(field_offset) x.(dim) x.(distance_method) x.(lists) x.(probes) [] []).

(** ** Search *)

Section search.
Context `{StdSort}.

(** [sort] by the distance of the elements. *)
Definition sort_by {X} (dist : X -> float32) (l : list X) : option (list X) :=
  let lt a b := match l !! a, l !! b with Some p, Some q => SFltb (dist p) (dist q) | _, _ => false end in
  mapM (fun i => l !! i) (std_sort lt (seq 0 (length l))).

(** The distances of a vector to all centroids, each with the number of the centroid. *)
Definition centroid_distances (method : list Z) (cs : list (list float32)) (v : list float32) : list (float32 * Z) :=
  imap (fun i c => (compute_distance method v c, Z.of_nat i)) cs.

Definition find_nearest_centroids (x : IvfflatIndex) (v : list float32) (probes : Z) : option (list Z) :=
  if bool_decide (x.(centroids) = []) then Some [] else
  distances ← sort_by fst (centroid_distances x.(distance_method) x.(centroids) v);
  let actual_probes := Z.min probes (zlen distances) in
  if actual_probes <? 0 then None else Some (take (Z.to_nat actual_probes) distances.*2).

(** The vectors in the lists of the clusters. *)
Definition cluster_items (ls : list (list IvfflatListItem)) (clusters : list Z) : list IvfflatListItem :=
  concat (map (fun c => if (c <? 0) || (zlen ls <=? c) then [] else default [] (ls !! Z.to_nat c)) clusters).

Definition ann_search (x : IvfflatIndex) (query : list float32) (limit : Z) : option (list RID) :=
  if negb x.(inited) || bool_decide (x.(centroids) = []) then Some [] else
  if negb (zlen query =? x.(dim)) then Some [] else
  nearest_clusters ← find_nearest_centroids x query x.(probes);
  let candidates := (fun item => (item.(item_rid), compute_distance x.(distance_method) query item.(vec))) <$>
    cluster_items x.(inverted_lists) nearest_clusters in
  candidates ← sort_by snd candidates;
  let candidates := if limit <? zlen candidates then take (Z.to_nat limit) candidates else candidates in
  Some candidates.*1.

(** [IvfflatIndexScanner]: the chosen clusters with their distances and the position. *)
Record IvfflatIndexScanner := mkScanner {
  cluster_distances : list (float32 * Z);
  scanned_lists : list (list IvfflatListItem);
  scan_probes : Z;
  current_probe : nat;
  current_offset : nat
}.

Definition open_scanner (x : IvfflatIndex) (query : list float32) (probes : Z) : option IvfflatIndexScanner :=
  distances ← sort_by fst (centroid_distances x.(distance_method) x.(centroids) query);
  distances ← (if probes <? zlen distances then (if probes <? 0 then None else Some (take (Z.to_nat probes) distances))
               else Some distances);
  Some (mkScanner distances x.(inverted_lists) probes 0 0).

(** The loop of [next_entry] over the clusters that are left. *)
Fixpoint next_loop (ls : list (list IvfflatListItem)) (rest : list (float32 * Z)) (probe offset : nat) : option RID * nat * nat :=
  match rest with
  | [] => (None, probe, offset)
  | (_, cluster_id) :: rest' =>
      if (cluster_id <? 0) || (zlen ls <=? cluster_id) then next_loop ls rest' (S probe) 0
      else
        match default [] (ls !! Z.to_nat cluster_id) !! offset with
        | Some item => (Some item.(item_rid), probe, S offset)
        | None => next_loop ls rest' (S probe) 0
        end
  end.

Definition scanner_next (s : IvfflatIndexScanner) : RC * option RID * IvfflatIndexScanner :=
  let rest := drop s.(current_probe) (take (Z.to_nat s.(scan_probes)) s.(cluster_distances)) in
  let '(rid, probe, offset) := next_loop s.(scanned_lists) rest s.(current_probe) s.(current_offset) in
  (if rid then SUCCESS else RECORD_EOF, rid, mkScanner s.(cluster_distances) s.(scanned_lists) s.(scan_probes) probe offset).

(** The index as the operators see it: [create_scanner] returns [nullptr]. *)
Definition vector_index (x : IvfflatIndex) : Exec.Index :=
  Exec.mkIndex true unit (fun _ => None) (fun _ => (RECORD_EOF, mkRID 0 0, tt))
    (Some (fun query limit => default [] (ann_search x query limit))).
End search.

(** ** Training *)

Section training.
Context `{RandomSource}.

(** The initial centroids: vectors drawn from the data, which has [n] draws before it. *)
Definition draw (all_vectors : list (list float32)) (k : nat) : option (list float32) :=
  all_vectors !! Z.to_nat (dis (zlen all_vectors) k).

Definition initial_centroids (all_vectors : list (list float32)) (lists : nat) : option (list (list float32)) :=
  mapM (draw all_vectors) (seq 0 lists).

(** Sums and counts of the clusters: [new_centroids] and [counts]. *)

Definition add_vector (sums : list (list float32 * Z)) (v : list float32) (c : Z) : list (list float32 * Z) :=
  if (c <? 0) || (zlen sums <=? c) then sums
  else alter (fun '(s, n) => (zip_with fadd s v, n + 1)) (Z.to_nat c) sums.

Fixpoint sum_clusters (all_vectors : list (list float32)) (assignments : list Z) (sums : list (list float32 * Z)) : list (list float32 * Z) :=
  match all_vectors, assignments with
  | v :: vs, c :: cs => sum_clusters vs cs (add_vector sums v c)
  | _, _ => sums
  end.

(** The means, and a vector drawn anew for an empty cluster; [k] draws were made before. *)
Fixpoint update_centroids (all_vectors : list (list float32)) (sums : list (list float32 * Z)) (k : nat) : option (list (list float32) * nat) :=
  match sums with
  | [] => Some ([], k)
  | (s, n) :: sums' =>
      if 0 <? n then '(cs, k') ← update_centroids all_vectors sums' k; Some (map (fun f => fdiv f (float_of_int n)) s :: cs, k')
      else v ← draw all_vectors k; '(cs, k') ← update_centroids all_vectors sums' (S k); Some (v :: cs, k')
  end.

(** The loop of [train_kmeans]; [iterations] are left. *)
Fixpoint kmeans_loop (method : list Z) (dim : nat) (all_vectors : list (list float32)) (iterations : nat)
    (cs : list (list float32)) (assignments : list Z) (k : nat) : option (list (list float32)) :=
  match iterations with
  | O => Some cs
  | S iterations' =>
      let new_assignments := map (nearest method cs) all_vectors in
      if bool_decide (new_assignments = assignments) then Some cs
      else
        let sums := sum_clusters all_vectors new_assignments (replicate (length cs) (replicate dim f_zero, 0)) in
        '(cs', k') ← update_centroids all_vectors sums k;
        kmeans_loop method dim all_vectors iterations' cs' new_assignments k'
  end.

Definition with_centroids (x : IvfflatIndex) (cs : list (list float32)) : IvfflatIndex :=
  mkIvf x.(inited) x.(field_offset) x.(dim) x.(distance_method) x.(lists) x.(probes) cs x.(inverted_lists).

Definition train_kmeans (x : IvfflatIndex) (all_vectors : list (list float32)) (lists : Z) : option (RC * IvfflatIndex) :=
  if bool_decide (all_vectors = []) || (lists <=? 0) then Some (INVALID_ARGUMENT, x) else
  cs ← initial_centroids all_vectors (Z.to_nat lists);
  cs ← kmeans_loop x.(distance_method) (Z.to_nat x.(dim)) all_vectors 20 cs (replicate (length all_vectors) 0) (Z.to_nat lists);
  Some (SUCCESS, with_centroids x cs).
End training.

(** ** The file *)

(** The bytes of a vector in memory. *)
Definition vector_bytes (v : list float32) : list Z := concat (map (fun f => le_bytes 4 (bits_of_float f)) v).
Definition item_bytes (item : IvfflatListItem) : list Z :=
  vector_bytes item.(vec) ++ le_bytes 4 item.(item_rid).(page_num) ++ le_bytes 4 item.(item_rid).(slot_num).
Definition list_bytes (l : list IvfflatListItem) : list Z := le_bytes 8 (zlen l) ++ concat (map item_bytes l).

Definition file_bytes (x : IvfflatIndex) : list Z :=
  le_bytes 4 x.(dim) ++ le_bytes 4 x.(lists) ++ le_bytes 4 x.(probes) ++
  le_bytes 8 (zlen x.(distance_method)) ++ x.(distance_method) ++
  concat (map vector_bytes x.(centroids)) ++ concat (map list_bytes x.(inverted_lists)).

(** [can_open]: whether the file can be opened; the new content of the file. *)
Definition save_to_file (can_open : bool) (x : IvfflatIndex) : RC * option (list Z) :=
  if can_open then (SUCCESS, Some (file_bytes x)) else (IOERR_OPEN, None).

(** An input stream: the bytes left, or [None] once a read was short.  [read] fills a buffer
    that holds [old]: all of it, or what there is, or nothing. *)
Definition Stream : Type := option (list Z).
Definition read (n : nat) (old : list Z) (s : Stream) : list Z * Stream :=
  match s with
  | None => (old, None)
  | Some l => if (n <=? length l)%nat then (take n l, Some (drop n l)) else (l ++ drop (length l) old, None)
  end.

Definition read_int32 (old : Z) (s : Stream) : Z * Stream :=
  let '(b, s) := read 4 (le_bytes 4 old) s in (int32 (le_value b), s).
Definition read_size (s : Stream) : Z * Stream :=
  let '(b, s) := read 8 (le_bytes 8 0) s in (uint64 (le_value b), s).

(** A vector that was resized to [dim] zeros. *)
Definition read_vector (dim : nat) (s : Stream) : list float32 * Stream :=
  let '(b, s) := read (4 * dim) (replicate (4 * dim) 0) s in (read_floats dim b, s).

Definition read_item (dim : nat) (s : Stream) : IvfflatListItem * Stream :=
  let '(v, s) := read_vector dim s in
  let '(b, s) := read 8 (replicate 8 0) s in
  (mkItem v (mkRID (int32 (le_value (take 4 b))) (int32 (le_value (drop 4 b)))), s).

Fixpoint read_times {X} (f : Stream -> X * Stream) (n : nat) (s : Stream) : list X * Stream :=
  match n with O => ([], s) | S n' => let '(x, s) := f s in let '(l, s) := read_times f n' s in (x :: l, s) end.

(** [resize(n)] of a container whose elements have [size] bytes. *)
Definition resizable (n size : Z) : bool := (0 <=? n) && (n * size <? 2 ^ 63).

Fixpoint read_lists (dim n : nat) (s : Stream) : option (list (list IvfflatListItem) * Stream) :=
  match n with
  | O => Some ([], s)
  | S n' =>
      let '(list_size, s) := read_size s in
      if resizable list_size 32 then
        let '(l, s) := read_times (read_item dim) (Z.to_nat list_size) s in
        '(ls, s) ← read_lists dim n' s; Some (l :: ls, s)
      else None
  end.

(** On an index without centroids and lists, a new or closed one. *)
Definition load_from_file (x : IvfflatIndex) (file : option (list Z)) : option (RC * IvfflatIndex) :=
  match file with
  | None => Some (IOERR_OPEN, x)
  | Some bytes =>
      let '(dim, s) := read_int32 x.(dim) (Some bytes) in
      let '(lists, s) := read_int32 x.(lists) s in
      let '(probes, s) := read_int32 x.(probes) s in
      let '(method_len, s) := read_size s in
      if negb (resizable method_len 1) then None else
      let '(method, s) := read (Z.to_nat method_len) (replicate (Z.to_nat method_len) 0) s in
      if (lists <? 0) || ((dim <? 0) && (0 <? lists)) then None else
      let '(cs, s) := read_times (read_vector (Z.to_nat dim)) (Z.to_nat lists) s in
      '(ls, _) ← read_lists (Z.to_nat dim) (Z.to_nat lists) s;
      Some (SUCCESS, mkIvf x.(inited) x.(field_offset) dim method lists probes cs ls)
  end.

(** [open]; of the metadata the distance method, [lists] and [probes].  The index counts as
    initialised even if the file cannot be loaded. *)
Definition open (x : IvfflatIndex) (file : option (list Z)) (field_meta : FieldMeta) (method : list Z) (lists probes : Z) :
    option (RC * IvfflatIndex) :=
  if x.(inited) then Some (INTERNAL, x) else
  let probes := if probes <? 1 then 1 else probes in
  let method := if bool_decide (method = []) then text "euclidean" else method in
  load_from_file (mkIvf true field_meta.(attr_offset) (field_meta.(attr_len) / 4) method lists probes x.(centroids) x.(inverted_lists)) file.

(** ** Creation *)

Section creation.
Context `{RandomSource}.

(** The loop that puts the vectors in their lists. *)
Fixpoint fill_lists (x : IvfflatIndex) (items : list IvfflatListItem) (ls : list (list IvfflatListItem)) :
    option (list (list IvfflatListItem)) :=
  match items with
  | [] => Some ls
  | item :: items' =>
      let cluster_id := find_nearest_centroid x item.(vec) in
      let cluster_id := if (cluster_id <? 0) || (x.(lists) <=? cluster_id) then 0 else cluster_id in
      ls' ← push_back ls cluster_id item; fill_lists x items' ls'
  end.

(** [create] with the outcome of opening the record scanner: an error, or the records of its
    loop and the code that ended it.  The result has the bytes written to the file. *)
Definition create (x : IvfflatIndex) (can_open : bool) (field_meta : FieldMeta) (method : list Z) (lists probes : Z)
    (scanned : RC + RC * list (RID * list Z)) : option (RC * IvfflatIndex * option (list Z)) :=
  if x.(inited) then Some (INTERNAL, x, None) else
  if negb (bool_decide (field_meta.(field_type) = VECTORS)) then Some (INVALID_ARGUMENT, x, None) else
  let x := mkIvf false field_meta.(attr_offset) (field_meta.(attr_len) / 4) method lists probes x.(centroids) x.(inverted_lists) in
  if lists <? 1 then Some (INVALID_ARGUMENT, x, None) else
  let probes := if probes <? 1 then 1 else probes in
  let probes := if lists <? probes then lists else probes in
  let method := if bool_decide (method = []) then text "euclidean" else method in
  let x := mkIvf false x.(field_offset) x.(dim) method lists probes x.(centroids) x.(inverted_lists) in
  match scanned with
  | inl rc => Some (rc, x, None)
  | inr (rc, records) =>
      let items := base.filter (fun item => item.(vec) <> []) ((fun r => mkItem (extract_vector x r.2) r.1) <$> records) in
      if negb (bool_decide (rc = RECORD_EOF)) then Some (rc, x, None) else
      if bool_decide (items = []) then
        let n := Z.to_nat lists in
        let x := mkIvf true x.(field_offset) x.(dim) method lists probes
          (replicate n (replicate (Z.to_nat x.(dim)) f_zero)) (take n (x.(inverted_lists) ++ replicate n [])) in
        let '(rc, file) := save_to_file can_open x in Some (rc, x, file)
      else
        let lists := if zlen items <? lists then zlen items else lists in
        let x := mkIvf false x.(field_offset) x.(dim) method lists probes x.(centroids) x.(inverted_lists) in
        '(rc, x) ← train_kmeans x (vec <$> items) lists;
        if OB_FAIL rc then Some (rc, x, None) else
        ls ← fill_lists x items (replicate (Z.to_nat lists) []);
        let x := mkIvf true x.(field_offset) x.(dim) method lists probes x.(centroids) ls in
        let '(rc, file) := save_to_file can_open x in Some (rc, x, file)
  end.
End creation.

(** ** The table engine *)

(** An [IvfflatIndex] behind the interface [Index] of the table engine. *)
#[export] Instance ivf_table_index : TableIndex IvfflatIndex := {
  index_insert := insert_entry; index_delete := delete_entry
}.
End IvfIndex.
Import IvfIndex.

(** The virtual calls of a table that has indexes of two classes. *)
#[export] Instance sum_table_index {X Y} `{TableIndex X} `{TableIndex Y} : TableIndex (X + Y) := {
  index_insert i record rid :=
    match i with
    | inl x => '(rc, x') ← index_insert x record rid; Some (rc, inl x')
    | inr y => '(rc, y') ← index_insert y record rid; Some (rc, inr y')
    end;
  index_delete i record rid :=
    match i with
    | inl x => '(rc, x') ← index_delete x record rid; Some (rc, inl x')
    | inr y => '(rc, y') ← index_delete y record rid; Some (rc, inr y')
    end
}.

(** [common::is_blank] *)
Definition is_blank_string (s : list Z) : bool := forallb (Expr.is_blank [32; 9; 10; 11; 12; 13]) (c_string s).

Section engine.
Context `{RandomSource} {X : Type} `{TableIndex X}.

(** [HeapTableEngine::create_vector_index] with a name that is not blank.  The scanner has
    no transaction, so that it shows every record.  The metadata file is not modelled. *)
Definition create_vector_index (fuel : nat) (can_open : bool) (t : HeapTable.HeapTableEngine (X + IvfflatIndex))
    (field_meta : FieldMeta) (distance_method : list Z) (lists probes : Z) :
    option (RC * HeapTable.HeapTableEngine (X + IvfflatIndex) * option (list Z)) :=
  if negb (bool_decide (field_meta.(field_type) = VECTORS)) then Some (INVALID_ARGUMENT, t, None) else
  let f := t.(HeapTable.record_handler) in
  let scanned := RecordFile.scan_all fuel f (fun _ => true) (fun _ => SUCCESS) (RecordFile.open_scan f) in
  let method := if is_blank_string distance_method then [] else c_string distance_method in
  let lists := if 0 <? lists then lists else 1 in
  let probes := if 0 <? probes then probes else 1 in
  '(rc, index, file) ← create new_index can_open field_meta method lists probes (inr scanned);
  if OB_FAIL rc then Some (rc, t, file)
  else Some (SUCCESS, HeapTable.mkTable f (t.(HeapTable.indexes) ++ [inr index]), file).
End engine.

(** ** The nearest centroid *)

Section nearest.
Context (method : list Z) (v : list float32).
#[local] Abbreviation dist := (compute_distance method v).

(** The loop returns [best_id] or the number of a nearer centroid, none being nearer. *)
Lemma nearest_loop_spec cs : forall i best_id best_dist,
  let r := nearest_loop method v cs i best_id best_dist in
  (r = best_id /\ (forall c, c ∈ cs -> SFltb (dist c) best_dist = false)) \/
  (exists j c, r = i + Z.of_nat j /\ cs !! j = Some c /\ SFltb (dist c) best_dist = true /\
     forall c', c' ∈ cs -> SFltb (dist c') (dist c) = false).
Proof.
  induction cs as [|c cs IH]; intros i b d; cbn [nearest_loop].
  { left. split; [done|]. by intros ? ?%not_elem_of_nil. }
  destruct (SFltb (dist c) d) eqn:E.
  - right. destruct (IH (i + 1) i (dist c)) as [[-> Hn]|(j & c' & -> & Hj & Hlt & Hn)].
    + exists O, c. split_and!; [lia|done|done|]. intros c' [->|Hin]%elem_of_cons; [apply SFltb_irrefl|auto].
    + exists (S j), c'. split_and!; [lia|done|by eapply SFltb_trans|]. intros c'' [->|Hin]%elem_of_cons; [|auto].
      apply not_true_iff_false. intros H. pose proof (SFltb_trans _ _ _ H Hlt) as Hc. by rewrite SFltb_irrefl in Hc.
  - destruct (IH (i + 1) b d) as [[-> Hn]|(j & c' & -> & Hj & Hlt & Hn)].
    + left. split; [done|]. intros c' [->|Hin]%elem_of_cons; auto.
    + right. exists (S j), c'. split_and!; [lia|done|done|]. intros c'' [->|Hin]%elem_of_cons; [|auto].
      apply not_true_iff_false. intros H. by rewrite (SFltb_trans _ _ _ H Hlt) in E.
Qed.

(** The number of a centroid that is nearest, or -1 if none is nearer than [FLT_MAX]. *)
Lemma nearest_spec cs : cs <> [] ->
  (nearest method cs v = -1 /\ forall c, c ∈ cs -> SFltb (dist c) FLT_MAX = false) \/
  (exists j c, nearest method cs v = Z.of_nat j /\ cs !! j = Some c /\ SFltb (dist c) FLT_MAX = true /\
     forall c', c' ∈ cs -> SFltb (dist c') (dist c) = false).
Proof.
  intros Hne. unfold nearest. rewrite bool_decide_false by done.
  destruct (nearest_loop_spec cs 0 (-1) FLT_MAX) as [?|(j & c & -> & ?)]; [by left|]. right. by exists j, c.
Qed.

Lemma nearest_range cs : cs <> [] -> nearest method cs v = -1 \/ 0 <= nearest method cs v < zlen cs.
Proof.
  intros Hne. destruct (nearest_spec cs Hne) as [[-> _]|(j & c & -> & Hj & _)]; [by left|]. right.
  apply lookup_lt_Some in Hj. unfold zlen. lia.
Qed.
End nearest.

(** ** The invariant *)

(** The list a vector belongs to. *)
Definition cluster_of (x : IvfflatIndex) (v : list float32) : nat := Z.to_nat (find_nearest_centroid x v).

(** A vector that can be deleted again: some centroid is nearer than [FLT_MAX]. *)
Definition has_cluster (x : IvfflatIndex) (v : list float32) : bool := 0 <=? find_nearest_centroid x v.

(** All vectors of the index. *)
Definition entries (x : IvfflatIndex) : list IvfflatListItem := concat x.(inverted_lists).

Record ivf_ok (x : IvfflatIndex) : Prop := {
  ok_inited : x.(inited) = true;
  ok_dim : 0 < x.(dim);
  ok_centroids : x.(centroids) <> [];
  ok_centroid_dims : Forall (fun c => length c = Z.to_nat x.(dim)) x.(centroids);
  ok_lists : length x.(inverted_lists) = length x.(centroids);
  ok_dims : Forall (fun item => length item.(vec) = Z.to_nat x.(dim)) (entries x);
  ok_placed : forall i l, x.(inverted_lists) !! i = Some l -> Forall (fun item => cluster_of x item.(vec) = i) l;
  ok_probes : 1 <= x.(probes)
}.

(** The guard on the number of the cluster fails exactly for -1. *)
Lemma cluster_guard x v : ivf_ok x ->
  (find_nearest_centroid x v <? 0) || (zlen x.(inverted_lists) <=? find_nearest_centroid x v) = negb (has_cluster x v) /\
  Z.to_nat (if negb (has_cluster x v) then 0 else find_nearest_centroid x v) = cluster_of x v /\
  is_Some (x.(inverted_lists) !! cluster_of x v).
Proof.
  intros Hok. destruct (nearest_range x.(distance_method) v x.(centroids) (ok_centroids _ Hok)) as [E|Hr];
    unfold has_cluster, cluster_of, find_nearest_centroid, zlen in *; rewrite (ok_lists _ Hok).
  - rewrite E. split_and!; [done..|]. apply lookup_lt_is_Some. rewrite (ok_lists _ Hok).
    destruct (centroids x) eqn:Ec; [by destruct (ok_centroids _ Hok)|cbn; lia].
  - rewrite (proj2 (Z.leb_le 0 _)), (proj2 (Z.ltb_ge _ 0)), (proj2 (Z.leb_gt _ _)) by lia. split_and!; [done..|].
    apply lookup_lt_is_Some. rewrite (ok_lists _ Hok). lia.
Qed.

Lemma read_floats_length n data : length (read_floats n data) = n.
Proof. revert data. induction n as [|n IH]; intros data; cbn; [done|]. by rewrite IH. Qed.

Lemma extract_length x record : length (extract_vector x record) = Z.to_nat x.(dim).
Proof. apply read_floats_length. Qed.

Lemma extract_nonempty x record : 0 < x.(dim) -> extract_vector x record <> [].
Proof. intros Hd E%(f_equal length). rewrite extract_length in E. cbn in E. lia. Qed.

(** Another set of lists whose items all belong where they are. *)
Lemma with_lists_ok x ls : ivf_ok x -> length ls = length x.(inverted_lists) ->
  (forall i l, ls !! i = Some l -> Forall (fun item => length item.(vec) = Z.to_nat x.(dim) /\ cluster_of x item.(vec) = i) l) ->
  ivf_ok (with_lists x ls).
Proof.
  intros [] Hl Hf. split; cbn; try done; [by rewrite Hl| |].
  - apply Forall_concat, Forall_lookup. intros i l Hi. eapply Forall_impl; [by apply (Hf i)|]. by intros ? [? _].
  - intros i l Hi. eapply Forall_impl; [by apply (Hf i)|]. by intros ? [_ ?].
Qed.

Lemma ok_items x i l : ivf_ok x -> x.(inverted_lists) !! i = Some l ->
  Forall (fun item => length item.(vec) = Z.to_nat x.(dim) /\ cluster_of x item.(vec) = i) l.
Proof.
  intros Hok Hi. apply Forall_and. split; [|by apply ok_placed].
  pose proof (ok_dims _ Hok) as Hd. apply Forall_concat in Hd. by eapply Forall_lookup_1 in Hd.
Qed.

(** A list of the index replaced, as the operations do. *)
Lemma replace_list_ok x i l' : ivf_ok x ->
  Forall (fun item => length item.(vec) = Z.to_nat x.(dim) /\ cluster_of x item.(vec) = i) l' ->
  ivf_ok (with_lists x (<[i := l']> x.(inverted_lists))).
Proof.
  intros Hok Hf. apply with_lists_ok; [done|by rewrite length_insert|]. intros j l Hj.
  apply list_lookup_insert_Some in Hj as [(<- & <- & _)|[_ Hj]]; [done|by apply ok_items].
Qed.

Lemma concat_replace {X} (ls : list (list X)) i l l' : ls !! i = Some l ->
  exists rest, concat ls ≡ₚ l ++ rest /\ concat (<[i := l']> ls) ≡ₚ l' ++ rest.
Proof.
  intros Hi. exists (concat (take i ls) ++ concat (drop (S i) ls)). split.
  - rewrite <- (take_drop_middle _ _ _ Hi) at 1. rewrite concat_app. cbn. solve_Permutation.
  - rewrite insert_take_drop by by eapply lookup_lt_Some. rewrite concat_app. cbn. solve_Permutation.
Qed.

(** ** Insertion and deletion *)

Lemma ivf_insert_ok x record rid : ivf_ok x -> exists x', insert_entry x record rid = Some (SUCCESS, x') /\ ivf_ok x' /\
  x' = with_lists x x'.(inverted_lists) /\ entries x' ≡ₚ mkItem (extract_vector x record) rid :: entries x.
Proof.
  intros Hok. pose proof (ok_dim _ Hok). destruct (cluster_guard x (extract_vector x record) Hok) as (Hg & Hc & [l Hl]).
  unfold insert_entry. rewrite (ok_inited _ Hok). cbn [negb]. rewrite bool_decide_false by by apply extract_nonempty.
  rewrite Hg. unfold push_back. rewrite Hc, Hl. cbn. eexists. split_and!; [done| |done|].
  - apply replace_list_ok; [done|]. apply Forall_app. split; [by apply ok_items|].
    apply Forall_singleton. cbn. by rewrite extract_length.
  - unfold entries. cbn. destruct (concat_replace _ _ _ (l ++ [mkItem (extract_vector x record) rid]) Hl) as (rest & -> & ->).
    solve_Permutation.
Qed.

Lemma erase_rid_spec rid l : match erase_rid rid l with
  | Some l' => exists item, item ∈ l /\ item.(item_rid) = rid /\ l ≡ₚ item :: l' /\ forall P : IvfflatListItem -> Prop, Forall P l -> Forall P l'
  | None => rid ∉ item_rid <$> l
  end.
Proof.
  induction l as [|item l IH]; cbn [erase_rid]; [apply not_elem_of_nil|]. destruct (decide _) as [E|E].
  - exists item. split_and!; [left|done|done|]. by intros P [_ ?]%Forall_cons.
  - destruct (erase_rid rid l) as [l'|]; cbn.
    + destruct IH as (item' & Hin & Hr & Hp & Hf). exists item'. split_and!; [by right|done|rewrite Hp; constructor|].
      intros P [? ?]%Forall_cons. constructor; auto.
    + by apply not_elem_of_cons.
Qed.

(** The code of a deletion. *)
Definition delete_code (x : IvfflatIndex) (v : list float32) (rid : RID) : RC :=
  if negb (has_cluster x v) then INVALID_ARGUMENT
  else if decide (rid ∈ item_rid <$> entries x) then SUCCESS else RECORD_NOT_EXIST.

Lemma elem_of_entries x item : item ∈ entries x <-> exists i l, x.(inverted_lists) !! i = Some l /\ item ∈ l.
Proof.
  unfold entries. rewrite list_elem_of_In, in_concat. setoid_rewrite <- list_elem_of_In. split.
  - intros (l & (i & Hi)%list_elem_of_lookup & Hin). by exists i, l.
  - intros (i & l & Hi & Hin). exists l. split; [|done]. by eapply list_elem_of_lookup_2.
Qed.

Lemma ok_cluster x item : ivf_ok x -> item ∈ entries x ->
  exists l, x.(inverted_lists) !! cluster_of x item.(vec) = Some l /\ item ∈ l.
Proof.
  intros Hok (i & l & Hi & Hin)%elem_of_entries. exists l. split; [|done].
  pose proof (ok_placed _ Hok _ _ Hi) as Hf. rewrite Forall_forall in Hf. by rewrite (Hf _ Hin).
Qed.

(** The items without a location. *)
Definition without (rid : RID) (es : list IvfflatListItem) : list IvfflatListItem := base.filter (fun item => item.(item_rid) <> rid) es.

Lemma without_absent rid es : rid ∉ item_rid <$> es -> without rid es = es.
Proof.
  intros Hni. apply filter_all. apply Forall_forall. intros item Hin E. apply Hni. apply list_elem_of_fmap. by exists item.
Qed.

Lemma without_first rid item rest : item.(item_rid) = rid -> NoDup (item_rid <$> item :: rest) -> without rid (item :: rest) = rest.
Proof.
  intros <- [Hni _]%NoDup_cons. unfold without. rewrite filter_cons_False by by intros []. by apply without_absent.
Qed.

Lemma ivf_delete_ok x record rid : ivf_ok x -> NoDup (item_rid <$> entries x) ->
  (forall item, item ∈ entries x -> item.(item_rid) = rid -> item.(vec) = extract_vector x record) ->
  let rc := delete_code x (extract_vector x record) rid in
  exists x', delete_entry x record rid = Some (rc, x') /\ ivf_ok x' /\ x' = with_lists x x'.(inverted_lists) /\
    entries x' ≡ₚ (if OB_SUCC rc then without rid (entries x) else entries x).
Proof.
  intros Hok Hnd Hsame rc. pose proof (ok_dim _ Hok). set (v := extract_vector x record) in *.
  destruct (cluster_guard x v Hok) as (Hg & Hc & [l Hl]). unfold delete_entry. fold v. rewrite (ok_inited _ Hok). cbn [negb].
  rewrite bool_decide_false by by apply extract_nonempty. rewrite Hg. unfold rc, delete_code.
  destruct (has_cluster x v) eqn:Ehc; cbn [negb] in *.
  2:{ exists x. split_and!; [done|done|by destruct x|done]. }
  unfold cluster_of in Hl. rewrite Hl. cbn [mbind option_bind]. pose proof (erase_rid_spec rid l) as He. destruct (erase_rid rid l) as [l'|].
  - destruct He as (item & Hin & Hr & Hp & Hf). destruct (concat_replace _ _ _ l' Hl) as (rest & Hall & Hrest). fold (entries x) in Hall.
    assert (entries x ≡ₚ item :: (l' ++ rest)) as He by by rewrite Hall, Hp.
    rewrite decide_True. 2:{ apply list_elem_of_fmap. exists item. split; [done|]. rewrite He. left. }
    eexists. split_and!; [done| |done|].
    + apply replace_list_ok; [done|]. apply Hf. by apply ok_items.
    + replace (OB_SUCC SUCCESS) with true by done. unfold entries at 1. cbn [with_lists inverted_lists]. rewrite Hrest. transitivity (without rid (item :: l' ++ rest)).
      * by rewrite without_first by by rewrite <- ?He.
      * unfold without. by rewrite He.
  - rewrite decide_False. { exists x. split_and!; [done|done|by destruct x|done]. }
    intros (item & -> & Hin)%list_elem_of_fmap. destruct (ok_cluster x item Hok Hin) as (l2 & Hl2 & Hin2).
    rewrite (Hsame item Hin eq_refl) in Hl2. unfold cluster_of in Hl2. rewrite Hl in Hl2. injection Hl2 as <-. apply He.
    apply list_elem_of_fmap. by exists item.
Qed.

(** ** Histories of insertions and deletions *)

Inductive IvfOp := IvfInsert (record : list Z) (rid : RID) | IvfDelete (record : list Z) (rid : RID).

Definition run_op (x : IvfflatIndex) (op : IvfOp) : option (RC * IvfflatIndex) :=
  match op with IvfInsert d rid => insert_entry x d rid | IvfDelete d rid => delete_entry x d rid end.

Fixpoint run_ops (x : IvfflatIndex) (ops : list IvfOp) : option (list RC * IvfflatIndex) :=
  match ops with
  | [] => Some ([], x)
  | op :: ops' => '(rc, x') ← run_op x op; '(rcs, x'') ← run_ops x' ops'; Some (rc :: rcs, x'')
  end.

(** The specification: a collection of vectors with locations.  Of the index it needs the
    shape of the records and which vectors have a cluster. *)
Definition spec_op (x : IvfflatIndex) (es : list IvfflatListItem) (op : IvfOp) : RC * list IvfflatListItem :=
  match op with
  | IvfInsert d rid => (SUCCESS, mkItem (extract_vector x d) rid :: es)
  | IvfDelete d rid =>
      if negb (has_cluster x (extract_vector x d)) then (INVALID_ARGUMENT, es)
      else if decide (rid ∈ item_rid <$> es) then (SUCCESS, without rid es) else (RECORD_NOT_EXIST, es)
  end.

Fixpoint spec_ops (x : IvfflatIndex) (es : list IvfflatListItem) (ops : list IvfOp) : list RC * list IvfflatListItem :=
  match ops with
  | [] => ([], es)
  | op :: ops' => let '(rc, es') := spec_op x es op in let '(rcs, es'') := spec_ops x es' ops' in (rc :: rcs, es'')
  end.

(** How a table calls the index: a location is inserted once, and deleted with its record. *)
Definition op_ok (x : IvfflatIndex) (es : list IvfflatListItem) (op : IvfOp) : Prop :=
  match op with
  | IvfInsert _ rid => rid ∉ item_rid <$> es
  | IvfDelete d rid => Forall (fun item => item.(item_rid) = rid -> item.(vec) = extract_vector x d) es
  end.

Fixpoint history_ok (x : IvfflatIndex) (es : list IvfflatListItem) (ops : list IvfOp) : Prop :=
  match ops with [] => True | op :: ops' => op_ok x es op /\ history_ok x (spec_op x es op).2 ops' end.

Lemma run_op_ok x op : ivf_ok x -> NoDup (item_rid <$> entries x) -> op_ok x (entries x) op ->
  exists x', run_op x op = Some ((spec_op x (entries x) op).1, x') /\ ivf_ok x' /\ x' = with_lists x x'.(inverted_lists) /\
    entries x' ≡ₚ (spec_op x (entries x) op).2 /\ NoDup (item_rid <$> entries x').
Proof.
  intros Hok Hnd Hop. destruct op as [d rid|d rid]; cbn in *.
  - destruct (ivf_insert_ok x d rid Hok) as (x' & -> & Hx' & Hw & Hp). exists x'. split_and!; [done..|]. rewrite Hp. by apply NoDup_cons.
  - rewrite Forall_forall in Hop. destruct (ivf_delete_ok x d rid Hok Hnd) as (x' & -> & Hx' & Hw & Hp); [eauto|].
    unfold delete_code in *. exists x'.
    assert (NoDup (item_rid <$> without rid (entries x))) by (eapply sublist_NoDup; [exact Hnd|apply fmap_sublist, sublist_filter]).
    destruct (negb _); [|destruct (decide _)]; split_and!; try done; by rewrite Hp.
Qed.

(** The specification does not depend on the order of the collection, nor on the lists. *)
Lemma spec_op_perm x ls es es' op : es ≡ₚ es' ->
  (spec_op x es op).1 = (spec_op (with_lists x ls) es' op).1 /\ (spec_op x es op).2 ≡ₚ (spec_op (with_lists x ls) es' op).2.
Proof.
  intros Hp. destruct op as [d rid|d rid]; cbn; [split; [done|]; by rewrite Hp|].
  change (has_cluster (with_lists x ls) _) with (has_cluster x (extract_vector x d)). destruct (negb _); [done|].
  destruct (decide (rid ∈ item_rid <$> es)) as [Hin|Hin]; rewrite Hp in Hin;
    [rewrite decide_True by done|rewrite decide_False by done]; split; try done. cbn. unfold without. by rewrite Hp.
Qed.

Lemma op_ok_perm x ls es es' op : es ≡ₚ es' -> op_ok x es op -> op_ok (with_lists x ls) es' op.
Proof. intros Hp. destruct op as [d rid|d rid]; cbn; by rewrite Hp. Qed.

Lemma spec_ops_perm x ls es es' ops : es ≡ₚ es' ->
  (spec_ops x es ops).1 = (spec_ops (with_lists x ls) es' ops).1 /\ (spec_ops x es ops).2 ≡ₚ (spec_ops (with_lists x ls) es' ops).2.
Proof.
  revert es es'. induction ops as [|op ops IH]; intros es es' Hp; cbn; [done|].
  destruct (spec_op_perm x ls es es' op Hp) as [H1 H2]. destruct (spec_op x es op) as [rc es1], (spec_op _ es' op) as [rc' es1'].
  cbn in H1, H2. subst rc'. specialize (IH _ _ H2). destruct (spec_ops x es1 ops), (spec_ops _ es1' ops). cbn in *.
  destruct IH as [-> ?]. done.
Qed.

Lemma history_ok_perm x ls es es' ops : es ≡ₚ es' -> history_ok x es ops -> history_ok (with_lists x ls) es' ops.
Proof.
  revert es es'. induction ops as [|op ops IH]; intros es es' Hp; cbn; [done|]. intros [Hop Hh]. split; [by eapply op_ok_perm|].
  eapply IH; [|exact Hh]. by apply spec_op_perm.
Qed.

Lemma run_ops_ok ops : forall x, ivf_ok x -> NoDup (item_rid <$> entries x) -> history_ok x (entries x) ops ->
  exists x', run_ops x ops = Some ((spec_ops x (entries x) ops).1, x') /\ ivf_ok x' /\ x' = with_lists x x'.(inverted_lists) /\
    entries x' ≡ₚ (spec_ops x (entries x) ops).2.
Proof.
  induction ops as [|op ops IH]; intros x Hok Hnd; cbn [run_ops history_ok spec_ops].
  { intros _. exists x. split_and!; [done|done|by destruct x|done]. }
  intros [Hop Hh]. destruct (run_op_ok x op Hok Hnd Hop) as (x1 & -> & Hok1 & Hw & Hp & Hnd1). cbn [mbind option_bind].
  destruct (spec_op x (entries x) op) as [rc es]. cbn [fst snd] in *.
  destruct (IH x1 Hok1 Hnd1) as (x' & -> & Hok' & Hw' & Hp').
  { rewrite Hw. eapply history_ok_perm; [|exact Hh]. by rewrite <- Hw. }
  destruct (spec_ops_perm x x1.(inverted_lists) es (entries x1) ops (symmetry Hp)) as [E1 E2]. rewrite <- Hw in E1, E2.
  destruct (spec_ops x es ops) as [rcs es2]. cbn [fst snd mbind option_bind] in *. exists x'. split_and!; [by rewrite E1|done| |by rewrite Hp', E2].
  rewrite Hw', Hw. by destruct x.
Qed.

(** ** Training and creation *)

Section creation_laws.
Context `{RandomSource}.

Lemma draw_ok (P : list float32 -> Prop) all_vectors k : all_vectors <> [] -> Forall P all_vectors ->
  exists v, draw all_vectors k = Some v /\ P v.
Proof.
  intros Hne Hf. assert (0 < zlen all_vectors) as Hl by (destruct all_vectors; [done|unfold zlen; cbn; lia]).
  pose proof (dis_range (zlen all_vectors) k Hl) as Hd. unfold draw.
  destruct (lookup_lt_is_Some_2 all_vectors (Z.to_nat (dis (zlen all_vectors) k))) as [v Hv]; [unfold zlen in *; lia|].
  exists v. split; [done|]. by eapply Forall_lookup_1.
Qed.

Lemma initial_centroids_ok P all_vectors n : all_vectors <> [] -> Forall P all_vectors ->
  exists cs, initial_centroids all_vectors n = Some cs /\ length cs = n /\ Forall P cs.
Proof.
  intros Hne Hf. unfold initial_centroids. generalize O as k. induction n as [|n IH]; intros k; cbn; [by exists []|].
  destruct (draw_ok P all_vectors k Hne Hf) as (v & -> & Hv), (IH (S k)) as (cs & -> & Hl & Hcs). cbn.
  exists (v :: cs). split_and!; [done|cbn; by f_equal|by constructor].
Qed.

Definition sums_ok (dim : nat) (sums : list (list float32 * Z)) : Prop := Forall (fun sn => length sn.1 = dim) sums.

Lemma add_vector_ok dim sums v c : length v = dim -> sums_ok dim sums ->
  sums_ok dim (add_vector sums v c) /\ length (add_vector sums v c) = length sums.
Proof.
  intros Hv Hs. unfold add_vector. destruct (_ || _); [done|]. split; [|by rewrite length_alter].
  apply Forall_alter; [done|]. intros [s n] _ E. cbn in *. rewrite length_zip_with. lia.
Qed.

Lemma sum_clusters_ok dim vs : forall cs sums, Forall (fun v => length v = dim) vs -> sums_ok dim sums ->
  sums_ok dim (sum_clusters vs cs sums) /\ length (sum_clusters vs cs sums) = length sums.
Proof.
  induction vs as [|v vs IH]; intros [|c cs] sums Hvs Hs; cbn; try done. apply Forall_cons in Hvs as [Hv Hvs].
  destruct (add_vector_ok dim sums v c Hv Hs) as [Ha Hl]. destruct (IH cs _ Hvs Ha) as [? ->]. by rewrite Hl.
Qed.

Lemma update_centroids_ok dim all_vectors sums : forall k, all_vectors <> [] -> Forall (fun v => length v = dim) all_vectors ->
  sums_ok dim sums -> exists cs k', update_centroids all_vectors sums k = Some (cs, k') /\ length cs = length sums /\
    Forall (fun c => length c = dim) cs.
Proof.
  induction sums as [|[s n] sums IH]; intros k Hne Hf; cbn [update_centroids]; [by exists [], k|]. intros [Hs Hsums]%Forall_cons.
  destruct (0 <? n).
  - destruct (IH k Hne Hf Hsums) as (cs & k' & -> & Hl & Hcs). eexists _, k'. split_and!; [done|cbn; by f_equal|].
    constructor; [by rewrite length_map|done].
  - destruct (draw_ok _ all_vectors k Hne Hf) as (v & -> & Hv), (IH (S k) Hne Hf Hsums) as (cs & k' & -> & Hl & Hcs).
    eexists _, k'. split_and!; [done|cbn; by f_equal|by constructor].
Qed.

(** Training ends and keeps the number and the size of the centroids. *)
Lemma kmeans_loop_ok method dim all_vectors iterations : all_vectors <> [] -> Forall (fun v => length v = dim) all_vectors ->
  forall cs assignments k, Forall (fun c => length c = dim) cs ->
  exists cs', kmeans_loop method dim all_vectors iterations cs assignments k = Some cs' /\ length cs' = length cs /\
    Forall (fun c => length c = dim) cs'.
Proof.
  intros Hne Hf. induction iterations as [|n IH]; intros cs assignments k Hcs; cbn [kmeans_loop]; [by exists cs|].
  destruct (bool_decide _); [by exists cs|].
  destruct (sum_clusters_ok dim all_vectors (map (nearest method cs) all_vectors)
    (replicate (length cs) (replicate dim f_zero, 0)) Hf) as [Hs Hl].
  { apply Forall_replicate. cbn. by rewrite length_replicate. }
  destruct (update_centroids_ok dim all_vectors _ k Hne Hf Hs) as (cs1 & k1 & -> & Hl1 & Hcs1). cbn [mbind option_bind].
  destruct (IH cs1 (map (nearest method cs) all_vectors) k1 Hcs1) as (cs' & -> & Hl' & ?). exists cs'. split_and!; [done| |done].
  by rewrite Hl', Hl1, Hl, length_replicate.
Qed.

Lemma train_kmeans_ok x all_vectors lists : all_vectors <> [] -> 1 <= lists -> 
  Forall (fun v => length v = Z.to_nat x.(dim)) all_vectors ->
  exists cs, train_kmeans x all_vectors lists = Some (SUCCESS, with_centroids x cs) /\ length cs = Z.to_nat lists /\
    Forall (fun c => length c = Z.to_nat x.(dim)) cs.
Proof.
  intros Hne Hl Hf. unfold train_kmeans. rewrite bool_decide_false, (proj2 (Z.leb_gt _ _)) by (done || lia). cbn [orb].
  destruct (initial_centroids_ok _ all_vectors (Z.to_nat lists) Hne Hf) as (cs0 & -> & Hl0 & Hcs0). cbn [mbind option_bind].
  edestruct kmeans_loop_ok as (cs & -> & Hl1 & Hcs); [exact Hne|exact Hf|exact Hcs0|]. exists cs. split_and!; [done|by rewrite Hl1|done].
Qed.

(** The lists that are filled: every item is in its list. *)
Definition lists_ok (x : IvfflatIndex) (ls : list (list IvfflatListItem)) : Prop :=
  forall i l, ls !! i = Some l -> Forall (fun item => length item.(vec) = Z.to_nat x.(dim) /\ cluster_of x item.(vec) = i) l.

Lemma fill_lists_ok x items : forall ls, x.(centroids) <> [] -> x.(lists) = zlen x.(centroids) -> length ls = length x.(centroids) ->
  Forall (fun item => length item.(vec) = Z.to_nat x.(dim)) items -> lists_ok x ls ->
  exists ls', fill_lists x items ls = Some ls' /\ length ls' = length ls /\ lists_ok x ls' /\ concat ls' ≡ₚ items ++ concat ls.
Proof.
  induction items as [|item items IH]; intros ls Hne Hl Hlen; cbn [fill_lists]; [intros _ Hls; by exists ls|].
  intros [Hd Hds]%Forall_cons Hls.
  assert (Z.to_nat (if (find_nearest_centroid x item.(vec) <? 0) || (x.(lists) <=? find_nearest_centroid x item.(vec)) then 0
    else find_nearest_centroid x item.(vec)) = cluster_of x item.(vec) /\ (cluster_of x item.(vec) < length ls)%nat) as [Hc Hin].
  { unfold cluster_of, find_nearest_centroid. rewrite Hl, Hlen. unfold zlen.
    destruct (nearest_range x.(distance_method) item.(vec) x.(centroids) Hne) as [->|Hr].
    - split; [done|]. destruct x.(centroids); [done|cbn; lia].
    - unfold zlen in Hr. rewrite (proj2 (Z.ltb_ge _ _)), (proj2 (Z.leb_gt _ _)) by lia. split; [done|lia]. }
  unfold push_back. rewrite Hc. destruct (lookup_lt_is_Some_2 _ _ Hin) as [l El]. rewrite El. cbn [mbind option_bind].
  destruct (IH (<[cluster_of x item.(vec) := l ++ [item]]> ls) Hne Hl) as (ls' & -> & Hl' & Hls' & Hp).
  - by rewrite length_insert.
  - done.
  - intros j k [(<- & <- & _)|[_ Hj]]%list_lookup_insert_Some; [|by apply Hls]. apply Forall_app. split; [by apply Hls|by apply Forall_singleton].
  - exists ls'. split_and!; [done|by rewrite Hl', length_insert|done|]. rewrite Hp.
    destruct (concat_replace _ _ _ (l ++ [item]) El) as (rest & -> & ->). cbn. solve_Permutation.
Qed.

Lemma concat_empty {X} n : concat (replicate n (@nil X)) = [].
Proof. by induction n. Qed.

(** The index with its lists filled. *)
Definition finished (x : IvfflatIndex) (ls : list (list IvfflatListItem)) : IvfflatIndex :=
  mkIvf true x.(field_offset) x.(dim) x.(distance_method) x.(lists) x.(probes) x.(centroids) ls.

Lemma finished_ok x items : 0 < x.(dim) -> x.(centroids) <> [] -> Forall (fun c => length c = Z.to_nat x.(dim)) x.(centroids) ->
  x.(lists) = zlen x.(centroids) -> 1 <= x.(probes) -> Forall (fun item => length item.(vec) = Z.to_nat x.(dim)) items ->
  exists ls, fill_lists x items (replicate (length x.(centroids)) []) = Some ls /\ ivf_ok (finished x ls) /\
    entries (finished x ls) ≡ₚ items.
Proof.
  intros Hd Hne Hcs Hl Hp Hds. destruct (fill_lists_ok x items (replicate (length x.(centroids)) [])) as (ls & E & Hl1 & Hl2 & Hl3);
    [done|done|by rewrite length_replicate|done|by intros i l [-> _]%lookup_replicate|].
  rewrite concat_empty, app_nil_r in Hl3. exists ls. split_and!; [done| |done]. split; cbn; try done.
  - by rewrite Hl1, length_replicate.
  - unfold entries. cbn. by rewrite Hl3.
  - intros i l Hi. eapply Forall_impl; [by apply (Hl2 i)|]. by intros ? [_ ?].
Qed.

(** The index that is built from the records of a scan. *)
Lemma create_ok can_open field_meta method ls ps records : field_meta.(field_type) = VECTORS -> 4 <= field_meta.(attr_len) -> 1 <= ls ->
  exists x, create new_index can_open field_meta method ls ps (inr (RECORD_EOF, records)) =
      Some (if can_open then SUCCESS else IOERR_OPEN, x, if can_open then Some (file_bytes x) else None) /\
    ivf_ok x /\ x.(lists) = zlen x.(centroids) /\ x.(lists) <= ls /\
    x.(field_offset) = field_meta.(attr_offset) /\ x.(dim) = field_meta.(attr_len) / 4 /\
    x.(distance_method) = (if bool_decide (method = []) then text "euclidean" else method) /\
    x.(probes) = (let p := if ps <? 1 then 1 else ps in if ls <? p then ls else p) /\
    entries x ≡ₚ (fun r => mkItem (extract_vector x r.2) r.1) <$> records.
Proof.
  intros Hty Hlen Hls. unfold create. cbn [inited new_index]. rewrite bool_decide_true by done. cbn [negb].
  rewrite (proj2 (Z.ltb_ge ls 1)) by done. cbn [dim centroids inverted_lists field_offset].
  change (centroids new_index) with (@nil (list float32)). change (inverted_lists new_index) with (@nil (list IvfflatListItem)).
  set (p := if ls <? _ then _ else _). set (m := if bool_decide (method = []) then _ else _).
  assert (0 < field_meta.(attr_len) / 4) as Hdim by (apply Z.div_str_pos; lia).
  assert (1 <= p) as Hp by (subst p; repeat case_match; lia).
  rewrite bool_decide_true by done. cbn [negb]. rewrite filter_all.
  2:{ apply Forall_fmap, Forall_true. intros r. cbn. by apply extract_nonempty. }
  set (x0 := mkIvf false field_meta.(attr_offset) (field_meta.(attr_len) / 4) m ls p [] []).
  set (items := (fun r => mkItem (extract_vector x0 r.2) r.1) <$> records).
  assert (Hds : Forall (fun item => length item.(vec) = Z.to_nat x0.(dim)) items) by
    (apply Forall_fmap, Forall_true; intros r; exact (extract_length x0 r.2)).
  destruct (decide (items = [])) as [Hi|Hi].
  - rewrite bool_decide_true by done. set (cs := replicate (Z.to_nat ls) _). rewrite app_nil_l, take_ge by by rewrite length_replicate.
    assert (length cs = Z.to_nat ls) as Hcl by apply length_replicate.
    destruct (finished_ok (with_centroids x0 cs) []) as (l' & E & Hok & He); cbn; try done.
    { intros ->. cbn in Hcl. lia. } { apply Forall_replicate. by rewrite length_replicate. } { unfold zlen. lia. }
    injection E as E. rewrite Hcl in E. rewrite E. eexists. split; [by destruct can_open|].
    split_and!; [exact Hok|unfold zlen; cbn; lia|done..|]. unfold items in Hi. apply fmap_nil_inv in Hi. subst records. exact He.
  - rewrite bool_decide_false by done. set (n := if zlen items <? ls then zlen items else ls).
    assert (1 <= n) as Hn. { assert (zlen items <> 0) by (destruct items; [done|unfold zlen; cbn; lia]). pose proof (zlen_pos items). subst n. case_match; lia. }
    set (x1 := mkIvf false field_meta.(attr_offset) (field_meta.(attr_len) / 4) m n p [] []).
    destruct (train_kmeans_ok x1 (vec <$> items) n) as (cs & -> & Hcl & Hcs); [by intros ?%fmap_nil_inv|done|by apply Forall_fmap|].
    cbn [mbind option_bind]. change (OB_FAIL SUCCESS) with false. cbn iota.
    destruct (finished_ok (with_centroids x1 cs) items) as (l' & E & Hok & He); cbn; try done.
    { intros ->. cbn in Hcl. lia. } { unfold zlen. lia. }
    cbn [centroids with_centroids] in E. rewrite Hcl in E. rewrite E. cbn [mbind option_bind]. eexists. split; [by destruct can_open|].
    split_and!; [exact Hok|unfold zlen; cbn; lia|cbn; subst n; case_match; lia|done..|exact He].
Qed.
End creation_laws.

(** ** The file *)

Definition all_floats (v : list float32) : Prop := Forall (fun f => is_float f = true) v.

(** What the file can hold: 32-bit numbers, floats in memory, and sizes of containers. *)
Record storable (x : IvfflatIndex) : Prop := {
  st_dim : in_int32 x.(dim);
  st_lists : in_int32 x.(lists);
  st_probes : in_int32 x.(probes);
  st_method : zlen x.(distance_method) < 2 ^ 63;
  st_centroids : Forall all_floats x.(centroids);
  st_sizes : Forall (fun l => zlen l * 32 < 2 ^ 63) x.(inverted_lists);
  st_items : Forall (fun item => all_floats item.(vec) /\ in_int32 item.(item_rid).(page_num) /\ in_int32 item.(item_rid).(slot_num))
    (entries x)
}.

Lemma stream_read_app n l r old : length l = n -> read n old (Some (l ++ r)) = (l, Some r).
Proof.
  intros <-. unfold read. rewrite (proj2 (Nat.leb_le _ _)) by (rewrite length_app; lia).
  by rewrite take_app_length, drop_app_length.
Qed.

Lemma read_int32_bytes old z r : in_int32 z -> read_int32 old (Some (le_bytes 4 z ++ r)) = (z, Some r).
Proof. intros Hz. unfold read_int32. rewrite stream_read_app by apply le_bytes_length. by rewrite le_value_int32. Qed.

Lemma read_size_bytes z r : 0 <= z < 2 ^ 63 -> read_size (Some (le_bytes 8 z ++ r)) = (z, Some r).
Proof.
  intros Hz. unfold read_size. rewrite stream_read_app by apply le_bytes_length. f_equal. rewrite le_value_bytes.
  change (256 ^ Z.of_nat 8) with (2 ^ 64). rewrite Z.mod_small by lia. by apply wrap_u_id; lia.
Qed.

Lemma read_vector_bytes v r : all_floats v -> read_vector (length v) (Some (vector_bytes v ++ r)) = (v, Some r).
Proof.
  intros Hv. unfold read_vector. rewrite stream_read_app by apply vector_bytes_length. f_equal.
  rewrite <- (app_nil_r (vector_bytes v)). by apply read_floats_bytes.
Qed.

Lemma read_item_bytes item r : all_floats item.(vec) -> in_int32 item.(item_rid).(page_num) -> in_int32 item.(item_rid).(slot_num) ->
  read_item (length item.(vec)) (Some (item_bytes item ++ r)) = (item, Some r).
Proof.
  intros Hv Hp Hs. unfold read_item, item_bytes. rewrite <- app_assoc, read_vector_bytes by done.
  rewrite stream_read_app by by rewrite length_app, !le_bytes_length.
  rewrite take_app_length', drop_app_length' by by rewrite le_bytes_length. rewrite !le_value_int32 by done. by destruct item as [v []].
Qed.

Lemma read_times_bytes {X} (f : Stream -> X * Stream) (bytes : X -> list Z) l r :
  Forall (fun x => forall r, f (Some (bytes x ++ r)) = (x, Some r)) l ->
  read_times f (length l) (Some (concat (map bytes l) ++ r)) = (l, Some r).
Proof.
  intros Hf. induction Hf as [|x l Hx _ IH]; [done|]. cbn [length read_times map concat]. rewrite <- app_assoc, Hx. by rewrite IH.
Qed.

Definition storable_list (dim : nat) (l : list IvfflatListItem) : Prop :=
  zlen l * 32 < 2 ^ 63 /\
  Forall (fun item => length item.(vec) = dim /\ all_floats item.(vec) /\ in_int32 item.(item_rid).(page_num) /\ in_int32 item.(item_rid).(slot_num)) l.

Lemma read_lists_bytes dim ls r : Forall (storable_list dim) ls ->
  read_lists dim (length ls) (Some (concat (map list_bytes ls) ++ r)) = Some (ls, Some r).
Proof.
  induction 1 as [|l ls [Hl Hf] _ IH]; [done|]. cbn [length read_lists map concat]. unfold list_bytes at 1.
  pose proof (zlen_pos l). rewrite <- !app_assoc, read_size_bytes by lia. unfold resizable.
  rewrite (proj2 (Z.leb_le 0 _)), (proj2 (Z.ltb_lt _ _)) by lia. cbn [andb]. unfold zlen at 1. rewrite Nat2Z.id, read_times_bytes.
  - by rewrite IH.
  - eapply Forall_impl; [exact Hf|]. intros item (<- & ? & ? & ?) r'. by apply read_item_bytes.
Qed.

Lemma storable_lists x : ivf_ok x -> storable x -> Forall (storable_list (Z.to_nat x.(dim))) x.(inverted_lists).
Proof.
  intros Hok [_ _ _ _ _ Hs Hi]. pose proof (ok_dims _ Hok) as Hd. unfold entries in *. rewrite !Forall_concat in *.
  apply Forall_lookup. intros i l Hl. split; [by eapply Forall_lookup_1 in Hs|]. apply Forall_and. split.
  - by eapply Forall_lookup_1 in Hd.
  - by eapply Forall_lookup_1 in Hi.
Qed.

Lemma load_file_bytes x y : ivf_ok x -> x.(lists) = zlen x.(centroids) -> storable x ->
  load_from_file y (Some (file_bytes x)) =
    Some (SUCCESS, mkIvf y.(inited) y.(field_offset) x.(dim) x.(distance_method) x.(lists) x.(probes) x.(centroids) x.(inverted_lists)).
Proof.
  intros Hok Hlc Hst. pose proof (storable_lists x Hok Hst) as Hls. destruct Hst as [H1 H2 H3 H4 H5 _ _]. pose proof (ok_dim _ Hok).
  pose proof (zlen_pos x.(distance_method)). pose proof (zlen_pos x.(centroids)).
  unfold load_from_file, file_bytes. rewrite !read_int32_bytes, read_size_bytes by (done || lia). unfold resizable.
  rewrite (proj2 (Z.leb_le 0 _)), (proj2 (Z.ltb_lt _ (2 ^ 63))) by lia. cbn [andb negb].
  rewrite stream_read_app by (unfold zlen; lia). rewrite (proj2 (Z.ltb_ge (lists x) 0)), (proj2 (Z.ltb_ge (dim x) 0)) by lia. cbn [orb andb].
  assert (Hn : Z.to_nat x.(lists) = length x.(centroids)) by (rewrite Hlc; unfold zlen; lia).
  rewrite Hn, read_times_bytes.
  - rewrite <- (ok_lists _ Hok), <- (app_nil_r (concat (map list_bytes _))), read_lists_bytes by done. done.
  - apply Forall_forall. intros c Hc r. pose proof (ok_centroid_dims _ Hok) as Hd. rewrite Forall_forall in Hd, H5.
    rewrite <- (Hd c Hc). by apply read_vector_bytes, H5.
Qed.

(** Nothing looks at the state of the stream: what a short file does not have reads as zeros
    and empty lists, and the load succeeds. *)
Lemma read_lists_failed dim n : read_lists dim n None = Some (replicate n [], None).
Proof. induction n as [|n IH]; [done|]. cbn [read_lists]. change (read_size None) with (0, @None (list Z)).
  cbn iota. change (resizable 0 32) with true. change (Z.to_nat 0) with O. cbn [read_times]. by rewrite IH.
Qed.

Lemma read_times_failed {X} (f : Stream -> X * Stream) n : (f None).2 = None -> (read_times f n None).2 = None.
Proof. intros Hf. induction n as [|n IH]; [done|]. cbn [read_times]. destruct (f None) as [x s]. cbn in Hf. subst s. by destruct (read_times f n None). Qed.

Lemma short_file_loads y : 0 <= y.(dim) -> 0 <= y.(lists) -> in_int32 y.(dim) -> in_int32 y.(lists) -> in_int32 y.(probes) ->
  exists x, load_from_file y (Some []) = Some (SUCCESS, x) /\ entries x = [] /\ x.(lists) = y.(lists).
Proof.
  intros Hd Hl H1 H2 H3. unfold load_from_file, read_int32. cbn [read Nat.leb length app drop].
  rewrite drop_0, !le_value_int32 by done. change (read_size None) with (0, @None (list Z)). cbn iota. change (resizable 0 1) with true. cbn [negb Z.to_nat replicate].
  rewrite (proj2 (Z.ltb_ge y.(lists) 0)), (proj2 (Z.ltb_ge y.(dim) 0)) by lia. cbn [orb andb read].
  pose proof (read_times_failed (read_vector (Z.to_nat y.(dim))) (Z.to_nat y.(lists)) eq_refl) as Hs.
  destruct (read_times _ _ None) as [cs s]. cbn in Hs. subst s. rewrite read_lists_failed. eexists. split_and!; [done| |done].
  apply concat_empty.
Qed.

(** ** Properties *)

(** C19: The index refines a collection of vectors with locations.  For every history of
    insertions and deletions as a table makes them, no step is undefined, every code is that
    of the specification (a deletion fails with INVALID_ARGUMENT exactly for a vector to
    which no centroid is nearer than FLT_MAX, and with RECORD_NOT_EXIST for a location that
    is not there), the index still satisfies its invariant, and its lists hold exactly the
    vectors of the specification. *)
Theorem ivf_history_refines x ops : ivf_ok x -> NoDup (item_rid <$> entries x) -> history_ok x (entries x) ops ->
  exists x', run_ops x ops = Some ((spec_ops x (entries x) ops).1, x') /\ ivf_ok x' /\ entries x' ≡ₚ (spec_ops x (entries x) ops).2.
Proof. intros Hok Hnd Hh. destruct (run_ops_ok ops x Hok Hnd Hh) as (x' & ? & ? & _ & ?). by exists x'. Qed.

(** C36: What [save_to_file] writes, [open] of a new index reads back: the dimension, the
    parameters, the centroids and every list with its vectors and locations, whatever the
    metadata says about the method and the parameters. *)
Theorem ivf_file_roundtrip x field_meta method ls ps : ivf_ok x -> x.(lists) = zlen x.(centroids) -> storable x ->
  let '(rc, file) := save_to_file true x in
  rc = SUCCESS /\ open new_index file field_meta method ls ps =
    Some (SUCCESS, mkIvf true field_meta.(attr_offset) x.(dim) x.(distance_method) x.(lists) x.(probes) x.(centroids) x.(inverted_lists)).
Proof. intros Hok Hl Hst. split; [done|]. unfold open. cbn [inited new_index]. by rewrite load_file_bytes. Qed.

(** ** Examples *)

Definition demo_random : RandomSource.
Proof. refine {| dis n k := Z.of_nat k mod n |}. intros n k Hn. by apply Z.mod_pos_bound. Defined.

Definition f_two : float32 := float_of_int 2.
Definition demo_ivf : IvfflatIndex :=
  mkIvf true 0 2 (text "euclidean") 2 1 [[f_zero; f_zero]; [f_two; f_two]] [[]; []].
Definition demo_record (a b : float32) : list Z := vector_bytes [a; b].

Lemma demo_ivf_ok : ivf_ok demo_ivf.
Proof.
  split; try done; [by repeat constructor..|]. intros i l Hl. destruct i as [|[|i]]; cbn in Hl; [by injection Hl as <-..|done].
Qed.

Definition demo_ops : list IvfOp :=
  [IvfInsert (demo_record f_one f_zero) (mkRID 1 0); IvfInsert (demo_record f_two f_one) (mkRID 1 1);
   IvfDelete (demo_record f_one f_zero) (mkRID 1 0); IvfDelete (demo_record f_one f_zero) (mkRID 1 0)].

Lemma demo_vector : extract_vector demo_ivf (demo_record f_one f_zero) = [f_one; f_zero].
Proof. vm_compute. reflexivity. Qed.

Lemma demo_has_cluster : has_cluster demo_ivf [f_one; f_zero] = true.
Proof. vm_compute. reflexivity. Qed.

Lemma demo_ivf_history : history_ok demo_ivf [] demo_ops.
Proof.
  cbn [history_ok demo_ops op_ok spec_op snd]. rewrite !demo_vector, demo_has_cluster. cbn [negb].
  split; [apply not_elem_of_nil|]. split; [by intros [[=]|[]%not_elem_of_nil]%elem_of_cons|].
  rewrite decide_True by (right; left). cbn. repeat (split || constructor); cbn; try done; rewrite ?demo_vector; try done.
Qed.

Lemma ivf_history_refines_witness : exists x', run_ops demo_ivf demo_ops = Some ([SUCCESS; SUCCESS; SUCCESS; RECORD_NOT_EXIST], x') /\
  ivf_ok x' /\ length (entries x') = 1%nat.
Proof.
  destruct (ivf_history_refines demo_ivf demo_ops demo_ivf_ok (NoDup_nil_2) demo_ivf_history) as (x' & Hr & Hok & Hp).
  exists x'. split_and!; [|exact Hok|].
  - assert ((spec_ops demo_ivf (entries demo_ivf) demo_ops).1 = [SUCCESS; SUCCESS; SUCCESS; RECORD_NOT_EXIST]) as <- by (vm_compute; reflexivity). exact Hr.
  - rewrite Hp. vm_compute. reflexivity.
Defined.

(** A created index: two clusters trained on three vectors, written to its file. *)
Definition demo_vectors : list (RID * list Z) :=
  [(mkRID 1 0, demo_record f_zero f_one); (mkRID 1 1, demo_record f_two f_two); (mkRID 1 2, demo_record f_one f_zero)].

Definition demo_created : option (RC * IvfflatIndex * option (list Z)) :=
  let _ := demo_random in create new_index true (mkField "v" VECTORS 0 8) [] 2 1 (inr (RECORD_EOF, demo_vectors)).

Example demo_create : (fun '(rc, x, _) => (rc, map (map item_rid) x.(inverted_lists))) <$> demo_created =
  Some (SUCCESS, [[mkRID 1 0; mkRID 1 2]; [mkRID 1 1]]).
Proof. vm_compute. reflexivity. Qed.

(** The example index with two vectors. *)
Definition demo_filled : IvfflatIndex :=
  with_lists demo_ivf [[mkItem [f_one; f_zero] (mkRID 1 0)]; [mkItem [f_two; f_one] (mkRID 1 1)]].

Lemma demo_filled_ok : ivf_ok demo_filled.
Proof.
  apply with_lists_ok; [exact demo_ivf_ok|done|]. intros i l Hl.
  destruct i as [|[|i]]; cbn in Hl; [injection Hl as <-; by apply Forall_singleton..|done].
Qed.

Lemma demo_storable : storable demo_filled.
Proof. split; try done; try (by repeat constructor). Qed.

Lemma ivf_file_roundtrip_witness : let '(rc, file) := save_to_file true demo_filled in
  rc = SUCCESS /\ open new_index file (mkField "v" VECTORS 0 8) [] 5 3 = Some (SUCCESS, demo_filled).
Proof. exact (ivf_file_roundtrip demo_filled (mkField "v" VECTORS 0 8) [] 5 3 demo_filled_ok eq_refl demo_storable). Defined.
