(* ===== verification/IvfSearch.v ===== *)
(** * IvfSearch: searching the vector index

    What [ann_search] and the scan of a vector index return.  Distances are numbers on finite
    vectors ([comparable_number]), so that [std::sort] gets an order; a search returns the
    nearest of the vectors in the nearest clusters, in the order of their distance
    ([ann_search_spec]).  Then [CREATE VECTOR INDEX] and a query on the same table, and what a
    row without a cluster does to the table. *)

From Stdlib Require Import SpecFloat.
From stdpp Require Import strings.
From S2P Require Import Prelude Bytes Compare RecordPage RecordFile HeapTable Float32 Value Expr Tuple TableMeta Exec ExecLaws OrderBy Logical Plan IvfIndex.
Import IvfIndex.
#[local] Open Scope Z_scope.

(** ** Distances that are numbers *)

(** Vectors whose distance is a number: any with the cosine method, whose result is clamped,
    and finite ones with the euclidean method, which only adds squares. *)
Definition comparable (method : list Z) (a b : list float32) : bool :=
  if bool_decide (method = text "cosine") then true
  else if bool_decide (method = text "dot") then is_number (compute_distance method a b)
  else forallb is_finite a && forallb is_finite b.

Lemma l2_loop_number a : forall b sum, Forall (fun f => is_finite f = true) a -> Forall (fun f => is_finite f = true) b ->
  has_sign false sum -> has_sign false (l2_loop a b sum).
Proof.
  induction a as [|x a IH]; intros [|y b] sum; cbn; try done. intros [Hx Ha]%Forall_cons [Hy Hb]%Forall_cons Hs.
  apply IH; [done..|]. apply fadd_positive; [done|]. apply fmul_square, fsub_number; [done|]. by destruct y.
Qed.

Lemma clamped_number f : is_number (fmax (fopp f_one) (fmin f_one f)) = true.
Proof.
  unfold fmax, fmin. destruct (SFltb f f_one) eqn:E1; [|by destruct (SFltb _ f_one)].
  destruct (SFltb (fopp f_one) f) eqn:E2; [|done]. by apply SFltb_key in E2 as (_ & ? & _).
Qed.

Lemma comparable_number method a b : comparable method a b = true -> is_number (compute_distance method a b) = true.
Proof.
  unfold comparable, compute_distance. destruct (bool_decide (method = text "cosine")).
  - intros _. destruct (_ || _); [done|]. apply fsub_number; [done|apply clamped_number].
  - destruct (bool_decide (method = text "dot")); [done|]. intros [Ha Hb]%andb_true_iff.
    apply (has_sign_number false), l2_loop_number; [| |done]; apply Forall_forall; intros f Hf%list_elem_of_In;
      by eapply forallb_forall in Hf.
Qed.

(** ** Sorting by distance *)

Definition nearest_first {X} (d : X -> float32) (l : list X) : Prop :=
  forall i j a b, (i < j)%nat -> l !! i = Some a -> l !! j = Some b -> SFltb (d b) (d a) = false.

Section sorting.
Context `{StdSort}.

Lemma sort_by_spec {X} (d : X -> float32) l : Forall (fun x => is_number (d x) = true) l ->
  exists sorted, sort_by d l = Some sorted /\ sorted ≡ₚ l /\ nearest_first d sorted.
Proof.
  intros Hn. unfold sort_by. set (lt := fun a b => match l !! a with Some p => _ | None => _ end).
  assert (Hat : forall a, a ∈ seq 0 (length l) -> exists x, l !! a = Some x /\ is_number (d x) = true).
  { intros a Ha%elem_of_seq. destruct (lookup_lt_is_Some_2 l a) as [x Hx]; [lia|]. exists x. split; [done|]. by eapply Forall_lookup_1 in Hn. }
  assert (Hsw : strict_weak lt (seq 0 (length l))).
  { split.
    - intros a (x & E & _)%Hat. unfold lt. rewrite E. apply SFltb_irrefl.
    - intros a b c (x & Ex & _)%Hat (y & Ey & _)%Hat (z & Ez & _)%Hat. unfold lt. rewrite Ex, Ey, Ez. apply SFltb_trans.
    - intros a b c (x & Ex & Hx)%Hat (y & Ey & Hy)%Hat (z & Ez & Hz)%Hat. unfold lt. rewrite Ex, Ey, Ez. intros.
      split; by eapply (SFltb_incomparable _ (d y)). }
  destruct (std_sort_spec lt _ Hsw) as [Hp Ho]. destruct (mapM_lookup_perm l _ Hp) as (sorted & -> & Hf & Hperm).
  exists sorted. split_and!; [done|done|]. intros i j a b Hij Ha Hb.
  destruct (Forall2_lookup_r _ _ _ _ _ Hf Ha) as (i' & Hi' & Hia), (Forall2_lookup_r _ _ _ _ _ Hf Hb) as (j' & Hj' & Hjb).
  pose proof (Ho i j i' j' Hij Hi' Hj') as Hno. unfold lt in Hno. by rewrite Hia, Hjb in Hno.
Qed.
End sorting.

Lemma nearest_first_app {X} (d : X -> float32) l r : nearest_first d (l ++ r) ->
  nearest_first d l /\ forall a b, a ∈ l -> b ∈ r -> SFltb (d b) (d a) = false.
Proof.
  intros Ho. split.
  - intros i j a b Hij Ha Hb. eapply Ho; [exact Hij|by apply lookup_app_l_Some..].
  - intros a b [i Ha]%list_elem_of_lookup [j Hb]%list_elem_of_lookup. apply (Ho i (length l + j)%nat).
    + apply lookup_lt_Some in Ha. lia.
    + by apply lookup_app_l_Some.
    + rewrite lookup_app_r by lia. by replace (length l + j - length l)%nat with j by lia.
Qed.

Lemma nearest_first_fmap {X Y} (d : Y -> float32) (g : X -> Y) l : nearest_first d (g <$> l) -> nearest_first (d ∘ g) l.
Proof. intros Ho i j a b Hij Ha Hb. apply (Ho i j); [done|by rewrite list_lookup_fmap, ?Ha, ?Hb..]. Qed.

(** ** The nearest clusters *)

Section nearest_clusters.
Context `{StdSort}.

Lemma elem_of_distances method cs v p : p ∈ centroid_distances method cs v <->
  exists i c, cs !! i = Some c /\ p = (compute_distance method v c, Z.of_nat i).
Proof.
  unfold centroid_distances. rewrite list_elem_of_lookup. setoid_rewrite list_lookup_imap. split.
  - intros (i & (c & Hc & ->)%fmap_Some). by exists i, c.
  - intros (i & c & Hc & ->). exists i. by rewrite Hc.
Qed.

Lemma distances_clusters method cs v : (centroid_distances method cs v).*2 = seqZ 0 (zlen cs).
Proof.
  apply list_eq. intros i. unfold centroid_distances. rewrite list_lookup_fmap, list_lookup_imap. destruct (cs !! i) eqn:E; cbn.
  - apply lookup_lt_Some in E. symmetry. apply lookup_seqZ. unfold zlen. lia.
  - apply lookup_ge_None in E. symmetry. apply lookup_seqZ_ge. unfold zlen. lia.
Qed.

(** No cluster that is left out is nearer than one that is probed. *)
Definition clusters_nearest (method : list Z) (cs : list (list float32)) (v : list float32) (near far : list Z) : Prop :=
  forall i j c c', i ∈ near -> j ∈ far -> cs !! Z.to_nat i = Some c -> cs !! Z.to_nat j = Some c' ->
    SFltb (compute_distance method v c') (compute_distance method v c) = false.

Lemma distances_sorted method cs v : Forall (fun c => comparable method v c = true) cs ->
  exists sorted, sort_by fst (centroid_distances method cs v) = Some sorted /\ sorted.*2 ≡ₚ seqZ 0 (zlen cs) /\
    forall k, clusters_nearest method cs v (take k sorted).*2 (drop k sorted).*2.
Proof.
  intros Hn. destruct (sort_by_spec fst (centroid_distances method cs v)) as (sorted & Hs & Hp & Ho).
  { apply Forall_forall. intros p (i & c & Hc & ->)%elem_of_distances. cbn. apply comparable_number. by eapply Forall_lookup_1 in Hn. }
  exists sorted. split_and!; [done|by rewrite Hp, distances_clusters|]. intros k.
  rewrite <- (take_drop k sorted) in Ho. apply nearest_first_app in Ho as [_ Ho].
  assert (Hat : forall p c, p ∈ sorted -> cs !! Z.to_nat p.2 = Some c -> p.1 = compute_distance method v c).
  { intros p c Hin Hc. rewrite Hp in Hin. apply elem_of_distances in Hin as (i & c' & Hc' & ->). cbn in *. rewrite Nat2Z.id in Hc. congruence. }
  intros i j c c' (p & -> & Hpi)%list_elem_of_fmap (q & -> & Hqi)%list_elem_of_fmap Hc Hc'. specialize (Ho p q Hpi Hqi).
  rewrite (Hat p c), (Hat q c') in Ho; try done; eapply elem_of_sublist; try eassumption; [apply sublist_drop|apply sublist_take].
Qed.

Lemma find_nearest_centroids_spec x v probes : x.(centroids) <> [] -> 0 <= probes ->
  Forall (fun c => comparable x.(distance_method) v c = true) x.(centroids) ->
  exists near far, find_nearest_centroids x v probes = Some near /\ near ++ far ≡ₚ seqZ 0 (zlen x.(centroids)) /\
    zlen near = Z.min probes (zlen x.(centroids)) /\ clusters_nearest x.(distance_method) x.(centroids) v near far.
Proof.
  intros Hne Hpr Hn. unfold find_nearest_centroids. rewrite bool_decide_false by done.
  destruct (distances_sorted x.(distance_method) x.(centroids) v Hn) as (sorted & -> & Hp & Hc). cbn [mbind option_bind].
  assert (zlen sorted = zlen x.(centroids)) as Hl.
  { unfold zlen. rewrite <- (length_fmap snd sorted), Hp, length_seqZ. unfold zlen. lia. }
  rewrite Hl. pose proof (zlen_pos x.(centroids)). rewrite (proj2 (Z.ltb_ge _ _)) by lia.
  set (k := Z.to_nat _). exists (take k sorted).*2, (drop k sorted).*2. split_and!.
  - by rewrite fmap_take.
  - by rewrite <- fmap_app, take_drop.
  - unfold zlen in *. rewrite length_fmap, length_take. subst k. lia.
  - apply Hc.
Qed.

(** ** Search *)

(** The clusters of all lists hold all vectors. *)
Lemma cluster_items_all ls clusters : clusters ≡ₚ seqZ 0 (zlen ls) -> cluster_items ls clusters ≡ₚ concat ls.
Proof.
  intros Hp. unfold cluster_items. transitivity (concat (map (fun c => if (c <? 0) || (zlen ls <=? c) then [] else default [] (ls !! Z.to_nat c)) (seqZ 0 (zlen ls)))).
  { clear -Hp. induction Hp as [|c l l' _ IH|c c' l|l l' l'' _ IH1 _ IH2]; cbn; [done|by rewrite IH|solve_Permutation|by rewrite IH1]. }
  replace (map _ (seqZ 0 (zlen ls))) with ls; [done|]. apply list_eq. intros i. change (map ?f ?l) with (f <$> l). rewrite list_lookup_fmap.
  destruct (ls !! i) as [l|] eqn:E.
  - pose proof (lookup_lt_Some _ _ _ E). rewrite lookup_seqZ_lt by (unfold zlen; lia). cbn.
    rewrite (proj2 (Z.ltb_ge _ _)), (proj2 (Z.leb_gt _ _)) by (unfold zlen; lia). cbn. by rewrite Z.add_0_l, Nat2Z.id, E.
  - apply lookup_ge_None in E. by rewrite lookup_seqZ_ge by (unfold zlen; lia).
Qed.

(** The answer of a search: what is [found] among the [candidates]. *)
Record nearest_of {X} (d : X -> float32) (limit : Z) (candidates found : list X) : Prop := {
  no_length : zlen found = Z.min limit (zlen candidates);
  no_sorted : nearest_first d found;
  no_rest : exists rest, found ++ rest ≡ₚ candidates /\ forall a b, a ∈ found -> b ∈ rest -> SFltb (d b) (d a) = false
}.

Lemma cut_candidates {X} (d : X -> float32) limit sorted : 0 <= limit -> nearest_first d sorted ->
  let found := if limit <? zlen sorted then take (Z.to_nat limit) sorted else sorted in
  zlen found = Z.min limit (zlen sorted) /\ nearest_first d found /\
  exists rest, found ++ rest = sorted /\ forall a b, a ∈ found -> b ∈ rest -> SFltb (d b) (d a) = false.
Proof.
  intros Hl Ho. destruct (Z.ltb_spec limit (zlen sorted)) as [Hlt|Hge]; cbn zeta.
  - rewrite <- (take_drop (Z.to_nat limit) sorted) in Ho. apply nearest_first_app in Ho as [Ho Hr]. split_and!; [|done|].
    + unfold zlen in *. rewrite length_take. lia.
    + exists (drop (Z.to_nat limit) sorted). by rewrite take_drop.
  - split_and!; [lia|done|]. exists []. rewrite app_nil_r. split; [done|]. by intros ? ? _ ?%not_elem_of_nil.
Qed.

Definition item_distance (x : IvfflatIndex) (query : list float32) (item : IvfflatListItem) : float32 :=
  compute_distance x.(distance_method) query item.(vec).

(** The vectors of the index and the centroids can be compared with the query. *)
Definition query_ok (x : IvfflatIndex) (query : list float32) : Prop :=
  zlen query = x.(dim) /\ Forall (fun c => comparable x.(distance_method) query c = true) x.(centroids) /\
  Forall (fun item => comparable x.(distance_method) query item.(vec) = true) (entries x).

Lemma cluster_items_in x clusters item : item ∈ cluster_items x.(inverted_lists) clusters -> item ∈ entries x.
Proof.
  unfold cluster_items. rewrite list_elem_of_In, in_concat. intros (l & (c & <- & _)%in_map_iff & Hin).
  destruct (_ || _); [done|]. destruct (inverted_lists x !! Z.to_nat c) as [l|] eqn:E; [|done].
  apply elem_of_entries. exists (Z.to_nat c), l. split; [done|]. by apply list_elem_of_In.
Qed.

Lemma ann_search_spec x query limit : ivf_ok x -> query_ok x query -> 0 <= limit ->
  exists near far found, ann_search x query limit = Some (item_rid <$> found) /\
    near ++ far ≡ₚ seqZ 0 (zlen x.(centroids)) /\ zlen near = Z.min x.(probes) (zlen x.(centroids)) /\
    clusters_nearest x.(distance_method) x.(centroids) query near far /\
    nearest_of (item_distance x query) limit (cluster_items x.(inverted_lists) near) found.
Proof.
  intros Hok (Hd & Hcs & His) Hl. pose proof (ok_probes _ Hok). unfold ann_search. rewrite (ok_inited _ Hok). cbn [negb orb].
  rewrite bool_decide_false by by apply ok_centroids. rewrite Hd, Z.eqb_refl. cbn [negb].
  destruct (find_nearest_centroids_spec x query x.(probes)) as (near & far & -> & Hp & Hn & Hnear); [by apply ok_centroids|lia|done|].
  cbn [mbind option_bind]. set (items := cluster_items _ near). set (g := fun item => (item_rid item, _)).
  destruct (sort_by_spec snd (g <$> items)) as (sorted & -> & Hs & Ho).
  { apply Forall_fmap, Forall_forall. intros item Hin%cluster_items_in. apply comparable_number. by eapply Forall_forall in His. }
  cbn [mbind option_bind]. apply Permutation_map_inv in Hs as (si & -> & Hsi). change (map g si) with (g <$> si) in *.
  apply nearest_first_fmap in Ho. destruct (cut_candidates _ limit si Hl Ho) as (Hlen & Hsort & rest & Hr & Hrest).
  set (found := if limit <? zlen si then _ else si) in *.
  exists near, far, found. split_and!; [|done..|].
  - f_equal. unfold found. unfold zlen at 1. rewrite length_fmap. fold (zlen si).
    destruct (limit <? zlen si); rewrite ?fmap_take, <- list_fmap_compose; done.
  - split; [|exact Hsort|].
    + rewrite Hlen. unfold zlen. by rewrite <- (Permutation_length Hsi).
    + exists rest. by rewrite Hr.
Qed.

(** With as many probes as clusters nothing is left out. *)
Lemma ann_search_exact x query limit : ivf_ok x -> query_ok x query -> 0 <= limit -> zlen x.(centroids) <= x.(probes) ->
  exists found, ann_search x query limit = Some (item_rid <$> found) /\ nearest_of (item_distance x query) limit (entries x) found.
Proof.
  intros Hok Hq Hl Hpr. destruct (ann_search_spec x query limit Hok Hq Hl) as (near & far & found & Hs & Hp & Hn & _ & [H1 H2 H3]).
  exists found. split; [done|]. assert (far = []) as ->.
  { apply nil_length_inv. apply Permutation_length in Hp. rewrite length_app, length_seqZ in Hp. unfold zlen in *. lia. }
  rewrite app_nil_r in Hp. assert (cluster_items x.(inverted_lists) near ≡ₚ entries x) as He.
  { apply cluster_items_all. rewrite Hp. unfold zlen. by rewrite (ok_lists _ Hok). }
  split; [|done|].
  - rewrite H1. unfold zlen. by rewrite (Permutation_length He).
  - destruct H3 as (rest & Hr & ?). exists rest. by rewrite Hr, He.
Qed.
End nearest_clusters.

(** ** The scanner *)

(** The vectors from the position of a scanner on. *)
Definition items_of (ls : list (list IvfflatListItem)) (c : Z) : list IvfflatListItem := cluster_items ls [c].
Definition items_left (ls : list (list IvfflatListItem)) (rest : list (float32 * Z)) (offset : nat) : list IvfflatListItem :=
  match rest with [] => [] | (_, c) :: rest' => drop offset (items_of ls c) ++ cluster_items ls rest'.*2 end.

Lemma items_of_eq ls c : items_of ls c = if (c <? 0) || (zlen ls <=? c) then [] else default [] (ls !! Z.to_nat c).
Proof. unfold items_of, cluster_items. cbn. by rewrite app_nil_r. Qed.

Lemma cluster_items_cons ls c cs : cluster_items ls (c :: cs) = items_of ls c ++ cluster_items ls cs.
Proof. unfold items_of, cluster_items. cbn. by rewrite app_nil_r. Qed.

Lemma next_loop_spec ls rest : forall probe offset,
  match items_left ls rest offset with
  | [] => exists p o, next_loop ls rest probe offset = (None, p, o)
  | item :: items => exists k o, next_loop ls rest probe offset = (Some item.(item_rid), (probe + k)%nat, o) /\ items_left ls (drop k rest) o = items
  end.
Proof.
  induction rest as [|[d c] rest IH]; intros probe offset; cbn [items_left next_loop]; [by do 2 eexists|].
  assert (Hskip : drop offset (items_of ls c) = [] -> match cluster_items ls rest.*2 with
    | [] => exists p o, next_loop ls rest (S probe) 0 = (None, p, o)
    | item :: items => exists k o, next_loop ls rest (S probe) 0 = (Some item.(item_rid), (probe + k)%nat, o) /\ items_left ls (drop k ((d, c) :: rest)) o = items
    end).
  { intros _. specialize (IH (S probe) O). assert (items_left ls rest 0 = cluster_items ls rest.*2) as E.
    { destruct rest as [|[d' c'] rest']; [done|]. cbn [items_left fmap list_fmap]. by rewrite drop_0, <- cluster_items_cons. }
    rewrite E in IH. destruct (cluster_items ls rest.*2) as [|item items]; [done|]. destruct IH as (k & o & -> & <-).
    exists (S k), o. split; [by rewrite <- plus_n_Sm|done]. }
  rewrite items_of_eq in Hskip |- *. destruct (_ || _) eqn:Eg; [rewrite drop_nil in *; by apply Hskip|].
  set (l := default [] _) in *. destruct (l !! offset) as [item|] eqn:E.
  - rewrite (drop_S _ _ _ E). cbn [app]. exists O, (S offset). rewrite Nat.add_0_r. split; [done|]. cbn [drop items_left].
    by rewrite items_of_eq, Eg.
  - rewrite (drop_ge l) in * by by apply lookup_ge_None. by apply Hskip.
Qed.

(** What a scanner yields, call by call. *)
Fixpoint scan_vectors (n : nat) (s : IvfflatIndexScanner) : list RID * RC :=
  match n with
  | O => ([], INTERNAL)
  | S n' =>
      match scanner_next s with
      | (rc, Some rid, s') => let '(rids, rc') := scan_vectors n' s' in (rid :: rids, rc')
      | (rc, None, _) => ([], rc)
      end
  end.

Lemma scan_vectors_spec n : forall s, let rest := drop s.(current_probe) (take (Z.to_nat s.(scan_probes)) s.(cluster_distances)) in
  (length (items_left s.(scanned_lists) rest s.(current_offset)) < n)%nat ->
  scan_vectors n s = (item_rid <$> items_left s.(scanned_lists) rest s.(current_offset), RECORD_EOF).
Proof.
  induction n as [|n IH]; intros s rest Hn; [lia|]. cbn [scan_vectors]. unfold scanner_next. fold rest.
  pose proof (next_loop_spec s.(scanned_lists) rest s.(current_probe) s.(current_offset)) as Hs.
  destruct (items_left s.(scanned_lists) rest s.(current_offset)) as [|item items]; [by destruct Hs as (p & o & ->)|].
  destruct Hs as (k & o & -> & Hi). rewrite IH; cbn [scanned_lists cluster_distances scan_probes current_probe current_offset];
    unfold rest in Hi; rewrite drop_drop in Hi; rewrite Hi; [done|cbn in Hn; lia].
Qed.

(** The scanner yields the vectors of the clusters that [ann_search] ranks. *)
Lemma scanner_complete `{StdSort} x query : ivf_ok x -> query_ok x query ->
  exists near s, find_nearest_centroids x query x.(probes) = Some near /\ open_scanner x query x.(probes) = Some s /\
    forall n, (length (cluster_items x.(inverted_lists) near) < n)%nat ->
      scan_vectors n s = (item_rid <$> cluster_items x.(inverted_lists) near, RECORD_EOF).
Proof.
  intros Hok (_ & Hcs & _). pose proof (ok_probes _ Hok). unfold find_nearest_centroids, open_scanner.
  rewrite bool_decide_false by by apply ok_centroids.
  destruct (distances_sorted x.(distance_method) x.(centroids) query Hcs) as (sorted & -> & _). cbn [mbind option_bind].
  pose proof (zlen_pos sorted). rewrite (proj2 (Z.ltb_ge (Z.min _ _) 0)), (proj2 (Z.ltb_ge x.(probes) 0)) by lia.
  set (near := take _ _). exists near. set (dists := if x.(probes) <? zlen sorted then take (Z.to_nat x.(probes)) sorted else sorted).
  exists (mkScanner dists x.(inverted_lists) x.(probes) 0 0). split; [done|]. split; [unfold dists; by destruct (_ <? _)|].
  assert (Hd : (take (Z.to_nat x.(probes)) dists).*2 = near).
  { unfold dists, near. destruct (Z.ltb_spec x.(probes) (zlen sorted)).
    - rewrite take_take, Nat.min_id, fmap_take. f_equal. lia.
    - rewrite !take_ge by (rewrite ?length_fmap; unfold zlen in *; lia). done. }
  intros n Hn. assert (He : items_left x.(inverted_lists) (take (Z.to_nat x.(probes)) dists) 0 = cluster_items x.(inverted_lists) near).
  { rewrite <- Hd. destruct (take _ dists) as [|[d c] rest]; [done|]. cbn [items_left fmap list_fmap]. by rewrite drop_0, <- cluster_items_cons. }
  rewrite scan_vectors_spec; cbn [scanned_lists cluster_distances scan_probes current_probe current_offset]; rewrite drop_0, He; done.
Qed.

(** ** CREATE VECTOR INDEX and a query *)

Section queries.
Context `{CLib} `{StdSort} `{RandomSource} {X : Type} `{TableIndex X}.
#[local] Abbreviation Engine := (HeapTable.HeapTableEngine (X + IvfflatIndex)).

(** The index that is added to the table holds the vector of every row once. *)
Lemma create_vector_index_ok rec_size fuel (t : Engine) field_meta method ls ps :
  RecordFile.file_ok rec_size t.(HeapTable.record_handler) -> field_meta.(field_type) = VECTORS -> 4 <= field_meta.(attr_len) ->
  (length (all_rows t.(HeapTable.record_handler)) < fuel)%nat ->
  exists x, create_vector_index fuel true t field_meta method ls ps =
      Some (SUCCESS, HeapTable.mkTable t.(HeapTable.record_handler) (t.(HeapTable.indexes) ++ [inr x]), Some (file_bytes x)) /\
    ivf_ok x /\ x.(lists) = zlen x.(centroids) /\ x.(lists) <= Z.max 1 ls /\
    x.(field_offset) = field_meta.(attr_offset) /\ x.(dim) = field_meta.(attr_len) / 4 /\
    x.(distance_method) = (if is_blank_string method then text "euclidean" else c_string method) /\
    x.(probes) = Z.min (Z.max 1 ls) (Z.max 1 ps) /\
    entries x ≡ₚ (fun r => mkItem (extract_vector x r.2) r.1) <$> all_rows t.(HeapTable.record_handler).
Proof.
  intros Hok Hty Hlen Hf. unfold create_vector_index. rewrite bool_decide_true by done. cbn [negb].
  destruct (RecordFile.scan_selects rec_size t.(HeapTable.record_handler) (fun _ => true) (fun _ => SUCCESS) fuel Hok) as [-> _]; [by left|exact Hf|].
  fold (all_rows t.(HeapTable.record_handler)). set (m := if is_blank_string method then [] else _).
  assert ((if 0 <? ls then ls else 1) = Z.max 1 ls) as -> by (destruct (Z.ltb_spec 0 ls); lia). assert ((if 0 <? ps then ps else 1) = Z.max 1 ps) as -> by (destruct (Z.ltb_spec 0 ps); lia).
  destruct (create_ok true field_meta m (Z.max 1 ls) (Z.max 1 ps) (all_rows t.(HeapTable.record_handler)) Hty Hlen ltac:(lia))
    as (x & -> & Hx & Hl & Hle & Hoff & Hd & Hm & Hp & He). cbn [mbind option_bind]. change (OB_FAIL SUCCESS) with false. cbn iota.
  exists x. split_and!; try done.
  - rewrite Hm. unfold m. destruct (is_blank_string method) eqn:Eb; [done|]. rewrite bool_decide_false; [done|].
    intros E. unfold is_blank_string in Eb. by rewrite E in Eb.
  - rewrite Hp. cbn zeta. rewrite (proj2 (Z.ltb_ge (Z.max 1 ps) 1)) by lia. destruct (Z.ltb_spec (Z.max 1 ls) (Z.max 1 ps)); lia.
Qed.

(** The scan of candidates that are stored, with a condition that is defined on them. *)
Lemma vector_rows_found table predicates (keep : RID * list Z -> bool) rows :
  Forall (fun r => table.(table_get_record) r.1 = (SUCCESS, r.2) /\ Exec.filter predicates (row_tuple table r) = mret (keep r)) rows ->
  vector_rows table predicates rows.*1 = (row_tuple table <$> base.filter (fun r => keep r = true) rows, Some RECORD_EOF).
Proof.
  induction 1 as [|[rid d] rows [Hg Hk] _ IH]; [done|]. cbn [fmap list_fmap vector_rows fst]. cbn [fst snd] in Hg. rewrite Hg, Hk.
  cbn [mret Res_ret]. destruct (keep (rid, d)) eqn:E.
  - rewrite IH. by rewrite filter_cons_True.
  - rewrite IH. by rewrite filter_cons_False by by rewrite E.
Qed.

Definition row_distance (x : IvfflatIndex) (query : list float32) (r : RID * list Z) : float32 :=
  compute_distance x.(distance_method) query (extract_vector x r.2).

(** The vectors of the index are those of the rows. *)
Definition index_of (x : IvfflatIndex) (rows : list (RID * list Z)) : Prop :=
  entries x ≡ₚ (fun r => mkItem (extract_vector x r.2) r.1) <$> rows.

Lemma nearest_rows x query limit rows found : index_of x rows -> nearest_of (item_distance x query) limit (entries x) found ->
  exists rs, item_rid <$> found = rs.*1 /\ nearest_of (row_distance x query) limit rows rs.
Proof.
  intros He [Hn Ho (rest & Hr & Hrest)]. rewrite He in Hr. apply Permutation_map_inv in Hr as (l & El & Hl).
  symmetry in El. apply map_eq_app in El as (rs & rest' & -> & <- & <-). exists rs. split; [by rewrite <- list_fmap_compose|]. split.
  - unfold zlen in *. rewrite length_map in Hn. by rewrite Hn, (Permutation_length He), length_fmap.
  - by apply nearest_first_fmap in Ho.
  - exists rest'. split; [done|]. intros a b Ha Hb.
    apply (Hrest (mkItem (extract_vector x a.2) a.1) (mkItem (extract_vector x b.2) b.1)); apply list_elem_of_fmap; eauto.
Qed.

(** The scan of a vector index on a table whose rows it holds. *)
Lemma vector_scan_runs rec_size (t : Engine) x table query limit predicates keep : RecordFile.file_ok rec_size t.(HeapTable.record_handler) ->
  let rows := all_rows t.(HeapTable.record_handler) in
  ivf_ok x -> index_of x rows -> zlen x.(centroids) <= x.(probes) -> query_ok x query -> 0 < limit ->
  (forall rid, table.(table_get_record) rid = HeapTable.get_record t rid) ->
  (forall r, r ∈ rows -> Exec.filter predicates (row_tuple table r) = mret (keep r)) ->
  exists found, nearest_of (row_distance x query) limit rows found /\
    forall n, (length found < n)%nat -> execute (vector_index_scan table (vector_index x) query limit predicates) n =
      Some (inr (row_tuple table <$> base.filter (fun r => keep r = true) found, RECORD_EOF)).
Proof.
  intros Hfile rows Hok Hof Hpr Hq Hl Hget Hkeep.
  destruct (ann_search_exact x query limit Hok Hq ltac:(lia) Hpr) as (items & Hs & Hn).
  destruct (nearest_rows x query limit rows items Hof Hn) as (found & Hrids & Hfound). exists found. split; [done|]. intros n Hlt.
  assert (Hin : forall r, r ∈ found -> r ∈ rows).
  { intros r Hr. destruct Hfound as [_ _ (rest & <- & _)]. apply elem_of_app. by left. }
  assert (Hvr : vector_rows table predicates (item_rid <$> items) =
    (row_tuple table <$> base.filter (fun r => keep r = true) found, Some RECORD_EOF)).
  { rewrite Hrids. apply vector_rows_found, Forall_forall. intros [rid d] Hr. split; [|by apply Hkeep, Hin]. rewrite Hget.
    apply Hin, (elem_of_all_rows rec_size) in Hr; [|done]. cbn [fst snd].
    pose proof Hr as (p & Hp & _)%bind_Some. pose proof (record_at_in_page _ rid d p Hr Hp) as Hslot.
    pose proof (RecordFile.get_record_file_ok rec_size _ rid Hfile (proj1 Hslot)) as Hg. by rewrite Hr in Hg. }
  eapply (execute_opens _ (fun _ => True)).
  - rewrite length_fmap. eapply Nat.le_lt_trans; [apply length_filter|exact Hlt].
  - rewrite <- Hvr. pose proof (vector_opens table (vector_index x) query limit predicates _ ([], None) eq_refl) as Ho.
    rewrite (proj2 (Z.ltb_lt 0 limit)) in Ho by done. cbn beta in Ho. rewrite Hs in Ho. exact Ho.
Qed.

(** C13: [CREATE VECTOR INDEX] with at least as many probes as lists, and queries.  The
    statement succeeds and adds one index to the table; a scan of it for a query vector then
    returns, without an error, of the [limit] rows of the table nearest to the query (all
    rows, if there are fewer), in the order of their distance, those that satisfy the
    predicates. *)
Theorem vector_query_nearest rec_size fuel (t : Engine) field_meta method ls ps :
  RecordFile.file_ok rec_size t.(HeapTable.record_handler) -> field_meta.(field_type) = VECTORS -> 4 <= field_meta.(attr_len) ->
  ls <= ps -> (length (all_rows t.(HeapTable.record_handler)) < fuel)%nat ->
  let rows := all_rows t.(HeapTable.record_handler) in
  exists x, create_vector_index fuel true t field_meta method ls ps =
      Some (SUCCESS, HeapTable.mkTable t.(HeapTable.record_handler) (t.(HeapTable.indexes) ++ [inr x]), Some (file_bytes x)) /\
    x.(dim) = field_meta.(attr_len) / 4 /\ x.(distance_method) = (if is_blank_string method then text "euclidean" else c_string method) /\
    forall table query limit predicates keep, query_ok x query -> 0 < limit ->
      (forall rid, table.(table_get_record) rid = HeapTable.get_record t rid) ->
      (forall r, r ∈ rows -> Exec.filter predicates (row_tuple table r) = mret (keep r)) ->
      exists found, nearest_of (row_distance x query) limit rows found /\
        forall n, (length found < n)%nat -> execute (vector_index_scan table (vector_index x) query limit predicates) n =
          Some (inr (row_tuple table <$> base.filter (fun r => keep r = true) found, RECORD_EOF)).
Proof.
  intros Hfile Hty Hlen Hls Hf rows. destruct (create_vector_index_ok rec_size fuel t field_meta method ls ps Hfile Hty Hlen Hf)
    as (x & Hc & Hok & Hl & Hle & _ & Hd & Hm & Hp & He).
  exists x. split_and!; [done..|]. intros. eapply vector_scan_runs; try done. rewrite <- Hl, Hp. lia.
Qed.

(** ** Rows that cannot be deleted *)

(** A short vector is at distance FLT_MAX from every centroid. *)
Lemma short_vector_unclustered x v : ivf_ok x -> x.(distance_method) = text "cosine" ->
  SFltb (dot_loop v v f_zero) norm_epsilon = true -> has_cluster x v = false.
Proof.
  intros Hok Hm Hs. unfold has_cluster, find_nearest_centroid.
  destruct (nearest_spec x.(distance_method) v x.(centroids) (ok_centroids _ Hok)) as [[-> _]|(j & c & _ & _ & Hlt & _)]; [done|].
  exfalso. rewrite Hm in Hlt. unfold compute_distance in Hlt. rewrite bool_decide_true, Hs in Hlt by done. cbn [orb] in Hlt.
  by rewrite SFltb_irrefl in Hlt.
Qed.

Lemma delete_unclustered x record rid : ivf_ok x -> has_cluster x (extract_vector x record) = false ->
  delete_entry x record rid = Some (INVALID_ARGUMENT, x).
Proof.
  intros Hok Hu. unfold delete_entry. rewrite (ok_inited _ Hok). cbn [negb]. rewrite bool_decide_false by (apply extract_nonempty, Hok).
  destruct (cluster_guard x (extract_vector x record) Hok) as (-> & _). by rewrite Hu.
Qed.

(** One index that fails stops the deletion, whatever the others do. *)
Lemma delete_from_indexes_fails {Y} `{TableIndex Y} (idx : list Y) y record rid rc y' : y ∈ idx ->
  index_delete y record rid = Some (rc, y') -> OB_SUCC rc = false -> HeapTable.delete_from_indexes idx record rid = None.
Proof.
  intros Hin E Hrc. induction idx as [|z idx IH]; [by apply not_elem_of_nil in Hin|]. cbn [HeapTable.delete_from_indexes].
  apply elem_of_cons in Hin as [<-|Hin]; [rewrite E; cbn; by rewrite Hrc|].
  destruct (index_delete z record rid) as [[rc' z']|]; [|done]. cbn [mbind option_bind]. destruct (OB_SUCC rc'); [|done]. by rewrite IH.
Qed.

(** C39: A row whose vector is shorter than 0.0001 can be inserted into a table with a vector
    index for the cosine distance, but not deleted: the index puts the vector, which has no
    nearest centroid, into its first list and refuses to delete it there, and
    [HeapTableEngine::delete_record] stops on its assertion. *)
Theorem short_vector_row_stuck (t : Engine) x record rid : inr x ∈ t.(HeapTable.indexes) -> ivf_ok x ->
  x.(distance_method) = text "cosine" ->
  SFltb (dot_loop (extract_vector x record) (extract_vector x record) f_zero) norm_epsilon = true ->
  (exists x', index_insert x record rid = Some (SUCCESS, x') /\ mkItem (extract_vector x record) rid ∈ entries x') /\
  HeapTable.delete_record t record rid = None.
Proof.
  intros Hin Hok Hm Hs. split.
  - destruct (ivf_insert_ok x record rid Hok) as (x' & E & _ & _ & Hp). exists x'. split; [exact E|]. rewrite Hp. left.
  - unfold HeapTable.delete_record. rewrite (delete_from_indexes_fails _ (inr x) record rid INVALID_ARGUMENT (inr x)); [done|exact Hin| |reflexivity].
    transitivity ('(rc, x') ← delete_entry x record rid; Some (rc, inr x' : X + IvfflatIndex)); [done|].
    by rewrite (delete_unclustered x record rid Hok (short_vector_unclustered x _ Hok Hm Hs)).
Qed.

(** [WHERE field = vector] on a field with a vector index: the planner takes the index as it
    takes a B+ tree, and the scan cannot be opened. *)
Lemma vector_equality_fails table name field x v fuel mode n : table.(find_index_by_field) field = Some (vector_index x) ->
  let clause := [mkUnit EQUAL_TO (FilterAttr name field VECTORS) (FilterValue (VVector v))] in
  exists preds op, create_comparisons clause = mret preds /\ table_get_plan fuel table mode preds = mret op /\
    execute op n = Some (inl INTERNAL).
Proof.
  intros Hi clause. eexists. eexists. split; [reflexivity|]. split.
  - unfold table_get_plan. cbn. rewrite Hi. reflexivity.
  - reflexivity.
Qed.
End queries.

(** ** Examples

    A table of three rows with the vectors [1], [2] and [-1] in a field of one dimension. *)
#[local] Existing Instance compare_int_comparator.
#[local] Existing Instance int_index.
#[local] Existing Instance int_index_laws.
Definition demo_row_ops : list TableOp := [TInsert [0; 0; 128; 63]; TInsert [0; 0; 0; 64]; TInsert [0; 0; 128; 191]].
Definition demo_vector_file : RecordFile.RecFile :=
  match run_table RecordFile.demo_first 4 0 demo_table demo_row_ops with
  | Some (_, t) => t.(HeapTable.record_handler) | None => RecordFile.demo_file end.
Definition demo_vector_field : FieldMeta := mkField "v" VECTORS 0 4.
Definition demo_engine : HeapTable.HeapTableEngine (IvfflatIndex + IvfflatIndex) := HeapTable.mkTable demo_vector_file [].

Lemma demo_vector_rows : all_rows demo_vector_file =
  [(mkRID 1 0, [0; 0; 128; 63]); (mkRID 1 1, [0; 0; 0; 64]); (mkRID 1 2, [0; 0; 128; 191])].
Proof. vm_compute. reflexivity. Qed.

Lemma demo_vector_file_ok : RecordFile.file_ok 4 demo_vector_file.
Proof.
  destruct (run_table_ok RecordFile.demo_first 4 0 0 demo_table demo_row_ops RecordFile.demo_first_in
    RecordFile.demo_layout ltac:(repeat constructor; cbn; lia) (demo_table_ok (length demo_row_ops + 0) ltac:(by vm_compute))) as (l & t & E & Ht & _).
  unfold demo_vector_file. rewrite E. by destruct Ht.
Qed.

(** The rows as the operators get them. *)
Definition demo_vector_table : Table :=
  mkTable "t" [demo_vector_field] (fun _ => None) unit (fun _ => (INTERNAL, tt)) (fun _ => (RECORD_EOF, None, tt)) (fun _ => SUCCESS)
    (HeapTable.get_record demo_engine) (fun _ _ => SUCCESS).

(** Cosine: any vectors can be compared. *)
Lemma cosine_query_ok x query : x.(distance_method) = text "cosine" -> zlen query = x.(dim) -> query_ok x query.
Proof. intros Hm Hd. split; [done|]. rewrite Hm. split; by apply Forall_true. Qed.

Lemma vector_query_nearest_witness : let _ := demo_clib in let _ := demo_sort in let _ := demo_random in
  exists x found, create_vector_index 9 true demo_engine demo_vector_field (text "cosine") 2 2 =
      Some (SUCCESS, HeapTable.mkTable demo_vector_file [inr x], Some (file_bytes x)) /\
    nearest_of (row_distance x [f_one]) 2 (all_rows demo_vector_file) found /\ length found = 2%nat /\
    execute (vector_index_scan demo_vector_table (vector_index x) [f_one] 2 []) 9 =
      Some (inr (row_tuple demo_vector_table <$> base.filter (fun _ => true = true) found, RECORD_EOF)).
Proof.
  intros c s r. assert (Hlen : length (all_rows demo_vector_file) = 3%nat) by by rewrite demo_vector_rows.
  destruct (vector_query_nearest (X := IvfflatIndex) 4 9 demo_engine demo_vector_field (text "cosine") 2 2)
    as (x & Hc & Hd & Hm & Hrun); [exact demo_vector_file_ok|reflexivity|cbn; lia|lia|change (length (all_rows demo_vector_file) < 9)%nat; lia|].
  destruct (Hrun demo_vector_table [f_one] 2 [] (fun _ => true)) as (found & Hn & Hex);
    [apply cosine_query_ok; [exact Hm|exact (eq_sym Hd)]|lia|reflexivity|reflexivity|].
  assert (length found = 2%nat) as Hl.
  { destruct Hn as [Hn _ _]. change (HeapTable.record_handler demo_engine) with demo_vector_file in Hn. unfold zlen in Hn. lia. }
  exists x, found. split_and!; [exact Hc|exact Hn|exact Hl|]. apply Hex. lia.
Defined.

(** A table with an index for the cosine distance and a row of zeros. *)
Definition demo_cosine : IvfflatIndex := mkIvf true 0 2 (text "cosine") 1 1 [[f_one; f_one]] [[]].
Lemma demo_cosine_ok : ivf_ok demo_cosine.
Proof. split; try done; [by repeat constructor..|]. intros i l Hl. destruct i as [|i]; cbn in Hl; [by injection Hl as <-|done]. Qed.

Definition demo_cosine_engine : HeapTable.HeapTableEngine (IvfflatIndex + IvfflatIndex) := HeapTable.mkTable RecordFile.demo_file [inr demo_cosine].

Lemma short_vector_row_stuck_witness :
  (exists x', index_insert demo_cosine (demo_record f_zero f_zero) (mkRID 1 0) = Some (SUCCESS, x') /\
    mkItem (extract_vector demo_cosine (demo_record f_zero f_zero)) (mkRID 1 0) ∈ entries x') /\
  HeapTable.delete_record demo_cosine_engine (demo_record f_zero f_zero) (mkRID 1 0) = None.
Proof.
  apply (short_vector_row_stuck demo_cosine_engine demo_cosine (demo_record f_zero f_zero) (mkRID 1 0));
    [left|exact demo_cosine_ok|reflexivity|vm_compute; reflexivity].
Defined.
