(* ===== verification/OrderedCode.v ===== *)
(** * OrderedCode: byte strings that sort like the values they encode

    [src/src/observer/storage/common/codec.h] and [codec.cpp]: the class [OrderedCode]
    (keys of the LSM engine) and the key layout of the class [Codec].  A byte is a [Z]
    between 0 and 255; [append] extends a byte vector, [parse] consumes a span and
    changes its destination also when it fails, so it returns the code, the rest of the
    span and the destination.  A [double] is its 64 bits.

    The theorems: every [append] agrees with a closed form ([int_code], [uint_code],
    [escape]); parsing gives back what was appended, in both directions; and the byte order
    of codes is the order of values, whatever follows them, so that concatenated codes
    compare field by field. *)

From S2P Require Import Prelude Bytes.

(** ** The order of byte strings *)

(** [std::string_view::compare]: the common prefix byte by byte (unsigned), then the
    lengths. *)
Fixpoint bytes_compare (a b : list Z) : comparison :=
  match a, b with
  | [], [] => Eq
  | [], _ => Lt
  | _, [] => Gt
  | x :: a', y :: b' => match x ?= y with Eq => bytes_compare a' b' | c => c end
  end.

(** [before a b]: at the first byte where they differ, [a] has the smaller one; neither
    is a prefix of the other. *)
Definition before (a b : list Z) : Prop :=
  exists p x y s t, a = p ++ x :: s /\ b = p ++ y :: t /\ x < y.

Module OrderedCode.

Definition term : list Z := [0x00; 0x01].
Definition lit00 : list Z := [0x00; 0xff].
Definition litff : list Z := [0xff; 0x00].
Definition inf : list Z := [0xff; 0xff].
Definition msb : list Z := [0x00; 0x80; 0xc0; 0xe0; 0xf0; 0xf8; 0xfc; 0xfe].

Definition increasing : Z := 0x00.
Definition decreasing : Z := 0xff.

Definition invert (s : list Z) : list Z := map (fun c => Z.lxor c 0xff) s.

(** *** Appending *)

(** [for (; x > 0; x >>= 8) buf[i--] = static_cast<byte_t>(x);] with at most [fuel]
    iterations; eight are enough for 64 bits ([uint_loop_spec]). *)
Fixpoint uint_loop (fuel : nat) (buf : list Z) (i x : Z) : list Z * Z :=
  match fuel with
  | O => (buf, i)
  | S fuel' => if 0 <? x then uint_loop fuel' (zset buf i (uint8 x)) (i - 1) (Z.shiftr x 8) else (buf, i)
  end.

Definition append_uint64 (s : list Z) (x : Z) : RC * list Z :=
  let '(buf, i) := uint_loop 8 (replicate 9 0) 8 x in
  let buf := zset buf i (uint8 (8 - i)) in
  (SUCCESS, s ++ drop (Z.to_nat i) buf).

(** The same loop in the signed version, which counts the bytes. *)
Fixpoint int_loop (fuel : nat) (buf : list Z) (i n x : Z) : list Z * Z * Z :=
  match fuel with
  | O => (buf, i, n)
  | S fuel' =>
      if 0 <? x then int_loop fuel' (zset buf i (uint8 x)) (i - 1) (n + 1) (Z.shiftr x 8) else (buf, i, n)
  end.

Definition append_int64 (s : list Z) (x : Z) : RC * list Z :=
  if (-64 <=? x) && (x <? 64) then (SUCCESS, s ++ [uint8 (Z.lxor x 0x80)])
  else
    let neg := x <? 0 in
    let x := if neg then Z.lnot x else x in
    let '(buf, i, n) := int_loop 8 (replicate 10 0) 9 1 x in
    let lfb := 7 <? n in
    let n := if lfb then n - 7 else n in
    let '(n, i) := if znth 0 buf (i + 1) <? Z.shiftl 1 (8 - n) then (n - 1, i + 1) else (n, i) in
    let buf := zset buf i (Z.lor (znth 0 buf i) (znth 0 msb n)) in
    let '(buf, i) := if lfb then (zset buf (i - 1) 0xff, i - 1) else (buf, i) in
    let buf := if neg then take (Z.to_nat i) buf ++ invert (drop (Z.to_nat i) buf) else buf in
    (SUCCESS, s ++ drop (Z.to_nat i) buf).

Definition INT64_MIN : Z := - 2 ^ 63.

(** [std::isnan] of the double with the bits [b]. *)
Definition isnan (b : Z) : bool :=
  (Z.land (Z.shiftr b 52) 0x7ff =? 0x7ff) && negb (Z.land b (2 ^ 52 - 1) =? 0).

Definition append_float64 (s : list Z) (b : Z) : RC * list Z :=
  if isnan b then (INVALID_ARGUMENT, s)
  else
    let i := int64 b in
    let i := if i <? 0 then int64 (INT64_MIN - i) else i in
    append_int64 s i.

(** The loop over the characters: [l] is the start of the bytes not copied yet. *)
Fixpoint string_loop (fuel : nat) (x s : list Z) (l c : nat) : list Z * nat :=
  match fuel with
  | O => (s, l)
  | S fuel' =>
      match x !! c with
      | None => (s, l)
      | Some 0x00 => string_loop fuel' x (s ++ take (c - l) (drop l x) ++ lit00) (c + 1) (c + 1)
      | Some 0xff => string_loop fuel' x (s ++ take (c - l) (drop l x) ++ litff) (c + 1) (c + 1)
      | Some _ => string_loop fuel' x s l (c + 1)
      end
  end.

Definition append_string (s x : list Z) : RC * list Z :=
  let '(s, l) := string_loop (S (length x)) x s 0 0 in
  (SUCCESS, s ++ drop l x ++ term).

Definition append_trailing_string (s x : list Z) : RC * list Z := (SUCCESS, s ++ x).

Definition append_infinity (s : list Z) : RC * list Z := (SUCCESS, s ++ inf).

Record string_or_infinity := { soi_s : list Z; soi_inf : bool }.

Definition append_string_or_infinity (s : list Z) (x : string_or_infinity) : RC * list Z :=
  if soi_inf x then
    if negb (bool_decide (soi_s x = [])) then (INVALID_ARGUMENT, s) else append_infinity s
  else append_string s (soi_s x).

(** *** Parsing *)

(** [for (byte_t mask = 0x80; (c & mask) != 0; mask >>= 1) { c &= ~mask; n++; }]: the mask
    is zero after eight steps. *)
Fixpoint mask_loop (fuel : nat) (mask c n : Z) : Z * Z :=
  match fuel with
  | O => (c, n)
  | S fuel' =>
      if negb (Z.land c mask =? 0) then mask_loop fuel' (Z.shiftr mask 1) (Z.land c (Z.lnot mask)) (n + 1)
      else (c, n)
  end.

(** [x = x << 8 | (b ^ dir)] over the bytes [b] of [l]; [wrap] is the wrap-around of the
    shift, at the width of [x]. *)
Fixpoint shift_in (wrap : Z -> Z) (dir : Z) (l : list Z) (x : Z) : Z :=
  match l with
  | [] => x
  | b :: l' => shift_in wrap dir l' (Z.lor (wrap (Z.shiftl x 8)) (Z.lxor b dir))
  end.

Definition parse_int64 (s : list Z) (dir dst : Z) : RC * list Z * Z :=
  match s with
  | [] => (INVALID_ARGUMENT, s, dst)
  | s0 :: s1 =>
      let c := Z.lxor s0 dir in
      if (0x40 <=? c) && (c <? 0xc0) then (SUCCESS, s1, wrap_s 8 (Z.lxor c 0x80))
      else
        let neg := Z.land c 0x80 =? 0 in
        let c := if neg then uint8 (Z.lnot c) else c in
        let dir := if neg then uint8 (Z.lnot dir) else dir in
        let long := c =? 0xff in
        if long && (zlen s =? 1) then (INVALID_ARGUMENT, s, dst)
        else
          let s := if long then s1 else s in
          let c := if long then Z.lxor (znth 0 s 0) dir else c in
          if long && (0xc0 <? c) then (INVALID_ARGUMENT, s, dst)
          else
            let '(c, n) := mask_loop 8 0x80 c (if long then 7 else 0) in
            if zlen s <? n then (INVALID_ARGUMENT, s, dst)
            else
              let x := shift_in int64 dir (take (Z.to_nat (n - 1)) (drop 1 s)) c in
              let x := if neg then Z.lnot x else x in
              (SUCCESS, drop (Z.to_nat n) s, x)
  end.

Definition parse_uint64 (s : list Z) (dir dst : Z) : RC * list Z * Z :=
  match s with
  | [] => (INVALID_ARGUMENT, s, dst)
  | s0 :: s1 =>
      let n := Z.lxor s0 dir in
      if (8 <? n) || (int32 (zlen s) <? 1 + n) then (INVALID_ARGUMENT, s, dst)
      else (SUCCESS, drop (Z.to_nat (1 + n)) s, shift_in uint64 dir (take (Z.to_nat n) s1) 0)
  end.

Definition parse_infinity (s : list Z) (dir : Z) : RC * list Z :=
  match s with
  | s0 :: s1 :: rest =>
      if negb (Z.lxor s0 dir =? 0xff) || negb (Z.lxor s1 dir =? 0xff) then (INVALID_ARGUMENT, s)
      else (SUCCESS, rest)
  | _ => (INVALID_ARGUMENT, s)
  end.

(** The loop of the string parser at index [i], with the start [l] of the bytes not copied
    to [buf] yet.  [i] grows in every step. *)
Fixpoint parse_string_loop (fuel : nat) (s : list Z) (dir : Z) (dst buf : list Z) (l i : nat) : RC * list Z * list Z :=
  match fuel with
  | O => (INVALID_ARGUMENT, s, dst)
  | S fuel' =>
      if int32 (zlen s) <=? Z.of_nat i then (INVALID_ARGUMENT, s, dst)
      else
        let c := Z.lxor (nth i s 0) dir in
        let seg := take (i - l) (drop l s) in
        if c =? 0x00 then
          if int32 (zlen s) <=? Z.of_nat i + 1 then (INVALID_ARGUMENT, s, dst)
          else
            let c1 := Z.lxor (nth (i + 1) s 0) dir in
            if c1 =? 0x01 then
              if (l =? 0)%nat && (dir =? increasing) then (SUCCESS, drop (i + 2) s, take i s)
              else
                let buf := buf ++ seg in
                let buf := if dir =? decreasing then invert buf else buf in
                (SUCCESS, drop (i + 2) s, buf)
            else if c1 =? 0xff then
              parse_string_loop fuel' s dir dst (buf ++ seg ++ [Z.lxor 0x00 dir]) (i + 2) (i + 2)
            else (INVALID_ARGUMENT, s, dst)
        else if c =? 0xff then
          if (int32 (zlen s) <=? Z.of_nat i + 1) || negb (Z.lxor (nth (i + 1) s 0) dir =? 0x00)
          then (INVALID_ARGUMENT, s, dst)
          else parse_string_loop fuel' s dir dst (buf ++ seg ++ [Z.lxor 0xff dir]) (i + 2) (i + 2)
        else parse_string_loop fuel' s dir dst buf l (i + 1)
  end.

Definition parse_string (s : list Z) (dir : Z) (dst : list Z) : RC * list Z * list Z :=
  parse_string_loop (S (length s)) s dir dst [] 0 0.

(** The return code of the integer parser is not looked at. *)
Definition parse_float64 (s : list Z) (dir dst : Z) : RC * list Z * Z :=
  let '(_, s, i) := parse_int64 s dir 0 in
  let i := if i <? 0 then int64 (INT64_MIN - i) else i in
  let dst := uint64 i in
  (if isnan dst then INVALID_ARGUMENT else SUCCESS, s, dst).

(** Nothing throws in the [try] block, so its [catch] is never entered. *)
Definition parse_string_or_infinity (s : list Z) (dir : Z) (dst : string_or_infinity) :
  RC * list Z * string_or_infinity :=
  let '(rc, s) := parse_infinity s dir in
  (rc, s, {| soi_s := soi_s dst; soi_inf := true |}).

(** Returns the span too: the decreasing case inverts it in place and neither case
    consumes it. *)
Definition parse_trailing_string (s : list Z) (dir : Z) : RC * list Z * list Z :=
  if dir =? increasing then (SUCCESS, s, s) else (SUCCESS, invert s, invert s).

End OrderedCode.

Module Codec.
Import OrderedCode.

Definition table_prefix : list Z := [0x74].
Definition rowkey_prefix : list Z := [0x72].

Definition encode_without_rid (table_id : Z) (encoded_key : list Z) : RC * list Z :=
  let '(rc, k) := append_string encoded_key table_prefix in
  if OB_FAIL rc then (rc, k) else append_int64 k table_id.

Definition encode_table_prefix (table_id : Z) (encoded_key : list Z) : RC * list Z :=
  let '(rc, k) := append_string encoded_key table_prefix in
  if OB_FAIL rc then (rc, k) else
  let '(rc, k) := append_int64 k table_id in
  if OB_FAIL rc then (rc, k) else append_string k rowkey_prefix.

Definition encode (table_id rid : Z) (encoded_key : list Z) : RC * list Z :=
  let '(rc, k) := append_string encoded_key table_prefix in
  if OB_FAIL rc then (rc, k) else
  let '(rc, k) := append_int64 k table_id in
  if OB_FAIL rc then (rc, k) else
  let '(rc, k) := append_string k rowkey_prefix in
  if OB_FAIL rc then (rc, k) else append_uint64 k rid.

Definition encode_int (val : Z) (dst : list Z) : RC * list Z := append_int64 dst val.

Definition decode (encoded_key : list Z) (table_id : Z) : RC * Z :=
  let '(rc, sp, _) := parse_string encoded_key increasing [] in
  if OB_FAIL rc then (rc, table_id) else
  let '(rc, _, table_id) := parse_int64 sp increasing table_id in
  (rc, table_id).

End Codec.

(** ** The order [before] *)

Lemma before_app a b r s : before a b -> before (a ++ r) (b ++ s).
Proof.
  intros (p & x & y & u & v & -> & -> & Hxy). exists p, x, y, (u ++ r), (v ++ s).
  by rewrite <- !app_assoc.
Qed.

Lemma before_prefix p a b : before a b -> before (p ++ a) (p ++ b).
Proof.
  intros (q & x & y & u & v & -> & -> & Hxy). exists (p ++ q), x, y, u, v. by rewrite <- !app_assoc.
Qed.

Lemma before_head x y a b : x < y -> before (x :: a) (y :: b).
Proof. intros. by exists [], x, y, a, b. Qed.

Lemma before_compare a b : before a b -> bytes_compare a b = Lt /\ bytes_compare b a = Gt.
Proof.
  intros (p & x & y & u & v & -> & -> & Hxy). induction p as [|z p IH]; cbn.
  - rewrite (Z.compare_antisym x y). by destruct (Z.compare_spec x y); [lia| |lia].
  - by rewrite Z.compare_refl.
Qed.

Lemma bytes_compare_refl a : bytes_compare a a = Eq.
Proof. induction a as [|x a IH]; [done|]. cbn. by rewrite Z.compare_refl. Qed.

(** ** Big-endian bytes *)

Definition be_bytes (n : nat) (x : Z) : list Z := rev (le_bytes n x).

Lemma be_bytes_length n x : length (be_bytes n x) = n.
Proof. unfold be_bytes. by rewrite length_rev, le_bytes_length. Qed.

Lemma be_bytes_byte n x : Forall is_byte (be_bytes n x).
Proof. apply Forall_rev, le_bytes_byte. Qed.

Lemma be_bytes_S n x : be_bytes (S n) x = be_bytes n (x / 256) ++ [x mod 256].
Proof. done. Qed.

(** The leading bytes are those of the quotient. *)
Lemma be_bytes_split a b x : be_bytes (a + b) x = be_bytes a (x / 256 ^ Z.of_nat b) ++ be_bytes b x.
Proof.
  revert x. induction b as [|b IH]; intros x.
  - rewrite Nat.add_0_r, Z.pow_0_r, Z.div_1_r. cbn. by rewrite app_nil_r.
  - rewrite Nat.add_succ_r, !be_bytes_S, IH, <- app_assoc. f_equal.
    rewrite Z.div_div by lia. f_equal. rewrite Nat2Z.inj_succ, Z.pow_succ_r by lia. done.
Qed.

Lemma be_bytes_mod n x y : x mod 256 ^ Z.of_nat n = y mod 256 ^ Z.of_nat n -> be_bytes n x = be_bytes n y.
Proof.
  revert x y. induction n as [|n IH]; intros x y H; [done|].
  rewrite Nat2Z.inj_succ, Z.pow_succ_r, !Z.rem_mul_r in H by lia.
  pose proof (Z.mod_pos_bound x 256). pose proof (Z.mod_pos_bound y 256).
  rewrite !be_bytes_S. assert (x mod 256 = y mod 256) as -> by lia.
  by rewrite (IH (x / 256) (y / 256)) by lia.
Qed.

Lemma be_before n x y : 0 <= x < y -> y < 256 ^ Z.of_nat n -> before (be_bytes n x) (be_bytes n y).
Proof.
  revert x y. induction n as [|n IH]; intros x y Hxy Hy; [cbn in Hy; lia|].
  rewrite Nat2Z.inj_succ, Z.pow_succ_r in Hy by lia. rewrite !be_bytes_S.
  pose proof (Z_div_mod_eq_full x 256). pose proof (Z_div_mod_eq_full y 256).
  pose proof (Z.mod_pos_bound x 256). pose proof (Z.mod_pos_bound y 256).
  destruct (decide (x / 256 = y / 256)) as [E|E].
  - rewrite E. apply before_prefix, before_head. lia.
  - apply before_app, IH; [split; [apply Z.div_pos|]; lia|]. apply Z.div_lt_upper_bound; lia.
Qed.

(** Number of bytes of a value below [2 ^ 64]. *)
Definition nbytes (x : Z) : nat :=
  if x =? 0 then 0%nat else Z.to_nat (Z.log2 x / 8 + 1).

Lemma nbytes_spec x : 0 < x ->
  (0 < nbytes x)%nat /\ 256 ^ (Z.of_nat (nbytes x) - 1) <= x < 256 ^ Z.of_nat (nbytes x).
Proof.
  intros Hx. unfold nbytes. destruct (Z.eqb_spec x 0); [lia|].
  pose proof (Z.log2_nonneg x). pose proof (Z.log2_spec x Hx) as [Hl Hu].
  assert (0 <= Z.log2 x / 8) by (apply Z.div_pos; lia). split; [lia|].
  pose proof (Z.mul_div_le (Z.log2 x) 8). pose proof (Z.mul_succ_div_gt (Z.log2 x) 8).
  rewrite Z2Nat.id by lia. replace 256 with (2 ^ 8) by done. rewrite <- !Z.pow_mul_r by lia.
  split.
  - etransitivity; [|apply Hl]. apply Z.pow_le_mono_r; lia.
  - eapply Z.lt_le_trans; [apply Hu|]. apply Z.pow_le_mono_r; lia.
Qed.

Lemma nbytes_upper x : 0 <= x -> x < 256 ^ Z.of_nat (nbytes x).
Proof. intros. destruct (decide (x = 0)) as [->|]; [done|]. apply nbytes_spec. lia. Qed.

Lemma nbytes_mono x y : 0 <= x <= y -> (nbytes x <= nbytes y)%nat.
Proof.
  intros H. unfold nbytes. destruct (Z.eqb_spec x 0), (Z.eqb_spec y 0); try lia.
  pose proof (Z.log2_le_mono x y). pose proof (Z.log2_nonneg x).
  assert (Z.log2 x / 8 <= Z.log2 y / 8) by (apply Z.div_le_mono; lia). lia.
Qed.

Lemma nbytes_le x n : 0 <= x < 256 ^ Z.of_nat n -> (nbytes x <= n)%nat.
Proof.
  intros H. destruct (decide (x = 0)) as [->|]; [cbn; lia|].
  destruct (nbytes_spec x) as [? [Hl _]]; [lia|].
  assert (Z.of_nat (nbytes x) - 1 < Z.of_nat n) as ?; [|lia].
  apply (Z.pow_lt_mono_r_iff 256); lia.
Qed.

Lemma nbytes_S x : 0 < x -> nbytes x = S (nbytes (x / 256)).
Proof.
  intros Hx. unfold nbytes. destruct (Z.eqb_spec x 0); [lia|].
  destruct (Z.eqb_spec (x / 256) 0) as [E|E].
  - assert (x < 256) by (apply Z.div_small_iff in E; lia).
    assert (Z.log2 x < 8) by (apply Z.log2_lt_pow2; lia). pose proof (Z.log2_nonneg x).
    rewrite Z.div_small by lia. done.
  - assert (0 < x / 256) by (pose proof (Z.div_pos x 256); lia).
    replace (x / 256) with (Z.shiftr x 8) in * by (by rewrite Z.shiftr_div_pow2).
    rewrite Z.log2_shiftr in * by lia. pose proof (Z.log2_nonneg (Z.shiftr x 8)) as Hn.
    assert (256 <= x) by (destruct (Z.le_gt_cases 256 x); [done|]; rewrite Z.shiftr_div_pow2, Z.div_small in E; cbn; lia).
    assert (8 <= Z.log2 x) by (apply Z.log2_le_pow2; lia).
    rewrite Z.max_r by lia. replace (Z.log2 x) with (Z.log2 x - 8 + 1 * 8) at 1 by lia.
    rewrite Z.div_add by lia. pose proof (Z.div_pos (Z.log2 x - 8) 8). lia.
Qed.

Section codes.
Import OrderedCode.

(** ** The fill loops *)

Lemma zset_mid {A} (a : list A) x y b i : i = zlen a -> zset (a ++ x :: b) i y = a ++ y :: b.
Proof.
  intros ->. unfold zset, zlen. destruct (Z.ltb_spec (Z.of_nat (length a)) 0); [lia|].
  rewrite Nat2Z.id, insert_app_r_alt, Nat.sub_diag by lia. done.
Qed.

Lemma znth_mid {A} (d : A) a x b i : i = zlen a -> znth d (a ++ x :: b) i = x.
Proof.
  intros ->. rewrite znth_lookup. unfold zlen. destruct (Z.ltb_spec (Z.of_nat (length a)) 0); [lia|].
  by rewrite Nat2Z.id, list_lookup_middle.
Qed.

Lemma zlen_replicate {A} n (x : A) : zlen (replicate n x) = Z.of_nat n.
Proof. unfold zlen. by rewrite length_replicate. Qed.

Lemma zlen_be n x : zlen (be_bytes n x) = Z.of_nat n.
Proof. unfold zlen. by rewrite be_bytes_length. Qed.

Lemma shiftr_8 x : Z.shiftr x 8 = x / 256.
Proof. by rewrite Z.shiftr_div_pow2. Qed.

(** Enough fuel: the loop ends with all bytes of [x] written, lowest last. *)
Lemma uint_loop_spec fuel j suf x : 0 <= x < 256 ^ Z.of_nat fuel -> (fuel <= j)%nat ->
  uint_loop fuel (replicate j 0 ++ suf) (Z.of_nat j - 1) x =
  (replicate (j - nbytes x) 0 ++ be_bytes (nbytes x) x ++ suf, Z.of_nat j - 1 - Z.of_nat (nbytes x)).
Proof.
  revert j suf x. induction fuel as [|fuel IH]; intros j suf x Hx Hj.
  - assert (x = 0) as -> by (cbn in Hx; lia). cbn. by rewrite Nat.sub_0_r, Z.sub_0_r.
  - cbn [uint_loop]. destruct (Z.ltb_spec 0 x) as [Hp|Hp].
    + destruct j as [|j]; [lia|]. rewrite shiftr_8.
      rewrite replicate_S_end, <- app_assoc. cbn [app].
      rewrite zset_mid by (rewrite zlen_replicate; lia).
      replace (Z.of_nat (S j) - 1 - 1) with (Z.of_nat j - 1) by lia.
      rewrite Nat2Z.inj_succ, Z.pow_succ_r in Hx by lia.
      assert (0 <= x / 256 < 256 ^ Z.of_nat fuel)
        by (split; [apply Z.div_pos|apply Z.div_lt_upper_bound]; lia).
      rewrite IH by lia.
      rewrite (nbytes_S x), be_bytes_S, <- app_assoc by lia. f_equal. lia.
    + assert (x = 0) as -> by lia. cbn. by rewrite Nat.sub_0_r, Z.sub_0_r.
Qed.

Lemma int_loop_uint fuel buf i n x :
  int_loop fuel buf i n x = (uint_loop fuel buf i x, n + (i - (uint_loop fuel buf i x).2)).
Proof.
  revert buf i n x. induction fuel as [|fuel IH]; intros; cbn; [f_equal; lia|].
  destruct (0 <? x); [rewrite IH; f_equal; lia|cbn; f_equal; lia].
Qed.

(** ** Unsigned integers *)

Definition uint_code (x : Z) : list Z := Z.of_nat (nbytes x) :: be_bytes (nbytes x) x.

Lemma nbytes_uint64 x : 0 <= x < 2 ^ 64 -> (nbytes x <= 8)%nat.
Proof. intros. by apply nbytes_le. Qed.

Lemma append_uint64_code s x : 0 <= x < 2 ^ 64 -> append_uint64 s x = (SUCCESS, s ++ uint_code x).
Proof.
  intros Hx. pose proof (nbytes_uint64 x Hx) as Hn. unfold append_uint64.
  pose proof (uint_loop_spec 8 9 [] x Hx ltac:(lia)) as E. rewrite !app_nil_r in E.
  replace (Z.of_nat 9 - 1) with 8 in E by done. rewrite E. do 2 f_equal.
  replace (9 - nbytes x)%nat with (S (8 - nbytes x)) by lia.
  rewrite replicate_S_end, <- app_assoc. cbn [app].
  rewrite zset_mid by (rewrite zlen_replicate; lia).
  rewrite drop_app_length' by (rewrite length_replicate; lia).
  unfold uint_code. f_equal. unfold wrap_u. rewrite Z.mod_small; lia.
Qed.

Lemma uint_code_before x y : 0 <= x < y -> y < 2 ^ 64 -> before (uint_code x) (uint_code y).
Proof.
  intros Hxy Hy. unfold uint_code. pose proof (nbytes_mono x y ltac:(lia)).
  destruct (decide (nbytes x = nbytes y)) as [E|E].
  - rewrite E. apply (before_prefix [_]), be_before; [lia|]. apply nbytes_upper. lia.
  - apply before_head. lia.
Qed.

(** *** Shifting bytes in *)

Lemma lor_byte x b : 0 <= x -> 0 <= b < 256 -> Z.lor (Z.shiftl x 8) b = 256 * x + b.
Proof.
  intros Hx Hb. pose proof (Z.add_lor_land (Z.shiftl x 8) b) as E.
  assert (Z.land (Z.shiftl x 8) b = 0) as E0; [|rewrite E0, Z.shiftl_mul_pow2 in *; lia].
  apply Z.bits_inj'. intros n Hn. rewrite Z.land_spec, Z.bits_0.
  destruct (Z.lt_ge_cases n 8); [by rewrite Z.shiftl_spec_low|].
  assert (Z.testbit b n = false) as ->; [|apply andb_false_r].
  destruct (decide (b = 0)) as [->|]; [apply Z.bits_0|]. apply Z.bits_above_log2; [lia|].
  assert (Z.log2 b < 8) by (apply Z.log2_lt_pow2; lia). lia.
Qed.

Lemma xor_dir dir b : Z.lxor (Z.lxor b dir) dir = b.
Proof. by rewrite Z.lxor_assoc, Z.lxor_nilpotent, Z.lxor_0_r. Qed.

(** A code as it is stored in direction [dir]. *)
Definition xored (dir : Z) (s : list Z) : list Z := map (fun b => Z.lxor b dir) s.

Lemma xored_length dir s : length (xored dir s) = length s.
Proof. apply length_map. Qed.

Lemma xored_0 s : xored 0 s = s.
Proof. unfold xored. rewrite <- (map_id s) at 2. apply map_ext. intros. apply Z.lxor_0_r. Qed.

Lemma xored_twice dir s : xored dir (xored dir s) = s.
Proof. unfold xored. rewrite map_map. rewrite <- (map_id s) at 2. apply map_ext. intros. apply xor_dir. Qed.

Lemma shift_in_app wrap dir a b x : shift_in wrap dir (a ++ b) x = shift_in wrap dir b (shift_in wrap dir a x).
Proof. revert x. induction a as [|c a IH]; intros x; [done|]. apply IH. Qed.

Lemma shift_in_be wrap M dir n x acc : (forall z, 0 <= z < M -> wrap z = z) -> 0 <= acc ->
  acc * 256 ^ Z.of_nat n + x mod 256 ^ Z.of_nat n < M ->
  shift_in wrap dir (xored dir (be_bytes n x)) acc = acc * 256 ^ Z.of_nat n + x mod 256 ^ Z.of_nat n.
Proof.
  intros Hw Ha. revert x. induction n as [|n IH]; intros x Hx.
  - cbn. rewrite Z.mod_1_r. lia.
  - rewrite be_bytes_S. unfold xored in *. rewrite map_app, shift_in_app. cbn [map shift_in].
    rewrite Nat2Z.inj_succ, Z.pow_succ_r, Z.rem_mul_r in * by lia.
    pose proof (Z.mod_pos_bound x 256 ltac:(lia)).
    pose proof (Z.mod_pos_bound (x / 256) (256 ^ Z.of_nat n) ltac:(lia)).
    assert (0 <= acc * 256 ^ Z.of_nat n) by nia.
    rewrite IH, xor_dir by lia.
    rewrite Hw by (rewrite Z.shiftl_mul_pow2 by lia; lia).
    rewrite lor_byte by lia. lia.
Qed.

Lemma parse_uint64_code dir x r dst : dir = increasing \/ dir = decreasing -> 0 <= x < 2 ^ 64 -> zlen r < 2 ^ 30 ->
  parse_uint64 (xored dir (uint_code x) ++ r) dir dst = (SUCCESS, r, x).
Proof.
  intros Hdir Hx Hr. pose proof (nbytes_uint64 x Hx) as Hn. unfold uint_code. cbn [xored map app].
  unfold parse_uint64. rewrite xor_dir. change (map _ ?l) with (xored dir l).
  set (l := xored dir (be_bytes (nbytes x) x)).
  assert (length l = nbytes x) as Hl by (unfold l; by rewrite xored_length, be_bytes_length).
  destruct (Z.ltb_spec 8 (Z.of_nat (nbytes x))); [lia|]. cbn [orb].
  assert (zlen (Z.lxor (Z.of_nat (nbytes x)) dir :: l ++ r) = 1 + Z.of_nat (nbytes x) + zlen r) as ->
    by (unfold zlen; cbn [length]; rewrite length_app; lia).
  rewrite int32_id by (unfold in_int32, INT32_MIN, INT32_MAX; pose proof (zlen_pos r); lia).
  destruct (Z.ltb_spec (1 + Z.of_nat (nbytes x) + zlen r) (1 + Z.of_nat (nbytes x))); [pose proof (zlen_pos r); lia|].
  rewrite Nat2Z.id, take_app_length' by done. replace (Z.to_nat (1 + Z.of_nat (nbytes x))) with (S (nbytes x)) by lia.
  cbn [drop]. rewrite drop_app_length' by done. f_equal. subst l.
  pose proof (nbytes_upper x ltac:(lia)).
  rewrite (shift_in_be _ (2 ^ 64)); [rewrite Z.mod_small by lia; lia|apply wrap_u_id|lia|rewrite Z.mod_small; lia].
Qed.

(** ** Signed integers

    A non-negative value of up to [7 m - 1] bits is written in [m] bytes: [m] one bits, a
    zero bit and the value.  A negative one is the inverted code of its complement. *)
Definition int_width (x : Z) : Z := first_from (fun m => x <? 2 ^ (7 * m - 1)) 1 10.

Definition nat_code (x : Z) : list Z :=
  let m := int_width x in be_bytes (Z.to_nat m) ((2 ^ m - 1) * 2 ^ (7 * m) + x).

Definition int_code (x : Z) : list Z := if x <? 0 then invert (nat_code (Z.lnot x)) else nat_code x.

Lemma int_width_unique x m : 1 <= m <= 10 -> x < 2 ^ (7 * m - 1) -> m = 1 \/ 2 ^ (7 * m - 8) <= x ->
  int_width x = m.
Proof.
  intros Hm Hx Hlow. unfold int_width.
  destruct (first_from_cases (fun m => x <? 2 ^ (7 * m - 1)) 1 10) as [[-> H]|(Hr & H1 & H2)].
  - specialize (H m ltac:(lia)). apply Z.ltb_ge in H. lia.
  - set (r := first_from _ 1 10) in *. apply Z.ltb_lt in H1.
    destruct (Z.lt_trichotomy r m) as [?|[?|?]]; [|done|].
    + assert (2 ^ (7 * r - 1) <= 2 ^ (7 * m - 8)) by (apply Z.pow_le_mono_r; lia). lia.
    + specialize (H2 m ltac:(lia)). apply Z.ltb_ge in H2. lia.
Qed.

Lemma int_width_spec x : 0 <= x < 2 ^ 63 ->
  1 <= int_width x <= 10 /\ x < 2 ^ (7 * int_width x - 1) /\
  (int_width x = 1 \/ 2 ^ (7 * int_width x - 8) <= x).
Proof.
  intros Hx. unfold int_width.
  destruct (first_from_cases (fun m => x <? 2 ^ (7 * m - 1)) 1 10) as [[-> H]|(Hr & H1 & H2)].
  - specialize (H 10 ltac:(lia)). apply Z.ltb_ge in H. cbn in H. lia.
  - set (r := first_from _ 1 10) in *. apply Z.ltb_lt in H1. split_and!; [lia|lia|done|].
    destruct (decide (r = 1)) as [->|]; [by left|right].
    specialize (H2 (r - 1) ltac:(lia)). apply Z.ltb_ge in H2.
    by replace (7 * r - 8) with (7 * (r - 1) - 1) by lia.
Qed.

Lemma int_width_mono x y : 0 <= x <= y -> y < 2 ^ 63 -> int_width x <= int_width y.
Proof.
  intros H Hy. destruct (int_width_spec x) as (? & _ & Hx); [lia|]. destruct (int_width_spec y) as (? & Hy' & _); [lia|].
  destruct (Z.le_gt_cases (int_width x) (int_width y)) as [|Hlt]; [done|].
  destruct Hx as [|Hx]; [lia|].
  assert (2 ^ (7 * int_width y - 1) <= 2 ^ (7 * int_width x - 8)) by (apply Z.pow_le_mono_r; lia). lia.
Qed.

(** One leading byte. *)
Lemma be_bytes_top k a x : 0 <= x -> a + x / 256 ^ Z.of_nat k < 256 -> 0 <= a ->
  be_bytes (S k) (a * 256 ^ Z.of_nat k + x) = (a + x / 256 ^ Z.of_nat k) :: be_bytes k x.
Proof.
  intros Hx Ha H0. change (S k) with (1 + k)%nat. rewrite be_bytes_split.
  assert (0 <= x / 256 ^ Z.of_nat k) by (apply Z.div_pos; lia).
  rewrite Z.div_add_l by lia. change (be_bytes 1 ?z) with [z mod 256]. rewrite Z.mod_small by lia.
  cbn [app]. f_equal. apply be_bytes_mod. by rewrite Z.add_comm, Z_mod_plus_full.
Qed.

Lemma be_bytes_top2 k a x : 0 <= x -> a + x / 256 ^ Z.of_nat k < 256 -> 0 <= a ->
  be_bytes (S (S k)) ((0xff * 256 + a) * 256 ^ Z.of_nat k + x) =
  0xff :: (a + x / 256 ^ Z.of_nat k) :: be_bytes k x.
Proof.
  intros Hx Ha H0. rewrite Z.mul_add_distr_r, <- Z.add_assoc, <- Z.mul_assoc, <- Z.pow_succ_r by lia.
  rewrite <- Nat2Z.inj_succ.
  assert (a * 256 ^ Z.of_nat k + x < 256 ^ Z.of_nat (S k)) as Hs.
  { rewrite Nat2Z.inj_succ, Z.pow_succ_r by lia.
    pose proof (Z_div_mod_eq_full x (256 ^ Z.of_nat k)). pose proof (Z.mod_pos_bound x (256 ^ Z.of_nat k)). nia. }
  rewrite be_bytes_top by (try nia; rewrite Z.div_small by nia; lia).
  rewrite Z.div_small by nia. f_equal. by apply be_bytes_top.
Qed.

Lemma msb_range m : 0 <= m <= 7 -> 0 <= znth 0 msb m /\ znth 0 msb m + 2 * 2 ^ (7 - m) <= 256.
Proof.
  intros Hm. assert (m = 0 \/ m = 1 \/ m = 2 \/ m = 3 \/ m = 4 \/ m = 5 \/ m = 6 \/ m = 7) as Hc by lia.
  destruct_or! Hc; subst; vm_compute; split; discriminate.
Qed.

(** The marker bits and the value do not overlap. *)
Lemma lor_msb m b : 0 <= m <= 7 -> 0 <= b < 2 ^ (7 - m) -> Z.lor b (znth 0 msb m) = b + znth 0 msb m.
Proof.
  intros Hm Hb. pose proof (Z.add_lor_land b (znth 0 msb m)) as E.
  assert (Z.land b (znth 0 msb m) = 0) as E0; [|lia].
  assert (forallb (fun m => forallb (fun b => Z.land b (znth 0 msb m) =? 0) (seqZ 0 (2 ^ (7 - m)))) (seqZ 0 8) = true)
    as Hall by (vm_compute; done).
  rewrite forallb_forall in Hall. specialize (Hall m). rewrite forallb_forall in Hall.
  apply Z.eqb_eq, Hall; apply list_elem_of_In, elem_of_seqZ; lia.
Qed.

(** The part of the value in the marked byte. *)
Lemma short_top m x : 1 <= m <= 7 -> 0 <= x < 2 ^ (7 * m - 1) -> 0 <= x / 256 ^ (m - 1) < 2 ^ (7 - m).
Proof.
  intros Hm Hx. split; [apply Z.div_pos; lia|]. apply Z.div_lt_upper_bound; [lia|]. replace 256 with (2 ^ 8) by done.
  rewrite <- Z.pow_mul_r, <- Z.pow_add_r by lia. replace (8 * (m - 1) + (7 - m)) with (7 * m - 1) by lia. lia.
Qed.

Lemma long_top m x : 8 <= m <= 10 -> 0 <= x < 2 ^ (7 * m - 1) -> 0 <= x / 256 ^ (m - 2) < 2 ^ (7 - (m - 8)).
Proof.
  intros Hm Hx. split; [apply Z.div_pos; lia|]. apply Z.div_lt_upper_bound; [lia|]. replace 256 with (2 ^ 8) by done.
  rewrite <- Z.pow_mul_r, <- Z.pow_add_r by lia. replace (8 * (m - 2) + (7 - (m - 8))) with (7 * m - 1) by lia. lia.
Qed.

Lemma short_code m x : 1 <= m <= 7 -> 0 <= x < 2 ^ (7 * m - 1) ->
  be_bytes (Z.to_nat m) ((2 ^ m - 1) * 2 ^ (7 * m) + x) =
  (znth 0 msb m + x / 256 ^ (m - 1)) :: be_bytes (Z.to_nat (m - 1)) x.
Proof.
  intros Hm Hx. replace (Z.to_nat m) with (S (Z.to_nat (m - 1))) by lia.
  pose proof (short_top m x ltac:(lia) Hx) as [Hd0 Hd].
  replace ((2 ^ m - 1) * 2 ^ (7 * m)) with (znth 0 msb m * 256 ^ Z.of_nat (Z.to_nat (m - 1))).
  - pose proof (msb_range m). rewrite be_bytes_top; rewrite ?Z2Nat.id by lia; [done|lia|lia|lia].
  - rewrite Z2Nat.id by lia. assert (m = 1 \/ m = 2 \/ m = 3 \/ m = 4 \/ m = 5 \/ m = 6 \/ m = 7) as Hc by lia.
    by destruct_or! Hc; subst.
Qed.

Lemma long_code m x : 8 <= m <= 10 -> 0 <= x < 2 ^ (7 * m - 1) ->
  be_bytes (Z.to_nat m) ((2 ^ m - 1) * 2 ^ (7 * m) + x) =
  0xff :: (znth 0 msb (m - 8) + x / 256 ^ (m - 2)) :: be_bytes (Z.to_nat (m - 2)) x.
Proof.
  intros Hm Hx.
  pose proof (long_top m x ltac:(lia) Hx) as [Hd0 Hd].
  replace (Z.to_nat m) with (S (S (Z.to_nat (m - 2)))) by lia.
  replace ((2 ^ m - 1) * 2 ^ (7 * m)) with ((0xff * 256 + znth 0 msb (m - 8)) * 256 ^ Z.of_nat (Z.to_nat (m - 2))).
  - pose proof (msb_range (m - 8)). rewrite be_bytes_top2; rewrite ?Z2Nat.id by lia; [done|lia|lia|lia].
  - rewrite Z2Nat.id by lia. assert (m = 8 \/ m = 9 \/ m = 10) as Hc by lia. by destruct_or! Hc; subst.
Qed.

(** The buffer after the loop, split before its last [k + 1] bytes. *)
Lemma be_bytes_at k x : (k < 10)%nat -> 0 <= x -> x / 256 ^ Z.of_nat k < 256 ->
  be_bytes 10 x = be_bytes (9 - k) (x / 256 ^ Z.of_nat (S k)) ++ x / 256 ^ Z.of_nat k :: be_bytes k x.
Proof.
  intros Hk Hx Ht. replace 10%nat with (9 - k + S k)%nat by lia. rewrite be_bytes_split. f_equal.
  pose proof (be_bytes_top k 0 x Hx) as E. rewrite !Z.add_0_l in E. by rewrite <- E by lia.
Qed.

Lemma mark_short m x : 1 <= m <= 7 -> 0 <= x < 2 ^ (7 * m - 1) ->
  drop (Z.to_nat (10 - m))
    (zset (be_bytes 10 x) (10 - m) (Z.lor (znth 0 (be_bytes 10 x) (10 - m)) (znth 0 msb m))) =
  be_bytes (Z.to_nat m) ((2 ^ m - 1) * 2 ^ (7 * m) + x).
Proof.
  intros Hm Hx. rewrite short_code by done.
  pose proof (short_top m x ltac:(lia) Hx) as [Hd0 Hd].
  pose proof (msb_range m ltac:(lia)).
  rewrite (be_bytes_at (Z.to_nat (m - 1))) by (rewrite ?Z2Nat.id by lia; lia).
  rewrite Z2Nat.id by lia.
  rewrite znth_mid, zset_mid by (rewrite zlen_be; lia).
  rewrite drop_app_length' by (rewrite be_bytes_length; lia). rewrite lor_msb by lia. f_equal. lia.
Qed.

Lemma mark_long m x : 8 <= m <= 10 -> 0 <= x < 2 ^ (7 * m - 1) ->
  drop (Z.to_nat (10 - m))
    (zset (zset (be_bytes 10 x) (11 - m) (Z.lor (znth 0 (be_bytes 10 x) (11 - m)) (znth 0 msb (m - 8)))) (10 - m) 0xff) =
  be_bytes (Z.to_nat m) ((2 ^ m - 1) * 2 ^ (7 * m) + x).
Proof.
  intros Hm Hx. rewrite long_code by done.
  pose proof (long_top m x ltac:(lia) Hx) as [Hd0 Hd].
  pose proof (msb_range (m - 8) ltac:(lia)).
  rewrite (be_bytes_at (Z.to_nat (m - 2))) by (rewrite ?Z2Nat.id by lia; lia).
  rewrite Z2Nat.id by lia. replace (9 - Z.to_nat (m - 2))%nat with (S (Z.to_nat (10 - m))) by lia.
  rewrite znth_mid, zset_mid by (rewrite zlen_be; lia).
  change (S ?k) with (1 + k)%nat. rewrite Nat.add_comm, be_bytes_split, <- app_assoc. cbn [be_bytes le_bytes rev app].
  rewrite zset_mid by (rewrite zlen_be; lia).
  rewrite drop_app_length' by (rewrite be_bytes_length; lia). rewrite lor_msb by lia. do 2 f_equal. lia.
Qed.

Lemma be_bytes_0 n : be_bytes n 0 = replicate n 0.
Proof. induction n as [|n IH]; [done|]. rewrite be_bytes_S, replicate_S_end, <- IH. done. Qed.

Lemma be_bytes_pad n x : 0 <= x -> (nbytes x <= n)%nat -> replicate (n - nbytes x) 0 ++ be_bytes (nbytes x) x = be_bytes n x.
Proof.
  intros Hx Hn. replace n with (n - nbytes x + nbytes x)%nat at 2 by lia. rewrite be_bytes_split.
  rewrite Z.div_small by (split; [done|by apply nbytes_upper]). by rewrite be_bytes_0.
Qed.

Lemma finish_short x m i n : 0 <= x < 2 ^ 63 -> int_width x = m -> m <= 7 -> i = 10 - m -> n = m ->
  let buf := zset (be_bytes 10 x) i (Z.lor (znth 0 (be_bytes 10 x) i) (znth 0 msb n)) in
  drop (Z.to_nat i) buf = nat_code x /\ 0 <= i <= zlen buf.
Proof.
  intros Hx Hm Hr -> ->. destruct (int_width_spec x) as (? & ? & _); [lia|].
  split; [|rewrite !zset_zlen, zlen_be; lia]. unfold nat_code. rewrite Hm in *. apply mark_short; lia.
Qed.

Lemma finish_long x m i n : 0 <= x < 2 ^ 63 -> int_width x = m -> 8 <= m -> i = 11 - m -> n = m - 8 ->
  let buf := zset (zset (be_bytes 10 x) i (Z.lor (znth 0 (be_bytes 10 x) i) (znth 0 msb n))) (i - 1) 0xff in
  drop (Z.to_nat (i - 1)) buf = nat_code x /\ 0 <= i - 1 <= zlen buf.
Proof.
  intros Hx Hm Hr -> ->. destruct (int_width_spec x) as (? & ? & _); [lia|].
  replace (11 - m - 1) with (10 - m) by lia.
  split; [|rewrite !zset_zlen, zlen_be; lia]. unfold nat_code. rewrite Hm in *. apply mark_long; lia.
Qed.

(** The part of [append] after the complement. *)
Lemma append_int64_buffer x : 64 <= x < 2 ^ 63 ->
  let '(buf, i, n) := int_loop 8 (replicate 10 0) 9 1 x in
  let lfb := 7 <? n in
  let n := if lfb then n - 7 else n in
  let '(n, i) := if znth 0 buf (i + 1) <? Z.shiftl 1 (8 - n) then (n - 1, i + 1) else (n, i) in
  let buf := zset buf i (Z.lor (znth 0 buf i) (znth 0 msb n)) in
  let '(buf, i) := if lfb then (zset buf (i - 1) 0xff, i - 1) else (buf, i) in
  drop (Z.to_nat i) buf = nat_code x /\ 0 <= i <= zlen buf.
Proof.
  intros Hx. destruct (nbytes_spec x) as (Hk & Hlo & Hhi); [lia|].
  assert (nbytes x <= 8)%nat as Hk8 by (apply nbytes_le; cbn; lia).
  rewrite int_loop_uint.
  pose proof (uint_loop_spec 8 10 [] x ltac:(cbn; lia) ltac:(lia)) as E. rewrite !app_nil_r in E.
  replace (Z.of_nat 10 - 1) with 9 in E by done. rewrite E, be_bytes_pad by lia. cbn [snd]. clear E.
  assert (znth 0 (be_bytes 10 x) (9 - Z.of_nat (nbytes x) + 1) = x / 256 ^ (Z.of_nat (nbytes x) - 1)) as ->.
  { rewrite (be_bytes_at (nbytes x - 1)); [|lia|lia|].
    - rewrite znth_mid by (rewrite zlen_be; lia). do 2 f_equal. lia.
    - apply Z.div_lt_upper_bound; [lia|]. rewrite Z.mul_comm, <- Z.pow_succ_r by lia.
      by replace (Z.succ (Z.of_nat (nbytes x - 1))) with (Z.of_nat (nbytes x)) by lia. }
  set (k := Z.of_nat (nbytes x)) in *.
  assert (forall j, 0 <= 8 * (k - 1) + j -> 0 <= j -> x / 256 ^ (k - 1) < 2 ^ j <-> x < 2 ^ (8 * (k - 1) + j)) as Htop.
  { intros j Hj Hj0. rewrite Z.pow_add_r, Z.pow_mul_r by lia. change (2 ^ 8) with 256. split; intros H.
    - pose proof (Z_div_mod_eq_full x (256 ^ (k - 1))). pose proof (Z.mod_pos_bound x (256 ^ (k - 1))). nia.
    - apply Z.div_lt_upper_bound; lia. }
  assert (256 ^ (k - 1) = 2 ^ (8 * (k - 1))) as Hlo' by (rewrite Z.pow_mul_r by lia; done).
  assert (256 ^ k = 2 ^ (8 * k)) as Hhi' by (rewrite Z.pow_mul_r by lia; done).
  replace (1 + (9 - (9 - k))) with (1 + k) by lia.
  destruct (Z.ltb_spec 7 (1 + k)) as [Hlong|Hshort].
  - replace (Z.shiftl 1 (8 - (1 + k - 7))) with (2 ^ (14 - k)) by (rewrite Z.shiftl_1_l; f_equal; lia).
    destruct (Z.ltb_spec (x / 256 ^ (k - 1)) (2 ^ (14 - k))) as [Hc|Hc].
    + apply Htop in Hc; [|lia|lia]. apply (finish_long x (k + 1)); [lia| |lia|lia|lia].
      apply int_width_unique; [lia| |right]; (assert (k = 7 \/ k = 8) as Hk78 by lia);
        destruct Hk78 as [Ek|Ek]; rewrite Ek in *; cbn in *; lia.
    + assert (2 ^ (8 * (k - 1) + (14 - k)) <= x) by (apply Z.nlt_ge; rewrite <- Htop by lia; lia).
      apply (finish_long x (k + 2)); [lia| |lia|lia|lia].
      apply int_width_unique; [lia| |right]; (assert (k = 7 \/ k = 8) as Hk78 by lia);
        destruct Hk78 as [Ek|Ek]; rewrite Ek in *; cbn in *; lia.
  - replace (Z.shiftl 1 (8 - (1 + k))) with (2 ^ (7 - k)) by (rewrite Z.shiftl_1_l; f_equal; lia).
    assert (k = 1 \/ 2 ^ (7 * k - 8) <= x) as Hw.
    { destruct (decide (k = 1)) as [|]; [by left|right]. 
      assert (2 ^ (7 * k - 8) <= 2 ^ (8 * (k - 1))) by (apply Z.pow_le_mono_r; lia). lia. }
    destruct (Z.ltb_spec (x / 256 ^ (k - 1)) (2 ^ (7 - k))) as [Hc|Hc].
    + apply Htop in Hc; [|lia|lia]. apply (finish_short x k); [lia| |lia|lia|lia].
      replace (8 * (k - 1) + (7 - k)) with (7 * k - 1) in Hc by lia. by apply int_width_unique; [lia| |].
    + assert (2 ^ (8 * (k - 1) + (7 - k)) <= x) as Hc' by (apply Z.nlt_ge; rewrite <- Htop by lia; lia).
      apply (finish_short x (k + 1)); [lia| |lia|lia|lia].
      assert (2 ^ (8 * k) <= 2 ^ (7 * (k + 1) - 1)) by (apply Z.pow_le_mono_r; lia).
      apply int_width_unique; [lia|lia|right]. by replace (7 * (k + 1) - 8) with (8 * (k - 1) + (7 - k)) by lia.
Qed.

Lemma small_code x : 0 <= x < 64 -> nat_code x = [128 + x].
Proof.
  intros Hx. unfold nat_code. rewrite (int_width_unique x 1) by (cbn; lia).
  change ([(128 + x) mod 256] = [128 + x]). rewrite Z.mod_small by lia. done.
Qed.

Lemma xor_byte_range b c : 0 <= b < 256 -> 0 <= c < 256 -> 0 <= Z.lxor b c < 256.
Proof.
  intros Hb Hc. assert (0 <= Z.lxor b c) as H0 by (rewrite Z.lxor_nonneg; lia). split; [done|].
  destruct (decide (Z.lxor b c = 0)) as [->|]; [lia|].
  apply (Z.log2_lt_pow2 _ 8); [lia|]. eapply Z.le_lt_trans; [apply Z.log2_lxor; lia|].
  apply Z.max_lub_lt; (eapply Z.le_lt_trans; [apply (Z.log2_le_mono _ 255); lia|done]).
Qed.

(** Facts about all bytes, by enumeration. *)
Lemma all_bytes (f : Z -> bool) b : forallb f (seqZ 0 256) = true -> 0 <= b < 256 -> f b = true.
Proof. intros H Hb. rewrite forallb_forall in H. apply H, list_elem_of_In, elem_of_seqZ. lia. Qed.

Lemma xor_ff b : 0 <= b < 256 -> Z.lxor b 0xff = 255 - b.
Proof. intros. apply Z.eqb_eq, (all_bytes (fun b => Z.lxor b 0xff =? 255 - b)); [by vm_compute|done]. Qed.

Lemma append_int64_code s x : - 2 ^ 63 <= x < 2 ^ 63 -> append_int64 s x = (SUCCESS, s ++ int_code x).
Proof.
  intros Hx. unfold append_int64. destruct ((-64 <=? x) && (x <? 64)) eqn:Hsmall.
  - assert (-64 <= x < 64) as Hs by lia. do 3 f_equal. unfold int_code.
    assert (forallb (fun x => bool_decide ([wrap_u 8 (Z.lxor x 128)] =
      if x <? 0 then invert [128 + Z.lnot x] else [128 + x])) (seqZ (-64) 128) = true) as Hall by (by vm_compute).
    rewrite forallb_forall in Hall. specialize (Hall x). rewrite bool_decide_eq_true in Hall.
    rewrite Hall by (apply list_elem_of_In, elem_of_seqZ; lia).
    destruct (Z.ltb_spec x 0); by rewrite small_code by (unfold Z.lnot; lia).
  - unfold int_code. set (ax := if x <? 0 then Z.lnot x else x).
    assert (64 <= ax < 2 ^ 63) as Hax by (unfold ax, Z.lnot; destruct (Z.ltb_spec x 0); lia).
    pose proof (append_int64_buffer ax Hax) as H.
    destruct (int_loop 8 _ 9 1 ax) as [[buf i] n]. cbn zeta in H |- *.
    destruct (if znth 0 buf (i + 1) <? _ then _ else _) as [n' i'].
    destruct (if 7 <? n then (_, _) else _) as [buf' i'']. destruct H as [H [Hi1 Hi2]]. do 2 f_equal.
    unfold ax in *. destruct (x <? 0); [|done]. rewrite <- H. unfold zlen in *.
    rewrite drop_app_length' by (rewrite length_take; lia). done.
Qed.

(** *** The order of codes *)

Lemma nat_code_value x m : 0 <= x -> 1 <= m -> x < 2 ^ (7 * m - 1) ->
  256 ^ m - 2 ^ (7 * m) <= (2 ^ m - 1) * 2 ^ (7 * m) + x < 256 ^ m - 2 ^ (7 * m - 1).
Proof.
  intros Hx Hm Hu. replace (256 ^ m) with (2 ^ m * 2 ^ (7 * m)).
  - assert (2 ^ (7 * m) = 2 * 2 ^ (7 * m - 1)) by (rewrite <- Z.pow_succ_r by lia; f_equal; lia). lia.
  - rewrite <- Z.pow_add_r by lia. replace 256 with (2 ^ 8) by done. rewrite <- Z.pow_mul_r by lia. f_equal. lia.
Qed.

Lemma nat_code_before x y : 0 <= x < y -> y < 2 ^ 63 -> before (nat_code x) (nat_code y).
Proof.
  intros Hxy Hy. pose proof (int_width_mono x y ltac:(lia) Hy) as Hle.
  destruct (int_width_spec x) as (Hm & Hmx & _); [lia|]. destruct (int_width_spec y) as (Hm' & Hmy & _); [lia|].
  unfold nat_code. set (m := int_width x) in *. set (m' := int_width y) in *.
  pose proof (nat_code_value x m). pose proof (nat_code_value y m').
  assert (0 < 2 ^ (7 * m - 1)) by lia. assert (0 < 2 ^ (7 * m' - 1)) by lia.
  destruct (decide (m = m')) as [E|E].
  - rewrite <- E in *. apply be_before; [|rewrite Z2Nat.id; lia].
    split; [|lia]. apply Z.add_nonneg_nonneg; [apply Z.mul_nonneg_nonneg|]; lia.
  - set (N := (2 ^ m' - 1) * _ + y) in *. replace (Z.to_nat m') with (Z.to_nat m + Z.to_nat (m' - m))%nat by lia.
    rewrite be_bytes_split. rewrite <- (app_nil_r (be_bytes (Z.to_nat m) _)) at 1. apply before_app.
    rewrite Z2Nat.id by lia. set (d := m' - m) in *.
    assert (256 ^ m' = 256 ^ d * 256 ^ m) as E' by (rewrite <- Z.pow_add_r by lia; f_equal; lia).
    assert (2 ^ (7 * m') <= 256 ^ d * 2 ^ (7 * m - 1)).
    { replace 256 with (2 ^ 8) by done. rewrite <- Z.pow_mul_r, <- Z.pow_add_r by lia. apply Z.pow_le_mono_r; lia. }
    apply be_before.
    + split; [apply Z.add_nonneg_nonneg; [apply Z.mul_nonneg_nonneg|]; lia|].
      apply Z.lt_le_trans with (256 ^ m - 2 ^ (7 * m - 1)); [lia|]. apply Z.div_le_lower_bound; lia.
    + rewrite Z2Nat.id by lia. apply Z.div_lt_upper_bound; lia.
Qed.

Lemma invert_before a b : Forall is_byte a -> Forall is_byte b -> before a b -> before (invert b) (invert a).
Proof.
  intros Ha Hb (p & x & y & u & v & -> & -> & Hxy). unfold invert. rewrite !map_app. cbn [map].
  apply before_prefix, before_head. apply Forall_app in Ha as [_ [Hx _]%Forall_cons].
  apply Forall_app in Hb as [_ [Hy _]%Forall_cons]. unfold is_byte in *. rewrite !xor_ff by lia. lia.
Qed.

Lemma nat_code_byte x : Forall is_byte (nat_code x).
Proof. apply be_bytes_byte. Qed.

Lemma msb_high m : 1 <= m <= 7 -> 0x80 <= znth 0 msb m /\ (2 <= m -> 0xc0 <= znth 0 msb m).
Proof.
  intros Hm. assert (m = 1 \/ m = 2 \/ m = 3 \/ m = 4 \/ m = 5 \/ m = 6 \/ m = 7) as Hc by lia.
  destruct_or! Hc; subst; vm_compute; split; [discriminate|intros []|..]; done.
Qed.

Lemma nat_code_head x : 0 <= x < 2 ^ 63 -> exists b t, nat_code x = b :: t /\ 0x80 <= b < 256.
Proof.
  intros Hx. destruct (int_width_spec x) as (Hm & Hmx & _); [lia|].
  pose proof (nat_code_byte x) as Hb. unfold nat_code in *. set (m := int_width x) in *.
  destruct (Z.le_gt_cases m 7) as [H7|H7].
  - rewrite short_code in * by lia. eexists _, _. split; [done|]. apply Forall_cons in Hb as [Hb _].
    pose proof (msb_high m). assert (0 <= x / 256 ^ (m - 1)) by (apply Z.div_pos; lia). unfold is_byte in *. lia.
  - rewrite long_code in * by lia. eexists _, _. split; [done|]. lia.
Qed.

Lemma int_code_before x y : - 2 ^ 63 <= x < y -> y < 2 ^ 63 -> before (int_code x) (int_code y).
Proof.
  intros Hxy Hy. unfold int_code. destruct (Z.ltb_spec x 0), (Z.ltb_spec y 0).
  - apply invert_before; [apply nat_code_byte..|]. apply nat_code_before; unfold Z.lnot; lia.
  - destruct (nat_code_head (Z.lnot x)) as (b & t & -> & Hb); [unfold Z.lnot; lia|].
    destruct (nat_code_head y) as (c & u & -> & Hc); [lia|]. cbn [invert map]. apply before_head.
    rewrite xor_ff by lia. lia.
  - lia.
  - apply nat_code_before; lia.
Qed.

(** *** Parsing signed integers *)

Lemma mask_loop_n fuel mask c n :
  mask_loop fuel mask c n = ((mask_loop fuel mask c 0).1, n + (mask_loop fuel mask c 0).2).
Proof.
  revert mask c n. induction fuel as [|fuel IH]; intros; cbn [mask_loop]; [by rewrite Z.add_0_r|].
  destruct (negb _); [|by rewrite Z.add_0_r].
  rewrite IH, (IH _ _ (0 + 1)). cbn. f_equal. lia.
Qed.

Lemma mask_loop_msb m t n : 0 <= m <= 7 -> 0 <= t < 2 ^ (7 - m) ->
  mask_loop 8 0x80 (znth 0 msb m + t) n = (t, n + m).
Proof.
  intros Hm Ht. rewrite mask_loop_n.
  assert (forallb (fun m => forallb (fun t => bool_decide (mask_loop 8 0x80 (znth 0 msb m + t) 0 = (t, m)))
    (seqZ 0 (2 ^ (7 - m)))) (seqZ 0 8) = true) as Hall by (by vm_compute).
  rewrite forallb_forall in Hall. specialize (Hall m). rewrite forallb_forall in Hall.
  assert (mask_loop 8 0x80 (znth 0 msb m + t) 0 = (t, m)) as ->; [|done].
  apply (bool_decide_eq_true_1 _), Hall; apply list_elem_of_In, elem_of_seqZ; lia.
Qed.

(** Parsing from the first byte on, once the sign is known: what [parse_int64] does with
    the byte [c] under the direction [dir], for the complement of a negative value. *)
Definition parse_tail (s : list Z) (dir c dst : Z) : RC * list Z * Z :=
  let long := c =? 0xff in
  if long && (zlen s =? 1) then (INVALID_ARGUMENT, s, dst)
  else
    let s := if long then drop 1 s else s in
    let c := if long then Z.lxor (znth 0 s 0) dir else c in
    if long && (0xc0 <? c) then (INVALID_ARGUMENT, s, dst)
    else
      let '(c, n) := mask_loop 8 0x80 c (if long then 7 else 0) in
      if zlen s <? n then (INVALID_ARGUMENT, s, dst)
      else (SUCCESS, drop (Z.to_nat n) s, shift_in int64 dir (take (Z.to_nat (n - 1)) (drop 1 s)) c).

Lemma xored_app dir a b : xored dir (a ++ b) = xored dir a ++ xored dir b.
Proof. apply map_app. Qed.

Lemma xored_cons dir a b : xored dir (a :: b) = Z.lxor a dir :: xored dir b.
Proof. done. Qed.

(** The value bytes after the marker bits. *)
Lemma shift_in_value dir k z : 0 <= z < 2 ^ 63 ->
  shift_in int64 dir (xored dir (be_bytes k z)) (z / 256 ^ Z.of_nat k) = z.
Proof.
  intros Hz. pose proof (Z_div_mod_eq_full z (256 ^ Z.of_nat k)).
  rewrite (shift_in_be _ (2 ^ 63)); [lia| |apply Z.div_pos; lia|lia].
  intros w Hw. apply wrap_s_id; cbn; lia.
Qed.

Lemma zlen_two {A} (a b : A) l : (zlen (a :: b :: l) =? 1) = false.
Proof. rewrite !zlen_cons. pose proof (zlen_pos l). destruct (Z.eqb_spec (1 + (1 + zlen l)) 1); [lia|done]. Qed.

(** The bytes of the value behind a marked byte [a]. *)
Lemma take_value dir k z a r : 0 <= z < 2 ^ 63 ->
  let s := a :: xored dir (be_bytes k z) ++ r in
  (zlen s <? Z.of_nat (S k)) = false /\ drop (S k) s = r /\
  shift_in int64 dir (take k (drop 1 s)) (z / 256 ^ Z.of_nat k) = z.
Proof.
  intros Hz. cbn zeta. rewrite zlen_cons, zlen_app. unfold zlen at 1.
  cbn [drop]. rewrite drop_0, drop_app_length', take_app_length' by (by rewrite xored_length, be_bytes_length).
  rewrite xored_length, be_bytes_length, shift_in_value by done. pose proof (zlen_pos r).
  split_and!; [|done..]. destruct (Z.ltb_spec (1 + (Z.of_nat k + zlen r)) (Z.of_nat (S k))); [lia|done].
Qed.

Lemma parse_tail_short dir z m r dst : 2 <= m <= 7 -> 0 <= z < 2 ^ (7 * m - 1) ->
  let b := znth 0 msb m + z / 256 ^ (m - 1) in
  parse_tail (xored dir (b :: be_bytes (Z.to_nat (m - 1)) z) ++ r) dir b dst = (SUCCESS, r, z).
Proof.
  intros Hm Hz b. pose proof (short_top m z ltac:(lia) ltac:(lia)) as [Hd0 Hd].
  pose proof (msb_range m ltac:(lia)) as Hr. unfold parse_tail.
  destruct (Z.eqb_spec b 0xff); [lia|]. cbn [andb]. unfold b. rewrite mask_loop_msb by lia.
  assert (2 ^ (7 * m - 1) <= 2 ^ 63) by (apply Z.pow_le_mono_r; lia).
  destruct (take_value dir (Z.to_nat (m - 1)) z (Z.lxor b dir) r ltac:(lia)) as (E1 & E2 & E3).
  rewrite Z2Nat.id in E3 by lia.
  replace (0 + m) with (Z.of_nat (S (Z.to_nat (m - 1)))) by lia.
  replace (Z.of_nat (S (Z.to_nat (m - 1))) - 1) with (m - 1) by lia.
  fold b. rewrite xored_cons, <- app_comm_cons, E1, Nat2Z.id, E2, E3. done.
Qed.

Lemma parse_tail_long dir z m r dst : 8 <= m <= 10 -> 0 <= z < 2 ^ 63 -> z < 2 ^ (7 * m - 1) ->
  let b := znth 0 msb (m - 8) + z / 256 ^ (m - 2) in
  parse_tail (xored dir (0xff :: b :: be_bytes (Z.to_nat (m - 2)) z) ++ r) dir 0xff dst = (SUCCESS, r, z).
Proof.
  intros Hm Hz Hu b. pose proof (long_top m z ltac:(lia) ltac:(lia)) as [Hd0 Hd].
  assert (b <= 0xc0) as Hc0.
  { unfold b. assert (m = 8 \/ m = 9 \/ m = 10) as Hc by lia. destruct Hc as [E|[E|E]]; rewrite E in *.
    - change (znth 0 msb (8 - 8)) with 0. cbn -[Z.div] in *. lia.
    - change (znth 0 msb (9 - 8)) with 128. cbn -[Z.div] in *. lia.
    - rewrite (Z.div_small z) by (cbn; lia). by vm_compute. }
  unfold parse_tail. rewrite !xored_cons, <- !app_comm_cons, zlen_two. cbn [Z.eqb Pos.eqb andb].
  change (drop 1 (?a :: ?l)) with (drop 0 l). rewrite drop_0. change (znth 0 (?a :: _) 0) with a. rewrite xor_dir.
  destruct (Z.ltb_spec 0xc0 b); [lia|]. unfold b. rewrite mask_loop_msb by lia.
  destruct (take_value dir (Z.to_nat (m - 2)) z (Z.lxor b dir) r ltac:(lia)) as (E1 & E2 & E3).
  rewrite Z2Nat.id in E3 by lia.
  replace (7 + (m - 8)) with (Z.of_nat (S (Z.to_nat (m - 2)))) by lia.
  replace (Z.of_nat (S (Z.to_nat (m - 2))) - 1) with (m - 2) by lia.
  fold b. rewrite E1, Nat2Z.id, E2, E3. done.
Qed.

Lemma parse_tail_code dir z r dst b t : 64 <= z < 2 ^ 63 -> nat_code z = b :: t ->
  parse_tail (xored dir (nat_code z) ++ r) dir b dst = (SUCCESS, r, z) /\ 0xc0 <= b.
Proof.
  intros Hz Hcode. destruct (int_width_spec z) as (Hm & Hmz & _); [lia|].
  unfold nat_code in *. set (m := int_width z) in *.
  assert (m <> 1) by (intros E; rewrite E in Hmz; cbn in Hmz; lia).
  destruct (Z.le_gt_cases m 7) as [H7|H7].
  - rewrite short_code in * by lia. injection Hcode as <- _. split; [apply parse_tail_short; lia|].
    pose proof (msb_high m). pose proof (short_top m z). lia.
  - rewrite long_code in * by lia. injection Hcode as <- _. split; [apply parse_tail_long; lia|lia].
Qed.

Lemma parse_int64_tail s0 s1 dir dst : 0 <= s0 < 256 ->
  let c := Z.lxor s0 dir in
  c < 0x40 \/ 0xc0 <= c ->
  parse_int64 (s0 :: s1) dir dst =
    if Z.land c 0x80 =? 0
    then let '(rc, s, x) := parse_tail (s0 :: s1) (uint8 (Z.lnot dir)) (uint8 (Z.lnot c)) dst in
         (rc, s, if OB_SUCC rc then Z.lnot x else dst)
    else parse_tail (s0 :: s1) dir c dst.
Proof.
  intros H0 c Hc. unfold parse_int64, parse_tail. fold c.
  destruct ((0x40 <=? c) && (c <? 0xc0)) eqn:E; [lia|].
  change (drop 1 (s0 :: s1)) with (drop 0 s1). rewrite drop_0.
  destruct (Z.land c 0x80 =? 0); repeat case_match; by simplify_eq.
Qed.

Lemma parse_nat_code dir x r dst : dir = increasing \/ dir = decreasing -> 0 <= x < 2 ^ 63 ->
  parse_int64 (xored dir (nat_code x) ++ r) dir dst = (SUCCESS, r, x).
Proof.
  intros Hdir Hx. destruct (Z.lt_ge_cases x 64).
  - rewrite small_code by lia. cbn [xored map app parse_int64]. rewrite xor_dir.
    destruct ((0x40 <=? 128 + x) && (128 + x <? 0xc0)) eqn:E; [|lia]. f_equal.
    apply Z.eqb_eq, (forallb_forall (fun x => wrap_s 8 (Z.lxor (128 + x) 128) =? x) (seqZ 0 64)); [by vm_compute|].
    apply list_elem_of_In, elem_of_seqZ. lia.
  - destruct (nat_code_head x) as (b & t & Hb & Hr); [lia|].
    destruct (parse_tail_code dir x r dst b t ltac:(lia) Hb) as [Ht Hc0]. rewrite Hb in *.
    rewrite xored_cons, <- app_comm_cons in *.
    rewrite parse_int64_tail; rewrite ?xor_dir; [|apply xor_byte_range; [lia|destruct Hdir; subst; done]|lia].
    assert ((Z.land b 0x80 =? 0) = false) as ->; [|done].
    apply negb_true_iff, (implb_true_iff (0x80 <=? b)); [|by apply Z.leb_le; lia].
    apply (all_bytes (fun b => implb (0x80 <=? b) (negb (Z.land b 0x80 =? 0)))); [by vm_compute|lia].
Qed.

Lemma parse_negative dir z r dst : dir = increasing \/ dir = decreasing -> 0 <= z < 2 ^ 63 ->
  parse_int64 (xored dir (invert (nat_code z)) ++ r) dir dst = (SUCCESS, r, Z.lnot z).
Proof.
  intros Hdir Hz. set (e := uint8 (Z.lnot dir)).
  assert (forall b, 0 <= b < 256 -> Z.lxor (Z.lxor b 0xff) dir = Z.lxor b e) as He.
  { intros b Hb. rewrite Z.lxor_assoc. f_equal. by destruct Hdir; subst. }
  destruct (Z.lt_ge_cases z 64).
  - rewrite small_code by lia. cbn [invert xored map app parse_int64]. rewrite xor_dir, xor_ff by lia.
    destruct ((0x40 <=? 255 - (128 + z)) && (255 - (128 + z) <? 0xc0)) eqn:E; [|lia]. f_equal.
    apply Z.eqb_eq, (forallb_forall (fun z => wrap_s 8 (Z.lxor (255 - (128 + z)) 128) =? Z.lnot z) (seqZ 0 64)); [by vm_compute|].
    apply list_elem_of_In, elem_of_seqZ. lia.
  - destruct (nat_code_head z) as (b & t & Hb & Hr); [lia|].
    destruct (parse_tail_code e z r dst b t ltac:(lia) Hb) as [Ht Hc0].
    assert (xored dir (invert (nat_code z)) = xored e (nat_code z)) as ->.
    { unfold xored, invert. rewrite map_map. apply map_ext_in. intros a Ha%list_elem_of_In. apply He.
      by apply (proj1 (Forall_forall _ _) (nat_code_byte z)). }
    rewrite Hb in *. rewrite xored_cons, <- app_comm_cons in *. rewrite <- He in * by lia.
    rewrite parse_int64_tail; rewrite ?xor_dir, ?xor_ff by lia;
      [|apply xor_byte_range; [lia|destruct Hdir; subst; done]|lia].
    fold e. assert ((Z.land (255 - b) 0x80 =? 0) = true) as ->.
    { apply (implb_true_iff (0x80 <=? b)); [|by apply Z.leb_le; lia].
      apply (all_bytes (fun b => implb (0x80 <=? b) (Z.land (255 - b) 0x80 =? 0))); [by vm_compute|lia]. }
    assert (uint8 (Z.lnot (255 - b)) = b) as ->.
    { apply Z.eqb_eq, (all_bytes (fun b => wrap_u 8 (Z.lnot (255 - b)) =? b)); [by vm_compute|lia]. }
    rewrite xor_ff in Ht by lia. by rewrite Ht.
Qed.

Lemma parse_int64_code dir x r dst : dir = increasing \/ dir = decreasing -> - 2 ^ 63 <= x < 2 ^ 63 ->
  parse_int64 (xored dir (int_code x) ++ r) dir dst = (SUCCESS, r, x).
Proof.
  intros Hdir Hx. unfold int_code. destruct (Z.ltb_spec x 0).
  - rewrite parse_negative by (unfold Z.lnot; lia). by rewrite Z.lnot_involutive.
  - apply parse_nat_code; [done|lia].
Qed.

(** ** Strings *)

Definition escape (b : Z) : list Z :=
  if b =? 0x00 then lit00 else if b =? 0xff then litff else [b].

Definition escaped (x : list Z) : list Z := concat (map escape x).

Definition string_code (x : list Z) : list Z := escaped x ++ term.

Definition plain (b : Z) : Prop := b <> 0x00 /\ b <> 0xff.

Lemma escape_plain b : plain b -> escape b = [b].
Proof. intros [H1 H2]. unfold escape. by destruct (Z.eqb_spec b 0), (Z.eqb_spec b 0xff). Qed.

Lemma escaped_app x y : escaped (x ++ y) = escaped x ++ escaped y.
Proof. unfold escaped. by rewrite map_app, concat_app. Qed.

Lemma escaped_plain x : Forall plain x -> escaped x = x.
Proof.
  induction 1 as [|b x Hb _ IH]; [done|]. unfold escaped in *. cbn [map concat]. by rewrite escape_plain, IH.
Qed.

(** The segment between [l] and [c]. *)
Lemma drop_segment {A} (x : list A) l c : (l <= c)%nat -> drop l x = take (c - l) (drop l x) ++ drop c x.
Proof.
  intros H. rewrite <- (take_drop (c - l) (drop l x)) at 1. f_equal. rewrite drop_drop. f_equal. lia.
Qed.

Lemma span_snoc {A} (x : list A) l c b : (l <= c)%nat -> x !! c = Some b ->
  take (c + 1 - l) (drop l x) = take (c - l) (drop l x) ++ [b].
Proof.
  intros H Hb. replace (c + 1 - l)%nat with (S (c - l)) by lia. apply take_S_r.
  rewrite lookup_drop. by replace (l + (c - l))%nat with c by lia.
Qed.

Lemma string_loop_spec fuel x s l c : (l <= c)%nat -> (length x < c + fuel)%nat ->
  Forall plain (take (c - l) (drop l x)) ->
  let '(s', l') := string_loop fuel x s l c in s' ++ drop l' x = s ++ escaped (drop l x).
Proof.
  revert s l c. induction fuel as [|fuel IH]; intros s l c Hlc Hf Hp; cbn [string_loop].
  { rewrite take_ge in Hp by (rewrite length_drop; lia). by rewrite escaped_plain. }
  destruct (x !! c) as [b|] eqn:Hb.
  2:{ apply lookup_ge_None in Hb. rewrite take_ge in Hp by (rewrite length_drop; lia). by rewrite escaped_plain. }
  assert (escaped (drop l x) = take (c - l) (drop l x) ++ escape b ++ escaped (drop (c + 1) x)) as E.
  { rewrite (drop_segment x l c), escaped_app by lia. rewrite (drop_S x b c) by done.
    rewrite escaped_plain by done. rewrite take_app_length' by (rewrite length_take, length_drop;
      apply lookup_lt_Some in Hb; lia). rewrite Nat.add_1_r. done. }
  assert (forall lit, lit = escape b ->
    let '(s', l') := string_loop fuel x (s ++ take (c - l) (drop l x) ++ lit) (c + 1) (c + 1) in
    s' ++ drop l' x = s ++ escaped (drop l x)) as Hstep.
  { intros lit ->. specialize (IH (s ++ take (c - l) (drop l x) ++ escape b) (c + 1)%nat (c + 1)%nat).
    rewrite Nat.sub_diag, E in *. destruct (string_loop fuel x _ _ _).
    rewrite IH by (try lia; constructor). by rewrite <- !app_assoc. }
  destruct (decide (b = 0)) as [->|H0]; [by apply Hstep|].
  destruct (decide (b = 255)) as [->|Hff]; [by apply Hstep|].
  assert (match b with 0 => string_loop fuel x (s ++ take (c - l) (drop l x) ++ lit00) (c + 1) (c + 1)
    | 255 => string_loop fuel x (s ++ take (c - l) (drop l x) ++ litff) (c + 1) (c + 1)
    | _ => string_loop fuel x s l (c + 1) end = string_loop fuel x s l (c + 1)) as ->.
  { repeat case_match; done. }
  apply IH; [lia|lia|]. rewrite (span_snoc x l c b) by done. apply Forall_app; split; [done|]. by repeat constructor.
Qed.

Lemma append_string_code s x : append_string s x = (SUCCESS, s ++ string_code x).
Proof.
  unfold append_string. pose proof (string_loop_spec (S (length x)) x s 0 0 ltac:(lia) ltac:(lia)) as H.
  destruct (string_loop _ x s 0 0) as [s' l]. rewrite drop_0 in H. f_equal. unfold string_code.
  rewrite (app_assoc s'), H by constructor. by rewrite app_assoc.
Qed.

Lemma string_code_before x y : Forall is_byte x -> Forall is_byte y -> bytes_compare x y = Lt ->
  before (string_code x) (string_code y).
Proof.
  unfold string_code, escaped. revert y. induction x as [|a x IH]; intros [|b y] Hx Hy Hc; cbn in Hc; try done.
  - apply Forall_cons in Hy as [Hb _]. unfold is_byte in Hb. cbn [map concat]. unfold escape at 1.
    destruct (Z.eqb_spec b 0) as [->|]; [by apply (before_prefix [0]), before_head|].
    destruct (Z.eqb_spec b 255); by apply before_head; lia.
  - apply Forall_cons in Hx as [Ha Hx]. apply Forall_cons in Hy as [Hb Hy]. unfold is_byte in Ha, Hb.
    cbn [map concat]. rewrite <- !app_assoc. destruct (Z.compare_spec a b) as [->|Hab|]; [|clear Hc|done].
    + apply before_prefix. by apply IH.
    + generalize (concat (map escape x) ++ term) (concat (map escape y) ++ term). intros u v. unfold escape.
      destruct (Z.eqb_spec a 0), (Z.eqb_spec a 255), (Z.eqb_spec b 0), (Z.eqb_spec b 255);
        subst; try lia; by apply before_head; lia.
Qed.

(** *** Parsing strings *)

Lemma escape_cases b : is_byte b ->
  (b = 0x00 /\ escape b = lit00) \/ (b = 0xff /\ escape b = litff) \/ (plain b /\ escape b = [b]).
Proof.
  intros Hb. unfold escape, plain. destruct (Z.eqb_spec b 0); [by left|]. destruct (Z.eqb_spec b 255); [by right; left|].
  by right; right.
Qed.

Lemma nth_app_at {A} (d : A) pre l n : nth (length pre + n) (pre ++ l) d = nth n l d.
Proof. rewrite app_nth2 by lia. f_equal. lia. Qed.

Section parse_string.
Context (dir : Z) (Hdir : dir = increasing \/ dir = decreasing) (s : list Z) (Hs : zlen s < 2 ^ 31).

Lemma int32_size : int32 (zlen s) = zlen s.
Proof using Hs. apply int32_id. unfold in_int32, INT32_MIN, INT32_MAX. pose proof (zlen_pos s). lia. Qed.

(** One iteration on the two bytes [a], [b] at index [i]. *)
Lemma parse_string_step fuel dst buf l pre a b t :
  s = pre ++ Z.lxor a dir :: Z.lxor b dir :: t ->
  let i := length pre in let seg := take (i - l) (drop l s) in
  parse_string_loop (S fuel) s dir dst buf l i =
    if a =? 0x00 then
      if b =? 0x01 then
        if (l =? 0)%nat && (dir =? increasing) then (SUCCESS, t, take i s)
        else (SUCCESS, t, if dir =? decreasing then invert (buf ++ seg) else buf ++ seg)
      else if b =? 0xff then parse_string_loop fuel s dir dst (buf ++ seg ++ [Z.lxor 0x00 dir]) (i + 2) (i + 2)
      else (INVALID_ARGUMENT, s, dst)
    else if a =? 0xff then
      if negb (b =? 0x00) then (INVALID_ARGUMENT, s, dst)
      else parse_string_loop fuel s dir dst (buf ++ seg ++ [Z.lxor 0xff dir]) (i + 2) (i + 2)
    else parse_string_loop fuel s dir dst buf l (i + 1).
Proof using Hs.
  intros E i seg. cbn [parse_string_loop]. rewrite int32_size.
  assert (zlen s = Z.of_nat i + 2 + zlen t) as -> by (rewrite E, zlen_app, !zlen_cons; unfold zlen, i; lia).
  pose proof (zlen_pos t).
  destruct (Z.leb_spec (Z.of_nat i + 2 + zlen t) (Z.of_nat i)); [lia|].
  destruct (Z.leb_spec (Z.of_nat i + 2 + zlen t) (Z.of_nat i + 1)); [lia|]. cbn [orb].
  assert (nth i s 0 = Z.lxor a dir) as -> by (rewrite E; rewrite <- (Nat.add_0_r i); unfold i; by rewrite nth_app_at).
  assert (nth (i + 1) s 0 = Z.lxor b dir) as -> by (rewrite E; unfold i; by rewrite nth_app_at).
  assert (drop (i + 2) s = t) as -> by (rewrite E, <- drop_drop; unfold i; by rewrite drop_app_length).
  by rewrite !xor_dir.
Qed.

Lemma segment_end l pre t : (l <= length pre)%nat -> s = pre ++ t -> take (length pre - l) (drop l s) = drop l pre.
Proof using.
  intros Hl E. rewrite E, drop_app_le by done. by rewrite take_app_length' by (rewrite length_drop; lia).
Qed.

Lemma parse_string_code_loop y r : Forall is_byte y -> forall fuel dst buf l pre x,
  s = pre ++ xored dir (string_code y) ++ r -> (length y < fuel)%nat -> (l <= length pre)%nat ->
  buf ++ drop l pre = xored dir x -> (l = 0%nat -> buf = []) ->
  parse_string_loop fuel s dir dst buf l (length pre) = (SUCCESS, r, x ++ y).
Proof using Hdir Hs.
  induction 1 as [|b y Hb _ IH]; intros fuel dst buf l pre x E Hf Hl Hx H0.
  all: destruct fuel as [|fuel]; [cbn in Hf; lia|].
  - rewrite (parse_string_step _ _ _ _ _ 0 1 r) by done. cbn [Z.eqb Pos.eqb]. rewrite app_nil_r.
    rewrite (segment_end l pre _ Hl E), Hx.
    destruct ((l =? 0)%nat && (dir =? increasing)) eqn:Ec.
    + apply andb_true_iff in Ec as [El%Nat.eqb_eq Ed%Z.eqb_eq]. rewrite El in *.
      rewrite Ed, H0, xored_0 in Hx by done. rewrite E, take_app_length. by rewrite <- Hx.
    + assert ((if dir =? decreasing then invert (xored dir x) else xored dir x) = x) as ->; [|done].
      destruct Hdir as [->| ->]; cbn; [apply xored_0|apply xored_twice].
  - cbn in Hf. unfold string_code, escaped in *. cbn [map concat] in E. rewrite <- app_assoc in E.
    change (xored dir ?a ++ r) with (xored dir a ++ r) in E.
    replace (x ++ b :: y) with ((x ++ [b]) ++ y) by (by rewrite <- app_assoc).
    assert (forall lit, escape b = lit -> length lit = 2%nat -> 
      parse_string_loop fuel s dir dst (buf ++ drop l pre ++ [Z.lxor b dir]) (length pre + 2) (length pre + 2) =
        (SUCCESS, r, (x ++ [b]) ++ y)) as Hstep.
    { intros lit Hlit Hlen. replace (length pre + 2)%nat with (length (pre ++ xored dir lit)) by (rewrite length_app, xored_length; lia).
      apply IH; [|lia|done| |rewrite length_app, xored_length; lia].
      - by rewrite E, Hlit, xored_app, <- !app_assoc.
      - rewrite drop_all, app_nil_r, app_assoc, Hx, xored_app. done. }
    destruct (escape_cases b Hb) as [[-> Hlit]|[[-> Hlit]|[Hp Hlit]]]; rewrite Hlit in E.
    + rewrite (parse_string_step _ _ _ _ _ 0 255 (xored dir (concat (map escape y) ++ term) ++ r)) by done.
      cbn [Z.eqb Pos.eqb]. rewrite (segment_end l pre _ Hl E). by apply (Hstep lit00).
    + rewrite (parse_string_step _ _ _ _ _ 255 0 (xored dir (concat (map escape y) ++ term) ++ r)) by done.
      cbn [Z.eqb Pos.eqb negb]. rewrite (segment_end l pre _ Hl E). by apply (Hstep litff).
    + destruct (concat (map escape y) ++ term) as [|h t] eqn:Eh; [by destruct (concat _)|].
      rewrite (parse_string_step _ _ _ _ _ b h (xored dir t ++ r)) by done.
      destruct Hp as [Hp0 Hpf]. destruct (Z.eqb_spec b 0), (Z.eqb_spec b 255); try done.
      replace (length pre + 1)%nat with (length (pre ++ [Z.lxor b dir])) by (rewrite length_app; done).
      apply IH; [by rewrite E, <- app_assoc|lia|rewrite length_app; lia| |done].
      rewrite drop_app_le by done. rewrite app_assoc, Hx, xored_app. done.
Qed.
End parse_string.

Lemma parse_string_code dir x r dst : dir = increasing \/ dir = decreasing -> Forall is_byte x ->
  zlen (string_code x) + zlen r < 2 ^ 31 ->
  parse_string (xored dir (string_code x) ++ r) dir dst = (SUCCESS, r, x).
Proof.
  intros Hdir Hx Hs. unfold parse_string.
  assert (zlen (xored dir (string_code x) ++ r) < 2 ^ 31) as Hs'.
  { rewrite zlen_app. unfold zlen at 1. by rewrite xored_length. }
  apply (parse_string_code_loop dir Hdir _ Hs' x r Hx _ dst [] 0 [] []); try done.
  rewrite length_app, xored_length. unfold string_code. rewrite length_app.
  enough (length x <= length (escaped x))%nat by lia.
  clear. induction x as [|b x IH]; [done|]. unfold escaped in *. cbn [map concat length]. rewrite length_app.
  assert (1 <= length (escape b))%nat by (unfold escape; repeat case_match; cbn; lia). lia.
Qed.

(** ** Doubles

    The value of the double with bits [b], as a multiple of the least positive one; the
    infinities are the next values beyond the finite ones.  Both zeros have the value 0. *)
Definition magnitude (u : Z) : Z :=
  if u / 2 ^ 52 =? 0 then u mod 2 ^ 52 else (2 ^ 52 + u mod 2 ^ 52) * 2 ^ (u / 2 ^ 52 - 1).

Definition double_value (b : Z) : Z := if b <? 2 ^ 63 then magnitude b else - magnitude (b - 2 ^ 63).

Definition float_key (b : Z) : Z := if b <? 2 ^ 63 then b else 2 ^ 63 - b.

Lemma magnitude_mono u v : 0 <= u < v -> magnitude u < magnitude v.
Proof.
  intros Huv. unfold magnitude.
  pose proof (Z_div_mod_eq_full u (2 ^ 52)). pose proof (Z_div_mod_eq_full v (2 ^ 52)).
  pose proof (Z.mod_pos_bound u (2 ^ 52) ltac:(lia)). pose proof (Z.mod_pos_bound v (2 ^ 52) ltac:(lia)).
  assert (0 <= u / 2 ^ 52) by (apply Z.div_pos; lia).
  assert (u / 2 ^ 52 <= v / 2 ^ 52) by (apply Z.div_le_mono; lia).
  generalize dependent (u / 2 ^ 52). generalize dependent (v / 2 ^ 52).
  generalize dependent (u mod 2 ^ 52). generalize dependent (v mod 2 ^ 52).
  intros fv Hfv fu Hfu ev Hv eu Hu He Hle.
  destruct (Z.eqb_spec eu 0), (Z.eqb_spec ev 0); [lia| |lia|].
  - assert (1 <= 2 ^ (ev - 1)) by lia. nia.
  - destruct (decide (eu = ev)) as [->|]; [assert (0 < 2 ^ (ev - 1)) by lia; nia|].
    assert (2 * 2 ^ (eu - 1) <= 2 ^ (ev - 1)).
    { rewrite <- Z.pow_succ_r by lia. apply Z.pow_le_mono_r; lia. }
    assert (0 < 2 ^ (eu - 1)) by lia. nia.
Qed.

Lemma magnitude_0 : magnitude 0 = 0.
Proof. done. Qed.

Lemma magnitude_nonneg u : 0 <= u -> 0 <= magnitude u.
Proof.
  intros Hu. destruct (decide (u = 0)) as [->|]; [done|].
  pose proof (magnitude_mono 0 u ltac:(lia)). rewrite magnitude_0 in *. lia.
Qed.

Lemma float_key_mono a b : 0 <= a < 2 ^ 64 -> 0 <= b < 2 ^ 64 ->
  (float_key a ?= float_key b) = (double_value a ?= double_value b).
Proof.
  assert (forall u v, 0 <= u -> 0 <= v -> (magnitude u ?= magnitude v) = (u ?= v)) as Hm.
  { intros u v Hu Hv. destruct (Z.compare_spec u v) as [->|H|H]; [apply Z.compare_refl|..].
    - apply Z.compare_lt_iff, magnitude_mono. lia.
    - apply Z.compare_gt_iff, magnitude_mono. lia. }
  intros Ha Hb. unfold float_key, double_value. destruct (Z.ltb_spec a (2 ^ 63)), (Z.ltb_spec b (2 ^ 63)).
  - by rewrite Hm by lia.
  - pose proof (magnitude_nonneg a). pose proof (magnitude_nonneg (b - 2 ^ 63)).
    destruct (decide (a = 0 /\ b = 2 ^ 63)) as [[-> ->]|Hn]; [done|].
    rewrite (proj2 (Z.compare_gt_iff a _)) by lia. symmetry. apply Z.compare_gt_iff.
    destruct (decide (a = 0)) as [->|].
    + pose proof (magnitude_mono 0 (b - 2 ^ 63)). rewrite magnitude_0 in *. lia.
    + pose proof (magnitude_mono 0 a). rewrite magnitude_0 in *. lia.
  - pose proof (magnitude_nonneg b). pose proof (magnitude_nonneg (a - 2 ^ 63)).
    destruct (decide (b = 0 /\ a = 2 ^ 63)) as [[-> ->]|Hn]; [done|].
    rewrite (proj2 (Z.compare_lt_iff _ b)) by lia. symmetry. apply Z.compare_lt_iff.
    destruct (decide (b = 0)) as [->|].
    + pose proof (magnitude_mono 0 (a - 2 ^ 63)). rewrite magnitude_0 in *. lia.
    + pose proof (magnitude_mono 0 b). rewrite magnitude_0 in *. lia.
  - replace (2 ^ 63 - a) with (- (a - 2 ^ 63)) by lia. replace (2 ^ 63 - b) with (- (b - 2 ^ 63)) by lia.
    by rewrite !Z.compare_opp, Hm by lia.
Qed.

Lemma append_float64_code s b : 0 <= b < 2 ^ 64 -> isnan b = false ->
  append_float64 s b = (SUCCESS, s ++ int_code (float_key b)).
Proof.
  intros Hb Hn. unfold append_float64. rewrite Hn. unfold float_key, INT64_MIN, wrap_s.
  destruct (Z.ltb_spec b (2 ^ 63)).
  - rewrite (Z.mod_small (b + _)) by (cbn in *; lia).
    replace (b + 2 ^ (64 - 1) - 2 ^ (64 - 1)) with b by lia.
    destruct (Z.ltb_spec b 0); [lia|]. apply append_int64_code. cbn in *; lia.
  - replace (b + 2 ^ (64 - 1)) with (b - 2 ^ (64 - 1) + 1 * 2 ^ 64) by (cbn; lia).
    rewrite Z_mod_plus_full, (Z.mod_small (b - _)) by (cbn in *; lia).
    destruct (Z.ltb_spec (b - 2 ^ (64 - 1) - 2 ^ (64 - 1)) 0); [|cbn in *; lia].
    rewrite Z.mod_small by (cbn in *; lia).
    replace (- 2 ^ 63 - (b - 2 ^ (64 - 1) - 2 ^ (64 - 1)) + 2 ^ (64 - 1) - 2 ^ (64 - 1)) with (2 ^ 63 - b)
      by (cbn in *; lia). apply append_int64_code. cbn in *; lia.
Qed.

(** Parsing gives the double back, except that a negative zero becomes a positive one. *)
Definition unsigned_zero (b : Z) : Z := if b =? 2 ^ 63 then 0 else b.

Lemma parse_float64_code dir b r dst : dir = increasing \/ dir = decreasing -> 0 <= b < 2 ^ 64 -> isnan b = false ->
  parse_float64 (xored dir (int_code (float_key b)) ++ r) dir dst = (SUCCESS, r, unsigned_zero b).
Proof.
  intros Hdir Hb Hn. unfold parse_float64.
  rewrite parse_int64_code by (try done; unfold float_key; destruct (Z.ltb_spec b (2 ^ 63)); cbn in *; lia).
  assert (uint64 (if float_key b <? 0 then int64 (INT64_MIN - float_key b) else float_key b) = unsigned_zero b) as ->.
  { unfold float_key, unsigned_zero, INT64_MIN, wrap_s, wrap_u. destruct (Z.ltb_spec b (2 ^ 63)).
    - destruct (Z.ltb_spec b 0); [lia|]. destruct (Z.eqb_spec b (2 ^ 63)); [lia|]. apply Z.mod_small. lia.
    - destruct (Z.eqb_spec b (2 ^ 63)) as [->|]; [done|]. destruct (Z.ltb_spec (2 ^ 63 - b) 0); [|lia].
      rewrite (Z.mod_small (- 2 ^ 63 - (2 ^ 63 - b) + _)) by (cbn in *; lia).
      replace (- 2 ^ 63 - (2 ^ 63 - b) + 2 ^ (64 - 1) - 2 ^ (64 - 1)) with (b + (-1) * 2 ^ 64) by (cbn in *; lia).
      rewrite Z_mod_plus_full. apply Z.mod_small. lia. }
  assert (isnan (unsigned_zero b) = false) as ->; [|done].
  unfold unsigned_zero. destruct (Z.eqb_spec b (2 ^ 63)); [by vm_compute|done].
Qed.

(** ** Keys made of several fields *)

Inductive key_field :=
| FUint (x : Z)
| FInt (x : Z)
| FString (x : list Z)
| FFloat (b : Z).

Definition field_ok (f : key_field) : Prop :=
  match f with
  | FUint x => 0 <= x < 2 ^ 64
  | FInt x => - 2 ^ 63 <= x < 2 ^ 63
  | FString x => Forall is_byte x
  | FFloat b => 0 <= b < 2 ^ 64 /\ isnan b = false
  end.

Definition append_field (s : list Z) (f : key_field) : RC * list Z :=
  match f with
  | FUint x => append_uint64 s x
  | FInt x => append_int64 s x
  | FString x => append_string s x
  | FFloat b => append_float64 s b
  end.

Fixpoint append_fields (s : list Z) (fs : list key_field) : RC * list Z :=
  match fs with
  | [] => (SUCCESS, s)
  | f :: fs' => let '(rc, s) := append_field s f in if OB_FAIL rc then (rc, s) else append_fields s fs'
  end.

(** Parsing into the variable of the type of [dst]. *)
Definition parse_field (s : list Z) (dir : Z) (dst : key_field) : RC * list Z * key_field :=
  match dst with
  | FUint x => let '(rc, s, x) := parse_uint64 s dir x in (rc, s, FUint x)
  | FInt x => let '(rc, s, x) := parse_int64 s dir x in (rc, s, FInt x)
  | FString x => let '(rc, s, x) := parse_string s dir x in (rc, s, FString x)
  | FFloat b => let '(rc, s, b) := parse_float64 s dir b in (rc, s, FFloat b)
  end.

Fixpoint parse_fields (s : list Z) (dir : Z) (dst : list key_field) : RC * list Z * list key_field :=
  match dst with
  | [] => (SUCCESS, s, [])
  | f :: fs =>
      let '(rc, s, f) := parse_field s dir f in
      if OB_FAIL rc then (rc, s, f :: fs)
      else let '(rc, s, fs) := parse_fields s dir fs in (rc, s, f :: fs)
  end.

(** Fields of the same type, and the order of their values. *)
Definition same_type (f g : key_field) : bool :=
  match f, g with
  | FUint _, FUint _ | FInt _, FInt _ | FString _, FString _ | FFloat _, FFloat _ => true
  | _, _ => false
  end.

Definition field_compare (f g : key_field) : comparison :=
  match f, g with
  | FUint x, FUint y | FInt x, FInt y => x ?= y
  | FString x, FString y => bytes_compare x y
  | FFloat a, FFloat b => double_value a ?= double_value b
  | _, _ => Eq
  end.

Fixpoint fields_compare (fs gs : list key_field) : comparison :=
  match fs, gs with
  | f :: fs', g :: gs' => match field_compare f g with Eq => fields_compare fs' gs' | c => c end
  | _, _ => Eq
  end.

Definition field_code (f : key_field) : list Z :=
  match f with
  | FUint x => uint_code x
  | FInt x => int_code x
  | FString x => string_code x
  | FFloat b => int_code (float_key b)
  end.

Definition unsigned_zeros (f : key_field) : key_field :=
  match f with FFloat b => FFloat (unsigned_zero b) | _ => f end.

Definition fields_code (fs : list key_field) : list Z := concat (map field_code fs).

Lemma append_field_code s f : field_ok f -> append_field s f = (SUCCESS, s ++ field_code f).
Proof.
  destruct f; cbn; intros H; [by apply append_uint64_code|by apply append_int64_code|apply append_string_code|].
  destruct H. by apply append_float64_code.
Qed.

Lemma append_fields_code s fs : Forall field_ok fs -> append_fields s fs = (SUCCESS, s ++ fields_code fs).
Proof.
  intros H. revert s. induction H as [|f fs Hf _ IH]; intros s; cbn.
  - by rewrite app_nil_r.
  - rewrite append_field_code by done. cbn. rewrite IH. unfold fields_code. cbn. by rewrite app_assoc.
Qed.

Lemma parse_field_code dir f g r : dir = increasing \/ dir = decreasing -> field_ok f -> same_type f g = true ->
  zlen (field_code f) + zlen r < 2 ^ 30 ->
  parse_field (xored dir (field_code f) ++ r) dir g = (SUCCESS, r, unsigned_zeros f).
Proof.
  intros Hdir Hf Ht Hr. pose proof (zlen_pos (field_code f)).
  destruct f, g; try done; cbn [parse_field field_code field_ok unsigned_zeros] in *.
  - by rewrite parse_uint64_code by (done || lia).
  - by rewrite parse_int64_code.
  - by rewrite parse_string_code by (done || lia).
  - destruct Hf. by rewrite parse_float64_code.
Qed.

Lemma bytes_compare_antisym a b : bytes_compare b a = CompOpp (bytes_compare a b).
Proof.
  revert b. induction a as [|x a IH]; intros [|y b]; cbn; try done.
  rewrite (Z.compare_antisym x y). destruct (x ?= y); cbn; [apply IH|done|done].
Qed.

Lemma bytes_compare_eq a b : bytes_compare a b = Eq -> a = b.
Proof.
  revert b. induction a as [|x a IH]; intros [|y b]; cbn; try done.
  destruct (Z.compare_spec x y); try done. subst. intros ?%IH. by subst.
Qed.

Lemma field_code_order f g : field_ok f -> field_ok g -> same_type f g = true ->
  match field_compare f g with
  | Eq => field_code f = field_code g
  | Lt => before (field_code f) (field_code g)
  | Gt => before (field_code g) (field_code f)
  end.
Proof.
  intros Hf Hg Ht. destruct f as [x|x|x|x], g as [y|y|y|y]; try done; cbn in Hf, Hg |- *.
  - destruct (Z.compare_spec x y); [by subst|apply uint_code_before; lia..].
  - destruct (Z.compare_spec x y); [by subst|apply int_code_before; lia..].
  - pose proof (bytes_compare_antisym x y). destruct (bytes_compare x y) eqn:E.
    + by rewrite (bytes_compare_eq x y).
    + by apply string_code_before.
    + by apply string_code_before.
  - rewrite <- float_key_mono by lia.
    assert (- 2 ^ 63 <= float_key x < 2 ^ 63) by (unfold float_key; destruct (Z.ltb_spec x (2 ^ 63)); lia).
    assert (- 2 ^ 63 <= float_key y < 2 ^ 63) by (unfold float_key; destruct (Z.ltb_spec y (2 ^ 63)); lia).
    destruct (Z.compare_spec (float_key x) (float_key y)) as [->| |]; [done|apply int_code_before; lia..].
Qed.

Lemma bytes_compare_prefix p a b : bytes_compare (p ++ a) (p ++ b) = bytes_compare a b.
Proof. induction p as [|x p IH]; [done|]. cbn. by rewrite Z.compare_refl. Qed.

Lemma fields_code_order fs gs r t : Forall field_ok fs -> Forall field_ok gs ->
  Forall2 (fun f g => same_type f g = true) fs gs ->
  bytes_compare (fields_code fs ++ r) (fields_code gs ++ t) =
  match fields_compare fs gs with Eq => bytes_compare r t | c => c end.
Proof.
  intros Hf Hg H. induction H as [|f g fs gs Ht _ IH]; [done|].
  apply Forall_cons in Hf as [Hf Hfs]. apply Forall_cons in Hg as [Hg Hgs].
  unfold fields_code. cbn [map concat fields_compare]. rewrite <- !app_assoc.
  pose proof (field_code_order f g Hf Hg Ht) as Ho. destruct (field_compare f g).
  - rewrite Ho, bytes_compare_prefix. by apply IH.
  - by apply before_compare, before_app.
  - by apply before_compare, before_app.
Qed.
End codes.

(** C21: The keys of [OrderedCode] sort like the values they are made of: two sequences of
    fields of the same types (unsigned and signed 64-bit integers, byte strings with any
    bytes, doubles that are not NaN) are appended without error, and whatever follows them,
    [string_view::compare] of the two byte strings is the comparison of the first fields
    that differ; the rest decides only when all fields are equal. *)
Theorem ordered_code_order (fs gs : list key_field) (cf cg r t : list Z) :
  Forall field_ok fs -> Forall field_ok gs -> Forall2 (fun f g => same_type f g = true) fs gs ->
  append_fields [] fs = (SUCCESS, cf) -> append_fields [] gs = (SUCCESS, cg) ->
  bytes_compare (cf ++ r) (cg ++ t) =
  match fields_compare fs gs with Eq => bytes_compare r t | c => c end.
Proof.
  intros Hf Hg Ht Ef Eg. rewrite append_fields_code in Ef, Eg by done. simplify_eq/=.
  by apply fields_code_order.
Qed.

Definition demo_fields (x : Z) : list key_field := [FString [0; 255; 7]; FInt x; FFloat (2 ^ 62); FUint 300].

Lemma demo_fields_ok x : - 2 ^ 63 <= x < 2 ^ 63 -> Forall field_ok (demo_fields x).
Proof. intros Hx. repeat constructor; cbn; unfold is_byte; lia. Qed.

Lemma ordered_code_order_witness :
  bytes_compare ((append_fields [] (demo_fields (-8193))).2 ++ [9]) ((append_fields [] (demo_fields 64)).2 ++ []) = Lt.
Proof.
  rewrite (ordered_code_order (demo_fields (-8193)) (demo_fields 64)
    (append_fields [] (demo_fields (-8193))).2 (append_fields [] (demo_fields 64)).2 [9] []);
    [done|apply demo_fields_ok; lia..|by repeat constructor|by vm_compute|by vm_compute].
Defined.

(** C35: Parsing in either direction gives back the fields that were appended (increasing:
    the code itself, decreasing: the code with every byte inverted), leaves exactly the
    bytes behind them, and never fails on a key of less than [2 ^ 30] bytes; only a negative
    zero comes back as a positive one. *)
Theorem ordered_code_roundtrip (dir : Z) (fs gs : list key_field) (c r : list Z) :
  dir = OrderedCode.increasing \/ dir = OrderedCode.decreasing ->
  Forall field_ok fs -> Forall2 (fun f g => same_type f g = true) fs gs ->
  append_fields [] fs = (SUCCESS, c) -> zlen c + zlen r < 2 ^ 30 ->
  parse_fields (xored dir c ++ r) dir gs = (SUCCESS, r, map unsigned_zeros fs).
Proof.
  intros Hdir Hf Ht Ef. rewrite append_fields_code in Ef by done. simplify_eq/=.
  revert gs Ht. induction Hf as [|f fs Hf _ IH]; intros gs Ht Hr; apply Forall2_cons_inv_l in Ht || apply Forall2_nil_inv_l in Ht.
  - by subst.
  - destruct Ht as (g & gs' & Ht & Hts & ->). unfold fields_code in *. cbn [map concat] in *.
    rewrite xored_app, <- app_assoc. rewrite zlen_app in Hr. cbn [parse_fields].
    pose proof (zlen_pos (field_code f)).
    rewrite parse_field_code; [|done..|].
    + cbn. rewrite IH; [done|done|lia].
    + rewrite zlen_app. unfold zlen at 2. rewrite xored_length. fold (zlen (concat (map field_code fs))). lia.
Qed.

Lemma ordered_code_roundtrip_witness :
  parse_fields (xored OrderedCode.decreasing (append_fields [] (demo_fields (-8193))).2 ++ [1; 2]) OrderedCode.decreasing
    [FString []; FInt 0; FFloat 0; FUint 0] = (SUCCESS, [1; 2], demo_fields (-8193)).
Proof.
  rewrite (ordered_code_roundtrip OrderedCode.decreasing (demo_fields (-8193)) [FString []; FInt 0; FFloat 0; FUint 0]
    (append_fields [] (demo_fields (-8193))).2 [1; 2]);
    [done|by right|apply demo_fields_ok; lia|by repeat constructor|by vm_compute|by vm_compute].
Defined.

(** A [string_or_infinity] that holds a string is never parsed: the infinity parser reports
    its failure as a return code, so the [catch] block that would parse the string is dead. *)
Lemma string_or_infinity_never_parses s x dst : Forall is_byte x ->
  OrderedCode.append_string_or_infinity s {| OrderedCode.soi_s := x; OrderedCode.soi_inf := false |} =
    (SUCCESS, s ++ string_code x) /\
  (OrderedCode.parse_string_or_infinity (string_code x) OrderedCode.increasing dst).1.1 = INVALID_ARGUMENT.
Proof.
  intros Hx. split; [apply append_string_code|].
  unfold OrderedCode.parse_string_or_infinity, OrderedCode.parse_infinity.
  assert (exists a b t, string_code x = a :: b :: t /\ ~ (a = 0xff /\ b = 0xff)) as (a & b & t & -> & Hab).
  { unfold string_code, escaped. destruct x as [|y x]; [eexists _, _, _; split; [done|lia]|]. cbn [map concat].
    destruct (escape_cases y) as [[_ ->]|[[_ ->]|[[_ Hy] ->]]]; 
      [by apply Forall_cons in Hx as [? _]|eexists _, _, _; split; [done|lia]..|].
    rewrite <- app_assoc. destruct (concat (map escape x) ++ OrderedCode.term) as [|h t] eqn:E; [by destruct (concat _)|].
    eexists _, _, _. split; [done|]. naive_solver. }
  rewrite !Z.lxor_0_r. destruct (Z.eqb_spec a 0xff), (Z.eqb_spec b 0xff); cbn; try done. naive_solver.
Qed.
