(* ===== verification/LsmIter.v ===== *)
(** * LsmIter: reading an LSM tree

    [src/src/oblsm]: internal keys ([util/ob_coding.h], [util/ob_comparator.cpp]), blocks
    ([table/ob_block_builder.cpp], [table/ob_block.cpp]), the iterator that merges several
    sources ([table/ob_merger.cpp]) and the one that shows a user the newest visible version
    of every key ([ob_user_iterator.cpp]).

    The class [Iterator] has the operations of [ObLsmIterator]; [IteratorLaws] states what
    [include/ob_lsm_iterator.h] promises of them, over the list of entries from the current
    position on.  Blocks satisfy the laws, merging iterators satisfy them when their children
    do, and the theorems on [ObUserIterator] are proved against the laws.  The skip list,
    SSTables, compaction and transactions are left out: in this revision their bodies are
    empty or answer [UNIMPLEMENTED]. *)

From stdpp Require Import sorting.
From S2P Require Import Prelude Bytes OrderedCode.
#[local] Open Scope Z_scope.

(** ** Internal keys *)

Definition SEQ_SIZE : nat := 8.
Definition LOOKUP_KEY_PREFIX_SIZE : nat := 8.

(** [put_numeric] and [get_numeric] of an unsigned integer of [n] bytes. *)
Definition put_numeric (n : nat) (dst : list Z) (v : Z) : list Z := dst ++ le_bytes n v.
Definition get_numeric (n : nat) (src : list Z) : Z := le_value (take n src).

Definition extract_user_key (internal_key : list Z) : list Z :=
  take (length internal_key - SEQ_SIZE) internal_key.
Definition extract_sequence (internal_key : list Z) : Z :=
  get_numeric SEQ_SIZE (drop (length internal_key - SEQ_SIZE) internal_key).
Definition user_key_size_from_lookup_key (lookup_key : list Z) : nat :=
  length lookup_key - SEQ_SIZE - LOOKUP_KEY_PREFIX_SIZE.
Definition extract_user_key_from_lookup_key (lookup_key : list Z) : list Z :=
  take (user_key_size_from_lookup_key lookup_key) (drop LOOKUP_KEY_PREFIX_SIZE lookup_key).

(** [ObDefaultComparator::compare] is [bytes_compare].  [ObInternalKeyComparator::compare]:
    by user key, then the larger sequence number first. *)
Definition internal_compare (a b : list Z) : comparison :=
  match bytes_compare (extract_user_key a) (extract_user_key b) with
  | Eq => extract_sequence b ?= extract_sequence a
  | c => c
  end.

(** ** The interface [ObLsmIterator] *)

Class Iterator (I : Type) := {
  valid : I -> bool;
  next : I -> I;
  key : I -> list Z;
  value : I -> list Z;
  seek_to_first : I -> I;
  seek : list Z -> I -> I
}.

(** An entry: internal key and value. *)
Abbreviation entry := (list Z * list Z)%type (only parsing).

Definition ukey (e : entry) : list Z := extract_user_key e.1.
Definition seqno (e : entry) : Z := extract_sequence e.1.

(** The order of entries in every source. *)
Definition entry_lt (e f : entry) : Prop := internal_compare e.1 f.1 = Lt.

(** What [seek] with lookup key [lk] may leave out, and what it may not show: earlier user
    keys, and versions of the key that are newer than the lookup's sequence number. *)
Definition skippable (lk : list Z) (e : entry) : Prop :=
  match bytes_compare (ukey e) (extract_user_key_from_lookup_key lk) with
  | Lt => True
  | Eq => extract_sequence lk < seqno e
  | Gt => False
  end.
Definition at_or_after (lk : list Z) (e : entry) : Prop :=
  bytes_compare (ukey e) (extract_user_key_from_lookup_key lk) <> Lt.

Class IteratorLaws (I : Type) `{Iterator I} := {
  (** [it_open]: the source is as the iterator needs it; [it_ok]: and it has been
      positioned. *)
  it_open : I -> Prop;
  it_ok : I -> Prop;
  contents : I -> list entry;
  rest : I -> list entry;
  contents_sorted : forall it, it_open it -> StronglySorted entry_lt (contents it);
  rest_sorted : forall it, it_ok it -> StronglySorted entry_lt (rest it);
  valid_rest : forall it, it_ok it -> valid it = negb (bool_decide (rest it = []));
  key_value_rest : forall it e l, it_ok it -> rest it = e :: l -> (key it, value it) = e;
  next_rest : forall it e l, it_ok it -> rest it = e :: l -> it_ok (next it) /\ rest (next it) = l;
  first_rest : forall it, it_open it -> it_ok (seek_to_first it) /\ rest (seek_to_first it) = contents it;
  seek_rest : forall lk it, it_open it -> it_ok (seek lk it) /\
    exists skipped, contents it ≡ₚ skipped ++ rest (seek lk it) /\
      Forall (skippable lk) skipped /\ Forall (at_or_after lk) (rest (seek lk it))
}.

(** ** Blocks *)

Definition BLOCK_SIZE : Z := 4 * 1024.

Record ObBlockBuilder := { offsets_ : list Z; data_ : list Z }.

Definition builder_reset : ObBlockBuilder := {| offsets_ := []; data_ := [] |}.

Definition appro_size (b : ObBlockBuilder) : Z := uint32 (zlen (data_ b) + zlen (offsets_ b) * 4).

Definition builder_add (b : ObBlockBuilder) (k v : list Z) : RC * ObBlockBuilder :=
  if BLOCK_SIZE <? appro_size b + zlen k + zlen v + 2 * 4 then
    if bool_decide (offsets_ b = []) then (UNIMPLEMENTED, b) else (FULL, b)
  else
    let d := put_numeric 4 (data_ b) (uint32 (zlen k)) in
    let d := d ++ k in
    let d := put_numeric 4 d (uint32 (zlen v)) in
    (SUCCESS, {| offsets_ := offsets_ b ++ [uint32 (zlen (data_ b))]; data_ := d ++ v |}).

Definition builder_last_key (b : ObBlockBuilder) : list Z :=
  let last_kv := drop (Z.to_nat (List.last (offsets_ b) 0)) (data_ b) in
  take (Z.to_nat (get_numeric 4 last_kv)) (drop 4 last_kv).

(** [finish]: the number of entries, the offsets and the size of the data. *)
Definition builder_finish (b : ObBlockBuilder) : list Z :=
  let data_size := uint32 (zlen (data_ b)) in
  let d := put_numeric 4 (data_ b) (uint32 (zlen (offsets_ b))) in
  let d := foldl (fun d o => put_numeric 4 d o) d (offsets_ b) in
  put_numeric 4 d data_size.

(** [ObBlock] with its iterator; [data_] and [offsets_] are those of the builder. *)
Record BlockIterator := {
  bi_data : list Z; bi_offsets : list Z; bi_index : Z; bi_key : list Z; bi_value : list Z
}.

Definition new_block_iterator (b : ObBlockBuilder) : BlockIterator :=
  {| bi_data := data_ b; bi_offsets := offsets_ b; bi_index := 0; bi_key := []; bi_value := [] |}.

Definition block_get_entry (it : BlockIterator) (i : Z) : list Z :=
  let curr_begin := znth 0 (bi_offsets it) i in
  let curr_end := if i =? zlen (bi_offsets it) - 1 then zlen (bi_data it) else znth 0 (bi_offsets it) (i + 1) in
  slice (bi_data it) curr_begin (curr_end - curr_begin).

Definition parse_entry (it : BlockIterator) : BlockIterator :=
  let curr := block_get_entry it (bi_index it) in
  let key_size := Z.to_nat (get_numeric 4 curr) in
  let k := take key_size (drop 4 curr) in
  let value_size := Z.to_nat (get_numeric 4 (drop (4 + key_size) curr)) in
  let v := take value_size (drop (2 * 4 + key_size) curr) in
  {| bi_data := bi_data it; bi_offsets := bi_offsets it; bi_index := bi_index it; bi_key := k; bi_value := v |}.

Definition with_index (it : BlockIterator) (i : Z) : BlockIterator :=
  {| bi_data := bi_data it; bi_offsets := bi_offsets it; bi_index := i; bi_key := bi_key it; bi_value := bi_value it |}.

Definition block_valid (it : BlockIterator) : bool := bi_index it <? zlen (bi_offsets it).

Definition block_seek_to_first (it : BlockIterator) : BlockIterator := parse_entry (with_index it 0).

Definition block_next (it : BlockIterator) : BlockIterator :=
  let it := with_index it (bi_index it + 1) in
  if block_valid it then parse_entry it else it.

(** The loop of [BlockIterator::seek]: at most as many steps as there are entries. *)
Fixpoint block_seek_loop (fuel : nat) (lookup_key : list Z) (it : BlockIterator) : BlockIterator :=
  match fuel with
  | O => it
  | S fuel' =>
      if block_valid it then
        let it := parse_entry it in
        match bytes_compare (extract_user_key (bi_key it)) (extract_user_key_from_lookup_key lookup_key) with
        | Lt => block_seek_loop fuel' lookup_key (with_index it (bi_index it + 1))
        | _ => it
        end
      else it
  end.

Definition block_seek (lookup_key : list Z) (it : BlockIterator) : BlockIterator :=
  block_seek_loop (S (length (bi_offsets it))) lookup_key (with_index it 0).

#[export] Instance block_iterator : Iterator BlockIterator := {
  valid := block_valid; next := block_next; key := bi_key; value := bi_value;
  seek_to_first := block_seek_to_first; seek := block_seek
}.

(** ** Merging *)

Section merging.
Context {I : Type} `{Iterator I}.

(** [current_] is a pointer to one of the children: its index. *)
Record ObMergingIterator := { children_ : list I; current_ : option nat }.

Fixpoint smallest_loop (cs : list I) (i : nat) (smallest : option (nat * I)) : option (nat * I) :=
  match cs with
  | [] => smallest
  | child :: cs' =>
      smallest_loop cs' (S i)
        (if valid child then
           match smallest with
           | None => Some (i, child)
           | Some (_, s) => match internal_compare (key child) (key s) with Lt => Some (i, child) | _ => smallest end
           end
         else smallest)
  end.

Definition find_smallest (cs : list I) : ObMergingIterator :=
  {| children_ := cs; current_ := option_map fst (smallest_loop cs 0 None) |}.

Definition current_child (m : ObMergingIterator) : option I := current_ m ≫= fun i => children_ m !! i.

Definition merging_valid (m : ObMergingIterator) : bool := bool_decide (is_Some (current_ m)).
Definition merging_key (m : ObMergingIterator) : list Z := match current_child m with Some c => key c | None => [] end.
Definition merging_value (m : ObMergingIterator) : list Z := match current_child m with Some c => value c | None => [] end.

Definition merging_seek_to_first (m : ObMergingIterator) : ObMergingIterator :=
  find_smallest (map seek_to_first (children_ m)).
Definition merging_seek (target : list Z) (m : ObMergingIterator) : ObMergingIterator :=
  find_smallest (map (seek target) (children_ m)).
Definition merging_next (m : ObMergingIterator) : ObMergingIterator :=
  match current_ m with
  | Some i => find_smallest (alter next i (children_ m))
  | None => m
  end.

#[export] Instance merging_iterator : Iterator ObMergingIterator := {
  valid := merging_valid; next := merging_next; key := merging_key; value := merging_value;
  seek_to_first := merging_seek_to_first; seek := merging_seek
}.
End merging.
Arguments ObMergingIterator : clear implicits.

(** ** The user's view *)

Section user.
Context {I : Type} `{Iterator I}.

Record ObUserIterator := {
  iter_ : I; seq_ : Z; lookup_key_ : list Z; saved_key_ : list Z; valid_ : bool
}.

Definition new_user_iterator (it : I) (seq : Z) : ObUserIterator :=
  {| iter_ := it; seq_ := seq; lookup_key_ := []; saved_key_ := []; valid_ := false |}.

(** The do-while loop of [find_next_user_entry], entered with a valid iterator; [skip] is
    [saved_key_].  Each turn moves the iterator on, so [fuel] is enough when it is at least
    the number of entries left. *)
Fixpoint find_next_loop (fuel : nat) (seq : Z) (it : I) (skipping : bool) (skip : list Z) : I * bool :=
  match fuel with
  | O => (it, false)
  | S fuel' =>
      let curr_seq := extract_sequence (key it) in
      let user_key := extract_user_key (key it) in
      let continue skipping skip :=
        let it := next it in
        if valid it then find_next_loop fuel' seq it skipping skip else (it, false) in
      if curr_seq <=? seq then
        if bool_decide (value it = []) then continue true user_key
        else if skipping && negb (bool_decide (bytes_compare user_key skip = Gt)) then continue skipping skip
        else (it, true)
      else continue skipping skip
  end.

Definition find_next_user_entry (fuel : nat) (u : ObUserIterator) (skipping : bool) : ObUserIterator :=
  let '(it, ok) := find_next_loop fuel (seq_ u) (iter_ u) skipping (saved_key_ u) in
  {| iter_ := it; seq_ := seq_ u; lookup_key_ := lookup_key_ u; saved_key_ := []; valid_ := ok |}.

Definition set_invalid (u : ObUserIterator) : ObUserIterator :=
  {| iter_ := iter_ u; seq_ := seq_ u; lookup_key_ := lookup_key_ u; saved_key_ := saved_key_ u; valid_ := false |}.

Definition with_iter (u : ObUserIterator) (it : I) : ObUserIterator :=
  {| iter_ := it; seq_ := seq_ u; lookup_key_ := lookup_key_ u; saved_key_ := saved_key_ u; valid_ := valid_ u |}.

Definition user_seek_to_first (fuel : nat) (u : ObUserIterator) : ObUserIterator :=
  let u := with_iter u (seek_to_first (iter_ u)) in
  if valid (iter_ u) then find_next_user_entry fuel u false else set_invalid u.

(** [seek] appends to [lookup_key_], which nothing clears. *)
Definition user_seek (fuel : nat) (target : list Z) (u : ObUserIterator) : ObUserIterator :=
  let lk := put_numeric 8 (lookup_key_ u) (zlen target + Z.of_nat SEQ_SIZE) in
  let lk := lk ++ target in
  let lk := put_numeric 8 lk (seq_ u) in
  let u := {| iter_ := seek lk (iter_ u); seq_ := seq_ u; lookup_key_ := lk; saved_key_ := saved_key_ u; valid_ := valid_ u |} in
  if valid (iter_ u) then find_next_user_entry fuel u false else set_invalid u.

Definition user_next (fuel : nat) (u : ObUserIterator) : ObUserIterator :=
  let saved := extract_user_key (key (iter_ u)) in
  let it := next (iter_ u) in
  if negb (valid it) then
    {| iter_ := it; seq_ := seq_ u; lookup_key_ := lookup_key_ u; saved_key_ := []; valid_ := false |}
  else
    find_next_user_entry fuel
      {| iter_ := it; seq_ := seq_ u; lookup_key_ := lookup_key_ u; saved_key_ := saved; valid_ := valid_ u |} true.

Definition user_key (u : ObUserIterator) : list Z := extract_user_key (key (iter_ u)).
Definition user_value (u : ObUserIterator) : list Z := value (iter_ u).

(** What a client reads with [while (it->valid()) { ...; it->next(); }]. *)
Fixpoint read_all (fuel : nat) (u : ObUserIterator) : list (list Z * list Z) :=
  match fuel with
  | O => []
  | S fuel' => if valid_ u then (user_key u, user_value u) :: read_all fuel' (user_next (S fuel') u) else []
  end.

(** [ObLsmImpl::get] over the iterator of [new_iterator]. *)
Definition lsm_get (fuel : nat) (u : ObUserIterator) (k : list Z) : RC * option (list Z) :=
  let u := user_seek fuel k u in
  if valid_ u && bool_decide (user_key u = k) then
    if bool_decide (user_value u = []) then (NOT_EXIST, None) else (SUCCESS, Some (user_value u))
  else (NOT_EXIST, None).
End user.
Arguments ObUserIterator : clear implicits.

(** ** The order of internal keys *)

Lemma bytes_compare_trans a b c : bytes_compare a b = Lt -> bytes_compare b c = Lt -> bytes_compare a c = Lt.
Proof.
  revert b c. induction a as [|x a IH]; intros [|y b] [|z c]; cbn; try done.
  destruct (Z.compare_spec x y), (Z.compare_spec y z), (Z.compare_spec x z); subst; try done; try lia. apply IH.
Qed.

Lemma internal_compare_refl a : internal_compare a a = Eq.
Proof. unfold internal_compare. by rewrite bytes_compare_refl, Z.compare_refl. Qed.

Lemma internal_compare_antisym a b : internal_compare b a = CompOpp (internal_compare a b).
Proof.
  unfold internal_compare. rewrite (bytes_compare_antisym (extract_user_key a)).
  destruct (bytes_compare _ _); cbn; [apply Z.compare_antisym|done|done].
Qed.

#[export] Instance entry_lt_trans : Transitive entry_lt.
Proof.
  intros e f g. unfold entry_lt, internal_compare.
  destruct (bytes_compare (extract_user_key e.1) (extract_user_key f.1)) eqn:E1,
    (bytes_compare (extract_user_key f.1) (extract_user_key g.1)) eqn:E2; try done; intros H1 H2.
  - apply bytes_compare_eq in E1, E2. rewrite E1, E2, bytes_compare_refl. rewrite Z.compare_lt_iff in *. lia.
  - apply bytes_compare_eq in E1. by rewrite E1, E2.
  - apply bytes_compare_eq in E2. by rewrite <- E2, E1.
  - by rewrite (bytes_compare_trans _ _ _ E1 E2).
Qed.

#[export] Instance entry_lt_irrefl : Irreflexive entry_lt.
Proof. intros e. unfold entry_lt, complement. by rewrite internal_compare_refl. Qed.

Lemma entry_lt_asym e f : entry_lt e f -> entry_lt f e -> False.
Proof. intros H1 H2. by apply (entry_lt_irrefl e), (entry_lt_trans e f e). Qed.

(** Entries with different internal keys. *)
Definition distinct (e f : entry) : Prop := internal_compare e.1 f.1 <> Eq.

Lemma distinct_cases e f : distinct e f -> entry_lt e f \/ entry_lt f e.
Proof.
  unfold distinct, entry_lt. rewrite (internal_compare_antisym e.1 f.1).
  destruct (internal_compare e.1 f.1); cbn; naive_solver.
Qed.

(** A strictly sorted list is determined by its elements. *)
Lemma sorted_unique (l k : list entry) : StronglySorted entry_lt l -> StronglySorted entry_lt k -> l ≡ₚ k -> l = k.
Proof.
  intros Hl. revert k. induction Hl as [|x l Hl IH Hx]; intros k Hk Hp.
  - by apply Permutation_nil in Hp.
  - destruct Hk as [|y k Hk Hy]; [by apply Permutation_sym, Permutation_nil in Hp|].
    assert (x = y) as ->.
    { assert (x ∈ y :: k) as Hxk by (rewrite <- Hp; left).
      assert (y ∈ x :: l) as Hyl by (rewrite Hp; left).
      apply elem_of_cons in Hxk as [->|Hxk]; [done|]. apply elem_of_cons in Hyl as [->|Hyl]; [done|].
      rewrite Forall_forall in Hx, Hy. exfalso. eapply entry_lt_asym; [by apply Hx|by apply Hy]. }
    f_equal. apply IH; [done|]. by apply Permutation_cons_inv in Hp.
Qed.

(** Insertion sort, the reference for merging. *)
Fixpoint insert_entry (e : entry) (l : list entry) : list entry :=
  match l with
  | [] => [e]
  | f :: l' => match internal_compare e.1 f.1 with Gt => f :: insert_entry e l' | _ => e :: l end
  end.

Definition sort_entries (l : list entry) : list entry := foldr insert_entry [] l.

Lemma insert_entry_perm e l : insert_entry e l ≡ₚ e :: l.
Proof.
  induction l as [|f l IH]; [done|]. cbn. destruct (internal_compare e.1 f.1); [done..|].
  rewrite IH. constructor.
Qed.

Lemma sort_entries_perm l : sort_entries l ≡ₚ l.
Proof. induction l as [|e l IH]; [done|]. cbn. by rewrite insert_entry_perm, IH. Qed.

Lemma insert_entry_sorted e l : StronglySorted entry_lt l -> Forall (distinct e) l ->
  StronglySorted entry_lt (insert_entry e l).
Proof.
  induction 1 as [|f l Hl IH Hf]; intros Hd; cbn; [by repeat constructor|].
  apply Forall_cons in Hd as [Hdf Hd]. destruct (internal_compare e.1 f.1) eqn:E.
  - by destruct Hdf.
  - constructor; [by constructor|]. constructor; [done|]. apply (Forall_impl (entry_lt f)); [done|]. intros g Hg. by apply (entry_lt_trans e f g).
  - constructor; [by apply IH|]. rewrite (insert_entry_perm e l). constructor; [|done].
    unfold entry_lt. by rewrite (internal_compare_antisym e.1), E.
Qed.

Definition all_distinct (l : list entry) : Prop := ForallOrdPairs distinct l.

Lemma distinct_sym e f : distinct e f -> distinct f e.
Proof. unfold distinct. rewrite (internal_compare_antisym e.1). by destruct (internal_compare e.1 f.1). Qed.

Lemma all_distinct_perm l k : l ≡ₚ k -> all_distinct l -> all_distinct k.
Proof.
  induction 1 as [|x l k Hp IH|x y l|]; intros Hd; [done| | |naive_solver].
  - inversion Hd as [|? ? Hx Hd']; subst.
    constructor; [by rewrite <- Hp|by apply IH].
  - inversion Hd as [|? ? Hx Hd']; subst. inversion Hd' as [|? ? Hy Hd'']; subst.
    apply Forall_cons in Hx as [Hxy Hx]. constructor; [|by constructor]. constructor; [by apply distinct_sym|done].
Qed.

Lemma sort_entries_sorted l : all_distinct l -> StronglySorted entry_lt (sort_entries l).
Proof.
  induction 1 as [|e l He _ IH]; [constructor|]. cbn. apply insert_entry_sorted; [done|].
  by rewrite sort_entries_perm.
Qed.

(** ** Blocks satisfy the laws *)

Definition block_at (it : BlockIterator) (i : Z) : entry :=
  let it' := parse_entry (with_index it i) in (bi_key it', bi_value it').

Definition block_contents (it : BlockIterator) : list entry := map (block_at it) (seqZ 0 (zlen (bi_offsets it))).

Definition block_open (it : BlockIterator) : Prop :=
  bi_offsets it <> [] /\ StronglySorted entry_lt (block_contents it).

Definition block_ok (it : BlockIterator) : Prop :=
  block_open it /\ 0 <= bi_index it /\
  (bi_index it < zlen (bi_offsets it) -> (bi_key it, bi_value it) = block_at it (bi_index it)).

Definition block_rest (it : BlockIterator) : list entry := drop (Z.to_nat (bi_index it)) (block_contents it).

Lemma block_contents_index it i : block_contents (with_index it i) = block_contents it.
Proof. done. Qed.

Lemma block_contents_parse it : block_contents (parse_entry it) = block_contents it.
Proof. done. Qed.

Lemma parse_block_at it i : 0 <= i -> block_open it -> block_ok (parse_entry (with_index it i)).
Proof. intros Hi Ho. by split_and!. Qed.

Lemma block_contents_lookup it i : 0 <= i < zlen (bi_offsets it) ->
  block_contents it !! Z.to_nat i = Some (block_at it i).
Proof.
  intros Hi. unfold block_contents. rewrite list_lookup_fmap, lookup_seqZ_lt by lia. cbn. do 2 f_equal. lia.
Qed.

Lemma block_contents_length it : length (block_contents it) = length (bi_offsets it).
Proof. unfold block_contents. rewrite length_fmap, length_seqZ. unfold zlen. lia. Qed.

Lemma block_rest_cons it : 0 <= bi_index it < zlen (bi_offsets it) ->
  block_rest it = block_at it (bi_index it) :: drop (S (Z.to_nat (bi_index it))) (block_contents it).
Proof. intros Hi. unfold block_rest. by apply drop_S, block_contents_lookup. Qed.

Lemma block_rest_end it : zlen (bi_offsets it) <= bi_index it -> block_rest it = [].
Proof. intros Hi. unfold block_rest. apply drop_ge. rewrite block_contents_length. unfold zlen in Hi. lia. Qed.

Lemma sorted_drop n (l : list entry) : StronglySorted entry_lt l -> StronglySorted entry_lt (drop n l).
Proof. intros Hl. revert n. induction Hl; intros [|n]; cbn; [constructor..|by constructor|naive_solver]. Qed.

Lemma block_rest_cases it : block_ok it ->
  (bi_index it < zlen (bi_offsets it) /\ exists l, block_rest it = (bi_key it, bi_value it) :: l) \/
  (zlen (bi_offsets it) <= bi_index it /\ block_rest it = []).
Proof.
  intros (Ho & Hi & Hk). destruct (Z.lt_ge_cases (bi_index it) (zlen (bi_offsets it))).
  - left. split; [done|]. rewrite block_rest_cons, Hk by lia. by eexists.
  - right. split; [done|]. by apply block_rest_end.
Qed.

(** Entries with a smaller user key are skippable. *)
Lemma skippable_lt lk e : bytes_compare (ukey e) (extract_user_key_from_lookup_key lk) = Lt -> skippable lk e.
Proof. unfold skippable. by intros ->. Qed.

Lemma at_or_after_later lk e f : at_or_after lk e -> entry_lt e f -> at_or_after lk f.
Proof.
  unfold at_or_after, entry_lt, internal_compare. intros He Hlt Hf. apply He. unfold ukey in *.
  destruct (bytes_compare (extract_user_key e.1) (extract_user_key f.1)) eqn:E; try done.
  - apply bytes_compare_eq in E. by rewrite E.
  - by apply (bytes_compare_trans _ _ _ E).
Qed.

Lemma block_seek_loop_spec fuel lk it : block_open it -> 0 <= bi_index it <= zlen (bi_offsets it) ->
  zlen (bi_offsets it) - bi_index it < Z.of_nat fuel ->
  Forall (skippable lk) (take (Z.to_nat (bi_index it)) (block_contents it)) ->
  let it' := block_seek_loop fuel lk it in
  block_ok it' /\ block_contents it' = block_contents it /\
  Forall (skippable lk) (take (Z.to_nat (bi_index it')) (block_contents it)) /\
  Forall (at_or_after lk) (block_rest it').
Proof.
  revert it. induction fuel as [|fuel IH]; intros it Ho Hi Hf Hs; [lia|]. cbn [block_seek_loop]. unfold block_valid.
  destruct (Z.ltb_spec (bi_index it) (zlen (bi_offsets it))) as [Hlt|Hge]; cbn zeta.
  - pose proof (block_contents_lookup it (bi_index it) ltac:(lia)) as Hat.
    assert (block_ok (parse_entry it)) as Hok by (split; [done|split; [cbn; lia|done]]).
    assert (forall c, bytes_compare (ukey (block_at it (bi_index it))) (extract_user_key_from_lookup_key lk) = c -> c <> Lt ->
      block_ok (parse_entry it) /\ block_contents (parse_entry it) = block_contents it /\
      Forall (skippable lk) (take (Z.to_nat (bi_index (parse_entry it))) (block_contents it)) /\
      Forall (at_or_after lk) (block_rest (parse_entry it))) as Hstop.
    { intros c Hc Hn. split_and!; [done..|]. rewrite block_rest_cons by (cbn; lia). change (block_at (parse_entry it)) with (block_at it).
      change (block_contents (parse_entry it)) with (block_contents it). cbn [bi_index parse_entry].
      destruct Ho as [_ Hsort]. pose proof (sorted_drop (Z.to_nat (bi_index it)) _ Hsort) as Hsd.
      rewrite (drop_S _ _ _ Hat) in Hsd. inversion Hsd as [|? ? _ Hhd]; subst.
      assert (at_or_after lk (block_at it (bi_index it))) as Ha by done.
      constructor; [done|]. eapply Forall_impl; [apply Hhd|]. intros f. by apply at_or_after_later. }
    change (extract_user_key (bi_key (parse_entry it))) with (ukey (block_at it (bi_index it))).
    destruct (bytes_compare (ukey (block_at it (bi_index it))) _) eqn:Hc; [by apply (Hstop Eq)| |by apply (Hstop Gt)].
    apply (IH (with_index (parse_entry it) (bi_index it + 1))); cbn [bi_index with_index bi_offsets parse_entry]; try done; [lia|lia|].
    replace (Z.to_nat (bi_index it + 1)) with (S (Z.to_nat (bi_index it))) by lia.
    change (block_contents (with_index _ _)) with (block_contents it).
    rewrite (take_S_r _ _ _ Hat). apply Forall_app; split; [done|]. constructor; [by apply skippable_lt|done].
  - split_and!; [split; [done|split; lia]|done|done|]. by rewrite block_rest_end.
Qed.

#[export] Instance block_iterator_laws : IteratorLaws BlockIterator.
Proof.
  refine {| it_open := block_open; it_ok := block_ok; contents := block_contents; rest := block_rest |}.
  - intros it [_ H]. done.
  - intros it ((_ & Hs) & _). by apply sorted_drop.
  - intros it Hok. cbn. unfold block_valid.
    destruct (block_rest_cases it Hok) as [[Hlt [l ->]]|[Hge ->]]; cbn.
    + by apply Z.ltb_lt.
    + by apply Z.ltb_ge.
  - intros it e l Hok He. cbn. destruct (block_rest_cases it Hok) as [[Hlt [k Hk]]|[Hge Hk]]; rewrite Hk in He; by simplify_eq.
  - intros it e l Hok He. cbn. destruct (block_rest_cases it Hok) as [[Hlt _]|[Hge Hk]]; [|by rewrite Hk in He].
    destruct Hok as (Ho & Hi & Hk). rewrite block_rest_cons in He by lia. simplify_eq.
    unfold block_next, block_valid. cbn [bi_index with_index bi_offsets].
    assert (Z.to_nat (bi_index it + 1) = S (Z.to_nat (bi_index it))) as E by lia.
    destruct (Z.ltb_spec (bi_index it + 1) (zlen (bi_offsets it))).
    + split; [by apply (parse_block_at it); [lia|]|]. unfold block_rest. cbn [bi_index parse_entry with_index]. by rewrite E.
    + split; [split; [done|split; cbn; lia]|]. unfold block_rest. cbn [bi_index with_index]. by rewrite E.
  - intros it Ho. split; [by apply parse_block_at|]. done.
  - intros lk it Ho. change (seek lk it) with (block_seek lk it). unfold block_seek.
    destruct (block_seek_loop_spec (S (length (bi_offsets it))) lk (with_index it 0)) as (Hok & Hc & Hs & Ha);
      cbn [bi_index with_index bi_offsets]; try done; [unfold zlen; lia|unfold zlen; lia|].
    split; [done|]. eexists. split_and!; [|apply Hs|done].
    unfold block_rest. rewrite Hc. change (block_contents (with_index it 0)) with (block_contents it).
    by rewrite take_drop.
Defined.

(** ** What a block builder has added *)

Definition encode_entry (e : entry) : list Z :=
  le_bytes 4 (zlen e.1) ++ e.1 ++ le_bytes 4 (zlen e.2) ++ e.2.

Definition encode_entries (es : list entry) : list Z := concat (map encode_entry es).

Fixpoint entry_offsets (off : Z) (es : list entry) : list Z :=
  match es with [] => [] | e :: es' => off :: entry_offsets (off + zlen (encode_entry e)) es' end.

Record builder_repr (b : ObBlockBuilder) (es : list entry) : Prop := {
  br_data : data_ b = encode_entries es;
  br_offsets : offsets_ b = entry_offsets 0 es;
  br_size : zlen (data_ b) + zlen (offsets_ b) * 4 <= BLOCK_SIZE + 4
}.

Lemma encode_entries_app es fs : encode_entries (es ++ fs) = encode_entries es ++ encode_entries fs.
Proof. unfold encode_entries. by rewrite map_app, concat_app. Qed.

Lemma entry_offsets_app off es fs :
  entry_offsets off (es ++ fs) = entry_offsets off es ++ entry_offsets (off + zlen (encode_entries es)) fs.
Proof.
  revert off. induction es as [|e es IH]; intros off; cbn [entry_offsets app].
  - by rewrite Z.add_0_r.
  - rewrite IH. do 3 f_equal. unfold encode_entries. cbn [map concat]. rewrite zlen_app. lia.
Qed.

Lemma entry_offsets_length off es : length (entry_offsets off es) = length es.
Proof. revert off. induction es as [|e es IH]; intros off; [done|]. cbn. by rewrite IH. Qed.

Lemma builder_add_repr b es e : builder_repr b es ->
  match builder_add b e.1 e.2 with
  | (SUCCESS, b') => builder_repr b' (es ++ [e])
  | (FULL, b') => b' = b /\ es <> []
  | (rc, b') => rc = UNIMPLEMENTED /\ b' = b /\ es = [] /\ BLOCK_SIZE < zlen e.1 + zlen e.2 + 8
  end.
Proof.
  intros [Hd Ho Hs]. unfold BLOCK_SIZE in *. pose proof (zlen_pos (data_ b)). pose proof (zlen_pos (offsets_ b)).
  pose proof (zlen_pos e.1). pose proof (zlen_pos e.2).
  assert (appro_size b = zlen (data_ b) + zlen (offsets_ b) * 4) as Ha by (unfold appro_size; apply wrap_u_id; lia).
  unfold builder_add, BLOCK_SIZE. rewrite Ha.
  destruct (Z.ltb_spec (4 * 1024) (zlen (data_ b) + zlen (offsets_ b) * 4 + zlen e.1 + zlen e.2 + 2 * 4)).
  - case_bool_decide as He.
    + assert (es = []) as -> by (rewrite Ho in He; by destruct es). rewrite Hd, He in *. cbn in *. split_and!; done || lia.
    + split; [done|]. intros ->. by rewrite Ho in He.
  - unfold put_numeric. constructor; cbn [data_ offsets_].
    + rewrite encode_entries_app, Hd. change (encode_entries [e]) with (encode_entry e ++ []). unfold encode_entry.
      rewrite !wrap_u_id by lia. by rewrite <- !app_assoc, app_nil_r.
    + rewrite entry_offsets_app, <- Ho. do 2 f_equal. rewrite wrap_u_id by lia. by rewrite Hd, Z.add_0_l.
    + rewrite !zlen_app. unfold zlen in *. rewrite !le_bytes_length. cbn [length]. unfold BLOCK_SIZE. lia.
Qed.

Lemma get_numeric_app n v r : 0 <= v < 256 ^ Z.of_nat n -> get_numeric n (le_bytes n v ++ r) = v.
Proof.
  intros Hv. unfold get_numeric. rewrite take_app_length' by (by rewrite le_bytes_length).
  rewrite le_value_bytes. by apply Z.mod_small.
Qed.

Lemma drop_add_app {A} (a b : list A) n m : length a = n -> drop (n + m) (a ++ b) = drop m b.
Proof. intros <-. by rewrite <- drop_drop, drop_app_length. Qed.

Lemma decode_entry e : zlen e.1 < 2 ^ 32 -> zlen e.2 < 2 ^ 32 ->
  Z.to_nat (get_numeric 4 (encode_entry e)) = length e.1 /\
  take (length e.1) (drop 4 (encode_entry e)) = e.1 /\
  Z.to_nat (get_numeric 4 (drop (4 + length e.1) (encode_entry e))) = length e.2 /\
  take (length e.2) (drop (2 * 4 + length e.1) (encode_entry e)) = e.2.
Proof.
  intros Hk Hv. pose proof (zlen_pos e.1). pose proof (zlen_pos e.2). unfold encode_entry. split_and!.
  - rewrite get_numeric_app by (cbn; lia). unfold zlen. lia.
  - rewrite drop_app_length' by (by rewrite le_bytes_length). by rewrite take_app_length.
  - rewrite drop_add_app by (by rewrite le_bytes_length). rewrite drop_app_length, get_numeric_app by (cbn; lia).
    unfold zlen. lia.
  - change (2 * 4 + length e.1)%nat with (4 + (4 + length e.1))%nat.
    rewrite drop_add_app, Nat.add_comm, drop_add_app by (by rewrite ?le_bytes_length).
    rewrite drop_app_length' by (by rewrite le_bytes_length). apply firstn_all.
Qed.

Lemma block_at_entry b es fs e : builder_repr b (es ++ e :: fs) ->
  block_at (new_block_iterator b) (zlen es) = e.
Proof.
  intros [Hd Ho Hs]. rewrite encode_entries_app in Hd.
  change (encode_entries (e :: fs)) with (encode_entry e ++ encode_entries fs) in Hd. rewrite entry_offsets_app in Ho. cbn [entry_offsets] in Ho.
  assert (zlen (encode_entry e) <= zlen (data_ b)) as Hse
    by (rewrite Hd, !zlen_app; pose proof (zlen_pos (encode_entries es)); pose proof (zlen_pos (encode_entries fs)); lia).
  assert (zlen e.1 < 2 ^ 32 /\ zlen e.2 < 2 ^ 32) as [Hk Hv].
  { pose proof (zlen_pos (offsets_ b)). unfold encode_entry in Hse. rewrite !zlen_app in Hse.
    pose proof (zlen_pos (le_bytes 4 (zlen e.1))). pose proof (zlen_pos (le_bytes 4 (zlen e.2))).
    pose proof (zlen_pos e.1). pose proof (zlen_pos e.2). unfold BLOCK_SIZE in *. lia. }
  assert (block_get_entry (with_index (new_block_iterator b) (zlen es)) (zlen es) = encode_entry e) as E.
  { unfold block_get_entry. cbn [bi_offsets bi_data with_index new_block_iterator]. rewrite Ho, Hd.
    assert (zlen (entry_offsets 0 es) = zlen es) as Hlo by (unfold zlen; by rewrite entry_offsets_length).
    rewrite znth_mid by done. rewrite zlen_app, zlen_cons, Hlo. apply slice_mid; [lia|].
    destruct (Z.eqb_spec (zlen es) (zlen es + (1 + zlen (entry_offsets (0 + zlen (encode_entries es) + zlen (encode_entry e)) fs)) - 1)) as [Hz|Hz].
    - assert (fs = []) as -> by (destruct fs; [done|]; cbn [entry_offsets] in Hz; rewrite zlen_cons in Hz;
        pose proof (zlen_pos (entry_offsets (0 + zlen (encode_entries es) + zlen (encode_entry e) + zlen (encode_entry p)) fs)); lia).
      rewrite !zlen_app. change (zlen (encode_entries [])) with 0. lia.
    - destruct fs as [|f fs]; [exfalso; apply Hz; change (zlen (entry_offsets _ [])) with 0; lia|]. cbn [entry_offsets].
      rewrite (cons_middle _ (entry_offsets 0 es)), app_assoc.
      rewrite znth_mid by (rewrite zlen_app, Hlo; done). lia. }
  unfold block_at, parse_entry. cbn [bi_index with_index bi_key bi_value]. rewrite E.
  destruct (decode_entry e Hk Hv) as (E1 & E2 & E3 & E4). rewrite E1, E2, E3, E4. by destruct e.
Qed.

Lemma block_contents_built b es : builder_repr b es -> block_contents (new_block_iterator b) = es.
Proof.
  intros Hr. apply list_eq. intros i. unfold block_contents. rewrite list_lookup_fmap. cbn [bi_offsets new_block_iterator].
  assert (zlen (offsets_ b) = zlen es) as Hl by (rewrite (br_offsets _ _ Hr); unfold zlen; by rewrite entry_offsets_length).
  destruct (es !! i) as [e|] eqn:E.
  - pose proof (lookup_lt_Some _ _ _ E). rewrite lookup_seqZ_lt by (unfold zlen in *; lia). cbn.
    apply take_drop_middle in E as Es. rewrite <- Es in Hr. f_equal. rewrite <- (block_at_entry b _ _ _ Hr).
    f_equal. unfold zlen. rewrite length_take. lia.
  - apply lookup_ge_None in E. rewrite lookup_seqZ_ge by (unfold zlen in *; lia). done.
Qed.

(** ** Merging iterators satisfy the laws *)

Section merging_laws.
Context {I : Type} `{HI : Iterator I} {HL : IteratorLaws I}.
#[local] Abbreviation M := (ObMergingIterator I).

Definition child_entries (f : I -> list entry) (cs : list I) : list entry := concat (map f cs).

Definition merging_open (m : M) : Prop :=
  Forall it_open (children_ m) /\ all_distinct (child_entries contents (children_ m)).

Definition merging_ok (m : M) : Prop :=
  Forall it_ok (children_ m) /\ all_distinct (child_entries rest (children_ m)) /\ m = find_smallest (children_ m).

Definition merging_contents (m : M) : list entry := sort_entries (child_entries contents (children_ m)).
Definition merging_rest (m : M) : list entry := sort_entries (child_entries rest (children_ m)).

(** The candidate of the loop: a child whose head is not after any head seen so far. *)
Definition candidate (cs : list I) (s : option (nat * I)) : Prop :=
  match s with
  | None => Forall (fun c => rest c = []) cs
  | Some (i, c) => cs !! i = Some c /\ exists e l, rest c = e :: l /\
      forall d f k, d ∈ cs -> rest d = f :: k -> internal_compare f.1 e.1 <> Lt
  end.

Lemma smallest_loop_spec cs seen s : Forall it_ok (seen ++ cs) -> candidate seen s ->
  candidate (seen ++ cs) (smallest_loop cs (length seen) s).
Proof using HL.
  revert seen s. induction cs as [|c cs IH]; intros seen s Hok Hs; [by rewrite app_nil_r|].
  cbn [smallest_loop]. rewrite (cons_middle c seen cs), app_assoc in *.
  replace (S (length seen)) with (length (seen ++ [c])) by (rewrite length_app; cbn; lia). apply IH; [done|].
  assert (it_ok c) as Hc. { rewrite Forall_app, Forall_app, Forall_singleton in Hok. naive_solver. }
  rewrite (valid_rest c Hc). destruct (rest c) as [|e l] eqn:Ec; cbn [bool_decide negb].
  - destruct s as [[i d]|]; cbn in Hs |- *.
    + destruct Hs as (Hi & f & k & Hf & Hmin). split; [by apply lookup_app_l_Some|]. exists f, k. split; [done|].
      intros d' g k'. rewrite elem_of_app, list_elem_of_singleton. intros [?| ->] Hg; [by eapply Hmin|].
      by rewrite Ec in Hg.
    + apply Forall_app. by repeat constructor.
  - assert (key c = e.1) as Ek by (by rewrite <- (key_value_rest c e l)).
    destruct s as [[i d]|]; cbn in Hs |- *.
    + destruct Hs as (Hi & f & k & Hf & Hmin).
      assert (it_ok d) as Hd by (rewrite Forall_app in Hok; destruct Hok as [Hok _]; rewrite Forall_app in Hok;
        destruct Hok as [Hok _]; by eapply Forall_lookup_1).
      assert (key d = f.1) as -> by (by rewrite <- (key_value_rest d f k)). rewrite Ek.
      destruct (internal_compare e.1 f.1) eqn:Ecmp; cbn.
      all: try (split; [by apply lookup_app_l_Some|]; exists f, k; split; [done|]; intros d' g k';
        rewrite elem_of_app, list_elem_of_singleton; intros [?| ->] Hg; [by eapply Hmin|rewrite Ec in Hg; injection Hg as <- <-; by rewrite Ecmp]).
      split; [by rewrite lookup_app_r, Nat.sub_diag by lia|]. exists e, l. split; [done|]. intros d' g k'.
      rewrite elem_of_app, list_elem_of_singleton. intros [Hin| ->] Hg Hlt.
      * apply (Hmin d' g k' Hin Hg). by apply (entry_lt_trans g e f).
      * rewrite Ec in Hg. injection Hg as <- <-. by rewrite internal_compare_refl in Hlt.
    + split; [by rewrite lookup_app_r, Nat.sub_diag by lia|]. exists e, l. split; [done|]. intros d' g k'.
      rewrite elem_of_app, list_elem_of_singleton. intros [Hin| ->] Hg Hlt.
      * rewrite Forall_forall in Hs. by rewrite (Hs d' Hin) in Hg.
      * rewrite Ec in Hg. injection Hg as <- <-. by rewrite internal_compare_refl in Hlt.
Qed.

Lemma child_entries_app f (cs ds : list I) : child_entries f (cs ++ ds) = child_entries f cs ++ child_entries f ds.
Proof using. unfold child_entries. by rewrite map_app, concat_app. Qed.

Lemma child_entries_next cs i c e l : it_ok c -> cs !! i = Some c -> rest c = e :: l ->
  child_entries rest cs ≡ₚ e :: child_entries rest (alter next i cs) /\
  (Forall it_ok cs -> Forall it_ok (alter next i cs)).
Proof using.
  intros Hok Hi Hc. destruct (next_rest c e l Hok Hc) as [Hn Hl].
  pose proof (take_drop_middle _ _ _ Hi) as E.
  assert (alter next i cs = take i cs ++ next c :: drop (S i) cs) as ->.
  { rewrite <- E at 1. rewrite alter_app_r_alt by (rewrite length_take; apply lookup_lt_Some in Hi; lia).
    rewrite length_take_le, Nat.sub_diag by (apply lookup_lt_Some in Hi; lia). done. }
  split.
  - rewrite <- E at 1. rewrite !child_entries_app. unfold child_entries at 2 4. cbn [map concat]. rewrite Hc, Hl. cbn.
    symmetry. apply Permutation_middle.
  - intros H. rewrite <- E, Forall_app, Forall_cons in H. rewrite Forall_app, Forall_cons. naive_solver.
Qed.

Lemma elem_of_child_entries f (cs : list I) e : e ∈ child_entries f cs <-> exists c, c ∈ cs /\ e ∈ f c.
Proof using.
  unfold child_entries. rewrite list_elem_of_In, in_concat. split.
  - intros (l & Hl & He). apply in_map_iff in Hl as (c & <- & Hc). exists c. by rewrite !list_elem_of_In.
  - intros (c & Hc & He). exists (f c). rewrite in_map_iff. rewrite !list_elem_of_In in *. naive_solver.
Qed.

Lemma find_smallest_cases cs : Forall it_ok cs -> all_distinct (child_entries rest cs) ->
  (current_ (find_smallest cs) = None /\ sort_entries (child_entries rest cs) = []) \/
  (exists i c e l, current_ (find_smallest cs) = Some i /\ cs !! i = Some c /\ rest c = e :: l /\
     sort_entries (child_entries rest cs) = e :: sort_entries (child_entries rest (alter next i cs))).
Proof using HL.
  intros Hok Hd. pose proof (smallest_loop_spec cs [] None Hok ltac:(constructor)) as Hs. cbn [app length] in Hs.
  unfold find_smallest. cbn [current_]. destruct (smallest_loop cs 0 None) as [[i c]|]; cbn in Hs |- *.
  - right. destruct Hs as (Hi & e & l & Hc & Hmin). exists i, c, e, l. split_and!; [done..|].
    assert (it_ok c) as Hokc by (by eapply Forall_lookup_1).
    destruct (child_entries_next cs i c e l Hokc Hi Hc) as [Hp _].
    pose proof (all_distinct_perm _ _ Hp Hd) as Hd'. inversion Hd' as [|? ? He Hd'']; subst.
    apply sorted_unique; [by apply sort_entries_sorted| |by rewrite !sort_entries_perm, Hp].
    constructor; [by apply sort_entries_sorted|]. rewrite sort_entries_perm. apply Forall_forall. intros f Hf.
    rewrite Forall_forall in He. destruct (distinct_cases e f (He f Hf)) as [|Hlt]; [done|exfalso].
    assert (f ∈ child_entries rest cs) as Hfc by (rewrite Hp; by right).
    apply elem_of_child_entries in Hfc as (d & Hdc & Hfd).
    assert (it_ok d) as Hokd by (rewrite Forall_forall in Hok; by apply Hok).
    destruct (rest d) as [|g k] eqn:Ed; [by apply not_elem_of_nil in Hfd|].
    apply (Hmin d g k Hdc Ed). apply elem_of_cons in Hfd as [->|Hfk]; [done|].
    pose proof (rest_sorted d Hokd) as Hsd. rewrite Ed in Hsd. inversion Hsd as [|? ? _ Hg]; subst.
    rewrite Forall_forall in Hg. apply (entry_lt_trans g f e); [by apply Hg|done].
  - left. split; [done|]. assert (child_entries rest cs = []) as ->; [|done].
    unfold child_entries. induction Hs as [|c cs Hc _ IH]; [done|]. cbn. rewrite Hc. apply IH.
    + by apply Forall_cons in Hok as [_ ?].
    + unfold child_entries in *. cbn in Hd. by rewrite Hc in Hd.
Qed.

(** The laws of the children's [seek_to_first] and [seek], together. *)
Lemma positioned (f : I -> I) cs : (forall c, it_open c -> it_ok (f c)) -> Forall it_open cs -> Forall it_ok (map f cs).
Proof using. intros Hf Ho. apply Forall_map. by eapply Forall_impl. Qed.

Lemma seek_children lk cs : Forall it_open cs -> exists skipped,
  child_entries contents cs ≡ₚ skipped ++ child_entries rest (map (seek lk) cs) /\
  Forall (skippable lk) skipped /\ Forall (at_or_after lk) (child_entries rest (map (seek lk) cs)).
Proof using.
  induction 1 as [|c cs Hc _ (sk & Hp & Hs & Ha)]; [by exists []|].
  destruct (seek_rest lk c Hc) as (_ & sk' & Hp' & Hs' & Ha'). exists (sk' ++ sk). unfold child_entries in *.
  cbn [map concat]. split_and!; [|by apply Forall_app|by apply Forall_app].
  rewrite Hp, Hp'. rewrite <- !app_assoc. apply Permutation_app_head. rewrite !app_assoc. apply Permutation_app_tail, Permutation_app_comm.
Qed.

Lemma distinct_rest l sk k : l ≡ₚ sk ++ k -> all_distinct l -> all_distinct k.
Proof using.
  intros Hp Hd. pose proof (all_distinct_perm _ _ Hp Hd) as H. clear Hp Hd.
  induction sk as [|e sk IH]; [done|]. cbn in H. inversion H; subst. by apply IH.
Qed.

Lemma map_rest_first cs : Forall it_open cs -> child_entries rest (map seek_to_first cs) = child_entries contents cs.
Proof using.
  induction 1 as [|c cs Hc _ IH]; [done|]. unfold child_entries in *. cbn [map concat].
  rewrite IH. f_equal. by apply first_rest.
Qed.

#[export] Instance merging_iterator_laws : IteratorLaws M.
Proof using HL.
  refine {| it_open := merging_open; it_ok := merging_ok; contents := merging_contents; rest := merging_rest |}.
  - intros m [_ Hd]. by apply sort_entries_sorted.
  - intros m (_ & Hd & _). by apply sort_entries_sorted.
  - intros m (Hok & Hd & ->). unfold merging_rest. cbn [children_ find_smallest].
    change (valid (find_smallest (children_ m))) with (bool_decide (is_Some (current_ (find_smallest (children_ m))))).
    destruct (find_smallest_cases _ Hok Hd) as [[-> ->]|(i & c & e & l & -> & _ & _ & ->)]; cbn; done.
  - intros m e l (Hok & Hd & ->) He. unfold merging_rest in He. cbn [children_ find_smallest] in He.
    destruct (find_smallest_cases _ Hok Hd) as [[_ Hn]|(i & c & e' & l' & Hi & Hc & Hr & Hs)]; [by rewrite Hn in He|].
    rewrite Hs in He. injection He as <- _. cbn. unfold merging_key, merging_value, current_child.
    rewrite Hi. cbn. rewrite Hc. eapply key_value_rest; [by eapply Forall_lookup_1|done].
  - intros m e l (Hok & Hd & Hm) He. rewrite Hm in He |- *. unfold merging_rest in He. cbn [children_ find_smallest] in He.
    destruct (find_smallest_cases _ Hok Hd) as [[_ Hn]|(i & c & e' & l' & Hi & Hc & Hr & Hs)]; [by rewrite Hn in He|].
    rewrite Hs in He. injection He as <- <-. cbn [next merging_iterator]. unfold merging_next. rewrite Hi.
    cbn [children_ find_smallest]. assert (it_ok c) as Hokc by (by eapply Forall_lookup_1).
    destruct (child_entries_next _ i c e' l' Hokc Hc Hr) as [Hp Hok'].
    split; [|done]. split_and!; cbn [children_ find_smallest]; [by apply Hok'| |done].
    by apply (distinct_rest _ [e'] _ Hp).
  - intros m [Ho Hd]. cbn [seek_to_first merging_iterator]. unfold merging_seek_to_first.
    split; [split_and!; cbn [children_ find_smallest]|].
    + apply positioned; [|done]. intros. by apply first_rest.
    + by rewrite map_rest_first.
    + done.
    + unfold merging_rest, merging_contents. cbn [children_ find_smallest]. by rewrite map_rest_first.
  - intros lk m [Ho Hd]. cbn [seek merging_iterator]. unfold merging_seek.
    destruct (seek_children lk (children_ m) Ho) as (sk & Hp & Hs & Ha).
    split; [split_and!; cbn [children_ find_smallest]|].
    + apply positioned; [|done]. intros. by apply seek_rest.
    + by apply (distinct_rest _ sk _ Hp).
    + done.
    + exists sk. unfold merging_rest, merging_contents. cbn [children_ find_smallest].
      split_and!; [by rewrite !sort_entries_perm|done|by rewrite sort_entries_perm].
Defined.
End merging_laws.

(** ** What a user sees *)

(** The newest version of its key among those not newer than [s], and not a deletion (an
    empty value). *)
Definition newest_visible (s : Z) (l : list entry) (e : entry) : Prop :=
  e ∈ l /\ seqno e <= s /\ e.2 <> [] /\ forall f, f ∈ l -> ukey f = ukey e -> seqno f <= s -> seqno f <= seqno e.

(** The entries the loop stops at, when it skips the keys up to [skip]. *)
Definition skipped (skip : option (list Z)) (e : entry) : bool :=
  match skip with Some k => negb (bool_decide (bytes_compare (ukey e) k = Gt)) | None => false end.

Fixpoint visible (s : Z) (skip : option (list Z)) (l : list entry) : list entry :=
  match l with
  | [] => []
  | e :: l' =>
      if seqno e <=? s then
        if bool_decide (e.2 = []) then visible s (Some (ukey e)) l'
        else if skipped skip e then visible s skip l'
        else e :: visible s (Some (ukey e)) l'
      else visible s skip l'
  end.

Definition skip_ok (skip : option (list Z)) (l : list entry) : Prop :=
  match skip with Some k => Forall (fun e => bytes_compare (ukey e) k <> Lt) l | None => True end.

Lemma entry_lt_cases e f : entry_lt e f ->
  bytes_compare (ukey e) (ukey f) = Lt \/ (ukey e = ukey f /\ seqno f < seqno e).
Proof.
  unfold entry_lt, internal_compare, ukey, seqno. destruct (bytes_compare _ _) eqn:E; intros Hlt; [|by left|done].
  right. apply bytes_compare_eq in E. apply Z.compare_lt_iff in Hlt. done.
Qed.

Lemma skip_ok_self e l : Forall (entry_lt e) l -> skip_ok (Some (ukey e)) l.
Proof.
  intros H. eapply Forall_impl; [done|]. intros f Hf Hc.
  destruct (entry_lt_cases e f Hf) as [Hlt|[Heq _]]; rewrite (bytes_compare_antisym (ukey e)) in Hc.
  - by rewrite Hlt in Hc.
  - by rewrite Heq, bytes_compare_refl in Hc.
Qed.

Lemma skip_ok_between skip x e l : skip_ok skip (x :: l) -> e ∈ l -> entry_lt x e -> skip = Some (ukey e) -> ukey x = ukey e.
Proof.
  intros Hsk He Hlt ->. apply Forall_cons in Hsk as [Hx _].
  destruct (entry_lt_cases x e Hlt) as [Hc|[Hc _]]; [by destruct Hx|done].
Qed.

Lemma skipped_self skip x l : skip_ok skip (x :: l) -> skipped skip x = true <-> skip = Some (ukey x).
Proof.
  intros Hsk. destruct skip as [k|]; [|done]. apply Forall_cons in Hsk as [Hx _]. cbn.
  rewrite negb_true_iff, bool_decide_eq_false. split.
  - intros H. destruct (bytes_compare (ukey x) k) eqn:E; [|done..]. apply bytes_compare_eq in E. by rewrite E.
  - intros [= ->]. by rewrite bytes_compare_refl.
Qed.

(** The newest version in a sorted list: the first one with its user key. *)
Lemma newest_cons s x l e : Forall (entry_lt x) l -> e ∈ l -> seqno x <= s ->
  newest_visible s (x :: l) e <-> newest_visible s l e /\ ukey x <> ukey e.
Proof.
  intros Hx He Hs. unfold newest_visible. split.
  - intros (_ & Hse & Hv & Hn). split_and!; [done..| |].
    + intros f Hf. apply Hn. by right.
    + intros Heq. rewrite Forall_forall in Hx. destruct (entry_lt_cases x e (Hx e He)) as [Hc|[_ Hc]].
      * by rewrite Heq, bytes_compare_refl in Hc.
      * specialize (Hn x ltac:(left) Heq Hs). lia.
  - intros ((_ & Hse & Hv & Hn) & Hne). split_and!; [by right|done..|].
    intros f [->|Hf]%elem_of_cons Heq; [done|by apply Hn].
Qed.

Lemma elem_of_visible s skip l e : StronglySorted entry_lt l -> skip_ok skip l ->
  e ∈ visible s skip l <-> newest_visible s l e /\ skip <> Some (ukey e).
Proof.
  intros Hl. revert skip. induction Hl as [|x l Hl IH Hx]; intros skip Hsk.
  { cbn. unfold newest_visible. rewrite elem_of_nil. naive_solver. }
  assert (skip_ok skip l) as Hskl by (destruct skip; [by apply Forall_cons in Hsk as [_ ?]|done]).
  assert (forall e, e ∈ l -> seqno x <= s ->
    (newest_visible s l e /\ Some (ukey x) <> Some (ukey e)) <-> (newest_visible s (x :: l) e /\ skip <> Some (ukey e))) as Htail.
  { intros f Hf Hs. rewrite newest_cons by done.
    split; [|intros [[? ?] ?]; split; [done|congruence]]. intros [Hn Hne]. split; [split; [done|congruence]|].
    intros Hk. apply Hne. f_equal. apply (skip_ok_between skip x f l); [done|done| |done].
    rewrite Forall_forall in Hx. by apply Hx. }
  assert (forall e k, newest_visible s k e -> e ∈ k) as Hin by (by intros ? ? [? _]).
  cbn [visible]. destruct (Z.leb_spec (seqno x) s) as [Hs|Hs].
  2:{ rewrite IH by done. unfold newest_visible. split.
      - intros ((He & Hse & Hv & Hn) & Hk). split_and!; [by right|done..| |done].
        intros f [->|Hf]%elem_of_cons; [lia|by apply Hn].
      - intros ((He & Hse & Hv & Hn) & Hk). apply elem_of_cons in He as [->|He]; [lia|].
        split_and!; [done..| |done]. intros f Hf. apply Hn. by right. }
  case_bool_decide as Hval.
  - rewrite IH by (by apply skip_ok_self). split.
    + intros H. pose proof (Hin _ _ (proj1 H)). by apply Htail.
    + intros [Hn Hk]. pose proof Hn as (He & _ & Hv & _). apply elem_of_cons in He as [->|He]; [done|]. by apply Htail.
  - destruct (skipped skip x) eqn:Hskx.
    + apply (skipped_self skip x l Hsk) in Hskx. rewrite IH by done. subst skip. split.
      * intros H. pose proof (Hin _ _ (proj1 H)). by apply Htail.
      * intros [Hn Hk]. pose proof Hn as (He & _ & Hv & _). apply elem_of_cons in He as [->|He]; [done|]. by apply Htail.
    + rewrite elem_of_cons, IH by (by apply skip_ok_self).
      assert (skip <> Some (ukey x)) as Hnk by (intros H; apply (skipped_self skip x l Hsk) in H; by rewrite H in Hskx).
      split.
      * intros [->|H]; [|pose proof (Hin _ _ (proj1 H)); by apply Htail]. split; [|done].
        split_and!; [left|done..|]. intros f [->|Hf]%elem_of_cons Heq _; [lia|].
        rewrite Forall_forall in Hx. destruct (entry_lt_cases x f (Hx f Hf)) as [Hc|[_ Hc]]; [|lia].
        by rewrite Heq, bytes_compare_refl in Hc.
      * intros [Hn Hk]. pose proof Hn as (He & _). apply elem_of_cons in He as [->|He]; [by left|right]. by apply Htail.
Qed.

Lemma visible_skip s skip l e : StronglySorted entry_lt l -> skip_ok (Some skip) l ->
  e ∈ visible s (Some skip) l -> bytes_compare skip (ukey e) = Lt.
Proof.
  intros Hl Hsk He. rewrite elem_of_visible in He by done. destruct He as [[He _] Hne].
  assert (bytes_compare (ukey e) skip <> Lt) as Hc by (cbn in Hsk; rewrite Forall_forall in Hsk; by apply Hsk).
  rewrite (bytes_compare_antisym (ukey e)). destruct (bytes_compare (ukey e) skip) eqn:E; [|done..].
  apply bytes_compare_eq in E. subst. done.
Qed.

Definition key_lt (p q : list Z * list Z) : Prop := bytes_compare p.1 q.1 = Lt.

(** The pair of user key and value that the user reads. *)
Definition shown (e : entry) : list Z * list Z := (ukey e, e.2).

Lemma visible_sorted s skip l : StronglySorted entry_lt l -> StronglySorted key_lt (map shown (visible s skip l)).
Proof.
  intros Hl. revert skip. induction Hl as [|x l Hl IH Hx]; intros skip; cbn [visible]; [constructor|].
  destruct (seqno x <=? s); [|apply IH]. case_bool_decide; [apply IH|]. destruct (skipped skip x); [apply IH|].
  cbn [map]. constructor; [apply IH|]. apply Forall_map, Forall_forall. intros e He.
  apply (visible_skip s (ukey x) l e); [done|by apply skip_ok_self|done].
Qed.

Section user_laws.
Context {I : Type} `{HI : Iterator I} {HL : IteratorLaws I}.
#[local] Abbreviation U := (ObUserIterator I).

Lemma find_next_loop_spec fuel s it skipping skip : it_ok it -> rest it <> [] -> (length (rest it) <= fuel)%nat ->
  let '(it', ok) := find_next_loop fuel s it skipping skip in
  let vis := visible s (if skipping then Some skip else None) (rest it) in
  it_ok it' /\ (length (rest it') <= length (rest it))%nat /\
  if ok then exists e l, rest it' = e :: l /\ vis = e :: visible s (Some (ukey e)) l else vis = [].
Proof using HL.
  revert it skipping skip. induction fuel as [|fuel IH]; intros it skipping skip Hok Hne Hf.
  { destruct (rest it); [done|cbn in Hf; lia]. }
  destruct (rest it) as [|e l] eqn:Er; [done|]. cbn [length] in *.
  pose proof (key_value_rest it e l Hok Er) as Ekv. cbn [find_next_loop].
  assert (key it = e.1) as -> by (by rewrite <- Ekv). assert (value it = e.2) as -> by (by rewrite <- Ekv).
  destruct (next_rest it e l Hok Er) as [Hokn Hrn].
  assert (forall skipping skip,
    let '(it', ok) := if valid (next it) then find_next_loop fuel s (next it) skipping skip else (next it, false) in
    let vis := visible s (if skipping then Some skip else None) l in
    it_ok it' /\ (length (rest it') <= S (length l))%nat /\
    if ok then exists e l, rest it' = e :: l /\ vis = e :: visible s (Some (ukey e)) l else vis = []) as Hcont.
  { intros sk k. rewrite (valid_rest _ Hokn). case_bool_decide as Hl; cbn [negb].
    - rewrite Hrn in *. split_and!; [done|lia|]. by rewrite Hl.
    - specialize (IH (next it) sk k Hokn Hl). rewrite Hrn in IH.
      destruct (find_next_loop fuel s (next it) sk k) as [it' ok]. destruct IH as (? & ? & ?); [lia|]. split_and!; [done|lia|done]. }
  change (extract_sequence e.1) with (seqno e). change (extract_user_key e.1) with (ukey e). cbn [visible].
  destruct (seqno e <=? s); [|by apply Hcont]. case_bool_decide; [by apply (Hcont true)|].
  destruct (skipping && _) eqn:Esk.
  - apply andb_true_iff in Esk as [-> Esk]. cbn [skipped]. rewrite Esk. by apply (Hcont true).
  - assert (skipped (if skipping then Some skip else None) e = false) as ->.
    { destruct skipping; [|done]. cbn in Esk |- *. done. }
    split_and!; [done|rewrite Er; cbn; lia|]. by exists e, l.
Qed.

(** The state after a positioning call that found something: the current entry and what
    comes after it. *)
Definition user_at (u : U) (e : entry) (l : list entry) : Prop :=
  it_ok (iter_ u) /\ valid_ u = true /\ exists l', rest (iter_ u) = e :: l' /\ l = visible (seq_ u) (Some (ukey e)) l'.

Lemma find_next_user_entry_spec fuel u skipping : it_ok (iter_ u) -> rest (iter_ u) <> [] ->
  (length (rest (iter_ u)) <= fuel)%nat ->
  let u' := find_next_user_entry fuel u skipping in
  seq_ u' = seq_ u /\ (length (rest (iter_ u')) <= length (rest (iter_ u)))%nat /\
  match visible (seq_ u) (if skipping then Some (saved_key_ u) else None) (rest (iter_ u)) with
  | [] => valid_ u' = false
  | e :: l => user_at u' e l
  end.
Proof using HL.
  intros Hok Hne Hf. unfold find_next_user_entry.
  pose proof (find_next_loop_spec fuel (seq_ u) (iter_ u) skipping (saved_key_ u) Hok Hne Hf) as H.
  destruct (find_next_loop _ _ _ _ _) as [it' ok]. destruct H as (Hok' & Hlen & H). cbn zeta. cbn [seq_ iter_ valid_].
  split_and!; [done|done|]. destruct ok.
  - destruct H as (e & l & Hr & ->). split_and!; [done|done|]. by exists l.
  - by rewrite H.
Qed.

Lemma user_next_spec fuel u e l : user_at u e l -> (length (rest (iter_ u)) <= fuel)%nat ->
  let u' := user_next fuel u in
  seq_ u' = seq_ u /\ (length (rest (iter_ u')) < length (rest (iter_ u)))%nat /\
  match l with [] => valid_ u' = false | e' :: l' => user_at u' e' l' end.
Proof using HL.
  intros (Hok & _ & l0 & Hr & ->) Hf. destruct (next_rest _ _ _ Hok Hr) as [Hokn Hrn].
  pose proof (key_value_rest _ _ _ Hok Hr) as Ekv. unfold user_next.
  assert (extract_user_key (key (iter_ u)) = ukey e) as -> by (unfold ukey; by rewrite <- Ekv).
  rewrite (valid_rest _ Hokn), negb_involutive, Hrn, Hr in *. cbn [length] in *.
  case_bool_decide as Hl.
  - cbn [iter_ seq_ valid_]. rewrite Hrn. split_and!; [done|lia|]. by rewrite Hl.
  - destruct (find_next_user_entry_spec fuel
      {| iter_ := next (iter_ u); seq_ := seq_ u; lookup_key_ := lookup_key_ u; saved_key_ := ukey e; valid_ := valid_ u |} true)
      as (Hs & Hlen & Hm); cbn [iter_]; [done|by rewrite Hrn|rewrite Hrn; lia|].
    cbn [iter_ seq_ saved_key_] in *. rewrite Hrn in *. split_and!; [done|lia|done].
Qed.

Lemma read_all_spec fuel u e l : user_at u e l -> (length (rest (iter_ u)) <= fuel)%nat ->
  read_all fuel u = map shown (e :: l).
Proof using HL.
  revert u e l. induction fuel as [|fuel IH]; intros u e l Hu Hf; pose proof Hu as (Hok & Hv & l0 & Hr & _).
  { rewrite Hr in Hf. cbn in Hf. lia. }
  pose proof (key_value_rest _ _ _ Hok Hr) as Ekv. cbn [read_all]. rewrite Hv.
  destruct (user_next_spec (S fuel) u e l Hu Hf) as (Hs & Hlen & Hm).
  cbn [map]. f_equal; [unfold shown, user_key, user_value, ukey; by rewrite <- Ekv|].
  destruct l as [|e' l'].
  - destruct fuel; [done|]. cbn [read_all]. by rewrite Hm.
  - apply IH; [done|lia].
Qed.

(** Whatever the first call positions the iterator at. *)
Lemma read_positioned fuel u : it_ok (iter_ u) -> (length (rest (iter_ u)) <= fuel)%nat ->
  read_all fuel (if valid (iter_ u) then find_next_user_entry fuel u false else set_invalid u) =
  map shown (visible (seq_ u) None (rest (iter_ u))).
Proof using HL.
  intros Hok Hf. rewrite (valid_rest _ Hok). case_bool_decide as Hn; cbn [negb].
  - rewrite Hn. by destruct fuel.
  - destruct (find_next_user_entry_spec fuel u false Hok Hn Hf) as (Hs & Hlen & Hm).
    destruct (visible _ None _) as [|e l].
    + destruct fuel; [done|]. cbn [read_all]. by rewrite Hm.
    + apply read_all_spec; [done|lia].
Qed.
End user_laws.

Section lookup_keys.

Definition lookup_key (target : list Z) (s : Z) : list Z :=
  le_bytes 8 (zlen target + Z.of_nat SEQ_SIZE) ++ target ++ le_bytes 8 s.

Lemma lookup_key_parts target s : 0 <= s < 2 ^ 64 ->
  extract_user_key_from_lookup_key (lookup_key target s) = target /\ extract_sequence (lookup_key target s) = s.
Proof.
  intros Hs. assert (length (lookup_key target s) = 8 + length target + 8)%nat as Hl
    by (unfold lookup_key; rewrite !length_app, !le_bytes_length; lia).
  unfold extract_user_key_from_lookup_key, extract_sequence, user_key_size_from_lookup_key. rewrite Hl.
  unfold LOOKUP_KEY_PREFIX_SIZE, SEQ_SIZE, lookup_key. split.
  - rewrite drop_app_length' by (by rewrite le_bytes_length). by rewrite take_app_length' by lia.
  - rewrite app_assoc, drop_app_length' by (rewrite length_app, le_bytes_length; lia).
    rewrite <- (app_nil_r (le_bytes 8 s)). by apply get_numeric_app.
Qed.
End lookup_keys.

Section reading.
Context {I : Type} `{HI : Iterator I} {HL : IteratorLaws I}.

(** Reading from the start: for every user key its newest visible version, in key order. *)
Lemma read_from_first (it : I) s fuel : it_open it -> (length (contents it) <= fuel)%nat ->
  read_all fuel (user_seek_to_first fuel (new_user_iterator it s)) = map shown (visible s None (contents it)).
Proof using HL.
  intros Ho Hf. destruct (first_rest it Ho) as [Hok Hr].
  pose proof (read_positioned fuel (with_iter (new_user_iterator it s) (seek_to_first it))) as H.
  cbn [iter_ with_iter seq_ new_user_iterator] in H. rewrite Hr in H. by apply H.
Qed.

(** A fresh iterator seeks with the lookup key of its target. *)
Lemma user_seek_fresh (it : I) s fuel target :
  user_seek fuel target (new_user_iterator it s) =
  let u := {| iter_ := seek (lookup_key target s) it; seq_ := s; lookup_key_ := lookup_key target s;
              saved_key_ := []; valid_ := false |} in
  if valid (iter_ u) then find_next_user_entry fuel u false else set_invalid u.
Proof using.
  unfold user_seek. cbn [lookup_key_ seq_ new_user_iterator].
  assert (put_numeric 8 (put_numeric 8 [] (zlen target + Z.of_nat SEQ_SIZE) ++ target) s = lookup_key target s) as ->
    by (unfold put_numeric, lookup_key; by rewrite <- !app_assoc). done.
Qed.

Lemma newest_visible_perm s (l k : list entry) e : l ≡ₚ k -> newest_visible s l e <-> newest_visible s k e.
Proof using. intros Hp. unfold newest_visible. by setoid_rewrite Hp. Qed.

(** What is visible after a [seek]: the visible entries from the target on. *)
Lemma seek_visible (it : I) s k e : it_open it -> 0 <= s < 2 ^ 64 ->
  e ∈ visible s None (rest (seek (lookup_key k s) it)) <->
  newest_visible s (contents it) e /\ bytes_compare (ukey e) k <> Lt.
Proof using.
  intros Ho Hs. destruct (seek_rest (lookup_key k s) it Ho) as (Hok & sk & Hp & Hsk & Ha).
  rewrite elem_of_visible by (done || by apply rest_sorted).
  destruct (lookup_key_parts k s Hs) as [Eu Es]. rewrite (newest_visible_perm _ _ _ _ Hp).
  rewrite Forall_forall in Hsk. unfold skippable in Hsk. rewrite Eu, Es in Hsk.
  rewrite Forall_forall in Ha. unfold at_or_after in Ha. rewrite Eu in Ha.
  assert (forall f, f ∈ sk -> seqno f <= s -> bytes_compare (ukey f) k = Lt) as Hnew.
  { intros f Hf Hfs. specialize (Hsk f Hf). destruct (bytes_compare (ukey f) k) eqn:E; [lia|done..]. }
  unfold newest_visible. split.
  - intros [(He & Hse & Hv & Hn) _]. split; [|by apply Ha]. split_and!; [apply elem_of_app; by right|done..|].
    intros f [Hf|Hf]%elem_of_app Hfe Hfs; [|by apply Hn]. specialize (Hnew f Hf Hfs). rewrite Hfe in Hnew.
    by apply Ha in He.
  - intros [(He & Hse & Hv & Hn) Hge]. split; [|done].
    apply elem_of_app in He as [He|He]; [by specialize (Hnew e He Hse)|].
    split_and!; [done..|]. intros f Hf. apply Hn. apply elem_of_app. by right.
Qed.

(** If the first visible key is not [k], no visible key is. *)
Lemma first_visible s k (R : list entry) e l f : StronglySorted entry_lt R -> visible s None R = e :: l ->
  Forall (fun g => bytes_compare (ukey g) k <> Lt) R -> ukey e <> k -> f ∈ e :: l -> ukey f = k -> False.
Proof using.
  intros Hs Ev Ha Hk Hf Hfk. apply elem_of_cons in Hf as [Hfe|Hf]; [congruence|].
  pose proof (visible_sorted s None R Hs) as Hks. rewrite Ev in Hks. cbn [map] in Hks.
  inversion Hks as [|? ? _ Hall]; subst. rewrite Forall_map, Forall_forall in Hall.
  specialize (Hall f Hf). unfold key_lt, shown in Hall. cbn in Hall.
  assert (e ∈ R) as HeR. { apply (elem_of_visible s None R e); [done|done|]. rewrite Ev. left. }
  rewrite Forall_forall in Ha. by apply (Ha e HeR).
Qed.

Lemma lsm_get_spec (it : I) s fuel k : it_open it -> 0 <= s < 2 ^ 64 -> (length (contents it) <= fuel)%nat ->
  match lsm_get fuel (new_user_iterator it s) k with
  | (SUCCESS, Some v) => exists e, newest_visible s (contents it) e /\ ukey e = k /\ e.2 = v
  | (rc, v) => rc = NOT_EXIST /\ v = None /\ forall e, newest_visible s (contents it) e -> ukey e <> k
  end.
Proof using HL.
  intros Ho Hs Hf. unfold lsm_get. rewrite user_seek_fresh. cbn zeta. cbn [iter_].
  destruct (seek_rest (lookup_key k s) it Ho) as (Hok & sk & Hp & _ & Ha).
  destruct (lookup_key_parts k s Hs) as [Eu _].
  pose proof (fun e => seek_visible it s k e Ho Hs) as Hvis. rewrite (valid_rest _ Hok).
  set (R := rest (seek (lookup_key k s) it)) in *.
  set (u := {| iter_ := seek (lookup_key k s) it; seq_ := s; lookup_key_ := _; saved_key_ := []; valid_ := false |}).
  assert (length R <= fuel)%nat as Hlen by (apply Permutation_length in Hp; rewrite length_app in Hp; lia).
  assert (forall e, newest_visible s (contents it) e -> ukey e = k -> e ∈ visible s None R) as Hnew.
  { intros e He Hk. apply Hvis. by rewrite Hk, bytes_compare_refl. }
  case_bool_decide as Hn; cbn [negb].
  - cbn. split_and!; [done..|]. intros e He Hk. specialize (Hnew e He Hk). rewrite Hn in Hnew. by apply not_elem_of_nil in Hnew.
  - destruct (find_next_user_entry_spec fuel u false Hok Hn Hlen) as (_ & _ & Hm). cbn [iter_ seq_ u] in Hm. fold R in Hm.
    destruct (visible s None R) as [|e l] eqn:Ev.
    + rewrite Hm. cbn. split_and!; [done..|]. intros e He Hk. specialize (Hnew e He Hk). by apply not_elem_of_nil in Hnew.
    + destruct Hm as (Hok' & -> & l' & Hr' & _). pose proof (key_value_rest _ _ _ Hok' Hr') as Ekv.
      assert (user_key (find_next_user_entry fuel u false) = ukey e) as -> by (unfold user_key, ukey; by rewrite <- Ekv).
      assert (user_value (find_next_user_entry fuel u false) = e.2) as -> by (unfold user_value; by rewrite <- Ekv).
      destruct (proj1 (Hvis e) ltac:(left)) as [He _]. pose proof He as (_ & _ & Hv & _). cbn [andb].
      case_bool_decide as Hk; [by rewrite bool_decide_false by done; exists e|].
      split_and!; [done..|]. intros f Hf' Hfk.
      apply (first_visible s k R e l f); [by apply rest_sorted|done| |done|by apply Hnew|done].
      eapply Forall_impl; [apply Ha|]. intros g. unfold at_or_after. by rewrite Eu.
Qed.
End reading.

(** The entries of one user key made by [ObMemTable::put]: the key followed by the sequence
    number. *)
Definition internal_key (k : list Z) (s : Z) : list Z := put_numeric 8 k s.

(** C18: Reading an LSM tree through a merging iterator and a user iterator with sequence
    number [s] (over any sources that keep the iterator contract, with pairwise different
    internal keys) shows, from the first key on, the user keys in strictly increasing order,
    and for every key exactly its newest version not newer than [s], unless that version is
    a deletion; every [next] terminates. *)
Theorem lsm_read_newest {I : Type} `{HI : Iterator I} `{HL : !IteratorLaws I} (cs : list I) (s : Z) (fuel : nat) :
  Forall it_open cs -> all_distinct (child_entries contents cs) ->
  (length (child_entries contents cs) <= fuel)%nat ->
  let out := read_all fuel (user_seek_to_first fuel
    (new_user_iterator {| children_ := cs; current_ := None |} s)) in
  StronglySorted key_lt out /\
  forall k v, (k, v) ∈ out <->
    exists e, newest_visible s (child_entries contents cs) e /\ ukey e = k /\ e.2 = v.
Proof.
  intros Ho Hd Hf. set (m := {| children_ := cs; current_ := None |}).
  assert (it_open m) as Hm by done. pose proof (contents_sorted m Hm) as Hs.
  assert (contents m ≡ₚ child_entries contents cs) as Hp by apply sort_entries_perm.
  cbn zeta. rewrite (read_from_first m s fuel) by (done || rewrite Hp; done).
  split; [by apply visible_sorted|]. intros k v. rewrite list_elem_of_fmap.
  setoid_rewrite (fun e => elem_of_visible s None (contents m) e Hs ltac:(done)).
  setoid_rewrite (fun e => newest_visible_perm s _ _ e Hp). unfold shown. naive_solver.
Qed.

(** Two blocks with two versions of the key 1, a deletion of the key 2 and a newer version of
    the key 3. *)
Definition demo_block1 : ObBlockBuilder :=
  let '(_, b) := builder_add builder_reset (internal_key [1] 5) [10] in
  let '(_, b) := builder_add b (internal_key [2] 6) [] in b.
Definition demo_block2 : ObBlockBuilder :=
  let '(_, b) := builder_add builder_reset (internal_key [1] 2) [20] in
  let '(_, b) := builder_add b (internal_key [2] 3) [30] in
  let '(_, b) := builder_add b (internal_key [3] 9) [40] in b.
Definition demo_children : list BlockIterator := [new_block_iterator demo_block1; new_block_iterator demo_block2].

Lemma demo_children_open : Forall it_open demo_children /\ all_distinct (child_entries contents demo_children).
Proof.
  split.
  - repeat constructor; try done.
  - repeat constructor; vm_compute; done.
Qed.

Lemma lsm_read_newest_witness :
  read_all 5 (user_seek_to_first 5 (new_user_iterator {| children_ := demo_children; current_ := None |} 7)) = [([1], [10])] /\
  (exists e, newest_visible 7 (child_entries contents demo_children) e /\ ukey e = [1] /\ e.2 = [10]).
Proof.
  split; [by vm_compute|].
  apply (lsm_read_newest demo_children 7 5); [apply demo_children_open..|by vm_compute|]. vm_compute. left.
Defined.

(** [ObLsmImpl::get] over a fresh iterator with sequence number [s] returns the value of
    the newest version of the key not newer than [s], and [NOT_EXIST] when there is no such
    version or it is a deletion; the search terminates. *)
Theorem lsm_get_newest {I : Type} `{HI : Iterator I} `{HL : !IteratorLaws I} (it : I) (s : Z) (fuel : nat) (k : list Z) :
  it_open it -> 0 <= s < 2 ^ 64 -> (length (contents it) <= fuel)%nat ->
  match lsm_get fuel (new_user_iterator it s) k with
  | (SUCCESS, Some v) => exists e, newest_visible s (contents it) e /\ ukey e = k /\ e.2 = v
  | (rc, v) => rc = NOT_EXIST /\ v = None /\ forall e, newest_visible s (contents it) e -> ukey e <> k
  end.
Proof. apply lsm_get_spec. Qed.

Lemma lsm_get_newest_witness :
  lsm_get 5 (new_user_iterator {| children_ := demo_children; current_ := None |} 7) [1] = (SUCCESS, Some [10]) /\
  exists e, newest_visible 7 (contents {| children_ := demo_children; current_ := None |}) e /\ ukey e = [1] /\ e.2 = [10].
Proof.
  split; [by vm_compute|].
  pose proof (lsm_get_newest {| children_ := demo_children; current_ := None |} 7 5 [1]) as H.
  assert (lsm_get 5 (new_user_iterator {| children_ := demo_children; current_ := None |} 7) [1] = (SUCCESS, Some [10])) as E
    by (by vm_compute).
  rewrite E in H. apply H; [apply demo_children_open|lia|by vm_compute].
Defined.

(** Entries added to a block come back from its iterator, which then keeps the contract. *)
Lemma built_block_open b es : builder_repr b es -> es <> [] -> StronglySorted entry_lt es ->
  it_open (new_block_iterator b) /\ contents (new_block_iterator b) = es.
Proof.
  intros Hr Hne Hs. pose proof (block_contents_built b es Hr) as E. split; [|done]. split; [|by rewrite E].
  cbn. rewrite (br_offsets _ _ Hr). by destruct es.
Qed.

(** [ObUserIterator::seek] appends to [lookup_key_] without clearing it, so the second [seek]
    of an iterator looks for the wrong key: the key 1 is there, and a fresh iterator finds
    it, but not one that has looked for 3 before. *)
Lemma second_seek_misses :
  let u := new_user_iterator {| children_ := demo_children; current_ := None |} 9 in
  let u1 := user_seek 5 [1] u in
  let u31 := user_seek 5 [1] (user_seek 5 [3] u) in
  (valid_ u1 = true /\ user_key u1 = [1]) /\ ~ (valid_ u31 = true /\ user_key u31 = [1]).
Proof. vm_compute. split; [done|]. intros [? ?]. done. Qed.
