(* ===== verification/LsmTable.v ===== *)
(** * LsmTable: tables stored in an LSM tree

    [src/src/observer/storage/table/lsm_table_engine.cpp] (the keys that [insert_record]
    makes) and [src/src/observer/storage/record/lsm_record_scanner.cpp] (scanning one table),
    over the iterators of [LsmIter] and the keys of [OrderedCode]. *)

From stdpp Require Import sorting.
From S2P Require Import Prelude Bytes OrderedCode LsmIter.
#[local] Open Scope Z_scope.

(** ** [LsmTableEngine::insert_record]

    The key of the next row and the new value of the counter [inc_id_]; the row is then put
    under that key. *)
Definition insert_record_key (table_id inc_id : Z) : list Z * Z :=
  ((Codec.encode table_id inc_id []).2, uint64 (inc_id + 1)).

(** ** [LsmRecordScanner] *)
Section scanner.
Context {I : Type} `{Iterator I}.
#[local] Abbreviation U := (ObUserIterator I).

Definition open_scan (fuel : nat) (table_id : Z) (lsm_iter : U) : RC * U :=
  let '(rc, encoded_key) := Codec.encode_without_rid table_id [] in
  if OB_FAIL rc then (rc, lsm_iter) else (rc, user_seek fuel encoded_key lsm_iter).

(** The return code of [decode] is not looked at; a key it cannot parse leaves 0. *)
Definition scan_next (fuel : nat) (table_id : Z) (lsm_iter : U) : RC * option (list Z * list Z) * U :=
  if valid_ lsm_iter then
    let lsm_key := user_key lsm_iter in
    let lsm_value := user_value lsm_iter in
    let '(_, id) := Codec.decode lsm_key 0 in
    if negb (id =? table_id) then (RECORD_EOF, None, lsm_iter)
    else (SUCCESS, Some (lsm_key, lsm_value), user_next fuel lsm_iter)
  else (RECORD_EOF, None, lsm_iter).

(** A client that calls [next] until it fails: the records and the last code, or [None]
    when [fuel] calls were not enough. *)
Fixpoint scan_loop (fuel : nat) (table_id : Z) (lsm_iter : U) : option (list (list Z * list Z) * RC) :=
  match fuel with
  | O => None
  | S fuel' =>
      match scan_next fuel table_id lsm_iter with
      | (SUCCESS, Some r, it) => '(l, rc) ← scan_loop fuel' table_id it; Some (r :: l, rc)
      | (rc, _, _) => Some ([], rc)
      end
  end.

Definition scan_table (fuel : nat) (table_id : Z) (lsm_iter : U) : option (list (list Z * list Z) * RC) :=
  let '(rc, it) := open_scan fuel table_id lsm_iter in
  if OB_FAIL rc then Some ([], rc) else scan_loop fuel table_id it.
End scanner.

(** ** Keys *)

Definition row_key (table_id rid : Z) : list Z := (Codec.encode table_id rid []).2.
Definition table_key (table_id : Z) : list Z := (Codec.encode_without_rid table_id []).2.

Definition is_table_id (t : Z) : Prop := - 2 ^ 63 <= t < 2 ^ 63.
Definition is_rid (r : Z) : Prop := 0 <= r < 2 ^ 64.

Lemma encode_fields t r : is_table_id t -> is_rid r ->
  Codec.encode t r [] = (SUCCESS, fields_code [FString Codec.table_prefix; FInt t; FString Codec.rowkey_prefix; FUint r]).
Proof.
  intros Ht Hr. unfold Codec.encode. rewrite !append_string_code. cbn [OB_FAIL bool_decide].
  rewrite append_int64_code, append_string_code, append_uint64_code by done.
  unfold fields_code. cbn [map concat field_code]. by rewrite !app_nil_r, !app_assoc.
Qed.

Lemma encode_table_fields t : is_table_id t ->
  Codec.encode_without_rid t [] = (SUCCESS, fields_code [FString Codec.table_prefix; FInt t]).
Proof.
  intros Ht. unfold Codec.encode_without_rid. rewrite append_string_code. cbn [OB_FAIL bool_decide].
  rewrite append_int64_code by done. unfold fields_code. cbn [map concat field_code]. by rewrite !app_nil_r, ?app_assoc.
Qed.

(** A row's key is its table's key followed by the code of the row. *)
Lemma row_key_split t r : is_table_id t -> is_rid r ->
  row_key t r = table_key t ++ fields_code [FString Codec.rowkey_prefix; FUint r].
Proof.
  intros Ht Hr. unfold row_key, table_key. rewrite encode_fields, encode_table_fields by done.
  unfold fields_code. cbn [snd map concat]. by rewrite !app_nil_r, <- !app_assoc.
Qed.

Lemma table_fields_ok t : is_table_id t -> Forall field_ok [FString Codec.table_prefix; FInt t].
Proof. intros Ht. repeat constructor; cbn; unfold is_byte; try lia; apply Ht. Qed.

Lemma row_fields_ok r : is_rid r -> Forall field_ok [FString Codec.rowkey_prefix; FUint r].
Proof. intros Hr. repeat constructor; cbn; unfold is_byte; try lia; apply Hr. Qed.

Lemma table_key_compare t t' r s : is_table_id t -> is_table_id t' ->
  bytes_compare (table_key t ++ r) (table_key t' ++ s) = match t ?= t' with Eq => bytes_compare r s | c => c end.
Proof.
  intros Ht Ht'. unfold table_key. rewrite !encode_table_fields by done. cbn [snd].
  rewrite fields_code_order; [|by apply table_fields_ok..|by repeat constructor].
  cbn [fields_compare field_compare]. rewrite bytes_compare_refl. by destruct (t ?= t').
Qed.

(** Rows sort by table, then by row number. *)
Lemma row_key_compare t r t' r' : is_table_id t -> is_rid r -> is_table_id t' -> is_rid r' ->
  bytes_compare (row_key t r) (row_key t' r') = match t ?= t' with Eq => r ?= r' | c => c end.
Proof.
  intros Ht Hr Ht' Hr'. rewrite !row_key_split, table_key_compare by done. destruct (t ?= t'); [|done..].
  rewrite <- (app_nil_r (fields_code [_; FUint r])), <- (app_nil_r (fields_code [_; FUint r'])).
  rewrite fields_code_order; [|by apply row_fields_ok..|by repeat constructor].
  cbn [fields_compare field_compare]. rewrite bytes_compare_refl. by destruct (r ?= r').
Qed.

Lemma table_key_row t t' r : is_table_id t -> is_table_id t' -> is_rid r ->
  bytes_compare (row_key t' r) (table_key t) <> Lt <-> t <= t'.
Proof.
  intros Ht Ht' Hr. rewrite row_key_split, <- (app_nil_r (table_key t)), table_key_compare by done.
  destruct (Z.compare_spec t' t) as [->|?|?]; [|split; [done|lia]|split; [lia|done]].
  split; [lia|]. intros _. by destruct (fields_code [FString Codec.rowkey_prefix; FUint r]).
Qed.

Lemma int_code_length x : is_table_id x -> zlen (int_code x) <= 10.
Proof.
  intros Hx. unfold int_code. assert (forall y, 0 <= y < 2 ^ 63 -> zlen (nat_code y) <= 10) as H.
  { intros y Hy. destruct (int_width_spec y Hy) as [Hw _]. unfold nat_code. rewrite zlen_be. lia. }
  unfold is_table_id in Hx. destruct (Z.ltb_spec x 0); [|apply H; lia].
  unfold OrderedCode.invert, zlen. rewrite length_map. apply H. unfold Z.lnot. lia.
Qed.

Lemma decode_row_key t r d : is_table_id t -> is_rid r -> Codec.decode (row_key t r) d = (SUCCESS, t).
Proof.
  intros Ht Hr. unfold row_key, Codec.decode. rewrite encode_fields by done.
  pose proof (nbytes_uint64 r Hr). pose proof (int_code_length t Ht).
  unfold fields_code. cbn [snd map concat field_code]. rewrite app_nil_r.
  rewrite <- (xored_0 (string_code Codec.table_prefix)), (parse_string_code 0);
    [|by left|by repeat constructor; unfold is_byte; lia|].
  2:{ rewrite !zlen_app. unfold uint_code. rewrite zlen_cons, zlen_be. change (zlen (string_code Codec.table_prefix)) with 3.
      change (zlen (string_code Codec.rowkey_prefix)) with 3. lia. }
  cbn [OB_FAIL bool_decide]. rewrite <- (xored_0 (int_code t)), (parse_int64_code 0); [done|by left|done].
Qed.

(** ** Scanning *)

(** All entries of the tree are rows: their user keys were made by [insert_record]. *)
Definition rows_only (l : list (list Z * list Z)) : Prop :=
  Forall (fun e => exists t r, is_table_id t /\ is_rid r /\ ukey e = row_key t r) l.

Definition table_of (k : list Z) : Z := (Codec.decode k 0).2.

(** The records up to the first one of another table. *)
Fixpoint while_table (t : Z) (l : list (list Z * list Z)) : list (list Z * list Z) :=
  match l with
  | [] => []
  | p :: l' => if table_of p.1 =? t then p :: while_table t l' else []
  end.

Section scan.
Context {I : Type} `{HI : Iterator I} {HL : IteratorLaws I}.
#[local] Abbreviation U := (ObUserIterator I).

Lemma scan_loop_end fuel t (u : U) : valid_ u = false -> scan_loop (S fuel) t u = Some ([], RECORD_EOF).
Proof using. intros Hv. cbn [scan_loop]. unfold scan_next. by rewrite Hv. Qed.

Lemma scan_loop_spec fuel t (u : U) e l : user_at u e l -> (length (rest (iter_ u)) < fuel)%nat ->
  scan_loop fuel t u = Some (while_table t (map shown (e :: l)), RECORD_EOF).
Proof using HL.
  revert u e l. induction fuel as [|fuel IH]; intros u e l Hu Hf; [lia|].
  pose proof Hu as (Hok & Hv & l0 & Hr & _). pose proof (key_value_rest _ _ _ Hok Hr) as Ekv.
  cbn [scan_loop map while_table]. unfold scan_next. rewrite Hv.
  assert (user_key u = ukey e) as -> by (unfold user_key, ukey; by rewrite <- Ekv).
  assert (user_value u = e.2) as -> by (unfold user_value; by rewrite <- Ekv).
  unfold table_of. cbn [shown fst]. destruct (Codec.decode (ukey e) 0) as [rc id]. cbn [snd].
  destruct (id =? t); cbn [negb]; [|done].
  destruct (user_next_spec (S fuel) u e l Hu ltac:(lia)) as (_ & Hlen & Hm).
  destruct l as [|e' l'].
  - destruct fuel; [rewrite Hr in Hf; cbn in Hf; lia|]. by rewrite scan_loop_end.
  - rewrite (IH _ e' l') by (done || lia). done.
Qed.

Lemma scan_positioned fuel t (u : U) : it_ok (iter_ u) -> (length (rest (iter_ u)) < fuel)%nat ->
  scan_loop fuel t (if valid (iter_ u) then find_next_user_entry fuel u false else set_invalid u) =
  Some (while_table t (map shown (visible (seq_ u) None (rest (iter_ u)))), RECORD_EOF).
Proof using HL.
  intros Hok Hf. destruct fuel as [|fuel]; [lia|]. rewrite (valid_rest _ Hok). case_bool_decide as Hn; cbn [negb].
  - rewrite Hn. by apply scan_loop_end.
  - destruct (find_next_user_entry_spec (S fuel) u false Hok Hn ltac:(lia)) as (Hs & Hlen & Hm).
    destruct (visible _ None _) as [|e l]; [by apply scan_loop_end|]. apply scan_loop_spec; [done|lia].
Qed.

Lemma scan_seek fuel t (it : I) s target : it_open it -> (length (contents it) < fuel)%nat ->
  scan_loop fuel t (user_seek fuel target (new_user_iterator it s)) =
  Some (while_table t (map shown (visible s None (rest (seek (lookup_key target s) it)))), RECORD_EOF).
Proof using HL.
  intros Ho Hf. destruct (seek_rest (lookup_key target s) it Ho) as (Hok & sk & Hp & _).
  rewrite user_seek_fresh. cbn zeta. apply (scan_positioned fuel t {| iter_ := seek (lookup_key target s) it; seq_ := s;
    lookup_key_ := lookup_key target s; saved_key_ := []; valid_ := false |}); [done|].
  cbn [iter_]. apply Permutation_length in Hp. rewrite length_app in Hp. lia.
Qed.
End scan.

(** In a list of rows sorted by key, without rows of earlier tables, the table's rows come
    first. *)
Lemma while_table_filter t l : is_table_id t -> StronglySorted key_lt l ->
  Forall (fun p => exists t' r, is_table_id t' /\ is_rid r /\ t <= t' /\ p.1 = row_key t' r) l ->
  StronglySorted key_lt (while_table t l) /\
  forall p, p ∈ while_table t l <-> p ∈ l /\ exists r, is_rid r /\ p.1 = row_key t r.
Proof.
  intros Ht Hl Hrows. induction Hl as [|p l Hl IH Hp].
  { split; [constructor|]. intros p. cbn. rewrite elem_of_nil. naive_solver. }
  apply Forall_cons in Hrows as [(t' & r & Ht' & Hr & Hle & Ep) Hrows]. specialize (IH Hrows) as [IHs IHe].
  cbn [while_table]. unfold table_of. rewrite Ep, decode_row_key by done. cbn [snd].
  destruct (Z.eqb_spec t' t) as [->|Hne].
  - split.
    + constructor; [done|]. rewrite Forall_forall in Hp |- *. intros q [Hq _]%IHe. by apply Hp.
    + intros q. rewrite !elem_of_cons, IHe. split; [intros [->|[? ?]]; [|by auto]|naive_solver].
      split; [by left|]. by exists r.
  - split; [constructor|]. intros q. rewrite elem_of_nil. split; [done|]. intros [Hq (r' & Hr' & Eq)].
    apply elem_of_cons in Hq as [->|Hq].
    + rewrite Ep in Eq. pose proof (decode_row_key t' r 0 Ht' Hr) as D. rewrite Eq, decode_row_key in D by done. by simplify_eq.
    + rewrite Forall_forall in Hp. specialize (Hp q Hq). unfold key_lt in Hp.
      rewrite Ep, Eq, row_key_compare in Hp by done. destruct (Z.compare_spec t' t); [lia|lia|done].
Qed.

(** C17: Scanning a table of the LSM engine (with a fresh iterator of sequence number [s], over
    a tree that holds rows of any tables, in any number of sources) terminates with
    [RECORD_EOF] and returns, in the order of the row numbers, exactly the newest visible
    version of every row of that table and no row of another table. *)
Theorem lsm_scan_complete {I : Type} `{HI : Iterator I} `{HL : !IteratorLaws I} (it : I) (s t : Z) (fuel : nat) :
  it_open it -> rows_only (contents it) -> is_table_id t -> 0 <= s < 2 ^ 64 -> (length (contents it) < fuel)%nat ->
  exists out, scan_table fuel t (new_user_iterator it s) = Some (out, RECORD_EOF) /\
    StronglySorted key_lt out /\
    forall k v, (k, v) ∈ out <->
      exists r e, is_rid r /\ k = row_key t r /\ newest_visible s (contents it) e /\ ukey e = k /\ e.2 = v.
Proof.
  intros Ho Hrows Ht Hs Hf. unfold scan_table, open_scan. rewrite encode_table_fields by done.
  assert (fields_code [FString Codec.table_prefix; FInt t] = table_key t) as ->
    by (unfold table_key; by rewrite encode_table_fields).
  change (OB_FAIL SUCCESS) with false. cbv iota beta zeta.
  rewrite scan_seek by done. eexists. split; [done|].
  pose proof (fun e => seek_visible it s (table_key t) e Ho Hs) as Hvis.
  destruct (seek_rest (lookup_key (table_key t) s) it Ho) as (Hok & _).
  pose proof (visible_sorted s None _ (rest_sorted _ Hok)) as Hsorted.
  set (L := visible s None _) in *. unfold rows_only in Hrows. rewrite Forall_forall in Hrows.
  destruct (while_table_filter t (map shown L)) as [HsW HeW]; [done|done| |split; [done|]].
  - apply Forall_map, Forall_forall. intros e [[He _] Hge]%Hvis. destruct (Hrows e He) as (t' & r & Ht' & Hr & Ek).
    exists t', r. split_and!; [done..| |done]. rewrite Ek in Hge. by apply table_key_row in Hge.
  - intros k v. rewrite HeW, list_elem_of_fmap. unfold shown. split.
    + intros [(e & [= -> ->] & [He _]%Hvis) (r & Hr & Ek)]. by exists r, e.
    + intros (r & e & Hr & Ek & He & Hk & Hv). split; [|by exists r]. exists e. rewrite Hk, Hv. split; [done|].
      apply Hvis. split; [done|]. rewrite Hk, Ek. apply table_key_row; done || lia.
Qed.

(** Rows 0 and 1 of table 5 and row 0 of tables 4 and 6, in two blocks. *)
Definition demo_rows1 : ObBlockBuilder :=
  let '(_, b) := builder_add builder_reset (internal_key (row_key 4 0) 1) [41] in
  let '(_, b) := builder_add b (internal_key (row_key 5 1) 4) [52] in b.
Definition demo_rows2 : ObBlockBuilder :=
  let '(_, b) := builder_add builder_reset (internal_key (row_key 5 0) 2) [51] in
  let '(_, b) := builder_add b (internal_key (row_key 6 0) 3) [61] in b.
Definition demo_tables : ObMergingIterator BlockIterator :=
  {| children_ := [new_block_iterator demo_rows1; new_block_iterator demo_rows2]; current_ := None |}.

Lemma demo_tables_open : it_open demo_tables.
Proof. split; [repeat constructor; done|]. repeat constructor; vm_compute; done. Qed.

Lemma demo_tables_rows : rows_only (contents demo_tables).
Proof.
  unfold rows_only, is_table_id, is_rid.
  assert (map ukey (contents demo_tables) = [row_key 4 0; row_key 5 0; row_key 5 1; row_key 6 0]) as E by (by vm_compute).
  apply Forall_forall. intros e He. assert (ukey e ∈ map ukey (contents demo_tables)) as Hk by (by apply list_elem_of_fmap_2).
  rewrite E in Hk. repeat (apply elem_of_cons in Hk as [->|Hk]; [eexists _, _; split_and!; [..|done]; lia|]).
  by apply not_elem_of_nil in Hk.
Qed.

Lemma lsm_scan_complete_witness : exists out,
  scan_table 5 5 (new_user_iterator demo_tables 9) = Some (out, RECORD_EOF) /\ map snd out = [[51]; [52]].
Proof.
  destruct (lsm_scan_complete demo_tables 9 5 5) as (out & E & _);
    [apply demo_tables_open|apply demo_tables_rows|unfold is_table_id; lia|lia|by vm_compute|].
  exists out. split; [done|].
  assert (scan_table 5 5 (new_user_iterator demo_tables 9) = Some ([(row_key 5 0, [51]); (row_key 5 1, [52])], RECORD_EOF)) as E'
    by (by vm_compute). rewrite E' in E. injection E as <-. done.
Defined.
